(* ===== verification/_CoqProject ===== *)
-Q . S2P
Prelude.v
CLib.v
NetUtil.v
Alloc.v
Cache.v
Locks.v
PoolLock.v
PoolShared.v
Buffer.v
Message.v
ClientInfo.v
CacheTheorems.v
BufferTheorems.v
ClientTheorems.v
ClientLock.v
Server.v
ServerSpec.v
ServerLoop.v
ServerTurns.v
ServerTheorems.v
LinuxList.v
HList.v
ListIter.v
Threads.v
ThreadTheorems.v
Interleave.v
InterleaveTheorems.v
ReaderTheorems.v
ClientList.v
Blocks.v
IMClient.v
ServerRun.v
RunTheorems.v
BlockTheorems.v
Chat.v
Conversation.v
FineInv.v
FineWriter.v
FineReader.v
FineTheorems.v
FineDelivery.v
FineInput.v
ServerMain.v
ClientMain.v
