(* ===== verification/Prelude.v ===== *)
(** * A verification development for the IM chat system

    The program is a chat server ([src/IMServer.c]) and a terminal client
    ([src/IMClient.c]) over a small library: intrusive lists
    ([include/collections/list.h]), a pool of fixed-size caches
    ([src/io/cache.c]), byte buffers made of such caches ([src/io/buffer.c]),
    messages ([src/entity/message.c]), client objects
    ([src/entity/client_info.c]) and address conversions ([src/net_util.c]).  A
    client owns two buffers; a buffer owns caches of the pool; the server keeps the
    clients in a list that its three threads share.  The listening thread adds
    clients, the reading thread moves the bytes of every socket into the client's
    reading buffer and handles the complete lines ("LOGIN: n", "TO-ALL: text",
    "TO-C-n: text"), which queues messages in writing buffers, and the writing
    thread flushes these and logs out the clients marked as failed.

    ** Modelling

    C functions are functions in the monad [M S]: a state and one of the outcomes
    [Ret] (the call returns), [UB] (an access that C leaves undefined) and
    [OutOfFuel].  A pointer into memory is the list of the bytes readable from it;
    what lies behind a block is an explicit argument ([after], [behind],
    [heap_after]), so an overread is a definite result.  Values of type [size_t]
    and [int] are integers with [u64] and [i32] written out where the code can
    wrap.  The results of system calls and of [malloc] are scripts in the state
    or arguments, and the theorems quantify over them.

    - Prelude.v: outcomes, the monad, [wp] (total correctness, or correctness up
      to undefined behaviour) with its rules, tactics and shared lemmas.
    - CLib.v: integers at their width, memory blocks, the string functions.
    - NetUtil.v: [net_util.c], same function names; [NetMem] holds its blocks.
    - Alloc.v: [Cache] and the interface of the pool, [CacheModule] and
      [CacheLifecycle] with their laws; Buffer.v to ServerMain.v are proved against
      the interface.
    - Cache.v: [cache.c] on the state [mem], an instance of the interface;
      CacheTheorems.v: its properties.
    - Locks.v: the lock macros of [common.h], threads as programs of single accesses
      ([lprog]) that share a lock, their interleavings ([lmove]), and why a section
      under the lock may be taken as one step.
    - PoolLock.v: [cache.c] access by access under its spin lock, and the threads
      that use it.  PoolShared.v: the module as one thread sees it while others use
      it, with the life of its lock: the second instance of the interface.
    - Buffer.v: [buffer.c]; a buffer is the list of its nodes, [contents] the
      bytes held, [buffer_inv] the invariant, [owns] the caches owned.  The common
      body of [read_into_buffer] and [write_into_buffer] is [fill_buffer].
      BufferTheorems.v: its properties.
    - Message.v, ClientInfo.v: [message.c] and [client_info.c];
      ClientTheorems.v: their properties.  ClientLock.v: sending to a client and
      flushing it, access by access under the client's writing lock.
    - Server.v: [IMServer.c]: [World] is what the threads share, every handler is
      one definition, the loop bodies of the threads are [handle_listen_turn],
      [read_sockets_turn] and [write_sockets_turn].  ServerSpec.v: the invariants
      [world_ok] and [server_ok], the grammar [parse_line], delivery.
      ServerLoop.v: the abstract chat ([abs_heap], [handle_line]) and the message
      loop.  ServerTurns.v: flush, logout and listen.  ServerTheorems.v: the
      properties.
    - LinuxList.v: the list operations of [list.h] on a heap of pointers; the
      other files use Rocq lists, and its theorems say that the operations do to
      a well-formed heap list ([dlist]) what those lists do.  ListIter.v: its
      loops over entries and its loops whose body may remove the entry.  HList.v:
      the [hlist] half, on a memory of words, because a node points to a pointer.
    - ClientList.v: the list of the clients as [IMServer.c] keeps it, a list of
      [list.h] whose nodes are allocated and freed, with every section under the
      server's mutex access by access.
    - Blocks.v: messages, lines, and the copies of the client list as blocks that
      are allocated and freed, with all handlers and turns of Server.v over them,
      and [does], the relation between the two.  BlockTheorems.v: which blocks the
      handlers and the turns leave.
    - Threads.v: the three threads as a step relation on [sys], one client per
      step; ThreadTheorems.v: what holds of every reachable state, and a race.
    - Interleave.v: the threads again as programs of single actions ([prog]),
      an access or a locked section each, with the relation [move];
      InterleaveTheorems.v: that these programs run alone are the handlers of
      Server.v, a rely-guarantee logic, and what it shows of the writing thread.
      ReaderTheorems.v: the two threads relying on each other, and the only accesses
      of the reading thread that can go wrong.
    - ServerRun.v: whole turns as events, the invariant [server_inv] of the
      server, the users ([user_ok]) and their sockets, and that every turn keeps
      it; RunTheorems.v: its theorems.
    - FineInv.v: [fine_inv], the server invariant between any two actions, and what
      keeps it; [wire], what a client has got and has queued.  FineWriter.v,
      FineReader.v: two logics over the programs of Interleave.v, one for each
      thread, with their rules for every part of a turn.  FineTheorems.v: the
      admissible interleavings and what holds along them.  FineDelivery.v: a
      delivery, and one line, with the other threads in between; FineInput.v: the
      whole input of a client.
    - ServerMain.v: [main] of the server and [handle_listen] with the creation and
      joining of the threads.
    - IMClient.v: the client's login line, the composition of a typed line, its
      poll loop, and the agreement with the server's grammar.  ClientMain.v:
      [main] of the client around them, its blocks and its socket.
    - Chat.v: client and server composed: from a line typed at one client to what
      the others show.  Conversation.v: many lines, typed at any of the clients,
      and the transcript that each client gets.

    ** What the theorems show

    Soundness, under the assumptions below: from a state with the invariant every
    admissible run of the server - connections, arriving bytes, turns of the threads -
    goes to its end and keeps the invariant.  The same holds when single actions of
    the threads are interleaved, except that the reading thread may meet a released
    client in a snapshot; and what a client is sent arrives as whole messages whatever
    is interleaved.  Refinement: handling a message,
    the loop over the messages of a buffer and a readable socket change the
    abstract chat as [handle_line] says, line by line, also when the writing thread
    flushes and logs out clients between any two actions of it; what is typed at the
    clients, line after line, reaches the others as their transcripts;
    [handle_listen] is the small machine [listening_of]; the handlers on blocks
    compute what the handlers on values do, the sections on nodes what the
    definitions on sequences do.  Function: buffers are FIFO queues under short
    reads and writes; delivery, login, logout, accept and flush change exactly what
    they should; the list operations implement list operations; what the client
    composes is what the server parses.  Equivalence: the turns taken action by
    action are the turns; the loops over entries are the loops over heads;
    interleaved accesses under the pool's lock or the server's mutex come to what
    whole sections in some order come to; messages sent to a client at the same time
    arrive whole.  Bounds: offsets, names, counts and sizes in every state the server
    reaches.
    Safety: the pool never hands a cache out twice, to one thread or to two; the
    polling loop of the reading thread touches only live clients, whatever is
    interleaved between two clients, and the writing thread touches only live
    clients, whatever is interleaved between two accesses - while a delivery and the
    debug print of the reading thread can touch a released one, and no other of its
    accesses can.  Errors: what a
    failing call does, on each branch, including the branches that are undefined
    behaviour (failed reads and writes, long names and lines, the login line, a
    snapshot printed after a logout), and how both programs end.  Leaks: exactly
    which blocks the handlers and the turns do not free.

    ** Assumptions

    The code relies on memory that C does not give it, and the theorems say where.
    Messages and lines are blocks without a NUL that are searched and copied as
    strings, so the theorems that claim that a call returns assume that a NUL can be
    read behind every heap block ([terminated], [behind]); [line_scan_overreads] shows
    that this is needed for almost every line, [empty_broadcast_leaks] what can come
    of it.  The pool reads 18 ints behind an array and a node that it has freed, and
    does not test its allocations: [pool_inv false] assumes that these reads meet
    readable memory and that no allocation fails, [pool_inv true] does not, and
    [cache_run_invariant] says that nothing else can go wrong.  [admissible] adds, for
    whole runs: input that keeps to the protocol (safe lines: [line_safe]; the others
    are [long_target_overflows] and [empty_broadcast_leaks]), socket calls that do not
    fail (what failures do: [write_error_rewinds], [read_error_recovery]), fewer than
    2^27 clients, because the code computes a size in an [int], and queues that fit a
    [size_t].  The code checks none of these.

    ** Bounds and fuel

    Every loop that is not structural takes fuel from a measure that its
    specification proves sufficient: [size + 1] rounds for the fill loops, the
    nodes for the copy loop, the nodes and the scripted short writes for the flush
    loop, the bytes of the reading buffer for the message loop.  Totality theorems say
    that the call returns, so fuel never shows in a property.  Sizes are bounded
    by 2^31 (an [int] in the code) where the code converts them.

    ** Not modelled

    Logging and its macros (except the printing of a snapshot, which reads client
    objects) and the texts on the terminal.  In Interleave.v a section under a lock is
    one action, and what is not under a lock is cut at every access to a client
    object; races on one field and weak memory are out of reach.  The locks are
    proved adequate one at a time: PoolLock.v, ClientLock.v and ClientList.v have
    one lock each; where a section of the second asks the pool for a cache, the
    request is one access, as the first allows.
    Blocks.v runs one thread at a time.  A thread that gives up for want of memory
    takes no further step.  [LIST_HEAD] and its like are the states their [INIT_]
    macros write; prototypes and casts have no counterpart.

    ** Further work

    Blocks shared by interleaved threads (Blocks.v runs one thread at a time); in the
    clients' conversations, lines that overlap on their way: what the server does with
    them is FineInput.v.
*)
From Corelib Require Export ssreflect.
From Stdlib Require Export ZArith Lia.
From Stdlib Require Import Strings.Byte.
From stdpp Require Export base option list list_numbers numbers gmap strings.

#[export] Set Warnings "-clear-no-such-hyp".
#[global] Open Scope general_if_scope.
#[global] Open Scope Z_scope.

(** ** Outcomes

    [Ret a]: the C code returns.  [UB]: the execution performs an access that
    the C standard leaves undefined (a write outside an object, a NULL
    dereference, a scan that runs off the readable memory, a use of freed
    memory).  [OutOfFuel]: a loop of the model was cut; the theorems show that
    this never happens with the fuel the definitions pass. *)
Inductive outcome (A : Type) : Type :=
| Ret (a : A)
| UB
| OutOfFuel.
Arguments Ret {A} a.
Arguments UB {A}.
Arguments OutOfFuel {A}.

#[global] Instance outcome_ret : MRet outcome := fun A a => Ret a.
#[global] Instance outcome_bind : MBind outcome := fun A B f m =>
  match m with
  | Ret a => f a
  | UB => UB
  | OutOfFuel => OutOfFuel
  end.

(** The state monad over [outcome]: the state is the memory shared by the
    calls (the allocator, the cache pool). *)
Definition M (S A : Type) : Type := S -> outcome (A * S).

#[global] Instance M_ret (S : Type) : MRet (M S) := fun A a s => Ret (a, s).
#[global] Instance M_bind (S : Type) : MBind (M S) := fun A B f m s =>
  match m s with
  | Ret (a, s') => f a s'
  | UB => UB
  | OutOfFuel => OutOfFuel
  end.

Definition lift {S A} (o : outcome A) : M S A := fun s =>
  match o with
  | Ret a => Ret (a, s)
  | UB => UB
  | OutOfFuel => OutOfFuel
  end.
Definition undef {S A} : M S A := fun _ => UB.
Definition timeout {S A} : M S A := fun _ => OutOfFuel.
Definition getS {S} : M S S := fun s => Ret (s, s).
Definition putS {S} (s : S) : M S () := fun _ => Ret (tt, s).

(** ** Weakest preconditions

    [wp u m s Q]: run from [s], [m] returns and [Q] holds of the result, or
    ([u = true] only) the run is undefined behaviour.  So [wp false] is total
    correctness and [wp true] is correctness up to undefined behaviour. *)
Definition wp {S A} (u : bool) (m : M S A) (s : S) (Q : A -> S -> Prop) : Prop :=
  match m s with
  | Ret (a, s') => Q a s'
  | UB => u = true
  | OutOfFuel => False
  end.

(** The same for a computation that does not touch the state. *)
Definition owp {A} (u : bool) (o : outcome A) (Q : A -> Prop) : Prop :=
  match o with
  | Ret a => Q a
  | UB => u = true
  | OutOfFuel => False
  end.

(** Bytes of memory. *)
#[global] Instance byte_eq_decision : EqDecision Byte.byte := Byte.byte_eq_dec.
Abbreviation byte := Byte.byte.
Abbreviation bytes := (list Byte.byte).

Create HintDb im.

Section wp_rules.
Context {S : Type}.

Lemma wp_ret {A} u (a : A) (s : S) Q : Q a s -> wp u (mret a) s Q.
Proof. done. Qed.

Lemma wp_bind {A B} u (m : M S A) (f : A -> M S B) (s : S) Q :
  wp u m s (fun a s' => wp u (f a) s' Q) -> wp u (mbind f m) s Q.
Proof. rw /wp /mbind /M_bind. by destruct (m s) as [[a s']| |]. Qed.

Lemma wp_mono {A} u (m : M S A) (s : S) (P Q : A -> S -> Prop) :
  wp u m s P -> (forall a s', P a s' -> Q a s') -> wp u m s Q.
Proof. rw /wp. destruct (m s) as [[a s']| |]; naive_solver. Qed.

Lemma wp_lift {A} u (o : outcome A) (s : S) Q :
  owp u o (fun a => Q a s) -> wp u (lift o) s Q.
Proof. rw /wp /lift /owp. by destruct o. Qed.

Lemma wp_getS u (s : S) Q : Q s s -> wp u getS s Q.
Proof. done. Qed.

Lemma wp_putS u (s t : S) Q : Q tt t -> wp u (putS t) s Q.
Proof. done. Qed.

Lemma wp_undef {A} (s : S) (Q : A -> S -> Prop) : wp true undef s Q.
Proof. done. Qed.

Lemma wp_total {A} (m : M S A) (s : S) Q :
  wp false m s Q -> exists a s', m s = Ret (a, s') /\ Q a s'.
Proof. rw /wp. destruct (m s) as [[a s']| |]; naive_solver. Qed.

Lemma wp_run {A} u (m : M S A) (s : S) a s' Q : m s = Ret (a, s') -> Q a s' -> wp u m s Q.
Proof. rw /wp. by intros ->. Qed.

Lemma wp_and {A} u (m : M S A) (s : S) (P Q : A -> S -> Prop) :
  wp u m s P -> (forall a s', m s = Ret (a, s') -> Q a s') -> wp u m s (fun a s' => P a s' /\ Q a s').
Proof. rw /wp. destruct (m s) as [[a s']| |]; [|done..]. intros HP HQ. split; [done|by apply HQ]. Qed.

Lemma wp_partial {A} u (m : M S A) (s : S) Q a s' :
  wp u m s Q -> m s = Ret (a, s') -> Q a s'.
Proof. rw /wp. by intros H E; rw E in H. Qed.

Lemma wp_fuel {A} u (m : M S A) (s : S) Q : wp u m s Q -> m s <> OutOfFuel.
Proof. rw /wp. by destruct (m s) as [[a s']| |]. Qed.

Lemma wp_weaken {A} u (m : M S A) (s : S) Q : wp false m s Q -> wp u m s Q.
Proof. rw /wp. by destruct (m s) as [[a s']| |]. Qed.
End wp_rules.

(** Equality of results, without computing them. *)
Lemma ret_inj {A S} (a b : A) (s t : S) : Ret (a, s) = Ret (b, t) -> a = b /\ s = t.
Proof. by intros [= -> ->]. Qed.

Lemma owp_ret {A} u (a : A) Q : Q a -> owp u (Ret a) Q.
Proof. done. Qed.

Lemma owp_bind {A B} u (m : outcome A) (f : A -> outcome B) Q :
  owp u m (fun a => owp u (f a) Q) -> owp u (mbind f m) Q.
Proof. by destruct m. Qed.

Lemma owp_mono {A} u (m : outcome A) (P Q : A -> Prop) :
  owp u m P -> (forall a, P a -> Q a) -> owp u m Q.
Proof. destruct m; naive_solver. Qed.

Lemma owp_total {A} (m : outcome A) Q : owp false m Q -> exists a, m = Ret a /\ Q a.
Proof. destruct m; naive_solver. Qed.

(** What is in a part of a list is in the list. *)
Lemma elem_of_take_in {A} (x : A) n l : x ∈ take n l -> x ∈ l.
Proof. intros. rw -(take_drop n l). apply elem_of_app. by left. Qed.
Lemma elem_of_drop_in {A} (x : A) n l : x ∈ drop n l -> x ∈ l.
Proof. intros. rw -(take_drop n l). apply elem_of_app. by right. Qed.

#[export] Hint Resolve wp_ret owp_ret : im.

(** [wp_step]: one step through a bind or a basic computation, chosen by the
    head of the goal. *)
Ltac wp_step :=
  lazymatch goal with
  | |- wp _ (mbind _ _) _ _ => apply wp_bind
  | |- wp _ (lift _) _ _ => apply wp_lift
  | |- wp _ (mret _) _ _ => apply wp_ret
  | |- wp _ getS _ _ => apply wp_getS
  | |- wp _ (putS _) _ _ => apply wp_putS
  | |- owp _ (mbind _ _) _ => apply owp_bind
  | |- owp _ (mret _) _ => apply owp_ret
  | |- owp _ (Ret _) _ => apply owp_ret
  end; cbv beta.
Ltac wp_steps := repeat wp_step.
(** [wp_use H]: apply the specification [H] to the leading call of the goal. *)
Tactic Notation "wp_use" uconstr(H) :=
  lazymatch goal with
  | |- wp _ (mbind _ _) _ _ => eapply wp_bind, wp_mono; [eapply H|]
  | |- wp _ _ _ _ => eapply wp_mono; [eapply H|]
  | |- owp _ (mbind _ _) _ => eapply owp_bind, owp_mono; [eapply H|]
  | |- owp _ _ _ => eapply owp_mono; [eapply H|]
  end.
