(* ===== verification/CLib.v ===== *)
(** * C integers, memory blocks and C strings *)
From Stdlib Require Import Strings.Byte String.
From S2P Require Import Prelude.

(** ** Integers at their width *)

Definition u64 (z : Z) : Z := z mod 2 ^ 64.
Definition u16 (z : Z) : Z := z mod 2 ^ 16.
Definition i32 (z : Z) : Z := (z + 2 ^ 31) mod 2 ^ 32 - 2 ^ 31.
Definition SIZE_MAX : Z := 2 ^ 64 - 1.

Definition SUCC : Z := 0.
Definition FAIL : Z := -1.

(** [min(x, y)] of common.h on operands already converted to [size_t]. *)
Definition min_u64 (x y : Z) : Z := if u64 x <? u64 y then u64 x else u64 y.

(** ** Memory blocks *)

Definition nul : byte := x00.
Definition nl : byte := x0a.

Definition zeros (n : Z) : bytes := replicate (Z.to_nat n) nul.
Definition zlen {A} (l : list A) : Z := Z.of_nat (length l).

(** Stores [data] at offset [off] of a block; a store that leaves the block is
    undefined. *)
Definition mem_write (off : Z) (data blk : bytes) : outcome bytes :=
  match data with
  | [] => Ret blk
  | _ =>
    if (0 <=? off) && (off + zlen data <=? zlen blk)
    then Ret (take (Z.to_nat off) blk ++ data ++ drop (Z.to_nat off + length data) blk)
    else UB
  end.

(** Loads [n] bytes at offset [off] of a block. *)
Definition mem_read (off n : Z) (blk : bytes) : outcome bytes :=
  if n =? 0 then Ret []
  else if (0 <=? off) && (0 <? n) && (off + n <=? zlen blk)
  then Ret (take (Z.to_nat n) (drop (Z.to_nat off) blk))
  else UB.

(** The memory readable through a pointer to offset [off] of a block that is
    followed in memory by [after]. *)
Definition ptr_at (off : Z) (blk after : bytes) : outcome bytes :=
  if (0 <=? off) && (off <=? zlen blk)
  then Ret (drop (Z.to_nat off) blk ++ after)
  else UB.

(** ** C strings

    A pointer is modelled by the readable memory from it onwards. *)

Definition bs (s : string) : bytes := list_byte_of_string s.

(** The string at a pointer: the bytes before the first NUL. *)
Fixpoint cstr (m : bytes) : outcome bytes :=
  match m with
  | [] => UB
  | c :: m' => if decide (c = nul) then Ret [] else s ← cstr m'; Ret (c :: s)
  end.

Definition strlen (m : bytes) : outcome Z := s ← cstr m; Ret (zlen s).

Fixpoint strchr (m : bytes) (c : byte) : outcome (option Z) :=
  match m with
  | [] => UB
  | x :: m' =>
    if decide (x = c) then Ret (Some 0)
    else if decide (x = nul) then Ret None
    else r ← strchr m' c; Ret (option_map Z.succ r)
  end.

Definition is_prefix (p m : bytes) : bool := bool_decide (take (length p) m = p).

Fixpoint strstr (m p : bytes) : outcome (option Z) :=
  if is_prefix p m then Ret (Some 0)
  else match m with
       | [] => UB
       | x :: m' =>
         if decide (x = nul) then Ret None
         else r ← strstr m' p; Ret (option_map Z.succ r)
       end.

(** Where [p] first occurs in the whole of [l]. *)
Fixpoint find_sub (p l : bytes) : option nat :=
  if is_prefix p l then Some O
  else match l with
       | [] => None
       | _ :: l' => S <$> find_sub p l'
       end.

(** The sign of the first difference, bytes compared as [unsigned char]. *)
Fixpoint cmp_bytes (a b : bytes) : Z :=
  match a, b with
  | [], [] => 0
  | [], _ :: _ => -1
  | _ :: _, [] => 1
  | x :: a', y :: b' =>
    if decide (x = y) then cmp_bytes a' b'
    else if (Byte.to_N x <? Byte.to_N y)%N then -1 else 1
  end.

Definition strcmp (a b : bytes) : outcome Z :=
  s ← cstr a; t ← cstr b; Ret (cmp_bytes s t).

(** [strcpy] (and [sprintf] of the composed string [s]) into a block. *)
Definition store_cstr (s dst : bytes) : outcome bytes := mem_write 0 (s ++ [nul]) dst.
Definition strcpy (dst src : bytes) : outcome bytes := s ← cstr src; store_cstr s dst.

(** [strncpy]: exactly [n] bytes are stored, NUL-padded; at most [n] bytes of
    the source are read. *)
Fixpoint strn_take (n : nat) (src : bytes) : outcome bytes :=
  match n with
  | O => Ret []
  | S n' =>
    match src with
    | [] => UB
    | c :: src' =>
      if decide (c = nul) then Ret (replicate n nul)
      else r ← strn_take n' src'; Ret (c :: r)
    end
  end.
Definition strncpy (dst src : bytes) (n : Z) : outcome bytes :=
  d ← strn_take (Z.to_nat n) src; mem_write 0 d dst.

(** A byte string that a C string can hold. *)
Definition no_nul (s : bytes) : Prop := nul ∉ s.
#[global] Instance no_nul_dec s : Decision (no_nul s).
Proof. unfold no_nul. apply _. Defined.

(** The position of the first newline of [d], unless a NUL comes first. *)
Fixpoint first_line (d : bytes) : option nat :=
  match d with
  | [] => None
  | x :: d' =>
    if decide (x = nl) then Some O
    else if decide (x = nul) then None
    else S <$> first_line d'
  end.

(** A string literal. *)
Definition lit (s : string) : bytes := bs s ++ [nul].

#[global] Arguments mem_write : simpl never.
#[global] Arguments mem_read : simpl never.
#[global] Arguments store_cstr : simpl never.
#[global] Arguments bs : simpl never.

(** ** Lemmas *)

Lemma u64_small z : 0 <= z < 2 ^ 64 -> u64 z = z.
Proof. apply Z.mod_small. Qed.
Lemma u16_small z : 0 <= z < 2 ^ 16 -> u16 z = z.
Proof. apply Z.mod_small. Qed.
Lemma i32_small z : - 2 ^ 31 <= z < 2 ^ 31 -> i32 z = z.
Proof. intros. unfold i32. rw Z.mod_small; lia. Qed.
Lemma u64_range z : 0 <= u64 z < 2 ^ 64.
Proof. apply Z.mod_pos_bound. lia. Qed.
Lemma u64_minus_one : u64 (-1) = SIZE_MAX.
Proof. reflexivity. Qed.
Lemma u64_nonneg z : (0 <=? u64 z) = true.
Proof. pose proof (u64_range z). lia. Qed.

Lemma min_u64_small x y :
  0 <= x < 2 ^ 64 -> 0 <= y < 2 ^ 64 -> min_u64 x y = Z.min x y.
Proof. intros. unfold min_u64. rw !u64_small //. destruct (Z.ltb_spec x y); lia. Qed.

Lemma zlen_nonneg {A} (l : list A) : 0 <= zlen l.
Proof. unfold zlen. lia. Qed.
Lemma zlen_nil {A} : zlen (@nil A) = 0.
Proof. done. Qed.
Lemma zlen_cons {A} (x : A) l : zlen (x :: l) = 1 + zlen l.
Proof. unfold zlen. simpl. lia. Qed.
Lemma zlen_app {A} (l k : list A) : zlen (l ++ k) = zlen l + zlen k.
Proof. unfold zlen. rw length_app. lia. Qed.
Lemma zlen_zeros n : zlen (zeros n) = Z.max 0 n.
Proof. unfold zlen, zeros. rw length_replicate. lia. Qed.
Lemma zlen_take {A} n (l : list A) : zlen (take (Z.to_nat n) l) = Z.min (Z.max 0 n) (zlen l).
Proof. unfold zlen. rw length_take. lia. Qed.
Lemma zlen_drop {A} n (l : list A) : 0 <= n -> zlen (drop (Z.to_nat n) l) = Z.max 0 (zlen l - n).
Proof. unfold zlen. rw length_drop. lia. Qed.
Create Rewrite HintDb zlen.
#[export] Hint Rewrite @zlen_app @zlen_cons @zlen_nil zlen_zeros @zlen_take @zlen_drop : zlen.

Lemma mem_write_in off data blk :
  0 <= off -> off + zlen data <= zlen blk ->
  mem_write off data blk =
    Ret (take (Z.to_nat off) blk ++ data ++ drop (Z.to_nat off + length data) blk).
Proof.
  intros Hoff Hlen. unfold mem_write. destruct data as [|x data].
  - rw /= Nat.add_0_r take_drop //.
  - by rw (proj2 (Z.leb_le _ _) Hoff) (proj2 (Z.leb_le _ _) Hlen).
Qed.

(** Overwriting a whole block. *)
(** A scan for a pattern that neither occurs nor meets a NUL runs off. *)
Lemma strstr_unterminated p m : nul ∉ m -> find_sub p m = None -> strstr m p = UB.
Proof.
  induction m as [|x m IH]; intros Hm; cbn [find_sub strstr].
  - by destruct (is_prefix p []).
  - apply not_elem_of_cons in Hm as [Hx Hm]. destruct (is_prefix p (x :: m)); [done|].
    rw decide_False; [congruence|]. destruct (find_sub p m); [done|]. intros _. by rw IH.
Qed.

Lemma mem_write_fuel off data blk : mem_write off data blk <> OutOfFuel.
Proof. unfold mem_write. destruct data; [done|]. by destruct (_ && _). Qed.

Lemma mem_write_all data blk :
  zlen data = zlen blk -> mem_write 0 data blk = Ret data.
Proof.
  intros Hlen. rw mem_write_in; [lia|lia|]. unfold zlen in Hlen.
  rw /= drop_ge ?app_nil_r //. lia.
Qed.

(** [zl]: linear arithmetic over the lengths of compound byte strings. *)
Create Rewrite HintDb len.
#[export] Hint Rewrite @length_app @length_take @length_drop @length_replicate
  @length_fmap @length_nil @length_cons : len.
Ltac zl := unfold zlen, zeros in *; autorewrite with len in *; lia.

(** *** Scanning strings *)

Lemma first_line_lt d k : first_line d = Some k -> (k < length d)%nat.
Proof.
  revert k. induction d as [|x d IH]; intros k; simpl; [done|].
  repeat case_decide; [intros [= <-]; lia|done|].
  destruct (first_line d); [|done]. intros [= <-]. specialize (IH _ eq_refl). lia.
Qed.

(** A line is free of NULs and ends at its only newline. *)
Lemma first_line_spec d k :
  first_line d = Some k ->
  take (S k) d = take k d ++ [nl] /\ (nl ∉ take k d) /\ (nul ∉ take k d).
Proof.
  revert k. induction d as [|x d IH]; intros k; simpl; [done|].
  repeat case_decide; [|done|].
  - intros [= <-]. subst. split_and!; [done|set_solver..].
  - destruct (first_line d) as [j|]; [|done]. intros [= <-].
    destruct (IH _ eq_refl) as (H1 & H2 & H3). simpl.
    split_and!; [by f_equal|set_solver..].
Qed.

Lemma first_line_app d m :
  nl ∉ d -> nul ∉ d -> first_line (d ++ nl :: m) = Some (length d).
Proof.
  induction d as [|x d IH]; intros H1 H2; simpl.
  - done.
  - apply not_elem_of_cons in H1 as [? H1]. apply not_elem_of_cons in H2 as [? H2].
    repeat case_decide; try congruence. by rw IH.
Qed.

Lemma strchr_line d m k :
  first_line d = Some k -> strchr (d ++ m) nl = Ret (Some (Z.of_nat k)).
Proof.
  revert k. induction d as [|x d IH]; intros k; simpl; [done|].
  repeat case_decide; [by intros [= <-]|done|].
  destruct (first_line d) as [j|]; [|done]. intros [= <-].
  rw (IH _ eq_refl) /=. do 2 f_equal. lia.
Qed.

(** Without a line in [d], a scan that finds a terminator later reports
    nothing inside [d]. *)
Lemma strchr_no_line d m :
  first_line d = None -> nul ∈ m ->
  exists r, strchr (d ++ m) nl = Ret r /\ forall k, r = Some k -> zlen d <= k.
Proof.
  intros Hd Hm. induction d as [|x d IH]; simpl in *.
  - clear Hd. induction m as [|y m IHm]; [by apply not_elem_of_nil in Hm|]. simpl.
    repeat case_decide; [eexists; split; [done|]; intros ? [= <-]; done|by eexists|].
    destruct IHm as (r & -> & Hr); [set_solver|]. simpl. eexists. split; [done|].
    intros k. destruct r as [j|]; [|done]. intros [= <-]. specialize (Hr _ eq_refl).
    rw zlen_nil in Hr |- *. lia.
  - repeat case_decide; [done|by eexists|].
    destruct (first_line d); [done|]. destruct (IH eq_refl) as (r & -> & Hr).
    eexists. split; [done|]. intros k. destruct r as [j|]; [|done]. intros [= <-].
    specialize (Hr _ eq_refl). rw zlen_cons. lia.
Qed.

(** *** Strings in memory *)

Lemma cstr_nul s m : nul ∉ s -> cstr (s ++ nul :: m) = Ret s.
Proof.
  induction s as [|x s IH]; intros Hs; simpl; [done|].
  apply not_elem_of_cons in Hs as [? Hs]. case_decide; [congruence|]. by rw IH.
Qed.

Lemma cstr_no_nul m s : cstr m = Ret s -> nul ∉ s.
Proof.
  revert s. induction m as [|x m IH]; intros s; simpl; [done|].
  case_decide; [intros [= <-]; apply not_elem_of_nil|].
  destruct (cstr m); [|done..]. intros [= <-]. apply not_elem_of_cons. auto.
Qed.

(** A string and what follows it in its block. *)
Lemma cstr_split m s : cstr m = Ret s -> exists rest, m = s ++ nul :: rest.
Proof.
  revert s. induction m as [|x m IH]; intros s; simpl; [done|].
  case_decide; [intros [= <-]; subst; by exists m|].
  destruct (cstr m); [|done..]. intros [= <-]. destruct (IH _ eq_refl) as [rest ->].
  by exists rest.
Qed.

Lemma cstr_total m : nul ∈ m -> exists s, cstr m = Ret s.
Proof.
  induction m as [|x m IH]; intros Hm; simpl; [by apply not_elem_of_nil in Hm|].
  case_decide; [by eexists|]. destruct IH as [s ->]; [set_solver|]. by eexists.
Qed.

Lemma store_cstr_in s dst :
  zlen s < zlen dst ->
  store_cstr s dst = Ret (s ++ nul :: drop (Z.to_nat (zlen s + 1)) dst).
Proof.
  intros Hlen. unfold store_cstr. rw mem_write_in; [lia|zl|].
  rw Nat.add_0_l take_0 /= -app_assoc /=. do 4 f_equal. zl.
Qed.

Lemma store_cstr_overflow s dst : zlen dst <= zlen s -> store_cstr s dst = UB.
Proof.
  intros Hlen. unfold store_cstr, mem_write.
  destruct (s ++ [nul]) as [|x l] eqn:Hs; [by destruct s|].
  rw -Hs zlen_app. destruct (Z.leb_spec (0 + (zlen s + zlen [nul])) (zlen dst)) as [Hc|Hc].
  - unfold zlen in *. simpl in *. lia.
  - by rw andb_false_r.
Qed.

Lemma strcpy_in dst src s :
  cstr src = Ret s -> zlen s < zlen dst ->
  exists d, strcpy dst src = Ret d /\ cstr d = Ret s /\ zlen d = zlen dst.
Proof.
  intros Hs Hlen. rw /strcpy Hs /=. eexists. rw store_cstr_in; [done|]. split; [done|].
  split; [by eapply cstr_nul, cstr_no_nul|]. zl.
Qed.

Lemma strcpy_overflow dst src s :
  cstr src = Ret s -> zlen dst <= zlen s -> strcpy dst src = UB.
Proof. intros Hs Hlen. rw /strcpy Hs /=. by apply store_cstr_overflow. Qed.

Lemma cmp_bytes_eq a b : cmp_bytes a b = 0 <-> a = b.
Proof.
  revert b. induction a as [|x a IH]; intros [|y b]; simpl; try (split; done).
  case_decide as Hxy.
  - rw IH. subst. split; [by intros ->|by intros [= ->]].
  - split; [by destruct (_ <? _)%N|]. intros [= -> _]. done.
Qed.

(** [strcmp] as an equality test. *)
Lemma strcmp_spec a b s t :
  cstr a = Ret s -> cstr b = Ret t ->
  exists r, strcmp a b = Ret r /\ (r = 0 <-> s = t).
Proof. intros Ha Hb. rw /strcmp Ha /= Hb /=. eexists. split; [done|]. apply cmp_bytes_eq. Qed.
