(* ===== verification/NetUtil.v ===== *)
(** * Addresses: src/net_util.c

    The two conversions and the socket test.  The socket calls and the address
    conversions of the C library ([getpeername], [getsockopt], [inet_ntop],
    [inet_pton]) are arguments; what POSIX says of them is in the hypotheses
    of the theorems. *)
From Stdlib Require Import Strings.Byte String.
From S2P Require Import Prelude CLib.

(** ** The blocks this file allocates

    [nm_plan]: which of the next allocations succeed (all, once it is used up). *)
Record NetMem := mkNet {
  nm_plan : list bool;
  nm_next : Z;
  nm_live : gset Z;
}.

Definition net_malloc : M NetMem (option Z) := fun s =>
  let ok := hd true (nm_plan s) in
  if ok then Ret (Some (nm_next s), mkNet (tl (nm_plan s)) (nm_next s + 1) ({[nm_next s]} ∪ nm_live s))
  else Ret (None, mkNet (tl (nm_plan s)) (nm_next s) (nm_live s)).
(** [free] of a null pointer does nothing. *)
Definition net_free (p : option Z) : M NetMem () := fun s =>
  match p with
  | None => Ret (tt, s)
  | Some a =>
    if bool_decide (a ∈ nm_live s) then Ret (tt, mkNet (nm_plan s) (nm_next s) (nm_live s ∖ {[a]}))
    else UB
  end.

(** ** Byte order and numbers *)

(** A 16-bit value with its bytes exchanged (the host is little-endian). *)
Definition swap16 (n : Z) : Z := Z.lor (Z.shiftl (Z.land n 255) 8) (Z.shiftr n 8).
Definition htons (n : Z) : Z := swap16 (u16 n).
Definition ntohs (n : Z) : Z := swap16 (u16 n).

Definition is_space (c : byte) : bool :=
  bool_decide (c ∈ [x20; x09; x0a; x0b; x0c; x0d]).
Definition digit (c : byte) : option Z :=
  let n := Z.of_N (Byte.to_N c) - 48 in
  if (0 <=? n) && (n <=? 9) then Some n else None.
Fixpoint digits (acc : Z) (s : bytes) : Z :=
  match s with
  | [] => acc
  | c :: s' => match digit c with Some d => digits (10 * acc + d) s' | None => acc end
  end.
Fixpoint skip_space (s : bytes) : bytes :=
  match s with
  | [] => []
  | c :: s' => if is_space c then skip_space s' else s
  end.
(** [atoi]: a value that is not an [int] is undefined. *)
Definition atoi (m : bytes) : outcome Z :=
  s ← cstr m;
  let s := skip_space s in
  let v := match s with
           | c :: s' => if decide (c = x2d) then - digits 0 s'
                        else if decide (c = x2b) then digits 0 s' else digits 0 s
           | [] => 0
           end in
  if (- 2 ^ 31 <=? v) && (v <? 2 ^ 31) then Ret v else UB.

(** ** Socket addresses *)

Definition AF_INET : Z := 2.
Definition AF_INET6 : Z := 10.
Definition sizeof_IPv4 : Z := 16.
Definition sizeof_IPv6 : Z := 28.
Definition INET6_ADDRSTRLEN : Z := 46.

(** The parts the code touches; [sin_port] is in network order. *)
Record sockaddr := mkAddr {
  sin_family : Z;
  sin_port : Z;
  sin_addr : bytes;
}.

Section calls.
(** [getpeername sock buf]: its result, the size and the address it stores;
    [buf] is null when the allocation failed. *)
Variable getpeername : Z -> option Z -> Z * Z * sockaddr.
(** The text form that fits in the given size. *)
Variable inet_ntop : Z -> bytes -> Z -> option bytes.
(** The address of a text, [None] unless the call returns 1. *)
Variable inet_pton : Z -> bytes -> option bytes.
(** [getsockopt]: its result and the error of the socket. *)
Variable getsockopt : Z -> Z * Z.

(** [port0]: what [port] points to before the call.  The result: the return value,
    the text at [addr] ([None]: a null pointer) and what [port] points to. *)
Definition get_addr_and_port (sock_id port0 : Z) : M NetMem (Z * option bytes * Z) :=
  let max_size := if sizeof_IPv4 >? sizeof_IPv6 then sizeof_IPv4 else sizeof_IPv6 in
  addr ← net_malloc;
  addr_info ← net_malloc;
  let error_handle (ret : Z) : M NetMem (Z * option bytes * Z) :=
    _ ← net_free addr_info; _ ← net_free addr; mret (ret, None, port0) in
  let '(ret, addr_size, info) := getpeername sock_id addr_info in
  if negb (ret =? 0) then error_handle ret
  else
    let convert (family : Z) : M NetMem (Z * option bytes * Z) :=
      match addr, addr_info with
      | Some _, Some _ =>
        match inet_ntop family (sin_addr info) addr_size with
        | None => error_handle ret
        | Some text => mret (0, Some (text ++ [nul]), ntohs (sin_port info))
        end
      | _, _ => undef
      end in
    if sizeof_IPv6 =? addr_size then convert AF_INET6
    else if sizeof_IPv4 =? addr_size then convert AF_INET
    else error_handle (-1).

Definition ANY_HOST : string := "*".

(** The return value and, when it is stored, the address and its size. *)
Definition get_addr_info_from_ip_and_port (ip port : bytes) : M NetMem (Z * option (sockaddr * Z)) :=
  porti ← lift (atoi port);
  if porti <=? 0 then mret (-1, None)
  else
    let fill (family size : Z) (a : bytes) : M NetMem (Z * option (sockaddr * Z)) :=
      p ← net_malloc;
      match p with
      | None => undef
      | Some _ => mret (SUCC, Some (mkAddr family (htons porti) a, size))
      end in
    any ← lift (strcmp (lit ANY_HOST) ip);
    if any =? 0 then fill AF_INET sizeof_IPv4 (zeros 4)
    else match inet_pton AF_INET ip with
         | Some a => fill AF_INET sizeof_IPv4 a
         | None =>
           match inet_pton AF_INET6 ip with
           | Some a => fill AF_INET6 sizeof_IPv6 a
           | None => mret (-1, None)
           end
         end.

Definition is_socket_valid (socket_id : Z) : Z :=
  let '(ret, error) := getsockopt socket_id in
  if (ret =? 0) && (0 =? error) then SUCC else FAIL.
End calls.

(** ** Lemmas *)

Lemma high_byte n : 0 <= n < 2 ^ 16 -> 0 <= n / 256 < 256.
Proof. intros. split; [apply Z.div_pos; lia|apply Z.div_lt_upper_bound; lia]. Qed.

Lemma swap16_value n : 0 <= n < 2 ^ 16 -> swap16 n = 256 * (n mod 256) + n / 256.
Proof.
  intros Hn. unfold swap16. change 255 with (Z.ones 8).
  rw Z.land_ones // Z.shiftl_mul_pow2 // Z.shiftr_div_pow2 //. change (2 ^ 8) with 256.
  pose proof (high_byte n Hn) as Hd.
  rw -(Z.lxor_lor (n mod 256 * 256)); [|rw -Z.add_nocarry_lxor; [|lia]].
  all: apply Z.bits_inj'; intros k Hk; rw Z.land_spec Z.bits_0; change 256 with (2 ^ 8);
    (destruct (Z.ltb_spec k 8); [by rw Z.mul_pow2_bits_low|]);
    rw andb_comm; (rw (Z.bits_above_log2 (n / 2 ^ 8) k); [apply Hd| |done]);
    (destruct (Z.eq_dec (n / 2 ^ 8) 0) as [->|]; [simpl; lia|]);
    (apply Z.log2_lt_pow2; [change (2 ^ 8) with 256 in *; lia|]);
    (eapply Z.lt_le_trans; [apply Hd|]); change 256 with (2 ^ 8); apply Z.pow_le_mono_r; lia.
Qed.

Lemma swap16_range n : 0 <= n < 2 ^ 16 -> 0 <= swap16 n < 2 ^ 16.
Proof.
  intros Hn. rw swap16_value //. pose proof (Z.mod_pos_bound n 256 ltac:(lia)).
  pose proof (high_byte n Hn). lia.
Qed.

Lemma u16_range n : 0 <= u16 n < 2 ^ 16.
Proof. apply Z.mod_pos_bound. lia. Qed.

Lemma swap16_twice n : 0 <= n < 2 ^ 16 -> swap16 (swap16 n) = n.
Proof.
  intros Hn. rw (swap16_value (swap16 n)); [by apply swap16_range|]. rw swap16_value //.
  Z.to_euclidean_division_equations. lia.
Qed.

(** A port survives the trip through network order at its width. *)
Lemma ntohs_htons n : ntohs (htons n) = u16 n.
Proof.
  unfold ntohs, htons. rw (u16_small (swap16 (u16 n))); [apply swap16_range, u16_range|].
  apply swap16_twice, u16_range.
Qed.

(** ** Theorems *)

(** What POSIX says of [inet_ntop]: the text is stored with its NUL if it fits. *)
Definition ntop_posix (text : Z -> bytes -> bytes) (inet_ntop : Z -> bytes -> Z -> option bytes) : Prop :=
  forall af a n, inet_ntop af a n = if zlen (text af a) <? n then Some (text af a) else None.

Definition two_blocks (s : NetMem) : gset Z := {[nm_next s; nm_next s + 1]}.

(** The address of an IPv4 peer: its text and its port in host order.  The
    block of the socket address is never freed: every success leaks it. *)
Theorem peer_address_found text getpeername inet_ntop sock port0 info s :
  ntop_posix text inet_ntop -> nm_plan s = [] ->
  (forall buf, getpeername sock (Some buf) = (0, sizeof_IPv4, info)) ->
  zlen (text AF_INET (sin_addr info)) < 16 ->
  exists s', get_addr_and_port getpeername inet_ntop sock port0 s =
    Ret ((0, Some (text AF_INET (sin_addr info) ++ [nul]), ntohs (sin_port info)), s') /\
    0 <= ntohs (sin_port info) < 2 ^ 16 /\ nm_live s' = two_blocks s ∪ nm_live s.
Proof.
  intros Hntop Hplan Hpeer Hlen. unfold get_addr_and_port, mbind, M_bind, net_malloc. rw Hplan /=.
  rw Hpeer /= Hntop (proj2 (Z.ltb_lt _ _)) //. eexists. split; [done|]. split.
  - apply swap16_range, u16_range.
  - unfold two_blocks. simpl. set_solver.
Qed.

(** The address of an IPv6 peer whose text has 28 characters or more: the
    size of the address is passed for the size of the text, the conversion
    fails, and the function reports success with a null pointer and no port. *)
Theorem ipv6_text_lost text getpeername inet_ntop sock port0 info s :
  ntop_posix text inet_ntop -> nm_plan s = [] -> nm_next s ∉ nm_live s -> nm_next s + 1 ∉ nm_live s ->
  (forall buf, getpeername sock (Some buf) = (0, sizeof_IPv6, info)) ->
  28 <= zlen (text AF_INET6 (sin_addr info)) ->
  exists s', get_addr_and_port getpeername inet_ntop sock port0 s = Ret ((0, None, port0), s') /\
    nm_live s' = nm_live s.
Proof.
  intros Hntop Hplan H1 H2 Hpeer Hlen. unfold get_addr_and_port, mbind, M_bind, net_malloc. rw Hplan /=.
  rw Hpeer /= Hntop (proj2 (Z.ltb_ge _ _)) //. unfold net_free.
  rw bool_decide_true /=; [set_solver|]. rw bool_decide_true /=; [|eexists; split; [done|set_solver]].
  apply elem_of_difference. split; [set_solver|]. rw elem_of_singleton. lia.
Qed.

(** A server or peer address from its two arguments: accepted exactly when
    the port is positive and the host is "*" or a numeric address, with the
    port stored modulo 2^16. *)
Theorem address_info_parsed inet_pton ip port host p s :
  nm_plan s = [] -> atoi port = Ret p -> cstr ip = Ret host ->
  exists r o s', get_addr_info_from_ip_and_port inet_pton ip port s = Ret ((r, o), s') /\
    (r = SUCC <-> 0 < p /\ (host = bs ANY_HOST \/ is_Some (inet_pton AF_INET ip) \/
                            is_Some (inet_pton AF_INET6 ip))) /\
    (r = SUCC <-> o <> None) /\ (r = SUCC \/ r = -1) /\
    forall a n, o = Some (a, n) -> ntohs (sin_port a) = p mod 2 ^ 16 /\
      (sin_family a = AF_INET /\ n = sizeof_IPv4 \/ sin_family a = AF_INET6 /\ n = sizeof_IPv6).
Proof.
  intros Hplan Hp Hip. unfold get_addr_info_from_ip_and_port, lift, mbind, M_bind. rw Hp.
  destruct (Z.leb_spec p 0).
  { eexists _, _, _. split; [done|]. split_and!; [|done|by right|done]. split; [done|lia]. }
  destruct (strcmp_spec (lit ANY_HOST) ip (bs ANY_HOST) host eq_refl Hip) as (c & -> & Hc).
  unfold net_malloc. pose proof (ntohs_htons p) as Hport. unfold u16 in Hport.
  destruct (Z.eqb_spec c 0) as [Hc0|Hc0].
  { rw /= Hplan /=; eexists _, _, _. split; [done|]. split_and!; [|done|by left|].
    - split; [|done]. intros _. split; [done|]. left. symmetry. by apply Hc.
    - intros a n [= <- <-]. split; [done|]. by left. }
  destruct (inet_pton AF_INET ip) as [a4|]; [|destruct (inet_pton AF_INET6 ip) as [a6|]].
  - rw /= Hplan /=; eexists _, _, _. split; [done|]. split_and!; [|done|by left|].
    + split; [|done]. intros _. split; [done|]. right. by left.
    + intros a n [= <- <-]. split; [done|]. by left.
  - rw /= Hplan /=; eexists _, _, _. split; [done|]. split_and!; [|done|by left|].
    + split; [|done]. intros _. split; [done|]. right. by right.
    + intros a n [= <- <-]. split; [done|]. by right.
  - eexists _, _, _. split; [done|]. split_and!; [|done|by right|done].
    split; [done|]. intros [_ [->|[[? [=]]|[? [=]]]]]. by destruct Hc0; apply Hc.
Qed.

(** ** Concrete runs *)

Definition net0 : NetMem := mkNet [] 1 ∅.
Definition demo_text (af : Z) (a : bytes) : bytes := a.
Definition demo_ntop (af : Z) (a : bytes) (n : Z) : option bytes :=
  if zlen (demo_text af a) <? n then Some (demo_text af a) else None.
Definition demo_v4 : sockaddr := mkAddr AF_INET (htons 4000) (bs "10.0.0.7").
Definition demo_v6 : sockaddr := mkAddr AF_INET6 (htons 4000) (bs "2001:db8:1111:2222:3333:4444:5555:6666").

Lemma peer_address_found_witness :
  exists s', get_addr_and_port (fun _ _ => (0, 16, demo_v4)) demo_ntop 5 0 net0 =
    Ret ((0, Some (lit "10.0.0.7"), ntohs (htons 4000)), s') /\
    0 <= ntohs (htons 4000) < 2 ^ 16 /\ nm_live s' = two_blocks net0 ∪ nm_live net0.
Proof.
  apply (peer_address_found demo_text (fun _ _ => (0, 16, demo_v4)) demo_ntop 5 0 demo_v4 net0);
    [by intros af a n|done|done|by vm_compute].
Defined.

Lemma ipv6_text_lost_witness :
  exists s', get_addr_and_port (fun _ _ => (0, 28, demo_v6)) demo_ntop 5 0 net0 = Ret ((0, None, 0), s') /\
    nm_live s' = nm_live net0.
Proof.
  apply (ipv6_text_lost demo_text (fun _ _ => (0, 28, demo_v6)) demo_ntop 5 0 demo_v6 net0);
    [by intros af a n|done|by apply not_elem_of_empty|by apply not_elem_of_empty|done|by vm_compute].
Defined.

Lemma address_info_parsed_witness :
  exists r o s', get_addr_info_from_ip_and_port (fun _ _ => None) (lit "*") (lit "65616") net0 = Ret ((r, o), s') /\
    (r = SUCC <-> 0 < 65616 /\ (bs "*" = bs ANY_HOST \/ is_Some (None (A := bytes)) \/ is_Some (None (A := bytes)))) /\
    (r = SUCC <-> o <> None) /\ (r = SUCC \/ r = -1) /\
    forall a n, o = Some (a, n) -> ntohs (sin_port a) = 65616 mod 2 ^ 16 /\
      (sin_family a = AF_INET /\ n = sizeof_IPv4 \/ sin_family a = AF_INET6 /\ n = sizeof_IPv6).
Proof.
  apply (address_info_parsed (fun _ _ => None) (lit "*") (lit "65616") (bs "*") 65616 net0);
    [done|by vm_compute|by vm_compute].
Defined.
