(* ===== verification/Alloc.v ===== *)
(** * The cache module's data and its interface

    [Cache] is the structure of common_io.h.  A [PCache] is owned by one place
    at a time (the free list of its size class, a buffer node, a local
    variable), so it is passed by value; [cid] is its address and lets the
    invariants speak of aliasing and leaks. *)
From S2P Require Import Prelude CLib.

Record Cache := mkCache {
  cid : Z;
  allocated_size : Z;
  cache_size : Z;
  buff : bytes;
}.

(** The six documented sizes of cache.c. *)
Definition size_classes : list Z := [64; 128; 256; 512; 1024; 2048].

(** A cache as the rest of the program may hold it. *)
Record cache_ok (c : Cache) : Prop := {
  cache_class : allocated_size c ∈ size_classes;
  cache_len : zlen (buff c) = allocated_size c;
}.

(** What [get_new_cache] promises for a request of [n] bytes. *)
Record cache_fresh (n : Z) (c : Cache) : Prop := {
  fresh_class : allocated_size c ∈ size_classes;
  fresh_fits : n <= allocated_size c;
  fresh_least : forall k, k ∈ size_classes -> n <= k -> allocated_size c <= k;
  fresh_size : cache_size c = n;
  fresh_zero : buff c = zeros (allocated_size c);
}.

(** The operations the other modules use: [malloc] (with the program's other
    allocations) and the cache module's two calls. *)
Class CacheModule (S : Type) := {
  cm_malloc : Z -> M S (option bytes);
  cm_get : Z -> M S (option Cache);
  cm_recycle : Cache -> M S Z;
}.

(** The contract.  [cm_inv u L s]: [s] is well formed and the caches handed out
    and not yet recycled have their addresses in [L]; with [u = false], moreover, no
    allocation will fail.  With [u = true] an allocation may fail, and then a
    call may be undefined (the module does not test its own allocations). *)
Class CacheModuleLaws (S : Type) `{CacheModule S} := {
  cm_inv : bool -> gset Z -> S -> Prop;
  cm_malloc_spec u L s n :
    cm_inv u L s ->
    wp u (cm_malloc n) s (fun ob s' =>
      cm_inv u L s' /\ (u = false -> ob <> None) /\
      (forall blk, ob = Some blk -> zlen blk = Z.max 0 n));
  cm_get_spec u L s n :
    cm_inv u L s -> n <= 2048 ->
    wp u (cm_get n) s (fun oc s' =>
      exists c : Cache, oc = Some c /\ cache_fresh n c /\ (cid c ∉ L) /\
                cm_inv u ({[cid c]} ∪ L) s');
  cm_recycle_spec u L s c :
    cm_inv u L s -> cid c ∈ L -> cache_ok c ->
    wp u (cm_recycle c) s (fun ret s' =>
      ret = SUCC /\ cm_inv u (L ∖ {[cid c]}) s');
}.

(** Beginning and end of the module's life.  Before and after it, the calls are
    undefined; what is handed out, and the pool, outlive it. *)
Class CacheLifecycle (S : Type) := {
  cl_init : M S ();
  cl_release : M S ();
}.
Class CacheLifecycleLaws (S : Type) `{CacheModuleLaws S} `{!CacheLifecycle S} := {
  cl_raw : bool -> gset Z -> S -> Prop;
  cl_raw_get u L s n : cl_raw u L s -> cm_get n s = UB;
  cl_raw_recycle u L s c : cl_raw u L s -> cm_recycle c s = UB;
  cl_init_spec u L s : cl_raw u L s -> wp u cl_init s (fun _ s' => cm_inv u L s');
  cl_release_spec u L s : cm_inv u L s -> wp u cl_release s (fun _ s' => cl_raw u L s');
}.

Lemma cache_fresh_ok n c : cache_fresh n c -> cache_ok c.
Proof.
  intros [Hc Hf _ _ Hz]. split; [done|]. rw Hz zlen_zeros.
  rw /size_classes !list_elem_of_In /= in Hc. lia.
Qed.
#[export] Hint Resolve cache_fresh_ok : im.
