(* ===== verification/Cache.v ===== *)
(** * The cache pool of src/io/cache.c

    The size-class lists, [get_new_cache] and [recycle_cache], over a memory
    state that also scripts the outcome of every [malloc].  The file discharges
    the interface [CacheModule] of Alloc.v. *)
From S2P Require Import Prelude CLib Alloc.

(** A [SpecifiedSizeCacheList]; a [CacheNode] of its list is the cache it
    points to. *)
Record SizeList := mkSizeList {
  allocated_cache_size : Z;
  clist : list Cache;
}.

(** The memory state.  [m_plan]: the outcomes of the next calls of [malloc]
    ([true]: it succeeds; the empty plan: every call succeeds).  [m_junk]: what a
    fresh block holds.  [m_freed_readable]: whether a block still holds its
    fields right after [free], which the reuse path relies on.  [static_ints]:
    the ints in static memory from [specified_cache_size] on. *)
Record mem := mkMem {
  m_plan : list bool;
  m_junk : bytes;
  m_freed_readable : bool;
  static_ints : list Z;
  available_cache_node : list SizeList;
  all_node : list Z;
  next_addr : Z;
}.

Definition set_plan (p : list bool) (s : mem) : mem :=
  mkMem p (m_junk s) (m_freed_readable s) (static_ints s)
        (available_cache_node s) (all_node s) (next_addr s).
Definition set_available (l : list SizeList) (s : mem) : mem :=
  mkMem (m_plan s) (m_junk s) (m_freed_readable s) (static_ints s)
        l (all_node s) (next_addr s).
Definition add_all_node (c : Cache) (s : mem) : mem :=
  mkMem (m_plan s) (m_junk s) (m_freed_readable s) (static_ints s)
        (available_cache_node s) (all_node s ++ [cid c]) (next_addr s + 1).

Definition malloc (n : Z) : M mem (option bytes) := fun s =>
  let blk := resize (Z.to_nat n) nul (m_junk s) in
  match m_plan s with
  | [] => Ret (Some blk, s)
  | ok :: p => Ret (if ok : bool then Some blk else None, set_plan p s)
  end.

(** An allocation whose result is dereferenced without a test. *)
Definition malloc_unchecked (n : Z) : M mem bytes :=
  ob ← malloc n;
  match ob with
  | Some b => mret b
  | None => undef
  end.

(** [sizeof(specified_cache_size)]: six ints, 24 bytes. *)
Definition sizeof_specified : nat := 24.

Fixpoint add_classes (index : list nat) : M mem () :=
  match index with
  | [] => mret tt
  | i :: rest =>
    _ ← malloc_unchecked 40;
    s ← getS;
    match static_ints s !! i with
    | None => undef
    | Some n =>
      _ ← putS (set_available (available_cache_node s ++ [mkSizeList n []]) s);
      add_classes rest
    end
  end.

Definition make_sure_cache_mm : M mem () :=
  s ← getS;
  match available_cache_node s with
  | [] => add_classes (seq 0 sizeof_specified)
  | _ => mret tt
  end.

Definition get_new_cache (expected_size : Z) : M mem (option Cache) :=
  _ ← make_sure_cache_mm;
  s ← getS;
  match list_find (fun cl => expected_size <= allocated_cache_size cl)
                  (available_cache_node s) with
  | None => mret None
  | Some (i, cache_list) =>
    match clist cache_list with
    | [] =>
      _ ← malloc_unchecked 24;
      _ ← malloc_unchecked 16;
      let n := allocated_cache_size cache_list in
      blk ← malloc_unchecked n;
      b ← lift (mem_write 0 (zeros n) blk);
      s ← getS;
      let cache := mkCache (next_addr s) n expected_size b in
      _ ← putS (add_all_node cache s);
      mret (Some cache)
    | c :: rest =>
      if m_freed_readable s then
        let l' := mkSizeList (allocated_cache_size cache_list) rest in
        _ ← putS (set_available (<[i := l']> (available_cache_node s)) s);
        mret (Some (mkCache (cid c) (allocated_size c) expected_size (buff c)))
      else undef
    end
  end.

Definition recycle_cache (cache : Cache) : M mem Z :=
  _ ← make_sure_cache_mm;
  b ← lift (mem_write 0 (zeros (allocated_size cache)) (buff cache));
  let cache' := mkCache (cid cache) (allocated_size cache) 0 b in
  s ← getS;
  match list_find (fun cl => allocated_cache_size cl = allocated_size cache)
                  (available_cache_node s) with
  | None => mret (-1)
  | Some (i, curr) =>
    _ ← malloc_unchecked 24;
    s ← getS;
    let l' := mkSizeList (allocated_cache_size curr) (clist curr ++ [cache']) in
    _ ← putS (set_available (<[i := l']> (available_cache_node s)) s);
    mret 0
  end.

#[export] Instance mem_cache_module : CacheModule mem := {|
  cm_malloc := malloc;
  cm_get := get_new_cache;
  cm_recycle := recycle_cache;
|}.

(** The state before the first call: [after] is what static memory holds behind
    the array, [readable] whether freed blocks keep their fields. *)
Definition initial_mem (plan : list bool) (readable : bool) (after : list Z) : mem :=
  mkMem plan [] readable (size_classes ++ after) [] [] 0.

(** ** The invariant *)

Definition pooled (s : mem) : list Cache := available_cache_node s ≫= clist.

Definition class_ok (cl : SizeList) : Prop :=
  Forall (fun c => allocated_size c = allocated_cache_size cl /\
                   buff c = zeros (allocated_size c)) (clist cl).

(** No allocation fails, when [u = false]. *)
Definition plan_ok (u : bool) (s : mem) : Prop := u = false -> Forall (eq true) (m_plan s).

(** The well-formed pool.  The code relies on three things that C does not give it:
    the [malloc]s of this file succeed (their results are not tested), the array can
    be read to the end of its 24 "elements", and a freed node still holds its
    pointer.  They are required of the states from which the calls are claimed to
    return ([u = false]); with [u = true] nothing is assumed of them, and a call may
    be undefined. *)
Record pool_inv (u : bool) (L : gset Z) (s : mem) : Prop := {
  pi_static : exists after, static_ints s = size_classes ++ after /\ (u = false -> (18 <= length after)%nat);
  pi_classes : available_cache_node s = [] \/
    allocated_cache_size <$> available_cache_node s = take sizeof_specified (static_ints s);
  pi_pooled : Forall class_ok (available_cache_node s);
  pi_nodup : NoDup (cid <$> pooled s);
  pi_disj : forall c, c ∈ pooled s -> cid c ∉ L;
  pi_live_next : forall i, i ∈ L -> i < next_addr s;
  pi_pool_next : forall c, c ∈ pooled s -> cid c < next_addr s;
  pi_readable : u = false -> m_freed_readable s = true;
  pi_plan : plan_ok u s;
}.

(** Every sequence of calls that return, with the sets of the addresses handed out:
    [cache_run (L, s) (L', s')].  A request may have any size, and may be refused;
    what is given back must have been handed out, with its block; the [malloc]s of
    other modules draw on the same plan, and may fail. *)
Inductive cache_call :=
| CallGet (n : Z)
| CallRecycle (c : Cache)
| CallMalloc (n : Z).

Definition handed_out (oc : option Cache) (L : gset Z) : gset Z :=
  match oc with Some c => {[cid c]} ∪ L | None => L end.

Inductive cache_step : gset Z * mem -> cache_call -> gset Z * mem -> Prop :=
| step_get L s n oc s' :
    get_new_cache n s = Ret (oc, s') -> cache_step (L, s) (CallGet n) (handed_out oc L, s')
| step_recycle L s c r s' :
    cid c ∈ L -> zlen (buff c) = allocated_size c -> recycle_cache c s = Ret (r, s') ->
    cache_step (L, s) (CallRecycle c) (L ∖ {[cid c]}, s')
| step_malloc L s n ob s' :
    malloc n s = Ret (ob, s') -> cache_step (L, s) (CallMalloc n) (L, s').

Inductive cache_run : gset Z * mem -> gset Z * mem -> Prop :=
| run_nil x : cache_run x x
| run_step x tr y z : cache_run x y -> cache_step y tr z -> cache_run x z.

(** ** Lemmas *)

Lemma pool_inv_plan u L s p :
  pool_inv u L s -> plan_ok u (set_plan p s) -> pool_inv u L (set_plan p s).
Proof. intros [] ?. by constructor. Qed.

Lemma malloc_spec u s n :
  plan_ok u s ->
  wp u (malloc n) s (fun ob s' =>
    (exists p, s' = set_plan p s) /\ plan_ok u s' /\ (u = false -> ob <> None) /\
    (forall blk, ob = Some blk -> zlen blk = Z.max 0 n)).
Proof.
  assert (forall blk, resize (Z.to_nat n) nul (m_junk s) = blk -> zlen blk = Z.max 0 n).
  { intros blk <-. rw /zlen length_resize. lia. }
  rw /wp /malloc /plan_ok. destruct (m_plan s) as [|ok p] eqn:Hp; intros Hplan.
  - split_and!; [|by rw Hp|done|naive_solver]. exists []. by destruct s; simpl in *; subst.
  - split_and!; [by eexists| | |]; simpl.
    + intros Hu. by apply Hplan, Forall_cons in Hu as [_ ?].
    + intros Hu. by apply Hplan, Forall_cons in Hu as [<- _].
    + destruct ok; naive_solver.
Qed.

Lemma malloc_unchecked_spec u s n :
  plan_ok u s ->
  wp u (malloc_unchecked n) s (fun b s' =>
    (exists p, s' = set_plan p s) /\ plan_ok u s' /\ zlen b = Z.max 0 n).
Proof.
  intros Hinv. apply wp_bind. eapply wp_mono; [by apply malloc_spec|].
  intros [b|] s' (? & ? & Hn & Hlen); [apply wp_ret; by split_and!; [..|apply Hlen]|].
  destruct u; [done|]. by destruct Hn.
Qed.

(** Lists of fresh, empty size classes. *)
Definition empty_classes (ns : list Z) : list SizeList := (fun n => mkSizeList n []) <$> ns.

Lemma empty_classes_sizes ns : allocated_cache_size <$> empty_classes ns = ns.
Proof. rw /empty_classes -list_fmap_compose. apply list_fmap_id. Qed.
Lemma empty_classes_pooled ns : empty_classes ns ≫= clist = [].
Proof. induction ns; simpl; auto. Qed.
Lemma empty_classes_ok ns : Forall class_ok (empty_classes ns).
Proof. apply Forall_fmap, Forall_true. intros. by apply Forall_nil. Qed.

Lemma add_classes_spec u s k :
  plan_ok u s ->
  (u = false -> (sizeof_specified <= length (static_ints s))%nat) ->
  available_cache_node s = empty_classes (take k (static_ints s)) ->
  (k <= sizeof_specified)%nat ->
  wp u (add_classes (seq k (sizeof_specified - k))) s (fun _ s' =>
    exists p, s' = set_plan p (set_available
      (empty_classes (take sizeof_specified (static_ints s))) s) /\ plan_ok u s').
Proof.
  remember (sizeof_specified - k)%nat as m eqn:Hm. revert s k Hm.
  induction m as [|m IH]; intros s k Hm Hinv Hst Hav Hk.
  - apply wp_ret. assert (k = sizeof_specified) as -> by lia. rw -Hav.
    exists (m_plan s). split; [by destruct s|done].
  - assert (k < sizeof_specified)%nat by lia. cbn [seq add_classes].
    wp_use malloc_unchecked_spec; [done|]. intros _ s' ((p & ->) & Hp & _). cbn.
    apply wp_bind. cbn. destruct (static_ints s !! k) as [n|] eqn:Hn.
    2: { destruct u; [done|]. apply lookup_ge_None in Hn. specialize (Hst eq_refl). lia. }
    apply wp_bind. cbn.
    eapply wp_mono; [apply (IH _ (S k)); [lia|done|done| |lia]|].
    + simpl. rw Hav (take_S_r _ _ _ Hn) /empty_classes fmap_app //.
    + intros _ s' (q & -> & Hq). by exists q.
Qed.

Definition has_classes (s : mem) : Prop :=
  allocated_cache_size <$> available_cache_node s = take sizeof_specified (static_ints s).

Lemma make_sure_spec u L s :
  pool_inv u L s ->
  wp u make_sure_cache_mm s (fun _ s' =>
    pool_inv u L s' /\ has_classes s' /\ pooled s' = pooled s /\
    next_addr s' = next_addr s /\ (available_cache_node s <> [] -> s' = s)).
Proof.
  intros Hinv. rw /make_sure_cache_mm. apply wp_bind. cbn.
  destruct (pi_static _ _ _ Hinv) as (after & Hst & Hlen).
  destruct (available_cache_node s) as [|cl l] eqn:Hav.
  - eapply wp_mono; [apply (add_classes_spec u s 0)|].
    + by destruct Hinv.
    + intros Hu. rw Hst length_app /sizeof_specified /=. specialize (Hlen Hu). lia.
    + done.
    + lia.
    + intros _ s' (p & -> & Hp).
      assert (pooled s = []) as Hpool by rw /pooled Hav //.
      split_and!; try done.
      * destruct Hinv. constructor; try done.
        -- by right; rw /= empty_classes_sizes.
        -- apply empty_classes_ok.
        -- rw /pooled /= empty_classes_pooled. constructor.
        -- intros c. rw /pooled /= empty_classes_pooled. by intros ?%not_elem_of_nil.
        -- intros c. rw /pooled /= empty_classes_pooled. by intros ?%not_elem_of_nil.
      * rw /has_classes /= empty_classes_sizes //.
      * rw /pooled /= empty_classes_pooled //.
  - apply wp_ret. split_and!; try done. rw /has_classes.
    destruct (pi_classes _ _ _ Hinv) as [H|H]; [by rw Hav in H|done].
Qed.

(** What no call changes. *)
Definition same_machine (s s' : mem) : Prop :=
  static_ints s' = static_ints s /\ m_freed_readable s' = m_freed_readable s.

Lemma malloc_unchecked_machine n s : wp true (malloc_unchecked n) s (fun _ => same_machine s).
Proof.
  unfold malloc_unchecked. apply wp_bind. unfold wp, malloc, same_machine.
  destruct (m_plan s) as [|[] p]; by cbn.
Qed.

Lemma add_classes_machine index : forall s, wp true (add_classes index) s (fun _ => same_machine s).
Proof.
  induction index as [|i index IH]; intros s; [by apply wp_ret|]. cbn [add_classes].
  eapply wp_bind, wp_mono; [apply malloc_unchecked_machine|]. intros ? s1 [Hst Hr].
  apply wp_bind, wp_getS. destruct (static_ints s1 !! i); [|done]. apply wp_bind, wp_putS.
  eapply wp_mono; [apply IH|]. intros ? s2 [Hst2 Hr2]. cbn in *. split; congruence.
Qed.

Lemma make_sure_machine s : wp true make_sure_cache_mm s (fun _ => same_machine s).
Proof.
  unfold make_sure_cache_mm. apply wp_bind, wp_getS.
  destruct (available_cache_node s); [apply add_classes_machine|by apply wp_ret].
Qed.

Lemma make_sure_keeps u L s :
  pool_inv u L s ->
  wp u make_sure_cache_mm s (fun _ s' =>
    (pool_inv u L s' /\ has_classes s' /\ pooled s' = pooled s /\
     next_addr s' = next_addr s /\ (available_cache_node s <> [] -> s' = s)) /\ same_machine s s').
Proof.
  intros Hinv. apply wp_and; [by apply make_sure_spec|]. intros [] s' Hr.
  by apply (wp_partial _ _ _ _ _ _ (make_sure_machine s)) in Hr.
Qed.

Lemma get_machine n s : wp true (get_new_cache n) s (fun _ => same_machine s).
Proof.
  assert (forall s1 m (k : bytes -> M mem (option Cache)), same_machine s s1 ->
    (forall b s2, same_machine s s2 -> wp true (k b) s2 (fun _ => same_machine s)) ->
    wp true (b ← malloc_unchecked m; k b) s1 (fun _ => same_machine s)) as Hm.
  { intros s1 m k [Hst Hr] Hk. eapply wp_bind, wp_mono; [apply malloc_unchecked_machine|].
    intros b s2 [Hst2 Hr2]. apply Hk. split; congruence. }
  unfold get_new_cache. eapply wp_bind, wp_mono; [apply make_sure_machine|]. intros [] s1 H1.
  apply wp_bind, wp_getS. destruct (list_find _ _) as [[i cl]|]; [|by apply wp_ret]. destruct (clist cl) as [|c rest].
  - apply Hm; [done|]. intros ? s2 H2. apply Hm; [done|]. intros ? s3 H3. apply Hm; [done|]. intros blk s4 H4.
    apply wp_bind, wp_lift. destruct (mem_write _ _ _) eqn:Hw; [|done|by destruct (mem_write_fuel _ _ _ Hw)].
    by apply wp_bind, wp_getS, wp_bind, wp_putS, wp_ret.
  - destruct (m_freed_readable s1); [|done]. by apply wp_bind, wp_putS, wp_ret.
Qed.

Lemma recycle_machine c s : wp true (recycle_cache c) s (fun _ => same_machine s).
Proof.
  unfold recycle_cache. eapply wp_bind, wp_mono; [apply make_sure_machine|]. intros [] s1 [Hst1 Hr1].
  apply wp_bind, wp_lift. destruct (mem_write _ _ _) eqn:Hw; [|done|by destruct (mem_write_fuel _ _ _ Hw)].
  apply wp_bind, wp_getS. destruct (list_find _ _) as [[i cl]|]; [|by apply wp_ret].
  eapply wp_bind, wp_mono; [apply malloc_unchecked_machine|]. intros ? s2 [Hst2 Hr2].
  apply wp_bind, wp_getS, wp_bind, wp_putS, wp_ret. split; cbn; congruence.
Qed.

Lemma find_least_size (l : list Z) after n :
  l = take sizeof_specified (size_classes ++ after) ->
  n <= 2048 ->
  exists i z, list_find (fun z => n <= z) l = Some (i, z) /\
    z ∈ size_classes /\ n <= z /\ (forall k, k ∈ size_classes -> n <= k -> z <= k).
Proof.
  intros -> Hn. rw /sizeof_specified /size_classes. cbn. setoid_rewrite list_elem_of_In. cbn.
  repeat case_decide; cbn; try (exfalso; lia); eexists _, _; (split; [done|]); split_and!; intros; lia.
Qed.

Lemma find_least (l : list SizeList) after n :
  allocated_cache_size <$> l = take sizeof_specified (size_classes ++ after) ->
  n <= 2048 ->
  exists i cl, list_find (fun cl => n <= allocated_cache_size cl) l = Some (i, cl) /\
    allocated_cache_size cl ∈ size_classes /\ n <= allocated_cache_size cl /\
    (forall k, k ∈ size_classes -> n <= k -> allocated_cache_size cl <= k).
Proof.
  intros Hl Hn. destruct (find_least_size _ after n Hl Hn) as (i & z & Hf & ? & ? & ?). rw list_find_fmap in Hf.
  destruct (list_find _ l) as [[j cl]|] eqn:Hf'; simplify_eq/=. exists i, cl. by split_and!.
Qed.

Lemma find_exact (l : list SizeList) after n :
  allocated_cache_size <$> l = take sizeof_specified (size_classes ++ after) ->
  n ∈ size_classes ->
  exists i cl, list_find (fun cl => allocated_cache_size cl = n) l = Some (i, cl).
Proof.
  intros Hl Hn.
  assert (n ∈ allocated_cache_size <$> l) as (cl & -> & Hcl)%list_elem_of_fmap.
  { rw Hl /sizeof_specified take_app. apply elem_of_app. by left. }
  destruct (list_find (fun cl' => allocated_cache_size cl' = allocated_cache_size cl) l)
    as [[i c]|] eqn:Hf; [by eauto|].
  by apply list_find_None, Forall_forall with (x := cl) in Hf.
Qed.

(** Replacing the class at one index changes the pool by its caches only. *)
Lemma pooled_insert (l : list SizeList) i cl cl' :
  l !! i = Some cl ->
  (<[i := cl']> l ≫= clist) ++ clist cl ≡ₚ (l ≫= clist) ++ clist cl'.
Proof.
  intros Hi. rw (insert_take_drop _ _ _ (lookup_lt_Some _ _ _ Hi)).
  assert (l ≫= clist = (take i l ++ cl :: drop (S i) l) ≫= clist) as ->
    by rw take_drop_middle //.
  rw !bind_app /=. solve_Permutation.
Qed.

Definition replace_class (i : nat) (l' : list Cache) (cl : SizeList) (s : mem) : mem :=
  set_available (<[i := mkSizeList (allocated_cache_size cl) l']> (available_cache_node s)) s.

Lemma replace_class_sizes i l' cl (s : mem) :
  available_cache_node s !! i = Some cl ->
  allocated_cache_size <$> available_cache_node (replace_class i l' cl s) =
  allocated_cache_size <$> available_cache_node s.
Proof.
  intros Hi. rw /= list_fmap_insert /=. apply list_insert_id. by rw list_lookup_fmap Hi.
Qed.

(** The invariant after the pool's caches changed in one class. *)
Lemma pool_inv_replace u L L' s i cl l' :
  pool_inv u L s ->
  available_cache_node s !! i = Some cl ->
  class_ok (mkSizeList (allocated_cache_size cl) l') ->
  NoDup (cid <$> pooled (replace_class i l' cl s)) ->
  (forall c, c ∈ pooled (replace_class i l' cl s) -> (cid c ∉ L') /\ cid c < next_addr s) ->
  (forall a, a ∈ L' -> a < next_addr s) ->
  pool_inv u L' (replace_class i l' cl s).
Proof.
  intros Hinv Hi Hok Hnd Hc Ha. destruct Hinv as [? Hcl Hp ? ? ? ? ? ?]. constructor; try done.
  - right. rw replace_class_sizes //. destruct Hcl as [Hcl|]; [|done]. by rw Hcl in Hi.
  - by apply Forall_insert.
  - intros c Hin. by apply Hc.
  - intros c Hin. by apply Hc.
Qed.

Lemma pool_inv_take u L s i cl c rest :
  pool_inv u L s -> available_cache_node s !! i = Some cl -> clist cl = c :: rest ->
  (cid c ∉ L) /\ pool_inv u ({[cid c]} ∪ L) (replace_class i rest cl s) /\
  allocated_size c = allocated_cache_size cl /\ buff c = zeros (allocated_size c).
Proof.
  intros Hinv Hi Hcl. pose proof (pooled_insert _ _ _ (mkSizeList (allocated_cache_size cl) rest) Hi) as Hp.
  assert (c :: pooled (replace_class i rest cl s) ≡ₚ pooled s) as Hperm.
  { rw Hcl in Hp. simpl in Hp. rw /pooled /=. apply (Permutation_app_inv_r rest).
    rw -Hp. solve_Permutation. }
  pose proof (pi_nodup _ _ _ Hinv) as Hnd. rw -Hperm in Hnd. apply NoDup_cons in Hnd as [Hc Hnd].
  assert (forall c', c' ∈ c :: pooled (replace_class i rest cl s) -> (cid c' ∉ L) /\ cid c' < next_addr s) as Hall.
  { intros c'. rw Hperm. split; [by eapply pi_disj|by eapply pi_pool_next]. }
  destruct (Hall c) as [HcL Hcn]; [apply list_elem_of_here|].
  assert (class_ok cl) as Hok by (eapply Forall_lookup_1; [by eapply pi_pooled|done]).
  rw /class_ok Hcl in Hok. apply Forall_cons in Hok as [[Hsz Hz] Hok].
  split_and!; [done| |done|done].
  eapply pool_inv_replace; try done.
  - intros c' Hin. destruct (Hall c') as [??]; [by apply list_elem_of_further|].
    split; [|done]. apply not_elem_of_union; split; [|done].
    intros Heq%elem_of_singleton. apply Hc. rw -Heq. by apply list_elem_of_fmap_2.
  - intros a [->%elem_of_singleton|?]%elem_of_union; [done|by eapply pi_live_next].
Qed.

Lemma pool_inv_give u L s i cl c :
  pool_inv u L s -> available_cache_node s !! i = Some cl -> cid c ∈ L ->
  allocated_size c = allocated_cache_size cl -> buff c = zeros (allocated_size c) ->
  pool_inv u (L ∖ {[cid c]}) (replace_class i (clist cl ++ [c]) cl s).
Proof.
  intros Hinv Hi HcL Hsz Hz.
  pose proof (pooled_insert _ _ _ (mkSizeList (allocated_cache_size cl) (clist cl ++ [c])) Hi) as Hp.
  assert (pooled (replace_class i (clist cl ++ [c]) cl s) ≡ₚ c :: pooled s) as Hperm.
  { rw /pooled /=. apply (Permutation_app_inv_r (clist cl)). rw Hp /=. solve_Permutation. }
  assert (class_ok cl) as Hok by (eapply Forall_lookup_1; [by eapply pi_pooled|done]).
  eapply pool_inv_replace; try done.
  - apply Forall_app. split; [done|]. by apply Forall_singleton.
  - rw Hperm /=. apply NoDup_cons. split; [|by eapply pi_nodup].
    intros (c' & Heq & Hin)%list_elem_of_fmap. apply (pi_disj _ _ _ Hinv c' Hin). congruence.
  - intros c'. rw Hperm. intros [->|Hin]%elem_of_cons.
    + split; [set_solver|by eapply pi_live_next].
    + split; [|by eapply pi_pool_next]. pose proof (pi_disj _ _ _ Hinv c' Hin). set_solver.
  - intros a [? _]%elem_of_difference. by eapply pi_live_next.
Qed.

Lemma pool_inv_new u L s n e b :
  pool_inv u L s ->
  (next_addr s ∉ L) /\
  pool_inv u ({[next_addr s]} ∪ L) (add_all_node (mkCache (next_addr s) n e b) s).
Proof.
  intros Hinv. assert (next_addr s ∉ L) as HL.
  { intros ?%(pi_live_next _ _ _ Hinv). lia. }
  split; [done|]. destruct Hinv as [? ? ? ? Hd Hl Hn ? ?]. constructor; try done; simpl.
  - intros c Hc. pose proof (Hd c Hc). pose proof (Hn c Hc).
    intros [Heq%elem_of_singleton|?]%elem_of_union; [lia|done].
  - intros a [->%elem_of_singleton|Ha]%elem_of_union; [lia|]. pose proof (Hl a Ha). lia.
  - intros c Hc. pose proof (Hn c Hc). lia.
Qed.

(** A cache that is given up without being given back. *)
Lemma pool_inv_less u L L' s : pool_inv u L s -> L' ⊆ L -> pool_inv u L' s.
Proof. intros [] HL. constructor; try done; [intros c Hc ?%HL; naive_solver|intros i ?%HL; eauto]. Qed.

(** A pool ready to serve: the classes exist. *)
Lemma classes_static u L s :
  pool_inv u L s -> has_classes s -> exists after,
  allocated_cache_size <$> available_cache_node s = take sizeof_specified (size_classes ++ after).
Proof. intros Hinv ->. destruct (pi_static _ _ _ Hinv) as (after & -> & _). by exists after. Qed.

(** The first class that fits has a positive size. *)
Lemma fit_positive after n i z :
  list_find (fun z => n <= z) (take sizeof_specified (size_classes ++ after)) = Some (i, z) -> 0 < z.
Proof.
  intros (Hi & Hz & Hfirst)%list_find_Some. destruct (decide (n <= 64)) as [Hn|Hn]; [|lia].
  destruct i as [|i]; [by injection Hi as <-|]. by destruct (Hfirst O 64 eq_refl ltac:(lia)).
Qed.

(** A request of any size: the first class that fits decides. *)
Lemma get_any_spec u L s n after :
  pool_inv u L s -> static_ints s = size_classes ++ after ->
  wp u (get_new_cache n) s (fun oc s' =>
    match list_find (fun z => n <= z) (take sizeof_specified (size_classes ++ after)) with
    | None => oc = None /\ pool_inv u L s'
    | Some (_, z) => exists c, oc = Some c /\ allocated_size c = z /\ cache_size c = n /\ buff c = zeros z /\
        (cid c ∉ L) /\ pool_inv u ({[cid c]} ∪ L) s'
    end).
Proof.
  intros Hinv0 Hst0. pose proof (fit_positive after n) as Hpos.
  rw /get_new_cache. wp_use make_sure_keeps; [done|]. intros _ s1 ((Hinv & Hcls & _) & Hst & _).
  unfold has_classes in Hcls. rw Hst Hst0 in Hcls. remember (take sizeof_specified (size_classes ++ after)) as sizes eqn:Hsz.
  clear dependent s. rename s1 into s. apply wp_bind, wp_getS.
  rw -Hcls list_find_fmap in Hpos |- *.
  change (list_find ((fun z => n <= z) ∘ allocated_cache_size)) with (list_find (fun cl => n <= allocated_cache_size cl)) in *.
  destruct (list_find _ (available_cache_node s)) as [[i cl]|] eqn:Hf; cbn in Hpos |- *; [|done].
  apply list_find_Some in Hf as (Hi & _ & _). specialize (Hpos i _ eq_refl).
  destruct (clist cl) as [|c rest] eqn:Hl.
  - wp_use malloc_unchecked_spec; [by eapply pi_plan|]. intros _ s1 ((p1 & ->) & Hp1 & _).
    wp_use malloc_unchecked_spec; [done|]. intros _ s2 ((p2 & ->) & Hp2 & _).
    wp_use malloc_unchecked_spec; [done|]. intros b s3 ((p3 & ->) & Hp3 & Hb).
    assert (zlen (zeros (allocated_cache_size cl)) = zlen b) as Hlen by rw zlen_zeros Hb //.
    wp_steps. rw mem_write_all //. wp_steps. cbn.
    apply (pool_inv_plan _ _ _ p3) in Hinv; [|done].
    destruct (pool_inv_new _ _ _ (allocated_cache_size cl) n (zeros (allocated_cache_size cl)) Hinv)
      as [HL Hnew].
    eexists. split; [done|]. by split_and!.
  - destruct (m_freed_readable s) eqn:Hr; [|by destruct u; [|rw (pi_readable _ _ _ Hinv) in Hr]]. wp_steps. cbn.
    destruct (pool_inv_take _ _ _ _ _ _ _ Hinv Hi Hl) as (HL & Hinv' & Hsz' & Hz).
    eexists. split; [done|]. split_and!; [done|done|by rw /= Hz Hsz'|done..].
Qed.

Lemma get_spec u L s n :
  pool_inv u L s -> n <= 2048 ->
  wp u (get_new_cache n) s (fun oc s' =>
    exists c, oc = Some c /\ cache_fresh n c /\ (cid c ∉ L) /\
              pool_inv u ({[cid c]} ∪ L) s').
Proof.
  intros Hinv Hn. destruct (pi_static _ _ _ Hinv) as (after & Hst & _).
  eapply wp_mono; [by eapply get_any_spec|]. intros oc s' H.
  destruct (find_least_size (take sizeof_specified (size_classes ++ after)) after n eq_refl Hn) as (i & z & Hf & Hz & Hfit & Hleast).
  rw Hf in H. destruct H as (c & -> & Hsz & Hcs & Hb & HL & Hinv'). exists c. split_and!; [done| |done..].
  assert (zlen (zeros z) = z) as Hlen.
  { rw zlen_zeros. rw /size_classes list_elem_of_In /= in Hz. lia. }
  constructor; rw ?Hsz ?Hb //.
Qed.

(** What is given back, with a block of its size, whether a class takes it or not. *)
Lemma recycle_any_spec u L s c :
  pool_inv u L s -> cid c ∈ L -> zlen (buff c) = allocated_size c ->
  wp u (recycle_cache c) s (fun ret s' =>
    (allocated_size c ∈ size_classes -> ret = SUCC) /\ pool_inv u (L ∖ {[cid c]}) s').
Proof.
  intros Hinv HL Hlen. rw /recycle_cache. wp_use make_sure_spec; [done|].
  intros _ s0 (Hinv0 & Hcls & _). clear dependent s. rename s0 into s, Hinv0 into Hinv.
  pose proof (zlen_nonneg (buff c)).
  assert (zlen (zeros (allocated_size c)) = zlen (buff c)) as Hz by (rw zlen_zeros Hlen; lia).
  wp_steps. rw mem_write_all //. wp_steps. cbn.
  destruct (list_find _ (available_cache_node s)) as [[i cl]|] eqn:Hf.
  - apply list_find_Some in Hf as (Hi & Heq & _).
    wp_use malloc_unchecked_spec; [by eapply pi_plan|]. intros _ s1 ((p1 & ->) & Hp1 & _).
    wp_steps. cbn. split; [done|].
    apply (pool_inv_plan _ _ _ p1) in Hinv; [|done].
    eapply (pool_inv_give _ _ _ i cl (mkCache (cid c) _ 0 _) Hinv Hi HL); done.
  - apply wp_ret. split.
    + intros Hcl. destruct (classes_static _ _ _ Hinv Hcls) as [after Hsz].
      destruct (find_exact _ _ _ Hsz Hcl) as (i & cl & Hf'). by rw Hf' in Hf.
    + apply (pool_inv_less _ L); [done|]. set_solver.
Qed.

Lemma recycle_spec u L s c :
  pool_inv u L s -> cid c ∈ L -> cache_ok c ->
  wp u (recycle_cache c) s (fun ret s' =>
    ret = SUCC /\ pool_inv u (L ∖ {[cid c]}) s').
Proof.
  intros Hinv HL [Hcl Hlen]. eapply wp_mono; [by apply recycle_any_spec|]. intros ret s' [Hr Hs]. split; [by apply Hr|done].
Qed.

#[export] Program Instance mem_cache_laws : CacheModuleLaws mem := {|
  cm_inv := pool_inv;
  cm_get_spec := get_spec;
  cm_recycle_spec := recycle_spec;
|}.
Next Obligation.
  intros u L s n Hinv. eapply wp_mono; [by eapply (malloc_spec u s n), pi_plan|].
  intros ob s' ((p & ->) & Hp & Hn & Hlen). split; [|done]. by apply pool_inv_plan.
Qed.

Lemma initial_inv plan readable after u :
  (u = false -> (18 <= length after)%nat /\ readable = true /\ Forall (eq true) plan) ->
  pool_inv u ∅ (initial_mem plan readable after).
Proof.
  intros Hu. assert (plan_ok u (initial_mem plan readable after)) by (intros ?; by apply Hu). constructor; try done; simpl.
  - exists after. split; [done|]. intros ?. by apply Hu.
  - by left.
  - constructor.
  - intros c ?%not_elem_of_nil. done.
  - intros ?. by apply Hu.
Qed.

(** A concrete start: every allocation succeeds, zeros behind the array. *)
Definition mem0 : mem := initial_mem [] true (replicate 18 0).

Lemma mem0_inv u : pool_inv u ∅ mem0.
Proof. by apply initial_inv. Qed.
