(* ===== verification/Locks.v ===== *)
(** * A lock and the threads that share it

    [SPIN_LOCK], [SPIN_UNLOCK], [MUTEX_LOCK] and [MUTEX_UNLOCK] of common.h, and
    programs made of single accesses to a state between them.  The theorems of
    this file are the reason why other files take a section under a lock as one
    step: whatever the interleaving of the accesses, the sections can be thought
    of as executed one after the other. *)
From S2P Require Import Prelude.

(** A lock that is not initialised, or destroyed, is [NoLock]. *)
Inductive lock_state :=
| NoLock
| Free
| Held (owner : nat).

(** What the calls do for thread [t]: [None] if it has to wait.  To use a lock
    that does not exist, to take one's own lock again and to release a lock that
    one does not hold are undefined. *)
Definition LOCK (t : nat) (l : lock_state) : option (outcome lock_state) :=
  match l with
  | NoLock => Some UB
  | Free => Some (Ret (Held t))
  | Held o => if decide (o = t) then Some UB else None
  end.
Definition UNLOCK (t : nat) (l : lock_state) : outcome lock_state :=
  match l with
  | Held o => if decide (o = t) then Ret Free else UB
  | _ => UB
  end.

(** A thread: accesses to the shared state [T], and the calls on the lock. *)
Inductive lprog (T A : Type) : Type :=
| LDone (a : A)
| LAct (X : Type) (m : M T X) (k : X -> lprog T A)
| LAcq (k : lprog T A)
| LRel (k : lprog T A).
Arguments LDone {T A} a.
Arguments LAct {T A X} m k.
Arguments LAcq {T A} k.
Arguments LRel {T A} k.

Fixpoint lprog_bind {T A B : Type} (f : A -> lprog T B) (p : lprog T A) : lprog T B :=
  match p with
  | LDone a => f a
  | LAct m k => LAct m (fun x => lprog_bind f (k x))
  | LAcq k => LAcq (lprog_bind f k)
  | LRel k => LRel (lprog_bind f k)
  end.
#[global] Instance lprog_ret T : MRet (lprog T) := fun A => LDone.
#[global] Instance lprog_mbind T : MBind (lprog T) := fun A B => lprog_bind.
Definition lact {T A} (m : M T A) : lprog T A := LAct m LDone.

(** A section: [body] has the accesses, [k] goes on behind it. *)
Definition critical {T A B} (body : lprog T A) (k : A -> lprog T B) : lprog T B :=
  LAcq (body ≫= fun a => LRel (k a)).

(** The accesses alone, run by one thread that nobody interrupts. *)
Fixpoint lrun {T A} (p : lprog T A) : M T A :=
  match p with
  | LDone a => mret a
  | LAct m k => x ← m; lrun (k x)
  | LAcq k => lrun k
  | LRel k => lrun k
  end.

Record lsys (T A : Type) := mkSys {
  shared : T;
  lock : lock_state;
  procs : list (lprog T A);
}.
Arguments mkSys {T A}. Arguments shared {T A}. Arguments lock {T A}. Arguments procs {T A}.

Definition fails {X} (o : outcome X) : Prop := match o with Ret _ => False | _ => True end.

(** Accesses only. *)
Fixpoint flat {T A} (p : lprog T A) : Prop :=
  match p with
  | LDone _ => True
  | LAct _ k => forall x, flat (k x)
  | _ => False
  end.

Section lock.
Context {T A : Type}.
Implicit Types (p k : lprog T A) (y : lsys T A) (t : nat) (s : T).

(** One step of thread [t], [None] if it is at its end or waits. *)
Definition lstep t y : option (outcome (lsys T A)) :=
  match procs y !! t with
  | None | Some (LDone _) => None
  | Some (LAct m k) =>
    Some (match m (shared y) with
          | Ret (x, s) => Ret (mkSys s (lock y) (<[t := k x]> (procs y)))
          | UB => UB
          | OutOfFuel => OutOfFuel
          end)
  | Some (LAcq k) =>
    match LOCK t (lock y) with
    | None => None
    | Some o => Some (l ← o; Ret (mkSys (shared y) l (<[t := k]> (procs y))))
    end
  | Some (LRel k) => Some (l ← UNLOCK t (lock y); Ret (mkSys (shared y) l (<[t := k]> (procs y))))
  end.

Definition lmove y y' : Prop := exists t, lstep t y = Some (Ret y').
Definition ended p : Prop := match p with LDone _ => True | _ => False end.
#[global] Instance ended_dec p : Decision (ended p).
Proof. destruct p; apply _. Defined.
Definition all_ended y : Prop := Forall ended (procs y).

(** Every access is in a section, and sections are not nested; [held]: the
    program starts inside one. *)
Fixpoint sectioned (held : bool) p : Prop :=
  match p with
  | LDone _ => held = false
  | LAct _ k => held = true /\ forall x, sectioned held (k x)
  | LAcq k => held = false /\ sectioned true k
  | LRel k => held = true /\ sectioned false k
  end.

(** The rest of a section, as one computation; its result is the program that
    follows it. *)
Fixpoint to_release p : M T (lprog T A) :=
  match p with
  | LAct m k => x ← m; to_release (k x)
  | LRel k => mret k
  | _ => mret p
  end.

(** The threads with every section executed in one step. *)
Definition astep t (z : T * list (lprog T A)) : option (outcome (T * list (lprog T A))) :=
  match z.2 !! t with
  | Some (LAcq k) =>
    Some (match to_release k z.1 with
          | Ret (k', s) => Ret (s, <[t := k']> z.2)
          | UB => UB
          | OutOfFuel => OutOfFuel
          end)
  | _ => None
  end.
Definition amove (z z' : T * list (lprog T A)) : Prop := exists t, astep t z = Some (Ret z').

(** The interleaving has come to where the sections executed one after the other
    come: to the same state if the lock is free; otherwise its owner is inside a
    section that they have not executed, and the rest of it leads to the same. *)
Definition matches y (z : T * list (lprog T A)) : Prop :=
  match lock y with
  | NoLock => False
  | Free => shared y = z.1 /\ procs y = z.2
  | Held t => exists k p, z.2 !! t = Some (LAcq k) /\ procs y = <[t := p]> z.2 /\
      sectioned true p /\ to_release k z.1 = to_release p (shared y)
  end.

Definition outside (z : T * list (lprog T A)) : Prop := Forall (sectioned false) z.2.

(** ** Lemmas *)

Lemma to_release_outside p s k s' :
  sectioned true p -> to_release p s = Ret (k, s') -> sectioned false k.
Proof.
  revert s. induction p as [a|X m f IH|q IH|q IH]; intros s; cbn; try by intros [].
  - done.
  - intros [_ Hf]. unfold mbind, M_bind. destruct (m s) as [[x s1]| |]; [|done..]. by apply IH.
  - intros [_ Hq] [= <- _]. done.
Qed.

Lemma amove_outside z z' : outside z -> amove z z' -> outside z'.
Proof.
  intros Hz [t Hs]. unfold astep in Hs. destruct (z.2 !! t) as [[| |k|]|] eqn:Ht; try done.
  destruct (to_release k z.1) as [[k' s]| |] eqn:Hk; simplify_eq/=. apply Forall_insert; [done|].
  pose proof (Forall_lookup_1 _ _ _ _ Hz Ht) as [_ Hsec]. by eapply to_release_outside.
Qed.

Lemma amoves_outside z z' : outside z -> rtc amove z z' -> outside z'.
Proof. intros Hz Hm. induction Hm as [|z z1 z2 Hs _ IH]; [done|]. by apply IH; eapply amove_outside. Qed.

(** Where the lock is held, its owner's program. *)
Lemma procs_inside (ps : list (lprog T A)) t t' p q :
  <[t := p]> ps !! t' = Some q -> (t' = t /\ q = p) \/ (t' <> t /\ ps !! t' = Some q).
Proof.
  destruct (decide (t' = t)) as [->|Hne].
  - intros H. left. split; [done|]. destruct (decide (t < length ps)%nat).
    + rw list_lookup_insert_eq // in H. by injection H.
    + rw list_insert_ge in H; [lia|]. rw lookup_ge_None_2 // in H. lia.
  - rw list_lookup_insert_ne //. by right.
Qed.

(** One step of the interleaving: nothing, or one section. *)
Lemma matches_step y z y' :
  outside z -> matches y z -> lmove y y' -> matches y' z \/ exists z', amove z z' /\ matches y' z'.
Proof.
  intros Hz Hm [t Hs]. unfold lstep in Hs. destruct (procs y !! t) as [p|] eqn:Ht; [|done].
  unfold matches in Hm. destruct (lock y) as [| |o] eqn:Hl; [done| |].
  - destruct Hm as [Hsh Hp]. rw Hp in Ht.
    pose proof (Forall_lookup_1 _ _ _ _ Hz Ht) as Hsec. destruct p as [a|X m k|k|k]; try by destruct Hsec.
    cbn in Hs. injection Hs as <-. left. exists k, k. rw -Hp Hsh. split_and!; try done.
    + by rw Hp.
    + apply Hsec.
  - destruct Hm as (k & q & Hk & Hp & Hq & Heq). rw Hp in Ht.
    apply procs_inside in Ht as [[-> ->]|[Hne Ht]].
    + destruct q as [a|X m f|q|q]; [done| |by destruct Hq|].
      * destruct (m (shared y)) as [[x s]| |] eqn:Hm; [|done..]. injection Hs as <-. left.
        exists k, (f x). split_and!; [done| |by apply Hq|].
        -- cbn. by rw Hp list_insert_insert_eq.
        -- rw Heq. cbn. unfold mbind, M_bind. by rw Hm.
      * cbn in Hs. rw decide_True // in Hs. injection Hs as <-. right.
        exists (shared y, <[o := q]> z.2). split.
        -- exists o. unfold astep. rw Hk Heq. done.
        -- split; [done|]. cbn. by rw Hp list_insert_insert_eq.
    + pose proof (Forall_lookup_1 _ _ _ _ Hz Ht) as Hsec. destruct p as [a|X m f|f|f]; try by destruct Hsec.
      cbn in Hs. by rw decide_False // in Hs.
Qed.

Lemma matches_reach y0 y :
  lock y0 = Free -> Forall (sectioned false) (procs y0) -> rtc lmove y0 y ->
  exists z, rtc amove (shared y0, procs y0) z /\ outside z /\ matches y z.
Proof.
  intros Hl Hp Hr. pattern y. eapply rtc_ind_r; [| |exact Hr]; [|intros y1 y2 _ Hs IH].
  - exists (shared y0, procs y0). split; [done|]. split; [done|]. unfold matches. by rw Hl.
  - destruct IH as (z & Hz & Ho & Hm). destruct (matches_step _ _ _ Ho Hm Hs) as [?|(z' & Hs' & Hm')].
    + by exists z.
    + exists z'. split_and!; [by eapply rtc_r|by eapply amove_outside|done].
Qed.

(** A step that fails is one of a section that fails. *)
Lemma matches_fault y z t o :
  outside z -> matches y z -> lstep t y = Some o -> fails o -> exists o', astep t z = Some o' /\ fails o'.
Proof.
  intros Hz Hm Hs Ho. unfold lstep in Hs. destruct (procs y !! t) as [p|] eqn:Ht; [|done].
  unfold matches in Hm. destruct (lock y) as [| |n] eqn:Hl; [done| |].
  - destruct Hm as [Hsh Hp]. rw Hp in Ht. pose proof (Forall_lookup_1 _ _ _ _ Hz Ht) as Hsec.
    destruct p; try by destruct Hsec. cbn in Hs. by injection Hs as <-.
  - destruct Hm as (k & q & Hk & Hp & Hq & Heq). rw Hp in Ht.
    apply procs_inside in Ht as [[-> ->]|[Hne Ht]].
    + unfold astep. rw Hk Heq. eexists. split; [done|]. destruct q as [a|X m f|q|q]; [done| |by destruct Hq|].
      * cbn. unfold mbind, M_bind. destruct (m (shared y)) as [[x s]| |]; [|done..]. by injection Hs as <-.
      * cbn in Hs. rw decide_True // in Hs. by injection Hs as <-.
    + pose proof (Forall_lookup_1 _ _ _ _ Hz Ht) as Hsec. destruct p as [a|X m f|f|f]; try by destruct Hsec.
      cbn in Hs. by rw decide_False // in Hs.
Qed.

(** Somebody can go on, unless everybody has ended. *)
Lemma matches_progress y z :
  outside z -> matches y z -> all_ended y \/ exists t o, lstep t y = Some o.
Proof.
  intros Hz Hm. unfold matches in Hm. destruct (lock y) as [| |o] eqn:Hl; [done| |].
  - destruct Hm as [Hsh Hp]. destruct (decide (Forall ended (procs y))) as [Hd|Hd].
    + by left.
    + right. apply not_Forall_Exists, Exists_exists in Hd as (p & Hin & Hd); [|apply _].
      apply list_elem_of_lookup in Hin as [t Ht]. exists t. unfold lstep. rw Ht.
      rw Hp in Ht. pose proof (Forall_lookup_1 _ _ _ _ Hz Ht) as Hsec.
      destruct p as [a|X m k|k|k]; [by destruct Hd|by destruct Hsec| |by destruct Hsec].
      rw Hl /=. by eexists.
  - right. destruct Hm as (k & q & Hk & Hp & Hq & Heq). exists o. unfold lstep.
    assert (procs y !! o = Some q) as ->.
    { rw Hp. apply list_lookup_insert_eq. by eapply lookup_lt_Some. }
    destruct q as [a|X m f|q|q]; [done|by eexists|by destruct Hq|by eexists].
Qed.

(** The sections executed one after the other are an interleaving. *)
Lemma section_moves t ps : forall p s k s',
  (t < length ps)%nat -> sectioned true p -> to_release p s = Ret (k, s') ->
  rtc lmove (mkSys s (Held t) (<[t := p]> ps)) (mkSys s' Free (<[t := k]> ps)).
Proof.
  intros p. induction p as [a|X m f IH|q IH|q IH]; intros s k s' Ht; cbn; try by intros [].
  - done.
  - intros [_ Hf]. unfold mbind, M_bind. destruct (m s) as [[x s1]| |] eqn:Hm; [|done..]. intros Hk.
    eapply rtc_l; [|by apply IH]. exists t. unfold lstep. cbn.
    by rw list_lookup_insert_eq // Hm list_insert_insert_eq.
  - intros _ [= <- <-]. apply rtc_once. exists t. unfold lstep. cbn.
    by rw list_lookup_insert_eq // decide_True // list_insert_insert_eq.
Qed.

Lemma atomic_moves z z' :
  outside z -> rtc amove z z' -> rtc lmove (mkSys z.1 Free z.2) (mkSys z'.1 Free z'.2).
Proof.
  intros Hz Hm. induction Hm as [|z z1 z2 Hs _ IH]; [done|].
  etransitivity; [|by apply IH; eapply amove_outside]. destruct Hs as [t Hs]. unfold astep in Hs.
  destruct (z.2 !! t) as [[| |k|]|] eqn:Ht; try done.
  pose proof (Forall_lookup_1 _ _ _ _ Hz Ht) as [_ Hsec].
  destruct (to_release k z.1) as [[k' s]| |] eqn:Hk; simplify_eq/=.
  eapply rtc_l; [|eapply section_moves; [by eapply lookup_lt_Some|exact Hsec|exact Hk]].
  exists t. unfold lstep. cbn. by rw Ht.
Qed.
End lock.

(** A run by a schedule: the threads to move, one after the other; one that cannot
    go on is passed over. *)
Fixpoint follow {T A} (ts : list nat) (y : lsys T A) : lsys T A :=
  match ts with
  | [] => y
  | t :: ts => match lstep t y with Some (Ret y') => follow ts y' | _ => follow ts y end
  end.

Lemma follow_moves {T A} ts (y : lsys T A) : rtc lmove y (follow ts y).
Proof.
  revert y. induction ts as [|t ts IH]; intros y; [done|]. cbn.
  destruct (lstep t y) as [[y'| |]|] eqn:Hs; [|apply IH..]. eapply rtc_l; [|apply IH]. by exists t.
Qed.

(** *** Sections *)

Lemma flat_bind {T A B} (p : lprog T A) (f : A -> lprog T B) :
  flat p -> (forall a, flat (f a)) -> flat (p ≫= f).
Proof. intros Hp Hf. induction p as [a|X m k IH|k IH|k IH]; cbn in *; [by apply Hf|by auto|done..]. Qed.

Lemma lrun_bind {T A B} (p : lprog T A) (f : A -> lprog T B) s :
  lrun (p ≫= f) s = (lrun p ≫= (fun a => lrun (f a))) s.
Proof.
  revert s. induction p as [a|X m k IH|k IH|k IH]; intros s; cbn; try done.
  unfold mbind, M_bind. destruct (m s) as [[x s1]| |]; [|done..]. apply IH.
Qed.

Lemma lrun_lact {T A} (m : M T A) s : lrun (lact m) s = m s.
Proof. cbn. unfold mbind, M_bind, mret, M_ret. by destruct (m s) as [[x s1]| |]. Qed.

Lemma bind_getS {T B} (f : T -> M T B) s : (getS ≫= f) s = f s s.
Proof. done. Qed.
Lemma bind_putS {T B} (f : () -> M T B) s s' : (putS s' ≫= f) s = f tt s'.
Proof. done. Qed.

Lemma bind_run {T B C} (m : M T B) (f : B -> M T C) s :
  (m ≫= f) s = match m s with Ret (a, s') => f a s' | UB => UB | OutOfFuel => OutOfFuel end.
Proof. done. Qed.

Lemma lrun_bind_same {T A B} (p : lprog T A) (m : M T A) (f : A -> lprog T B) (g : A -> M T B) s :
  lrun p s = m s -> (forall a s', m s = Ret (a, s') -> lrun (f a) s' = g a s') ->
  lrun (p ≫= f) s = (m ≫= g) s.
Proof.
  intros Hp Hf. rw lrun_bind. unfold mbind, M_bind. rw Hp. destruct (m s) as [[a s1]| |]; [by apply Hf|done..].
Qed.

Lemma lrun_bind_ret {T A B} (p : lprog T A) (f : A -> lprog T B) s a s' :
  lrun p s = Ret (a, s') -> lrun (p ≫= f) s = lrun (f a) s'.
Proof. intros Hp. rw lrun_bind. unfold mbind, M_bind. by rw Hp. Qed.

Lemma critical_sectioned {T A B} (body : lprog T A) (k : A -> lprog T B) :
  flat body -> (forall a, sectioned false (k a)) -> sectioned false (critical body k).
Proof.
  intros Hb Hk. split; [done|]. induction body as [a|X m f IH|f IH|f IH]; cbn in *; try done.
  split; [done|]. intros x. by apply IH.
Qed.

Lemma critical_release {T A B} (body : lprog T A) (k : A -> lprog T B) s :
  flat body -> to_release (body ≫= fun a => LRel (k a)) s = (lrun body ≫= (fun a => mret (k a))) s.
Proof.
  intros Hb. revert s. induction body as [a|X m f IH|f IH|f IH]; intros s; cbn in *; try done.
  unfold mbind, M_bind. destruct (m s) as [[x s1]| |]; [|done..]. by apply IH.
Qed.

(** Proves that a program has accesses only. *)
Ltac flat_auto :=
  repeat lazymatch goal with
  | |- flat (_ ≫= _) => apply flat_bind; [|intros ?]
  | |- flat (lact _) => done
  | |- flat (mret _) => done
  | |- flat (match ?x with _ => _ end) => destruct x
  | |- flat (LDone _) => exact I
  end.

(** Follows a program and a computation in step. *)
Ltac lrun_auto :=
  repeat lazymatch goal with
  | |- lrun (lact ?m ≫= _) ?s = mbind _ ?m ?s => apply lrun_bind_same; [apply lrun_lact|intros ???]
  | |- lrun (lact ?m) ?s = ?m ?s => apply lrun_lact
  | |- lrun (match ?x with _ => _ end) _ = _ => destruct x
  | |- lrun (mret _) _ = mret _ _ => reflexivity
  end.

(** ** Threads that call an interface under the lock

    [ret c] is the type of the result of the call [c], [body c] are the accesses of
    its section, [call c] is what the whole call does. *)
Section calls.
Context {T C : Type} (ret : C -> Type) (body : forall c, lprog T (ret c)) (call : forall c, M T (ret c)).

Inductive user (A : Type) : Type :=
| UDone (a : A)
| UCall (c : C) (k : ret c -> user A).
Arguments UDone {A} a.
Arguments UCall {A} c k.

(** The thread with the calls spelled out. *)
Fixpoint steps_of {A} (u : user A) : lprog T A :=
  match u with
  | UDone a => LDone a
  | UCall c k => critical (body c) (fun r => steps_of (k r))
  end.

(** The next call of a thread, as one step. *)
Definition next_call {A} (u : user A) : option (M T (user A)) :=
  match u with
  | UDone _ => None
  | UCall c k => Some (r ← call c; mret (k r))
  end.
Definition call_step {A} (t : nat) (z : T * list (user A)) : option (outcome (T * list (user A))) :=
  u ← z.2 !! t;
  m ← next_call u;
  Some ('(u', s) ← m z.1; Ret (s, <[t := u']> z.2)).
Definition call_move {A} (z z' : T * list (user A)) : Prop := exists t, call_step t z = Some (Ret z').

Definition users_start {A} (s : T) (us : list (user A)) : lsys T A := mkSys s Free (steps_of <$> us).

Definition spell {A} (z : T * list (user A)) : T * list (lprog T A) := (z.1, steps_of <$> z.2).

Hypothesis body_flat : forall c, flat (body c).
Hypothesis body_run : forall c s, lrun (body c) s = call c s.

Lemma steps_of_sectioned {A} (u : user A) : sectioned false (steps_of u).
Proof. induction u as [a|c k IH]; cbn [steps_of]; [done|]. by apply critical_sectioned. Qed.

Lemma spell_outside {A} (z : T * list (user A)) : outside (spell z).
Proof. apply Forall_fmap, Forall_true. intros u. apply steps_of_sectioned. Qed.

(** A thread at the lock, and its call. *)
Lemma call_release {A} (u : user A) k s :
  steps_of u = LAcq k ->
  exists m, next_call u = Some m /\ to_release k s = (u' ← m; mret (steps_of u')) s.
Proof.
  destruct u as [a|c f]; [done|]. intros Hk.
  apply (f_equal (fun p => match p with LAcq q => q | q => q end)) in Hk. cbn [steps_of critical] in Hk.
  rw -Hk. eexists. split; [done|]. rw (critical_release (body c)) // !bind_run body_run.
  by destruct (call c s) as [[? ?]| |].
Qed.

Lemma astep_call {A} t (z : T * list (user A)) :
  astep t (spell z) = (fun o => z' ← o; Ret (spell z')) <$> call_step t z.
Proof.
  unfold astep, call_step, spell. cbn. rw list_lookup_fmap. destruct (z.2 !! t) as [u|] eqn:Ht; [|done].
  cbn [option_fmap option_map fmap mbind option_bind]. destruct (steps_of u) as [a|X m k|k|k] eqn:Hk.
  - by destruct u.
  - by destruct u.
  - destruct (call_release u k z.1 Hk) as (m & -> & Hrel). rw Hrel bind_run.
    cbn. destruct (m z.1) as [[u' s']| |]; [|done..]. cbn. by rw list_fmap_insert.
  - by destruct u.
Qed.

Lemma amoves_calls {A} (z : T * list (user A)) x :
  rtc amove (spell z) x -> exists z', rtc call_move z z' /\ x = spell z'.
Proof.
  intros Hm. remember (spell z) as x0 eqn:Hx. revert z Hx.
  induction Hm as [|x0 x1 x Hs _ IH]; intros z ->; [by exists z|].
  destruct Hs as [t Hs]. rw astep_call in Hs. destruct (call_step t z) as [[z1| |]|] eqn:Hc; simplify_eq/=.
  destruct (IH z1 eq_refl) as (z' & Hz' & ->). exists z'. split; [|done]. eapply rtc_l; [|done]. by exists t.
Qed.

Lemma users_match {A} s (us : list (user A)) y :
  rtc lmove (users_start s us) y -> exists z, rtc call_move (s, us) z /\ matches y (spell z).
Proof.
  intros Hr. destruct (matches_reach (users_start s us) y eq_refl (spell_outside (s, us)) Hr) as (x & Hx & _ & Hm).
  destruct (amoves_calls (s, us) x Hx) as (z & Hz & ->). by exists z.
Qed.

(** Where an interleaving of accesses has come to, and what whole calls have to do
    with it: when the lock is free it is where they lead; while thread [t] holds it,
    the rest of [t]'s accesses leads to the end of its call. *)
Definition between {A} (y : lsys T A) (s : T) (us : list (user A)) : Prop :=
  match lock y with
  | NoLock => False
  | Free => shared y = s /\ procs y = steps_of <$> us
  | Held t => exists u m p, us !! t = Some u /\ next_call u = Some m /\
      procs y = <[t := p]> (steps_of <$> us) /\
      to_release p (shared y) = (u' ← m; mret (steps_of u')) s
  end.

Lemma users_fault {A} (y : lsys T A) (z : T * list (user A)) t o :
  matches y (spell z) -> lstep t y = Some o -> fails o -> exists o', call_step t z = Some o' /\ fails o'.
Proof.
  intros Hm Hs Hfail. destruct (matches_fault _ _ _ _ (spell_outside z) Hm Hs Hfail) as (o' & Ha & Hfail').
  rw astep_call in Ha. destruct (call_step t z) as [o1|]; [|done]. exists o1. split; [done|].
  injection Ha as <-. by destruct o1.
Qed.

Lemma users_between {A} s (us : list (user A)) y :
  rtc lmove (users_start s us) y -> exists s' us', rtc call_move (s, us) (s', us') /\ between y s' us' /\
    forall t o, lstep t y = Some o -> fails o -> exists o', call_step t (s', us') = Some o' /\ fails o'.
Proof.
  intros Hr. destruct (users_match s us y Hr) as ([s' us'] & Hz & Hm). exists s', us'.
  split_and!; [done| |by intros t o; apply users_fault].
  unfold matches, between in *. destruct (lock y) as [| |t]; [done..|].
  destruct Hm as (k & p & Hk & Hp & _ & Heq). cbn in Hk, Hp. rw list_lookup_fmap in Hk.
  destruct (us' !! t) as [u|] eqn:Hu; [|done]. injection Hk as Hk.
  destruct (call_release u k s' Hk) as (m & Hm & Hrel). exists u, m, p. split_and!; [done..|]. by rw -Heq -Hrel.
Qed.

Lemma calls_interleave {A} (z z' : T * list (user A)) :
  rtc call_move z z' -> rtc lmove (users_start z.1 z.2) (users_start z'.1 z'.2).
Proof.
  intros Hm. apply (atomic_moves (spell z) (spell z')); [apply spell_outside|].
  induction Hm as [|z z1 z2 [t Hs] _ IH]; [done|]. eapply rtc_l; [|exact IH]. exists t.
  by rw astep_call Hs.
Qed.

(** Threads that have come to their ends. *)
Lemma ended_users {A} (y : lsys T A) (z : T * list (user A)) results :
  matches y (spell z) -> procs y = LDone <$> results -> z.2 = UDone <$> results.
Proof.
  intros Hm Hres. unfold matches in Hm. destruct (lock y) as [| |t] eqn:Hl; [done| |].
  - destruct Hm as [_ Hpr]. cbn in Hpr. rw Hres in Hpr. revert Hpr. generalize z.2. clear.
    induction results as [|l ls IH]; intros [|u us]; cbn; try done.
    intros [= Hu ?]. f_equal; [|by apply IH]. destruct u; [|done]. by injection Hu as ->.
  - destruct Hm as (k & p & Hk & Hpr & Hsec & _). rw Hres in Hpr.
    assert ((LDone <$> results) !! t = Some p) as Hlk.
    { rw Hpr. apply list_lookup_insert_eq. by eapply lookup_lt_Some. }
    rw list_lookup_fmap in Hlk. destruct (results !! t); [|done]. by injection Hlk as <-.
Qed.

Lemma ended_procs {A} (y : lsys T A) : all_ended y -> exists results, procs y = LDone <$> results.
Proof.
  unfold all_ended. induction 1 as [|p ps Hp _ [rs ->]]; [by exists []|]. destruct p as [a| | |]; [|done..].
  by exists (a :: rs).
Qed.

Lemma ended_shared {A} (y : lsys T A) (z : T * list (user A)) :
  matches y (spell z) -> all_ended y -> shared y = z.1.
Proof.
  intros Hm Hend. unfold matches in Hm. destruct (lock y) as [| |t]; [done|by destruct Hm|].
  destruct Hm as (k & p & Hk & Hpr & Hsec & _). assert (ended p) as Hp.
  { eapply (Forall_lookup_1 _ _ t); [exact Hend|]. rw Hpr. apply list_lookup_insert_eq. by eapply lookup_lt_Some. }
  by destruct p.
Qed.

(** An invariant of whole calls under which none fails. *)
Lemma users_safe {A} (I : T * list (user A) -> Prop) s us y :
  (forall z t o, I z -> call_step t z = Some o -> exists z', o = Ret z' /\ I z') ->
  I (s, us) -> rtc lmove (users_start s us) y ->
  (forall t o, lstep t y = Some o -> ~ fails o) /\
  (all_ended y \/ exists t y', lstep t y = Some (Ret y')) /\
  (exists z, I z /\ matches y (spell z)).
Proof.
  intros Hstep HI Hr. destruct (users_match s us y Hr) as (z & Hz & Hm).
  assert (I z) as Hi.
  { clear -Hstep HI Hz. remember (s, us) as z0 eqn:Hz0. clear Hz0.
    induction Hz as [|z z1 z2 [t Hs] _ IH]; [done|]. destruct (Hstep z t _ HI Hs) as (? & [= <-] & H1). by apply IH. }
  assert (forall t o, lstep t y = Some o -> ~ fails o) as Hsafe.
  { intros t o Hs Hfail. destruct (users_fault y z t o Hm Hs Hfail) as (o' & Hc & Hfail').
    by destruct (Hstep z t o' Hi Hc) as (z' & -> & _). }
  split; [done|]. split; [|by exists z].
  destruct (matches_progress _ _ (spell_outside z) Hm) as [?|(t & o & Hs)]; [by left|]. right.
  exists t. destruct o as [y'| |]; [by exists y'|..]; by destruct (Hsafe _ _ Hs).
Qed.
End calls.
Arguments UDone {C ret A} a.
Arguments UCall {C ret A} c k.
Arguments user {C} ret A.
Arguments next_call {T C ret} call {A} u.
Arguments call_step {T C ret} call {A} t z.
Arguments call_move {T C ret} call {A} z z'.
Arguments steps_of {T C ret} body {A} u.
Arguments users_start {T C ret} body {A} s us.
Arguments spell {T C ret} body {A} z.
Arguments between {T C ret} body call {A} y s us.
