(* ===== verification/PoolLock.v ===== *)
(** * The pool under its lock

    [get_new_cache] and [recycle_cache] access by access, between the calls on the
    spin lock of cache.c, and threads that use the pool at the same time.  Every
    interleaving of their accesses comes to what whole calls, one after the other,
    come to; and what Cache.v takes as one call is what the accesses do. *)
From S2P Require Import Prelude CLib Alloc Cache Locks.

(** ** The calls, access by access *)

Definition read_classes : M mem (list SizeList) := s ← getS; mret (available_cache_node s).
Definition specified (i : nat) : M mem Z :=
  s ← getS; match static_ints s !! i with Some n => mret n | None => undef end.
Definition add_class (n : Z) : M mem () :=
  s ← getS; putS (set_available (available_cache_node s ++ [mkSizeList n []]) s).
Definition read_class (i : nat) : M mem (option SizeList) :=
  s ← getS; mret (available_cache_node s !! i).
Definition set_clist (i : nat) (f : list Cache -> list Cache) : M mem () :=
  s ← getS;
  match available_cache_node s !! i with
  | None => undef
  | Some cl =>
    putS (set_available (<[i := mkSizeList (allocated_cache_size cl) (f (clist cl))]>
                           (available_cache_node s)) s)
  end.
(** [list_add_tail(&cache_node->node, &all_node)], with the address of the cache
    that the node is for. *)
Definition add_node : M mem Z :=
  s ← getS; _ ← putS (add_all_node (mkCache (next_addr s) 0 0 []) s); mret (next_addr s).
(** A read of a node that has been freed. *)
Definition read_freed : M mem () := s ← getS; if m_freed_readable s then mret tt else undef.

Fixpoint add_classes_steps (index : list nat) : lprog mem () :=
  match index with
  | [] => mret tt
  | i :: rest =>
    _ ← lact (malloc_unchecked 40);
    n ← lact (specified i);
    _ ← lact (add_class n);
    add_classes_steps rest
  end.
Definition make_sure_steps : lprog mem () :=
  l ← lact read_classes;
  match l with
  | [] => add_classes_steps (seq 0 sizeof_specified)
  | _ => mret tt
  end.

(** [list_for_each] up to the first class that passes the test. *)
Fixpoint scan (test : Z -> bool) (fuel : nat) (i : nat) : lprog mem (option (nat * SizeList)) :=
  match fuel with
  | O => lact timeout
  | S fuel =>
    ocl ← lact (read_class i);
    match ocl with
    | None => mret None
    | Some cl => if test (allocated_cache_size cl) then mret (Some (i, cl)) else scan test fuel (S i)
    end
  end.
Definition find_class (test : Z -> bool) : lprog mem (option (nat * SizeList)) :=
  l ← lact read_classes; scan test (S (length l)) 0.

Definition get_steps (expected_size : Z) : lprog mem (option Cache) :=
  _ ← make_sure_steps;
  found ← find_class (fun n => expected_size <=? n);
  match found with
  | None => mret None
  | Some (i, cache_list) =>
    let n := allocated_cache_size cache_list in
    match clist cache_list with
    | [] =>
      _ ← lact (malloc_unchecked 24);
      a ← lact add_node;
      _ ← lact (malloc_unchecked 16);
      blk ← lact (malloc_unchecked n);
      b ← lact (lift (mem_write 0 (zeros n) blk));
      mret (Some (mkCache a n expected_size b))
    | c :: _ =>
      _ ← lact (set_clist i tail);
      _ ← lact read_freed;
      mret (Some (mkCache (cid c) (allocated_size c) expected_size (buff c)))
    end
  end.

Definition recycle_steps (cache : Cache) : lprog mem Z :=
  _ ← make_sure_steps;
  b ← lact (lift (mem_write 0 (zeros (allocated_size cache)) (buff cache)));
  let cache' := mkCache (cid cache) (allocated_size cache) 0 b in
  found ← find_class (fun n => n =? allocated_size cache);
  match found with
  | None => mret (-1)
  | Some (i, _) =>
    _ ← lact (malloc_unchecked 24);
    _ ← lact (set_clist i (fun l => l ++ [cache']));
    mret 0
  end.

(** ** Threads that use the pool *)

Inductive pool_call :=
| PGet (n : Z)
| PRecycle (c : Cache).
Definition pool_ret (c : pool_call) : Type := match c with PGet _ => option Cache | PRecycle _ => Z end.
Definition pool_body (c : pool_call) : lprog mem (pool_ret c) :=
  match c with PGet n => get_steps n | PRecycle c => recycle_steps c end.
Definition whole_call (c : pool_call) : M mem (pool_ret c) :=
  match c with PGet n => get_new_cache n | PRecycle c => recycle_cache c end.
Abbreviation pool_user := (user pool_ret).

(** The thread, holding the caches [own], asks for caches of a documented size and
    gives back only what it holds; what it returns in the end it holds. *)
Fixpoint fair (own : gset Z) (u : pool_user (list Cache)) : Prop :=
  match u with
  | UDone l => NoDup (cid <$> l) /\ Forall (fun c => cid c ∈ own) l
  | UCall c k =>
    match c return (pool_ret c -> gset Z -> Prop) -> Prop with
    | PGet n => fun rest => n <= 2048 /\
        forall c, cache_fresh n c -> (cid c ∉ own) -> rest (Some c) ({[cid c]} ∪ own)
    | PRecycle c => fun rest => (cid c ∈ own) /\ cache_ok c /\ rest SUCC (own ∖ {[cid c]})
    end (fun r own => fair own (k r))
  end.

(** The threads between calls: nothing is held by two of them. *)
Record owners_ok (z : mem * list (pool_user (list Cache))) (owns : list (gset Z)) : Prop := {
  uo_fair : Forall2 fair owns z.2;
  uo_disjoint : forall t t' X X', t <> t' -> owns !! t = Some X -> owns !! t' = Some X' -> X ## X';
  uo_pool : pool_inv false (⋃ owns) z.1;
}.

(** ** The accesses are the calls *)

Lemma add_classes_steps_flat index : flat (add_classes_steps index).
Proof. induction index; cbn [add_classes_steps]; flat_auto; done. Qed.
Lemma make_sure_steps_flat : flat make_sure_steps.
Proof. unfold make_sure_steps. flat_auto. apply add_classes_steps_flat. Qed.
Lemma scan_flat test fuel i : flat (scan test fuel i).
Proof. revert i. induction fuel as [|fuel IH]; intros i; cbn [scan]; flat_auto; apply IH. Qed.
Lemma find_class_flat test : flat (find_class test).
Proof. unfold find_class. flat_auto. apply scan_flat. Qed.
Lemma get_steps_flat n : flat (get_steps n).
Proof. unfold get_steps. cbv zeta. flat_auto; [apply make_sure_steps_flat|apply find_class_flat]. Qed.
Lemma recycle_steps_flat c : flat (recycle_steps c).
Proof. unfold recycle_steps. cbv zeta. flat_auto; [apply make_sure_steps_flat|apply find_class_flat]. Qed.

Lemma pool_body_flat c : flat (pool_body c).
Proof. destruct c; [apply get_steps_flat|apply recycle_steps_flat]. Qed.

Lemma add_classes_steps_run index s : lrun (add_classes_steps index) s = add_classes index s.
Proof.
  revert s. induction index as [|i index IH]; intros s; cbn [add_classes_steps add_classes]; [done|].
  rw lrun_bind. unfold mbind, M_bind. rw lrun_lact. destruct (malloc_unchecked 40 s) as [[b s1]| |]; [|done..].
  cbn. unfold specified, add_class, getS, putS, undef, mbind, M_bind, mret, M_ret.
  destruct (static_ints s1 !! i); [|done]. apply IH.
Qed.

Lemma make_sure_steps_run s : lrun make_sure_steps s = make_sure_cache_mm s.
Proof.
  unfold make_sure_steps, make_sure_cache_mm. rw lrun_bind. unfold mbind, M_bind. rw lrun_lact.
  unfold read_classes, getS, mbind, M_bind, mret, M_ret.
  destruct (available_cache_node s); [apply add_classes_steps_run|done].
Qed.

Lemma scan_run test fuel i s :
  (length (drop i (available_cache_node s)) < fuel)%nat ->
  lrun (scan test fuel i) s =
    Ret (prod_map (Nat.add i) id <$>
           list_find (fun cl => test (allocated_cache_size cl) = true) (drop i (available_cache_node s)), s).
Proof.
  revert i. induction fuel as [|fuel IH]; intros i Hf; [lia|]. cbn [scan]. rw lrun_bind.
  unfold mbind, M_bind. rw lrun_lact. unfold read_class, getS, mbind, M_bind, mret, M_ret.
  destruct (available_cache_node s !! i) as [cl|] eqn:Hi.
  - rw (drop_S _ cl) // in Hf |- *. cbn in *. destruct (decide (test (allocated_cache_size cl) = true)) as [Ht|Ht].
    + rw Ht. cbn. by rw Nat.add_0_r.
    + apply not_true_is_false in Ht. rw Ht IH; [cbn in *; lia|].
      destruct (list_find _ (drop (Datatypes.S i) _)) as [[j c]|]; [|done]. cbn. do 4 f_equal. lia.
  - apply lookup_ge_None in Hi. by rw drop_ge.
Qed.

Lemma find_class_run test s :
  lrun (find_class test) s =
    Ret (list_find (fun cl => test (allocated_cache_size cl) = true) (available_cache_node s), s).
Proof.
  unfold find_class. rw lrun_bind. unfold mbind, M_bind. rw lrun_lact.
  unfold read_classes, getS, mbind, M_bind, mret, M_ret. rw scan_run; [rw drop_0; lia|]. rw drop_0.
  by destruct (list_find _ _) as [[j c]|].
Qed.

Lemma list_find_iff {B} (P Q : B -> Prop) `{!forall x, Decision (P x), !forall x, Decision (Q x)} l :
  (forall x, P x <-> Q x) -> list_find P l = list_find Q l.
Proof. intros HPQ. by apply list_find_ext. Qed.

Lemma malloc_unchecked_keeps n s b s' :
  malloc_unchecked n s = Ret (b, s') -> exists p, s' = set_plan p s.
Proof.
  unfold malloc_unchecked, malloc, mbind, M_bind, mret, M_ret. destruct (m_plan s) as [|ok p] eqn:Hp.
  - intros [= _ <-]. exists (m_plan s). by destruct s.
  - destruct ok; [|done]. intros [= _ <-]. by exists p.
Qed.

(** The node is added before the cache is allocated: no allocation sees it. *)
Lemma malloc_add_node n c s :
  malloc_unchecked n (add_all_node c s) =
    match malloc_unchecked n s with Ret (b, s') => Ret (b, add_all_node c s') | o => o end.
Proof.
  unfold malloc_unchecked, malloc, mbind, M_bind, mret, M_ret. cbn. by destruct (m_plan s) as [|[|] p].
Qed.

Lemma get_steps_run n s : lrun (get_steps n) s = get_new_cache n s.
Proof.
  unfold get_steps, get_new_cache. apply lrun_bind_same; [apply make_sure_steps_run|]. intros [] s1 _.
  erewrite lrun_bind_ret; [|apply find_class_run]. rw bind_getS.
  rw (list_find_iff _ (fun cl => n <= allocated_cache_size cl)); [intros; apply Z.leb_le|].
  destruct (list_find _ _) as [[i cl]|] eqn:Hf; [|done]. destruct (clist cl) as [|c rest] eqn:Hcl.
  - apply lrun_bind_same; [apply lrun_lact|]. intros b1 s2 _. cbv zeta.
    rw (lrun_bind_ret _ _ _ (next_addr s2) (add_all_node (mkCache (next_addr s2) 0 0 []) s2)) //.
    rw lrun_bind !bind_run lrun_lact malloc_add_node. destruct (malloc_unchecked 16 s2) as [[b2 s3]| |] eqn:Hm; [|done..].
    rw lrun_bind !bind_run lrun_lact malloc_add_node. destruct (malloc_unchecked _ s3) as [[b3 s4]| |] eqn:Hm'; [|done..].
    apply malloc_unchecked_keeps in Hm as [p ->]. apply malloc_unchecked_keeps in Hm' as [q ->].
    rw lrun_bind !bind_run lrun_lact /lift. by destruct (mem_write _ _ _).
  - rw (lrun_bind_ret _ _ _ tt (set_available (<[i := mkSizeList (allocated_cache_size cl) rest]> (available_cache_node s1)) s1)).
    { rw lrun_lact /set_clist bind_getS. apply list_find_Some in Hf as [-> _]. by rw Hcl. }
    rw lrun_bind bind_run lrun_lact. unfold read_freed. rw bind_getS. cbn [m_freed_readable set_available].
    by destruct (m_freed_readable s1).
Qed.

Lemma recycle_steps_run c s : lrun (recycle_steps c) s = recycle_cache c s.
Proof.
  unfold recycle_steps, recycle_cache. apply lrun_bind_same; [apply make_sure_steps_run|]. intros [] s1 _.
  apply lrun_bind_same; [apply lrun_lact|]. intros b s2 _. cbv zeta.
  erewrite lrun_bind_ret; [|apply find_class_run]. rw bind_getS.
  rw (list_find_iff _ (fun cl => allocated_cache_size cl = allocated_size c)); [intros; apply Z.eqb_eq|].
  destruct (list_find _ _) as [[i cl]|] eqn:Hf; [|done].
  apply lrun_bind_same; [apply lrun_lact|]. intros b1 s3 Hm. apply malloc_unchecked_keeps in Hm as [p ->].
  apply list_find_Some in Hf as [Hi _].
  rw bind_getS bind_putS. erewrite lrun_bind_ret.
  2: { rw lrun_lact. unfold set_clist. rw bind_getS. cbn [available_cache_node set_plan]. rw Hi. done. }
  done.
Qed.

Lemma pool_body_run c s : lrun (pool_body c) s = whole_call c s.
Proof. destruct c; [apply get_steps_run|apply recycle_steps_run]. Qed.

(** ** Ownership *)

Lemma union_insert (owns : list (gset Z)) t X Y :
  owns !! t = Some X -> forall a, a ∈ ⋃ <[t := Y]> owns <->
    a ∈ Y \/ exists t' X', t' <> t /\ owns !! t' = Some X' /\ a ∈ X'.
Proof.
  intros Ht a. pose proof (lookup_lt_Some _ _ _ Ht) as Hlt. rw elem_of_union_list. split.
  - intros (X' & (t' & Hin)%list_elem_of_lookup & Ha). destruct (decide (t' = t)) as [->|Hne].
    + rw list_lookup_insert_eq // in Hin. injection Hin as <-. by left.
    + rw list_lookup_insert_ne // in Hin. right. by exists t', X'.
  - intros [Ha|(t' & X' & Hne & Hin & Ha)].
    + exists Y. split; [|done]. apply list_elem_of_lookup. exists t. by apply list_lookup_insert_eq.
    + exists X'. split; [|done]. apply list_elem_of_lookup. exists t'. by rw list_lookup_insert_ne.
Qed.

Lemma union_here (owns : list (gset Z)) t X a :
  owns !! t = Some X -> a ∈ ⋃ owns <-> a ∈ X \/ exists t' X', t' <> t /\ owns !! t' = Some X' /\ a ∈ X'.
Proof. intros Ht. rw -{1}(list_insert_id owns t X Ht). by apply (union_insert _ _ X). Qed.

Lemma disjoint_insert (owns : list (gset Z)) t X Y :
  owns !! t = Some X ->
  (forall t t' X X', t <> t' -> owns !! t = Some X -> owns !! t' = Some X' -> X ## X') ->
  (forall a, a ∈ Y -> a ∈ X \/ a ∉ ⋃ owns) ->
  (forall t1 t2 X1 X2, t1 <> t2 -> <[t := Y]> owns !! t1 = Some X1 -> <[t := Y]> owns !! t2 = Some X2 -> X1 ## X2).
Proof.
  intros Ht Hd HY. pose proof (lookup_lt_Some _ _ _ Ht) as Hlt.
  assert (forall t' X', t' <> t -> owns !! t' = Some X' -> Y ## X') as Hnew.
  { intros t' X' Hne Hin a Ha Ha'. destruct (HY a Ha) as [HX|HX].
    - by apply (Hd t t' X X' ltac:(congruence) Ht Hin a).
    - apply HX, (union_here _ _ _ _ Ht). right. by exists t', X'. }
  intros t1 t2 X1 X2 Hne H1 H2.
  destruct (decide (t1 = t)) as [->|Hn1]; [rw list_lookup_insert_eq // in H1|rw list_lookup_insert_ne // in H1];
    (destruct (decide (t2 = t)) as [->|Hn2]; [rw list_lookup_insert_eq // in H2|rw list_lookup_insert_ne // in H2]); simplify_eq.
  - exact (Hnew _ _ Hn2 H2).
  - symmetry. exact (Hnew _ _ Hn1 H1).
  - exact (Hd _ _ _ _ Hne H1 H2).
Qed.

(** A whole call of one thread. *)
Lemma users_step z owns t :
  owners_ok z owns -> match call_step whole_call t z with
  | None => forall u, z.2 !! t = Some u -> exists l, u = UDone l
  | Some o => exists z', o = Ret z' /\ exists owns', owners_ok z' owns'
  end.
Proof.
  intros [Hf Hd Hp]. unfold call_step. destruct (z.2 !! t) as [u|] eqn:Hu; [|done].
  destruct (Forall2_lookup_r _ _ _ _ _ Hf Hu) as (own & Ht & Hfu).
  destruct u as [l|[n|c] k]; cbn [mbind option_bind next_call].
  - intros u [= <-]. by exists l.
  - destruct Hfu as [Hn Hk]. cbn [whole_call]. rw bind_run.
    destruct (wp_total _ _ _ (get_spec false _ _ n Hp Hn)) as (oc & s' & -> & c & -> & Hc & Hnew & Hp').
    eexists. split; [done|]. exists (<[t := {[cid c]} ∪ own]> owns).
    assert (cid c ∉ own) as Hown by (intros Hin; apply Hnew, (union_here _ _ _ _ Ht); by left).
    constructor; cbn.
    + apply Forall2_insert; [done|]. by apply Hk.
    + eapply disjoint_insert; [done..|]. intros a [->%elem_of_singleton|?]%elem_of_union; [by right|by left].
    + replace (⋃ <[t := {[cid c]} ∪ own]> owns) with ({[cid c]} ∪ ⋃ owns); [done|].
      apply set_eq. intros a. rw (union_insert _ _ own) // elem_of_union (union_here _ t own) //. set_solver.
  - destruct Hfu as (Hin & Hc & Hk). cbn [whole_call]. rw bind_run.
    assert (cid c ∈ ⋃ owns) as HinL by (apply (union_here _ _ _ _ Ht); by left).
    destruct (wp_total _ _ _ (recycle_spec false _ _ c Hp HinL Hc)) as (r & s' & -> & -> & Hp').
    eexists. split; [done|]. exists (<[t := own ∖ {[cid c]}]> owns). constructor; cbn.
    + by apply Forall2_insert.
    + eapply disjoint_insert; [done..|]. intros a [? _]%elem_of_difference. by left.
    + replace (⋃ <[t := own ∖ {[cid c]}]> owns) with ((⋃ owns) ∖ {[cid c]}); [done|].
      apply set_eq. intros a. rw (union_insert _ _ own) // elem_of_difference (union_here _ t own) // elem_of_difference elem_of_singleton.
      split; [intros [[?|?] ?]; [by left|by right]|]. intros [[? ?]|(t' & X' & Hne & HX & Ha)]; [by split; [left|]|].
      split; [right; by exists t', X'|]. intros ->. by apply (Hd t t' own X' ltac:(congruence) Ht HX (cid c)).
Qed.

Lemma users_reach z z' owns : owners_ok z owns -> rtc (call_move whole_call) z z' -> exists owns', owners_ok z' owns'.
Proof.
  intros Hz Hm. revert owns Hz. induction Hm as [|z z1 z2 [t Hs] _ IH]; intros owns Hz; [by exists owns|].
  pose proof (users_step z owns t Hz) as Hst. rw Hs in Hst. destruct Hst as (? & [= <-] & owns1 & H1). by eapply IH.
Qed.

Lemma users_start_ok s us :
  pool_inv false ∅ s -> Forall (fair ∅) us -> owners_ok (s, us) (replicate (length us) ∅).
Proof.
  intros Hp Hf. constructor; cbn.
  - apply Forall2_replicate_l; [|done]. done.
  - intros t t' X X' _ [-> _]%lookup_replicate. set_solver.
  - replace (⋃ replicate (length us) ∅) with (∅ : gset Z); [done|].
    induction us as [|u us IH]; [done|]. cbn. rw -IH; [by apply Forall_cons in Hf as [_ ?]|]. set_solver.
Qed.

(** What the threads return in the end. *)
Lemma fair_results owns (results : list (list Cache)) :
  Forall2 fair owns (UDone <$> results) ->
  (forall t t' X X', t <> t' -> owns !! t = Some X -> owns !! t' = Some X' -> X ## X') ->
  NoDup (cid <$> concat results).
Proof.
  revert owns. induction results as [|l ls IH]; intros owns Hf Hd; [constructor|].
  apply Forall2_cons_inv_r in Hf as (own & owns' & [Hl Hin] & Hf & ->).
  cbn. rw fmap_app. apply NoDup_app. split_and!; [done| |].
  - intros a (c & -> & Hc)%list_elem_of_fmap (c' & Heq & Hc')%list_elem_of_fmap.
    apply list_elem_of_In, in_concat in Hc' as (l' & Hl' & Hc'%list_elem_of_In). apply list_elem_of_In, list_elem_of_lookup in Hl' as [t Ht].
    destruct (Forall2_lookup_r _ owns' _ t (UDone l') Hf) as (own' & Hown & Hl1 & Hin'); [by rw list_lookup_fmap Ht|].
    apply (Hd 0%nat (S t) own own' ltac:(lia) eq_refl Hown (cid c)).
    + by eapply Forall_forall in Hin.
    + rw Heq. by eapply Forall_forall in Hin'.
  - apply (IH owns'); [done|]. intros t t' X X' Hne HX HX'. by apply (Hd (S t) (S t')); [lia|..].
Qed.

(** ** Theorems *)

(** C19 (equivalence): The spin lock makes the pool's calls atomic: however the
    accesses of the threads inside [get_new_cache] and [recycle_cache] interleave,
    when the lock is free the pool and the threads are where some order of whole
    calls, each as Cache.v defines it, brings them; while a thread holds the lock,
    the others are where such an order brings them and the rest of its accesses
    leads to the end of its whole call; an access is undefined only if the whole
    call is; and every order of whole calls is such an interleaving. *)
Theorem pool_linearizable (A : Type) s (us : list (pool_user A)) :
  (forall y, rtc lmove (users_start pool_body s us) y -> exists s' us',
     rtc (call_move whole_call) (s, us) (s', us') /\ between pool_body whole_call y s' us' /\
     forall t o, lstep t y = Some o -> fails o ->
       exists o', call_step whole_call t (s', us') = Some o' /\ fails o') /\
  (forall s' us', rtc (call_move whole_call) (s, us) (s', us') ->
     rtc lmove (users_start pool_body s us) (users_start pool_body s' us')).
Proof.
  split.
  - intros y. apply users_between; [apply pool_body_flat|apply pool_body_run].
  - intros s' us'. by apply (calls_interleave _ _ _ pool_body_flat pool_body_run (s, us) (s', us')).
Qed.

(** C5 (safety): Threads that share the pool. Each of them asks for at most 2048
    bytes and gives back only what it holds; no allocation fails, and the two
    reads of cache.c outside of its blocks (lines 41 and 92) meet readable memory:
    that is [pool_inv false]. Then, whatever the interleaving of their accesses,
    no access is undefined; there is no deadlock: some thread can make a step
    until all have ended (which of those that spin for the lock gets it is left
    open); and when all have ended no cache is held twice, by one thread or by
    two. *)
Theorem pool_threads_safe s us y :
  pool_inv false ∅ s -> Forall (fair ∅) us -> rtc lmove (users_start pool_body s us) y ->
  (forall t o, lstep t y = Some o -> ~ fails o) /\
  (all_ended y \/ exists t y', lstep t y = Some (Ret y')) /\
  (forall results, procs y = LDone <$> results -> NoDup (cid <$> concat results)).
Proof.
  intros Hp Hf Hr.
  destruct (users_safe _ _ _ pool_body_flat pool_body_run (fun z => exists owns, owners_ok z owns) s us y)
    as (Hsafe & Hgo & z & [owns Ho] & Hm); [|by exists (replicate (length us) ∅); apply users_start_ok|done|].
  { intros z t o [owns Ho] Hc. pose proof (users_step z owns t Ho) as Hst. rw Hc in Hst. done. }
  split_and!; [done..|]. intros results Hres. eapply fair_results; [|by eapply uo_disjoint].
  replace (UDone <$> results) with z.2; [by apply uo_fair|]. by eapply ended_users.
Qed.

(** ** Concrete threads *)

(** One thread takes two caches and gives the first one back, the other takes one
    of the same size. *)
Definition two_users : list (pool_user (list Cache)) :=
  [ UCall (PGet 100) (fun oc => match oc with
      | Some c => UCall (PGet 10) (fun oc' => match oc' with
          | Some c' => UCall (PRecycle c) (fun _ => UDone [c'])
          | None => UDone []
          end)
      | None => UDone []
      end);
    UCall (PGet 100) (fun oc => UDone (match oc with Some c => [c] | None => [] end)) ].

Lemma two_users_fair : Forall (fair ∅) two_users.
Proof.
  apply Forall_cons; split; [|apply Forall_cons; split; [|constructor]]; (split; [lia|]); intros c Hc _.
  - split; [lia|]. intros c' Hc' Hne. split; [set_solver|]. split; [by eapply cache_fresh_ok|].
    split; [apply NoDup_singleton|]. apply Forall_singleton. set_solver.
  - split; [apply NoDup_singleton|]. apply Forall_singleton. set_solver.
Qed.

(** The threads in turn, access by access. *)
Definition in_turn (n : nat) : list nat := concat (replicate n [0; 1; 1]%nat).

Example in_turn_waits : lock (follow (in_turn 10) (users_start pool_body mem0 two_users)) = Held 0.
Proof. reflexivity. Qed.

Definition results_of {A} (ps : list (lprog mem A)) : option (list A) :=
  mapM (fun p => match p with LDone a => Some a | _ => None end) ps.
Lemma results_of_spec {A} (ps : list (lprog mem A)) rs : results_of ps = Some rs -> ps = LDone <$> rs.
Proof.
  unfold results_of. rw mapM_Some. induction 1 as [|p r ps rs Hp _ IH]; [done|]. cbn.
  destruct p; [|done..]. injection Hp as ->. by f_equal.
Qed.

Lemma pool_threads_safe_witness :
  exists results, results_of (procs (follow (in_turn 150) (users_start pool_body mem0 two_users))) = Some results /\
    NoDup (cid <$> concat results).
Proof.
  destruct (results_of (procs (follow (in_turn 150) (users_start pool_body mem0 two_users)))) as [rs|] eqn:Hrs.
  - exists rs. split; [done|].
    apply (pool_threads_safe mem0 two_users _ (mem0_inv false) two_users_fair
             (follow_moves (in_turn 150) (users_start pool_body mem0 two_users))), results_of_spec, Hrs.
  - vm_compute in Hrs. done.
Defined.
