(* ===== verification/PoolShared.v ===== *)
(** * The pool as one of several threads sees it

    The module with its lock, from [initialise_cache_module] to
    [release_cache_module], and with other threads that use the pool too: before
    each request of the thread that is followed here they make the calls of a
    script.  By [pool_linearizable] of PoolLock.v whole calls are all that the
    threads can interleave.  The file discharges the interface of Alloc.v a second
    time, so what is proved of buffers, clients and the server against the
    interface holds in the presence of such threads. *)
From S2P Require Import Prelude CLib Alloc Cache Locks PoolLock.

(** A call of another thread: [malloc], a new cache, or the return of the [i]-th
    cache that other threads hold, with the bytes they left in it. *)
Inductive other_call :=
| OMalloc (n : Z)
| OGet (n : Z)
| ORecycle (i : nat) (data : bytes).

(** [others_hold]: the caches in the hands of the other threads; [others_next]:
    what they do before each of the next requests. *)
Record pool_state := mkPool {
  spin_lock : lock_state;
  pool_mem : mem;
  others_hold : list Cache;
  others_next : list (list other_call);
}.

Definition set_lock (l : lock_state) (s : pool_state) : pool_state :=
  mkPool l (pool_mem s) (others_hold s) (others_next s).
Definition set_pool_mem (m : mem) (s : pool_state) : pool_state :=
  mkPool (spin_lock s) m (others_hold s) (others_next s).
Definition set_hold (l : list Cache) (s : pool_state) : pool_state :=
  mkPool (spin_lock s) (pool_mem s) l (others_next s).

Definition in_pool {A} (m : M mem A) : M pool_state A := fun s =>
  match m (pool_mem s) with
  | Ret (a, m') => Ret (a, set_pool_mem m' s)
  | UB => UB
  | OutOfFuel => OutOfFuel
  end.

(** The number of the thread that is followed, and of another one. *)
Definition me : nat := 0.
Definition other : nat := 1.

(** [SPIN_LOCK], the section, [SPIN_UNLOCK].  Between two requests no section is
    open, so that nobody waits here. *)
Definition under_lock {A} (t : nat) (m : M mem A) : M pool_state A :=
  s ← getS;
  match LOCK t (spin_lock s) with
  | None => timeout
  | Some o =>
    l ← lift o;
    _ ← putS (set_lock l s);
    a ← in_pool m;
    s ← getS;
    l ← lift (UNLOCK t (spin_lock s));
    _ ← putS (set_lock l s);
    mret a
  end.

Definition other_does (c : other_call) : M pool_state () :=
  match c with
  | OMalloc n => _ ← in_pool (malloc n); mret tt
  | OGet n =>
    oc ← under_lock other (get_new_cache n);
    s ← getS;
    putS (set_hold (others_hold s ++ match oc with Some c => [c] | None => [] end) s)
  | ORecycle i data =>
    s ← getS;
    match others_hold s !! i with
    | None => mret tt
    | Some c =>
      _ ← putS (set_hold (delete i (others_hold s)) s);
      _ ← under_lock other (recycle_cache (mkCache (cid c) (allocated_size c) (cache_size c)
                             (resize (length (buff c)) nul data)));
      mret tt
    end
  end.
Fixpoint others_do (cs : list other_call) : M pool_state () :=
  match cs with
  | [] => mret tt
  | c :: cs => _ ← other_does c; others_do cs
  end.

(** What the other threads do before a request. *)
Definition others_turn : M pool_state () :=
  s ← getS;
  match others_next s with
  | [] => mret tt
  | cs :: rest =>
    _ ← putS (mkPool (spin_lock s) (pool_mem s) (others_hold s) rest);
    others_do cs
  end.

(** [pthread_spin_init] and [pthread_spin_destroy]: undefined on a lock that is in
    use, and on one that is not, respectively. *)
Definition initialise_cache_module : M pool_state () :=
  s ← getS;
  match spin_lock s with
  | NoLock => putS (set_lock Free s)
  | _ => undef
  end.
Definition release_cache_module : M pool_state () :=
  s ← getS;
  match spin_lock s with
  | Free => putS (set_lock NoLock s)
  | _ => undef
  end.

#[export] Instance pool_cache_module : CacheModule pool_state := {|
  cm_malloc n := _ ← others_turn; in_pool (malloc n);
  cm_get n := _ ← others_turn; under_lock me (get_new_cache n);
  cm_recycle c := _ ← others_turn; under_lock me (recycle_cache c);
|}.
#[export] Instance pool_cache_lifecycle : CacheLifecycle pool_state := {|
  cl_init := initialise_cache_module;
  cl_release := release_cache_module;
|}.

(** ** The invariant *)

Definition other_ok (c : other_call) : Prop :=
  match c with OGet n => n <= 2048 | _ => True end.

Definition ids (l : list Cache) : gset Z := list_to_set (cid <$> l).

#[global] Arguments ids : simpl never.

Record pool_ok (l : lock_state) (u : bool) (L : gset Z) (s : pool_state) : Prop := {
  po_lock : spin_lock s = l;
  po_mem : pool_inv u (L ∪ ids (others_hold s)) (pool_mem s);
  po_disjoint : L ## ids (others_hold s);
  po_nodup : NoDup (cid <$> others_hold s);
  po_caches : Forall cache_ok (others_hold s);
  po_next : Forall (Forall other_ok) (others_next s);
}.

(** ** Lemmas *)

Lemma in_pool_spec {A} u (m : M mem A) s Q :
  wp u m (pool_mem s) (fun a m' => Q a (set_pool_mem m' s)) -> wp u (in_pool m) s Q.
Proof. unfold wp, in_pool. by destruct (m (pool_mem s)) as [[a m']| |]. Qed.

Lemma under_lock_spec {A} u t (m : M mem A) s Q :
  spin_lock s = Free -> wp u m (pool_mem s) (fun a m' => Q a (set_pool_mem m' s)) ->
  wp u (under_lock t m) s Q.
Proof.
  intros Hl Hm. unfold wp, under_lock, mbind, M_bind, getS, putS, lift, in_pool, mret, M_ret in *.
  rw Hl. cbn. destruct (m (pool_mem s)) as [[a m']| |]; [|done..].
  cbn. rw decide_True // /=. destruct s. cbn in *. by subst.
Qed.

Lemma ids_nil : ids [] = ∅.
Proof. done. Qed.
Lemma ids_snoc l c : ids (l ++ [c]) = {[cid c]} ∪ ids l.
Proof. unfold ids. rw fmap_app list_to_set_app_L. cbn. set_solver. Qed.
Lemma elem_of_ids l a : a ∈ ids l <-> exists c, c ∈ l /\ cid c = a.
Proof. unfold ids. rw elem_of_list_to_set list_elem_of_fmap. naive_solver. Qed.
Lemma ids_delete l i c :
  NoDup (cid <$> l) -> l !! i = Some c -> ids (delete i l) = ids l ∖ {[cid c]}.
Proof.
  intros Hnd Hi. pose proof (delete_Permutation _ _ _ Hi) as Hp. unfold ids.
  assert (cid <$> l ≡ₚ cid c :: (cid <$> delete i l)) as Hp' by rw {1}Hp //.
  rw Hp' in Hnd. apply NoDup_cons in Hnd as [Hc _]. rw (list_to_set_perm_L _ _ Hp'). cbn.
  apply set_eq. intros a. rw elem_of_difference elem_of_union elem_of_singleton.
  split; [|naive_solver]. intros Ha. split; [by right|]. intros ->. by apply Hc, (elem_of_list_to_set (C := gset Z)).
Qed.

(** Another thread's call keeps what this thread holds apart. *)
Lemma other_does_spec u L s c :
  pool_ok Free u L s -> other_ok c ->
  wp u (other_does c) s (fun _ s' => pool_ok Free u L s').
Proof.
  intros [Hl Hm Hd Hn Hc Hnx] Hok. destruct c as [n|n|i data]; unfold other_does.
  - apply wp_bind, in_pool_spec. eapply wp_mono; [by eapply malloc_spec, pi_plan|].
    intros ob m' ((p & ->) & Hp & _). apply wp_ret. constructor; try done. by apply pool_inv_plan.
  - apply wp_bind, under_lock_spec; [done|]. eapply wp_mono; [by eapply get_spec|].
    intros oc m' (c & -> & Hf & Hnew & Hm'). apply wp_bind, wp_getS, wp_putS. constructor; cbn; try done.
    + rw ids_snoc. by replace (L ∪ ({[cid c]} ∪ ids (others_hold s))) with ({[cid c]} ∪ (L ∪ ids (others_hold s))) by set_solver.
    + rw ids_snoc. set_solver.
    + rw fmap_app. apply NoDup_app. split_and!; [done| |apply NoDup_singleton].
      intros a Ha ->%list_elem_of_singleton. apply Hnew, elem_of_union_r. by apply elem_of_list_to_set.
    + apply Forall_app. split; [done|]. apply Forall_singleton. by eapply cache_fresh_ok.
  - apply wp_bind, wp_getS. destruct (others_hold s !! i) as [c|] eqn:Hi; [|by apply wp_ret].
    apply wp_bind, wp_putS, wp_bind, under_lock_spec; [done|]. cbn [pool_mem set_hold].
    pose proof (Forall_lookup_1 _ _ _ _ Hc Hi) as [Hcl Hlen].
    assert (cid c ∈ ids (others_hold s)) as Hin by (apply elem_of_ids; exists c; split; [by eapply list_elem_of_lookup_2|done]).
    eapply wp_mono.
    { eapply (recycle_spec u (L ∪ ids (others_hold s))); cbn; [done|set_solver|].
      constructor; cbn; [done|]. rw /zlen length_resize. exact Hlen. }
    intros r m' [_ Hm']. cbn in Hm'. apply wp_ret. constructor; cbn; try done.
    + rw (ids_delete _ _ c) //. replace (L ∪ ids (others_hold s) ∖ {[cid c]}) with ((L ∪ ids (others_hold s)) ∖ {[cid c]}) by set_solver. done.
    + rw (ids_delete _ _ c) //. set_solver.
    + eapply sublist_NoDup; [exact Hn|]. apply fmap_sublist, sublist_delete.
    + by apply Forall_delete.
Qed.

Lemma others_do_spec u L cs : forall s,
  pool_ok Free u L s -> Forall other_ok cs -> wp u (others_do cs) s (fun _ s' => pool_ok Free u L s').
Proof.
  induction cs as [|c cs IH]; intros s Hs Hcs; [by apply wp_ret|]. apply Forall_cons in Hcs as [Hc Hcs].
  apply wp_bind. eapply wp_mono; [by apply other_does_spec|]. intros [] s' Hs'. by apply IH.
Qed.

Lemma others_turn_spec u L s :
  pool_ok Free u L s -> wp u others_turn s (fun _ s' => pool_ok Free u L s').
Proof.
  intros Hs. unfold others_turn. apply wp_bind, wp_getS. destruct (others_next s) as [|cs rest] eqn:Hn; [by apply wp_ret|].
  apply wp_bind, wp_putS. pose proof (po_next _ _ _ _ Hs) as Hnx. rw Hn in Hnx. apply Forall_cons in Hnx as [Hcs Hrest].
  apply others_do_spec; [|done]. destruct Hs. by constructor.
Qed.

(** The laws of the interface, whatever the other threads do. *)
#[export] Program Instance pool_cache_laws : CacheModuleLaws pool_state := {| cm_inv := pool_ok Free |}.
Next Obligation.
  intros u L s n Hs. apply wp_bind. eapply wp_mono; [by apply others_turn_spec|]. intros [] s1 [Hl Hm Hd Hn Hc Hnx].
  apply in_pool_spec. eapply wp_mono; [by eapply malloc_spec, pi_plan|].
  intros ob m' ((p & ->) & Hp & Ho & Hlen). split; [|done]. constructor; try done. by apply pool_inv_plan.
Qed.
Next Obligation.
  intros u L s n Hs Hsz. apply wp_bind. eapply wp_mono; [by apply others_turn_spec|]. intros [] s1 [Hl Hm Hd Hn Hc Hnx].
  apply under_lock_spec; [done|]. eapply wp_mono; [by eapply get_spec|].
  intros oc m' (c & -> & Hf & Hnew & Hm'). exists c. split_and!; [done..|set_solver|].
  constructor; cbn; try done; [|set_solver].
  by replace ({[cid c]} ∪ L ∪ ids (others_hold s1)) with ({[cid c]} ∪ (L ∪ ids (others_hold s1))) by set_solver.
Qed.
Next Obligation.
  intros u L s c Hs Hin Hok. apply wp_bind. eapply wp_mono; [by apply others_turn_spec|]. intros [] s1 [Hl Hm Hd Hn Hc Hnx].
  apply under_lock_spec; [done|]. eapply wp_mono; [eapply recycle_spec; [done|set_solver|done]|].
  intros r m' [Hr Hm']. split; [done|]. constructor; cbn; try done; [|set_solver].
  by replace (L ∖ {[cid c]} ∪ ids (others_hold s1)) with ((L ∪ ids (others_hold s1)) ∖ {[cid c]}) by set_solver.
Qed.

(** ** The module's life *)

Lemma under_lock_none {A} t (m : M mem A) s : spin_lock s = NoLock -> under_lock t m s = UB.
Proof. intros Hl. unfold under_lock. rw bind_getS. by rw Hl. Qed.

Lemma others_turn_none s :
  spin_lock s = NoLock -> wp true others_turn s (fun _ s' => spin_lock s' = NoLock).
Proof.
  intros Hl. unfold others_turn. apply wp_bind, wp_getS. destruct (others_next s) as [|cs rest]; [by apply wp_ret|].
  apply wp_bind, wp_putS. match goal with |- wp _ _ ?s0 _ => assert (spin_lock s0 = NoLock) as Hs by done; generalize dependent s0 end.
  induction cs as [|c cs IH]; intros s0 Hs; [by apply wp_ret|]. apply wp_bind.
  assert (wp true (other_does c) s0 (fun _ s' => spin_lock s' = NoLock)) as Hc.
  { destruct c as [n|n|i data]; unfold other_does.
    - apply wp_bind, in_pool_spec. unfold wp, malloc. by destruct (m_plan _).
    - apply wp_bind. unfold wp. by rw under_lock_none.
    - apply wp_bind, wp_getS. destruct (others_hold s0 !! i); [|by apply wp_ret].
      apply wp_bind, wp_putS, wp_bind. unfold wp. by rw under_lock_none. }
  eapply wp_mono; [exact Hc|]. intros [] s' Hs'. by apply IH.
Qed.

#[export] Program Instance pool_lifecycle_laws : CacheLifecycleLaws pool_state := {| cl_raw := pool_ok NoLock |}.
Next Obligation.
  intros u L s n [Hl _ _ _ _ _]. cbn. rw bind_run. pose proof (others_turn_none s Hl) as Ht. unfold wp in Ht.
  destruct (others_turn s) as [[[] s1]| |]; [by apply under_lock_none|done..].
Qed.
Next Obligation.
  intros u L s c [Hl _ _ _ _ _]. cbn. rw bind_run. pose proof (others_turn_none s Hl) as Ht. unfold wp in Ht.
  destruct (others_turn s) as [[[] s1]| |]; [by apply under_lock_none|done..].
Qed.
Next Obligation.
  intros u L s [Hl ? ? ? ? ?]. apply wp_bind, wp_getS. rw Hl. apply wp_putS. by constructor.
Qed.
Next Obligation.
  intros u L s [Hl ? ? ? ? ?]. apply wp_bind, wp_getS. rw Hl. apply wp_putS. by constructor.
Qed.

(** The start: the lock is static memory. *)
Definition pool_start (m : mem) (next : list (list other_call)) : pool_state := mkPool NoLock m [] next.

Lemma pool_start_raw u m next :
  pool_inv u ∅ m -> Forall (Forall other_ok) next -> cl_raw u ∅ (pool_start m next).
Proof.
  intros Hm Hn. constructor; cbn; try done.
  constructor.
Qed.
