(* ===== verification/Buffer.v ===== *)
(** * The chunked byte buffer of src/io/buffer.c

    A buffer is a list of nodes, each a window on a 512-byte cache.  The
    operations are proved against the interface of Alloc.v. *)
From S2P Require Import Prelude CLib Alloc.

Definition CACHE_SIZE : Z := 512.

(** [_InnerNode]; the list link is the position in the node list. *)
Record InnerNode := mkNode {
  w_offset : Z;
  r_offset : Z;
  cache : Cache;
}.

(** [_InnerBuffer]: the nodes of [cache_list], first to last. *)
Abbreviation InnerBuffer := (list InnerNode).

Definition NODE_SIZE (n : InnerNode) : Z := i32 (w_offset n - r_offset n).
Definition set_w (w : Z) (n : InnerNode) : InnerNode := mkNode w (r_offset n) (cache n).
Definition set_r (r : Z) (n : InnerNode) : InnerNode := mkNode (w_offset n) r (cache n).
Definition set_buff (b : bytes) (n : InnerNode) : InnerNode :=
  mkNode (w_offset n) (r_offset n)
    (mkCache (cid (cache n)) (allocated_size (cache n)) (cache_size (cache n)) b).

(** ** File descriptors

    [fd_in]: the bytes the kernel holds for reading; [fd_out]: the bytes
    accepted so far.  A plan fixes the results of the next calls: [None] is an
    error, [Some k] transfers at most [k] bytes; with an empty plan a call
    transfers as much as it can. *)
Record fdesc := mkFd {
  fd_in : bytes;
  fd_rplan : list (option Z);
  fd_out : bytes;
  fd_wplan : list (option Z);
}.

Definition sys_read (n : Z) (f : fdesc) : Z * bytes * fdesc :=
  let avail := Z.min n (zlen (fd_in f)) in
  let go k p :=
    let k := Z.to_nat k in
    (Z.of_nat k, take k (fd_in f), mkFd (drop k (fd_in f)) p (fd_out f) (fd_wplan f)) in
  match fd_rplan f with
  | [] => go (Z.max 0 avail) []
  | None :: p => (-1, [], mkFd (fd_in f) p (fd_out f) (fd_wplan f))
  | Some k :: p => go (Z.max 0 (Z.min k avail)) p
  end.

Definition sys_write (data : bytes) (f : fdesc) : Z * fdesc :=
  let go k p :=
    let k := Z.to_nat k in
    (Z.of_nat k, mkFd (fd_in f) (fd_rplan f) (fd_out f ++ take k data) p) in
  match fd_wplan f with
  | [] => go (zlen data) []
  | None :: p => (-1, mkFd (fd_in f) (fd_rplan f) (fd_out f) p)
  | Some k :: p => go (Z.max 0 (Z.min k (zlen data))) p
  end.

(** The transfers into a node: [read] and [memcpy]. *)
Definition read_transfer (n : Z) (f : fdesc) : outcome (Z * bytes * fdesc) :=
  Ret (sys_read n f).
Definition memcpy_transfer (n : Z) (src : bytes) : outcome (Z * bytes * bytes) :=
  d ← mem_read 0 n src; Ret (i32 n, d, drop (Z.to_nat n) src).

Section ops.
Context {S : Type} `{CacheModule S}.

Definition create_new_buffer : M S (option InnerBuffer) :=
  ob ← cm_malloc 24;
  match ob with
  | None => mret None
  | Some _ => mret (Some [])
  end.

(** The node allocation repeated in [read_into_buffer] and
    [write_into_buffer]: [None] when either allocation fails. *)
Definition new_inner_node : M S (option InnerNode) :=
  ob ← cm_malloc 32;
  match ob with
  | None => mret None
  | Some _ =>
    oc ← cm_get CACHE_SIZE;
    match oc with
    | None => mret None
    | Some c => mret (Some (mkNode 0 0 c))
    end
  end.

(** Recycles the nodes from the last to the first. *)
Fixpoint recycle_nodes (rev_nodes : list InnerNode) : M S () :=
  match rev_nodes with
  | [] => mret tt
  | n :: rest => _ ← cm_recycle (cache n); recycle_nodes rest
  end.

Definition destroy_buffer (b : InnerBuffer) : M S Z :=
  _ ← recycle_nodes (rev b);
  mret SUCC.

(** The node being filled, [node] in the code, with the lists around it: while
    [f_intmp] is false it is the last node of [cache_list] and [f_list] holds the
    nodes before it; afterwards it is the last node of [tmp_list]. *)
Record fill_state := mkFill {
  f_list : list InnerNode;
  f_tmp : list InnerNode;
  f_node : InnerNode;
  f_intmp : bool;
}.

Definition cur_list (st : fill_state) : list InnerNode :=
  if f_intmp st then f_list st else f_list st ++ [f_node st].
Definition cur_tmp (st : fill_state) : list InnerNode :=
  if f_intmp st then f_tmp st ++ [f_node st] else f_tmp st.

(** The choice of the first node and [last_w_offset]; [None]: the function
    returns -1. *)
Definition first_node (b : InnerBuffer) : M S (option (fill_state * Z)) :=
  let fresh :=
    on ← new_inner_node;
    match on with
    | None => mret None
    | Some n => mret (Some (mkFill b [] n true, u64 (-1)))
    end in
  match last b with
  | None => fresh
  | Some n =>
    if w_offset n =? CACHE_SIZE then fresh
    else mret (Some (mkFill (removelast b) [] n false, u64 (w_offset n)))
  end.

Inductive fill_exit :=
| FillDone (ret : Z)
| FillError (ret : Z).

Fixpoint fill_loop {Src} (transfer : Z -> Src -> outcome (Z * bytes * Src))
    (fuel : nat) (size already_read_size : Z) (src : Src) (st : fill_state)
    : M S (fill_exit * Src * fill_state) :=
  match fuel with
  | O => timeout
  | Datatypes.S fuel =>
    if already_read_size <? size then
      let node := f_node st in
      let read_size := min_u64 (size - already_read_size) (CACHE_SIZE - w_offset node) in
      '(tmp_read_size, data, src') ← lift (transfer read_size src);
      if tmp_read_size <? 0 then mret (FillError tmp_read_size, src', st)
      else
        b ← lift (mem_write (w_offset node) data (buff (cache node)));
        let already := u64 (already_read_size + tmp_read_size) in
        let node' := set_w (i32 (w_offset node + tmp_read_size)) (set_buff b node) in
        let st' := mkFill (f_list st) (f_tmp st) node' (f_intmp st) in
        if (already =? size) || (u64 tmp_read_size <? read_size)
        then mret (FillDone (i32 already), src', st')
        else
          on ← new_inner_node;
          match on with
          | None => mret (FillDone (i32 already), src', st')
          | Some n =>
            fill_loop transfer fuel size already src'
              (mkFill (cur_list st') (cur_tmp st') n true)
          end
    else mret (FillDone SUCC, src, st)
  end.

(** The label [error_with_read]: [last_w_offset >= 0] holds of every [size_t],
    so the reset is unconditional; with an empty list it writes outside the
    buffer. *)
Definition error_with_read (last_w_offset : Z) (st : fill_state) : M S InnerBuffer :=
  b ← (if 0 <=? last_w_offset then
         match last (cur_list st) with
         | None => undef
         | Some n => mret (removelast (cur_list st) ++ [set_w (i32 last_w_offset) n])
         end
       else mret (cur_list st));
  _ ← recycle_nodes (rev (cur_tmp st));
  mret b.

(** The common body of [read_into_buffer] and [write_into_buffer], which differ
    only in the transfer. *)
Definition fill_buffer {Src} (transfer : Z -> Src -> outcome (Z * bytes * Src))
    (src : Src) (b : InnerBuffer) (size : Z) : M S (Z * Src * InnerBuffer) :=
  ofirst ← first_node b;
  match ofirst with
  | None => mret (u64 (-1), src, b)
  | Some (st, last_w_offset) =>
    '(ex, src', st') ← fill_loop transfer (Datatypes.S (Z.to_nat size)) size 0 src st;
    match ex with
    | FillDone ret =>
      let b' := if 0 <? ret then cur_list st' ++ cur_tmp st' else cur_list st' in
      mret (u64 ret, src', b')
    | FillError ret =>
      b' ← error_with_read last_w_offset st';
      mret (u64 ret, src', b')
    end
  end.

Definition read_into_buffer (fd : fdesc) (b : InnerBuffer) (size : Z)
    : M S (Z * fdesc * InnerBuffer) :=
  fill_buffer read_transfer fd b size.

Definition write_into_buffer (b : InnerBuffer) (src : bytes) (size : Z)
    : M S (Z * InnerBuffer) :=
  '(ret, _, b') ← fill_buffer memcpy_transfer src b size;
  mret (ret, b').

(** The loop of [write_from_buffer].  [write] returns into a [size_t], so its
    error result -1 is not seen by the test that follows. *)
Fixpoint drain_loop (fuel : nat) (fd : fdesc) (b : InnerBuffer)
    (size already_write_size : Z) : M S (Z * fdesc * InnerBuffer) :=
  match fuel with
  | O => timeout
  | Datatypes.S fuel =>
    if already_write_size <? size then
      match b with
      | [] => mret (already_write_size, fd, [])
      | node :: rest =>
        let write_size := min_u64 (NODE_SIZE node) (size - already_write_size) in
        data ← lift (mem_read (r_offset node) write_size (buff (cache node)));
        let '(n, fd') := sys_write data fd in
        let tmp_write_size := u64 n in
        if tmp_write_size <? 0 then mret (already_write_size, fd', b)
        else
          let already := u64 (already_write_size + tmp_write_size) in
          let node' := set_r (i32 (u64 (r_offset node + tmp_write_size))) node in
          if r_offset node' =? w_offset node' then
            _ ← cm_recycle (cache node');
            drain_loop fuel fd' rest size already
          else drain_loop fuel fd' (node' :: rest) size already
      end
    else mret (already_write_size, fd, b)
  end.

Definition write_from_buffer (fd : fdesc) (b : InnerBuffer) (size : Z)
    : M S (Z * fdesc * InnerBuffer) :=
  match b with
  | [] => mret (0, fd, b)
  | _ => drain_loop (2 + length (fd_wplan fd) + length b) fd b size 0
  end.

Fixpoint expected_read_size (b : InnerBuffer) (size acc : Z) : Z :=
  match b with
  | [] => acc
  | curr :: rest =>
    let e := u64 (acc + NODE_SIZE curr) in
    if size <=? e then size else expected_read_size rest size e
  end.

Fixpoint copy_loop (fuel : nat) (b : InnerBuffer) (expected already_read_size : Z)
    (target : bytes) : M S (Z * bytes * InnerBuffer) :=
  match fuel with
  | O => timeout
  | Datatypes.S fuel =>
    if already_read_size <? expected then
      match b with
      | [] => mret (already_read_size, target, [])
      | node :: rest =>
        let write_size := i32 (min_u64 (NODE_SIZE node) (expected - already_read_size)) in
        d ← lift (mem_read (r_offset node) write_size (buff (cache node)));
        target' ← lift (mem_write already_read_size d target);
        let node' := set_r (i32 (r_offset node + write_size)) node in
        let already := u64 (already_read_size + write_size) in
        if r_offset node' =? w_offset node' then
          _ ← cm_recycle (cache node');
          copy_loop fuel rest expected already target'
        else copy_loop fuel (node' :: rest) expected already target'
      end
    else mret (already_read_size, target, b)
  end.

(** Returns the size read, the block left in [*target], and the buffer. *)
Definition read_from_buffer (b : InnerBuffer) (size : Z) : M S (Z * bytes * InnerBuffer) :=
  let expected := expected_read_size b size 0 in
  ob ← cm_malloc expected;
  target ← match ob with
           | Some blk => lift (mem_write 0 (zeros expected) blk)
           | None => if expected =? 0 then mret [] else undef
           end;
  copy_loop (2 + length b) b expected 0 target.
End ops.

(** ** Searching *)

(** The default callback: [>=] where [<] is meant. *)
Definition simple_index_func (c : byte) (ptr : bytes) (size : Z) : outcome Z :=
  r ← strchr ptr c;
  match r with
  | None => Ret (u64 (-1))
  | Some k => if size <=? k then Ret (u64 k) else Ret (u64 (-1))
  end.

(** The memory that follows the block of each cache is [heap_after]; [index] is
    the callback, [None] for a null pointer. *)
Section find.
Variable heap_after : Z -> bytes.
Variable index : option (byte -> bytes -> Z -> outcome Z).
Variable arg : byte.

(** The loop, with [node_first_pos] and [node_index_pos] as the code leaves
    them. *)
Fixpoint find_loop (b : InnerBuffer) (start_pos node_first_pos node_index_pos : Z)
    : outcome (Z * Z) :=
  match b with
  | [] => Ret (node_first_pos, node_index_pos)
  | cur :: rest =>
    let at_off off := ptr_at off (buff (cache cur)) (heap_after (cid (cache cur))) in
    let index := default simple_index_func index arg in
    let next := u64 (node_first_pos + NODE_SIZE cur) in
    if start_pos <=? node_first_pos then
      p ← at_off (r_offset cur);
      idx ← index p (NODE_SIZE cur);
      if 0 <=? idx then Ret (u64 (node_first_pos + idx), idx)
      else find_loop rest start_pos next idx
    else if start_pos <? next then
      let start_pos_in_node := i32 (start_pos - node_first_pos) in
      p ← at_off (r_offset cur + start_pos_in_node);
      idx ← index p (i32 (NODE_SIZE cur - start_pos_in_node));
      if 0 <=? idx then Ret (u64 (node_first_pos + start_pos_in_node + idx), idx)
      else find_loop rest start_pos next idx
    else find_loop rest start_pos next node_index_pos
  end.

Definition find_in_buffer (b : InnerBuffer) (start_pos : Z) : outcome Z :=
  '(node_first_pos, node_index_pos) ← find_loop b start_pos 0 (u64 (-1));
  Ret (if 0 <=? node_index_pos then node_first_pos else u64 (-1)).
End find.

Definition buffer_size (b : InnerBuffer) : Z :=
  foldl (fun size node => u64 (size + NODE_SIZE node)) 0 b.

(** ** Invariant and abstraction *)

(** The bytes a node holds, and those of a whole buffer. *)
Definition live (n : InnerNode) : bytes :=
  take (Z.to_nat (w_offset n - r_offset n)) (drop (Z.to_nat (r_offset n)) (buff (cache n))).
Definition contents (b : InnerBuffer) : bytes := b ≫= live.

Record node_ok (n : InnerNode) : Prop := {
  no_offsets : 0 <= r_offset n <= w_offset n;
  no_w : w_offset n <= CACHE_SIZE;
  no_alloc : allocated_size (cache n) = CACHE_SIZE;
  no_len : zlen (buff (cache n)) = CACHE_SIZE;
  (** what was never written is still zero *)
  no_zero : drop (Z.to_nat (w_offset n)) (buff (cache n)) = zeros (CACHE_SIZE - w_offset n);
}.

(** A node that is not the last one is written to its end and not exhausted;
    the last one is not exhausted, or was never used. *)
Definition full_node (n : InnerNode) : Prop :=
  node_ok n /\ w_offset n = CACHE_SIZE /\ r_offset n < CACHE_SIZE.
Definition last_node (n : InnerNode) : Prop :=
  node_ok n /\ (r_offset n < w_offset n \/ w_offset n = 0).

Definition ids (b : InnerBuffer) : list Z := (fun n => cid (cache n)) <$> b.
Definition owns (b : InnerBuffer) : gset Z := list_to_set (ids b).

Inductive shape_ok : InnerBuffer -> Prop :=
| shape_nil : shape_ok []
| shape_snoc b n : Forall full_node b -> last_node n -> shape_ok (b ++ [n]).

Record buffer_inv (b : InnerBuffer) : Prop := {
  bi_shape : shape_ok b;
  bi_ids : NoDup (ids b);
}.

(** A descriptor whose coming reads do not fail, and one whose writes do not. *)
Definition reads_succeed (fd : fdesc) : Prop := Forall is_Some (fd_rplan fd).
Definition writes_succeed (fd : fdesc) : Prop := Forall is_Some (fd_wplan fd).

(** ** Lemmas on nodes *)

Lemma node_fresh c : cache_fresh CACHE_SIZE c -> node_ok (mkNode 0 0 c).
Proof.
  intros Hf. destruct (cache_fresh_ok _ _ Hf) as [Hcl Hlen].
  destruct Hf as [_ Hfit Hleast _ Hz].
  assert (allocated_size c = CACHE_SIZE) as Ha.
  { specialize (Hleast CACHE_SIZE). apply Z.le_antisymm; [|done]. apply Hleast; [|done].
    rw /size_classes list_elem_of_In /=. tauto. }
  constructor; simpl; rw ?Hz ?Ha //.
Qed.

Lemma live_len n : node_ok n -> zlen (live n) = w_offset n - r_offset n.
Proof. intros []. unfold live. unfold CACHE_SIZE in *. zl. Qed.

Lemma node_size n : node_ok n -> NODE_SIZE n = w_offset n - r_offset n.
Proof. intros []. unfold NODE_SIZE. apply i32_small. unfold CACHE_SIZE in *. lia. Qed.

(** Storing [data] at the write offset. *)
Lemma node_fill n data :
  node_ok n -> w_offset n + zlen data <= CACHE_SIZE ->
  exists b,
    mem_write (w_offset n) data (buff (cache n)) = Ret b /\
    node_ok (set_w (w_offset n + zlen data) (set_buff b n)) /\
    live (set_w (w_offset n + zlen data) (set_buff b n)) = live n ++ data.
Proof.
  intros [Ho Hw Ha Hl Hz] Hd. eexists. rw mem_write_in; [lia|lia|]. split; [done|].
  set (w := Z.to_nat (w_offset n)). set (r := Z.to_nat (r_offset n)).
  set (blk := buff (cache n)) in *.
  assert (r <= w <= length blk)%nat as Hrw by (unfold zlen in *; lia).
  assert (length (take w blk) = w) as Hlt by (rw length_take; lia).
  split.
  - constructor; simpl; try done.
    + pose proof (zlen_nonneg data). lia.
    + unfold zlen in *. rw !length_app length_drop Hlt. lia.
    + replace (Z.to_nat (w_offset n + zlen data)) with (length (take w blk ++ data)).
      2: { rw length_app Hlt. unfold zlen in *. lia. }
      rw app_assoc drop_app_length -drop_drop Hz /zeros drop_replicate. f_equal.
      unfold zlen in *. lia.
  - rw /live /=. rw drop_app_le; [lia|].
    replace (Z.to_nat _) with (length (drop r (take w blk) ++ data)).
    2: { rw length_app length_drop Hlt. unfold zlen in *. lia. }
    rw app_assoc take_app_length. f_equal. rw skipn_firstn_comm. f_equal. lia.
Qed.

(** Taking [k] bytes at the read offset. *)
Lemma node_take n k :
  node_ok n -> 0 <= k <= w_offset n - r_offset n ->
  mem_read (r_offset n) k (buff (cache n)) = Ret (take (Z.to_nat k) (live n)) /\
  node_ok (set_r (r_offset n + k) n) /\
  live (set_r (r_offset n + k) n) = drop (Z.to_nat k) (live n).
Proof.
  intros [Ho Hw Ha Hl Hz] Hk. unfold CACHE_SIZE in *. split_and!.
  - unfold mem_read, live. rw take_take.
    destruct (Z.eqb_spec k 0) as [->|Hk0]; [done|].
    destruct (Z.leb_spec 0 (r_offset n)), (Z.ltb_spec 0 k),
      (Z.leb_spec (r_offset n + k) (zlen (buff (cache n)))); simpl; try lia.
    do 2 f_equal. lia.
  - constructor; simpl; unfold CACHE_SIZE; try done. lia.
  - rw /live /= skipn_firstn_comm drop_drop. f_equal; [lia|]. f_equal. lia.
Qed.

Lemma contents_app b1 b2 : contents (b1 ++ b2) = contents b1 ++ contents b2.
Proof. apply bind_app. Qed.
Lemma contents_cons n b : contents (n :: b) = live n ++ contents b.
Proof. done. Qed.
Lemma contents_one n : contents [n] = live n.
Proof. apply app_nil_r. Qed.

Lemma full_last n : full_node n -> last_node n.
Proof. intros (? & Hw & ?). split; [done|]. left. lia. Qed.
Lemma last_full n : last_node n -> w_offset n = CACHE_SIZE -> full_node n.
Proof. intros [? [?|?]] ?; split_and!; try done; unfold CACHE_SIZE in *; lia. Qed.

Lemma shape_all b : shape_ok b -> Forall node_ok b.
Proof.
  intros [|b' n Hf [Hn _]]; [done|]. apply Forall_app; split; [|by apply Forall_singleton].
  eapply Forall_impl; [done|]. by intros ? [? _].
Qed.

Lemma shape_tail n b : shape_ok (n :: b) -> shape_ok b.
Proof.
  intros Hs. inversion Hs as [|b' m Hf Hl Heq]; subst.
  destruct b' as [|n' b']; simplify_eq/=; [constructor|].
  apply Forall_cons in Hf as [_ ?]. by constructor.
Qed.

(** The first node may be replaced by a last-node shape when it is not
    exhausted. *)
Lemma shape_replace n n' b :
  shape_ok (n :: b) -> last_node n' -> (w_offset n = w_offset n') -> shape_ok (n' :: b).
Proof.
  intros Hs Hn Hw. inversion Hs as [|b' m Hf Hl Heq]; subst.
  destruct b' as [|n0 b']; simplify_eq/=.
  - by apply (shape_snoc []).
  - apply Forall_cons in Hf as [(_ & Hw0 & _) ?].
    apply (shape_snoc (n' :: b')); [|done]. constructor; [|done].
    apply last_full; [done|]. congruence.
Qed.

Lemma shape_removelast b n :
  shape_ok b -> last b = Some n ->
  b = removelast b ++ [n] /\ Forall full_node (removelast b) /\ last_node n.
Proof.
  intros [|b' m Hf Hl]; [done|]. rw last_snoc. intros [= ->].
  rw removelast_last. done.
Qed.

Lemma shape_full b : Forall full_node b -> shape_ok b.
Proof.
  intros Hf. destruct (last b) as [n|] eqn:Hn.
  - apply last_Some in Hn as [b' ->]. apply Forall_app in Hf as [? [Hn _]%Forall_cons].
    apply shape_snoc; [done|]. by apply full_last.
  - apply last_None in Hn as ->. constructor.
Qed.

Lemma owns_app b1 b2 : owns (b1 ++ b2) = owns b1 ∪ owns b2.
Proof. by rw /owns /ids fmap_app list_to_set_app_L. Qed.
Lemma owns_cons n b : owns (n :: b) = {[cid (cache n)]} ∪ owns b.
Proof. done. Qed.
Lemma owns_nil : owns [] = ∅.
Proof. done. Qed.
Lemma elem_of_owns a b : a ∈ owns b <-> a ∈ ids b.
Proof. apply elem_of_list_to_set. Qed.

(** ** Filling a buffer *)

Section fill.
Context {S : Type} `{!CacheModule S} `{!CacheModuleLaws S}.
Implicit Types (s : S) (L : gset Z).

Lemma new_inner_node_spec u L s :
  cm_inv u L s ->
  wp u new_inner_node s (fun on s' =>
    match on with
    | None => u = true /\ cm_inv u L s'
    | Some n => last_node n /\ live n = [] /\ w_offset n = 0 /\ (cid (cache n) ∉ L) /\
                cm_inv u ({[cid (cache n)]} ∪ L) s'
    end).
Proof.
  intros Hinv. unfold new_inner_node. wp_use cm_malloc_spec; [done|].
  intros [blk|] s1 (Hinv1 & Hu & _); wp_steps.
  - wp_use cm_get_spec; [done|done|]. intros ? s2 (c & -> & Hf & HL & Hinv2). wp_steps.
    split_and!; try done. split; [by apply node_fresh|]. by right.
  - destruct u; [done|]. by destruct Hu.
Qed.

Lemma recycle_nodes_spec u L s b :
  cm_inv u L s -> Forall node_ok b -> NoDup (ids b) -> owns b ⊆ L ->
  wp u (recycle_nodes b) s (fun _ s' => cm_inv u (L ∖ owns b) s').
Proof.
  revert L s. induction b as [|n b IH]; intros L s Hinv Hok Hnd HL; simpl.
  - apply wp_ret. replace (L ∖ owns []) with L; [done|]. unfold owns. set_solver.
  - apply Forall_cons in Hok as [Hn Hok]. apply NoDup_cons in Hnd as [Hni Hnd].
    rw owns_cons in HL. wp_use cm_recycle_spec; [done|set_solver| |].
    { destruct Hn. split; [|congruence]. rw no_alloc0 /size_classes list_elem_of_In /=. tauto. }
    intros r s1 [_ Hinv1]. eapply wp_mono.
    + apply (IH (L ∖ {[cid (cache n)]})); try done.
      intros a Ha. assert (a <> cid (cache n)); [|set_solver].
      intros Heq. apply Hni, elem_of_owns. congruence.
    + intros ? s2. replace (L ∖ owns (n :: b)) with (L ∖ {[cid (cache n)]} ∖ owns b); [done|].
      rw owns_cons. set_solver.
Qed.

(** The nodes of a state of the loop, in order. *)
Definition all_nodes (st : fill_state) : list InnerNode :=
  f_list st ++ f_tmp st ++ [f_node st].

Record fill_ok (L : gset Z) (st : fill_state) : Prop := {
  fo_tmp : f_intmp st = false -> f_tmp st = [];
  fo_full : Forall full_node (f_list st ++ f_tmp st);
  fo_node : last_node (f_node st);
  fo_ids : NoDup (ids (all_nodes st));
  fo_owns : owns (all_nodes st) ⊆ L;
}.

Lemma cur_all L st : fill_ok L st -> cur_list st ++ cur_tmp st = all_nodes st.
Proof.
  intros Hok. rw /cur_list /cur_tmp /all_nodes. destruct (f_intmp st) eqn:Hf.
  - done.
  - by rw (fo_tmp _ _ Hok Hf) app_nil_r.
Qed.

Lemma fill_ok_inv L st : fill_ok L st -> buffer_inv (all_nodes st).
Proof.
  intros []. split; [|done]. rw /all_nodes app_assoc. by constructor.
Qed.

Lemma fill_ok_owns L st : fill_ok L st -> L ∪ owns (all_nodes st) = L.
Proof. intros []. set_solver. Qed.

Lemma fill_ok_push L st n :
  fill_ok L st -> full_node (f_node st) -> last_node n -> (cid (cache n) ∉ L) ->
  fill_ok ({[cid (cache n)]} ∪ L) (mkFill (cur_list st) (cur_tmp st) n true) /\
  all_nodes (mkFill (cur_list st) (cur_tmp st) n true) = all_nodes st ++ [n].
Proof.
  intros Hok Hfull Hn HL.
  assert (all_nodes (mkFill (cur_list st) (cur_tmp st) n true) = all_nodes st ++ [n]) as Hall.
  { rw {1}/all_nodes /= app_assoc (cur_all _ _ Hok) //. }
  split; [|done]. constructor; simpl; try done.
  - rw (cur_all _ _ Hok) /all_nodes app_assoc. apply Forall_app; split.
    + apply (fo_full _ _ Hok).
    + by apply Forall_singleton.
  - rw Hall /ids fmap_app. apply NoDup_app. split_and!.
    + apply (fo_ids _ _ Hok).
    + intros a Ha%elem_of_owns. apply (fo_owns _ _ Hok) in Ha. simpl.
      intros Heq%list_elem_of_singleton. congruence.
    + apply NoDup_singleton.
  - rw Hall owns_app. pose proof (fo_owns _ _ Hok).
    assert (owns [n] = {[cid (cache n)]}) as -> by (unfold owns; simpl; set_solver). set_solver.
Qed.

Lemma fill_ok_node L st n :
  fill_ok L st -> last_node n -> cid (cache n) = cid (cache (f_node st)) ->
  fill_ok L (mkFill (f_list st) (f_tmp st) n (f_intmp st)).
Proof.
  intros [] Hn Hid.
  assert (ids (all_nodes (mkFill (f_list st) (f_tmp st) n (f_intmp st))) = ids (all_nodes st)) as Hids.
  { by rw /ids /all_nodes !fmap_app /= Hid. }
  constructor; simpl; try done; [by rw Hids|]. by rw /owns Hids.
Qed.

Lemma first_node_spec u L s b :
  cm_inv u L s -> buffer_inv b -> owns b ⊆ L ->
  wp u (first_node b) s (fun o s' =>
    match o with
    | None => u = true /\ cm_inv u L s'
    | Some (st, _) =>
      let L' := L ∪ owns (all_nodes st) in
      cm_inv u L' s' /\ fill_ok L' st /\ w_offset (f_node st) < CACHE_SIZE /\
      contents (all_nodes st) = contents b /\ cur_list st = b /\
      owns (all_nodes st) ∩ L ⊆ owns b
    end).
Proof.
  intros Hinv [Hsh Hids] HL. unfold first_node.
  set (fresh := on ← new_inner_node; _).
  assert (Forall full_node b -> wp u fresh s (fun o s' =>
    match o with
    | None => u = true /\ cm_inv u L s'
    | Some (st, _) =>
      let L' := L ∪ owns (all_nodes st) in
      cm_inv u L' s' /\ fill_ok L' st /\ w_offset (f_node st) < CACHE_SIZE /\
      contents (all_nodes st) = contents b /\ cur_list st = b /\
      owns (all_nodes st) ∩ L ⊆ owns b
    end)) as Hfresh.
  { intros Hfull. subst fresh. wp_use new_inner_node_spec; [done|].
    intros [n|] s1 Hn; [|by apply wp_ret].
    destruct Hn as (Hn & Hlive & Hw & Hid & Hinv1). apply wp_ret.
    set (st := mkFill b [] n true).
    assert (all_nodes st = b ++ [n]) as Hall by done.
    assert (L ∪ owns (all_nodes st) = {[cid (cache n)]} ∪ L) as Heq.
    { rw Hall owns_app owns_cons. clear -HL. unfold owns at 2. simpl. set_solver. }
    cbv zeta. rw Heq Hw Hall contents_app contents_one Hlive app_nil_r.
    assert (owns (b ++ [n]) ∩ L ⊆ owns b) as Hfr.
    { rw owns_app owns_cons owns_nil right_id_L. clear -Hid. intros a [Ha HaL]%elem_of_intersection.
      assert (a <> cid (cache n)) by (by intros ->). set_solver. }
    split_and!; try done.
    constructor; try done; simpl.
    - by rw app_nil_r.
    - rw Hall /ids fmap_app. apply NoDup_app. split_and!; [done| |apply NoDup_singleton].
      intros a Ha%elem_of_owns%HL. simpl. intros Ha2%list_elem_of_singleton. congruence.
    - rw -Heq. set_solver. }
  destruct (last b) as [n|] eqn:Hlast.
  2: { apply last_None in Hlast. apply Hfresh. by rw Hlast. }
  destruct (shape_removelast _ _ Hsh Hlast) as (Hb & Hfull & Hn).
  destruct (Z.eqb_spec (w_offset n) CACHE_SIZE) as [Hw|Hw].
  - apply Hfresh. rw Hb. apply Forall_app; split; [done|]. apply Forall_cons; split; [|done].
    by apply last_full.
  - apply wp_ret. set (st := mkFill (removelast b) [] n false).
    assert (all_nodes st = b) as Hall by by rw /all_nodes /= -Hb.
    cbv zeta. rw Hall. replace (L ∪ owns b) with L by (clear -HL; set_solver).
    destruct Hn as [Hn Hrw]. pose proof (no_w _ Hn).
    split_and!; [done| |simpl; lia|done|by rw /cur_list /= -Hb|apply intersection_subseteq_l].
    constructor; try done; simpl; [by rw app_nil_r| |]; by rw Hall.
Qed.

(** What is assumed of a transfer that does not fail: [view] is what the source
    still holds, [enough rem src] that [rem] more bytes may be asked of it,
    and [exact] that every request is served in full. *)
Section transfer.
Context {Src : Type} (transfer : Z -> Src -> outcome (Z * bytes * Src)).
Context (view : Src -> bytes) (enough : Z -> Src -> Prop) (exact : bool).
Hypothesis transfer_spec : forall n rem src,
  0 < n <= CACHE_SIZE -> n <= rem -> enough rem src ->
  exists data src', transfer n src = Ret (zlen data, data, src') /\ zlen data <= n /\
    view src = data ++ view src' /\ enough (rem - zlen data) src' /\
    (exact = true -> zlen data = n).

Definition fill_post (u : bool) (L : gset Z) (st : fill_state) (size already : Z) (src : Src)
    (r : fill_exit * Src * fill_state) (s' : S) : Prop :=
  let '(ex, src', st') := r in
  exists data,
    ex = FillDone (already + zlen data) /\ already + zlen data <= size /\
    cm_inv u (L ∪ owns (all_nodes st')) s' /\
    fill_ok (L ∪ owns (all_nodes st')) st' /\
    contents (all_nodes st') = contents (all_nodes st) ++ data /\
    view src = data ++ view src' /\
    (u = false -> exact = true -> already + zlen data = size) /\
    (data = [] -> cur_list st' = cur_list st) /\
    owns (all_nodes st) ⊆ owns (all_nodes st') /\
    owns (all_nodes st') ∩ L ⊆ owns (all_nodes st) /\
    enough (size - (already + zlen data)) src'.

(** One node filled and a new one [nn] put behind it. *)
Lemma fill_post_push u L st st' stn size already src src' data nn r s2 :
  contents (all_nodes st') = contents (all_nodes st) ++ data -> owns (all_nodes st') = owns (all_nodes st) ->
  all_nodes stn = all_nodes st' ++ [nn] -> live nn = [] -> (cid (cache nn) ∉ L) ->
  view src = data ++ view src' -> data <> [] ->
  fill_post u ({[cid (cache nn)]} ∪ L) stn size (already + zlen data) src' r s2 ->
  fill_post u L st size already src r s2.
Proof.
  intros Hcont Hown Hall Hlive HL Hv Hne. destruct r as [[ex src2] st2].
  intros (data2 & -> & Hle & Hinv2 & Hok3 & Hc & Hv2 & Hu & _ & Ho2 & Hfr & He2).
  assert ({[cid (cache nn)]} ∪ L ∪ owns (all_nodes st2) = L ∪ owns (all_nodes st2)) as HL2.
  { rw Hall owns_app owns_cons in Ho2. clear -Ho2. set_solver. }
  exists (data ++ data2). rw -!HL2 !zlen_app !Z.add_assoc. split_and!; try done.
  - rw Hc Hall contents_app contents_one Hlive Hcont app_nil_r -app_assoc //.
  - rw Hv Hv2 app_assoc //.
  - by intros [Hd _]%app_nil.
  - rw Hall owns_app Hown in Ho2. clear -Ho2. set_solver.
  - rw Hall owns_app owns_cons Hown owns_nil right_id_L in Hfr. clear -Hfr HL.
    intros a [Ha HaL]%elem_of_intersection. assert (a <> cid (cache nn)) by (by intros ->).
    specialize (Hfr a). set_solver.
Qed.

Lemma fill_loop_spec u L s fuel size already src st :
  cm_inv u L s -> fill_ok L st -> w_offset (f_node st) < CACHE_SIZE ->
  0 <= already < size -> size < 2 ^ 31 -> (Z.to_nat (size - already) < fuel)%nat ->
  enough (size - already) src ->
  wp u (fill_loop transfer fuel size already src st) s (fill_post u L st size already src).
Proof.
  revert L s already src st.
  induction fuel as [|fuel IH]; intros L s already src st Hinv Hok Hw Ha Hsz Hf Hen; [lia|].
  cbn [fill_loop]. rw (proj2 (Z.ltb_lt already size)); [lia|].
  destruct (fo_node _ _ Hok) as [Hn _]. pose proof (no_offsets _ Hn) as Hro.
  unfold CACHE_SIZE in *. rw min_u64_small; [lia|lia|].
  set (n := Z.min _ _). wp_steps.
  destruct (transfer_spec n (size - already) src) as (data & src' & -> & Hdn & Hv & Hen' & Hex);
    [unfold CACHE_SIZE; lia|lia|done|].
  rw -Z.sub_add_distr in Hen'.
  wp_steps. pose proof (zlen_nonneg data) as Hd0.
  rw (proj2 (Z.ltb_ge (zlen data) 0)); [lia|].
  destruct (node_fill (f_node st) data Hn) as (b & Hwr & Hn' & Hlive); [unfold CACHE_SIZE; lia|].
  wp_steps. rw Hwr. wp_steps. rw (u64_small (zlen data)); [lia|]. rw u64_small; [lia|].
  rw (i32_small (w_offset _ + _)); [lia|]. rw (i32_small (already + _)); [lia|].
  set (node' := set_w _ _) in *. set (st' := mkFill _ _ node' _).
  assert (contents (all_nodes st') = contents (all_nodes st) ++ data) as Hcont.
  { rw /all_nodes !contents_app !contents_one Hlive !app_assoc //. }
  assert (last_node node') as Hlast.
  { split; [done|]. simpl. destruct (fo_node _ _ Hok) as [_ [?|?]]; lia. }
  assert (fill_ok L st') as Hok' by by apply fill_ok_node.
  assert (data = [] -> cur_list st' = cur_list st) as Hnil.
  { intros ->. subst st' node'. injection Hwr as <-. rw /cur_list /= Z.add_0_r.
    by destruct st as [? ? [? ? []] []]. }
  assert (L ∪ owns (all_nodes st') = L) as HLeq.
  { by apply fill_ok_owns. }
  assert (owns (all_nodes st') = owns (all_nodes st)) as Hown.
  { by rw /owns /ids /all_nodes !fmap_app. }
  assert ((u = false -> exact = true -> already + zlen data = size) ->
    fill_post u L st size already src (FillDone (already + zlen data), src', st') s) as Hdone.
  { intros Hfull. exists data. rw !HLeq Hown. split_and!; try done; [lia|]. apply intersection_subseteq_l. }
  destruct (Z.eqb_spec (already + zlen data) size) as [Hall|Hall]; simpl.
  { apply wp_ret. by apply Hdone. }
  destruct (Z.ltb_spec (zlen data) n) as [Hshort|Hshort].
  { apply wp_ret, Hdone. intros _ He. specialize (Hex He). lia. }
  wp_use new_inner_node_spec; [done|]. intros [nn|] s1 Hnn.
  2: { destruct Hnn as [-> Hinv1]. apply wp_ret. exists data. rw !HLeq Hown.
       split_and!; try done; [lia|]. apply intersection_subseteq_l. }
  destruct Hnn as (Hnn & Hlnn & Hwnn & HLnn & Hinv1).
  destruct (fill_ok_push _ _ nn Hok') as [Hok2 Hall2]; [|done|done|].
  { apply last_full; [done|]. unfold CACHE_SIZE. simpl. lia. }
  eapply wp_mono.
  - apply IH; simpl; try done; [rw Hwnn; unfold CACHE_SIZE|..]; lia.
  - intros r s2. apply (fill_post_push u L st st' _ size already src src' data nn); try done.
    intros ->. rw zlen_nil in Hshort. lia.
Qed.

Definition fill_result (u : bool) (L : gset Z) (b : InnerBuffer) (size : Z) (src : Src)
    (r : Z * Src * InnerBuffer) (s' : S) : Prop :=
  let '(ret, src', b') := r in
  (u = true /\ ret = SIZE_MAX /\ src' = src /\ b' = b /\ cm_inv u L s') \/
  exists data L',
    ret = zlen data /\ ret <= size /\ view src = data ++ view src' /\
    contents b' = contents b ++ data /\ buffer_inv b' /\
    cm_inv u L' s' /\ L ⊆ L' /\ owns b' ⊆ L' /\
    (data <> [] -> L' = L ∪ owns b') /\ (data = [] -> b' = b) /\ owns b' ∩ L ⊆ owns b /\
    (u = false -> exact = true -> ret = size) /\ enough (size - ret) src'.

Lemma fill_buffer_spec u L s b size src :
  cm_inv u L s -> buffer_inv b -> owns b ⊆ L -> 0 < size < 2 ^ 31 -> enough size src ->
  wp u (fill_buffer transfer src b size) s (fill_result u L b size src).
Proof.
  intros Hinv Hb HL Hsize Hen. unfold fill_buffer.
  wp_use first_node_spec; [done..|]. intros [[st lw]|] s1 Hst; cbv zeta in Hst.
  2: { destruct Hst as [-> ?]. apply wp_ret. by left. }
  destruct Hst as (Hinv1 & Hok & Hw & Hcont & Hcur & Hfr1).
  wp_use fill_loop_spec; [done|done|done|lia|lia|lia|by rw Z.sub_0_r|].
  intros [[ex src'] st'] s2 (data & -> & Hle & Hinv2 & Hok2 & Hc & Hv & Hex & Hnil & Ho & Hfr2 & He).
  assert (owns (all_nodes st') ∩ L ⊆ owns b) as Hfr by (clear -Hfr1 Hfr2; set_solver).
  rw !Z.add_0_l in Hle, Hex, He |- *. pose proof (zlen_nonneg data). apply wp_ret. right.
  assert (L ∪ owns (all_nodes st) ∪ owns (all_nodes st') = L ∪ owns (all_nodes st')) as HLs
    by (clear -Ho; set_solver).
  rw HLs in Hinv2, Hok2.
  exists data, (L ∪ owns (all_nodes st')). rw u64_small; [lia|].
  assert (L ⊆ L ∪ owns (all_nodes st')) by apply union_subseteq_l.
  destruct (Z.ltb_spec 0 (zlen data)) as [Hpos|Hz].
  - rw (cur_all _ _ Hok2) Hc Hcont. split_and!; try done.
    + by eapply fill_ok_inv.
    + apply union_subseteq_r.
    + intros ->. done.
  - assert (data = []) as Hd by (apply nil_length_inv; unfold zlen in *; lia).
    rw Hnil // Hcur. split_and!; try done; [by rw Hd app_nil_r|by etrans|apply intersection_subseteq_l].
Qed.
End transfer.
End fill.

(** The transfers of the code satisfy the assumption. *)
Definition memcpy_enough (rem : Z) (src : bytes) : Prop := rem <= zlen src.

Lemma memcpy_transfer_spec n rem src :
  0 < n <= CACHE_SIZE -> n <= rem -> memcpy_enough rem src ->
  exists data src', memcpy_transfer n src = Ret (zlen data, data, src') /\ zlen data <= n /\
    src = data ++ src' /\ memcpy_enough (rem - zlen data) src' /\
    (true = true -> zlen data = n).
Proof.
  unfold memcpy_enough, CACHE_SIZE. intros Hn Hr He.
  assert (zlen (take (Z.to_nat n) src) = n) as Hlen by zl.
  exists (take (Z.to_nat n) src), (drop (Z.to_nat n) src).
  rw Hlen take_drop. split_and!; try done; [|zl].
  rw /memcpy_transfer /mem_read i32_small; [lia|].
  destruct (Z.eqb_spec n 0), (Z.ltb_spec 0 n), (Z.leb_spec (0 + n) (zlen src)); try lia. done.
Qed.

(** What reading from a descriptor leaves alone. *)
Definition fd_frame (out : bytes) (wplan : list (option Z)) (rem : Z) (fd : fdesc) : Prop :=
  reads_succeed fd /\ fd_out fd = out /\ fd_wplan fd = wplan.

Lemma read_transfer_spec out wplan n rem fd :
  0 < n <= CACHE_SIZE -> n <= rem -> fd_frame out wplan rem fd ->
  exists data fd', read_transfer n fd = Ret (zlen data, data, fd') /\ zlen data <= n /\
    fd_in fd = data ++ fd_in fd' /\ fd_frame out wplan (rem - zlen data) fd' /\
    (false = true -> zlen data = n).
Proof.
  intros Hn _ (Hr & Hout & Hw). unfold read_transfer, sys_read, reads_succeed in *.
  destruct fd as [i rp o wp]; simpl in *. subst.
  assert (forall k, 0 <= k <= n -> k <= zlen i -> Z.of_nat (Z.to_nat k) = zlen (take (Z.to_nat k) i)
    /\ zlen (take (Z.to_nat k) i) <= n) as Hk by (intros; zl).
  assert (0 <= zlen i) by apply zlen_nonneg.
  destruct rp as [|[k|] rp].
  - edestruct (Hk (Z.max 0 (Z.min n (zlen i)))) as [-> ?]; [lia|lia|].
    eexists _, (mkFd _ _ _ _). split; [done|]. by rw /= take_drop.
  - apply Forall_cons in Hr as [_ ?].
    edestruct (Hk (Z.max 0 (Z.min k (Z.min n (zlen i))))) as [-> ?]; [lia|lia|].
    eexists _, (mkFd _ _ _ _). split; [done|]. by rw /= take_drop.
  - apply Forall_cons in Hr as [[? ?] _]. done.
Qed.

(** Reads served in full. *)
Definition fd_full (out : bytes) (wplan : list (option Z)) (rem : Z) (fd : fdesc) : Prop :=
  fd_rplan fd = [] /\ rem <= zlen (fd_in fd) /\ fd_out fd = out /\ fd_wplan fd = wplan.

Lemma read_transfer_full out wplan n rem fd :
  0 < n <= CACHE_SIZE -> n <= rem -> fd_full out wplan rem fd ->
  exists data fd', read_transfer n fd = Ret (zlen data, data, fd') /\ zlen data <= n /\
    fd_in fd = data ++ fd_in fd' /\ fd_full out wplan (rem - zlen data) fd' /\
    (true = true -> zlen data = n).
Proof.
  intros Hn Hrem (Hr & Hlen & Hout & Hw). unfold read_transfer, sys_read.
  destruct fd as [i rp o wp]; simpl in *. subst.
  assert (zlen (take (Z.to_nat n) i) = n) as Hd by zl.
  exists (take (Z.to_nat n) i), (mkFd (drop (Z.to_nat n) i) [] out wplan).
  rw Hd. replace (Z.max 0 (Z.min n (zlen i))) with n by lia.
  rw /fd_full /= take_drop Z2Nat.id; [lia|]. split_and!; try done. zl.
Qed.

Lemma zlen_contents_cons n b : node_ok n -> zlen (contents (n :: b)) =
  w_offset n - r_offset n + zlen (contents b).
Proof. intros. by rw contents_cons zlen_app live_len. Qed.

(** ** Draining a buffer *)

Section drain.
Context {S : Type} `{!CacheModule S} `{!CacheModuleLaws S}.
Implicit Types (s : S) (L : gset Z).

Lemma recycle_node u L s n :
  cm_inv u L s -> node_ok n -> cid (cache n) ∈ L ->
  wp u (cm_recycle (cache n)) s (fun _ s' => cm_inv u (L ∖ {[cid (cache n)]}) s').
Proof.
  intros Hinv Hn HL. wp_use cm_recycle_spec; [done|done| |by intros ? ? [_ ?]].
  destruct Hn. split; [|congruence]. rw no_alloc0 /size_classes list_elem_of_In /=. tauto.
Qed.

(** The step both loops share: [k] bytes leave the first node, which is
    recycled when it is exhausted. *)
Definition after_take (k : Z) (n : InnerNode) (rest : InnerBuffer) : InnerBuffer :=
  if r_offset n + k =? w_offset n then rest else set_r (r_offset n + k) n :: rest.

Lemma after_take_inv k n rest :
  buffer_inv (n :: rest) -> 0 <= k <= w_offset n - r_offset n ->
  buffer_inv (after_take k n rest) /\
  contents (after_take k n rest) = drop (Z.to_nat k) (contents (n :: rest)) /\
  (length (after_take k n rest) <= length (n :: rest))%nat.
Proof.
  intros [Hsh Hids] Hk. pose proof (shape_all _ Hsh) as [Hn Hr]%Forall_cons.
  destruct (node_take n k Hn Hk) as (_ & Hn' & Hl'). unfold after_take.
  rw contents_cons. pose proof (live_len _ Hn) as Hlen.
  destruct (Z.eqb_spec (r_offset n + k) (w_offset n)) as [Heq|Hne]; split_and!.
  - split; [by eapply shape_tail|]. by apply NoDup_cons in Hids as [_ ?].
  - rw drop_app_ge; [zl|]. replace (_ - _)%nat with 0%nat by zl. done.
  - simpl; lia.
  - split; [|done]. eapply shape_replace; [done| |done]. split; [done|]. simpl. lia.
  - rw contents_cons Hl' drop_app_le; [zl|]. done.
  - simpl; lia.
Qed.

(** What the caller still owns once [b] has become [b']. *)
Definition left_over (L : gset Z) (b b' : InnerBuffer) : gset Z := L ∖ owns b ∪ owns b'.

Lemma left_over_trans L b1 b2 b3 :
  owns b2 ⊆ owns b1 -> owns b3 ⊆ owns b2 ->
  left_over (left_over L b1 b2) b2 b3 = left_over L b1 b3.
Proof. intros H21 H32. unfold left_over. apply set_eq. intros a. specialize (H21 a). set_solver. Qed.

Lemma owns_after_take k n rest : owns (after_take k n rest) ⊆ owns (n :: rest).
Proof. unfold after_take. destruct (_ =? _); rw !owns_cons /=; set_solver. Qed.

Lemma take_branch u L s k n rest {A} (f : InnerBuffer -> M S A) (Q : A -> S -> Prop) :
  cm_inv u L s -> buffer_inv (n :: rest) -> owns (n :: rest) ⊆ L ->
  (forall s', cm_inv u (left_over L (n :: rest) (after_take k n rest)) s' ->
              wp u (f (after_take k n rest)) s' Q) ->
  wp u (if r_offset n + k =? w_offset n
        then _ ← cm_recycle (cache n); f rest
        else f (set_r (r_offset n + k) n :: rest)) s Q.
Proof.
  intros Hinv [Hsh Hids] HL HQ. pose proof (shape_all _ Hsh) as [Hn Hr]%Forall_cons.
  apply NoDup_cons in Hids as [Hni _]. rw -elem_of_owns in Hni.
  unfold after_take in HQ. destruct (r_offset n + k =? w_offset n).
  - rw owns_cons in HL. wp_use recycle_node; [done|done|clear -HL; set_solver|].
    intros ? s' Hinv'. apply HQ.
    replace (left_over _ _ _) with (L ∖ {[cid (cache n)]}); [done|].
    rw /left_over owns_cons. clear -HL Hni. apply set_eq. intros a.
    destruct (decide (a = cid (cache n))) as [->|]; [set_solver|].
    destruct (decide (a ∈ owns rest)); set_solver.
  - apply HQ. replace (left_over _ _ _) with L; [done|].
    rw /left_over !owns_cons /=. rw owns_cons in HL. clear -HL. apply set_eq. intros a.
    destruct (decide (a ∈ {[cid (cache n)]} ∪ owns rest)); set_solver.
Qed.

Lemma sys_write_spec data fd :
  writes_succeed fd -> exists k fd',
    sys_write data fd = (k, fd') /\ 0 <= k <= zlen data /\
    fd_out fd' = fd_out fd ++ take (Z.to_nat k) data /\
    fd_in fd' = fd_in fd /\ fd_rplan fd' = fd_rplan fd /\ writes_succeed fd' /\
    (k = zlen data /\ fd_wplan fd' = [] \/ (length (fd_wplan fd') < length (fd_wplan fd))%nat).
Proof.
  unfold writes_succeed, sys_write. destruct fd as [i rp o wp]; simpl. intros Hw.
  pose proof (zlen_nonneg data). destruct wp as [|[k|] wp].
  - eexists _, _. split; [done|]. rw /= Z2Nat.id; [lia|]. split_and!; try done; try lia; by left.
  - apply Forall_cons in Hw as [_ ?]. eexists _, _. split; [done|]. rw /= Z2Nat.id; [lia|].
    split_and!; try done; simpl; lia.
  - apply Forall_cons in Hw as [[? ?] _]. done.
Qed.

Definition drain_post (u : bool) (L : gset Z) (fd : fdesc) (b : InnerBuffer)
    (size already : Z) (r : Z * fdesc * InnerBuffer) (s' : S) : Prop :=
  let '(ret, fd', b') := r in
  let k := Z.to_nat (size - already) in
  ret = already + zlen (take k (contents b)) /\
  fd_out fd' = fd_out fd ++ take k (contents b) /\
  fd_in fd' = fd_in fd /\ fd_rplan fd' = fd_rplan fd /\ writes_succeed fd' /\
  contents b' = drop k (contents b) /\ buffer_inv b' /\ owns b' ⊆ owns b /\
  cm_inv u (left_over L b b') s'.

Lemma left_over_refl L b : owns b ⊆ L -> left_over L b b = L.
Proof.
  intros HL. rw /left_over. apply set_eq. intros a. destruct (decide (a ∈ owns b)); set_solver.
Qed.

Lemma left_over_owns L b b' : owns b' ⊆ left_over L b b'.
Proof. apply union_subseteq_r. Qed.

Lemma drain_loop_spec u L s fuel fd b size already :
  cm_inv u L s -> buffer_inv b -> owns b ⊆ L -> writes_succeed fd ->
  0 <= already <= size -> size < 2 ^ 63 ->
  (length (fd_wplan fd) + length b + (if (already <? size)%Z then 1 else 0) < fuel)%nat ->
  wp u (drain_loop fuel fd b size already) s (drain_post u L fd b size already).
Proof.
  revert L s fd b already.
  induction fuel as [|fuel IH]; intros L s fd b already Hinv Hb HL Hwr Ha Hsz Hf; [lia|].
  cbn [drain_loop]. destruct (Z.ltb_spec already size) as [Hlt|Hge].
  2: { apply wp_ret. assert (already = size) as -> by lia.
       rw /drain_post Z.sub_diag take_0 drop_0 zlen_nil Z.add_0_r app_nil_r left_over_refl //. }
  destruct b as [|n rest].
  { apply wp_ret. rw /drain_post take_nil drop_nil zlen_nil app_nil_r Z.add_0_r left_over_refl //. }
  pose proof (shape_all _ (bi_shape _ Hb)) as [Hn _]%Forall_cons.
  pose proof (no_offsets _ Hn). pose proof (no_w _ Hn). pose proof (live_len _ Hn) as Hlive.
  unfold CACHE_SIZE in *. rw node_size // min_u64_small; [lia|lia|].
  set (ws := Z.min _ _). destruct (node_take n ws Hn) as (-> & _ & _); [lia|]. wp_steps.
  destruct (sys_write_spec (take (Z.to_nat ws) (live n)) fd Hwr)
    as (k & fd' & -> & Hk & Hout & Hin & Hrp & Hwr' & Hplan).
  assert (zlen (take (Z.to_nat ws) (live n)) = ws) as Hwl by zl. rw Hwl in Hk, Hplan.
  assert (take (Z.to_nat k) (take (Z.to_nat ws) (live n)) = take (Z.to_nat k) (contents (n :: rest)))
    as Hdata. { rw take_take contents_cons take_app_le; [zl|]. f_equal. lia. }
  rw (u64_small k); [lia|]. rw (proj2 (Z.ltb_ge k 0)); [lia|]. rw !u64_small; [lia|lia|].
  cbn [set_r r_offset w_offset cache]. rw i32_small; [lia|].
  destruct (after_take_inv k n rest Hb) as (Hb' & Hc' & Hl'); [lia|].
  apply (take_branch _ L _ k n rest (fun b => drain_loop fuel fd' b size (already + k))); try done.
  intros s1 Hinv1. eapply wp_mono.
  - apply (IH (left_over L (n :: rest) (after_take k n rest))); try done.
    + apply left_over_owns.
    + lia.
    + destruct Hplan as [[Hkw Hp]|Hp]; [|destruct (already + k <? size); simpl in *; lia].
      rw Hp. unfold after_take in *. destruct (Z.eqb_spec (r_offset n + k) (w_offset n)).
      * destruct (already + k <? size); simpl in *; lia.
      * rw (proj2 (Z.ltb_ge (already + k) size)); [lia|]. simpl in *; lia.
  - intros [[ret fd2] b2] s2 (-> & Hout2 & Hin2 & Hrp2 & Hwr2 & Hc2 & Hb2 & Ho2 & Hinv2).
    rw left_over_trans in Hinv2; [apply owns_after_take|done|]. unfold drain_post. rw Hc2 Hout2 Hin2 Hrp2 Hout Hin Hrp Hdata Hc'.
    pose proof (zlen_nonneg (contents (n :: rest))) as Hcl.
    assert (k <= zlen (contents (n :: rest))) as Hkc.
    { rw zlen_contents_cons //. pose proof (zlen_nonneg (contents rest)). lia. }
    split_and!; try done.
    + zl.
    + rw -app_assoc take_take_drop. do 2 f_equal. lia.
    + rw drop_drop. f_equal. lia.
    + etrans; [done|]. apply owns_after_take.
Qed.

Lemma write_from_buffer_spec u L s fd b size :
  cm_inv u L s -> buffer_inv b -> owns b ⊆ L -> writes_succeed fd -> 0 <= size < 2 ^ 63 ->
  wp u (write_from_buffer fd b size) s (drain_post u L fd b size 0).
Proof.
  intros Hinv Hb HL Hwr Hsz. unfold write_from_buffer. destruct b as [|n rest].
  - apply wp_ret. rw /drain_post take_nil drop_nil zlen_nil app_nil_r left_over_refl //.
  - apply drain_loop_spec; try done; try lia. destruct (0 <? size); simpl; lia.
Qed.

Lemma expected_read_size_spec b size acc :
  Forall node_ok b -> 0 <= acc <= size -> acc + zlen (contents b) < 2 ^ 64 ->
  expected_read_size b size acc = Z.min size (acc + zlen (contents b)).
Proof.
  intros Hb. revert acc. induction Hb as [|n b Hn Hb IH]; intros acc Ha Hlen; simpl.
  - rw zlen_nil. lia.
  - rw (zlen_contents_cons n b Hn) in Hlen |- *. rw node_size //.
    pose proof (no_offsets _ Hn). pose proof (zlen_nonneg (contents b)).
    rw u64_small; [lia|]. destruct (Z.leb_spec size (acc + (w_offset n - r_offset n))); [lia|].
    rw IH; [lia|lia|]. lia.
Qed.

Definition copy_post (u : bool) (L : gset Z) (b : InnerBuffer) (expected already : Z)
    (target : bytes) (r : Z * bytes * InnerBuffer) (s' : S) : Prop :=
  let '(ret, target', b') := r in
  let k := Z.to_nat (expected - already) in
  ret = expected /\
  target' = take (Z.to_nat already) target ++ take k (contents b) /\
  contents b' = drop k (contents b) /\ buffer_inv b' /\ owns b' ⊆ owns b /\
  cm_inv u (left_over L b b') s'.

Lemma copy_loop_spec u L s fuel b expected already target :
  cm_inv u L s -> buffer_inv b -> owns b ⊆ L ->
  0 <= already <= expected -> expected < 2 ^ 63 ->
  expected - already <= zlen (contents b) -> zlen target = expected ->
  (length b + (if (already <? expected)%Z then 1 else 0) < fuel)%nat ->
  wp u (copy_loop fuel b expected already target) s (copy_post u L b expected already target).
Proof.
  revert L s b already target.
  induction fuel as [|fuel IH]; intros L s b already target Hinv Hb HL Ha Hsz Hc Ht Hf; [lia|].
  cbn [copy_loop]. destruct (Z.ltb_spec already expected) as [Hlt|Hge].
  2: { apply wp_ret. assert (already = expected) as -> by lia.
       rw /copy_post Z.sub_diag take_0 drop_0 app_nil_r left_over_refl // take_ge //. zl. }
  destruct b as [|n rest]; [rw zlen_nil in Hc; lia|].
  pose proof (shape_all _ (bi_shape _ Hb)) as [Hn _]%Forall_cons.
  pose proof (no_offsets _ Hn). pose proof (no_w _ Hn). pose proof (live_len _ Hn) as Hlive.
  unfold CACHE_SIZE in *. rw node_size // min_u64_small; [lia|lia|].
  set (k := Z.min _ _). rw !(i32_small k); [lia|]. rw !i32_small; [lia|].
  destruct (node_take n k Hn) as (-> & _ & _); [lia|]. wp_steps.
  assert (zlen (take (Z.to_nat k) (live n)) = k) as Hkl by zl.
  rw mem_write_in; [lia|lia|]. wp_steps.
  set (target' := _ ++ _ ++ _). cbn [set_r r_offset w_offset cache]. rw u64_small; [lia|].
  destruct (after_take_inv k n rest Hb) as (Hb' & Hc' & Hl'); [lia|].
  apply (take_branch _ L _ k n rest
    (fun b => copy_loop fuel b expected (already + k) target')); try done.
  intros s1 Hinv1. rw zlen_contents_cons // in Hc. eapply wp_mono.
  - apply (IH (left_over L (n :: rest) (after_take k n rest))); try done; try lia.
    + apply left_over_owns.
    + rw Hc' zlen_drop; [lia|]. rw zlen_contents_cons //. lia.
    + subst target'. zl.
    + unfold after_take in *. destruct (Z.eqb_spec (r_offset n + k) (w_offset n)).
      * destruct (already + k <? expected); simpl in *; lia.
      * rw (proj2 (Z.ltb_ge (already + k) expected)); [lia|]. simpl in *; lia.
  - intros [[ret target2] b2] s2 (-> & Ht2 & Hc2 & Hb2 & Ho2 & Hinv2).
    rw left_over_trans in Hinv2; [apply owns_after_take|done|].
    unfold copy_post. rw Hc2 Ht2 Hc'. split_and!; try done.
    + subst target'. rw app_assoc take_app_le; [zl|]. rw take_ge; [zl|].
      rw -app_assoc. f_equal.
      replace (take (Z.to_nat k) (live n)) with (take (Z.to_nat k) (contents (n :: rest)))
        by (rw contents_cons take_app_le; [zl|done]).
      rw take_take_drop. f_equal. lia.
    + rw drop_drop. f_equal. lia.
    + etrans; [done|]. apply owns_after_take.
Qed.

Lemma read_from_buffer_spec u L s b size :
  cm_inv u L s -> buffer_inv b -> owns b ⊆ L -> 0 <= size < 2 ^ 63 ->
  zlen (contents b) < 2 ^ 63 ->
  wp u (read_from_buffer b size) s (fun '(ret, target, b') s' =>
    ret = Z.min size (zlen (contents b)) /\
    target = take (Z.to_nat size) (contents b) /\
    contents b' = drop (Z.to_nat size) (contents b) /\
    buffer_inv b' /\ owns b' ⊆ owns b /\ cm_inv u (left_over L b b') s').
Proof.
  intros Hinv Hb HL Hsz Hlen. unfold read_from_buffer.
  pose proof (shape_all _ (bi_shape _ Hb)) as Hall. pose proof (zlen_nonneg (contents b)).
  rw expected_read_size_spec //; [lia|lia|]. rw Z.add_0_l. set (e := Z.min _ _).
  assert (take (Z.to_nat e) (contents b) = take (Z.to_nat size) (contents b)) as Htk.
  { subst e. destruct (Z.min_spec size (zlen (contents b))) as [[? ->]|[? ->]]; [done|].
    rw !take_ge //; zl. }
  assert (drop (Z.to_nat e) (contents b) = drop (Z.to_nat size) (contents b)) as Hdr.
  { subst e. destruct (Z.min_spec size (zlen (contents b))) as [[? ->]|[? ->]]; [done|].
    rw !drop_ge //; zl. }
  assert (forall s1 t, cm_inv u L s1 -> zlen t = e ->
    wp u (copy_loop (2 + length b) b e 0 t) s1 (fun '(ret, target, b') s' =>
      ret = e /\ target = take (Z.to_nat size) (contents b) /\
      contents b' = drop (Z.to_nat size) (contents b) /\
      buffer_inv b' /\ owns b' ⊆ owns b /\ cm_inv u (left_over L b b') s')) as Hcopy.
  { intros s1 t Hinv1 Ht. eapply wp_mono.
    - apply (copy_loop_spec u L); try done; try lia. destruct (0 <? e); simpl; lia.
    - intros [[ret t'] b'] s2 (-> & -> & Hc' & ? & ? & ?). rw Z.sub_0_r in Hc' |- *.
      by rw -Hdr -Htk. }
  wp_use cm_malloc_spec; [done|]. intros [blk|] s1 (Hinv1 & Hu & Hblk).
  - specialize (Hblk _ eq_refl). wp_steps. rw mem_write_all; [rw zlen_zeros //|].
    wp_steps. apply Hcopy; [done|]. rw zlen_zeros. lia.
  - destruct (Z.eqb_spec e 0) as [He|He]; wp_steps.
    + apply Hcopy; [done|]. by rw He.
    + destruct u; [done|]. by destruct Hu.
Qed.

(** Nothing to read: the buffer is not touched. *)
Lemma read_from_buffer_nothing u L s b size :
  cm_inv u L s -> expected_read_size b size 0 = 0 ->
  wp u (read_from_buffer b size) s (fun '(ret, target, b') s' =>
    ret = 0 /\ target = [] /\ b' = b /\ cm_inv u L s').
Proof.
  intros Hinv He. unfold read_from_buffer. rw He.
  wp_use cm_malloc_spec; [done|]. intros [blk|] s1 (Hinv1 & _ & Hblk); wp_steps; [|done].
  specialize (Hblk _ eq_refl). assert (blk = []) as ->; [|done].
  apply nil_length_inv. unfold zlen in *. lia.
Qed.

Lemma buffer_size_spec b :
  Forall node_ok b -> zlen (contents b) < 2 ^ 64 -> buffer_size b = zlen (contents b).
Proof.
  intros Hb. unfold buffer_size.
  assert (forall acc, 0 <= acc -> acc + zlen (contents b) < 2 ^ 64 ->
    foldl (fun size node => u64 (size + NODE_SIZE node)) acc b = acc + zlen (contents b)) as Hgen.
  { induction Hb as [|n b Hn Hb IH]; intros acc Ha Hlen; simpl.
    - rw zlen_nil. lia.
    - rw (zlen_contents_cons n b Hn) in Hlen |- *. rw node_size //.
      pose proof (no_offsets _ Hn). pose proof (zlen_nonneg (contents b)).
      rw u64_small; [lia|]. rw IH; lia. }
  intros Hlen. rw Hgen; lia.
Qed.

Lemma destroy_spec u L s b :
  cm_inv u L s -> buffer_inv b -> owns b ⊆ L ->
  wp u (destroy_buffer b) s (fun r s' => r = SUCC /\ cm_inv u (L ∖ owns b) s').
Proof.
  intros Hinv [Hsh Hids] HL. unfold destroy_buffer.
  assert (rev b ≡ₚ b) as Hperm by by rw -Permutation_rev.
  assert (owns (rev b) = owns b) as Ho.
  { unfold owns, ids. apply set_eq. intros a. by rw !elem_of_list_to_set Hperm. }
  wp_use recycle_nodes_spec; [done| | |by rw Ho|].
  - rw Hperm. by apply shape_all.
  - unfold ids. by rw Hperm.
  - intros ? s1. rw Ho. intros Hinv1. by apply wp_ret.
Qed.

End drain.

(** ** Searching: lemmas *)

Lemma node_ptr n after :
  node_ok n -> ptr_at (r_offset n) (buff (cache n)) after =
  Ret (live n ++ zeros (CACHE_SIZE - w_offset n) ++ after).
Proof.
  intros [Ho Hw _ Hl Hz]. unfold ptr_at, live. unfold CACHE_SIZE in *.
  rw (proj2 (Z.leb_le 0 (r_offset n))); [lia|]. rw (proj2 (Z.leb_le (r_offset n) _)); [lia|].
  rw -Hz /= app_assoc. do 2 f_equal.
  rw -{1}(take_drop (Z.to_nat (w_offset n - r_offset n)) (drop (Z.to_nat (r_offset n)) _)).
  f_equal. rw drop_drop. f_equal. lia.
Qed.

(** From position 0 only the first node is ever searched: the callback's
    [size_t] result always passes the test [>= 0]. *)
Lemma find_in_buffer_first heap_after index arg n rest :
  (forall p size i, index arg p size = Ret i -> 0 <= i) ->
  find_in_buffer heap_after (Some index) arg (n :: rest) 0 =
    (p ← ptr_at (r_offset n) (buff (cache n)) (heap_after (cid (cache n)));
     idx ← index arg p (NODE_SIZE n);
     Ret (u64 idx)).
Proof.
  intros Hpos. unfold find_in_buffer. simpl.
  destruct (ptr_at _ _ _) as [p| |]; [|done..]. simpl.
  destruct (index arg p (NODE_SIZE n)) as [i| |] eqn:Hi; [|done..]. simpl.
  apply Hpos in Hi. rw (proj2 (Z.leb_le 0 i) Hi) /= (proj2 (Z.leb_le 0 i) Hi) //.
Qed.

(** ** Nothing read yet

    Filling never moves a reading offset: a buffer from which nothing was read
    since its nodes were taken holds its first 512 bytes in one node. *)
Definition unread (b : InnerBuffer) : Prop := Forall (fun n => r_offset n = 0) b.

Section unread.
Context {S : Type} `{CacheModule S}.
Implicit Types (s : S).

Lemma unread_removelast b : unread b -> unread (removelast b).
Proof.
  unfold unread. induction b as [|n b IH]; [done|]. intros [Hn Hb]%Forall_cons. simpl.
  destruct b; [done|]. apply Forall_cons. split; [done|by apply IH].
Qed.

Lemma unread_node b n : unread b -> last b = Some n -> unread (removelast b) /\ r_offset n = 0.
Proof.
  intros Hb Hl. split; [by apply unread_removelast|]. apply last_Some in Hl as [b' ->].
  by apply Forall_app in Hb as [_ [? _]%Forall_cons].
Qed.

Lemma new_node_unread s n s' : new_inner_node s = Ret (Some n, s') -> r_offset n = 0.
Proof.
  unfold new_inner_node, mbind, M_bind, mret, M_ret. destruct (cm_malloc _ s) as [[[b|] s1]| |]; [|done..].
  destruct (cm_get _ s1) as [[[c|] s2]| |]; [|done..]. by intros [= <- _].
Qed.

Definition unread_state (st : fill_state) : Prop :=
  unread (f_list st) /\ unread (f_tmp st) /\ r_offset (f_node st) = 0.

Lemma unread_cur st : unread_state st -> unread (cur_list st) /\ unread (cur_tmp st).
Proof.
  intros (Hl & Ht & Hn). unfold cur_list, cur_tmp, unread in *.
  destruct (f_intmp st); split; try done; apply Forall_app; split; try done; by apply Forall_singleton.
Qed.

Lemma fill_loop_unread {Src} (transfer : Z -> Src -> outcome (Z * bytes * Src)) fuel :
  forall size already src st s ex src' st' s',
  fill_loop transfer fuel size already src st s = Ret ((ex, src', st'), s') ->
  unread_state st -> unread_state st'.
Proof.
  induction fuel as [|fuel IH]; intros size already src st s ex src' st' s'; cbn [fill_loop]; [done|].
  destruct (already <? size); [|by intros [= _ _ <- _]]. cbv zeta.
  unfold mbind, M_bind, lift, mret, M_ret.
  destruct (transfer _ src) as [[[n data] src1]| |]; [|done..].
  destruct (n <? 0); [by intros [= _ _ <- _]|].
  destruct (mem_write _ _ _) as [b| |]; [|done..]. intros Hrun (Hl & Ht & Hn).
  set (st1 := mkFill _ _ _ _) in Hrun. assert (unread_state st1) as Hst1 by done.
  destruct (_ || _); [by injection Hrun as _ _ <- _|].
  destruct (new_inner_node s) as [[[nn|] s1]| |] eqn:Hnn; [|by injection Hrun as _ _ <- _|done..].
  apply IH in Hrun; [done|]. destruct (unread_cur st1 Hst1). split_and!; try done.
  by eapply new_node_unread.
Qed.

Lemma first_node_unread b s st lw s' :
  first_node b s = Ret (Some (st, lw), s') -> unread b -> unread_state st.
Proof.
  unfold first_node. intros Hrun Hb.
  assert (forall o s1, (on ← new_inner_node;
    match on with
    | None => mret None
    | Some n => mret (Some (mkFill b [] n true, u64 (-1)))
    end) s = Ret (o, s1) -> forall st lw, o = Some (st, lw) -> unread_state st) as Hfresh.
  { intros o s1. unfold mbind, M_bind, mret, M_ret.
    destruct (new_inner_node s) as [[[n|] s2]| |] eqn:Hn; [|by intros [= <- _]|done..].
    intros [= <- _] st0 lw0 [= <- _]. split_and!; [done|constructor|by eapply new_node_unread]. }
  destruct (last b) as [n|] eqn:Hl; [|by eapply Hfresh].
  destruct (w_offset n =? CACHE_SIZE); [by eapply Hfresh|].
  injection Hrun as <- _ _. destruct (unread_node _ _ Hb Hl). split_and!; [done|constructor|done].
Qed.

Lemma fill_buffer_unread {Src} (transfer : Z -> Src -> outcome (Z * bytes * Src)) src b size s ret src' b' s' :
  fill_buffer transfer src b size s = Ret ((ret, src', b'), s') -> unread b -> unread b'.
Proof.
  unfold fill_buffer, mbind, M_bind, mret, M_ret. intros Hrun Hb.
  destruct (first_node b s) as [[[[st lw]|] s1]| |] eqn:Hf; [|by injection Hrun as _ _ <- _|done..].
  pose proof (first_node_unread _ _ _ _ _ Hf Hb) as Hst.
  destruct (fill_loop _ _ _ _ _ _ s1) as [[[[ex src1] st1] s2]| |] eqn:Hloop; [|done..].
  destruct (unread_cur _ (fill_loop_unread _ _ _ _ _ _ _ _ _ _ _ Hloop Hst)) as [Hl Ht].
  destruct ex as [r|r].
  - injection Hrun as _ _ <- _. destruct (0 <? r); [|done]. by apply Forall_app.
  - unfold error_with_read, mbind, M_bind, mret, M_ret, undef in Hrun.
    destruct (0 <=? lw).
    + destruct (last (cur_list st1)) as [n|] eqn:Hn; [|done].
      destruct (recycle_nodes _ s2) as [[[] s3]| |]; [|done..]. injection Hrun as _ _ <- _.
      destruct (unread_node _ _ Hl Hn). apply Forall_app. split; [done|]. by apply Forall_singleton.
    + destruct (recycle_nodes _ s2) as [[[] s3]| |]; [|done..]. by injection Hrun as _ _ <- _.
Qed.
End unread.

(** All of a short unread buffer is in its first node. *)
Lemma unread_first b :
  buffer_inv b -> unread b -> zlen (contents b) <= CACHE_SIZE ->
  match b with [] => contents b = [] | n :: _ => contents b = live n end.
Proof.
  intros [Hs _] Hu Hl. destruct b as [|n b]; [done|]. rw contents_cons in Hl |- *.
  inversion Hs as [|b' m Hf Hm Heq]; subst. destruct b' as [|n' b']; simplify_eq/=; [apply app_nil_r|].
  apply Forall_cons in Hu as [Hr _]. apply Forall_cons in Hf as [(Hn & Hw & _) _].
  rw zlen_app live_len // Hw Hr in Hl.
  assert (contents (b' ++ [m]) = []) as ->; [|apply app_nil_r].
  apply nil_length_inv. unfold zlen in Hl. lia.
Qed.

(** A buffer that holds nothing is unread: it is empty or its node was never used. *)
Lemma unread_empty b : buffer_inv b -> contents b = [] -> unread b.
Proof.
  intros [Hs _] Hc. destruct Hs as [|b n Hf [Hn Hlast]]; [constructor|].
  rw contents_app contents_one in Hc. apply app_nil in Hc as [Hb Hl].
  assert (b = []) as ->.
  { destruct b as [|m b]; [done|]. apply Forall_cons in Hf as [(Hm & Hw & Hr) _].
    rw contents_cons in Hb. apply app_nil in Hb as [Hb _]. pose proof (live_len _ Hm) as Hlen.
    rw Hb zlen_nil in Hlen. lia. }
  apply Forall_singleton. pose proof (live_len _ Hn) as Hlen. rw Hl zlen_nil in Hlen.
  pose proof (no_offsets _ Hn). lia.
Qed.
