(* ===== verification/Message.v ===== *)
(** * Messages: src/entity/message.c

    A message owns a content block; its two name arrays are 30 bytes each.
    [strcpy] into them is unchecked, so a longer name is undefined behaviour. *)
From Stdlib Require Import Strings.Byte String.
From S2P Require Import Prelude CLib Alloc.

Definition CLIENT_NAME_MAXIMUM_SIZE : Z := 30.

Definition CMD_LOGIN : string := "LOGIN: ".
Definition CMD_TO_ALL : string := "TO-ALL:".
Definition CMD_TO_C : string := "TO-C-".
Definition MSG_PREFIX_INDICATOR : string := ":".
Definition MSG_SYS_PREFIX : string := "FROM SYSTEM:".
Definition MSG_PEER_PREFIX : string := "FROM".
Definition MSG_LOGIN_SUFFIX : string := "is online now".
Definition MSG_LOGOUT_SUFFIX : string := "has logged out".
Definition UNKNOWN_CLIENT : string := "unknown".

Record Msg := mkMsg {
  target : bytes;
  exclude : bytes;
  size : Z;
  content : bytes;
}.

Definition is_msg_to_all (msg : Msg) : outcome Z := strcmp (target msg) (lit CMD_TO_ALL).

Definition filter_out (msg : Msg) (tgt : bytes) : outcome Z :=
  r1 ← strcmp (exclude msg) tgt;
  if r1 =? SUCC then Ret SUCC
  else
    r2 ← strcmp tgt (lit UNKNOWN_CLIENT);
    Ret (if r2 =? SUCC then SUCC else -1).

Definition is_target (msg : Msg) (tgt : bytes) : outcome Z := strcmp (target msg) tgt.

(** The first newline of a string is overwritten by a NUL.  [own] is the part of
    the memory the pointer may write, [after] what lies behind it. *)
Definition cut_line (own after : bytes) : outcome bytes :=
  enter ← strchr (own ++ after) nl;
  match enter with
  | None => Ret own
  | Some k => if k <? zlen own then mem_write k [nul] own else UB
  end.

Section ops.
Context {S : Type} `{CacheModule S}.

(** [malloc] leaves the name arrays with whatever the block holds. *)
Definition create_new_msg (n : Z) : M S (option Msg) :=
  oc ← cm_malloc n;
  match oc with
  | None => mret None
  | Some c =>
    c ← lift (mem_write 0 (zeros n) c);
    om ← cm_malloc 80;
    match om with
    | None => mret None
    | Some m =>
      let w := Z.to_nat CLIENT_NAME_MAXIMUM_SIZE in
      mret (Some (mkMsg (take w m) (take w (drop w m)) n c))
    end
  end.

Definition create_p2p_msg_base_on_content (sender : bytes) (tgt : option bytes)
    (own after : bytes) : M S (option Msg) :=
  own ← lift (cut_line own after);
  sn ← lift (cstr sender);
  sc ← lift (cstr (own ++ after));
  let message_len := i32 (zlen (bs MSG_PEER_PREFIX) + zlen sn + zlen sc + 5) in
  om ← create_new_msg message_len;
  match om with
  | None => mret None
  | Some m =>
    c ← lift (store_cstr (bs MSG_PEER_PREFIX ++ bs " " ++ sn ++ bs MSG_PREFIX_INDICATOR ++
                          bs " " ++ sc ++ [nl]) (content m));
    t ← lift (match tgt with None => Ret (target m) | Some t => strcpy (target m) t end);
    e ← lift (strcpy (exclude m) sender);
    mret (Some (mkMsg t e (u64 (size m - 1)) c))
  end.

Definition create_sys_msg_base_on_content (tgt : option bytes) (own after : bytes)
    : M S (option Msg) :=
  own ← lift (cut_line own after);
  sc ← lift (cstr (own ++ after));
  let msg_len := i32 (zlen (bs MSG_SYS_PREFIX) + zlen sc + 3) in
  om ← create_new_msg msg_len;
  match om with
  | None => mret None
  | Some m =>
    c ← lift (store_cstr (bs MSG_SYS_PREFIX ++ bs " " ++ sc ++ [nl]) (content m));
    t ← lift (match tgt with None => Ret (target m) | Some t => strcpy (target m) t end);
    mret (Some (mkMsg t (exclude m) (u64 (size m - 1)) c))
  end.
End ops.

(** The text of the two kinds of message, as the comments describe it. *)
Definition p2p_text (sender text : bytes) : bytes :=
  bs "FROM " ++ sender ++ bs ": " ++ text ++ [nl].
Definition sys_text (text : bytes) : bytes := bs "FROM SYSTEM: " ++ text ++ [nl].

(** A message ready to be delivered: [txt] without its terminator is what goes
    to the socket. *)
Record msg_ok (m : Msg) (tgt : bytes) (txt : bytes) : Prop := {
  mo_target : cstr (target m) = Ret tgt;
  mo_content : content m = txt ++ [nul];
  mo_size : size m = zlen txt;
}.

(** ** Lemmas *)

Lemma cut_line_nl l rest after :
  nl ∉ l -> nul ∉ l -> cut_line (l ++ nl :: rest) after = Ret (l ++ nul :: rest).
Proof.
  intros Hnl Hnul. unfold cut_line. rw (strchr_line _ _ (length l)); [by apply first_line_app|].
  simpl. rw (proj2 (Z.ltb_lt _ _)); [zl|]. rw mem_write_in; [lia|zl|]. f_equal.
  rw Nat2Z.id take_app_length /=. do 2 f_equal.
  replace (length l + 1)%nat with (length (l ++ [nl])) by zl.
  replace (l ++ nl :: rest) with ((l ++ [nl]) ++ rest) by by rw -app_assoc.
  apply drop_app_length.
Qed.

Lemma cut_line_nul l rest after :
  nl ∉ l -> nul ∉ l -> cut_line (l ++ nul :: rest) after = Ret (l ++ nul :: rest).
Proof.
  intros Hnl Hnul. unfold cut_line. rw -app_assoc /=.
  assert (strchr (l ++ nul :: rest ++ after) nl = Ret None) as ->; [|done].
  induction l as [|x l IH]; simpl; [done|].
  apply not_elem_of_cons in Hnl as [? Hnl]. apply not_elem_of_cons in Hnul as [? Hnul].
  repeat case_decide; try congruence. by rw IH.
Qed.

Section specs.
Context {S : Type} `{!CacheModule S} `{!CacheModuleLaws S}.
Implicit Types (s : S) (L : gset Z).

Lemma create_new_msg_spec u L s n :
  cm_inv u L s -> 0 <= n ->
  wp u (create_new_msg n) s (fun om s' =>
    cm_inv u L s' /\ (u = false -> om <> None) /\
    forall m, om = Some m -> content m = zeros n /\ size m = n /\
      zlen (target m) = 30 /\ zlen (exclude m) = 30).
Proof.
  intros Hinv Hn. unfold create_new_msg. wp_use cm_malloc_spec; [done|].
  intros [c|] s1 (Hinv1 & Hu1 & Hc); [|apply wp_ret; split_and!; [done|intros E; by destruct (Hu1 E)|done]]. specialize (Hc _ eq_refl).
  wp_steps. rw mem_write_all; [rw zlen_zeros; lia|]. wp_steps.
  wp_use cm_malloc_spec; [done|].
  intros [m|] s2 (Hinv2 & Hu2 & Hm); [|apply wp_ret; split_and!; [done|intros E; by destruct (Hu2 E)|done]]. specialize (Hm _ eq_refl).
  apply wp_ret. split_and!; [done|done|]. intros ? [= <-].
  unfold CLIENT_NAME_MAXIMUM_SIZE. simpl. split_and!; [done|done|zl|zl].
Qed.

(** What both constructors do once the text is composed: an exact fit. *)
Lemma store_text txt n :
  n = zlen txt + 1 -> store_cstr txt (zeros n) = Ret (txt ++ [nul]).
Proof.
  intros ->. pose proof (zlen_nonneg txt). rw store_cstr_in; [rw zlen_zeros; lia|].
  do 3 f_equal. apply drop_ge. zl.
Qed.

(** The target as the call uses it: given, or the garbage of the fresh block. *)
Lemma create_p2p_spec u L s sender sn t tn own own' after sc :
  cm_inv u L s -> cstr sender = Ret sn -> cstr t = Ret tn ->
  cut_line own after = Ret own' -> cstr (own' ++ after) = Ret sc ->
  zlen sn < 30 -> zlen tn < 30 -> zlen sc < 2 ^ 30 ->
  wp u (create_p2p_msg_base_on_content sender (Some t) own after) s (fun om s' =>
    cm_inv u L s' /\ (u = false -> om <> None) /\
    forall m, om = Some m -> msg_ok m tn (p2p_text sn sc) /\ cstr (exclude m) = Ret sn).
Proof.
  intros Hinv Hsn Ht Hcut Hsc Hls Hlt Hlc. unfold create_p2p_msg_base_on_content.
  pose proof (zlen_nonneg sn). pose proof (zlen_nonneg sc).
  rw Hcut. wp_steps. rw Hsn. wp_steps. rw Hsc. wp_steps.
  assert (zlen (p2p_text sn sc) = 4 + zlen sn + zlen sc + 4) as Htxt.
  { unfold p2p_text. rw !zlen_app. unfold zlen. simpl. lia. }
  rw i32_small; [unfold zlen in *; simpl; lia|].
  wp_use (create_new_msg_spec u L); [done|unfold zlen in *; simpl; lia|].
  intros [m|] s1 (Hinv1 & Hu & Hm); [|apply wp_ret; split_and!; [done|intros E; by destruct (Hu E)|done]].
  destruct (Hm _ eq_refl) as (Hc & Hsz & Htl & Hel).
  set (n := zlen (bs MSG_PEER_PREFIX) + _ + _ + _) in *.
  assert (n = zlen (p2p_text sn sc) + 1) as Hn by (rw Htxt; unfold n, zlen; simpl; lia).
  wp_steps. rw Hc (store_text (p2p_text sn sc) n Hn). wp_steps.
  destruct (strcpy_in (target m) t tn Ht) as (t' & -> & Ht' & _); [lia|]. wp_steps.
  destruct (strcpy_in (exclude m) sender sn Hsn) as (e' & -> & He' & _); [lia|]. wp_steps.
  split_and!; [done|done|]. intros ? [= <-]. split; [|done]. constructor; simpl; try done.
  rw Hsz Hn u64_small; lia.
Qed.

(** The target array is 30 bytes: a longer target name is written past it. *)
Lemma create_p2p_overflow L s sender sn t tn own own' after sc :
  cm_inv false L s -> cstr sender = Ret sn -> cstr t = Ret tn ->
  cut_line own after = Ret own' -> cstr (own' ++ after) = Ret sc ->
  zlen sn < 30 -> 30 <= zlen tn -> zlen sc < 2 ^ 30 ->
  create_p2p_msg_base_on_content sender (Some t) own after s = UB.
Proof.
  intros Hinv Hsn Ht Hcut Hsc Hls Hlt Hlc. unfold create_p2p_msg_base_on_content.
  pose proof (zlen_nonneg sn). pose proof (zlen_nonneg sc).
  unfold mbind at 1, M_bind, lift at 1. rw Hcut. unfold mbind at 1, lift at 1. rw Hsn.
  unfold mbind at 1, lift at 1. rw Hsc. unfold mbind at 1.
  assert (zlen (p2p_text sn sc) = 4 + zlen sn + zlen sc + 4) as Htxt.
  { unfold p2p_text. rw !zlen_app. unfold zlen. simpl. lia. }
  rw i32_small; [unfold zlen in *; simpl; lia|].
  set (n := zlen (bs MSG_PEER_PREFIX) + _ + _ + _) in *.
  assert (n = zlen (p2p_text sn sc) + 1) as Hn by (rw Htxt; unfold n, zlen; simpl; lia).
  destruct (wp_total _ _ _ (create_new_msg_spec false L s n Hinv ltac:(lia)))
    as (om & s1 & -> & _ & Hu & Hm).
  destruct om as [m|]; [|by destruct Hu]. destruct (Hm _ eq_refl) as (Hc & Hsz & Htl & Hel).
  unfold mbind at 1, lift at 1. rw Hc (store_text (p2p_text sn sc) n Hn).
  unfold mbind at 1, lift at 1. rw (strcpy_overflow _ _ _ Ht) //. lia.
Qed.

Lemma create_sys_spec u L s t tn own own' after sc :
  cm_inv u L s -> cstr t = Ret tn ->
  cut_line own after = Ret own' -> cstr (own' ++ after) = Ret sc ->
  zlen tn < 30 -> zlen sc < 2 ^ 30 ->
  wp u (create_sys_msg_base_on_content (Some t) own after) s (fun om s' =>
    cm_inv u L s' /\ (u = false -> om <> None) /\
    forall m, om = Some m -> msg_ok m tn (sys_text sc) /\ zlen (exclude m) = 30).
Proof.
  intros Hinv Ht Hcut Hsc Hlt Hlc. unfold create_sys_msg_base_on_content.
  pose proof (zlen_nonneg sc). rw Hcut. wp_steps. rw Hsc. wp_steps.
  assert (zlen (sys_text sc) = 12 + zlen sc + 2) as Htxt.
  { unfold sys_text. rw !zlen_app. unfold zlen. simpl. lia. }
  rw i32_small; [unfold zlen in *; simpl; lia|].
  wp_use (create_new_msg_spec u L); [done|unfold zlen in *; simpl; lia|].
  intros [m|] s1 (Hinv1 & Hu & Hm); [|apply wp_ret; split_and!; [done|intros E; by destruct (Hu E)|done]].
  destruct (Hm _ eq_refl) as (Hc & Hsz & Htl & Hel).
  set (n := zlen (bs MSG_SYS_PREFIX) + _ + _) in *.
  assert (n = zlen (sys_text sc) + 1) as Hn by (rw Htxt; unfold n, zlen; simpl; lia).
  wp_steps. rw Hc (store_text (sys_text sc) n Hn). wp_steps.
  destruct (strcpy_in (target m) t tn Ht) as (t' & -> & Ht' & _); [lia|]. wp_steps.
  split_and!; [done|done|]. intros ? [= <-]. split; [|done]. constructor; simpl; try done.
  rw Hsz Hn u64_small; lia.
Qed.
End specs.
