(* ===== verification/ClientInfo.v ===== *)
(** * Clients: src/entity/client_info.c

    A client's socket, its name and its two buffers.  The spin locks protect
    the calls against each other and carry no data: they are not modelled
    here, only the outcome of creating them. *)
From Stdlib Require Import Strings.Byte String.
From S2P Require Import Prelude CLib NetUtil Alloc Buffer Message.

Definition C_TYPE_C : Z := 1.
Definition C_TYPE_S : Z := 2.

(** [ClientInfo] and the [ClientData] around it. *)
Record ClientData := mkClient {
  socket_id : Z;
  peer_ip : option bytes;
  peer_port : Z;
  name : bytes;
  login_time : Z;
  ctype : Z;
  pub : Z;
  priv : Z;
  reading_buffer : InnerBuffer;
  writing_buffer : InnerBuffer;
  last_check_cmd_index : Z;
}.

Definition set_name (n : bytes) (d : ClientData) : ClientData :=
  mkClient (socket_id d) (peer_ip d) (peer_port d) n (login_time d) (ctype d) (pub d)
    (priv d) (reading_buffer d) (writing_buffer d) (last_check_cmd_index d).
Definition set_pub (p : Z) (d : ClientData) : ClientData :=
  mkClient (socket_id d) (peer_ip d) (peer_port d) (name d) (login_time d) (ctype d) (u64 p)
    (priv d) (reading_buffer d) (writing_buffer d) (last_check_cmd_index d).
Definition set_reading (b : InnerBuffer) (last : Z) (d : ClientData) : ClientData :=
  mkClient (socket_id d) (peer_ip d) (peer_port d) (name d) (login_time d) (ctype d) (pub d)
    (priv d) b (writing_buffer d) last.
Definition set_writing (b : InnerBuffer) (d : ClientData) : ClientData :=
  mkClient (socket_id d) (peer_ip d) (peer_port d) (name d) (login_time d) (ctype d) (pub d)
    (priv d) (reading_buffer d) b (last_check_cmd_index d).

(** [update_client_name] on the name array; [None] is a null pointer. *)
Definition update_name (nm : option bytes) : outcome bytes :=
  let arr := zeros CLIENT_NAME_MAXIMUM_SIZE in
  match nm with
  | None => strcpy arr (lit "Unknown")
  | Some p =>
    len ← strlen p;
    let name_length := i32 (min_u64 len (CLIENT_NAME_MAXIMUM_SIZE - 1)) in
    strncpy arr p name_length
  end.

Definition update_client_name (info : ClientData) (nm : option bytes) : outcome ClientData :=
  n ← update_name nm; Ret (set_name n info).

(** The callback that searches the end of a command. *)
Definition check_command_suffix (suffix : byte) (buff : bytes) (size : Z) : outcome Z :=
  target ← strchr buff suffix;
  Ret (match target with
       | None => u64 (-1)
       | Some k => if k <? size then u64 k else u64 (-1)
       end).

Section ops.
Context {S : Type} `{CacheModule S}.

(** [peer] is the result of [get_addr_and_port] with the values it leaves in
    [*addr] and [*port]; [now] what [time] stores; [init1] and [init2] the
    results of the two [pthread_spin_init].  After the block is allocated every
    failure ends at the label [error_with_data], which frees the block and then
    reads it. *)
Definition new_client_info (sock : Z) (client_name : option bytes) (type : Z)
    (peer : Z * option bytes * Z) (now init1 init2 : Z) : M S (option ClientData) :=
  od ← cm_malloc 152;
  match od with
  | None => mret None
  | Some _ =>
    let '(ret, ip, port) := peer in
    let '(ip, port) :=
      if type =? C_TYPE_C then if ret =? SUCC then (ip, port) else (None, -1)
      else (None, 0) in
    n ← lift (update_name client_name);
    orb ← create_new_buffer;
    match orb with
    | None => undef
    | Some rb =>
      owb ← create_new_buffer;
      match owb with
      | None => undef
      | Some wb =>
        if init1 =? SUCC then
          if init2 =? SUCC then
            mret (Some (mkClient sock ip port n now (u16 type) 0 0 rb wb 0))
          else undef
        else undef
      end
    end
  end.

(** [fionread]: the result of the [ioctl], [None] for an error. *)
Definition fetch_from_client (fd : fdesc) (fionread : option Z) (info : ClientData)
    : M S (Z * fdesc * ClientData) :=
  match fionread with
  | None => mret (u64 (-1), fd, info)
  | Some byte_available =>
    '(ret, fd', b) ← read_into_buffer fd (reading_buffer info) (u64 byte_available);
    mret (ret, fd', set_reading b (last_check_cmd_index info) info)
  end.

(** Returns the size, the block left in [*msg_buff], and the client. *)
Definition fetch_msg_from_client (heap_after : Z -> bytes) (info : ClientData)
    : M S (Z * option bytes * ClientData) :=
  cmd_suffix_index ← lift (find_in_buffer heap_after (Some check_command_suffix) nl
                             (reading_buffer info) (last_check_cmd_index info));
  if cmd_suffix_index <? 0 then
    mret (u64 (-1), None,
          set_reading (reading_buffer info) (buffer_size (reading_buffer info)) info)
  else
    '(n, msg, b) ← read_from_buffer (reading_buffer info) (u64 (cmd_suffix_index + 1));
    let read_size := i32 n in
    mret (u64 read_size, Some msg, set_reading b 0 info).

Definition send_msg_to_client (info : ClientData) (msg : bytes) (size : Z)
    : M S (Z * ClientData) :=
  '(ret, b) ← write_into_buffer (writing_buffer info) msg size;
  mret (ret, set_writing b info).

Definition flush_messages (fd : fdesc) (info : ClientData) : M S (Z * fdesc * ClientData) :=
  let b_size := buffer_size (writing_buffer info) in
  if 0 <? b_size then
    '(ret, fd', b) ← write_from_buffer fd (writing_buffer info) b_size;
    mret (ret, fd', set_writing b info)
  else mret (0, fd, info).

Definition release_client_info (oinfo : option ClientData) : M S Z :=
  match oinfo with
  | None => mret SUCC
  | Some info =>
    _ ← destroy_buffer (reading_buffer info);
    _ ← destroy_buffer (writing_buffer info);
    mret SUCC
  end.
End ops.

Definition is_client_connected (getsockopt : Z -> Z * Z) (info : ClientData) : Z :=
  is_socket_valid getsockopt (socket_id info).

(** ** Invariant *)

Record client_inv (d : ClientData) : Prop := {
  ci_reading : buffer_inv (reading_buffer d);
  ci_writing : buffer_inv (writing_buffer d);
  ci_disjoint : owns (reading_buffer d) ## owns (writing_buffer d);
  ci_name : exists nm, cstr (name d) = Ret nm /\ zlen nm < CLIENT_NAME_MAXIMUM_SIZE;
  (** the position kept "to avoid rechecking from the beginning" never moves *)
  ci_check : last_check_cmd_index d = 0;
  ci_size : zlen (contents (reading_buffer d)) < 2 ^ 31 - 1;
}.
Definition client_owns (d : ClientData) : gset Z :=
  owns (reading_buffer d) ∪ owns (writing_buffer d).

(** The memory behind every block holds a NUL somewhere. *)
Definition terminated (heap_after : Z -> bytes) : Prop := forall a, nul ∈ heap_after a.

(** What a client's next message is: the first node's first line. *)
Definition next_message (b : InnerBuffer) : option nat :=
  match b with
  | [] => None
  | n :: _ => first_line (live n)
  end.

(** ** Lemmas *)

Lemma strn_take_spec n src s :
  cstr src = Ret s -> (n <= length s)%nat -> strn_take n src = Ret (take n s).
Proof.
  revert n s. induction src as [|x src IH]; intros [|n] s; simpl; try done.
  case_decide; [intros [= <-]; simpl; lia|].
  destruct (cstr src) as [t| |]; [|done..]. intros [= <-] Hn. simpl in *.
  rw (IH n t) //. lia.
Qed.

(** A name is the first 29 bytes of what is given, NUL-terminated. *)
Lemma update_name_spec p s :
  cstr p = Ret s ->
  zlen s < 2 ^ 31 ->
  update_name (Some p) = Ret (take 29 s ++ zeros (30 - zlen (take 29 s))).
Proof.
  intros Hp Hs. unfold update_name, strlen. rw Hp /=. pose proof (zlen_nonneg s).
  unfold CLIENT_NAME_MAXIMUM_SIZE. rw min_u64_small; [lia|lia|].
  rw i32_small; [lia|]. rw /strncpy (strn_take_spec _ _ s Hp); [zl|]. simpl.
  assert (take (Z.to_nat (zlen s `min` (30 - 1))) s = take 29 s) as ->.
  { change (30 - 1) with 29. destruct (Z.min_spec (zlen s) 29) as [[? ->]|[? ->]]; [|done]. rw !take_ge //; zl. }
  rw mem_write_in; [lia|zl|]. rw Nat.add_0_l take_0 /=. f_equal. f_equal.
  change (zeros 30) with (replicate 30 nul). rw drop_replicate /zeros. f_equal. zl.
Qed.

Lemma update_name_cstr p s :
  cstr p = Ret s -> zlen s < 2 ^ 31 ->
  exists n, update_name (Some p) = Ret n /\ cstr n = Ret (take 29 s) /\ zlen n = 30.
Proof.
  intros Hp Hs. rw (update_name_spec _ _ Hp Hs). eexists. split; [done|].
  assert (zlen (take 29 s) <= 29) as Hl by zl. split; [|zl].
  unfold zeros. replace (Z.to_nat (30 - zlen (take 29 s))) with
    (Datatypes.S (Z.to_nat (29 - zlen (take 29 s)))) by lia.
  simpl. apply cstr_nul. intros Hin%elem_of_take. apply (cstr_no_nul _ _ Hp).
  destruct Hin as (i & Hi & _). by eapply list_elem_of_lookup_2.
Qed.

Lemma check_command_suffix_spec d m k :
  first_line d = Some k -> zlen d < 2 ^ 64 ->
  check_command_suffix nl (d ++ m) (zlen d) = Ret (Z.of_nat k).
Proof.
  intros Hk Hd. pose proof (first_line_lt _ _ Hk). unfold check_command_suffix.
  rw (strchr_line _ _ _ Hk) /= (proj2 (Z.ltb_lt _ _)); [zl|]. rw u64_small //. zl.
Qed.

Lemma check_command_suffix_none d m :
  first_line d = None -> nul ∈ m ->
  check_command_suffix nl (d ++ m) (zlen d) = Ret SIZE_MAX.
Proof.
  intros Hd Hm. unfold check_command_suffix.
  destruct (strchr_no_line d m Hd Hm) as (r & -> & Hr). simpl.
  destruct r as [k|]; [|done]. rw (proj2 (Z.ltb_ge _ _)) //. by apply Hr.
Qed.

Lemma check_command_suffix_pos p sz i :
  check_command_suffix nl p sz = Ret i -> 0 <= i.
Proof.
  unfold check_command_suffix. destruct (strchr p nl) as [[k|]| |]; simpl; [| |done..].
  - case_match; intros [= <-]; apply u64_range.
  - intros [= <-]. apply u64_range.
Qed.

(** Where the code finds the end of the next command: the result of the search
    depends on the first node alone, and the memory behind it is irrelevant. *)
Lemma find_command_spec heap_after b :
  terminated heap_after -> shape_ok b ->
  find_in_buffer heap_after (Some check_command_suffix) nl b 0 =
    Ret (match b with
         | [] => 0
         | _ => match next_message b with Some k => Z.of_nat k | None => SIZE_MAX end
         end).
Proof.
  intros Hter Hsh. destruct b as [|n rest]; [done|].
  pose proof (shape_all _ Hsh) as [Hn _]%Forall_cons.
  rw find_in_buffer_first; [|].
  { intros p sz i. apply check_command_suffix_pos. }
  rw node_ptr //. simpl. rw node_size // -live_len //.
  assert (zlen (live n) < 2 ^ 63) as Hl.
  { rw live_len //. destruct Hn. unfold CACHE_SIZE in *. lia. }
  destruct (first_line (live n)) as [k|] eqn:Hk.
  - pose proof (first_line_lt _ _ Hk). rw (check_command_suffix_spec _ _ _ Hk); [lia|].
    simpl. rw u64_small //. zl.
  - rw check_command_suffix_none //. apply elem_of_app. right. apply Hter.
Qed.

Section specs.
Context {S : Type} `{!CacheModule S} `{!CacheModuleLaws S}.
Implicit Types (s : S) (L : gset Z).

(** What [fetch_msg_from_client] returns and leaves. *)
Definition fetch_post (u : bool) (L : gset Z) (d : ClientData)
    (r : Z * option bytes * ClientData) (s' : S) : Prop :=
  let '(ret, omsg, d') := r in
  let c := contents (reading_buffer d) in
  match next_message (reading_buffer d) with
  | Some k => ret = Z.of_nat k + 1 /\ omsg = Some (take (Datatypes.S k) c) /\
              contents (reading_buffer d') = drop (Datatypes.S k) c
  | None => ret = 0 /\ omsg = Some [] /\ reading_buffer d' = reading_buffer d
  end /\
  d' = set_reading (reading_buffer d') 0 d /\ client_inv d' /\
  client_owns d' ⊆ left_over L (reading_buffer d) (reading_buffer d') /\
  owns (reading_buffer d') ⊆ owns (reading_buffer d) /\
  cm_inv u (left_over L (reading_buffer d) (reading_buffer d')) s'.

Lemma client_inv_reading d b :
  client_inv d -> buffer_inv b -> owns b ⊆ owns (reading_buffer d) ->
  zlen (contents b) < 2 ^ 31 - 1 -> client_inv (set_reading b 0 d).
Proof. intros [] ? ? ?. constructor; try done. simpl. set_solver. Qed.

Lemma client_owns_left L d b :
  client_inv d -> client_owns d ⊆ L ->
  client_owns (set_reading b 0 d) ⊆ left_over L (reading_buffer d) b.
Proof.
  intros [_ _ Hd _ _ _] HL. unfold client_owns, left_over in *. simpl. set_solver.
Qed.

Lemma next_message_contents b k :
  next_message b = Some k ->
  (k < length (contents b))%nat /\
  take (Datatypes.S k) (contents b) = take k (contents b) ++ [nl] /\
  (nl ∉ take k (contents b)) /\ (nul ∉ take k (contents b)).
Proof.
  destruct b as [|n rest]; simpl; [done|]. intros Hk.
  pose proof (first_line_lt _ _ Hk). destruct (first_line_spec _ _ Hk) as (Ht & Hnl & Hnul).
  rw length_app !take_app_le; [lia|lia|]. split_and!; try done. lia.
Qed.

Lemma fetch_msg_spec u L s ha d :
  cm_inv u L s -> client_inv d -> terminated ha -> client_owns d ⊆ L ->
  wp u (fetch_msg_from_client ha d) s (fetch_post u L d).
Proof.
  intros Hinv Hd Hter HL. pose proof (ci_reading _ Hd) as Hrb.
  pose proof (ci_size _ Hd) as Hsz. pose proof (zlen_nonneg (contents (reading_buffer d))).
  assert (owns (reading_buffer d) ⊆ L) as HLr by (unfold client_owns in HL; set_solver).
  unfold fetch_msg_from_client. wp_steps. rw (ci_check _ Hd) find_command_spec //; [apply Hrb|].
  wp_steps. set (idx := match reading_buffer d with [] => 0 | _ => _ end).
  assert (0 <= idx) as Hidx.
  { unfold idx. destruct (reading_buffer d); [done|]. destruct (next_message _); lia || done. }
  rw (proj2 (Z.ltb_ge idx 0)) //. unfold fetch_post.
  destruct (next_message (reading_buffer d)) as [k|] eqn:Hk.
  - destruct (next_message_contents _ _ Hk) as [Hlt _].
    assert (idx = Z.of_nat k) as -> by (unfold idx; by destruct (reading_buffer d)).
    assert (Z.of_nat k < zlen (contents (reading_buffer d))) by zl.
    rw u64_small; [lia|]. wp_use read_from_buffer_spec; [done|done|done|lia|lia|].
    intros [[ret msg] b] s1 (-> & -> & Hc & Hb & Ho & Hinv1). rw Z.min_l; [lia|].
    rw i32_small; [lia|]. rw u64_small; [lia|].
    replace (Z.to_nat (Z.of_nat k + 1)) with (Datatypes.S k) in * by lia.
    apply wp_ret. split_and!; try done.
    + apply client_inv_reading; try done. simpl. rw Hc. zl.
    + by apply client_owns_left.
  - assert (expected_read_size (reading_buffer d) (u64 (idx + 1)) 0 = 0) as He.
    { unfold idx. destruct (reading_buffer d) as [|n rest] eqn:Hb; [done|].
      change (u64 (SIZE_MAX + 1)) with 0. rw expected_read_size_spec; [by apply shape_all, Hrb|done|lia|lia]. }
    wp_use (read_from_buffer_nothing u L); [done|done|].
    intros [[ret msg] b] s1 (-> & -> & -> & Hinv1). wp_steps.
    rw left_over_refl //. split_and!; try done.
    apply client_inv_reading; done.
Qed.

(** A client fresh from [new_client_info]. *)
Definition fresh_client (sock : Z) (sn : bytes) (d : ClientData) : Prop :=
  client_inv d /\ client_owns d = ∅ /\ cstr (name d) = Ret (take 29 sn) /\ socket_id d = sock /\
  pub d = 0 /\ contents (reading_buffer d) = [] /\ contents (writing_buffer d) = [].

Lemma new_client_spec L s sock nm sn type peer now :
  cm_inv false L s -> cstr nm = Ret sn -> zlen sn < 2 ^ 31 ->
  wp false (new_client_info sock (Some nm) type peer now 0 0) s (fun od s' =>
    cm_inv false L s' /\ exists d, od = Some d /\ fresh_client sock sn d).
Proof.
  intros Hinv Hnm Hl. destruct (update_name_cstr _ _ Hnm Hl) as (n & Hn & Hc & Hlen).
  unfold new_client_info. wp_use cm_malloc_spec; [done|].
  intros [blk|] s1 (Hinv1 & Hu & _); [|by destruct Hu].
  destruct peer as [[ret ip] port]. destruct (if type =? C_TYPE_C then _ else _) as [ip' port'].
  wp_steps. rw Hn. wp_steps. unfold create_new_buffer.
  wp_steps. wp_use cm_malloc_spec; [done|]. intros [b1|] s2 (Hinv2 & Hu2 & _); [|by destruct Hu2].
  wp_steps. wp_use cm_malloc_spec; [done|]. intros [b2|] s3 (Hinv3 & Hu3 & _); [|by destruct Hu3].
  wp_steps. cbn. wp_steps. split; [done|]. eexists. split; [done|]. split_and!; try done.
  constructor; try done.
  - split; constructor.
  - split; constructor.
  - exists (take 29 sn). split; [done|]. unfold CLIENT_NAME_MAXIMUM_SIZE. zl.
Qed.

(** What [fetch_from_client] does when reads do not fail. *)
Lemma fetch_from_spec L s fd d n :
  cm_inv false L s -> client_inv d -> client_owns d ⊆ L -> 0 < n < 2 ^ 31 -> reads_succeed fd ->
  zlen (contents (reading_buffer d)) + n < 2 ^ 31 - 1 ->
  wp false (fetch_from_client fd (Some n) d) s (fun '(ret, fd', d') s' =>
    exists data L', ret = zlen data /\ ret <= n /\ fd_in fd = data ++ fd_in fd' /\
    d' = set_reading (reading_buffer d') 0 d /\
    contents (reading_buffer d') = contents (reading_buffer d) ++ data /\
    client_inv d' /\ cm_inv false L' s' /\ L ⊆ L' /\ client_owns d' ⊆ L' /\
    client_owns d' ∩ L ⊆ client_owns d /\ reads_succeed fd' /\
    fd_out fd' = fd_out fd /\ fd_wplan fd' = fd_wplan fd /\
    (fd_rplan fd = [] -> n <= zlen (fd_in fd) -> ret = n /\ fd_rplan fd' = []) /\
    (unread (reading_buffer d) -> unread (reading_buffer d'))).
Proof.
  intros Hinv Hd HL Hn Hr Hsz. pose proof (ci_reading _ Hd) as Hb.
  pose proof (zlen_nonneg (contents (reading_buffer d))).
  assert (owns (reading_buffer d) ⊆ L) as HLr by (unfold client_owns in HL; set_solver).
  assert (exists exact, (exact = true \/ ~ (fd_rplan fd = [] /\ n <= zlen (fd_in fd))) /\
    wp false (fill_buffer read_transfer fd (reading_buffer d) n) s
      (fill_result fd_in (fun rem fd' => reads_succeed fd' /\ fd_out fd' = fd_out fd /\
         fd_wplan fd' = fd_wplan fd /\ (exact = true -> fd_rplan fd' = [])) exact false L (reading_buffer d) n fd)) as (exact & Hex & Hwp).
  { destruct (decide (fd_rplan fd = [] /\ n <= zlen (fd_in fd))) as [[Hp Hl]|Hno].
    - exists true. split; [by left|]. eapply wp_mono; [apply (fill_buffer_spec read_transfer fd_in
        (fd_full (fd_out fd) (fd_wplan fd)) true (read_transfer_full _ _) false L s _ n fd Hinv Hb HLr Hn
        (conj Hp (conj Hl (conj eq_refl eq_refl))))|].
      intros [[ret fd'] b'] s1 [?|(data & L' & ? & ? & ? & ? & ? & ? & ? & ? & ? & ? & ? & ? & Hp' & _ & ? & ?)];
        [by left|right].
      exists data, L'. split_and!; try done. unfold reads_succeed. by rw Hp'.
    - exists false. split; [by right|]. eapply wp_mono; [apply (fill_buffer_spec read_transfer fd_in
        (fd_frame (fd_out fd) (fd_wplan fd)) false (read_transfer_spec _ _) false L s _ n fd Hinv Hb HLr Hn
        (conj Hr (conj eq_refl eq_refl)))|].
      intros [[ret fd'] b'] s1 [?|(data & L' & ? & ? & ? & ? & ? & ? & ? & ? & ? & ? & ? & ? & ? & ? & ?)];
        [by left|right].
      exists data, L'. by split_and!. }
  unfold fetch_from_client, read_into_buffer. rw u64_small; [lia|].
  eapply wp_bind, wp_mono; [apply (wp_and _ _ _ _ (fun '(_, _, b') _ =>
    unread (reading_buffer d) -> unread b') Hwp); intros [[? ?] b'] s'; apply fill_buffer_unread|].
  clear Hwp. intros [[ret fd'] b'] s1 [[(? & _)|(data & L' & -> & Hle & Hv & Hc & Hb' & Hs1 & HLL & HbL & _ & _ & Hfr & He & Hr' & Ho & Hw & Hrp)] Hun];
    [done|].
  apply wp_ret. exists data, L'. rw (ci_check _ Hd). simpl.
  assert (owns b' ## owns (writing_buffer d)) as Hdis.
  { pose proof (ci_disjoint _ Hd) as Hdis. clear -Hdis Hfr HL. unfold client_owns in HL. set_solver. }
  split_and!; try done.
  - destruct Hd. constructor; try done. simpl. rw Hc zlen_app. lia.
  - unfold client_owns in *. simpl. clear -HbL HLL HL. set_solver.
  - unfold client_owns in *. simpl. clear -Hfr. set_solver.
  - intros Hp Hl. destruct Hex as [->|[]]; [split; [by apply He|by apply Hrp]|done].
Qed.

(** An empty request changes nothing but may take a cache from the pool. *)
Lemma fetch_from_nothing L s fd d :
  cm_inv false L s -> client_inv d -> client_owns d ⊆ L ->
  wp false (fetch_from_client fd (Some 0) d) s (fun '(ret, fd', d') s' =>
    ret = 0 /\ fd' = fd /\ d' = d /\ exists L', L ⊆ L' /\ cm_inv false L' s').
Proof.
  intros Hinv Hd HL. pose proof (ci_reading _ Hd) as Hb.
  assert (owns (reading_buffer d) ⊆ L) as HLr by (unfold client_owns in HL; set_solver).
  unfold fetch_from_client, read_into_buffer, fill_buffer. change (u64 0) with 0. wp_steps.
  wp_use (first_node_spec false L); [exact Hinv|exact Hb|exact HLr|]. intros [[st lw]|] s1 Hst; cbv zeta in Hst; [|by destruct Hst].
  destruct Hst as (Hinv1 & _ & _ & _ & Hcur & _). cbn [fill_loop]. change (0 <? 0) with false.
  wp_steps. change (0 <? SUCC) with false. wp_steps. rw Hcur (ci_check _ Hd).
  split_and!; try done.
  - pose proof (ci_check _ Hd). destruct d; simpl in *. by subst.
  - eexists. split; [|exact Hinv1]. apply union_subseteq_l.
Qed.

Lemma send_msg_spec u L s d msg n :
  cm_inv u L s -> buffer_inv (writing_buffer d) -> owns (writing_buffer d) ⊆ L ->
  0 < n < 2 ^ 31 -> n <= zlen msg ->
  wp u (send_msg_to_client d msg n) s (fun '(ret, d') s' =>
    exists k L', 0 <= k <= n /\ (u = false -> k = n) /\
    d' = set_writing (writing_buffer d') d /\ buffer_inv (writing_buffer d') /\
    contents (writing_buffer d') = contents (writing_buffer d) ++ take (Z.to_nat k) msg /\
    cm_inv u L' s' /\ L ⊆ L' /\ owns (writing_buffer d') ⊆ L' /\
    (0 < k -> L' = L ∪ owns (writing_buffer d')) /\ (k = 0 -> d' = d) /\
    owns (writing_buffer d') ∩ L ⊆ owns (writing_buffer d)).
Proof.
  intros Hinv Hb HL Hn Hlen. unfold send_msg_to_client, write_into_buffer. wp_steps.
  wp_use (fill_buffer_spec memcpy_transfer id memcpy_enough true memcpy_transfer_spec);
    [done|done|done|lia|done|].
  intros [[ret src'] b'] s1 Hr. apply wp_ret, wp_ret.
  assert (set_writing (writing_buffer d) d = d) as Hd by by destruct d.
  destruct Hr as [(-> & -> & _ & -> & Hinv1)|Hr].
  - exists 0, L. rw /= Hd take_0 app_nil_r. split_and!; try done; [lia..|apply intersection_subseteq_l].
  - destruct Hr as (data & L' & -> & Hle & Hv & Hc & Hb' & Hinv1 & HL1 & HL2 & Heq & Hnil & Hfr & Hex & _).
    pose proof (zlen_nonneg data). exists (zlen data), L'. rw /= in Hv.
    assert (take (Z.to_nat (zlen data)) msg = data) as ->.
    { rw Hv /zlen Nat2Z.id take_app_length //. }
    split_and!; try done.
    + intros Hu. by apply Hex.
    + intros Hpos. apply Heq. intros ->. done.
    + intros Hz. rw Hnil //. apply nil_length_inv. unfold zlen in Hz. lia.
Qed.

Lemma flush_spec u L s fd d :
  cm_inv u L s -> buffer_inv (writing_buffer d) -> owns (writing_buffer d) ⊆ L ->
  writes_succeed fd -> zlen (contents (writing_buffer d)) < 2 ^ 63 ->
  wp u (flush_messages fd d) s (fun '(ret, fd', d') s' =>
    ret = zlen (contents (writing_buffer d)) /\
    fd_out fd' = fd_out fd ++ contents (writing_buffer d) /\
    fd_in fd' = fd_in fd /\ fd_rplan fd' = fd_rplan fd /\ writes_succeed fd' /\
    d' = set_writing (writing_buffer d') d /\ buffer_inv (writing_buffer d') /\
    contents (writing_buffer d') = [] /\
    owns (writing_buffer d') ⊆ owns (writing_buffer d) /\
    cm_inv u (left_over L (writing_buffer d) (writing_buffer d')) s').
Proof.
  intros Hinv Hb HL Hwr Hsz. unfold flush_messages.
  pose proof (zlen_nonneg (contents (writing_buffer d))).
  rw buffer_size_spec; [by apply shape_all, Hb|lia|].
  destruct (Z.ltb_spec 0 (zlen (contents (writing_buffer d)))) as [Hpos|Hz].
  - wp_use write_from_buffer_spec; [done|done|done|done|lia|].
    intros [[ret fd'] b'] s1 (-> & Hout & ? & ? & ? & Hc & Hb' & Ho & Hinv1). apply wp_ret.
    rw Z.sub_0_r in Hout, Hc |- *. rw Z.add_0_l take_ge in |- *; [zl|].
    rw take_ge in Hout; [zl|]. rw drop_ge in Hc; [zl|]. done.
  - apply wp_ret. assert (contents (writing_buffer d) = []) as Hc.
    { apply nil_length_inv. unfold zlen in *. lia. }
    rw Hc app_nil_r left_over_refl //. split_and!; try done. by destruct d.
Qed.

Lemma release_spec u L s d :
  cm_inv u L s -> client_inv d -> client_owns d ⊆ L ->
  wp u (release_client_info (Some d)) s (fun r s' => r = SUCC /\ cm_inv u (L ∖ client_owns d) s').
Proof.
  intros Hinv [Hr Hw Hd _ _ _] HL. unfold client_owns in *. unfold release_client_info.
  wp_use destroy_spec; [done|done|set_solver|]. intros ? s1 [_ Hinv1].
  wp_use destroy_spec; [done|done|set_solver|]. intros ? s2 [_ Hinv2]. apply wp_ret.
  split; [done|]. by rw -difference_difference_l_L.
Qed.
End specs.
