(* ===== verification/CacheTheorems.v ===== *)
(** * What the cache pool guarantees

    The properties of src/io/cache.c. *)
From S2P Require Import Prelude CLib Alloc Cache.

(** A request of up to 2048 bytes is served by a cache of the
    least documented size that fits, zero-filled, at an address nobody holds;
    this holds whatever static memory follows [specified_cache_size]. *)
Theorem get_new_cache_fits L s n :
  pool_inv false L s -> n <= 2048 ->
  exists c s', get_new_cache n s = Ret (Some c, s') /\ cache_fresh n c /\ (cid c ∉ L) /\
    pool_inv false ({[cid c]} ∪ L) s'.
Proof.
  intros Hinv Hn. destruct (wp_total _ _ _ (get_spec false L s n Hinv Hn))
    as (oc & s' & Hrun & c & -> & H). by exists c, s'.
Qed.

(** What every call keeps of a pool that may go wrong. *)
Record pool_at (readable : bool) (after : list Z) (L : gset Z) (s : mem) : Prop := {
  pa_inv : pool_inv true L s;
  pa_static : static_ints s = size_classes ++ after;
  pa_readable : m_freed_readable s = readable;
}.

Lemma same_machine_at readable after L L' s s' :
  pool_at readable after L s -> same_machine s s' -> pool_inv true L' s' -> pool_at readable after L' s'.
Proof. intros [_ Hst Hr] [Hst' Hr'] ?. constructor; congruence. Qed.

Lemma get_at readable after L s n :
  pool_at readable after L s -> wp true (get_new_cache n) s (fun oc s' =>
    pool_at readable after (handed_out oc L) s' /\
    forall c, oc = Some c -> (cid c ∉ L) /\ n <= allocated_size c /\ cache_size c = n /\ buff c = zeros (allocated_size c)).
Proof.
  intros Hp. pose proof (pa_static _ _ _ _ Hp) as Hst. pose proof (pa_inv _ _ _ _ Hp) as Hi.
  eapply wp_mono; [apply wp_and|]; [by apply (get_any_spec true L s n after)|..].
  { intros oc s' Hr. exact (wp_partial _ _ _ _ _ _ (get_machine n s) Hr). }
  intros oc s' [H Hm]. cbv beta in Hm. destruct (list_find _ _) as [[i z]|] eqn:Hf.
  - destruct H as (c & -> & Hsz & Hn & Hb & HL & Hs). apply list_find_Some in Hf as (_ & Hz & _).
    split; [by eapply same_machine_at|]. intros c' [= <-]. by rw Hsz.
  - destruct H as [-> Hs]. split; [by eapply same_machine_at|done].
Qed.

Lemma cache_step_at readable after x tr y :
  cache_step x tr y -> pool_at readable after x.1 x.2 -> pool_at readable after y.1 y.2.
Proof.
  destruct 1 as [L s n oc s' Hr|L s c r s' HL Hlen Hr|L s n ob s' Hr]; cbn [fst snd]; intros Hp.
  - by destruct (wp_partial _ _ _ _ _ _ (get_at readable after L s n Hp) Hr).
  - destruct (wp_partial _ _ _ _ _ _ (recycle_any_spec true L s c (pa_inv _ _ _ _ Hp) HL Hlen) Hr) as [_ Hs].
    eapply same_machine_at; [done| |done]. exact (wp_partial _ _ _ _ _ _ (recycle_machine c s) Hr).
  - destruct (wp_partial _ _ _ _ _ _ (malloc_spec true s n (pi_plan _ _ _ (pa_inv _ _ _ _ Hp))) Hr) as ((p & ->) & Hpl & _).
    eapply same_machine_at; [done|done|]. by apply pool_inv_plan, Hpl; apply Hp.
Qed.

Lemma cache_run_at readable after x y :
  cache_run x y -> pool_at readable after x.1 x.2 -> pool_at readable after y.1 y.2.
Proof. induction 1 as [|x tr y z _ IH Hs]; [done|]. intros Hx. eapply cache_step_at; [exact Hs|by apply IH]. Qed.

(** What makes a call of cache.c go wrong. *)
Definition hazard (s : mem) : Prop :=
  false ∈ m_plan s \/ m_freed_readable s = false \/ (length (static_ints s) < sizeof_specified)%nat.

Lemma no_hazard readable after L s : pool_at readable after L s -> ~ hazard s -> pool_inv false L s.
Proof.
  intros [[(after' & Hst & _) ? ? ? ? ? ? _ _] _ _] Hno. constructor; try done.
  - exists after'. split; [done|]. intros _. unfold hazard in Hno. rw Hst length_app /sizeof_specified in Hno.
    cbn in Hno. lia.
  - intros _. destruct (m_freed_readable s) eqn:Hr; [done|]. destruct Hno. right. by left.
  - intros _. apply Forall_forall. intros [|] Hb; [done|]. destruct Hno. by left.
Qed.

Lemma hazard_dec s : hazard s \/ ~ hazard s.
Proof.
  unfold hazard. destruct (decide (false ∈ m_plan s)); [by left; left|].
  destruct (m_freed_readable s); [|by left; right; left].
  destruct (decide (length (static_ints s) < sizeof_specified)%nat); [by left; right; right|]. right. by intros [?|[?|?]].
Qed.

(** C24 (invariant): In every state that a sequence of calls from the start leads
    to - requests of any size, granted or refused, returns, [malloc]s of other
    modules that succeed or fail; whatever lies behind [specified_cache_size] and
    whether or not freed nodes can still be read - the pool is well formed: no
    cache is twice in the free lists, none that is handed out is in them, and free
    caches are zero.  The next request, if it returns a cache, returns one that
    nobody holds, wiped and large enough.  The next request or return is never
    endless, and is undefined only when an allocation still to come fails, when
    a freed node cannot be read (line 92), or when less than 24 ints can be read
    from the array on (line 41). *)
Theorem cache_run_invariant plan readable after L s :
  cache_run (∅, initial_mem plan readable after) (L, s) ->
  pool_inv true L s /\
  (forall n c s', get_new_cache n s = Ret (Some c, s') ->
     (cid c ∉ L) /\ n <= allocated_size c /\ buff c = zeros (allocated_size c)) /\
  (forall n, (exists r s', get_new_cache n s = Ret (r, s')) \/ get_new_cache n s = UB /\ hazard s) /\
  (forall c, cid c ∈ L -> zlen (buff c) = allocated_size c ->
     (exists r s', recycle_cache c s = Ret (r, s')) \/ recycle_cache c s = UB /\ hazard s).
Proof.
  intros Hrun. assert (pool_at readable after L s) as Hp.
  { apply (cache_run_at readable after _ _ Hrun). constructor; [by apply initial_inv|done..]. }
  assert (forall A (m : M mem A), (forall u, pool_inv u L s -> wp u m s (fun _ _ => True)) ->
    (exists r s', m s = Ret (r, s')) \/ m s = UB /\ hazard s) as Hgo.
  { intros A m Hm. destruct (hazard_dec s) as [Hh|Hno].
    - specialize (Hm true (pa_inv _ _ _ _ Hp)). unfold wp in Hm. destruct (m s) as [[r s']| |]; [left; by eexists _, _|by right|done].
    - destruct (wp_total _ _ _ (Hm false (no_hazard _ _ _ _ Hp Hno))) as (r & s' & Hr & _). left. by eexists _, _. }
  split_and!.
  - apply Hp.
  - intros n c s' Hr. destruct (wp_partial _ _ _ _ _ _ (get_at readable after L s n Hp) Hr) as [_ Hc].
    by destruct (Hc c eq_refl) as (? & ? & _ & ?).
  - intros n. apply Hgo. intros u Hu. eapply wp_mono; [eapply get_any_spec; [done|by apply Hp]|done].
  - intros c HL Hlen. apply Hgo. intros u Hu. eapply wp_mono; [by apply recycle_any_spec|done].
Qed.

(** The classes exist after the first call, and the call that makes sure of it
    then changes nothing. *)
Lemma make_sure_done u L s :
  pool_inv u L s -> has_classes s -> make_sure_cache_mm s = Ret (tt, s).
Proof.
  intros Hinv Hcls. unfold make_sure_cache_mm, mbind, M_bind, getS.
  destruct (available_cache_node s) as [|cl l] eqn:Hav; [|done].
  destruct (classes_static _ _ _ Hinv Hcls) as [after Hsz]. by rw Hav in Hsz.
Qed.

Lemma malloc_unchecked_run u L s n :
  pool_inv u L s -> u = false -> exists b p, malloc_unchecked n s = Ret (b, set_plan p s) /\
    zlen b = Z.max 0 n /\ pool_inv u L (set_plan p s).
Proof.
  intros Hinv ->. destruct (wp_total _ _ _ (malloc_unchecked_spec false s n (pi_plan _ _ _ Hinv)))
    as (b & s' & Hrun & (p & ->) & Hp & Hb).
  exists b, p. split_and!; try done. by apply pool_inv_plan.
Qed.

(** The first class that fits a request is the first of its size. *)
Lemma find_same (l : list SizeList) i cl after n :
  allocated_cache_size <$> l = take sizeof_specified (size_classes ++ after) ->
  allocated_cache_size cl ∈ size_classes -> n <= allocated_cache_size cl ->
  (forall k, k ∈ size_classes -> n <= k -> allocated_cache_size cl <= k) ->
  list_find (fun x => allocated_cache_size x = allocated_cache_size cl) l = Some (i, cl) ->
  list_find (fun x => n <= allocated_cache_size x) l = Some (i, cl).
Proof.
  intros Hl Hcl Hn Hleast Hf. apply list_find_Some in Hf as (Hi & _ & Hfst).
  assert (n <= 2048) as Hn2.
  { rw /size_classes list_elem_of_In /= in Hcl. lia. }
  destruct (find_least l after n Hl Hn2) as (j & cl2 & Hf2 & Hc2 & Hfit & Hl2).
  apply list_find_Some in Hf2 as (Hj & _ & Hfst2). apply list_find_Some. split_and!; try done.
  intros k x Hk Hki Hfitx.
  assert (allocated_cache_size cl2 = allocated_cache_size cl) as Heq.
  { apply Z.le_antisymm; auto. }
  destruct (decide (j < i)%nat) as [Hji|Hji]; [by eapply (Hfst j)|].
  by eapply (Hfst2 k x); [|lia|].
Qed.

(** A recycled cache is what the next request of its class gets:
    same block, wiped. *)
Theorem recycle_then_get L s c n :
  pool_inv false L s -> has_classes s -> cid c ∈ L -> cache_ok c ->
  n <= allocated_size c -> (forall k, k ∈ size_classes -> n <= k -> allocated_size c <= k) ->
  (forall c', c' ∈ pooled s -> allocated_size c' <> allocated_size c) ->
  exists s1 s2, recycle_cache c s = Ret (SUCC, s1) /\
    get_new_cache n s1 =
      Ret (Some (mkCache (cid c) (allocated_size c) n (zeros (allocated_size c))), s2) /\
    pool_inv false L s2.
Proof.
  intros Hinv Hcls HcL Hok Hn Hleast Hnone. destruct Hok as [Hcl Hlen].
  destruct (classes_static _ _ _ Hinv Hcls) as [after Hsz].
  destruct (find_exact _ _ _ Hsz Hcl) as (i & cl & Hf).
  pose proof Hf as (Hi & Heq & _)%list_find_Some.
  assert (0 <= allocated_size c) as Hpos by (rw -Hlen; apply zlen_nonneg).
  assert (clist cl = []) as Hempty.
  { destruct (clist cl) as [|c' rest] eqn:Hcl'; [done|]. exfalso. apply (Hnone c').
    - apply list_elem_of_bind. exists cl. split; [rw Hcl'; apply list_elem_of_here|].
      by eapply list_elem_of_lookup_2.
    - assert (class_ok cl) as Hco by (eapply Forall_lookup_1; [by eapply pi_pooled|done]).
      rw /class_ok Hcl' in Hco. apply Forall_cons in Hco as [[-> _] _]. done. }
  destruct (malloc_unchecked_run _ _ _ 24 Hinv eq_refl) as (b & p & Hmal & _ & Hinv1).
  set (c1 := mkCache (cid c) (allocated_size c) 0 (zeros (allocated_size c))).
  pose proof (pool_inv_give false L (set_plan p s) i cl c1 Hinv1 Hi HcL (eq_sym Heq) eq_refl) as Hinv2.
  rw Hempty in Hinv2. set (s1 := replace_class i [c1] cl (set_plan p s)) in *.
  assert (recycle_cache c s = Ret (SUCC, s1)) as Hrec.
  { unfold recycle_cache, mbind, M_bind. rw (make_sure_done _ _ _ Hinv Hcls). cbn.
    rw mem_write_all; [rw zlen_zeros; lia|]. cbn. rw Hf Hmal. cbn. by rw Hempty. }
  exists s1. assert (has_classes s1) as Hcls1.
  { rw /has_classes /s1 replace_class_sizes //. }
  assert (available_cache_node s1 !! i = Some (mkSizeList (allocated_cache_size cl) [c1])) as Hi1.
  { apply list_lookup_insert_eq. by eapply lookup_lt_Some. }
  assert (list_find (fun x => n <= allocated_cache_size x) (available_cache_node s1) =
    Some (i, mkSizeList (allocated_cache_size cl) [c1])) as Hf1.
  { eapply (find_same _ _ _ after);
      [rw -Hsz; apply (replace_class_sizes i [c1] cl (set_plan p s) Hi)|by rw /= Heq..|].
    - cbn [allocated_cache_size]. rw Heq. destruct (find_exact (available_cache_node s1) after (allocated_size c)) as (j & cl2 & Hf2);
        [rw -Hsz; apply (replace_class_sizes i [c1] cl (set_plan p s) Hi)|done|].
      pose proof Hf2 as (Hj & Heq2 & Hfst2)%list_find_Some.
      apply list_find_Some in Hf as (_ & _ & Hfst). apply list_find_Some.
      split_and!; [rw -Heq; exact Hi1|done|]. intros k x Hk Hki Hx. eapply (Hfst k); [|done|exact Hx].
      rw /s1 /= list_lookup_insert_ne in Hk; [lia|done]. }
  destruct (pool_inv_take _ _ _ _ _ c1 [] Hinv2 Hi1 eq_refl) as (_ & Hinv3 & _).
  eexists. split_and!; [exact Hrec| |].
  - unfold get_new_cache, mbind, M_bind. rw (make_sure_done _ _ _ Hinv2 Hcls1). cbn.
    cbn in Hf1. rw Hf1 /=. by rw (pi_readable _ _ _ Hinv eq_refl).
  - replace L with ({[cid c1]} ∪ L ∖ {[cid c]}); [exact Hinv3|].
    simpl. symmetry. apply union_difference_L. set_solver.
Qed.

(** The loop that fills the size classes runs over the 24 bytes of
    the array as if they were elements: eighteen classes get their size from
    whatever static memory follows, and for a request above 2048 bytes that
    memory alone decides whether there is a cache. *)
Theorem oversized_request after n :
  (18 <= length after)%nat -> 2048 < n ->
  exists oc s', get_new_cache n (initial_mem [] true after) = Ret (oc, s') /\
    allocated_cache_size <$> available_cache_node s' = size_classes ++ take 18 after /\
    (oc = None <-> Forall (fun z => z < n) (take 18 after)).
Proof.
  intros Ha Hn.
  destruct (wp_total _ _ _ (make_sure_spec false ∅ _ (initial_inv [] true after false (fun _ => conj Ha (conj eq_refl (Forall_nil_2 _))))))
    as (x & s1 & Hms & Hinv1 & Hcls & Hpool & _).
  assert (allocated_cache_size <$> available_cache_node s1 = size_classes ++ take 18 after) as Hsz.
  { assert (static_ints s1 = size_classes ++ after) as Hst.
    { revert Hms. unfold make_sure_cache_mm, mbind, M_bind. cbn [getS].
      destruct (wp_total _ _ _ (add_classes_spec false (initial_mem [] true after) 0
        (fun _ => Forall_nil_2 _) ltac:(intros _; rw /= /sizeof_specified; lia) eq_refl ltac:(lia)))
        as (y & s2 & Hrun & p & -> & _).
      rw /sizeof_specified in Hrun |- *. cbn [available_cache_node initial_mem].
      change (24 - 0)%nat with 24%nat in Hrun. rw Hrun. by intros [= _ <-]. }
    rw Hcls Hst /sizeof_specified. done. }
  assert (forall cl, cl ∈ available_cache_node s1 -> clist cl = []) as Hempty.
  { intros cl Hcl. destruct (clist cl) as [|c l] eqn:Hl; [done|]. exfalso.
    assert (c ∈ pooled s1) as Hc.
    { apply list_elem_of_bind. exists cl. split; [rw Hl; apply list_elem_of_here|done]. }
    rw Hpool in Hc. by apply not_elem_of_nil in Hc. }
  unfold get_new_cache, mbind, M_bind. rw Hms. cbn [getS].
  assert (list_find (fun z => n <= z) (take 18 after) = None <-> Forall (fun z => z < n) (take 18 after)) as Hnone.
  { rw list_find_None. split; intros H; (eapply Forall_impl; [exact H|]); intros; simpl in *; lia. }
  assert (list_find (fun cl => n <= allocated_cache_size cl) (available_cache_node s1) = None <->
    Forall (fun z => z < n) (take 18 after)) as Hiff.
  { rw -Hnone !list_find_None.
    assert (Forall (fun cl => ~ n <= allocated_cache_size cl) (available_cache_node s1) <->
      Forall (fun z => ~ n <= z) (allocated_cache_size <$> available_cache_node s1)) as ->
      by rw Forall_fmap //.
    rw Hsz Forall_app. split; [by intros [_ ?]|]. intros; split; [|done].
    repeat constructor; lia. }
  destruct (list_find _ (available_cache_node s1)) as [[i cl]|] eqn:Hf.
  - pose proof Hf as (Hi & Hfit & _)%list_find_Some.
    rw Hempty; [by eapply list_elem_of_lookup_2|].
    destruct (malloc_unchecked_run _ _ _ 24 Hinv1 eq_refl) as (b1 & p1 & -> & _ & Hinv2).
    destruct (malloc_unchecked_run _ _ _ 16 Hinv2 eq_refl) as (b2 & p2 & -> & _ & Hinv3).
    destruct (malloc_unchecked_run _ _ _ (allocated_cache_size cl) Hinv3 eq_refl)
      as (b3 & p3 & -> & Hb3 & _).
    rw mem_write_all; [rw zlen_zeros Hb3; lia|]. eexists _, _. split; [done|]. split; [done|].
    split; [done|]. intros Hc%Hiff. done.
  - eexists _, _. split; [done|]. split; [done|]. split; [|done]. intros _. by apply Hiff.
Qed.

(** ** Concrete runs *)

Lemma get_new_cache_fits_witness :
  exists c s', get_new_cache 100 mem0 = Ret (Some c, s') /\ cache_fresh 100 c /\
    (cid c ∉ (∅ : gset Z)) /\ pool_inv false ({[cid c]} ∪ ∅) s'.
Proof. apply (get_new_cache_fits ∅ mem0 100); [apply mem0_inv|lia]. Defined.

Definition mem1 : mem :=
  match get_new_cache 100 mem0 with Ret (_, s) => s | _ => mem0 end.
Definition cache1 : Cache := mkCache 0 128 100 (zeros 128).

Lemma mem1_run : get_new_cache 100 mem0 = Ret (Some cache1, mem1).
Proof. by vm_compute. Qed.

Lemma mem1_inv : pool_inv false {[0]} mem1 /\ has_classes mem1.
Proof.
  destruct (wp_total _ _ _ (get_spec false ∅ mem0 100 (mem0_inv _) ltac:(lia)))
    as (oc & s & Hrun & c & -> & _ & _ & Hs).
  rw mem1_run in Hrun. apply ret_inj in Hrun as [[= <-] <-]. rw right_id_L in Hs.
  split; [exact Hs|]. by vm_compute.
Qed.

(** A request, a [malloc] that fails, and a request that nothing can serve. *)
Definition failing_plan : list bool := replicate 27 true ++ [false].
Definition mem2 : mem :=
  match get_new_cache 100 (initial_mem failing_plan true (replicate 18 0)) with Ret (_, s) => s | _ => mem0 end.
Definition mem3 : mem := match malloc 5 mem2 with Ret (_, s) => s | _ => mem0 end.

Lemma cache_run_invariant_witness :
  pool_inv true ({[0]} ∪ ∅) mem3 /\
  (forall n c s', get_new_cache n mem3 = Ret (Some c, s') ->
     (cid c ∉ ({[0]} ∪ ∅ : gset Z)) /\ n <= allocated_size c /\ buff c = zeros (allocated_size c)) /\
  (forall n, (exists r s', get_new_cache n mem3 = Ret (r, s')) \/ get_new_cache n mem3 = UB /\ hazard mem3) /\
  (forall c, cid c ∈ ({[0]} ∪ ∅ : gset Z) -> zlen (buff c) = allocated_size c ->
     (exists r s', recycle_cache c mem3 = Ret (r, s')) \/ recycle_cache c mem3 = UB /\ hazard mem3).
Proof.
  apply (cache_run_invariant failing_plan true (replicate 18 0)).
  eapply run_step; [eapply run_step; [eapply run_step; [apply run_nil|]|]|].
  - by apply (step_get ∅ _ 100 (Some cache1) mem2); vm_compute.
  - by apply (step_malloc _ _ 5 None mem3); vm_compute.
  - by apply (step_get _ _ 4096 None mem3); vm_compute.
Defined.

Lemma recycle_then_get_witness :
  exists s1 s2, recycle_cache cache1 mem1 = Ret (SUCC, s1) /\
    get_new_cache 65 s1 = Ret (Some (mkCache 0 128 65 (zeros 128)), s2) /\
    pool_inv false {[0]} s2.
Proof.
  apply (recycle_then_get {[0]} mem1 cache1 65);
    [apply mem1_inv|apply mem1_inv|by apply elem_of_singleton| |by vm_compute| |].
  - split; [|by vm_compute]. rw /size_classes list_elem_of_In /=. tauto.
  - intros k Hk Hle. rw /size_classes list_elem_of_In /= in Hk. simpl. lia.
  - intros c' Hc'. by vm_compute in Hc'; apply not_elem_of_nil in Hc'.
Defined.

Lemma oversized_request_witness :
  (exists oc s', get_new_cache 4096 (initial_mem [] true (replicate 17 0 ++ [5000])) = Ret (oc, s') /\
    allocated_cache_size <$> available_cache_node s' =
      size_classes ++ take 18 (replicate 17 0 ++ [5000]) /\
    (oc = None <-> Forall (fun z => z < 4096) (take 18 (replicate 17 0 ++ [5000])))).
Proof.
  apply (oversized_request (replicate 17 0 ++ [5000]) 4096); [by vm_compute; lia|lia].
Defined.
