(* ===== verification/BufferTheorems.v ===== *)
(** * What the buffer guarantees

    The properties of src/io/buffer.c, each with a run on a concrete pool. *)
From Stdlib Require Import Strings.Byte String.
From S2P Require Import Prelude CLib Alloc Cache Buffer.

Section theorems.
Context {S : Type} `{!CacheModule S} `{!CacheModuleLaws S}.
Implicit Types (s : S) (L : gset Z) (b : InnerBuffer).

(** C20 (functional): when no allocation fails, [write_into_buffer] terminates,
    reports all [n] bytes and appends exactly them, over however many nodes;
    the buffer stays well formed and owns only what it was handed out. *)
Theorem write_into_buffer_appends L s b src n :
  cm_inv false L s -> buffer_inv b -> owns b ⊆ L -> 0 < n < 2 ^ 31 -> n <= zlen src ->
  exists b' s', write_into_buffer b src n s = Ret ((n, b'), s') /\
    contents b' = contents b ++ take (Z.to_nat n) src /\
    buffer_inv b' /\ cm_inv false (L ∪ owns b') s'.
Proof.
  intros Hinv Hb HL Hn Hlen.
  destruct (wp_total _ _ _ (fill_buffer_spec memcpy_transfer id memcpy_enough true
    memcpy_transfer_spec false L s b n src Hinv Hb HL Hn Hlen)) as ([[ret src'] b'] & s' & Hrun & Hr).
  exists b', s'. destruct Hr as [(? & _)|(data & L' & -> & _ & Hv & Hc & Hb' & Hs' & _ & _ & HL' & _ & _ & Hex & _)];
    [done|].
  specialize (Hex eq_refl eq_refl). rw Hex in Hrun.
  rw /write_into_buffer /mbind /M_bind Hrun. rw -HL' //; [intros ->; rw zlen_nil in Hex; lia|].
  split_and!; try done. rw /= in Hv. rw Hc Hv -Hex /zlen Nat2Z.id take_app_length //.
Qed.

(** Whatever allocations fail, [write_into_buffer] terminates, and
    when it returns it either reports -1 and leaves the buffer as it was, or
    reports the size of the prefix it appended. *)
Theorem write_into_buffer_partial L s b src n :
  cm_inv true L s -> buffer_inv b -> owns b ⊆ L -> 0 < n < 2 ^ 31 -> n <= zlen src ->
  write_into_buffer b src n s <> OutOfFuel /\
  forall ret b' s', write_into_buffer b src n s = Ret ((ret, b'), s') ->
    (ret = SIZE_MAX /\ b' = b) \/
    (0 <= ret <= n /\ contents b' = contents b ++ take (Z.to_nat ret) src /\ buffer_inv b').
Proof.
  intros Hinv Hb HL Hn Hlen.
  pose proof (fill_buffer_spec memcpy_transfer id memcpy_enough true
    memcpy_transfer_spec true L s b n src Hinv Hb HL Hn Hlen) as Hwp.
  rw /write_into_buffer /mbind /M_bind. rw /wp in Hwp.
  destruct (fill_buffer _ _ _ _ s) as [[[[ret src'] b'] s']| |]; [|done..].
  split; [done|]. intros ? ? ? [= <- <- <-].
  destruct Hwp as [(_ & -> & _ & -> & _)|(data & L' & -> & ? & Hv & Hc & Hb' & _)]; [by left|].
  right. pose proof (zlen_nonneg data). rw /= in Hv.
  split_and!; try done. rw Hc Hv /zlen Nat2Z.id take_app_length //.
Qed.

(** C29 (functional): reading from a descriptor whose reads succeed, however
    short they are, moves the bytes read to the end of the buffer: none is lost,
    repeated or reordered, and the descriptor's output side is untouched. *)
Theorem read_into_buffer_appends L s b fd n :
  cm_inv false L s -> buffer_inv b -> owns b ⊆ L -> 0 < n < 2 ^ 31 -> reads_succeed fd ->
  exists ret fd' b' s', read_into_buffer fd b n s = Ret ((ret, fd', b'), s') /\
    ((ret = SIZE_MAX /\ fd' = fd /\ b' = b) \/
     exists data, ret = zlen data /\ ret <= n /\ fd_in fd = data ++ fd_in fd' /\
       contents b' = contents b ++ data) /\
    buffer_inv b' /\ fd_out fd' = fd_out fd /\ fd_wplan fd' = fd_wplan fd /\
    exists L', cm_inv false L' s' /\ owns b' ⊆ L'.
Proof.
  intros Hinv Hb HL Hn Hr.
  destruct (wp_total _ _ _ (fill_buffer_spec read_transfer fd_in
    (fd_frame (fd_out fd) (fd_wplan fd)) false (read_transfer_spec _ _) false L s b n fd Hinv Hb HL Hn
    (conj Hr (conj eq_refl eq_refl)))) as ([[ret fd'] b'] & s' & Hrun & Hpost).
  exists ret, fd', b', s'. split; [exact Hrun|].
  destruct Hpost as [(? & _)|(data & L' & -> & Hle & Hv & Hc & Hb' & Hs' & _ & HL' & _ & _ & _ & _ & _ & Ho & Hw)];
    [done|].
  split; [right; by exists data|]. split_and!; try done. by exists L'.
Qed.

(** [read_into_buffer] takes all [n] bytes when the kernel has
    them and serves each call in full. *)
Theorem read_into_buffer_all L s b fd n :
  cm_inv false L s -> buffer_inv b -> owns b ⊆ L -> 0 < n < 2 ^ 31 ->
  fd_rplan fd = [] -> n <= zlen (fd_in fd) ->
  exists b' s', read_into_buffer fd b n s =
      Ret ((n, mkFd (drop (Z.to_nat n) (fd_in fd)) [] (fd_out fd) (fd_wplan fd), b'), s') /\
    contents b' = contents b ++ take (Z.to_nat n) (fd_in fd) /\
    buffer_inv b' /\ cm_inv false (L ∪ owns b') s'.
Proof.
  intros Hinv Hb HL Hn Hr Hlen.
  destruct (wp_total _ _ _ (fill_buffer_spec read_transfer fd_in
    (fd_full (fd_out fd) (fd_wplan fd)) true (read_transfer_full _ _) false L s b n fd Hinv Hb HL Hn
    (conj Hr (conj Hlen (conj eq_refl eq_refl))))) as ([[ret fd'] b'] & s' & Hrun & Hpost).
  destruct Hpost as [(? & _)|(data & L' & -> & _ & Hv & Hc & Hb' & Hs' & _ & _ & HL' & _ & _ & Hex & He)];
    [done|].
  specialize (Hex eq_refl eq_refl). destruct He as (Hrp & _ & Ho & Hw).
  exists b', s'. rw HL' in Hs'; [intros ->; rw zlen_nil in Hex; lia|].
  assert (take (Z.to_nat n) (fd_in fd) = data /\ drop (Z.to_nat n) (fd_in fd) = fd_in fd') as [-> ->].
  { rw Hv -Hex /zlen Nat2Z.id take_app_length drop_app_length //. }
  rw Hex in Hrun. destruct fd' as [i r o w]; simpl in *. subst r o w.
  split_and!; [exact Hrun|done..].
Qed.

(** C21 (functional): [read_from_buffer] is a FIFO read: it returns the first
    [n] bytes held (all of them when there are fewer), in a block of exactly
    that size, keeps the rest, and gives back the caches it empties. *)
Theorem read_from_buffer_fifo L s b n :
  cm_inv false L s -> buffer_inv b -> owns b ⊆ L -> 0 <= n < 2 ^ 63 ->
  zlen (contents b) < 2 ^ 63 ->
  exists b' s', read_from_buffer b n s =
      Ret ((Z.min n (zlen (contents b)), take (Z.to_nat n) (contents b), b'), s') /\
    contents b' = drop (Z.to_nat n) (contents b) /\
    buffer_inv b' /\ cm_inv false (left_over L b b') s'.
Proof.
  intros Hinv Hb HL Hn Hlen.
  destruct (wp_total _ _ _ (read_from_buffer_spec false L s b n Hinv Hb HL Hn Hlen))
    as ([[ret t] b'] & s' & Hrun & -> & -> & Hc & Hb' & _ & Hs').
  by exists b', s'.
Qed.

(** C22 (roundtrip): what is written is read back: after a write of [n] bytes a
    read of everything returns the old contents followed by those bytes and
    leaves the buffer empty. *)
Theorem write_then_read L s b src n :
  cm_inv false L s -> buffer_inv b -> owns b ⊆ L -> 0 < n < 2 ^ 31 -> n <= zlen src ->
  zlen (contents b) < 2 ^ 31 ->
  exists b1 s1 b2 s2,
    write_into_buffer b src n s = Ret ((n, b1), s1) /\
    read_from_buffer b1 (zlen (contents b) + n) s1 =
      Ret ((zlen (contents b) + n, contents b ++ take (Z.to_nat n) src, b2), s2) /\
    contents b2 = [] /\ cm_inv false (left_over (L ∪ owns b1) b1 b2) s2.
Proof.
  intros Hinv Hb HL Hn Hlen Hc. pose proof (zlen_nonneg (contents b)).
  destruct (wp_total _ _ _ (fill_buffer_spec memcpy_transfer id memcpy_enough true
    memcpy_transfer_spec false L s b n src Hinv Hb HL Hn Hlen)) as ([[ret src'] b1] & s1 & Hrun & Hr).
  destruct Hr as [(? & _)|(data & L' & -> & _ & Hv & Hc1 & Hb1 & Hs1 & _ & Ho1 & HL' & _ & _ & Hex & _)];
    [done|].
  specialize (Hex eq_refl eq_refl). rw HL' in Hs1, Ho1; [intros ->; rw zlen_nil in Hex; lia|].
  assert (zlen (contents b1) = zlen (contents b) + n) as Hl1 by (rw Hc1 zlen_app Hex //).
  destruct (wp_total _ _ _ (read_from_buffer_spec false (L ∪ owns b1) s1 b1 (zlen (contents b) + n)
    Hs1 Hb1 Ho1 ltac:(lia) ltac:(lia))) as ([[ret t] b2] & s2 & Hrun2 & -> & -> & Hc2 & _ & _ & Hs2).
  exists b1, s1, b2, s2. rw Hex in Hrun. rw /write_into_buffer /mbind /M_bind Hrun.
  rw /= in Hv. rw Hrun2 Hl1 Z.min_id. split_and!; try done.
  - rw take_ge; [zl|]. rw Hc1 Hv -Hex /zlen Nat2Z.id take_app_length //.
  - rw Hc2. apply drop_ge. zl.
Qed.

(** C23 (functional): [write_from_buffer] delivers: when no write fails, the loop
    ends, whatever short writes the kernel makes, with the first [n] bytes of the
    buffer written in order and gone from it. *)
Theorem write_from_buffer_delivers L s b fd n :
  cm_inv false L s -> buffer_inv b -> owns b ⊆ L -> writes_succeed fd -> 0 <= n < 2 ^ 63 ->
  exists ret fd' b' s', write_from_buffer fd b n s = Ret ((ret, fd', b'), s') /\
    ret = Z.min n (zlen (contents b)) /\
    fd_out fd' = fd_out fd ++ take (Z.to_nat n) (contents b) /\
    fd_in fd' = fd_in fd /\
    contents b' = drop (Z.to_nat n) (contents b) /\
    buffer_inv b' /\ cm_inv false (left_over L b b') s'.
Proof.
  intros Hinv Hb HL Hwr Hn.
  destruct (wp_total _ _ _ (write_from_buffer_spec false L s fd b n Hinv Hb HL Hwr Hn))
    as ([[ret fd'] b'] & s' & Hrun & -> & Ho & Hi & _ & _ & Hc & Hb' & _ & Hs').
  rw Z.sub_0_r in Ho, Hc, Hrun. eexists _, fd', b', s'. split; [exact Hrun|].
  split_and!; try done. zl.
Qed.

(** C39 (error): a failed [write] is not noticed: its result -1 enters a
    [size_t], so the call reports [SIZE_MAX] and moves the read offset of the
    first node back by one.  From offset 0, the next flush reads outside the
    cache. *)
Theorem write_error_rewinds s n rest fd p size :
  node_ok n -> r_offset n < w_offset n -> fd_wplan fd = None :: p -> 0 < size < 2 ^ 63 ->
  write_from_buffer fd (n :: rest) size s =
    Ret ((SIZE_MAX, mkFd (fd_in fd) (fd_rplan fd) (fd_out fd) p,
          set_r (r_offset n - 1) n :: rest), s) /\
  (r_offset n = 0 -> forall fd', write_from_buffer fd' (set_r (-1) n :: rest) size s = UB).
Proof.
  intros Hn Hr Hp Hsz. destruct (no_offsets _ Hn) as [Hr0 Hr1]. pose proof (no_w _ Hn) as Hw.
  unfold CACHE_SIZE in *. split.
  - unfold write_from_buffer. cbn [Nat.add drain_loop].
    rw (proj2 (Z.ltb_lt 0 size)); [lia|]. rw node_size // min_u64_small; [lia|lia|].
    set (k := Z.min _ _). destruct (node_take n k Hn) as (-> & _ & _); [lia|].
    rw /mbind /M_bind /=. rw /sys_write Hp.
    change (u64 (-1)) with SIZE_MAX. change (SIZE_MAX <? 0) with false. cbn [set_r r_offset w_offset cache].
    assert (i32 (u64 (r_offset n + SIZE_MAX)) = r_offset n - 1) as ->.
    { unfold SIZE_MAX. destruct (decide (r_offset n = 0)) as [->|].
      - reflexivity.
      - replace (u64 _) with (r_offset n - 1); [apply i32_small; lia|].
        unfold u64. apply (Z.mod_unique _ _ 1); lia. }
    rw (proj2 (Z.eqb_neq _ _)); [lia|].
    change (u64 (0 + SIZE_MAX)) with SIZE_MAX. cbn [length Nat.add drain_loop].
    rw (proj2 (Z.ltb_ge SIZE_MAX size)) //. unfold SIZE_MAX. lia.
  - intros Hr2 fd'. unfold write_from_buffer. cbn [Nat.add drain_loop].
    rw (proj2 (Z.ltb_lt 0 size)); [lia|]. unfold NODE_SIZE. cbn [set_r r_offset w_offset cache].
    rw i32_small; [lia|]. rw min_u64_small; [lia|lia|].
    unfold mem_read. rw (proj2 (Z.eqb_neq _ _)); [lia|]. done.
Qed.

(** C40 (error): what a failed [read] does at its first call.  With an empty
    buffer the recovery code writes outside the buffer object; with a full last
    node it sets that node's write offset to -1; only with a partly filled last
    node is the buffer as before. *)
Theorem read_error_recovery L s b fd p size :
  cm_inv false L s -> fd_rplan fd = None :: p -> 0 < size < 2 ^ 63 ->
  (forall n, last b = Some n -> node_ok n) ->
  match last b with
  | None => read_into_buffer fd b size s = UB
  | Some n => exists s', read_into_buffer fd b size s =
      Ret ((SIZE_MAX, mkFd (fd_in fd) p (fd_out fd) (fd_wplan fd),
            removelast b ++ [set_w (if w_offset n =? CACHE_SIZE then -1 else w_offset n) n]), s')
  end.
Proof.
  intros Hinv Hp Hsz Hb. unfold read_into_buffer, fill_buffer, first_node.
  assert (forall st s1, fill_loop read_transfer (Datatypes.S (Z.to_nat size)) size 0 fd st s1 =
    Ret ((FillError (-1), mkFd (fd_in fd) p (fd_out fd) (fd_wplan fd), st), s1)) as Hloop.
  { intros st s1. cbn [fill_loop]. rw (proj2 (Z.ltb_lt 0 size)); [lia|].
    rw /mbind /M_bind /lift /read_transfer /sys_read Hp //. }
  destruct (wp_total _ _ _ (new_inner_node_spec false L s Hinv)) as ([nn|] & s1 & Hnew & Hnn);
    [|by destruct Hnn].
  destruct Hnn as ((Hnn & _) & _ & _ & HLn & Hs1).
  destruct (wp_total _ _ _ (recycle_node false ({[cid (cache nn)]} ∪ L) s1 nn Hs1 Hnn ltac:(set_solver)))
    as (r & s2 & Hrec & _).
  destruct (last b) as [n|] eqn:Hlast.
  - destruct (no_offsets _ (Hb _ eq_refl)). pose proof (no_w _ (Hb _ eq_refl)). unfold CACHE_SIZE in *.
    assert (b = removelast b ++ [n]) as Hrl.
    { apply last_Some in Hlast as [b' ->]. by rw removelast_last. }
    destruct (w_offset n =? 512).
    + exists s2. rw /mbind /M_bind Hnew /mret /M_ret Hloop /error_with_read /cur_list /cur_tmp.
      cbn [f_intmp f_list f_node f_tmp]. change (0 <=? u64 (-1)) with true. rw Hlast.
      rw /mbind /M_bind /mret /M_ret /= /mbind /M_bind Hrec. done.
    + exists s. rw /mbind /M_bind /mret /M_ret Hloop /error_with_read /cur_list /cur_tmp.
      cbn [f_intmp f_list f_node f_tmp]. rw u64_small; [lia|]. rw -Hrl Hlast.
      rw (proj2 (Z.leb_le 0 (w_offset n))); [lia|]. rw i32_small; [lia|]. done.
  - apply last_None in Hlast as ->.
    rw /mbind /M_bind Hnew /mret /M_ret Hloop. done.
Qed.

(** An empty request leaks: called with size 0 on an empty buffer
    (which [fetch_from_client] does when the peer has closed), the function takes
    a cache from the pool, returns 0, and neither keeps the cache in the buffer
    nor gives it back. *)
Theorem read_nothing_leaks L s fd :
  cm_inv false L s ->
  exists a s', read_into_buffer fd [] 0 s = Ret ((0, fd, []), s') /\
    (a ∉ L) /\ cm_inv false ({[a]} ∪ L) s'.
Proof.
  intros Hinv.
  destruct (wp_total _ _ _ (new_inner_node_spec false L s Hinv)) as ([nn|] & s1 & Hnew & Hnn);
    [|by destruct Hnn].
  destruct Hnn as (_ & _ & _ & HLn & Hs1). exists (cid (cache nn)), s1.
  split; [|done]. rw /read_into_buffer /fill_buffer /first_node /mbind /M_bind /= /mbind /M_bind Hnew //.
Qed.

(** [destroy_buffer] succeeds and gives every cache of the buffer
    back to the pool: nothing is leaked. *)
Theorem destroy_buffer_releases L s b :
  cm_inv false L s -> buffer_inv b -> owns b ⊆ L ->
  exists s', destroy_buffer b s = Ret (SUCC, s') /\ cm_inv false (L ∖ owns b) s'.
Proof.
  intros Hinv Hb HL.
  destruct (wp_total _ _ _ (destroy_spec false L s b Hinv Hb HL)) as (r & s' & Hrun & -> & Hs').
  by exists s'.
Qed.
End theorems.

(** [buffer_size] is the number of bytes held. *)
Theorem buffer_size_contents b :
  buffer_inv b -> zlen (contents b) < 2 ^ 64 -> buffer_size b = zlen (contents b).
Proof. intros Hb. apply buffer_size_spec, shape_all, Hb. Qed.

(** The default search function answers the wrong way round: a
    byte that occurs inside the searched range is reported as absent. *)
Theorem simple_index_func_inverted c pre post after :
  c <> nul -> c ∉ pre -> nul ∉ pre -> zlen pre < 2 ^ 63 ->
  simple_index_func c (pre ++ c :: post ++ after) (zlen (pre ++ c :: post)) = Ret SIZE_MAX.
Proof.
  intros Hc Hpre Hnul Hl. unfold simple_index_func.
  assert (strchr (pre ++ c :: post ++ after) c = Ret (Some (zlen pre))) as ->.
  { clear Hl. induction pre as [|x pre IH]; simpl; [by case_decide|].
    apply not_elem_of_cons in Hpre as [? Hpre]. apply not_elem_of_cons in Hnul as [? Hnul].
    repeat case_decide; try congruence. rw IH // /= zlen_cons. do 2 f_equal. lia. }
  simpl. rw (proj2 (Z.leb_gt _ _)) //. rw zlen_app zlen_cons. pose proof (zlen_nonneg post). lia.
Qed.

(** ** Concrete runs

    A pool that has handed out one 512-byte cache, and a buffer on it that holds
    three bytes. *)
Definition demo_mem : mem :=
  match get_new_cache 512 mem0 with
  | Ret (_, s) => s
  | _ => mem0
  end.
Definition demo_node : InnerNode :=
  mkNode 3 0 (mkCache 0 512 512 (bs "abc" ++ zeros 509)).

Lemma demo_inv : pool_inv false {[0]} demo_mem.
Proof.
  destruct (wp_total _ _ _ (get_spec false ∅ mem0 512 (mem0_inv _) ltac:(lia)))
    as (oc & s & Hrun & c & -> & _ & _ & Hs).
  unfold demo_mem. rw Hrun. rw right_id_L in Hs.
  assert (cid c = 0) as <-; [|done]. vm_compute in Hrun. by injection Hrun as <- <-.
Qed.

Lemma demo_node_ok : node_ok demo_node.
Proof. by split. Qed.

Lemma demo_buffer_inv : buffer_inv [demo_node].
Proof.
  split; [|apply NoDup_singleton]. apply (shape_snoc []); [done|].
  split; [apply demo_node_ok|]. by left.
Qed.

Lemma demo_owns : owns [demo_node] ⊆ {[0]}.
Proof. unfold owns. simpl. set_solver. Qed.

Definition line600 : bytes := replicate 600 x61.

Lemma write_into_buffer_appends_witness :
  exists b' s', write_into_buffer [demo_node] line600 600 demo_mem = Ret ((600, b'), s') /\
    contents b' = contents [demo_node] ++ take 600 line600 /\
    buffer_inv b' /\ cm_inv false ({[0]} ∪ owns b') s'.
Proof.
  apply (write_into_buffer_appends {[0]} demo_mem [demo_node] line600 600);
    [apply demo_inv|apply demo_buffer_inv|apply demo_owns|lia|by vm_compute].
Defined.

(** The second node's allocation fails. *)
Definition failing_mem : mem := initial_mem (replicate 28 true ++ [false]) true (replicate 18 0).

Lemma failing_inv : pool_inv true ∅ failing_mem.
Proof. by apply initial_inv. Qed.

Lemma write_into_buffer_partial_witness :
  (exists b' s', write_into_buffer [] line600 600 failing_mem = Ret ((512, b'), s')) /\
  write_into_buffer [] line600 600 failing_mem <> OutOfFuel /\
  forall ret b' s', write_into_buffer [] line600 600 failing_mem = Ret ((ret, b'), s') ->
    (ret = SIZE_MAX /\ b' = []) \/
    (0 <= ret <= 600 /\ contents b' = contents [] ++ take (Z.to_nat ret) line600 /\ buffer_inv b').
Proof.
  split; [eexists _, _; vm_compute; reflexivity|].
  apply (write_into_buffer_partial ∅ failing_mem [] line600 600);
    [apply failing_inv|by split; constructor|done|lia|by vm_compute].
Defined.

(** A descriptor that holds ten bytes and serves at most four at a time. *)
Definition demo_fd : fdesc := mkFd (bs "0123456789") [Some 4; Some 4] [] [].

Lemma read_into_buffer_appends_witness :
  exists ret fd' b' s', read_into_buffer demo_fd [demo_node] 10 demo_mem = Ret ((ret, fd', b'), s') /\
    ((ret = SIZE_MAX /\ fd' = demo_fd /\ b' = [demo_node]) \/
     exists data, ret = zlen data /\ ret <= 10 /\ fd_in demo_fd = data ++ fd_in fd' /\
       contents b' = contents [demo_node] ++ data) /\
    buffer_inv b' /\ fd_out fd' = fd_out demo_fd /\ fd_wplan fd' = fd_wplan demo_fd /\
    exists L', cm_inv false L' s' /\ owns b' ⊆ L'.
Proof.
  apply (read_into_buffer_appends {[0]} demo_mem [demo_node] demo_fd 10);
    [apply demo_inv|apply demo_buffer_inv|apply demo_owns|lia|by repeat constructor].
Defined.

Lemma read_into_buffer_all_witness :
  let fd := mkFd line600 [] [] [] in
  exists b' s', read_into_buffer fd [demo_node] 600 demo_mem =
      Ret ((600, mkFd (drop 600 line600) [] [] [], b'), s') /\
    contents b' = contents [demo_node] ++ take 600 line600 /\
    buffer_inv b' /\ cm_inv false ({[0]} ∪ owns b') s'.
Proof.
  apply (read_into_buffer_all {[0]} demo_mem [demo_node] (mkFd line600 [] [] []) 600);
    [apply demo_inv|apply demo_buffer_inv|apply demo_owns|lia|done|by vm_compute].
Defined.

Lemma read_from_buffer_fifo_witness :
  exists b' s', read_from_buffer [demo_node] 2 demo_mem =
      Ret ((Z.min 2 (zlen (contents [demo_node])), bs "ab", b'), s') /\
    contents b' = bs "c" /\
    buffer_inv b' /\ cm_inv false (left_over {[0]} [demo_node] b') s'.
Proof.
  apply (read_from_buffer_fifo {[0]} demo_mem [demo_node] 2);
    [apply demo_inv|apply demo_buffer_inv|apply demo_owns|lia|by vm_compute].
Defined.

Lemma write_then_read_witness :
  exists b1 s1 b2 s2,
    write_into_buffer [demo_node] line600 600 demo_mem = Ret ((600, b1), s1) /\
    read_from_buffer b1 (3 + 600) s1 = Ret ((603, bs "abc" ++ line600, b2), s2) /\
    contents b2 = [] /\ cm_inv false (left_over ({[0]} ∪ owns b1) b1 b2) s2.
Proof.
  apply (write_then_read {[0]} demo_mem [demo_node] line600 600);
    [apply demo_inv|apply demo_buffer_inv|apply demo_owns|lia|by vm_compute|by vm_compute].
Defined.

Lemma write_from_buffer_delivers_witness :
  let fd := mkFd [] [] [] [Some 1; Some 0] in
  exists ret fd' b' s', write_from_buffer fd [demo_node] 3 demo_mem = Ret ((ret, fd', b'), s') /\
    ret = Z.min 3 (zlen (contents [demo_node])) /\
    fd_out fd' = [] ++ bs "abc" /\ fd_in fd' = [] /\ contents b' = [] /\
    buffer_inv b' /\ cm_inv false (left_over {[0]} [demo_node] b') s'.
Proof.
  apply (write_from_buffer_delivers {[0]} demo_mem [demo_node] (mkFd [] [] [] [Some 1; Some 0]) 3);
    [apply demo_inv|apply demo_buffer_inv|apply demo_owns|by repeat constructor|lia].
Defined.

Lemma write_error_rewinds_witness :
  let fd := mkFd [] [] [] [None] in
  write_from_buffer fd [demo_node] 3 demo_mem =
    Ret ((SIZE_MAX, mkFd [] [] [] [], [set_r (-1) demo_node]), demo_mem) /\
  (0 = 0 -> forall fd', write_from_buffer fd' [set_r (-1) demo_node] 3 demo_mem = UB).
Proof.
  apply (write_error_rewinds demo_mem demo_node [] (mkFd [] [] [] [None]) [] 3);
    [apply demo_node_ok|done|done|lia].
Defined.

Lemma read_error_recovery_witness :
  let fd := mkFd line600 [None] [] [] in
  (exists s', read_into_buffer fd [set_w 512 demo_node] 600 demo_mem =
    Ret ((SIZE_MAX, mkFd line600 [] [] [], [set_w (-1) (set_w 512 demo_node)]), s')) /\
  read_into_buffer fd [] 600 demo_mem = UB.
Proof.
  split.
  - apply (read_error_recovery {[0]} demo_mem [set_w 512 demo_node] (mkFd line600 [None] [] []) [] 600);
      [apply demo_inv|done|lia|]. intros n [= <-]. by constructor.
  - apply (read_error_recovery {[0]} demo_mem [] (mkFd line600 [None] [] []) [] 600);
      [apply demo_inv|done|lia|done].
Defined.

Lemma read_nothing_leaks_witness :
  exists a s', read_into_buffer demo_fd [] 0 demo_mem = Ret ((0, demo_fd, []), s') /\
    (a ∉ ({[0]} : gset Z)) /\ cm_inv false ({[a]} ∪ {[0]}) s'.
Proof. apply (read_nothing_leaks {[0]} demo_mem demo_fd). apply demo_inv. Defined.

Lemma destroy_buffer_releases_witness :
  exists s', destroy_buffer [demo_node] demo_mem = Ret (SUCC, s') /\
    cm_inv false ({[0]} ∖ owns [demo_node]) s'.
Proof.
  apply (destroy_buffer_releases {[0]} demo_mem [demo_node]);
    [apply demo_inv|apply demo_buffer_inv|apply demo_owns].
Defined.

Lemma buffer_size_contents_witness : buffer_size [demo_node] = 3.
Proof.
  apply (buffer_size_contents [demo_node]); [apply demo_buffer_inv|by vm_compute].
Defined.

Lemma simple_index_func_inverted_witness :
  simple_index_func x62 (bs "a" ++ x62 :: bs "c" ++ [nul]) 3 = Ret SIZE_MAX.
Proof.
  apply (simple_index_func_inverted x62 (bs "a") (bs "c") [nul]);
    [done|by vm_compute; set_solver|by vm_compute; set_solver|by vm_compute].
Defined.
