(* ===== verification/ClientTheorems.v ===== *)
(** * What messages and clients guarantee

    The properties of src/entity/message.c and src/entity/client_info.c, each
    with a run on a concrete client. *)
From Stdlib Require Import Strings.Byte String.
From S2P Require Import Prelude CLib Alloc Cache Buffer Message ClientInfo BufferTheorems.

(** ** Client activity

    The calls the server makes on a client, in any order. *)
Section activity.
Context {S : Type} `{!CacheModule S}.

Inductive client_step : ClientData * S -> ClientData * S -> Prop :=
| step_fetch d s fd fion ret fd' d' s' :
    reads_succeed fd ->
    fetch_from_client fd fion d s = Ret ((ret, fd', d'), s') -> client_step (d, s) (d', s')
| step_msg d s ha ret om d' s' :
    terminated ha ->
    fetch_msg_from_client ha d s = Ret ((ret, om, d'), s') -> client_step (d, s) (d', s')
| step_send d s msg n ret d' s' :
    send_msg_to_client d msg n s = Ret ((ret, d'), s') -> client_step (d, s) (d', s')
| step_flush d s fd ret fd' d' s' :
    flush_messages fd d s = Ret ((ret, fd', d'), s') -> client_step (d, s) (d', s')
| step_rename d s nm d' :
    update_client_name d nm = Ret d' -> client_step (d, s) (d', s).
End activity.

(** The first node is written to its end and holds no line. *)
Definition stalled (d : ClientData) : Prop :=
  last_check_cmd_index d = 0 /\
  exists n rest, reading_buffer d = n :: rest /\ node_ok n /\ w_offset n = CACHE_SIZE /\
    first_line (live n) = None.

(** ** Lemmas *)

Lemma first_line_none d : nl ∉ d -> first_line d = None.
Proof.
  induction d as [|x d IH]; intros Hd; simpl; [done|].
  apply not_elem_of_cons in Hd as [? Hd]. repeat case_decide; [congruence|done|]. by rw IH.
Qed.

Section lemmas.
Context {S : Type} `{!CacheModule S}.
Implicit Types (s : S).

Lemma cur_list_head st n l : f_list st = n :: l -> exists l', cur_list st = n :: l'.
Proof. unfold cur_list. intros ->. case_match; by eexists. Qed.

Lemma fill_loop_head {Src} (tr : Z -> Src -> outcome (Z * bytes * Src))
    fuel size a (src : Src) st s ex src' st' s' n l :
  fill_loop tr fuel size a src st s = Ret ((ex, src', st'), s') ->
  f_list st = n :: l -> exists l', f_list st' = n :: l'.
Proof.
  revert a src st s l. induction fuel as [|fuel IH]; intros a src st s l; [done|].
  cbn [fill_loop]. unfold mbind, M_bind, lift, mret, M_ret, timeout.
  intros Hrun Hst. repeat (case_match; try done; simplify_eq).
  all: try (by eexists).
  all: lazymatch goal with H : fill_loop _ _ _ _ _ (mkFill (cur_list ?t) _ _ _) _ = _ |- _ =>
         destruct (cur_list_head t _ _ Hst) as [? ?]; by eapply IH end.
Qed.

(** Reads that do not fail never reach the recovery code. *)
Lemma fill_loop_reads fuel size a fd st s ex fd' st' s' :
  fill_loop read_transfer fuel size a fd st s = Ret ((ex, fd', st'), s') ->
  reads_succeed fd -> exists r, ex = FillDone r.
Proof.
  revert a fd st s. induction fuel as [|fuel IH]; intros a fd st s; [done|].
  cbn [fill_loop]. unfold mbind, M_bind, lift, mret, M_ret, timeout, read_transfer.
  destruct (a <? size); [|intros [= <- _ _ _]; by eexists].
  destruct (sys_read _ fd) as [[k data] fd1] eqn:Hread. intros Hrun Hfd.
  assert (0 <= k /\ reads_succeed fd1) as [Hk Hfd1].
  { unfold sys_read, reads_succeed in *. destruct (fd_rplan fd) as [|[j|] p].
    - injection Hread as <- _ <-. split; [lia|]. simpl. constructor.
    - injection Hread as <- _ <-. split; [lia|]. by apply Forall_cons in Hfd as [_ ?].
    - apply Forall_cons in Hfd as [[? ?] _]. done. }
  rw (proj2 (Z.ltb_ge k 0)) // in Hrun.
  repeat (case_match; try done; simplify_eq); eauto.
Qed.

Lemma read_into_head fd b size s ret fd' b' s' n rest :
  read_into_buffer fd b size s = Ret ((ret, fd', b'), s') -> reads_succeed fd ->
  b = n :: rest -> w_offset n = CACHE_SIZE -> exists rest', b' = n :: rest'.
Proof.
  intros Hrun Hfd -> Hw. revert Hrun. unfold read_into_buffer, fill_buffer.
  unfold mbind, M_bind, mret, M_ret.
  destruct (first_node (n :: rest) s) as [[[[st lw]|] s1]| |] eqn:Hst;
    [|intros [= _ _ <- _]; by eexists|done..].
  assert (exists l, f_list st = n :: l) as [l Hl].
  { unfold first_node, mbind, M_bind, mret, M_ret in Hst.
    destruct (last (n :: rest)) as [m|] eqn:Hlast; [|apply last_None in Hlast; done].
    destruct (Z.eqb_spec (w_offset m) CACHE_SIZE) as [Hm|Hm].
    - repeat (case_match; try done; simplify_eq). by eexists.
    - injection Hst as <- _ _. simpl. destruct rest as [|m' rest']; [|by eexists].
      injection Hlast as <-. done. }
  destruct (fill_loop _ _ _ _ _ _ s1) as [[[[ex src'] st'] s2]| |] eqn:Hloop; [|done..].
  destruct (fill_loop_reads _ _ _ _ _ _ _ _ _ _ Hloop Hfd) as [r ->].
  destruct (fill_loop_head _ _ _ _ _ _ _ _ _ _ _ _ _ Hloop Hl) as [l' Hl'].
  intros [= _ _ <- _]. assert (exists l2, cur_list st' = n :: l2) as [l2 Hl2].
  { by eapply cur_list_head. }
  rw Hl2. case_match; by eexists.
Qed.

(** A stalled client has no message, whatever lies behind its node in memory. *)
Lemma stalled_fetch ha d s ret om d' s' :
  terminated ha -> stalled d ->
  fetch_msg_from_client ha d s = Ret ((ret, om, d'), s') -> ret = 0 /\ stalled d'.
Proof.
  intros Hter (Hlc & n & rest & Hb & Hn & Hw & Hnone).
  unfold fetch_msg_from_client, mbind, M_bind, lift. rw Hlc Hb.
  rw find_in_buffer_first; [intros p sz i; apply check_command_suffix_pos|].
  rw node_ptr //= node_size // -live_len //.
  rw check_command_suffix_none //; [apply elem_of_app; right; apply Hter|]. simpl.
  change (SIZE_MAX <? 0) with false. cbv iota. change (u64 (u64 SIZE_MAX + 1)) with 0.
  unfold read_from_buffer. cbn [expected_read_size].
  rw (proj2 (Z.leb_le 0 _)); [apply u64_range|]. unfold mbind, M_bind, mret, M_ret.
  change (zeros 0) with (@nil byte). change (0 =? 0) with true. cbv iota.
  destruct (cm_malloc 0 s) as [[[blk|] s1]| |]; try done.
  all: unfold lift, mem_write; cbn [length Nat.add copy_loop]; change (0 <? 0) with false.
  all: intros [= <- <- <- <-]; split; [done|]; split; [done|]; by exists n, rest.
Qed.

Lemma stalled_step x y : client_step x y -> stalled x.1 -> stalled y.1.
Proof.
  intros [d s fd fion ret fd' d' s' Hfd Hrun|d s ha ret om d' s' Hter Hrun
    |d s msg n ret d' s' Hrun|d s fd ret fd' d' s' Hrun|d s nm d' Hrun] Hst; simpl in *.
  - unfold fetch_from_client, mbind, M_bind, mret, M_ret in Hrun.
    destruct fion as [k|]; [|by injection Hrun as _ _ <- _].
    destruct Hst as (Hlc & n & rest & Hb & Hn & Hw & Hnone).
    destruct (read_into_buffer _ _ _ s) as [[[[r f] b'] s1]| |] eqn:Hread; [|done..].
    destruct (read_into_head _ _ _ _ _ _ _ _ _ _ Hread Hfd Hb Hw) as [rest' ->].
    injection Hrun as _ _ <- _. split; [done|]. by exists n, rest'.
  - by eapply stalled_fetch.
  - unfold send_msg_to_client, mbind, M_bind, mret, M_ret in Hrun.
    destruct (write_into_buffer _ _ _ s) as [[[r b'] s1]| |]; [|done..].
    by injection Hrun as _ <- _.
  - unfold flush_messages, mbind, M_bind, mret, M_ret in Hrun.
    repeat (case_match; try done; simplify_eq); exact Hst.
  - unfold update_client_name in Hrun. destruct (update_name nm); [|done..].
    by injection Hrun as <-.
Qed.

Lemma stalled_steps x y : rtc client_step x y -> stalled x.1 -> stalled y.1.
Proof. induction 1; eauto using stalled_step. Qed.

(** 512 bytes without a newline fill the first node. *)
Lemma stalled_contents b d :
  buffer_inv b -> reading_buffer d = b -> last_check_cmd_index d = 0 ->
  CACHE_SIZE <= zlen (contents b) -> (nl ∉ take 512 (contents b)) -> stalled d.
Proof.
  intros [Hsh _] Hd Hlc Hlen Hnl. split; [done|].
  destruct b as [|n rest]; [unfold CACHE_SIZE in *; by rw zlen_nil in Hlen|].
  exists n, rest. pose proof (shape_all _ Hsh) as [Hn _]%Forall_cons.
  pose proof (live_len _ Hn) as Hl. pose proof (no_offsets _ Hn). pose proof (no_w _ Hn).
  assert (w_offset n = CACHE_SIZE) as Hw.
  { destruct rest as [|m rest]; [rw contents_one in Hlen; lia|].
    assert (full_node n) as [_ [? _]]; [|done].
    inversion Hsh as [|b' m' Hfull Hlast Heq]. destruct b' as [|n' b']; [done|].
    injection Heq as <- _. by apply Forall_cons in Hfull as [? _]. }
  split_and!; try done. apply first_line_none. intros Hin. apply Hnl.
  rw contents_cons. unfold CACHE_SIZE in *.
  rw take_app_ge; [unfold zlen in Hl; lia|]. apply elem_of_app. by left.
Qed.
End lemmas.

(** ** Theorems *)

Section theorems.
Context {S : Type} `{!CacheModule S} `{!CacheModuleLaws S}.
Implicit Types (s : S) (L : gset Z).

(** The message relayed for the line [body] is "FROM <sender>:
    <body>" with a newline, in a block of exactly that text and one NUL; its
    size leaves the NUL out, it is addressed to the target and excludes the
    sender. *)
Theorem p2p_message_text L s sender sn t tn body rest after :
  cm_inv false L s -> cstr sender = Ret sn -> cstr t = Ret tn ->
  (nl ∉ body) -> (nul ∉ body) -> zlen sn < 30 -> zlen tn < 30 -> zlen body < 2 ^ 30 ->
  exists m s',
    create_p2p_msg_base_on_content sender (Some t) (body ++ nl :: rest) after s = Ret (Some m, s') /\
    content m = p2p_text sn body ++ [nul] /\ size m = zlen (p2p_text sn body) /\
    cstr (target m) = Ret tn /\ cstr (exclude m) = Ret sn /\ cm_inv false L s'.
Proof.
  intros Hinv Hsn Ht Hnl Hnul Hls Hlt Hlb.
  destruct (wp_total _ _ _ (create_p2p_spec false L s sender sn t tn _ _ after body Hinv Hsn Ht
    (cut_line_nl body rest after Hnl Hnul) ltac:(rw -app_assoc; by apply cstr_nul) Hls Hlt Hlb))
    as (om & s' & Hrun & Hs' & Hu & Hm).
  destruct om as [m|]; [|by destruct Hu]. destruct (Hm _ eq_refl) as [[] ?].
  by exists m, s'.
Qed.

(** The target array has 30 bytes and the copy into it is unchecked:
    a target name of 30 characters or more, which a client chooses freely, makes
    the call undefined. *)
Theorem p2p_target_overflow L s sender sn t tn body rest after :
  cm_inv false L s -> cstr sender = Ret sn -> cstr t = Ret tn ->
  (nl ∉ body) -> (nul ∉ body) -> zlen sn < 30 -> 30 <= zlen tn -> zlen body < 2 ^ 30 ->
  create_p2p_msg_base_on_content sender (Some t) (body ++ nl :: rest) after s = UB.
Proof.
  intros. eapply create_p2p_overflow; try done; [by apply cut_line_nl|].
  rw -app_assoc. by apply cstr_nul.
Qed.

(** A system message is "FROM SYSTEM: <text>" with a newline,
    addressed to the target. *)
Theorem sys_message_text L s t tn body rest after :
  cm_inv false L s -> cstr t = Ret tn -> (nl ∉ body) -> (nul ∉ body) ->
  zlen tn < 30 -> zlen body < 2 ^ 30 ->
  exists m s',
    create_sys_msg_base_on_content (Some t) (body ++ nul :: rest) after s = Ret (Some m, s') /\
    content m = sys_text body ++ [nul] /\ size m = zlen (sys_text body) /\
    cstr (target m) = Ret tn /\ cm_inv false L s'.
Proof.
  intros Hinv Ht Hnl Hnul Hlt Hlb.
  destruct (wp_total _ _ _ (create_sys_spec false L s t tn _ _ after body Hinv Ht
    (cut_line_nul body rest after Hnl Hnul) ltac:(rw -app_assoc; by apply cstr_nul) Hlt Hlb))
    as (om & s' & Hrun & Hs' & Hu & Hm).
  destruct om as [m|]; [|by destruct Hu]. destruct (Hm _ eq_refl) as [[] ?].
  by exists m, s'.
Qed.

(** A client's name is the first 29 bytes of the string given,
    always terminated inside its array; a null pointer gives "Unknown". *)
Theorem update_client_name_truncates d nm :
  (forall p, nm = Some p -> exists full, cstr p = Ret full /\ zlen full < 2 ^ 31) ->
  exists n, update_client_name d nm = Ret (set_name n d) /\ zlen n = 30 /\
    cstr n = match nm with None => Ret (bs "Unknown") | Some p => full ← cstr p; Ret (take 29 full) end.
Proof.
  intros Hp. destruct nm as [p|].
  - destruct (Hp _ eq_refl) as (full & Hs & Hl). destruct (update_name_cstr _ _ Hs Hl) as (n & Hn & Hc & Hlen).
    exists n. rw /update_client_name Hn Hs //.
  - eexists. by split.
Qed.

(** When nothing fails, [new_client_info] returns a well-formed
    client with empty buffers and the name given (cut to 29 bytes). *)
Theorem new_client_info_fresh L s sock nm sn type peer now :
  cm_inv false L s -> cstr nm = Ret sn -> zlen sn < 2 ^ 31 ->
  exists d s', new_client_info sock (Some nm) type peer now 0 0 s = Ret (Some d, s') /\
    fresh_client sock sn d /\ cm_inv false L s'.
Proof.
  intros Hinv Hnm Hl.
  destruct (wp_total _ _ _ (new_client_spec L s sock nm sn type peer now Hinv Hnm Hl))
    as (od & s' & Hrun & Hs' & d & -> & Hd). by exists d, s'.
Qed.

(** No failure of [new_client_info] after its first allocation is
    reported: the recovery code reads the block it has just freed. *)
Theorem new_client_info_failure L s sock nm sn type peer now init1 init2 :
  cm_inv false L s -> cstr nm = Ret sn -> zlen sn < 2 ^ 31 ->
  init1 <> SUCC \/ init2 <> SUCC ->
  new_client_info sock (Some nm) type peer now init1 init2 s = UB.
Proof.
  intros Hinv Hnm Hl Hinit. destruct (update_name_cstr _ _ Hnm Hl) as (n & Hn & _).
  unfold new_client_info, create_new_buffer, mbind, M_bind.
  destruct (wp_total _ _ _ (cm_malloc_spec false L s 152 Hinv)) as ([blk|] & s1 & -> & Hinv1 & Hu & _);
    [|by destruct Hu].
  destruct peer as [[ret ip] port]. destruct (if type =? C_TYPE_C then _ else _) as [ip' port'].
  unfold lift. rw Hn.
  destruct (wp_total _ _ _ (cm_malloc_spec false L s1 24 Hinv1)) as ([b1|] & s2 & -> & Hinv2 & Hu2 & _);
    [|by destruct Hu2].
  unfold mret, M_ret.
  destruct (wp_total _ _ _ (cm_malloc_spec false L s2 24 Hinv2)) as ([b2|] & s3 & -> & _ & Hu3 & _);
    [|by destruct Hu3].
  destruct (Z.eqb_spec init1 SUCC); [|done]. destruct (Z.eqb_spec init2 SUCC); [|done].
  by destruct Hinit.
Qed.

(** C30 (functional): [fetch_msg_from_client] hands out the next line, newline
    included, as soon as it lies in the first node, whatever memory follows the
    node, and keeps the rest; otherwise it returns 0 and changes no data. *)
Theorem fetch_msg_returns_line L s ha d :
  cm_inv false L s -> client_inv d -> terminated ha -> client_owns d ⊆ L ->
  exists ret om d' s', fetch_msg_from_client ha d s = Ret ((ret, om, d'), s') /\
    (let c := contents (reading_buffer d) in
     match next_message (reading_buffer d) with
     | Some k => ret = Z.of_nat k + 1 /\ om = Some (take k c ++ [nl]) /\
                 (nl ∉ take k c) /\ contents (reading_buffer d') = drop (k + 1) c
     | None => ret = 0 /\ contents (reading_buffer d') = c
     end) /\
    client_inv d' /\ writing_buffer d' = writing_buffer d /\ name d' = name d.
Proof.
  intros Hinv Hd Hter HL.
  destruct (wp_total _ _ _ (fetch_msg_spec false L s ha d Hinv Hd Hter HL))
    as ([[ret om] d'] & s' & Hrun & Hp & Heq & Hd' & _).
  exists ret, om, d', s'. split; [done|]. split; [|split; [done|]; by rw Heq]. cbv zeta.
  destruct (next_message (reading_buffer d)) as [k|] eqn:Hk.
  - destruct Hp as (-> & -> & Hc). destruct (next_message_contents _ _ Hk) as (_ & Ht & ? & _).
    rw Nat.add_1_r Hc Ht. by split_and!.
  - destruct Hp as (-> & _ & ->). done.
Qed.

(** C36 (liveness): a line whose newline lies beyond the first 512 bytes is never
    delivered: once 512 bytes without a newline have arrived, no sequence of
    calls on the client, whatever else arrives, yields a message again. *)
Theorem long_line_stalls L s d fd n :
  cm_inv false L s -> client_inv d -> client_owns d ⊆ L -> reading_buffer d = [] ->
  fd_rplan fd = [] -> 512 <= n < 2 ^ 31 -> n <= zlen (fd_in fd) ->
  (nl ∉ take 512 (fd_in fd)) ->
  exists fd1 d1 s1, fetch_from_client fd (Some n) d s = Ret ((n, fd1, d1), s1) /\
    forall d2 s2 ha ret om d3 s3,
      rtc client_step (d1, s1) (d2, s2) -> terminated ha ->
      fetch_msg_from_client ha d2 s2 = Ret ((ret, om, d3), s3) -> ret = 0.
Proof.
  intros Hinv Hd HL Hrb Hr Hn Hlen Hnl. pose proof (ci_reading _ Hd) as Hb.
  assert (owns (reading_buffer d) ⊆ L) as HLr by (unfold client_owns in HL; set_solver).
  destruct (wp_total _ _ _ (fill_buffer_spec read_transfer fd_in
    (fd_full (fd_out fd) (fd_wplan fd)) true (read_transfer_full _ _) false L s _ n fd Hinv Hb HLr
    ltac:(lia) (conj Hr (conj Hlen (conj eq_refl eq_refl))))) as ([[ret fd'] b'] & s' & Hrun & Hpost).
  destruct Hpost as [(? & _)|(data & L' & -> & _ & Hv & Hc & Hb' & _ & _ & _ & _ & _ & _ & Hex & _)]; [done|].
  specialize (Hex eq_refl eq_refl). rw Hex in Hrun.
  exists fd', (set_reading b' (last_check_cmd_index d) d), s'. split.
  { rw /fetch_from_client /mbind /M_bind u64_small; [lia|]. rw /read_into_buffer Hrun //. }
  intros d2 s2 ha ret om d3 s3 Hsteps Hter Hfetch.
  apply stalled_steps in Hsteps; [by eapply stalled_fetch|].
  eapply (stalled_contents b'); simpl; try done; [apply (ci_check _ Hd)|..].
  - rw Hc Hrb Hex. unfold CACHE_SIZE. simpl. lia.
  - rw Hc Hrb /= (_ : data = take (Z.to_nat n) (fd_in fd)).
    + rw Hv -Hex /zlen Nat2Z.id take_app_length //.
    + rw take_take. intros Hin. apply Hnl. rw Nat.min_l in Hin; [lia|done].
Qed.

(** What is sent to a client reaches its socket: after a send of
    [n] bytes a flush, whatever short writes the kernel makes, outputs all that
    was queued, in order, and leaves nothing behind. *)
Theorem send_then_flush L s d msg n fd :
  cm_inv false L s -> client_inv d -> client_owns d ⊆ L -> 0 < n < 2 ^ 31 -> n <= zlen msg ->
  writes_succeed fd -> zlen (contents (writing_buffer d)) < 2 ^ 31 ->
  exists d1 s1 ret fd' d2 s2,
    send_msg_to_client d msg n s = Ret ((n, d1), s1) /\
    flush_messages fd d1 s1 = Ret ((ret, fd', d2), s2) /\
    fd_out fd' = fd_out fd ++ contents (writing_buffer d) ++ take (Z.to_nat n) msg /\
    ret = zlen (contents (writing_buffer d)) + n /\
    contents (writing_buffer d2) = [] /\ reading_buffer d2 = reading_buffer d.
Proof.
  intros Hinv Hd HL Hn Hlen Hwr Hc. pose proof (ci_writing _ Hd) as Hb.
  assert (owns (writing_buffer d) ⊆ L) as HLw by (unfold client_owns in HL; set_solver).
  destruct (wp_total _ _ _ (fill_buffer_spec memcpy_transfer id memcpy_enough true
    memcpy_transfer_spec false L s _ n msg Hinv Hb HLw Hn Hlen)) as ([[r src'] b1] & s1 & Hrun & Hr).
  destruct Hr as [(? & _)|(data & L' & -> & _ & Hv & Hc1 & Hb1 & Hs1 & _ & Ho1 & _ & _ & _ & Hex & _)]; [done|].
  specialize (Hex eq_refl eq_refl). rw Hex in Hrun.
  assert (take (Z.to_nat n) msg = data) as -> by (rw /= in Hv; rw Hv -Hex /zlen Nat2Z.id take_app_length //).
  destruct (wp_total _ _ _ (flush_spec false L' s1 fd (set_writing b1 d) Hs1 Hb1 Ho1 Hwr
    ltac:(rw /= Hc1 zlen_app Hex; lia))) as ([[ret fd'] d2] & s2 & Hrun2 & -> & Hout & _ & _ & _ & Hd2 & _ & Hc2 & _).
  exists (set_writing b1 d), s1. eexists _, fd', d2, s2. split.
  { rw /send_msg_to_client /write_into_buffer /mbind /M_bind Hrun //. }
  split; [exact Hrun2|]. rw Hout /= Hc1 zlen_app Hex. split_and!; try done. by rw Hd2.
Qed.

(** Releasing a client returns every cache its two buffers hold. *)
Theorem release_client_returns_caches L s d :
  cm_inv false L s -> client_inv d -> client_owns d ⊆ L ->
  exists s', release_client_info (Some d) s = Ret (SUCC, s') /\ cm_inv false (L ∖ client_owns d) s'.
Proof.
  intros Hinv Hd HL.
  destruct (wp_total _ _ _ (release_spec false L s d Hinv Hd HL)) as (r & s' & Hrun & -> & Hs').
  by exists s'.
Qed.
End theorems.

(** The three routing tests compare whole strings. *)
Theorem routing_tests m t tn en nm :
  cstr (target m) = Ret tn -> cstr (exclude m) = Ret en -> cstr t = Ret nm ->
  exists r1 r2 r3, is_target m t = Ret r1 /\ filter_out m t = Ret r2 /\ is_msg_to_all m = Ret r3 /\
    (r1 = SUCC <-> tn = nm) /\ (r2 = SUCC <-> en = nm \/ nm = bs UNKNOWN_CLIENT) /\
    (r3 = SUCC <-> tn = bs CMD_TO_ALL).
Proof.
  intros Ht He Hn. unfold is_target, filter_out, is_msg_to_all.
  destruct (strcmp_spec _ _ _ _ Ht Hn) as (r1 & -> & H1).
  destruct (strcmp_spec _ _ _ _ He Hn) as (r2 & -> & H2).
  destruct (strcmp_spec t (lit UNKNOWN_CLIENT) _ (bs UNKNOWN_CLIENT) Hn eq_refl) as (r3 & Hr3 & H3).
  destruct (strcmp_spec (target m) (lit CMD_TO_ALL) _ (bs CMD_TO_ALL) Ht eq_refl) as (r4 & -> & H4).
  exists r1, (if r2 =? SUCC then SUCC else if r3 =? SUCC then SUCC else -1), r4.
  simpl. rw Hr3. unfold SUCC in *.
  destruct (Z.eqb_spec r2 0); simpl; [|destruct (Z.eqb_spec r3 0)]; split_and!; try done; naive_solver.
Qed.

(** ** Concrete runs

    A client "bob" whose reading buffer holds [n] bytes of [text] in the cache
    handed out in [demo_mem]. *)
Definition name_array (s : string) : bytes := bs s ++ zeros (30 - zlen (bs s)).
Definition demo_client (rb wb : InnerBuffer) : ClientData :=
  mkClient 5 None 4000 (name_array "bob") 0 1 0 0 rb wb 0.
Definition text_node (s : string) : InnerNode :=
  mkNode (zlen (bs s)) 0 (mkCache 0 512 512 (bs s ++ zeros (512 - zlen (bs s)))).
Definition two_lines : InnerNode := mkNode 7 0
  (mkCache 0 512 512 (bs "ab" ++ [nl] ++ bs "cd" ++ [nl] ++ bs "e" ++ zeros 505)).

Lemma two_lines_inv : buffer_inv [two_lines].
Proof.
  split; [|apply NoDup_singleton]. apply (shape_snoc []); [done|]. split; [by split|by left].
Qed.

Lemma demo_client_inv rb wb :
  buffer_inv rb -> buffer_inv wb -> owns rb ## owns wb -> zlen (contents rb) < 2 ^ 31 - 1 ->
  client_inv (demo_client rb wb).
Proof.
  intros. constructor; try done. exists (bs "bob"). split; [by vm_compute|done].
Qed.

Lemma empty_inv : buffer_inv [].
Proof. split; constructor. Qed.

Lemma reader_inv b : buffer_inv b -> zlen (contents b) < 2 ^ 31 - 1 -> client_inv (demo_client b []).
Proof. intros. apply demo_client_inv; [done|apply empty_inv|apply disjoint_empty_r|done]. Qed.

Lemma reader_owns b L : owns b ⊆ L -> client_owns (demo_client b []) ⊆ L.
Proof. intros Hb. unfold client_owns. simpl. by rw right_id_L. Qed.

Lemma two_lines_owns : owns [two_lines] ⊆ {[0]}.
Proof. unfold owns. simpl. set_solver. Qed.

Definition behind : Z -> bytes := fun _ => [nul].
Lemma behind_terminated : terminated behind.
Proof. intros a. apply list_elem_of_here. Qed.

Lemma p2p_message_text_witness :
  exists m s', create_p2p_msg_base_on_content (lit "bob") (Some (lit "ann")) (bs "hi" ++ nl :: [])
      [nul] mem0 = Ret (Some m, s') /\
    content m = p2p_text (bs "bob") (bs "hi") ++ [nul] /\
    size m = zlen (p2p_text (bs "bob") (bs "hi")) /\
    cstr (target m) = Ret (bs "ann") /\ cstr (exclude m) = Ret (bs "bob") /\ cm_inv false ∅ s'.
Proof.
  apply (p2p_message_text ∅ mem0 (lit "bob") (bs "bob") (lit "ann") (bs "ann") (bs "hi") [] [nul]);
    [apply mem0_inv|by vm_compute|by vm_compute|by apply (bool_decide_unpack _); vm_compute
    |by apply (bool_decide_unpack _); vm_compute|by vm_compute|by vm_compute|by vm_compute].
Defined.

Lemma p2p_target_overflow_witness :
  create_p2p_msg_base_on_content (lit "bob") (Some (replicate 30 x61 ++ [nul])) (bs "hi" ++ nl :: [])
    [nul] mem0 = UB.
Proof.
  apply (p2p_target_overflow ∅ mem0 (lit "bob") (bs "bob") _ (replicate 30 x61) (bs "hi") [] [nul]);
    [apply mem0_inv|by vm_compute|by vm_compute|by apply (bool_decide_unpack _); vm_compute
    |by apply (bool_decide_unpack _); vm_compute|by vm_compute|by vm_compute|by vm_compute].
Defined.

Lemma sys_message_text_witness :
  exists m s', create_sys_msg_base_on_content (Some (lit "TO-ALL:")) (bs "up" ++ nul :: []) [] mem0 =
      Ret (Some m, s') /\
    content m = sys_text (bs "up") ++ [nul] /\ size m = zlen (sys_text (bs "up")) /\
    cstr (target m) = Ret (bs "TO-ALL:") /\ cm_inv false ∅ s'.
Proof.
  apply (sys_message_text ∅ mem0 (lit "TO-ALL:") (bs "TO-ALL:") (bs "up") [] []);
    [apply mem0_inv|by vm_compute|by apply (bool_decide_unpack _); vm_compute
    |by apply (bool_decide_unpack _); vm_compute|by vm_compute|by vm_compute].
Defined.

Lemma update_client_name_truncates_witness :
  exists n, update_client_name (demo_client [] []) (Some (replicate 40 x61 ++ [nul])) =
      Ret (set_name n (demo_client [] [])) /\ zlen n = 30 /\ cstr n = Ret (replicate 29 x61).
Proof.
  apply (update_client_name_truncates (demo_client [] []) (Some (replicate 40 x61 ++ [nul]))).
  intros p [= <-]. exists (replicate 40 x61). by vm_compute.
Defined.

Lemma new_client_info_fresh_witness :
  exists d s', new_client_info 5 (Some (lit "unknown")) 1 (0, None, 4000) 7 0 0 mem0 = Ret (Some d, s') /\
    fresh_client 5 (bs "unknown") d /\ cm_inv false ∅ s'.
Proof.
  apply (new_client_info_fresh ∅ mem0 5 (lit "unknown") (bs "unknown") 1 (0, None, 4000) 7);
    [apply mem0_inv|by vm_compute|by vm_compute].
Defined.

Lemma new_client_info_failure_witness :
  new_client_info 5 (Some (lit "unknown")) 1 (0, None, 4000) 7 0 11 mem0 = UB.
Proof.
  apply (new_client_info_failure ∅ mem0 5 (lit "unknown") (bs "unknown") 1 (0, None, 4000) 7 0 11);
    [apply mem0_inv|by vm_compute|by vm_compute|by right].
Defined.

Lemma fetch_msg_returns_line_witness :
  let d := demo_client [two_lines] [] in
  exists ret om d' s', fetch_msg_from_client behind d demo_mem = Ret ((ret, om, d'), s') /\
    (ret = 2 + 1 /\ om = Some (bs "ab" ++ [nl]) /\ (nl ∉ bs "ab") /\
     contents (reading_buffer d') = bs "cd" ++ [nl] ++ bs "e") /\
    client_inv d' /\ writing_buffer d' = writing_buffer d /\ name d' = name d.
Proof.
  apply (fetch_msg_returns_line {[0]} demo_mem behind (demo_client [two_lines] []));
    [apply demo_inv|by apply reader_inv; [apply two_lines_inv|vm_compute]
    |apply behind_terminated|by apply reader_owns, two_lines_owns].
Defined.

Lemma long_line_stalls_witness :
  let fd := mkFd line600 [] [] [] in
  let d := demo_client [] [] in
  exists fd1 d1 s1, fetch_from_client fd (Some 600) d demo_mem = Ret ((600, fd1, d1), s1) /\
    forall d2 s2 ha ret om d3 s3,
      rtc client_step (d1, s1) (d2, s2) -> terminated ha ->
      fetch_msg_from_client ha d2 s2 = Ret ((ret, om, d3), s3) -> ret = 0.
Proof.
  apply (long_line_stalls {[0]} demo_mem (demo_client [] []) (mkFd line600 [] [] []) 600);
    [apply demo_inv|by apply reader_inv; [apply empty_inv|]|by apply reader_owns, empty_subseteq
    |done|done|lia|by vm_compute|by apply (bool_decide_unpack _); vm_compute].
Defined.

Lemma send_then_flush_witness :
  let fd := mkFd [] [] [] [Some 100; Some 7] in
  let d := demo_client [] [demo_node] in
  exists d1 s1 ret fd' d2 s2,
    send_msg_to_client d line600 600 demo_mem = Ret ((600, d1), s1) /\
    flush_messages fd d1 s1 = Ret ((ret, fd', d2), s2) /\
    fd_out fd' = [] ++ bs "abc" ++ line600 /\ ret = 3 + 600 /\
    contents (writing_buffer d2) = [] /\ reading_buffer d2 = [].
Proof.
  apply (send_then_flush {[0]} demo_mem (demo_client [] [demo_node]) line600 600
    (mkFd [] [] [] [Some 100; Some 7]));
    [apply demo_inv| | |lia|by vm_compute|by repeat constructor|by vm_compute].
  - apply demo_client_inv; [apply empty_inv|apply demo_buffer_inv|apply disjoint_empty_l|done].
  - unfold client_owns. simpl. rw left_id_L. apply demo_owns.
Defined.

Lemma release_client_returns_caches_witness :
  let d := demo_client [two_lines] [] in
  exists s', release_client_info (Some d) demo_mem = Ret (SUCC, s') /\
    cm_inv false ({[0]} ∖ client_owns d) s'.
Proof.
  apply (release_client_returns_caches {[0]} demo_mem (demo_client [two_lines] []));
    [apply demo_inv|by apply reader_inv; [apply two_lines_inv|vm_compute]
    |by apply reader_owns, two_lines_owns].
Defined.

Lemma routing_tests_witness :
  let m := mkMsg (lit "ann") (lit "bob") 3 (lit "hi") in
  exists r1 r2 r3, is_target m (lit "ann") = Ret r1 /\ filter_out m (lit "ann") = Ret r2 /\
    is_msg_to_all m = Ret r3 /\
    (r1 = SUCC <-> bs "ann" = bs "ann") /\
    (r2 = SUCC <-> bs "bob" = bs "ann" \/ bs "ann" = bs UNKNOWN_CLIENT) /\
    (r3 = SUCC <-> bs "ann" = bs CMD_TO_ALL).
Proof.
  apply (routing_tests (mkMsg (lit "ann") (lit "bob") 3 (lit "hi")) (lit "ann"));
    by vm_compute.
Defined.
