(* ===== verification/ClientLock.v ===== *)
(** * The writing buffer of a client under its lock

    The reading thread queues messages in a client's writing buffer while the
    writing thread flushes it: [send_msg_to_client] and [flush_messages] of
    client_info.c take [writing_lock].  Here their sections are three accesses - the
    buffer is read, worked on, written back - and any number of threads use one
    client at the same time. *)
From Stdlib Require Import Strings.Byte String.
From S2P Require Import Prelude CLib Alloc Cache Locks Buffer Message ClientInfo.
From S2P Require Import CacheTheorems BufferTheorems ClientTheorems.

(** What the sections work on: the memory, the socket and the client. *)
Record Wire (S : Type) := mkWire {
  x_mem : S;
  x_fd : fdesc;
  x_data : ClientData;
}.
Arguments mkWire {S}. Arguments x_mem {S}. Arguments x_fd {S}. Arguments x_data {S}.

Inductive wire_call :=
| WSend (msg : bytes) (size : Z)
| WFlush.

Section sections.
Context {S : Type} `{CacheModule S}.

Definition load_buffer : M (Wire S) InnerBuffer := fun x => Ret (writing_buffer (x_data x), x).
Definition store_buffer (b : InnerBuffer) : M (Wire S) () := fun x =>
  Ret (tt, mkWire (x_mem x) (x_fd x) (set_writing b (x_data x))).
Definition on_buffer {A} (m : M S A) : M (Wire S) A := fun x =>
  '(a, s) ← m (x_mem x); Ret (a, mkWire s (x_fd x) (x_data x)).
(** A call that uses the socket too. *)
Definition on_socket (m : fdesc -> M S (Z * fdesc * InnerBuffer)) : M (Wire S) (Z * InnerBuffer) := fun x =>
  '((r, f, b), s) ← m (x_fd x) (x_mem x); Ret ((r, b), mkWire s f (x_data x)).

Definition send_steps (msg : bytes) (size : Z) : lprog (Wire S) Z :=
  b ← lact load_buffer;
  '(ret, b) ← lact (on_buffer (write_into_buffer b msg size));
  _ ← lact (store_buffer b);
  mret ret.

Definition flush_steps : lprog (Wire S) Z :=
  b ← lact load_buffer;
  let b_size := buffer_size b in
  if 0 <? b_size then
    '(ret, b) ← lact (on_socket (fun fd => write_from_buffer fd b b_size));
    _ ← lact (store_buffer b);
    mret ret
  else mret 0.

Definition wire_body (c : wire_call) : lprog (Wire S) Z :=
  match c with WSend msg size => send_steps msg size | WFlush => flush_steps end.

(** The calls of ClientInfo.v. *)
Definition wire_whole (c : wire_call) : M (Wire S) Z :=
  match c with
  | WSend msg size => fun x =>
    '((r, d), s) ← send_msg_to_client (x_data x) msg size (x_mem x); Ret (r, mkWire s (x_fd x) d)
  | WFlush => fun x =>
    '((r, f, d), s) ← flush_messages (x_fd x) (x_data x) (x_mem x); Ret (r, mkWire s f d)
  end.
End sections.

Abbreviation wire_user := (user (fun _ : wire_call => Z) ()).
(** A thread that makes the calls of a list. *)
Fixpoint calls_of (l : list wire_call) : wire_user :=
  match l with
  | [] => UDone tt
  | c :: l => UCall c (fun _ => calls_of l)
  end.

(** The messages it sends. *)
Definition sent (c : wire_call) : option bytes :=
  match c with WSend msg size => Some (take (Z.to_nat size) msg) | WFlush => None end.
Definition sent_by (l : list wire_call) : list bytes := omap sent l.

(** [m] is made of the lists [ls], each in its order. *)
Inductive merged : list (list bytes) -> list bytes -> Prop :=
| mg_nil ls : Forall (fun l => l = []) ls -> merged ls []
| mg_step ls t b l m : ls !! t = Some (b :: l) -> merged (<[t := l]> ls) m -> merged ls (b :: m).

(** What has gone to the socket, and what is on its way. *)
Definition wire_text {S} (x : Wire S) : bytes := fd_out (x_fd x) ++ contents (writing_buffer (x_data x)).

Definition wire_ok (c : wire_call) : Prop :=
  match c with WSend msg size => 0 < size < 2 ^ 31 /\ size <= zlen msg | WFlush => True end.
Definition to_send (ls : list (list wire_call)) : Z := zlen (concat (concat (sent_by <$> ls))).

(** ** Lemmas *)

Section lemmas.
Context {S : Type} `{CacheModule S}.
Implicit Types (x : Wire S).

Lemma wire_body_flat c : flat (T := Wire S) (wire_body c).
Proof. destruct c; unfold wire_body, send_steps, flush_steps; cbv zeta; flat_auto; done. Qed.

Lemma wire_body_run c x : lrun (wire_body c) x = wire_whole c x.
Proof.
  destruct c as [msg size|]; unfold wire_body, wire_whole, send_steps, flush_steps.
  - rw (lrun_bind_ret _ _ _ (writing_buffer (x_data x)) x) // lrun_bind bind_run lrun_lact /on_buffer /send_msg_to_client bind_run.
    by destruct (write_into_buffer _ _ _ _) as [[[r b] s]| |].
  - rw (lrun_bind_ret _ _ _ (writing_buffer (x_data x)) x) //. unfold flush_messages. cbv zeta.
    destruct (0 <? _); [|by destruct x]. rw lrun_bind bind_run lrun_lact /on_socket bind_run.
    by destruct (write_from_buffer _ _ _ _) as [[[[r f] b] s]| |].
Qed.
End lemmas.

Section threads.
Context {S : Type} `{!CacheModule S} `{!CacheModuleLaws S}.
Implicit Types (x : Wire S) (ls : list (list wire_call)).

(** The client between two calls. *)
Record wire_inv x : Prop := {
  wi_buffer : buffer_inv (writing_buffer (x_data x));
  wi_mem : exists L, cm_inv false L (x_mem x) /\ owns (writing_buffer (x_data x)) ⊆ L;
  wi_socket : writes_succeed (x_fd x);
}.

Lemma send_whole x msg size :
  wire_inv x -> wire_ok (WSend msg size) ->
  exists r x', wire_whole (WSend msg size) x = Ret (r, x') /\ wire_inv x' /\ x_fd x' = x_fd x /\
    contents (writing_buffer (x_data x')) = contents (writing_buffer (x_data x)) ++ take (Z.to_nat size) msg.
Proof.
  intros [Hb (L & Hm & HL) Hf] [Hn Hlen].
  destruct (wp_total _ _ _ (send_msg_spec false L _ _ msg size Hm Hb HL Hn Hlen)) as ([r d'] & s' & Hrun & k & L' & _ & Hk & _ & Hb' & Hc & Hm' & _ & HL' & _).
  rw (Hk eq_refl) in Hc. unfold wire_whole. rw Hrun. eexists _, _. split; [done|]. split_and!; [|done..].
  constructor; [done|by exists L'|done].
Qed.

Lemma flush_whole x :
  wire_inv x -> zlen (contents (writing_buffer (x_data x))) < 2 ^ 63 ->
  exists r x', wire_whole WFlush x = Ret (r, x') /\ wire_inv x' /\
    fd_out (x_fd x') = fd_out (x_fd x) ++ contents (writing_buffer (x_data x)) /\ contents (writing_buffer (x_data x')) = [].
Proof.
  intros [Hb (L & Hm & HL) Hf] Hz.
  destruct (wp_total _ _ _ (flush_spec false L _ _ _ Hm Hb HL Hf Hz)) as ([[r f'] d'] & s' & Hrun & _ & Hout & _ & _ & Hf' & _ & Hb' & Hc & Ho & Hm').
  unfold wire_whole. rw Hrun. eexists _, _. split; [done|]. split_and!; [|done..].
  constructor; [done| |done]. eexists. split; [exact Hm'|]. unfold left_over. set_solver.
Qed.

(** What has been sent since the start is [done], in this order; the threads have
    the calls [rest] before them. *)
Record wire_at (x0 : Wire S) (ls : list (list wire_call)) (z : Wire S * list wire_user) : Prop := {
  wa_rest : exists rest, z.2 = calls_of <$> rest /\ Forall (Forall wire_ok) rest /\
    zlen (contents (writing_buffer (x_data z.1))) + to_send rest < 2 ^ 63 /\
    exists done, wire_text z.1 = wire_text x0 ++ concat done /\
      forall m, merged (sent_by <$> rest) m -> merged (sent_by <$> ls) (done ++ m);
  wa_inv : wire_inv z.1;
}.

Lemma to_send_insert ls t l l' : ls !! t = Some l -> to_send (<[t := l']> ls) + zlen (concat (sent_by l)) = to_send ls + zlen (concat (sent_by l')).
Proof.
  unfold to_send. revert t. induction ls as [|k ls IH]; intros [|t]; cbn; [done|done| |].
  - intros [= ->]. rw !concat_app !zlen_app. lia.
  - intros Ht. rw !concat_app !zlen_app. rw -!Z.add_assoc. f_equal. by apply IH.
Qed.

Lemma wire_step x0 ls z t o :
  wire_at x0 ls z -> call_step wire_whole t z = Some o -> exists z', o = Ret z' /\ wire_at x0 ls z'.
Proof.
  intros [(rest & Hz & Hok & Hsz & sn & Htext & Hmerge) Hinv]. unfold call_step. rw Hz list_lookup_fmap.
  destruct (rest !! t) as [[|c l]|] eqn:Ht; [done| |done]. cbn [fmap option_fmap option_map mbind option_bind calls_of next_call].
  intros [= <-]. pose proof (Forall_lookup_1 _ _ _ _ Hok Ht) as [Hc Hl]%Forall_cons.
  pose proof (to_send_insert rest t (c :: l) l Ht) as Hrest. rw bind_run.
  assert (Forall (Forall wire_ok) (<[t := l]> rest)) as Hok' by by apply Forall_insert.
  destruct c as [msg size|]; cbn [sent_by omap list_omap sent concat] in Hrest; [rw zlen_app in Hrest|].
  - destruct (send_whole z.1 msg size Hinv Hc) as (r & x' & -> & Hi' & Hf & Hw). eexists. split; [done|].
    constructor; [|done]. exists (<[t := l]> rest). cbn [fst snd]. rw -list_fmap_insert. split_and!; [done..| |].
    + rw Hw zlen_app. unfold sent_by in *. lia.
    + exists (sn ++ [take (Z.to_nat size) msg]). split.
      * unfold wire_text in *. rw Hf Hw concat_app /= app_nil_r !app_assoc -Htext -!app_assoc //.
      * intros m Hm. rw -app_assoc /=. apply Hmerge. eapply (mg_step _ t); [by rw list_lookup_fmap Ht|].
        by rw -list_fmap_insert.
  - assert (zlen (contents (writing_buffer (x_data z.1))) < 2 ^ 63) as Hlt.
    { pose proof (zlen_nonneg (concat (concat (sent_by <$> rest)))). unfold to_send in Hsz. lia. }
    destruct (flush_whole z.1 Hinv Hlt) as (r & x' & -> & Hi' & Hf & Hw). eexists. split; [done|].
    constructor; [|done]. exists (<[t := l]> rest). cbn [fst snd]. rw -list_fmap_insert. split_and!; [done..| |].
    + rw Hw. pose proof (zlen_nonneg (contents (writing_buffer (x_data z.1)))). unfold sent_by, zlen in *. cbn [length] in *. lia.
    + exists sn. split; [unfold wire_text in *; by rw Hf Hw app_nil_r|]. intros m Hm. apply Hmerge.
      rw list_fmap_insert list_insert_id // in Hm. by rw list_lookup_fmap Ht.
Qed.
End threads.

(** ** Theorem *)

Section theorems.
Context {S : Type} `{!CacheModule S} `{!CacheModuleLaws S}.
Implicit Types (x : Wire S) (ls : list (list wire_call)).

Lemma merged_nothing ls : Forall (fun l => l = []) (sent_by <$> ls) -> merged (sent_by <$> ls) [].
Proof. by constructor. Qed.

(** C6 (safety): What the threads send to one client at the same time arrives in one
    piece, while no [write] on its socket fails and no allocation does ([wire_inv]).
    However the accesses of any number of threads that queue messages for the client
    and flush them interleave under its lock, no access is undefined, and some
    thread can go on until all have ended.  In the end what the socket has got and
    what is still in the writing buffer is what it was before, followed by all the
    messages, each whole and those of one thread in their order; and one more
    [flush_messages] hands all that was left to the socket. *)
Theorem wire_messages_whole x ls y :
  wire_inv x -> Forall (Forall wire_ok) ls ->
  zlen (contents (writing_buffer (x_data x))) + to_send ls < 2 ^ 63 ->
  rtc lmove (users_start wire_body x (calls_of <$> ls)) y ->
  (forall t o, lstep t y = Some o -> ~ fails o) /\
  (all_ended y \/ exists t y', lstep t y = Some (Ret y')) /\
  (all_ended y -> exists msgs, merged (sent_by <$> ls) msgs /\ wire_text (shared y) = wire_text x ++ concat msgs /\
     exists r x', wire_whole WFlush (shared y) = Ret (r, x') /\
       fd_out (x_fd x') = wire_text x ++ concat msgs /\ contents (writing_buffer (x_data x')) = []).
Proof.
  intros Hi Hok Hsz Hr.
  destruct (users_safe _ _ _ wire_body_flat wire_body_run (wire_at x ls) x (calls_of <$> ls) y)
    as (Hsafe & Hgo & z & [(rest & Hz & _ & Hleft & sn & Htext & Hmerge) Hinv] & Hm); [by apply wire_step| |done|].
  { constructor; [|done]. exists ls. split_and!; [done..|]. exists []. by rw app_nil_r. }
  split_and!; [done..|]. intros Hend. destruct (ended_procs y Hend) as [results Hres].
  assert (z.2 = UDone <$> results) as Hz2 by by eapply ended_users.
  assert (shared y = z.1) as -> by by eapply ended_shared. exists sn. split_and!; [|done|].
  - rw -(app_nil_r sn). apply Hmerge, merged_nothing, Forall_fmap, Forall_lookup. intros t l Hl. cbn.
    assert ((calls_of <$> rest) !! t = Some (calls_of l)) as Hc by by rw list_lookup_fmap Hl.
    rw -Hz Hz2 list_lookup_fmap in Hc. destruct (results !! t); [|done]. destruct l; [done|done].
  - destruct (flush_whole z.1 Hinv) as (r & x' & Hrun & _ & Hout & Hc).
    { pose proof (zlen_nonneg (concat (concat (sent_by <$> rest)))). unfold to_send in Hleft. lia. }
    exists r, x'. split_and!; [done| |done]. by rw Hout -Htext.
Qed.
End theorems.

(** ** Concrete threads *)

(** Two threads send, a third flushes twice. *)
Definition line_a : bytes := bs "FROM ann: hi" ++ [nl].
Definition line_b : bytes := bs "FROM bob: yo" ++ [nl].
Definition three_threads : list (list wire_call) :=
  [ [WSend line_a (zlen line_a); WSend line_b (zlen line_b)]; [WSend line_b (zlen line_b)]; [WFlush; WFlush] ].
Definition demo_wire : Wire mem := mkWire demo_mem (mkFd [] [] [] [Some 5]) (demo_client [] []).
Definition in_turn (n : nat) : list nat := concat (replicate n [0; 2; 1; 2; 0]%nat).
Definition wire_end : lsys (Wire mem) () := follow (in_turn 20) (users_start wire_body demo_wire (calls_of <$> three_threads)).

Lemma demo_wire_inv : wire_inv demo_wire.
Proof.
  constructor; [apply empty_inv| |by repeat constructor]. exists {[0]}. split; [apply demo_inv|apply empty_subseteq].
Qed.

Example wire_end_text : wire_text (shared wire_end) = line_a ++ line_b ++ line_b.
Proof. by vm_compute. Qed.

Lemma wire_messages_whole_witness :
  (forall t o, lstep t wire_end = Some o -> ~ fails o) /\
  (all_ended wire_end \/ exists t y', lstep t wire_end = Some (Ret y')) /\
  (all_ended wire_end -> exists msgs, merged [[line_a; line_b]; [line_b]; []] msgs /\
     wire_text (shared wire_end) = concat msgs /\
     exists r x', wire_whole WFlush (shared wire_end) = Ret (r, x') /\
       fd_out (x_fd x') = concat msgs /\ contents (writing_buffer (x_data x')) = []).
Proof.
  apply (wire_messages_whole demo_wire three_threads); [apply demo_wire_inv| |done|apply follow_moves].
  repeat constructor; by vm_compute.
Defined.
