(* ===== verification/Server.v ===== *)
(** * The server: src/IMServer.c

    [ServerInfo], the client list, message parsing and delivery, login and
    logout, and one turn of each thread's loop.  A turn runs here without
    interference; Threads.v interleaves the turns. *)
From Stdlib Require Import Strings.Byte String.
From S2P Require Import Prelude CLib Alloc Buffer Message ClientInfo.

(** The client list is the sequence of the [info] pointers of its nodes. *)
Record ServerInfo := mkServer {
  clients : list Z;
  client_count : Z;
  is_running : Z;
  info : Z;
  sign_to_flush_msg : Z;
}.

Definition set_clients (l : list Z) (n : Z) (s : ServerInfo) : ServerInfo :=
  mkServer l n (is_running s) (info s) (sign_to_flush_msg s).
Definition set_sign (n : Z) (s : ServerInfo) : ServerInfo :=
  mkServer (clients s) (client_count s) (is_running s) (info s) n.
Definition stop (s : ServerInfo) : ServerInfo :=
  mkServer (clients s) (client_count s) 0 (info s) (sign_to_flush_msg s).

(** What the threads share: the allocator, the live client objects by address (a
    freed object is absent, and touching it is undefined), the open sockets, and
    the server object.  [w_next] is the next client address. *)
Record World (S : Type) := mkWorld {
  w_mem : S;
  w_heap : gmap Z ClientData;
  w_fds : gmap Z fdesc;
  w_next : Z;
  w_server : ServerInfo;
}.
Arguments mkWorld {S}.
Arguments w_mem {S}. Arguments w_heap {S}. Arguments w_fds {S}.
Arguments w_next {S}. Arguments w_server {S}.

Definition set_mem {S} (m : S) (w : World S) : World S :=
  mkWorld m (w_heap w) (w_fds w) (w_next w) (w_server w).
Definition set_heap {S} (h : gmap Z ClientData) (w : World S) : World S :=
  mkWorld (w_mem w) h (w_fds w) (w_next w) (w_server w).
Definition set_fds {S} (f : gmap Z fdesc) (w : World S) : World S :=
  mkWorld (w_mem w) (w_heap w) f (w_next w) (w_server w).
Definition set_server {S} (i : ServerInfo) (w : World S) : World S :=
  mkWorld (w_mem w) (w_heap w) (w_fds w) (w_next w) i.

(** A descriptor that is not open: every call on it fails. *)
Definition closed_fd : fdesc := mkFd [] [None] [] [None].

Definition POLLIN : Z := 1.

Definition sock (w_fds : gmap Z fdesc) (id : Z) : fdesc := default closed_fd (w_fds !! id).

Section ops.
Context {S : Type} `{CacheModule S}.
(** The memory behind the block of a cache, and behind the block of the [i]-th
    message that one call of [try_to_handle_msg] fetches. *)
Variable heap_after : Z -> bytes.
Variable behind : nat -> bytes.

Definition on_mem {A} (m : M S A) : M (World S) A := fun w =>
  match m (w_mem w) with
  | Ret (a, s') => Ret (a, set_mem s' w)
  | UB => UB
  | OutOfFuel => OutOfFuel
  end.

Definition get_client (a : Z) : M (World S) ClientData := fun w =>
  match w_heap w !! a with
  | Some d => Ret (d, w)
  | None => UB
  end.
Definition put_client (a : Z) (d : ClientData) : M (World S) () := fun w =>
  Ret (tt, set_heap (<[a := d]> (w_heap w)) w).
Definition free_client (a : Z) : M (World S) () := fun w =>
  Ret (tt, set_heap (delete a (w_heap w)) w).
(** The state of a socket after a call; a closed one stays closed. *)
Definition put_fd (id : Z) (f : fdesc) : M (World S) () := fun w =>
  Ret (tt, set_fds (alter (fun _ => f) id (w_fds w)) w).
Definition close (id : Z) : M (World S) () := fun w =>
  Ret (tt, set_fds (delete id (w_fds w)) w).
Definition server : M (World S) ServerInfo := fun w => Ret (w_server w, w).
Definition put_server (i : ServerInfo) : M (World S) () := fun w => Ret (tt, set_server i w).

(** The client-level calls on the object at address [a]. *)
Definition fetch (a : Z) : M (World S) Z :=
  d ← get_client a;
  w ← getS;
  let fion := (fun f => zlen (fd_in f)) <$> (w_fds w !! socket_id d) in
  '(r, f', d') ← on_mem (fetch_from_client (sock (w_fds w) (socket_id d)) fion d);
  _ ← put_fd (socket_id d) f';
  _ ← put_client a d';
  mret r.
Definition fetch_msg (a : Z) : M (World S) (Z * option bytes) :=
  d ← get_client a;
  '(r, om, d') ← on_mem (fetch_msg_from_client heap_after d);
  _ ← put_client a d';
  mret (r, om).
Definition send_msg (a : Z) (msg : bytes) (size : Z) : M (World S) Z :=
  d ← get_client a;
  '(r, d') ← on_mem (send_msg_to_client d msg size);
  _ ← put_client a d';
  mret r.
Definition flush (a : Z) : M (World S) Z :=
  d ← get_client a;
  w ← getS;
  '(r, f', d') ← on_mem (flush_messages (sock (w_fds w) (socket_id d)) d);
  _ ← put_fd (socket_id d) f';
  _ ← put_client a d';
  mret r.
Definition release_client (a : Z) : M (World S) Z :=
  d ← get_client a;
  r ← on_mem (release_client_info (Some d));
  _ ← free_client a;
  mret r.

(** The walk that copies the list into the array of [n] entries. *)
Definition copy_list (n : Z) (l : list Z) : outcome (list Z) :=
  if zlen l <=? n then Ret l else UB.

(** The array, [None] for a null pointer, and [*items]. *)
Definition get_client_list : M (World S) (option (list Z) * Z) :=
  i ← server;
  ob ← on_mem (cm_malloc (u64 (8 * client_count i)));
  match ob with
  | None => mret (None, 0)
  | Some _ => l ← lift (copy_list (client_count i) (clients i)); mret (Some l, client_count i)
  end.

(** Entry [k] of an array: the entries the walk did not fill are garbage. *)
Definition entry {A} (l : list A) (k : nat) : outcome A :=
  match l !! k with Some a => Ret a | None => UB end.

Fixpoint deliver_loop (msg : Msg) (to_all : bool) (l : list Z) (index : list nat)
    (sent_count : Z) : M (World S) Z :=
  match index with
  | [] => mret sent_count
  | k :: rest =>
    a ← lift (entry l k);
    d ← get_client a;
    if u64 FAIL =? pub d then deliver_loop msg to_all l rest sent_count
    else
      skip ← lift (filter_out msg (name d));
      if skip =? SUCC then deliver_loop msg to_all l rest sent_count
      else
        hit ← (if to_all then mret true
               else t ← lift (is_target msg (name d)); mret (t =? SUCC));
        if hit : bool then
          _ ← send_msg a (content msg) (size msg);
          deliver_loop msg to_all l rest (i32 (sent_count + 1))
        else deliver_loop msg to_all l rest sent_count
  end.

Definition deliver_msg_to_all_clients (msg : Msg) : M (World S) Z :=
  '(ol, items) ← get_client_list;
  t ← lift (is_msg_to_all msg);
  deliver_loop msg (t =? SUCC) (default [] ol) (seq 0 (Z.to_nat items)) 0.

(** The notice "<name> <suffix>": composed in a cache, turned into a system
    message to all that excludes [name], cache recycled. *)
Definition notice (nm : bytes) (suffix : string) : M S (option Msg) :=
  sn ← lift (cstr nm);
  let msg_size := i32 (zlen sn + zlen (bs suffix) + 2) in
  oc ← cm_get msg_size;
  match oc with
  | None => mret None
  | Some c =>
    b ← lift (store_cstr (sn ++ bs " " ++ bs suffix) (buff c));
    om ← create_sys_msg_base_on_content (Some (lit CMD_TO_ALL)) b (heap_after (cid c));
    om ← match om with
         | None => mret None
         | Some m =>
           e ← lift (strcpy (exclude m) nm);
           mret (Some (mkMsg (target m) e (size m) (content m)))
         end;
    _ ← cm_recycle (mkCache (cid c) (allocated_size c) (cache_size c) b);
    mret om
  end.

(** [own] is the block of the message, [after] what lies behind it. *)
Definition user_login (a : Z) (own after : bytes) : M (World S) (option Msg) :=
  own ← lift (cut_line own after);
  p ← lift (ptr_at (zlen (bs CMD_LOGIN)) own after);
  d ← get_client a;
  d' ← lift (update_client_name d (Some p));
  _ ← put_client a d';
  on_mem (notice (name d') MSG_LOGIN_SUFFIX).

(** The node removed is the first one with the same socket. *)
Fixpoint unlink (id : Z) (l : list Z) : M (World S) (option (list Z)) :=
  match l with
  | [] => mret None
  | a :: rest =>
    d ← get_client a;
    if socket_id d =? id then mret (Some rest)
    else or ← unlink id rest; mret (cons a <$> or)
  end.

(** Here the message is delivered, and released, before the cache is recycled. *)
Definition logout_notice (nm : bytes) : M (World S) Z :=
  sn ← lift (cstr nm);
  let msg_size := i32 (zlen sn + zlen (bs MSG_LOGOUT_SUFFIX) + 2) in
  oc ← on_mem (cm_get msg_size);
  match oc with
  | None => mret 0
  | Some c =>
    b ← lift (store_cstr (sn ++ bs " " ++ bs MSG_LOGOUT_SUFFIX) (buff c));
    om ← on_mem (create_sys_msg_base_on_content (Some (lit CMD_TO_ALL)) b (heap_after (cid c)));
    sent ← match om with
           | None => mret 0
           | Some m =>
             e ← lift (strcpy (exclude m) nm);
             deliver_msg_to_all_clients (mkMsg (target m) e (size m) (content m))
           end;
    _ ← on_mem (cm_recycle (mkCache (cid c) (allocated_size c) (cache_size c) b));
    mret sent
  end.

Definition bump_sign : M (World S) () :=
  i ← server; put_server (set_sign (i32 (sign_to_flush_msg i + 1)) i).

Definition user_logout (a : Z) : M (World S) () :=
  i ← server;
  d ← get_client a;
  ol ← unlink (socket_id d) (clients i);
  _ ← match ol with
      | None => mret tt
      | Some l => put_server (set_clients l (i32 (client_count i - 1)) i)
      end;
  sent_count ← logout_notice (name d);
  _ ← close (socket_id d);
  _ ← release_client a;
  if sent_count =? 0 then mret tt else bump_sign.

(** The pointer to offset [k] of a message: what the program owns there, and
    what follows. *)
Definition at_offset (k : Z) (own after : bytes) : bytes * bytes :=
  (drop (Z.to_nat k) own, drop (Z.to_nat k - length own) after).

(** The message to redirect, if the line asks for one.  [msg] is a block without a
    NUL: the searches run on into [after], and are undefined where that ends. *)
Definition redirect (a : Z) (msg after : bytes) : M (World S) (option Msg) :=
  let text := msg ++ after in
  login ← lift (strstr text (bs CMD_LOGIN));
  if bool_decide (login = Some 0) then user_login a msg after
  else
    all ← lift (strstr text (bs CMD_TO_ALL));
    if bool_decide (all = Some 0) then
      let cmd_size := zlen (bs CMD_TO_ALL) in
      d ← get_client a;
      let '(own', after') := at_offset (cmd_size + 1) msg after in
      on_mem (create_p2p_msg_base_on_content (name d) (Some (lit CMD_TO_ALL)) own' after')
    else
      toc ← lift (strstr text (bs CMD_TO_C));
      if bool_decide (toc = Some 0) then
        indicator ← lift (strchr text x3a);
        match indicator with
        | None => mret None
        | Some ind =>
          let cmd_size := zlen (bs CMD_TO_C) in
          let target_name_size := i32 (ind - cmd_size) in
          oc ← on_mem (cm_get target_name_size);
          match oc with
          | None => mret None
          | Some c =>
            b ← lift (strncpy (buff c) (drop (Z.to_nat cmd_size) text) target_name_size);
            d ← get_client a;
            let '(own', after') := at_offset (ind + 2) msg after in
            om ← on_mem (create_p2p_msg_base_on_content (name d)
                           (Some (b ++ heap_after (cid c))) own' after');
            _ ← on_mem (cm_recycle (mkCache (cid c) (allocated_size c) (cache_size c) b));
            mret om
          end
        end
      else mret None.

(** One message: the body of the loop of [try_to_handle_msg]. *)
Definition handle_msg (a : Z) (msg after : bytes) : M (World S) Z :=
  redirect_msg ← redirect a msg after;
  match redirect_msg with
  | None => mret 0
  | Some m => deliver_msg_to_all_clients m
  end.

Fixpoint handle_loop (fuel : nat) (a : Z) (i : nat) (msg_size : Z) (msg : option bytes)
    (need_to_flush_msg : Z) : M (World S) Z :=
  match fuel with
  | O => timeout
  | Datatypes.S fuel =>
    if 0 <? msg_size then
      match msg with
      | None => undef
      | Some m =>
        n ← handle_msg a m (behind i);
        '(msg_size, msg) ← fetch_msg a;
        handle_loop fuel a (Datatypes.S i) msg_size msg (i32 (need_to_flush_msg + n))
      end
    else mret need_to_flush_msg
  end.

(** Every message is at least one byte of the reading buffer: its size bounds
    the number of turns. *)
Definition try_to_handle_msg (a : Z) : M (World S) () :=
  d ← get_client a;
  let fuel := Datatypes.S (Z.to_nat (buffer_size (reading_buffer d))) in
  '(msg_size, msg) ← fetch_msg a;
  need ← handle_loop (Datatypes.S fuel) a 0 msg_size msg 0;
  if need =? 0 then mret tt else bump_sign.

(** ** The polling list *)

Fixpoint polling_entries (l : list Z) : M (World S) (list (Z * Z)) :=
  match l with
  | [] => mret []
  | a :: rest =>
    d ← get_client a;
    r ← polling_entries rest;
    mret ((if pub d =? SUCC then socket_id d else -1, a) :: r)
  end.

(** The descriptors to poll with their clients; 8 bytes each.  The size is an
    [int]: the block may be too small for the entries. *)
Definition get_polling_and_client_list : M (World S) (option (list (Z * Z)) * Z) :=
  i ← server;
  let size := i32 (client_count i * 16) in
  ob ← on_mem (cm_malloc (u64 size));
  match ob with
  | None => mret (None, 0)
  | Some _ =>
    l ← lift (copy_list (Z.min (client_count i) (u64 size / 16)) (clients i));
    e ← polling_entries l;
    mret (Some e, client_count i)
  end.

(** ** One turn of the threads *)

Definition mark_failed (a : Z) : M (World S) () :=
  d ← get_client a; put_client a (set_pub FAIL d).

(** The body of the reading loop for one entry and its [revents]. *)
Definition read_client (e : Z * Z) (revents : Z) : M (World S) () :=
  let '(fd, a) := e in
  if fd =? -1 then mret tt
  else
    d ← get_client a;
    if negb (fd =? socket_id d) then mret tt
    else if revents =? 0 then mret tt
    else if negb (Z.land revents POLLIN =? 0) then
      r ← fetch a;
      let fetch_count := i32 r in
      if fetch_count =? 0 then mark_failed a else try_to_handle_msg a
    else mark_failed a.

Fixpoint read_clients (l : list (Z * Z)) (revents : list Z) (index : list nat) : M (World S) () :=
  match index with
  | [] => mret tt
  | k :: rest =>
    e ← lift (entry l k);
    _ ← read_client e (default 0 (revents !! k));
    read_clients l revents rest
  end.

(** The block that prints the list when __DEBUG__ is defined, as it is. *)
Fixpoint debug_block (l : list (Z * Z)) : M (World S) () :=
  match l with
  | [] => mret tt
  | (_, a) :: rest => _ ← get_client a; debug_block rest
  end.

(** [poll] is the system call: its result and the [revents] it stores.  The
    result tells whether the thread goes on. *)
Definition read_sockets_turn (poll : list Z -> Z * list Z) : M (World S) bool :=
  '(oe, items) ← get_polling_and_client_list;
  match oe with
  | None => mret false
  | Some e =>
    _ ← debug_block e;
    let '(ret, revents) := poll (fst <$> e) in
    _ ← (if (ret =? FAIL) || (ret =? SUCC) then mret tt
         else read_clients e revents (seq 0 (Z.to_nat items)));
    i ← server;
    mret (negb (is_running i =? 0))
  end.

Fixpoint flush_clients (l : list Z) (index : list nat) : M (World S) () :=
  match index with
  | [] => mret tt
  | k :: rest =>
    a ← lift (entry l k);
    d ← get_client a;
    _ ← (if u64 FAIL =? pub d then mret 0 else flush a);
    flush_clients l rest
  end.

Fixpoint logout_clients (l : list Z) (index : list nat) : M (World S) () :=
  match index with
  | [] => mret tt
  | k :: rest =>
    a ← lift (entry l k);
    d ← get_client a;
    _ ← (if u64 FAIL =? pub d then user_logout a else mret tt);
    logout_clients l rest
  end.

(** The end of the turn: with the sign at zero the thread waits and then clears
    it, whatever happened during the wait; otherwise the sign is left alone. *)
Definition write_wait : M (World S) bool :=
  i ← server;
  _ ← (if sign_to_flush_msg i =? 0 then put_server (set_sign 0 i) else mret tt);
  mret (negb (is_running i =? 0)).

Definition write_sockets_turn : M (World S) bool :=
  '(ol, items) ← get_client_list;
  match ol with
  | None => mret false
  | Some l =>
    _ ← flush_clients l (seq 0 (Z.to_nat items));
    _ ← logout_clients l (seq 0 (Z.to_nat items));
    write_wait
  end.

(** The deadline of the wait: [tv_nsec] from the current [tv_usec]. *)
Definition wait_nsec (tv_usec : Z) : Z := (tv_usec + 100 * 1000) * 1000.

(** A connection: [client_id] is the result of [accept], [f] the new socket.  The
    result tells whether a client was added; otherwise the loop continues. *)
Definition accept_client (client_id : Z) (f : fdesc) (peer : Z * option bytes * Z)
    (now init1 init2 : Z) : M (World S) bool :=
  if client_id <? 0 then mret false
  else
    w ← getS;
    _ ← putS (set_fds (<[client_id := f]> (w_fds w)) w);
    od ← on_mem (new_client_info client_id (Some (lit UNKNOWN_CLIENT)) C_TYPE_C peer now init1 init2);
    match od with
    | None => mret false
    | Some d =>
      w ← getS;
      let a := w_next w in
      _ ← putS (mkWorld (w_mem w) (<[a := d]> (w_heap w)) (w_fds w) (a + 1) (w_server w));
      on ← on_mem (cm_malloc 24);
      match on with
      | None => _ ← release_client a; mret false
      | Some _ =>
        i ← server;
        _ ← put_server (set_clients (clients i ++ [a]) (i32 (client_count i + 1)) i);
        mret true
      end
    end.
Definition handle_listen_turn (client_id : Z) (f : fdesc) (peer : Z * option bytes * Z)
    (now init1 init2 : Z) : M (World S) () :=
  _ ← accept_client client_id f peer now init1 init2; mret tt.

(** ** Creation and release *)

(** [mutex] and [cond]: the results of the two initialisations. *)
Definition init_server_info (socket_id : Z) (now init1 init2 mutex cond : Z)
    : M S (option (ServerInfo * ClientData)) :=
  od ← new_client_info socket_id (Some (lit "IMServer")) C_TYPE_S (0, None, 0) now init1 init2;
  match od with
  | None => mret None
  | Some d =>
    ob ← cm_malloc 136;
    match ob with
    | None => _ ← release_client_info (Some d); mret None
    | Some _ =>
      if mutex =? SUCC then
        if cond =? SUCC then mret (Some (mkServer [] 0 1 0 0, d))
        else _ ← release_client_info (Some d); mret None
      else _ ← release_client_info (Some d); mret None
    end
  end.

Definition release_server_info : M (World S) () :=
  i ← server;
  _ ← put_server (stop i);
  _ ← release_client (info i);
  mret tt.
End ops.
