(* ===== verification/ServerSpec.v ===== *)
(** * What the server promises: invariants and specifications of IMServer.c

    [world_at X L w]: the memory of [w] is well formed with the caches of [L]
    handed out, the live clients are well formed and share no cache, and the
    caches of [X] are held by the running function itself. *)
From Stdlib Require Import Strings.Byte String.
From S2P Require Import Prelude CLib Alloc Buffer Message ClientInfo Server.

Record heap_inv (L : gset Z) (h : gmap Z ClientData) : Prop := {
  hi_client : forall a d, h !! a = Some d -> client_inv d;
  hi_owned : forall a d, h !! a = Some d -> client_owns d ⊆ L;
  hi_disj : forall a b da db, h !! a = Some da -> h !! b = Some db -> a <> b ->
    client_owns da ## client_owns db;
}.

Record world_at {S} `{CacheModuleLaws S} (X L : gset Z) (w : World S) : Prop := {
  wa_mem : cm_inv false L (w_mem w);
  wa_heap : heap_inv L (w_heap w);
  wa_held : X ⊆ L;
  wa_apart : forall a d, w_heap w !! a = Some d -> client_owns d ## X;
}.
Definition world_ok {S} `{CacheModuleLaws S} (X : gset Z) (w : World S) : Prop :=
  exists L, world_at X L w.

(** The server object against the heap. *)
Record server_ok {S} (w : World S) : Prop := {
  so_live : forall a, a ∈ clients (w_server w) -> is_Some (w_heap w !! a);
  so_nodup : NoDup (clients (w_server w));
  so_count : client_count (w_server w) = zlen (clients (w_server w));
  so_bound : zlen (clients (w_server w)) < 2 ^ 31;
}.

(** ** Delivery *)

(** A client's name as a string. *)
Definition cname (d : ClientData) : bytes :=
  match cstr (name d) with Ret s => s | _ => [] end.

(** Who gets a message for target [tn] that excludes [en]: clients not marked
    as failed, logged in, not excluded, and named (or everybody). *)
Definition wants (tn en : bytes) (d : ClientData) : bool :=
  negb (u64 FAIL =? pub d) && negb (bool_decide (en = cname d)) &&
  negb (bool_decide (cname d = bs UNKNOWN_CLIENT)) &&
  (bool_decide (tn = bs CMD_TO_ALL) || bool_decide (tn = cname d)).
Definition wants_at (h : gmap Z ClientData) (tn en : bytes) (a : Z) : bool :=
  match h !! a with Some d => wants tn en d | None => false end.

(** [d'] is [d] with [txt] queued for its socket. *)
Definition queued (txt : bytes) (d d' : ClientData) : Prop :=
  d' = set_writing (writing_buffer d') d /\
  contents (writing_buffer d') = contents (writing_buffer d) ++ txt.

(** The effect of a delivery to the clients of [l]. *)
Definition heap_delivered (tn en txt : bytes) (l : list Z) (h h' : gmap Z ClientData) : Prop :=
  forall a, match h !! a with
  | None => h' !! a = None
  | Some d => exists d', h' !! a = Some d' /\
      if bool_decide (a ∈ l) && wants tn en d then queued txt d d' else d' = d
  end.
Definition recipients (tn en : bytes) (l : list Z) (h : gmap Z ClientData) : list Z :=
  filter (fun a => wants_at h tn en a = true) l.

(** Only the memory and the heap changed. *)
Definition same_rest {S} (w w' : World S) : Prop :=
  w_fds w' = w_fds w /\ w_next w' = w_next w /\ w_server w' = w_server w.

(** The message as the server holds it. *)
Record msg_for (m : Msg) (tn en txt : bytes) : Prop := {
  mf_msg : msg_ok m tn txt;
  mf_exclude : cstr (exclude m) = Ret en;
  mf_size : 0 < zlen txt < 2 ^ 31;
}.

(** ** Lemmas on the invariant *)

Lemma heap_inv_mono L L' h : heap_inv L h -> L ⊆ L' -> heap_inv L' h.
Proof. intros [Hc Ho Hd] ?. constructor; try done. intros a d Ha. etrans; [by eapply Ho|done]. Qed.

Lemma heap_inv_update L L' h a d d' :
  heap_inv L h -> h !! a = Some d -> client_inv d' -> client_owns d' ⊆ L' ->
  client_owns d' ∩ L ⊆ client_owns d -> L ∖ client_owns d ⊆ L' ->
  heap_inv L' (<[a := d']> h).
Proof.
  intros [Hc Ho Hd] Ha Hd' HL' Hfr HLL.
  assert (forall b db, b <> a -> h !! b = Some db -> client_owns db ⊆ L' /\
    client_owns db ## client_owns d') as Hoth.
  { intros b db Hne Hb. pose proof (Ho _ _ Hb) as H1. pose proof (Hd _ _ _ _ Hb Ha Hne) as H2.
    clear -H1 H2 Hfr HLL. set_solver. }
  constructor.
  - intros b db Hb. destruct (decide (b = a)) as [->|Hne].
    + rw lookup_insert_eq in Hb. by injection Hb as <-.
    + rw lookup_insert_ne // in Hb. by eapply Hc.
  - intros b db Hb. destruct (decide (b = a)) as [->|Hne].
    + rw lookup_insert_eq in Hb. by injection Hb as <-.
    + rw lookup_insert_ne // in Hb. by eapply Hoth.
  - intros b1 b2 d1 d2 H1 H2 Hne.
    destruct (decide (b1 = a)) as [->|Hn1], (decide (b2 = a)) as [->|Hn2]; [done| | |].
    + rw lookup_insert_eq in H1. injection H1 as <-. rw lookup_insert_ne // in H2.
      symmetry. by eapply Hoth.
    + rw lookup_insert_eq in H2. injection H2 as <-. rw lookup_insert_ne // in H1.
      by eapply Hoth.
    + rw lookup_insert_ne // in H1. rw lookup_insert_ne // in H2. by eapply Hd.
Qed.

Lemma heap_inv_delete L h a d :
  heap_inv L h -> h !! a = Some d -> heap_inv (L ∖ client_owns d) (delete a h).
Proof.
  intros [Hc Ho Hd] Ha.
  assert (forall b db, delete a h !! b = Some db -> b <> a /\ h !! b = Some db) as Hin.
  { intros b db Hb. by apply lookup_delete_Some in Hb as [? ?]. }
  constructor.
  - intros b db [_ Hb]%Hin. by eapply Hc.
  - intros b db [Hne Hb]%Hin. pose proof (Ho _ _ Hb) as H1. pose proof (Hd _ _ _ _ Hb Ha Hne) as H2.
    clear -H1 H2. set_solver.
  - intros b1 b2 d1 d2 [_ H1]%Hin [_ H2]%Hin. by eapply Hd.
Qed.

Lemma heap_inv_new L h a d :
  heap_inv L h -> h !! a = None -> client_inv d -> client_owns d = ∅ ->
  heap_inv L (<[a := d]> h).
Proof.
  intros [Hc Ho Hd] Ha Hd' Hown. constructor.
  - intros b db [[<- <-]|[_ Hb]]%lookup_insert_Some; [done|by eapply Hc].
  - intros b db [[<- <-]|[_ Hb]]%lookup_insert_Some; [rw Hown; apply empty_subseteq|by eapply Ho].
  - intros b1 b2 d1 d2 [[<- <-]|[_ H1]]%lookup_insert_Some [[<- <-]|[_ H2]]%lookup_insert_Some Hne.
    + done.
    + rw Hown. apply disjoint_empty_l.
    + rw Hown. apply disjoint_empty_r.
    + by eapply Hd.
Qed.

Section lemmas.
Context {S : Type} `{!CacheModule S} `{!CacheModuleLaws S}.
Implicit Types (w : World S) (X L : gset Z).

Lemma wp_on_mem {A} u (m : M S A) w Q :
  wp u m (w_mem w) (fun a s' => Q a (set_mem s' w)) -> wp u (on_mem m) w Q.
Proof. rw /wp /on_mem. by destruct (m (w_mem w)) as [[a s']| |]. Qed.

Lemma wp_get_client u w a d (Q : ClientData -> World S -> Prop) :
  w_heap w !! a = Some d -> Q d w -> wp u (get_client a) w Q.
Proof. rw /wp /get_client. by intros ->. Qed.

Lemma wp_put_client u w a d (Q : () -> World S -> Prop) :
  Q tt (set_heap (<[a := d]> (w_heap w)) w) -> wp u (put_client a d) w Q.
Proof. done. Qed.

Lemma wp_server u w (Q : ServerInfo -> World S -> Prop) : Q (w_server w) w -> wp u server w Q.
Proof. done. Qed.
Lemma wp_put_server u w i (Q : () -> World S -> Prop) : Q tt (set_server i w) -> wp u (put_server i) w Q.
Proof. done. Qed.

(** A world that differs in what the memory invariant does not see. *)
Lemma world_ok_server X w i : world_ok X w -> world_ok X (set_server i w).
Proof. intros [L []]. exists L. by constructor. Qed.
Lemma world_ok_fds X w f : world_ok X w -> world_ok X (set_fds f w).
Proof. intros [L []]. exists L. by constructor. Qed.

Lemma world_mono X L L' w s :
  world_at X L w -> cm_inv false L' s -> L ⊆ L' -> world_at X L' (set_mem s w).
Proof.
  intros [] ? ?. constructor; try done; [by eapply heap_inv_mono|by etrans].
Qed.

Lemma world_update X L L' w s a d d' :
  world_at X L w -> w_heap w !! a = Some d -> client_inv d' -> cm_inv false L' s ->
  client_owns d' ⊆ L' -> client_owns d' ∩ L ⊆ client_owns d -> L ∖ client_owns d ⊆ L' ->
  world_at X L' (set_mem s (set_heap (<[a := d']> (w_heap w)) w)).
Proof.
  intros [Hm Hh HX Hap] Ha Hd' Hs HL' Hfr HLL. pose proof (Hap _ _ Ha) as Hda.
  constructor; simpl; [done|by eapply heap_inv_update| |].
  - clear -HX Hda HLL. set_solver.
  - intros b db [[<- <-]|[_ Hb]]%lookup_insert_Some; [|by eapply Hap].
    clear -HX Hda Hfr. set_solver.
Qed.

(** Holding one more cache, and giving it back. *)
Lemma world_hold X L w s c :
  world_at X L w -> (c ∉ L) -> cm_inv false ({[c]} ∪ L) s ->
  world_at ({[c]} ∪ X) ({[c]} ∪ L) (set_mem s w) /\ (c ∉ X).
Proof.
  intros [Hm Hh HX Hap] Hc Hs. split; [|clear -HX Hc; set_solver].
  constructor; simpl; [done|eapply heap_inv_mono; [done|clear; set_solver]|clear -HX; set_solver|].
  intros a d Ha. pose proof (Hap _ _ Ha) as H1. pose proof (hi_owned _ _ Hh _ _ Ha) as H2.
  clear -H1 H2 Hc. set_solver.
Qed.

Lemma world_drop X L w s c :
  world_at ({[c]} ∪ X) L w -> (c ∉ X) -> cm_inv false (L ∖ {[c]}) s ->
  world_at X (L ∖ {[c]}) (set_mem s w).
Proof.
  intros [Hm Hh HX Hap] Hc Hs. destruct Hh as [Hcl Ho Hd].
  constructor; simpl; [done| |clear -HX Hc; set_solver|].
  - constructor; [done| |done]. intros a d Ha. pose proof (Ho _ _ Ha) as H1.
    pose proof (Hap _ _ Ha) as H2. clear -H1 H2. set_solver.
  - intros a d Ha. pose proof (Hap _ _ Ha) as H2. clear -H2. set_solver.
Qed.

Lemma client_name d : client_inv d -> cstr (name d) = Ret (cname d) /\ zlen (cname d) < 30.
Proof. intros [_ _ _ (nm & Hn & Hl) _ _]. by rw /cname Hn. Qed.

Lemma client_inv_writing d b :
  client_inv d -> buffer_inv b -> owns (reading_buffer d) ## owns b -> client_inv (set_writing b d).
Proof. intros [] ? ?. by constructor. Qed.

(** Queueing [n] bytes for the client at [a]. *)
Lemma send_at_spec X w a d msg n :
  world_ok X w -> w_heap w !! a = Some d -> 0 < n < 2 ^ 31 -> n <= zlen msg ->
  wp false (send_msg a msg n) w (fun _ w' =>
    world_ok X w' /\ same_rest w w' /\
    exists d', w_heap w' = <[a := d']> (w_heap w) /\ queued (take (Z.to_nat n) msg) d d').
Proof.
  intros [L Hw] Ha Hn Hlen. pose proof (hi_client _ _ (wa_heap _ _ _ Hw) _ _ Ha) as Hd.
  pose proof (hi_owned _ _ (wa_heap _ _ _ Hw) _ _ Ha) as HL.
  unfold send_msg. apply wp_bind, (wp_get_client _ _ _ d); [done|].
  apply wp_bind, wp_on_mem. eapply wp_mono.
  { apply (send_msg_spec false L); [apply (wa_mem _ _ _ Hw)|apply (ci_writing _ Hd)| |done|done].
    unfold client_owns in HL. clear -HL. set_solver. }
  intros [r d'] s (k & L' & Hk & Hkn & Hd' & Hb & Hc & Hs & HLL & Ho & _ & _ & Hfr).
  specialize (Hkn eq_refl). subst k. wp_steps.
  assert (owns (reading_buffer d) ## owns (writing_buffer d')) as Hdis.
  { pose proof (ci_disjoint _ Hd) as H1. unfold client_owns in HL. clear -H1 Hfr HL. set_solver. }
  assert (client_owns d' = owns (reading_buffer d) ∪ owns (writing_buffer d')) as Hown by by rw Hd'.
  split_and!.
  - exists L'. eapply (world_update X L L' w s a d d'); try done.
    + rw Hd'. by apply client_inv_writing.
    + rw Hown. unfold client_owns in HL. clear -HL HLL Ho. set_solver.
    + rw Hown. unfold client_owns. clear -Hfr. set_solver.
    + clear -HLL. set_solver.
  - done.
  - by exists d'.
Qed.
End lemmas.

(** ** Lemmas on delivery *)

Section delivery.
Context {S : Type} `{!CacheModule S} `{!CacheModuleLaws S}.
Implicit Types (w : World S) (X L : gset Z).

Lemma same_rest_refl w : same_rest w w.
Proof. done. Qed.
Lemma same_rest_trans w1 w2 w3 : same_rest w1 w2 -> same_rest w2 w3 -> same_rest w1 w3.
Proof. intros (H1 & H2 & H3) (H4 & H5 & H6). split_and!; congruence. Qed.

Lemma get_client_list_spec X w :
  world_ok X w -> server_ok w ->
  wp false get_client_list w (fun r w' =>
    r = (Some (clients (w_server w)), zlen (clients (w_server w))) /\
    world_ok X w' /\ same_rest w w' /\ w_heap w' = w_heap w).
Proof.
  intros [L Hw] Hs. unfold get_client_list. apply wp_bind. cbn.
  apply wp_bind, wp_on_mem. eapply wp_mono; [apply cm_malloc_spec, (wa_mem _ _ _ Hw)|].
  intros [blk|] s (Hs' & Hu & _); [|by destruct Hu].
  wp_steps. unfold copy_list. rw (so_count _ Hs) (proj2 (Z.leb_le _ _)); [lia|]. wp_steps.
  split; [done|]. split; [|done]. exists L. by eapply world_mono.
Qed.

Lemma heap_delivered_nil tn en txt h : heap_delivered tn en txt [] h h.
Proof.
  intros a. destruct (h !! a) as [d|]; [|done]. exists d. split; [done|].
  rw bool_decide_false //. by intros ?%not_elem_of_nil.
Qed.

Lemma heap_delivered_skip tn en txt a l h h' :
  wants_at h tn en a = false -> heap_delivered tn en txt l h h' ->
  heap_delivered tn en txt (a :: l) h h'.
Proof.
  intros Hno Hl b. specialize (Hl b). destruct (h !! b) as [d|] eqn:Hb; [|done].
  destruct Hl as (d' & Hd' & Hr). exists d'. split; [done|].
  destruct (wants tn en d) eqn:Hw; [|rw andb_false_r in Hr; rw andb_false_r; exact Hr].
  assert (a <> b) as Hne. { intros ->. by rw /wants_at Hb Hw in Hno. }
  assert (bool_decide (b ∈ a :: l) = bool_decide (b ∈ l)) as ->; [|done].
  apply bool_decide_ext. rw elem_of_cons. naive_solver.
Qed.

Lemma heap_delivered_cons tn en txt a d d' l h h' :
  h !! a = Some d -> wants tn en d = true -> queued txt d d' -> (a ∉ l) ->
  heap_delivered tn en txt l (<[a := d']> h) h' ->
  heap_delivered tn en txt (a :: l) h h'.
Proof.
  intros Ha Hw Hq Hal Hl b. specialize (Hl b). destruct (decide (b = a)) as [->|Hne].
  - rw lookup_insert_eq in Hl. rw Ha. destruct Hl as (d2 & Hd2 & Hr).
    rw bool_decide_false // in Hr. simpl in Hr. subst d2. exists d'. split; [done|].
    rw bool_decide_true ?Hw //. apply list_elem_of_here.
  - rw lookup_insert_ne // in Hl. destruct (h !! b) as [db|]; [|done].
    destruct Hl as (d2 & Hd2 & Hr). exists d2. split; [done|].
    assert (bool_decide (b ∈ a :: l) = bool_decide (b ∈ l)) as ->; [|done].
    apply bool_decide_ext. rw elem_of_cons. naive_solver.
Qed.

Lemma queued_wants tn en txt d d' : queued txt d d' -> wants tn en d' = wants tn en d.
Proof. intros [-> _]. done. Qed.

Lemma recipients_update tn en txt a d d' l h :
  h !! a = Some d -> queued txt d d' ->
  recipients tn en l (<[a := d']> h) = recipients tn en l h.
Proof.
  intros Ha Hq. unfold recipients. apply list_filter_iff. intros b. unfold wants_at.
  destruct (decide (b = a)) as [->|Hne].
  - rw lookup_insert_eq Ha (queued_wants _ _ _ _ _ Hq) //.
  - by rw lookup_insert_ne.
Qed.

(** One client's turn in the loop: the tests decide [wants]. *)
Lemma deliver_tests m tn en txt d :
  msg_for m tn en txt -> client_inv d ->
  exists r1 r2, filter_out m (name d) = Ret r1 /\ is_target m (name d) = Ret r2 /\
    wants tn en d = negb (u64 FAIL =? pub d) && negb (r1 =? SUCC) &&
                    (bool_decide (tn = bs CMD_TO_ALL) || (r2 =? SUCC)).
Proof.
  intros [Hm He _] Hd. destruct (client_name _ Hd) as [Hn _]. unfold filter_out, is_target.
  destruct (strcmp_spec _ _ _ _ He Hn) as (r1 & -> & H1).
  destruct (strcmp_spec (name d) (lit UNKNOWN_CLIENT) _ (bs UNKNOWN_CLIENT) Hn eq_refl) as (r2 & Hr2 & H2).
  destruct (strcmp_spec _ _ _ _ (mo_target _ _ _ Hm) Hn) as (r3 & -> & H3).
  simpl. rw Hr2. exists (if r1 =? SUCC then SUCC else if r2 =? SUCC then SUCC else -1), r3.
  unfold SUCC in *. split; [by destruct (r1 =? 0)|]. split; [done|]. unfold wants.
  assert (bool_decide (en = cname d) = (r1 =? 0)) as ->.
  { destruct (Z.eqb_spec r1 0); [apply bool_decide_true|apply bool_decide_false]; tauto. }
  assert (bool_decide (cname d = bs UNKNOWN_CLIENT) = (r2 =? 0)) as ->.
  { destruct (Z.eqb_spec r2 0); [apply bool_decide_true|apply bool_decide_false]; tauto. }
  assert (bool_decide (tn = cname d) = (r3 =? 0)) as ->.
  { destruct (Z.eqb_spec r3 0); [apply bool_decide_true|apply bool_decide_false]; tauto. }
  destruct (r1 =? 0), (r2 =? 0); simpl; by rw ?andb_false_r ?andb_true_r.
Qed.

(** The rest [suf] of the snapshot has been visited. *)
Definition visited (X : gset Z) (tn en txt : bytes) (suf : list Z) (sent : Z) (w : World S) (n : Z) (w' : World S) : Prop :=
  n = sent + zlen (recipients tn en suf (w_heap w)) /\
  world_ok X w' /\ same_rest w w' /\ heap_delivered tn en txt suf (w_heap w) (w_heap w').

Lemma visited_skip X tn en txt a suf sent w n w' :
  (a ∉ suf) -> wants_at (w_heap w) tn en a = false ->
  visited X tn en txt suf sent w n w' -> visited X tn en txt (a :: suf) sent w n w'.
Proof.
  intros Ha Hat (-> & ? & ? & ?). split_and!; try done.
  - rw /recipients filter_cons_False //. by rw Hat.
  - by apply heap_delivered_skip.
Qed.

Lemma visited_send X tn en txt a suf sent d d' w w1 n w' :
  (a ∉ suf) -> w_heap w !! a = Some d -> wants tn en d = true -> queued txt d d' -> same_rest w w1 ->
  w_heap w1 = <[a := d']> (w_heap w) ->
  visited X tn en txt suf (sent + 1) w1 n w' -> visited X tn en txt (a :: suf) sent w n w'.
Proof.
  intros Ha Hd Hyes Hq Hr1 Hh1 (-> & Hw' & Hr' & Hdel). rw Hh1 in Hdel |- *. split_and!; try done.
  - rw (recipients_update _ _ _ _ _ _ _ _ Hd Hq) {2}/recipients filter_cons_True.
    { by rw /wants_at Hd. } rw zlen_cons -/(recipients tn en suf (w_heap w)). lia.
  - by eapply same_rest_trans.
  - by eapply heap_delivered_cons.
Qed.

Lemma deliver_loop_spec X m tn en txt suf : forall pre w sent,
  msg_for m tn en txt -> world_ok X w -> NoDup suf ->
  (forall a, a ∈ suf -> is_Some (w_heap w !! a)) ->
  0 <= sent -> sent + zlen suf < 2 ^ 31 ->
  wp false (deliver_loop m (bool_decide (tn = bs CMD_TO_ALL)) (pre ++ suf)
              (seq (length pre) (length suf)) sent) w (visited X tn en txt suf sent w).
Proof.
  induction suf as [|a suf IH]; intros pre w sent Hm Hw Hnd Hlive Hs Hb; cbn [length seq deliver_loop].
  { apply wp_ret. split_and!; try done; [by rw zlen_nil Z.add_0_r|apply heap_delivered_nil]. }
  apply NoDup_cons in Hnd as [Ha Hnd]. destruct (Hlive a) as [d Hd]; [apply list_elem_of_here|].
  assert (client_inv d) as Hci by (destruct Hw as [L Hw]; by eapply hi_client, Hd; eapply wa_heap).
  unfold entry. rw list_lookup_middle //. wp_steps. apply (wp_get_client _ _ _ d); [done|].
  destruct (deliver_tests _ _ _ _ _ Hm Hci) as (r1 & r2 & H1 & H2 & Hwant).
  rw zlen_cons in Hb. pose proof (zlen_nonneg suf).
  assert (forall w1 k, world_ok X w1 -> (forall b, b ∈ suf -> is_Some (w_heap w1 !! b)) -> 0 <= k <= sent + 1 ->
    wp false (deliver_loop m (bool_decide (tn = bs CMD_TO_ALL)) (pre ++ a :: suf)
      (seq (Datatypes.S (length pre)) (length suf)) k) w1 (visited X tn en txt suf k w1)) as Hrest.
  { intros w1 k Hw1 Hlive1 Hk. assert (pre ++ a :: suf = (pre ++ [a]) ++ suf) as -> by by rw -app_assoc.
    assert (Datatypes.S (length pre) = length (pre ++ [a])) as -> by zl. apply IH; try done; lia. }
  assert (forall b, b ∈ suf -> is_Some (w_heap w !! b)) as Hlive'.
  { intros b Hb'. apply Hlive. by apply list_elem_of_further. }
  assert (wants tn en d = false ->
    wp false (deliver_loop m (bool_decide (tn = bs CMD_TO_ALL)) (pre ++ a :: suf)
      (seq (Datatypes.S (length pre)) (length suf)) sent) w (visited X tn en txt (a :: suf) sent w)) as Hskip.
  { intros Hno. eapply wp_mono; [apply Hrest; [done..|lia]|]. intros n w'. apply visited_skip; [done|].
    by rw /wants_at Hd. }
  destruct (u64 FAIL =? pub d) eqn:Hpub; [by apply Hskip|].
  wp_steps. rw H1. wp_steps. destruct (r1 =? SUCC) eqn:Hr1; [apply Hskip; by rw Hwant|].
  apply wp_bind, (wp_run _ _ _ (wants tn en d) w).
  { simpl in Hwant. rw Hwant. destruct (bool_decide (tn = bs CMD_TO_ALL)); [done|].
    unfold mbind, M_bind. by rw H2. }
  destruct (wants tn en d) eqn:Hyes; [|by apply Hskip].
  pose proof (mf_size _ _ _ _ Hm) as Hsz. pose proof (mf_msg _ _ _ _ Hm) as Hmsg.
  rw (mo_content _ _ _ Hmsg) (mo_size _ _ _ Hmsg).
  eapply wp_bind, wp_mono; [by apply (send_at_spec X w a d (txt ++ [nul]) (zlen txt)); [..|lia|zl]|].
  intros r w1 (Hw1 & Hr1' & d' & Hh1 & Hq). cbv beta. rw /zlen Nat2Z.id take_app_length in Hq.
  rw i32_small; [lia|]. eapply wp_mono.
  - apply Hrest; [done| |lia]. intros b Hb'. rw Hh1. destruct (decide (b = a)) as [->|Hne]; [by rw lookup_insert_eq|].
    rw lookup_insert_ne //. by apply Hlive'.
  - intros n w'. by eapply visited_send.
Qed.

(** Delivery reaches exactly the clients that want the message. *)
Lemma deliver_spec X w m tn en txt :
  world_ok X w -> server_ok w -> msg_for m tn en txt ->
  wp false (deliver_msg_to_all_clients m) w (fun n w' =>
    n = zlen (recipients tn en (clients (w_server w)) (w_heap w)) /\
    world_ok X w' /\ same_rest w w' /\
    heap_delivered tn en txt (clients (w_server w)) (w_heap w) (w_heap w')).
Proof.
  intros Hw Hs Hm. unfold deliver_msg_to_all_clients.
  eapply wp_bind, wp_mono; [by apply get_client_list_spec|].
  intros r w1 (-> & Hw1 & Hr1 & Hh1). cbv beta iota. wp_steps.
  destruct (strcmp_spec _ (lit CMD_TO_ALL) _ (bs CMD_TO_ALL) (mo_target _ _ _ (mf_msg _ _ _ _ Hm)) eq_refl)
    as (r & Hr & Heq).
  rw /is_msg_to_all Hr. wp_steps.
  assert ((r =? SUCC) = bool_decide (tn = bs CMD_TO_ALL)) as ->.
  { unfold SUCC. symmetry.
    destruct (Z.eqb_spec r 0); [apply bool_decide_true|apply bool_decide_false]; tauto. }
  rw /= /zlen Nat2Z.id. destruct Hs as [Hlive Hnd _ Hb].
  eapply wp_mono; [apply (deliver_loop_spec X m tn en txt _ [] w1 0 Hm Hw1 Hnd)|].
  - intros a Ha. rw Hh1. by apply Hlive.
  - lia.
  - lia.
  - intros n w' (-> & ? & ? & Hdel). rw Hh1 in Hdel |- *. split_and!; try done. by eapply same_rest_trans.
Qed.
End delivery.

(** ** Commands

    The grammar of the lines a client sends, the newline removed.
    [CmdBeyond]: the code looks behind the line. *)
Inductive command :=
| CmdLogin (nm : bytes)
| CmdAll (text : bytes)
| CmdTo (tn text : bytes)
| CmdOther
| CmdBeyond.

Definition colon (l : bytes) : option nat := fst <$> list_find (fun c => c = x3a) l.

Definition parse_line (l : bytes) : command :=
  if is_prefix (bs CMD_LOGIN) l then CmdLogin (drop 7 l)
  else if is_prefix (bs CMD_TO_ALL) l then
    if 8 <=? zlen l then CmdAll (drop 8 l) else CmdBeyond
  else if is_prefix (bs CMD_TO_C) l then
    match colon l with
    | Some i => if Z.of_nat i + 2 <=? zlen l
                then CmdTo (take (i - 5) (drop 5 l)) (drop (i + 2) l) else CmdBeyond
    | None => CmdBeyond
    end
  else CmdOther.

(** The message a command from [sender] causes: target, excluded name, text. *)
Definition command_message (sender : bytes) (c : command) : option (bytes * bytes * bytes) :=
  match c with
  | CmdLogin nm =>
    let nm := take 29 nm in
    Some (bs CMD_TO_ALL, nm, sys_text (nm ++ bs " " ++ bs MSG_LOGIN_SUFFIX))
  | CmdAll text => Some (bs CMD_TO_ALL, sender, p2p_text sender text)
  | CmdTo tn text => Some (tn, sender, p2p_text sender text)
  | CmdOther | CmdBeyond => None
  end.

(** The sender's own change. *)
Definition renamed (c : command) (d d' : ClientData) : Prop :=
  match c with
  | CmdLogin nm => exists arr, d' = set_name arr d /\ zlen arr = 30 /\ cstr arr = Ret (take 29 nm)
  | _ => d' = d
  end.

(** ** Lemmas on texts *)

Lemma strstr_prefix m p :
  nul ∈ m -> exists r, strstr m p = Ret r /\ (r = Some 0 <-> is_prefix p m = true) /\
    (forall j, r = Some j -> 0 <= j).
Proof.
  induction m as [|x m IH]; intros Hm; [by apply not_elem_of_nil in Hm|].
  cbn [strstr]. destruct (is_prefix p (x :: m)) eqn:Hp.
  - exists (Some 0). split_and!; [done|done|]. by intros j [= <-].
  - case_decide as Hx; [exists None; done|].
    destruct IH as (r & -> & _ & Hpos); [set_solver|]. simpl. eexists. split; [done|].
    destruct r as [j|]; simpl; [|done]. specialize (Hpos _ eq_refl). split.
    + split; [intros [= ?]; lia|done].
    + intros k [= <-]. lia.
Qed.

(** A pattern without newline is found in the line or not at all. *)
Lemma is_prefix_line p l m : nl ∉ p -> is_prefix p (l ++ nl :: m) = is_prefix p l.
Proof.
  intros Hp. unfold is_prefix. apply bool_decide_ext.
  destruct (decide (length p <= length l)%nat) as [Hle|Hgt]; [by rw take_app_le|].
  split; intros Heq.
  - exfalso. apply Hp. rw -Heq take_app_ge; [lia|]. apply elem_of_app. right.
    destruct (length p - length l)%nat eqn:Hk; [lia|]. apply list_elem_of_here.
  - rw take_ge in Heq; [lia|]. subst. lia.
Qed.

(** The test "the text at [msg] starts with [p]" on a line. *)
Lemma strstr_line l after p :
  (nl ∉ p) -> (nul ∈ after) -> exists r, strstr ((l ++ [nl]) ++ after) p = Ret r /\
    bool_decide (r = Some 0) = is_prefix p l.
Proof.
  intros Hpn Haft. destruct (strstr_prefix ((l ++ [nl]) ++ after) p) as (r & Hr & Hz & _).
  { apply elem_of_app. by right. }
  exists r. split; [done|]. rw -app_assoc /= is_prefix_line // in Hz.
  destruct (is_prefix p l); [apply bool_decide_true; tauto|apply bool_decide_false].
  intros H%Hz. done.
Qed.

Lemma is_prefix_len p l : is_prefix p l = true -> (length p <= length l)%nat.
Proof. intros H%bool_decide_eq_true. rw -H length_take. lia. Qed.

Lemma strchr_colon l m i :
  nul ∉ l -> colon l = Some i -> strchr (l ++ m) x3a = Ret (Some (Z.of_nat i)) /\ (i < length l)%nat.
Proof.
  unfold colon. revert i. induction l as [|x l IH]; intros i Hnul; simpl; [done|].
  apply not_elem_of_cons in Hnul as [Hx Hnul].
  case_decide; [intros [= <-]; split; [done|lia]|]. rw decide_False; [congruence|].
  destruct (list_find _ l) as [[j c]|]; simpl; [|done]. intros [= <-].
  destruct (IH j Hnul eq_refl) as [-> ?]. split; [|lia]. simpl. do 2 f_equal. lia.
Qed.

(** The name starts right behind the command, so the colon is not before it. *)
Lemma colon_after l i : is_prefix (bs CMD_TO_C) l = true -> colon l = Some i -> (5 <= i)%nat.
Proof.
  intros Hp%bool_decide_eq_true Hi. unfold colon in Hi.
  destruct (list_find _ l) as [[j c]|] eqn:Hf; [|done]. injection Hi as <-.
  apply list_find_Some in Hf as (Hj & -> & _).
  destruct (decide (5 <= j)%nat) as [|Hlt]; [done|]. exfalso.
  assert (take 5 l !! j = Some x3a) as Ht by (rw lookup_take_lt; [lia|done]).
  change 5%nat with (length (bs CMD_TO_C)) in Ht. rw Hp in Ht.
  destruct j as [|[|[|[|[|]]]]]; by vm_compute in Ht.
Qed.

Lemma at_offset_line k l after :
  0 <= k <= zlen l -> at_offset k (l ++ [nl]) after = (drop (Z.to_nat k) l ++ [nl], after).
Proof.
  intros Hk. unfold at_offset. rw drop_app_le; [zl|]. f_equal.
  replace (_ - _)%nat with 0%nat; [done|]. zl.
Qed.

Section notices.
Context {S : Type} `{!CacheModule S} `{!CacheModuleLaws S}.
Implicit Types (s : S) (w : World S) (X L : gset Z).

Lemma fresh_room n c : cache_fresh n c -> 64 <= zlen (buff c) <= 2048.
Proof.
  intros Hf. destruct (cache_fresh_ok _ _ Hf) as [Hc ->].
  rw /size_classes list_elem_of_In /= in Hc. lia.
Qed.

(** The message composed in a cache. *)
Lemma notice_message L s nm sn suffix n c :
  cm_inv false L s -> cstr nm = Ret sn -> zlen sn < 30 -> (nl ∉ sn) ->
  (nl ∉ bs suffix) -> (nul ∉ bs suffix) -> zlen (bs suffix) <= 20 -> cache_fresh n c ->
  exists b, store_cstr (sn ++ bs " " ++ bs suffix) (buff c) = Ret b /\ zlen b = zlen (buff c) /\
  forall after, wp false (create_sys_msg_base_on_content (Some (lit CMD_TO_ALL)) b after) s (fun om s' =>
    cm_inv false L s' /\ exists m e, om = Some m /\ strcpy (exclude m) nm = Ret e /\
    msg_for (mkMsg (target m) e (size m) (content m)) (bs CMD_TO_ALL) sn
            (sys_text (sn ++ bs " " ++ bs suffix))).
Proof.
  intros Hinv Hnm Hl Hnl Hs1 Hs2 Hs3 Hf. pose proof (fresh_room _ _ Hf) as Hroom.
  pose proof (cstr_no_nul _ _ Hnm) as Hnul. pose proof (zlen_nonneg sn).
  set (txt := sn ++ bs " " ++ bs suffix).
  assert (zlen txt <= 50 /\ 0 <= zlen txt) as [Htxt Htxt0].
  { unfold txt. rw !zlen_app. change (zlen (bs " ")) with 1. pose proof (zlen_nonneg (bs suffix)). lia. }
  assert (nl ∉ txt) as Htnl.
  { unfold txt. rw !not_elem_of_app. split_and!; [done|by apply (bool_decide_unpack _); vm_compute|done]. }
  assert (nul ∉ txt) as Htnul.
  { unfold txt. rw !not_elem_of_app. split_and!; [done|by apply (bool_decide_unpack _); vm_compute|done]. }
  eexists. rw store_cstr_in; [lia|]. split; [done|]. split.
  { rw zlen_app zlen_cons zlen_drop; [lia|]. lia. }
  intros after. eapply wp_mono.
  - eapply (create_sys_spec false L s (lit CMD_TO_ALL) (bs CMD_TO_ALL) _ _ after txt); [done|done| | |done|lia].
    + by apply cut_line_nul.
    + rw -app_assoc. by apply cstr_nul.
  - intros om s' (Hinv' & Hu & Hm). split; [done|]. destruct om as [m|]; [|by destruct Hu].
    destruct (Hm _ eq_refl) as [[Ht Hc Hsz] He].
    destruct (strcpy_in (exclude m) nm sn Hnm) as (e & Hcpy & Hce & _); [lia|].
    exists m, e. split_and!; try done. constructor; [by constructor|done|].
    change (0 < zlen (sys_text txt) < 2 ^ 31). unfold sys_text. rw zlen_app (zlen_app txt).
    change (zlen (bs "FROM SYSTEM: ")) with 13.
    change (zlen [nl]) with 1. lia.
Qed.

Lemma recycle_fresh L s n c b :
  cm_inv false ({[cid c]} ∪ L) s -> cache_fresh n c -> zlen b = zlen (buff c) ->
  wp false (cm_recycle (mkCache (cid c) (allocated_size c) (cache_size c) b)) s (fun _ s' =>
    cm_inv false (({[cid c]} ∪ L) ∖ {[cid c]}) s').
Proof.
  intros Hinv Hf Hb. eapply wp_mono; [apply (cm_recycle_spec _ ({[cid c]} ∪ L)); [done|clear; set_solver|]|].
  - destruct (cache_fresh_ok _ _ Hf) as [Hc Hl]. constructor; [done|]. simpl. by rw Hb.
  - by intros r s' [_ ?].
Qed.

Lemma drop_held L (c : Z) : c ∉ L -> ({[c]} ∪ L) ∖ {[c]} = L.
Proof. intros. set_solver. Qed.

Lemma notice_spec ha L s nm sn suffix :
  cm_inv false L s -> cstr nm = Ret sn -> zlen sn < 30 -> (nl ∉ sn) ->
  (nl ∉ bs suffix) -> (nul ∉ bs suffix) -> zlen (bs suffix) <= 20 ->
  wp false (notice ha nm suffix) s (fun om s' =>
    cm_inv false L s' /\ exists m, om = Some m /\
    msg_for m (bs CMD_TO_ALL) sn (sys_text (sn ++ bs " " ++ bs suffix))).
Proof.
  intros Hinv Hnm Hl Hnl Hs1 Hs2 Hs3. unfold notice. wp_steps. rw Hnm. wp_steps.
  pose proof (zlen_nonneg sn). pose proof (zlen_nonneg (bs suffix)).
  rw i32_small; [lia|]. wp_use (cm_get_spec false L); [done|lia|].
  intros oc s1 (c & -> & Hf & Hc & Hinv1).
  destruct (notice_message _ s1 nm sn suffix _ c Hinv1 Hnm Hl Hnl Hs1 Hs2 Hs3 Hf) as (b & Hst & Hb & Hmsg).
  wp_steps. rw Hst. wp_steps. wp_use (Hmsg (ha (cid c))).
  intros om s2 (Hinv2 & m & e & -> & Hcpy & Hm). wp_steps. rw Hcpy. wp_steps.
  wp_use recycle_fresh; [exact Hinv2|exact Hf|exact Hb|]. intros r s3 Hinv3. apply wp_ret.
  rw drop_held // in Hinv3. split; [done|]. by eexists.
Qed.
End notices.

(** ** Handling one line *)

Section handling.
Context {S : Type} `{!CacheModule S} `{!CacheModuleLaws S}.
Context (heap_after : Z -> bytes).
Implicit Types (s : S) (w : World S) (X L : gset Z).

(** What the handling of a line with command [c] by the client [a] does. *)
Definition line_effect (c : command) (a : Z) (d : ClientData) (l : list Z)
    (h : gmap Z ClientData) (n : Z) (h' : gmap Z ClientData) : Prop :=
  exists d1, renamed c d d1 /\
    match command_message (cname d) c with
    | Some (tn, en, txt) =>
      n = zlen (recipients tn en l (<[a := d1]> h)) /\
      heap_delivered tn en txt l (<[a := d1]> h) h'
    | None => n = 0 /\ h' = h
    end.

Lemma client_inv_rename d arr sn :
  client_inv d -> cstr arr = Ret sn -> zlen sn < 30 -> client_inv (set_name arr d).
Proof. intros [] ? ?. constructor; try done. by exists sn. Qed.

Lemma world_rename X w a d arr sn :
  world_ok X w -> w_heap w !! a = Some d -> zlen arr = 30 -> cstr arr = Ret sn -> zlen sn < 30 ->
  world_ok X (set_heap (<[a := set_name arr d]> (w_heap w)) w).
Proof.
  intros [L Hw] Ha Hl Hsn Hlt. exists L.
  pose proof (hi_client _ _ (wa_heap _ _ _ Hw) _ _ Ha) as Hd.
  apply (world_update X L L w (w_mem w) a d (set_name arr d)); try done.
  - by eapply client_inv_rename.
  - apply (wa_mem _ _ _ Hw).
  - apply (hi_owned _ _ (wa_heap _ _ _ Hw) _ _ Ha).
  - apply intersection_subseteq_l.
  - clear. set_solver.
Qed.

Lemma server_ok_insert w a d1 :
  server_ok w -> is_Some (w_heap w !! a) -> server_ok (set_heap (<[a := d1]> (w_heap w)) w).
Proof.
  intros [Hl ? ? ?] Ha. constructor; try done. simpl. intros b Hb.
  destruct (decide (b = a)) as [->|Hne]; [rw lookup_insert_eq; by eexists|].
  rw lookup_insert_ne //. by apply Hl.
Qed.

Lemma world_mem_ok X L w s : world_at X L w -> cm_inv false L s -> world_ok X (set_mem s w).
Proof. intros [] ?. exists L. by constructor. Qed.

(** Delivering a message to whom it is for, from a world whose heap is [h]. *)
Lemma deliver_here X w m tn en txt :
  world_ok X w -> server_ok w -> msg_for m tn en txt ->
  wp false (deliver_msg_to_all_clients m) w (fun n w' =>
    world_ok X w' /\ same_rest w w' /\
    n = zlen (recipients tn en (clients (w_server w)) (w_heap w)) /\
    heap_delivered tn en txt (clients (w_server w)) (w_heap w) (w_heap w')).
Proof. intros. eapply wp_mono; [by apply deliver_spec|]. naive_solver. Qed.

Lemma user_login_spec X w a d l after :
  world_ok X w -> server_ok w -> w_heap w !! a = Some d -> (nl ∉ l) -> (nul ∉ l) ->
  zlen l < 2 ^ 30 -> is_prefix (bs CMD_LOGIN) l = true ->
  wp false (user_login heap_after a (l ++ [nl]) after) w (fun om w1 =>
    exists m d1, om = Some m /\ renamed (CmdLogin (drop 7 l)) d d1 /\
    let nm := take 29 (drop 7 l) in
    msg_for m (bs CMD_TO_ALL) nm (sys_text (nm ++ bs " " ++ bs MSG_LOGIN_SUFFIX)) /\
    world_ok X w1 /\ same_rest w w1 /\ w_heap w1 = <[a := d1]> (w_heap w)).
Proof.
  intros Hw Hs Ha Hnl Hnul Hlen Hp. apply is_prefix_len in Hp. change (length (bs CMD_LOGIN)) with 7%nat in Hp.
  unfold user_login. wp_steps. rw cut_line_nl //. wp_steps. change (zlen (bs CMD_LOGIN)) with 7.
  unfold ptr_at. rw (proj2 (Z.leb_le 7 _)) /=; [zl|]. wp_steps.
  apply (wp_get_client _ _ _ d); [done|].
  assert (cstr (drop (Z.to_nat 7) (l ++ [nul]) ++ after) = Ret (drop 7 l)) as Hnm.
  { change (Z.to_nat 7) with 7%nat. rw drop_app_le // -app_assoc /=. apply cstr_nul.
    by intros Hin%elem_of_drop_in. }
  destruct (update_name_cstr _ _ Hnm) as (arr & Harr & Hcs & Hal); [zl|].
  wp_steps. rw /update_client_name Harr. wp_steps.
  set (nm := take 29 (drop 7 l)) in *.
  assert (nl ∉ nm) as Hnmnl.
  { by intros Hin%elem_of_take_in%elem_of_drop_in. }
  assert (zlen nm < 30) as Hnml by (unfold nm; zl).
  apply wp_put_client.
  pose proof (world_rename X w a d arr nm Hw Ha Hal Hcs Hnml) as [L1 Hw1].
  apply wp_on_mem. eapply wp_mono.
  { apply (notice_spec heap_after L1 _ arr nm MSG_LOGIN_SUFFIX); [apply (wa_mem _ _ _ Hw1)|done|done|done
      |by apply (bool_decide_unpack _); vm_compute|by apply (bool_decide_unpack _); vm_compute|done]. }
  intros om s1 (Hs1 & m & -> & Hm). exists m, (set_name arr d).
  split_and!; try done; [by exists arr|by eapply world_mem_ok].
Qed.

Lemma p2p_here L s nm sn t tn text after :
  cm_inv false L s -> cstr nm = Ret sn -> zlen sn < 30 -> cstr t = Ret tn -> zlen tn < 30 ->
  (nl ∉ text) -> (nul ∉ text) -> zlen text < 2 ^ 30 ->
  wp false (create_p2p_msg_base_on_content nm (Some t) (text ++ [nl]) after) s (fun om s' =>
    cm_inv false L s' /\ exists m, om = Some m /\ msg_for m tn sn (p2p_text sn text)).
Proof.
  intros Hinv Hnm Hl Ht Htl Hnl Hnul Hlen. eapply wp_mono.
  - eapply (create_p2p_spec false L s nm sn t tn _ _ after text); try done.
    + by apply cut_line_nl.
    + rw -app_assoc. by apply cstr_nul.
  - intros om s' (Hinv' & Hu & Hm). split; [done|]. destruct om as [m|]; [|by destruct Hu].
    destruct (Hm _ eq_refl) as [Hmsg He]. exists m. split; [done|]. constructor; try done.
    unfold p2p_text. rw !zlen_app. pose proof (zlen_nonneg sn). pose proof (zlen_nonneg text).
    change (zlen (bs "FROM ")) with 5. change (zlen (bs ": ")) with 2. change (zlen [nl]) with 1. lia.
Qed.

(** The name copied into a cache is terminated by the zeros of the cache. *)
Lemma cache_name n c tn rest k :
  cache_fresh n c -> zlen tn = k -> k < 64 -> (nul ∉ tn) ->
  exists b, strncpy (buff c) (tn ++ rest) k = Ret b /\ zlen b = zlen (buff c) /\
    forall m, cstr (b ++ m) = Ret tn.
Proof.
  intros Hf Hk Hlt Hnul. pose proof (fresh_room _ _ Hf) as Hroom. pose proof (fresh_zero _ _ Hf) as Hz.
  assert (strn_take (Z.to_nat k) (tn ++ rest) = Ret tn) as Htk.
  { rw -Hk /zlen Nat2Z.id. clear -Hnul. induction tn as [|x tn IH]; [done|].
    apply not_elem_of_cons in Hnul as [? Hnul]. simpl. rw decide_False; [congruence|]. by rw IH. }
  unfold strncpy. rw Htk /=. eexists. rw mem_write_in; [lia|lia|]. split; [done|].
  rw Nat.add_0_l take_0 /=. split; [zl|]. intros m. rw -app_assoc Hz /zeros drop_replicate.
  rw Hz zlen_zeros in Hroom.
  destruct (Z.to_nat (allocated_size c) - length tn)%nat eqn:Hn; [zl|]. simpl. by apply cstr_nul.
Qed.

Lemma p2p_to_spec X w a d l after i :
  world_ok X w -> w_heap w !! a = Some d -> (nl ∉ l) -> (nul ∉ l) -> zlen l < 2 ^ 30 ->
  is_prefix (bs CMD_TO_C) l = true -> colon l = Some i -> Z.of_nat i + 2 <= zlen l ->
  zlen (take (i - 5) (drop 5 l)) < 30 ->
  let ind := Z.of_nat i in
  wp false (oc ← on_mem (cm_get (i32 (ind - 5)));
    match oc with
    | None => mret None
    | Some c =>
      b ← lift (strncpy (buff c) (drop 5 ((l ++ [nl]) ++ after)) (i32 (ind - 5)));
      d ← get_client a;
      let '(own', after') := at_offset (ind + 2) (l ++ [nl]) after in
      om ← on_mem (create_p2p_msg_base_on_content (name d) (Some (b ++ heap_after (cid c))) own' after');
      _ ← on_mem (cm_recycle (mkCache (cid c) (allocated_size c) (cache_size c) b));
      mret om
    end) w (fun om w1 => exists m, om = Some m /\
      msg_for m (take (i - 5) (drop 5 l)) (cname d) (p2p_text (cname d) (drop (i + 2) l)) /\
      world_ok X w1 /\ same_rest w w1 /\ w_heap w1 = w_heap w).
Proof.
  intros [L Hw] Ha Hnl Hnul Hlen Hp Hi Hin Htl ind.
  pose proof (colon_after _ _ Hp Hi) as Hi5. set (tn := take (i - 5) (drop 5 l)) in *.
  assert (zlen tn = ind - 5) as Htn by (unfold tn, ind; zl).
  rw i32_small; [unfold ind; lia|].
  apply wp_bind, wp_on_mem. eapply wp_mono; [apply (cm_get_spec false L); [apply (wa_mem _ _ _ Hw)|lia]|].
  intros oc s1 (c & -> & Hf & Hc & Hs1).
  destruct (cache_name _ c tn (drop (i - 5) (drop 5 l) ++ [nl] ++ after) (ind - 5) Hf Htn)
    as (b & Hcpy & Hb & Hcs); [lia| |].
  { by intros ?%elem_of_take_in%elem_of_drop_in. }
  assert (drop 5 ((l ++ [nl]) ++ after) = tn ++ drop (i - 5) (drop 5 l) ++ [nl] ++ after) as ->.
  { unfold tn. rw -app_assoc drop_app_le; [zl|]. by rw -{1}(take_drop (i - 5) (drop 5 l)) -app_assoc. }
  rw Hcpy. wp_steps. apply (wp_get_client _ _ _ d); [done|].
  rw at_offset_line; [lia|].
  replace (Z.to_nat (ind + 2)) with (i + 2)%nat by (unfold ind; lia).
  pose proof (hi_client _ _ (wa_heap _ _ _ Hw) _ _ Ha) as Hd. destruct (client_name _ Hd) as [Hn Hnl'].
  apply wp_bind, wp_on_mem. eapply wp_mono.
  { apply (p2p_here ({[cid c]} ∪ L) s1 (name d) (cname d) _ tn (drop (i + 2) l)); try done.
    - by intros ?%elem_of_drop_in.
    - by intros ?%elem_of_drop_in.
    - zl. }
  intros om s2 (Hs2 & m & -> & Hm).
  apply wp_bind, wp_on_mem. eapply wp_mono; [by eapply recycle_fresh|].
  intros r s3 Hs3. rw drop_held // in Hs3. apply wp_ret. exists m. split_and!; try done.
  by apply (world_mem_ok X L w).
Qed.

(** What a line asks to redirect: the sender is renamed if it logs in, and the
    message is the one that the grammar gives. *)
Definition redirected (c : command) (a : Z) (d : ClientData) (h : gmap Z ClientData) (om : option Msg)
    (h' : gmap Z ClientData) : Prop :=
  exists d1, renamed c d d1 /\ h' = <[a := d1]> h /\
    match command_message (cname d) c with
    | Some (tn, en, txt) => exists m, om = Some m /\ msg_for m tn en txt
    | None => om = None
    end.

Lemma redirect_spec X w a d l after :
  world_ok X w -> server_ok w -> w_heap w !! a = Some d -> (nl ∉ l) -> (nul ∉ l) ->
  zlen l < 2 ^ 30 -> nul ∈ after -> parse_line l <> CmdBeyond ->
  (forall tn text, parse_line l = CmdTo tn text -> zlen tn < 30) ->
  wp false (redirect heap_after a (l ++ [nl]) after) w (fun om w1 =>
    world_ok X w1 /\ same_rest w w1 /\ redirected (parse_line l) a d (w_heap w) om (w_heap w1)).
Proof.
  intros Hw Hs Ha Hnl Hnul Hlen Haft Hbey Hto.
  assert (forall p, nl ∉ p -> exists r, strstr ((l ++ [nl]) ++ after) p = Ret r /\
    bool_decide (r = Some 0) = is_prefix p l) as Hstr
    by (intros; by apply strstr_line).
  assert (<[a := d]> (w_heap w) = w_heap w) as Hid by by apply insert_id.
  pose proof Hw as [L Hw1]. pose proof (hi_client _ _ (wa_heap _ _ _ Hw1) _ _ Ha) as Hd.
  destruct (client_name _ Hd) as [Hn Hnl'].
  unfold redirect. apply wp_bind, wp_lift.
  destruct (Hstr (bs CMD_LOGIN)) as (r1 & -> & Hb1); [by apply (bool_decide_unpack _); vm_compute|].
  apply owp_ret. rw Hb1. clear Hb1. unfold parse_line in *. destruct (is_prefix (bs CMD_LOGIN) l) eqn:H1.
  { eapply wp_mono; [by apply (user_login_spec X w a d l after)|].
    intros om w1 (m & d1 & -> & Hren & Hm & Hw2 & Hr & Hh). split_and!; try done. exists d1. split_and!; try done. by exists m. }
  eapply wp_bind, wp_lift.
  destruct (Hstr (bs CMD_TO_ALL)) as (r2 & -> & Hb2); [by apply (bool_decide_unpack _); vm_compute|].
  apply owp_ret. rw Hb2. clear Hb2. destruct (is_prefix (bs CMD_TO_ALL) l) eqn:H2.
  { destruct (Z.leb_spec 8 (zlen l)) as [H8|]; [|done].
    apply wp_bind, (wp_get_client _ _ _ d); [done|]. change (zlen (bs CMD_TO_ALL) + 1) with 8.
    rw at_offset_line; [lia|]. change (Z.to_nat 8) with 8%nat. apply wp_on_mem. eapply wp_mono.
    { apply (p2p_here L _ (name d) (cname d) (lit CMD_TO_ALL) (bs CMD_TO_ALL) (drop 8 l));
        try done; [apply (wa_mem _ _ _ Hw1)| | |zl]; by intros ?%elem_of_drop_in. }
    intros om s1 (Hs1 & m & -> & Hm). split_and!; [by eapply world_mem_ok|done..|]. exists d.
    split_and!; [done|by rw Hid|by exists m]. }
  eapply wp_bind, wp_lift.
  destruct (Hstr (bs CMD_TO_C)) as (r3 & -> & Hb3); [by apply (bool_decide_unpack _); vm_compute|].
  apply owp_ret. rw Hb3. clear Hb3. destruct (is_prefix (bs CMD_TO_C) l) eqn:H3.
  2: { apply wp_ret. split_and!; try done. exists d. by rw Hid. }
  destruct (colon l) as [i|] eqn:Hi; [|done].
  destruct (Z.leb_spec (Z.of_nat i + 2) (zlen l)) as [Hi2|]; [|done].
  destruct (strchr_colon l ([nl] ++ after) i Hnul Hi) as [Hc _].
  apply wp_bind, wp_lift. rw -app_assoc Hc. apply owp_ret. rw app_assoc.
  change (zlen (bs CMD_TO_C)) with 5. change (Z.to_nat 5) with 5%nat. cbv zeta.
  eapply wp_mono; [apply (p2p_to_spec X w a d l after i); try done|].
  { by eapply Hto. }
  intros om w1 (m & -> & Hm & Hw2 & Hr & Hh). split_and!; try done. exists d.
  split_and!; [done|by rw Hid|by exists m].
Qed.

(** One line: the sender is renamed if it logs in, and the message reaches
    exactly the clients it is for. *)
Lemma handle_msg_spec X w a d l after :
  world_ok X w -> server_ok w -> w_heap w !! a = Some d -> (nl ∉ l) -> (nul ∉ l) ->
  zlen l < 2 ^ 30 -> nul ∈ after -> parse_line l <> CmdBeyond ->
  (forall tn text, parse_line l = CmdTo tn text -> zlen tn < 30) ->
  wp false (handle_msg heap_after a (l ++ [nl]) after) w (fun n w' =>
    world_ok X w' /\ same_rest w w' /\
    line_effect (parse_line l) a d (clients (w_server w)) (w_heap w) n (w_heap w')).
Proof.
  intros Hw Hs Ha Hnl Hnul Hlen Haft Hbey Hto. unfold handle_msg.
  eapply wp_bind, wp_mono; [by apply (redirect_spec X w a d l after)|].
  intros om w1 (Hw1 & Hr1 & d1 & Hren & Hh1 & Hm).
  destruct (command_message (cname d) (parse_line l)) as [[[tn en] txt]|] eqn:Hcmd.
  2: { subst om. apply wp_ret. split_and!; [done..|]. exists d1. rw Hcmd. split_and!; [done..|].
       destruct (parse_line l); try done; simpl in Hren; by rw Hh1 Hren insert_id. }
  destruct Hm as (m & -> & Hm). pose proof Hr1 as (_ & _ & Hsv).
  assert (server_ok w1) as Hs1.
  { pose proof (server_ok_insert w a d1 Hs ltac:(by eexists)) as []. constructor; rw Hsv; try done. by rw Hh1. }
  eapply wp_mono; [by apply (deliver_here X w1)|]. intros n w' (? & Hr' & Hn & Hdel).
  rw Hsv Hh1 in Hn, Hdel. split_and!; [done|by eapply same_rest_trans|]. exists d1. by rw Hcmd.
Qed.
End handling.
