(* ===== verification/ServerLoop.v ===== *)
(** * The abstract chat and the message loop of IMServer.c

    The abstract state keeps, for every live client, its name, its [pub] mark
    and the text queued for it.  [handle_line] is the server's contract for
    one line; [loop_spec] proves that [try_to_handle_msg] folds it over the
    lines it consumes. *)
From Stdlib Require Import Strings.Byte String.
From S2P Require Import Prelude CLib Alloc Buffer Message ClientInfo Server ServerSpec.

Record aclient := mkA {
  a_name : bytes;
  a_pub : Z;
  a_out : bytes;
}.
Definition abs_client (d : ClientData) : aclient :=
  mkA (cname d) (pub d) (contents (writing_buffer d)).
Definition abs_heap (h : gmap Z ClientData) : gmap Z aclient := abs_client <$> h.

Definition awants (tn en : bytes) (c : aclient) : bool :=
  negb (u64 FAIL =? a_pub c) && negb (bool_decide (en = a_name c)) &&
  negb (bool_decide (a_name c = bs UNKNOWN_CLIENT)) &&
  (bool_decide (tn = bs CMD_TO_ALL) || bool_decide (tn = a_name c)).

Definition adeliver (l : list Z) (tn en txt : bytes) (s : gmap Z aclient) : gmap Z aclient :=
  map_imap (fun b c => Some (if bool_decide (b ∈ l) && awants tn en c
                             then mkA (a_name c) (a_pub c) (a_out c ++ txt) else c)) s.

Definition handle_line (l : list Z) (a : Z) (s : gmap Z aclient) (line : bytes) : gmap Z aclient :=
  match s !! a with
  | None => s
  | Some c =>
    let cmd := parse_line line in
    let s1 := match cmd with
              | CmdLogin nm => <[a := mkA (take 29 nm) (a_pub c) (a_out c)]> s
              | _ => s
              end in
    match command_message (a_name c) cmd with
    | Some (tn, en, txt) => adeliver l tn en txt s1
    | None => s1
    end
  end.

(** A line that keeps to the protocol, and input all of whose lines do. *)
Definition line_safe (l : bytes) : Prop :=
  zlen l < 2 ^ 30 /\ parse_line l <> CmdBeyond /\
  (forall tn text, parse_line l = CmdTo tn text -> zlen tn < 30).
Definition protocol (c : bytes) : Prop :=
  forall lines l post, c = (lines ≫= fun x => x ++ [nl]) ++ l ++ nl :: post -> nl ∉ l -> line_safe l.

(** The text of a line. *)
Definition line_text (l : bytes) : Prop := (nl ∉ l) /\ (nul ∉ l).

(** What stays of every client but its name and its queue. *)
Definition same_reading (h h' : gmap Z ClientData) : Prop :=
  forall b, match h !! b with
  | None => h' !! b = None
  | Some d => exists d', h' !! b = Some d' /\ reading_buffer d' = reading_buffer d /\
                         socket_id d' = socket_id d
  end.

(** From [w] to [w'] the client at [a] has had [lines] handled, which start with
    the bytes [c] already taken from its buffer. *)
Record folded {S} (a : Z) (d d' : ClientData) (c : bytes) (lines : list bytes) (w w' : World S) : Prop := {
  fo_abs : abs_heap (w_heap w') = foldl (handle_line (clients (w_server w)) a) (abs_heap (w_heap w)) lines;
  fo_self : w_heap w' !! a = Some d';
  fo_stop : next_message (reading_buffer d') = None;
  fo_nil : lines = [] -> c = [] /\ reading_buffer d' = reading_buffer d;
  fo_socket : socket_id d' = socket_id d;
  fo_others : forall b db, b <> a -> w_heap w !! b = Some db -> exists db', w_heap w' !! b = Some db' /\
    reading_buffer db' = reading_buffer db /\ socket_id db' = socket_id db;
  fo_none : forall b, w_heap w !! b = None -> w_heap w' !! b = None;
  fo_clean : Forall line_text lines;
  fo_input : c ++ contents (reading_buffer d) = (lines ≫= fun x => x ++ [nl]) ++ contents (reading_buffer d');
}.

(** ** Lemmas *)

Lemma abs_lookup h b : abs_heap h !! b = abs_client <$> h !! b.
Proof. apply lookup_fmap. Qed.

Lemma abs_insert h b d : abs_heap (<[b := d]> h) = <[b := abs_client d]> (abs_heap h).
Proof. apply fmap_insert. Qed.

(** Changing a client's reading side is invisible. *)
Lemma abs_reading h a d b last :
  h !! a = Some d -> abs_heap (<[a := set_reading b last d]> h) = abs_heap h.
Proof.
  intros Ha. rw abs_insert. apply insert_id. by rw abs_lookup Ha.
Qed.

Lemma delivered_abs tn en txt l h h' :
  heap_delivered tn en txt l h h' -> abs_heap h' = adeliver l tn en txt (abs_heap h).
Proof.
  intros Hd. apply map_eq. intros b. unfold adeliver.
  rw map_lookup_imap !abs_lookup. specialize (Hd b). destruct (h !! b) as [d|]; [|by rw Hd].
  destruct Hd as (d' & -> & Hr). simpl. f_equal. change (awants tn en (abs_client d)) with (wants tn en d).
  destruct (bool_decide (b ∈ l) && wants tn en d); [|by subst].
  destruct Hr as [Heq Hc]. unfold abs_client. by rw Hc Heq.
Qed.

Lemma line_effect_abs line a d l h n h' :
  h !! a = Some d -> line_effect (parse_line line) a d l h n h' ->
  abs_heap h' = handle_line l a (abs_heap h) line.
Proof.
  intros Ha (d1 & Hren & Heff). unfold handle_line. rw abs_lookup Ha /=.
  assert (forall tn en txt, heap_delivered tn en txt l (<[a := d1]> h) h' ->
    abs_heap h' = adeliver l tn en txt (<[a := abs_client d1]> (abs_heap h))) as Hdel.
  { intros tn en txt H. rw -abs_insert. by apply delivered_abs. }
  assert (<[a := abs_client d]> (abs_heap h) = abs_heap h) as Hid
    by (apply insert_id; by rw abs_lookup Ha).
  destruct (parse_line line) as [nm|text|tn text| |]; simpl in *.
  - destruct Hren as (arr & -> & Hl & Hc). destruct Heff as [_ Heff].
    rw (Hdel _ _ _ Heff). do 2 f_equal. unfold abs_client, cname. simpl. by rw Hc.
  - subst d1. destruct Heff as [_ Heff]. by rw (Hdel _ _ _ Heff) Hid.
  - subst d1. destruct Heff as [_ Heff]. by rw (Hdel _ _ _ Heff) Hid.
  - by destruct Heff as [_ ->].
  - by destruct Heff as [_ ->].
Qed.

Lemma line_effect_reading line a d l h n h' :
  h !! a = Some d -> line_effect (parse_line line) a d l h n h' -> same_reading h h'.
Proof.
  intros Ha (d1 & Hren & Heff).
  assert (reading_buffer d1 = reading_buffer d /\ socket_id d1 = socket_id d) as [Hrd Hsk].
  { destruct (parse_line line); simpl in Hren; try by subst. by destruct Hren as (arr & -> & _). }
  assert (forall b, match h !! b with
    | None => <[a := d1]> h !! b = None
    | Some db => exists d2, <[a := d1]> h !! b = Some d2 /\ reading_buffer d2 = reading_buffer db /\
        socket_id d2 = socket_id db end) as Hins.
  { intros b. destruct (decide (b = a)) as [->|Hne].
    - rw Ha lookup_insert_eq. by exists d1.
    - rw lookup_insert_ne //. destruct (h !! b) as [db|]; [|done]. by exists db. }
  intros b. specialize (Hins b).
  destruct (command_message (cname d) (parse_line line)) as [[[tn en] txt]|].
  - destruct Heff as [_ Hdel]. specialize (Hdel b). destruct (h !! b) as [db|].
    + destruct Hins as (d2 & H2 & Hr2 & Hs2). rw H2 in Hdel. destruct Hdel as (d3 & H3 & Hr3).
      exists d3. split; [done|]. destruct (_ && _); [destruct Hr3 as [-> _]|subst d3]; done.
    + by rw Hins in Hdel.
  - destruct Heff as [_ ->]. destruct (h !! b) as [db|]; [|done]. by exists db.
Qed.

Lemma same_reading_trans h1 h2 h3 : same_reading h1 h2 -> same_reading h2 h3 -> same_reading h1 h3.
Proof.
  intros H1 H2 b. specialize (H1 b). specialize (H2 b). destruct (h1 !! b) as [d|].
  - destruct H1 as (d2 & E2 & ? & ?). rw E2 in H2. destruct H2 as (d3 & ? & ? & ?).
    exists d3. split; [done|]. split; congruence.
  - by rw H1 in H2.
Qed.

Lemma same_reading_server {S} (w w' : World S) :
  server_ok w -> same_rest w w' -> same_reading (w_heap w) (w_heap w') -> server_ok w'.
Proof.
  intros [Hl Hn Hc Hb] (_ & _ & Hs) Hh. constructor; rw Hs; try done.
  intros a Ha. specialize (Hl a Ha). specialize (Hh a). destruct Hl as [d Hd]. rw Hd in Hh.
  destruct Hh as (d' & -> & _). by eexists.
Qed.

Lemma protocol_drop l c : protocol (l ++ nl :: c) -> protocol c.
Proof.
  intros Hp lines x post -> Hx. apply (Hp (l :: lines) x post); [|done].
  simpl. rw -!app_assoc //.
Qed.

Lemma protocol_line l c : protocol (l ++ nl :: c) -> nl ∉ l -> line_safe l.
Proof. intros Hp. by apply (Hp [] l c). Qed.

Section loop.
Context {S : Type} `{!CacheModule S} `{!CacheModuleLaws S}.
Context (heap_after : Z -> bytes) (behind : nat -> bytes).
Hypothesis heap_terminated : terminated heap_after.
Hypothesis behind_terminated : forall i, nul ∈ behind i.
Implicit Types (s : S) (w : World S) (X L : gset Z).

(** The next line of the client at [a], as the world sees it. *)
Lemma fetch_msg_at X w a d :
  world_ok X w -> w_heap w !! a = Some d ->
  wp false (fetch_msg heap_after a) w (fun r w' =>
    world_ok X w' /\ same_rest w w' /\ exists rb,
    w_heap w' = <[a := set_reading rb 0 d]> (w_heap w) /\
    let c := contents (reading_buffer d) in
    match next_message (reading_buffer d) with
    | Some k => r = (Z.of_nat k + 1, Some (take k c ++ [nl])) /\ (nl ∉ take k c) /\ (nul ∉ take k c) /\
                c = take k c ++ nl :: contents rb
    | None => r = (0, Some []) /\ rb = reading_buffer d
    end).
Proof.
  intros [L Hw] Ha. pose proof (hi_client _ _ (wa_heap _ _ _ Hw) _ _ Ha) as Hd.
  pose proof (hi_owned _ _ (wa_heap _ _ _ Hw) _ _ Ha) as HL.
  unfold fetch_msg. apply wp_bind, (wp_get_client _ _ _ d); [done|].
  apply wp_bind, wp_on_mem. eapply wp_mono;
    [apply (fetch_msg_spec false L _ heap_after d); [apply (wa_mem _ _ _ Hw)|done|done|done]|].
  intros [[ret om] d'] s (Hp & Heq & Hd' & Ho1 & Ho2 & Hs). apply wp_bind, wp_put_client, wp_ret.
  assert (client_owns d' = owns (reading_buffer d') ∪ owns (writing_buffer d)) as Hown by by rw Heq.
  split; [|split; [done|]].
  - eexists. eapply (world_update X L _ w s a d d'); try done.
    + rw Hown. unfold client_owns. clear -Ho2. set_solver.
    + unfold left_over, client_owns. clear. set_solver.
  - exists (reading_buffer d'). rw -Heq. split; [done|]. cbv zeta.
    destruct (next_message (reading_buffer d)) as [k|] eqn:Hk; [|by destruct Hp as (-> & -> & ->)].
    destruct Hp as (-> & -> & Hc). destruct (next_message_contents _ _ Hk) as (_ & Ht & ? & ?).
    rw Ht. split_and!; try done. rw Hc -{1}(take_drop (Datatypes.S k) (contents (reading_buffer d))) Ht.
    by rw -app_assoc.
Qed.

(** What a fetch finds: a line, with which [c] begins, or none. *)
Definition line_found (sz : Z) (om : option bytes) (c : bytes) (rb : InnerBuffer) : Prop :=
  if 0 <? sz then exists l, om = Some (l ++ [nl]) /\ c = l ++ [nl] /\ (nl ∉ l) /\ (nul ∉ l)
  else c = [] /\ om = Some [] /\ next_message rb = None.

Lemma fetched_line (c : bytes) b rb sz om :
  c = contents b ->
  match next_message b with
  | Some k => (sz, om) = (Z.of_nat k + 1, Some (take k c ++ [nl])) /\ (nl ∉ take k c) /\ (nul ∉ take k c) /\
              c = take k c ++ nl :: contents rb
  | None => (sz, om) = (0, Some []) /\ rb = b
  end ->
  exists c', c = c' ++ contents rb /\ (c' = [] -> rb = b) /\ line_found sz om c' rb.
Proof.
  intros Hc Hm. unfold line_found. destruct (next_message b) as [k|] eqn:Hk.
  - destruct Hm as ([= -> ->] & ? & ? & Hsp). rw (proj2 (Z.ltb_lt 0 _)); [lia|].
    exists (take k c ++ [nl]). split; [by rw {1}Hsp -app_assoc|]. split; [by intros [_ ?]%app_nil|]. by eexists.
  - destruct Hm as [[= -> ->] ->]. by exists [].
Qed.

(** One round of the loop: the line is handled, and the next one fetched. *)
Lemma loop_round X w a d l i :
  world_ok X w -> server_ok w -> w_heap w !! a = Some d ->
  protocol (l ++ nl :: contents (reading_buffer d)) -> (nl ∉ l) -> (nul ∉ l) ->
  exists n w1 d1 sz om w2 rb c,
    handle_msg heap_after a (l ++ [nl]) (behind i) w = Ret (n, w1) /\
    fetch_msg heap_after a w1 = Ret ((sz, om), w2) /\
    w_heap w1 !! a = Some d1 /\ reading_buffer d1 = reading_buffer d /\ socket_id d1 = socket_id d /\
    same_reading (w_heap w) (w_heap w1) /\
    abs_heap (w_heap w2) = handle_line (clients (w_server w)) a (abs_heap (w_heap w)) l /\
    w_heap w2 = <[a := set_reading rb 0 d1]> (w_heap w1) /\
    world_ok X w2 /\ server_ok w2 /\ same_rest w w2 /\
    contents (reading_buffer d) = c ++ contents rb /\ line_found sz om c rb.
Proof.
  intros Hw Hs Ha Hp Hnl Hnul. destruct (protocol_line _ _ Hp Hnl) as (Hlen & Hbey & Hto).
  destruct (wp_total _ _ _ (handle_msg_spec heap_after X w a d l (behind i) Hw Hs Ha Hnl Hnul Hlen
    (behind_terminated i) Hbey Hto)) as (n & w1 & Hrun & Hw1 & Hr1 & Heff).
  pose proof (line_effect_abs _ _ _ _ _ _ _ Ha Heff) as Habs.
  pose proof (line_effect_reading _ _ _ _ _ _ _ Ha Heff) as Hread.
  pose proof (Hread a) as Ha1. rw Ha in Ha1. destruct Ha1 as (d1 & Ha1 & Hrb1 & Hsk1).
  destruct (wp_total _ _ _ (fetch_msg_at X w1 a d1 Hw1 Ha1)) as ([sz om] & w2 & Hfetch & Hw2 & Hr2 & rb & Hh2 & Hm).
  rw Hrb1 in Hm. cbv zeta in Hm. destruct (fetched_line _ _ _ _ _ eq_refl Hm) as (c & Hc & _ & Hl).
  assert (server_ok w2) as Hs2.
  { apply (same_reading_server w w1) in Hs; [|done|done].
    destruct Hr2 as (_ & _ & Hsv). pose proof (server_ok_insert w1 a (set_reading rb 0 d1) Hs ltac:(by eexists)) as [].
    constructor; rw Hsv; try done. by rw Hh2. }
  exists n, w1, d1, sz, om, w2, rb, c. split_and!; try done.
  - rw -Habs Hh2. by apply abs_reading.
  - by eapply same_rest_trans.
Qed.

Lemma handle_loop_spec X a fuel : forall i w d sz om need c,
  world_ok X w -> server_ok w -> w_heap w !! a = Some d ->
  protocol (c ++ contents (reading_buffer d)) ->
  (zlen (contents (reading_buffer d)) + (if 0 <? sz then 1 else 0) < Z.of_nat fuel) ->
  line_found sz om c (reading_buffer d) ->
  wp false (handle_loop heap_after behind fuel a i sz om need) w (fun n w' =>
    exists lines d', world_ok X w' /\ same_rest w w' /\ folded a d d' c lines w w').
Proof.
  induction fuel as [|fuel IH]; intros i w d sz om need c Hw Hs Ha Hp Hf Hc.
  { pose proof (zlen_nonneg (contents (reading_buffer d))). destruct (0 <? sz); lia. }
  unfold line_found in Hc. cbn [handle_loop]. destruct (0 <? sz) eqn:Hsz.
  2: { destruct Hc as (-> & _ & Hno). apply wp_ret. exists [], d. split_and!; try done. constructor; try done. by intros; eexists. }
  destruct Hc as (l & -> & -> & Hnl & Hnul). rw -app_assoc /= in Hp.
  destruct (loop_round X w a d l i Hw Hs Ha Hp Hnl Hnul)
    as (n & w1 & d1 & sz2 & om2 & w2 & rb & c2 & Hrun & Hfetch & Ha1 & Hrb1 & Hsk1 & Hread & Habs2 & Hh2 & Hw2 & Hs2 & Hr12 & Hc2 & Hn2).
  apply wp_bind. eapply wp_run; [exact Hrun|]. apply wp_bind. eapply wp_run; [exact Hfetch|]. cbv beta iota.
  set (d2 := set_reading rb 0 d1) in *.
  assert (w_heap w2 !! a = Some d2) as Ha2 by (rw Hh2; apply lookup_insert_eq).
  eapply wp_mono; [apply (IH (Datatypes.S i) w2 d2 sz2 om2 _ c2); try done|].
  - simpl. rw -Hc2. by eapply protocol_drop.
  - simpl. rw Hc2 zlen_app in Hf. pose proof (zlen_nonneg c2). unfold line_found in Hn2. destruct (0 <? sz2); [|lia].
    destruct Hn2 as (l2 & _ & -> & _). rw zlen_app in Hf. change (zlen [nl]) with 1 in Hf.
    pose proof (zlen_nonneg l2). lia.
  - intros need' w3 (lines & d3 & ? & Hr3 & [Habs3 Ha3 Hno _ Hsk3 Hoth Hnone Hclean Hcon]).
    exists (l :: lines), d3. simpl in Hcon, Hsk3. pose proof Hr12 as (_ & _ & Hsv).
    rw Hsv Habs2 in Habs3. split_and!; [done|by eapply same_rest_trans|]. constructor; try done.
    + by rw Hsk3.
    + intros b db Hne Hb. pose proof (Hread b) as Hb1. rw Hb in Hb1. destruct Hb1 as (db1 & Hb1 & Hrb & Hsb).
      destruct (Hoth b db1 Hne) as (db' & Hb' & Hrb' & Hsb'); [by rw Hh2 lookup_insert_ne|].
      exists db'. split_and!; [done|congruence..].
    + intros b Hb. apply Hnone. pose proof (Hread b) as Hb1. rw Hb in Hb1. rw Hh2.
      assert (a <> b) by congruence. by rw lookup_insert_ne.
    + by apply Forall_cons.
    + simpl. rw -!app_assoc /= -Hcon Hc2 //.
Qed.

(** The whole call. *)
Lemma try_to_handle_msg_spec X w a d :
  world_ok X w -> server_ok w -> w_heap w !! a = Some d ->
  protocol (contents (reading_buffer d)) ->
  wp false (try_to_handle_msg heap_after behind a) w (fun _ w' =>
    exists lines d', world_ok X w' /\ server_ok w' /\
    w_fds w' = w_fds w /\ w_next w' = w_next w /\
    (exists k, w_server w' = set_sign k (w_server w)) /\
    folded a d d' [] lines w w').
Proof.
  intros Hw Hs Ha Hp. pose proof Hw as [L HwL].
  pose proof (hi_client _ _ (wa_heap _ _ _ HwL) _ _ Ha) as Hd.
  pose proof (ci_size _ Hd) as Hsz. pose proof (zlen_nonneg (contents (reading_buffer d))).
  unfold try_to_handle_msg. apply wp_bind, (wp_get_client _ _ _ d); [done|].
  rw buffer_size_spec; [apply shape_all, (ci_reading _ Hd)|lia|]. set (c0 := contents (reading_buffer d)) in *.
  eapply wp_bind, wp_mono; [by apply (fetch_msg_at X w a d)|].
  intros [sz om] w1 (Hw1 & Hr1 & rb & Hh1 & Hm). cbv beta iota. cbv zeta in Hm.
  set (d1 := set_reading rb 0 d) in *.
  assert (server_ok w1) as Hs1.
  { destruct Hr1 as (_ & _ & Hsv). pose proof (server_ok_insert w a d1 Hs ltac:(by eexists)) as [].
    constructor; rw Hsv; try done. by rw Hh1. }
  destruct (fetched_line c0 _ _ _ _ eq_refl Hm) as (c1 & Hc1 & Hrb & Hn1).
  assert (forall b, b <> a -> w_heap w1 !! b = w_heap w !! b) as Hoth1
    by (intros b Hne; by rw Hh1 lookup_insert_ne).
  eapply wp_bind, wp_mono; [apply (handle_loop_spec X a _ 0 w1 d1 sz om 0 c1); try done|].
  - rw Hh1. apply lookup_insert_eq.
  - by rw /= -Hc1.
  - simpl. rw Hc1 zlen_app. pose proof (zlen_nonneg c1). destruct (0 <? sz); lia.
  - intros need w2 (lines & d2 & Hw2 & Hr2 & [Habs Ha2 Hno Hnil Hsk Hoth Hnone Hclean Hcon]).
    assert (same_rest w w2) as (Hfd & Hnx & Hsv) by (by eapply same_rest_trans).
    assert (server_ok w2) as Hs2.
    { destruct Hr2 as (_ & _ & Hsv2). destruct Hs1 as [Hl ? ? ?]. constructor; rw Hsv2; try done.
      intros b Hb. destruct (decide (b = a)) as [->|Hne]; [by eexists|].
      destruct (Hl b Hb) as [db Hdb]. destruct (Hoth b db Hne Hdb) as (? & -> & _). by eexists. }
    assert (folded a d d2 [] lines w w2) as Hfold.
    { assert (w_server w1 = w_server w) as Hsv1 by apply Hr1.
      constructor; try done; [by rw Habs Hsv1 Hh1 abs_reading| | | |by rw /= -Hc1 in Hcon].
      - intros Hl. destruct (Hnil Hl) as [Hc ->]. split; [done|]. by apply Hrb.
      - intros b db Hne Hb. apply (Hoth b); [done|]. by rw Hoth1.
      - intros b Hb. apply Hnone. rw Hoth1 //. congruence. }
    destruct (need =? 0).
    + apply wp_ret. exists lines, d2. split_and!; try done.
      exists (sign_to_flush_msg (w_server w)). rw Hsv. by destruct (w_server w).
    + unfold bump_sign, server, put_server. apply wp_bind. cbn. exists lines, d2. rw !Hsv.
      split_and!; try done; [| |by eexists|by destruct Hfold; constructor].
      * destruct Hw2 as [L2 []]. exists L2. by constructor.
      * destruct Hs2 as [Hl Hn2 Hc2 Hb2]. rw Hsv in Hl, Hn2, Hc2, Hb2. by constructor.
Qed.
End loop.

(** ** Deciding the protocol

    A line is in order when it is short and has text behind its prefix. *)
Definition line_check (l : bytes) : bool :=
  (zlen l <? 2 ^ 30) &&
  match parse_line l with
  | CmdBeyond => false
  | CmdTo tn _ => zlen tn <? 30
  | _ => true
  end.

Lemma line_check_safe l : line_check l = true -> line_safe l.
Proof.
  unfold line_check, line_safe. intros [H1%Z.ltb_lt H2]%andb_prop.
  split; [done|]. destruct (parse_line l); try done; split; try done.
  intros tn' t' [= <- <-]. by apply Z.ltb_lt.
Qed.

(** All the complete lines of an input. *)
Fixpoint complete_lines (acc c : bytes) : list bytes :=
  match c with
  | [] => []
  | x :: c => if decide (x = nl) then rev acc :: complete_lines [] c else complete_lines (x :: acc) c
  end.

Lemma complete_lines_line l acc post :
  nl ∉ l -> complete_lines acc (l ++ nl :: post) = (rev acc ++ l) :: complete_lines [] post.
Proof.
  revert acc. induction l as [|x l IH]; intros acc Hl; simpl; [by rw app_nil_r|].
  apply not_elem_of_cons in Hl as [Hx Hl]. rw decide_False; [congruence|]. rw IH //=. by rw -app_assoc.
Qed.

Lemma complete_lines_skip l x r acc :
  l ∈ complete_lines [] r -> l ∈ complete_lines acc (x ++ nl :: r).
Proof.
  intros Hl. revert acc. induction x as [|y x IH]; intros acc; simpl.
  - by apply list_elem_of_further.
  - case_decide; [apply list_elem_of_further, IH|apply IH].
Qed.

(** A line of the input that starts where some lines end is one of them. *)
Lemma protocol_complete c : (forall l, l ∈ complete_lines [] c -> line_safe l) -> protocol c.
Proof.
  intros Hall lines l post -> Hl. apply Hall. clear Hall.
  induction lines as [|x lines IH]; simpl.
  - rw complete_lines_line //. apply list_elem_of_here.
  - rw -!app_assoc /=. by apply complete_lines_skip.
Qed.

Lemma protocol_check c : forallb line_check (complete_lines [] c) = true -> protocol c.
Proof.
  intros Hall. apply protocol_complete. intros l Hin. apply line_check_safe.
  rw forallb_forall in Hall. apply Hall. by apply list_elem_of_In.
Qed.

(** Lines written one after the other are the lines read. *)
Lemma complete_lines_concat xs :
  Forall (fun x => nl ∉ x) xs -> complete_lines [] (xs ≫= fun x => x ++ [nl]) = xs.
Proof.
  induction 1 as [|x xs Hx Hxs IH]; [done|]. cbn. rw -app_assoc complete_lines_line //=. by f_equal.
Qed.

Lemma protocol_lines xs :
  Forall (fun x => nl ∉ x) xs -> Forall line_safe xs -> protocol (xs ≫= fun x => x ++ [nl]).
Proof.
  intros Hnl Hs. apply protocol_complete. rw complete_lines_concat //. by apply Forall_forall.
Qed.
