(* ===== verification/ServerTurns.v ===== *)
(** * The turns of the server's threads: specifications

    Flushing, logging out, accepting and reading, on top of ServerSpec.v and
    ServerLoop.v. *)
From Stdlib Require Import Strings.Byte String.
From S2P Require Import Prelude CLib Alloc Buffer Message ClientInfo Server ServerSpec ServerLoop.

(** What a flush of the clients of [l] does to the heap and to the sockets. *)
Definition flushes (d : ClientData) : bool := negb (u64 FAIL =? pub d).
Definition heap_flushed (l : list Z) (h h' : gmap Z ClientData) : Prop :=
  forall a, match h !! a with
  | None => h' !! a = None
  | Some d => exists d', h' !! a = Some d' /\
      if bool_decide (a ∈ l) && flushes d
      then d' = set_writing (writing_buffer d') d /\ contents (writing_buffer d') = []
      else d' = d
  end.
Definition fds_flushed (l : list Z) (h : gmap Z ClientData) (f f' : gmap Z fdesc) : Prop :=
  (forall a d x, a ∈ l -> h !! a = Some d -> flushes d = true -> f !! socket_id d = Some x ->
    exists x', f' !! socket_id d = Some x' /\ fd_in x' = fd_in x /\ fd_rplan x' = fd_rplan x /\
      fd_out x' = fd_out x ++ contents (writing_buffer d) /\ writes_succeed x') /\
  (forall id, (forall a d, a ∈ l -> h !! a = Some d -> flushes d = true -> socket_id d <> id) ->
    f' !! id = f !! id).

(** The sockets of the clients of [l] are open, take what they are given, and
    are distinct. *)
Record sockets_ok (l : list Z) (h : gmap Z ClientData) (f : gmap Z fdesc) : Prop := {
  sk_open : forall a d, a ∈ l -> h !! a = Some d -> exists x, f !! socket_id d = Some x /\ writes_succeed x;
  sk_size : forall a d, a ∈ l -> h !! a = Some d -> zlen (contents (writing_buffer d)) < 2 ^ 63;
  sk_distinct : forall a b da db, a ∈ l -> b ∈ l -> a <> b -> h !! a = Some da -> h !! b = Some db ->
    socket_id da <> socket_id db;
}.

Section turns.
Context {S : Type} `{!CacheModule S} `{!CacheModuleLaws S}.
Implicit Types (s : S) (w : World S) (X L : gset Z).

(** ** Flushing *)

Lemma flush_at X w a d x :
  world_ok X w -> w_heap w !! a = Some d -> w_fds w !! socket_id d = Some x ->
  writes_succeed x -> zlen (contents (writing_buffer d)) < 2 ^ 63 ->
  wp false (flush a) w (fun _ w' =>
    world_ok X w' /\ w_next w' = w_next w /\ w_server w' = w_server w /\
    exists d' x', w_heap w' = <[a := d']> (w_heap w) /\ d' = set_writing (writing_buffer d') d /\
      contents (writing_buffer d') = [] /\ w_fds w' = <[socket_id d := x']> (w_fds w) /\
      fd_in x' = fd_in x /\ fd_rplan x' = fd_rplan x /\
      fd_out x' = fd_out x ++ contents (writing_buffer d) /\ writes_succeed x').
Proof.
  intros [L Hw] Ha Hx Hwr Hsz. pose proof (hi_client _ _ (wa_heap _ _ _ Hw) _ _ Ha) as Hd.
  pose proof (hi_owned _ _ (wa_heap _ _ _ Hw) _ _ Ha) as HL.
  unfold flush. apply wp_bind, (wp_get_client _ _ _ d); [done|]. apply wp_bind, wp_getS.
  apply wp_bind, wp_on_mem. unfold sock. rw Hx /=. eapply wp_mono.
  { apply (flush_spec false L _ x d); [apply (wa_mem _ _ _ Hw)|apply (ci_writing _ Hd)| |done|done].
    unfold client_owns in HL. clear -HL. set_solver. }
  intros [[r x'] d'] s (_ & Ho & Hi & Hrp & Hwr' & Hd' & Hb & Hc & Hown & Hs). wp_steps.
  unfold put_fd. apply wp_bind. cbn.
  assert (client_owns d' = owns (reading_buffer d) ∪ owns (writing_buffer d')) as Ho' by by rw Hd'.
  split_and!; try done.
  - exists (left_over L (writing_buffer d) (writing_buffer d')).
    assert (world_at X (left_over L (writing_buffer d) (writing_buffer d'))
      (set_mem s (set_heap (<[a := d']> (w_heap w)) w))) as [].
    { eapply (world_update X L _ w s a d d'); try done.
      - rw Hd'. apply client_inv_writing; [done|done|].
        pose proof (ci_disjoint _ Hd) as H1. clear -H1 Hown. set_solver.
      - rw Ho'. unfold left_over, client_owns in *. pose proof (ci_disjoint _ Hd) as H1.
        clear -H1 HL. set_solver.
      - rw Ho'. unfold client_owns. clear -Hown. set_solver.
      - unfold left_over, client_owns. clear. set_solver. }
    by constructor.
  - exists d', x'. split_and!; try done. apply map_eq. intros id.
    destruct (decide (id = socket_id d)) as [->|Hne].
    + by rw lookup_alter_eq lookup_insert_eq Hx.
    + by rw lookup_alter_ne // lookup_insert_ne.
Qed.

Lemma sockets_ok_update l h f a d d' x' :
  sockets_ok (a :: l) h f -> h !! a = Some d -> (a ∉ l) -> writes_succeed x' ->
  sockets_ok l (<[a := d']> h) (<[socket_id d := x']> f).
Proof.
  intros [Ho Hsz Hdi] Ha Hal Hx.
  assert (forall b db, b ∈ l -> <[a := d']> h !! b = Some db -> b <> a /\ h !! b = Some db) as Hl.
  { intros b db Hb Hdb. assert (b <> a) by (by intros ->). split; [done|]. by rw lookup_insert_ne // in Hdb. }
  assert (a ∈ a :: l) as Hin by apply list_elem_of_here.
  constructor.
  - intros b db Hb [Hne Hdb]%Hl; [|done]. assert (b ∈ a :: l) as Hb' by by apply list_elem_of_further.
    rw lookup_insert_ne; [by eapply (Hdi a b)|]. by eapply Ho.
  - intros b db Hb [_ Hdb]%Hl; [|done]. eapply Hsz; [|done]. by apply list_elem_of_further.
  - intros b1 b2 d1 d2 Hb1 Hb2 Hne [_ H1]%Hl [_ H2]%Hl; [|done|done].
    eapply (Hdi b1 b2); try done; by apply list_elem_of_further.
Qed.

Lemma sockets_ok_tail a l h f : sockets_ok (a :: l) h f -> sockets_ok l h f.
Proof.
  intros [H1 H2 H3]. constructor.
  - intros b db Hb. apply H1. by apply list_elem_of_further.
  - intros b db Hb. apply H2. by apply list_elem_of_further.
  - intros b c db dc Hb Hc. apply H3; by apply list_elem_of_further.
Qed.

(** The first client's flush, whether it happens or not. *)
Definition flushed_one (d d1 : ClientData) (f f1 : gmap Z fdesc) : Prop :=
  if flushes d then
    d1 = set_writing (writing_buffer d1) d /\ contents (writing_buffer d1) = [] /\
    exists x x', f !! socket_id d = Some x /\ f1 = <[socket_id d := x']> f /\ fd_in x' = fd_in x /\ fd_rplan x' = fd_rplan x /\
      fd_out x' = fd_out x ++ contents (writing_buffer d) /\ writes_succeed x'
  else d1 = d /\ f1 = f.

Lemma heap_flushed_cons a l h h' d d1 f f1 :
  h !! a = Some d -> (a ∉ l) -> flushed_one d d1 f f1 ->
  heap_flushed l (<[a := d1]> h) h' -> heap_flushed (a :: l) h h'.
Proof.
  intros Ha Hal Hone Hheap b. specialize (Hheap b). destruct (decide (b = a)) as [->|Hne].
  - rw lookup_insert_eq in Hheap. rw Ha. destruct Hheap as (d2 & Hd2 & Hr). exists d2. split; [done|].
    rw bool_decide_false // in Hr. simpl in Hr. subst d2.
    rw bool_decide_true; [apply list_elem_of_here|]. unfold flushed_one in Hone.
    destruct (flushes d); simpl; [|by destruct Hone]. by destruct Hone as (? & ? & _).
  - rw lookup_insert_ne // in Hheap. destruct (h !! b) as [db|]; [|done].
    destruct Hheap as (d2 & Hd2 & Hr). exists d2. split; [done|].
    assert (bool_decide (b ∈ a :: l) = bool_decide (b ∈ l)) as ->; [|done].
    apply bool_decide_ext. rw elem_of_cons. naive_solver.
Qed.

Lemma fds_flushed_cons a l h d d1 f f1 f' :
  h !! a = Some d -> (a ∉ l) -> sockets_ok (a :: l) h f -> flushed_one d d1 f f1 ->
  fds_flushed l (<[a := d1]> h) f1 f' -> fds_flushed (a :: l) h f f'.
Proof.
  intros Ha Hal Hsk Hone [Hf1 Hf2].
  assert (forall b, b ∈ l -> b <> a) as Hne by (by intros b Hb ->).
  assert (forall b db, b ∈ l -> <[a := d1]> h !! b = Some db <-> h !! b = Some db) as Hl.
  { intros b db Hb. pose proof (Hne b Hb). by rw lookup_insert_ne. }
  assert (forall b db, b ∈ l -> h !! b = Some db -> socket_id d <> socket_id db) as Hdis.
  { intros b db Hb Hdb. apply (sk_distinct _ _ _ Hsk a b); try done.
    - apply list_elem_of_here.
    - by apply list_elem_of_further.
    - intros <-. done. }
  assert (forall id, socket_id d <> id \/ flushes d = false -> f1 !! id = f !! id) as Hkeep.
  { intros id Hid. unfold flushed_one in Hone. destruct (flushes d); [|by destruct Hone as [_ ->]].
    destruct Hone as (_ & _ & x & x' & _ & -> & _). destruct Hid as [Hid|]; [|done]. by rw lookup_insert_ne. }
  split.
  - intros b db y [->|Hb]%elem_of_cons Hdb Hfb Hy.
    + rw Ha in Hdb. injection Hdb as <-. unfold flushed_one in Hone. rw Hfb in Hone.
      destruct Hone as (_ & _ & x & x' & Hx & Hfeq & ? & ? & ? & ?). rw Hx in Hy. injection Hy as <-.
      exists x'. split; [|done]. rw Hf2; [|by rw Hfeq lookup_insert_eq].
      intros c dc Hc Hdc _. apply Hl in Hdc; [|done]. intros Heq. by eapply (Hdis c dc).
    + eapply Hf1; [done|by apply Hl|done|]. rw Hkeep //. left. by eapply Hdis.
  - intros id Hid. rw Hf2.
    + intros b db Hb Hdb. apply Hl in Hdb; [|done]. apply (Hid b); [by apply list_elem_of_further|done].
    + apply Hkeep. destruct (flushes d) eqn:Hfd; [|by right]. left.
      apply (Hid a); [apply list_elem_of_here|done|done].
Qed.

Lemma flush_clients_spec X suf : forall pre w,
  world_ok X w -> NoDup suf -> (forall a, a ∈ suf -> is_Some (w_heap w !! a)) ->
  sockets_ok suf (w_heap w) (w_fds w) ->
  wp false (flush_clients (pre ++ suf) (seq (length pre) (length suf))) w (fun _ w' =>
    world_ok X w' /\ w_next w' = w_next w /\ w_server w' = w_server w /\
    heap_flushed suf (w_heap w) (w_heap w') /\ fds_flushed suf (w_heap w) (w_fds w) (w_fds w')).
Proof.
  induction suf as [|a suf IH]; intros pre w Hw Hnd Hlive Hsk; cbn [length seq flush_clients].
  - apply wp_ret. split_and!; try done.
    + intros a. destruct (w_heap w !! a) as [d|]; [|done]. exists d. split; [done|].
      rw bool_decide_false //. by intros ?%not_elem_of_nil.
    + split; [by intros a d x ?%not_elem_of_nil|done].
  - apply NoDup_cons in Hnd as [Ha Hnd]. destruct (Hlive a) as [d Hd]; [apply list_elem_of_here|].
    assert (a ∈ a :: suf) as Hin by apply list_elem_of_here.
    destruct (sk_open _ _ _ Hsk a d Hin Hd) as (x & Hx & Hwr).
    unfold entry. rw list_lookup_middle //. wp_steps. apply (wp_get_client _ _ _ d); [done|].
    assert (pre ++ a :: suf = (pre ++ [a]) ++ suf) as -> by by rw -app_assoc.
    assert (Datatypes.S (length pre) = length (pre ++ [a])) as -> by zl.
    apply wp_bind. assert (wp false (if u64 FAIL =? pub d then mret 0 else flush a) w (fun _ w1 =>
      world_ok X w1 /\ w_next w1 = w_next w /\ w_server w1 = w_server w /\
      exists d1, w_heap w1 = <[a := d1]> (w_heap w) /\ flushed_one d d1 (w_fds w) (w_fds w1) /\
        sockets_ok suf (w_heap w1) (w_fds w1))) as Hfirst.
    { unfold flushed_one, flushes. destruct (u64 FAIL =? pub d).
      - apply wp_ret. split_and!; try done. exists d. rw insert_id //. split_and!; try done.
        by eapply sockets_ok_tail.
      - eapply wp_mono; [apply (flush_at X w a d x); try done; by eapply (sk_size _ _ _ Hsk a)|].
        intros _ w1 (? & ? & ? & d1 & x' & Hh1 & ? & ? & Hf1 & ? & ? & ? & ?). split_and!; try done.
        exists d1. split; [done|]. split; [simpl; split_and!; try done; by exists x, x'|]. rw Hh1 Hf1. by apply sockets_ok_update. }
    eapply wp_mono; [exact Hfirst|]. intros _ w1 (Hw1 & Hn1 & Hs1 & d1 & Hh1 & Hone & Hsk1).
    eapply wp_mono; [apply (IH (pre ++ [a]) w1); try done|].
    + intros b Hb. rw Hh1 lookup_insert_ne; [by intros <-|]. apply Hlive. by apply list_elem_of_further.
    + intros _ w' (Hw' & Hn' & Hs' & Hheap & Hfds). rw Hh1 in Hheap, Hfds.
      split_and!; [done|congruence|congruence|by eapply heap_flushed_cons|by eapply fds_flushed_cons].
Qed.
End turns.

(** ** Leaving and joining *)

Section membership.
Context {S : Type} `{!CacheModule S} `{!CacheModuleLaws S}.
Context (heap_after : Z -> bytes).
Implicit Types (s : S) (w : World S) (X L : gset Z).

Lemma unlink_spec w a d l1 l2 :
  w_heap w !! a = Some d ->
  (forall b, b ∈ l1 -> exists db, w_heap w !! b = Some db /\ socket_id db <> socket_id d) ->
  unlink (socket_id d) (l1 ++ a :: l2) w = Ret (Some (l1 ++ l2), w).
Proof.
  intros Ha Hl1. unfold mbind, M_bind. induction l1 as [|b l1 IH]; cbn [unlink app].
  - unfold mbind, M_bind, get_client. rw Ha Z.eqb_refl //.
  - destruct (Hl1 b) as (db & Hb & Hne); [apply list_elem_of_here|].
    unfold mbind, M_bind, get_client. rw Hb (proj2 (Z.eqb_neq _ _)) //.
    rw IH //. intros c Hc. apply Hl1. by apply list_elem_of_further.
Qed.

Lemma release_at X w a d :
  world_ok X w -> w_heap w !! a = Some d ->
  wp false (release_client a) w (fun _ w' =>
    world_ok X w' /\ same_rest w w' /\ w_heap w' = delete a (w_heap w)).
Proof.
  intros [L Hw] Ha. pose proof (hi_client _ _ (wa_heap _ _ _ Hw) _ _ Ha) as Hd.
  pose proof (hi_owned _ _ (wa_heap _ _ _ Hw) _ _ Ha) as HL. pose proof (wa_apart _ _ _ Hw _ _ Ha) as HX.
  unfold release_client. apply wp_bind, (wp_get_client _ _ _ d); [done|].
  apply wp_bind, wp_on_mem. eapply wp_mono; [by apply (release_spec false L), HL; [apply (wa_mem _ _ _ Hw)|]|].
  intros r s [_ Hs]. unfold free_client. apply wp_bind. cbn. split_and!; try done.
  exists (L ∖ client_owns d). destruct Hw as [Hm Hh HXL Hap]. constructor; cbn; [done| | |].
  - by apply heap_inv_delete.
  - clear -HXL HX. set_solver.
  - intros b db [_ Hb]%lookup_delete_Some. by eapply Hap.
Qed.

(** The departure notice, delivered while the cache it was composed in is
    held. *)
Lemma logout_notice_spec w nm sn :
  world_ok ∅ w -> server_ok w -> cstr nm = Ret sn -> zlen sn < 30 -> (nl ∉ sn) ->
  wp false (logout_notice heap_after nm) w (fun n w' =>
    let l := clients (w_server w) in
    n = zlen (recipients (bs CMD_TO_ALL) sn l (w_heap w)) /\
    world_ok ∅ w' /\ same_rest w w' /\
    heap_delivered (bs CMD_TO_ALL) sn (sys_text (sn ++ bs " " ++ bs MSG_LOGOUT_SUFFIX)) l
      (w_heap w) (w_heap w')).
Proof.
  intros [L Hw] Hsv Hnm Hl Hnl. unfold logout_notice. wp_steps. rw Hnm. wp_steps.
  pose proof (zlen_nonneg sn). change (zlen (bs MSG_LOGOUT_SUFFIX)) with 14. rw i32_small; [lia|].
  apply wp_on_mem. eapply wp_mono; [apply (cm_get_spec false L); [apply (wa_mem _ _ _ Hw)|lia]|].
  intros oc s1 (c & -> & Hf & Hc & Hs1).
  destruct (world_hold ∅ L w s1 (cid c) Hw Hc Hs1) as [Hw1 HcX].
  destruct (notice_message ({[cid c]} ∪ L) s1 nm sn MSG_LOGOUT_SUFFIX (zlen sn + 14 + 2) c Hs1 Hnm Hl Hnl) as (b & Hst & Hb & Hmsg);
    [by apply (bool_decide_unpack _); vm_compute|by apply (bool_decide_unpack _); vm_compute|done|done|].
  wp_steps. rw Hst. wp_steps. apply wp_on_mem. eapply wp_mono; [apply Hmsg|].
  intros om s2 (Hs2 & m & e & -> & Hcpy & Hm). wp_steps. rw Hcpy. wp_steps.
  set (w2 := set_mem s2 _). assert (world_ok ({[cid c]} ∪ ∅) w2) as Hw2.
  { exists ({[cid c]} ∪ L). by eapply (world_mono _ ({[cid c]} ∪ L) _ (set_mem s1 w)). }
  assert (server_ok w2) as Hsv2 by (destruct Hsv; by constructor).
  eapply wp_mono; [by apply (deliver_spec ({[cid c]} ∪ ∅) w2)|].
  intros n w3 (-> & [L3 Hw3] & Hr3 & Hdel).
  apply wp_bind, wp_on_mem. eapply wp_mono.
  { apply (cm_recycle_spec false L3); [apply (wa_mem _ _ _ Hw3)| |].
    - simpl. pose proof (wa_held _ _ _ Hw3) as HX3. clear -HX3. set_solver.
    - destruct (cache_fresh_ok _ _ Hf) as [Hcl Hlen]. constructor; [done|]. simpl. by rw Hb. }
  intros r s4 [_ Hs4]. apply wp_ret. cbv zeta. split; [done|]. split; [|done].
  exists (L3 ∖ {[cid c]}). by apply (world_drop ∅ L3).
Qed.

Lemma server_ok_remove w a l1 l2 n i :
  server_ok w -> clients (w_server w) = l1 ++ a :: l2 -> n = client_count (w_server w) - 1 ->
  i = set_clients (l1 ++ l2) n (w_server w) -> server_ok (set_server i w).
Proof.
  intros [Hl Hnd Hc Hb] Hcl -> ->. rw Hcl in Hl, Hnd, Hc, Hb.
  assert (l1 ++ a :: l2 ≡ₚ a :: (l1 ++ l2)) as Hp by solve_Permutation.
  constructor; simpl.
  - intros b Hin. apply Hl. rw Hp. by apply list_elem_of_further.
  - rw Hp in Hnd. by apply NoDup_cons in Hnd as [_ ?].
  - rw Hc. zl.
  - zl.
Qed.

(** [user_logout] of a listed client whose socket nobody shares. *)
Lemma user_logout_spec w a d l1 l2 :
  world_ok ∅ w -> server_ok w -> w_heap w !! a = Some d -> (nl ∉ cname d) ->
  clients (w_server w) = l1 ++ a :: l2 ->
  (forall b, b ∈ l1 -> exists db, w_heap w !! b = Some db /\ socket_id db <> socket_id d) ->
  wp false (user_logout heap_after a) w (fun _ w' =>
    world_ok ∅ w' /\ server_ok w' /\ clients (w_server w') = l1 ++ l2 /\
    w_fds w' = delete (socket_id d) (w_fds w) /\ w_next w' = w_next w /\
    is_running (w_server w') = is_running (w_server w) /\ exists h, w_heap w' = delete a h /\
      heap_delivered (bs CMD_TO_ALL) (cname d)
        (sys_text (cname d ++ bs " " ++ bs MSG_LOGOUT_SUFFIX)) (l1 ++ l2) (w_heap w) h /\
      sign_to_flush_msg (w_server w') =
        (if zlen (recipients (bs CMD_TO_ALL) (cname d) (l1 ++ l2) (w_heap w)) =? 0
         then sign_to_flush_msg (w_server w) else i32 (sign_to_flush_msg (w_server w) + 1))).
Proof.
  intros Hw Hs Ha Hnl Hcl Hl1. pose proof Hw as [L HwL].
  pose proof (hi_client _ _ (wa_heap _ _ _ HwL) _ _ Ha) as Hd. destruct (client_name _ Hd) as [Hn Hnlen].
  unfold user_logout. apply wp_bind, wp_server, wp_bind, (wp_get_client _ _ _ d); [done|].
  apply wp_bind. eapply wp_run; [rw Hcl; by apply unlink_spec|]. cbv beta iota.
  assert (i32 (client_count (w_server w) - 1) = client_count (w_server w) - 1) as ->.
  { destruct Hs as [_ _ Hc Hb]. pose proof (zlen_nonneg (clients (w_server w))). rw Hc. apply i32_small. lia. }
  apply wp_bind, wp_put_server. set (i := set_clients (l1 ++ l2) _ _). set (w1 := set_server i w).
  assert (server_ok w1) as Hs1 by by eapply server_ok_remove.
  assert (world_ok ∅ w1) as Hw1 by by apply world_ok_server.
  eapply wp_bind, wp_mono; [by apply (logout_notice_spec w1 (name d) (cname d))|].
  intros n w2 (Hn2 & Hw2 & (Hf2 & Hx2 & Hsv2) & Hdel). cbv zeta in Hn2, Hdel.
  change (w_heap w1) with (w_heap w) in Hn2, Hdel. change (clients (w_server w1)) with (l1 ++ l2) in Hn2, Hdel.
  change (w_fds w1) with (w_fds w) in Hf2. change (w_server w1) with i in Hsv2.
  pose proof (Hdel a) as Ha2. rw Ha in Ha2. destruct Ha2 as (d2 & Ha2 & Hd2).
  apply wp_bind. eapply wp_run; [done|]. set (w3 := set_fds _ w2).
  eapply wp_bind, wp_mono; [apply (release_at ∅ w3 a d2); [by apply world_ok_fds|done]|].
  intros _ w4 (Hw4 & (Hf4 & Hx4 & Hsv4) & Hh4). cbn in Hf4, Hx4, Hsv4, Hh4.
  change (w_next w1) with (w_next w) in Hx2.
  assert (server_ok w4) as Hs4.
  { destruct Hs1 as [Hl Hnd Hc Hb]. cbn in Hl, Hnd, Hc, Hb. constructor; rw Hsv4 Hsv2; cbn; try done.
    intros b Hb'. destruct (Hl b Hb') as [db Hdb]. pose proof (Hdel b) as Hdb'. rw Hdb in Hdb'.
    destruct Hdb' as (db' & Hdb' & _). rw Hh4 lookup_delete_ne; [|by eexists].
    intros <-. pose proof (so_nodup _ Hs) as Hnd0. rw Hcl in Hnd0.
    apply NoDup_app in Hnd0 as (_ & Hno & Hnd2). apply NoDup_cons in Hnd2 as [Hno2 _].
    apply elem_of_app in Hb' as [Hb'|Hb']; [|done]. apply (Hno a Hb'), list_elem_of_here. }
  destruct (Z.eqb_spec n 0) as [Hz|Hz].
  - apply wp_ret. split_and!; try done; [by rw Hsv4 Hsv2|by rw Hf4 Hf2|congruence|by rw Hsv4 Hsv2|].
    exists (w_heap w2). split_and!; try done. rw Hsv4 Hsv2 -Hn2 (proj2 (Z.eqb_eq n 0)) //.
  - unfold bump_sign. apply wp_bind, wp_server, wp_put_server. cbn.
    split_and!; [by apply world_ok_server|by destruct Hs4; constructor|by rw Hsv4 Hsv2|by rw Hf4 Hf2|congruence|by rw Hsv4 Hsv2|].
    exists (w_heap w2). split_and!; try done. rw Hsv4 Hsv2 -Hn2 (proj2 (Z.eqb_neq n 0)) //.
Qed.
End membership.

(** ** Accepting and reading *)

Section input.
Context {S : Type} `{!CacheModule S} `{!CacheModuleLaws S}.
Implicit Types (s : S) (w : World S) (X L : gset Z).

Lemma accept_spec X w id f peer now :
  world_ok X w -> server_ok w -> w_heap w !! w_next w = None -> 0 <= id ->
  zlen (clients (w_server w)) + 1 < 2 ^ 31 ->
  wp false (accept_client id f peer now 0 0) w (fun b w' => b = true /\
    world_ok X w' /\ server_ok w' /\ exists d, fresh_client id (bs UNKNOWN_CLIENT) d /\
    w_heap w' = <[w_next w := d]> (w_heap w) /\ w_fds w' = <[id := f]> (w_fds w) /\
    clients (w_server w') = clients (w_server w) ++ [w_next w] /\ w_next w' = w_next w + 1 /\
    is_running (w_server w') = is_running (w_server w)).
Proof.
  intros Hw Hs Hnew Hid Hb. unfold accept_client. rw (proj2 (Z.ltb_ge id 0)) //.
  apply wp_bind, wp_getS, wp_bind, wp_putS. set (w1 := set_fds _ w).
  assert (world_ok X w1) as [L Hw1] by by apply world_ok_fds.
  apply wp_bind, wp_on_mem. eapply wp_mono.
  { apply (new_client_spec L _ id (lit UNKNOWN_CLIENT) (bs UNKNOWN_CLIENT));
      [apply (wa_mem _ _ _ Hw1)|done|done]. }
  intros od s1 (Hs1 & d & -> & Hd). pose proof Hd as (Hci & Hown & _).
  apply wp_bind, wp_getS, wp_bind, wp_putS. set (w2 := mkWorld _ _ _ _ _).
  assert (world_at X L w2) as Hw2.
  { destruct Hw1 as [Hm Hh HX Hap]. constructor; cbn; try done.
    - by apply heap_inv_new.
    - intros b db [[<- <-]|[_ Hb']]%lookup_insert_Some; [rw Hown; apply disjoint_empty_l|by eapply Hap]. }
  apply wp_bind, wp_on_mem. eapply wp_mono; [apply cm_malloc_spec, (wa_mem _ _ _ Hw2)|].
  intros [blk|] s2 (Hs2 & Hu & _); [|by destruct Hu].
  apply wp_bind, wp_server, wp_bind, wp_put_server, wp_ret. cbn. destruct Hs as [Hl Hnd Hc Hbd].
  split; [done|]. split_and!.
  - apply world_ok_server. exists L. by eapply world_mono.
  - assert (w_next w ∉ clients (w_server w)) as Hfresh.
    { intros Hin. destruct (Hl _ Hin) as [? Hx]. by rw Hnew in Hx. }
    constructor; cbn.
    + intros b [Hin|Hin%list_elem_of_singleton]%elem_of_app; [|subst b].
      * destruct (Hl _ Hin) as [db Hdb]. rw lookup_insert_ne; [by intros <-|by eexists].
      * rw lookup_insert_eq. by eexists.
    + apply NoDup_app. split_and!; [done| |apply NoDup_singleton].
      intros b Hin Hb'%list_elem_of_singleton. by subst b.
    + rw Hc i32_small; [pose proof (zlen_nonneg (clients (w_server w))); lia|]. by rw zlen_app.
    + rw zlen_app. done.
  - by exists d.
Qed.

Lemma listen_spec X w id f peer now :
  world_ok X w -> server_ok w -> w_heap w !! w_next w = None -> 0 <= id ->
  zlen (clients (w_server w)) + 1 < 2 ^ 31 ->
  wp false (handle_listen_turn id f peer now 0 0) w (fun _ w' =>
    world_ok X w' /\ server_ok w' /\ exists d, fresh_client id (bs UNKNOWN_CLIENT) d /\
    w_heap w' = <[w_next w := d]> (w_heap w) /\ w_fds w' = <[id := f]> (w_fds w) /\
    clients (w_server w') = clients (w_server w) ++ [w_next w] /\ w_next w' = w_next w + 1).
Proof.
  intros. unfold handle_listen_turn. eapply wp_bind, wp_mono; [by apply (accept_spec X w id f peer now)|].
  intros b w' (_ & ? & ? & d & ? & ? & ? & ? & ? & _). apply wp_ret. split_and!; [done..|]. by exists d.
Qed.

(** What [ioctl] and [read] bring into the reading buffer. *)
Lemma fetch_at X w a d f :
  world_ok X w -> w_heap w !! a = Some d -> w_fds w !! socket_id d = Some f ->
  fd_rplan f = [] -> zlen (contents (reading_buffer d)) + zlen (fd_in f) < 2 ^ 31 - 1 ->
  wp false (fetch a) w (fun r w' =>
    world_ok X w' /\ w_next w' = w_next w /\ w_server w' = w_server w /\ r = zlen (fd_in f) /\
    exists rb, w_heap w' = <[a := set_reading rb 0 d]> (w_heap w) /\
      contents rb = contents (reading_buffer d) ++ fd_in f /\
      (fd_in f = [] -> rb = reading_buffer d) /\
      (unread (reading_buffer d) -> unread rb) /\ exists f', w_fds w' = <[socket_id d := f']> (w_fds w) /\ fd_in f' = [] /\
        fd_rplan f' = [] /\ fd_out f' = fd_out f /\ fd_wplan f' = fd_wplan f).
Proof.
  intros [L Hw] Ha Hf Hr Hsz. pose proof (hi_client _ _ (wa_heap _ _ _ Hw) _ _ Ha) as Hd.
  pose proof (hi_owned _ _ (wa_heap _ _ _ Hw) _ _ Ha) as HL. pose proof (zlen_nonneg (fd_in f)) as Hpos.
  pose proof (zlen_nonneg (contents (reading_buffer d))).
  assert (forall x, alter (fun _ => x) (socket_id d) (w_fds w) = <[socket_id d := x]> (w_fds w)) as Halt.
  { intros x. apply map_eq. intros id. destruct (decide (id = socket_id d)) as [->|Hne].
    - by rw lookup_alter_eq lookup_insert_eq Hf.
    - by rw lookup_alter_ne // lookup_insert_ne. }
  unfold fetch. apply wp_bind, (wp_get_client _ _ _ d); [done|]. apply wp_bind, wp_getS.
  apply wp_bind, wp_on_mem. unfold sock. rw Hf /=.
  destruct (decide (zlen (fd_in f) = 0)) as [Hz|Hnz].
  - rw Hz. eapply wp_mono; [apply (fetch_from_nothing L); [apply (wa_mem _ _ _ Hw)|done|done]|].
    intros [[r f'] d'] s (-> & -> & -> & L' & HLL & Hs). wp_steps. unfold put_fd. apply wp_bind. cbn.
    assert (fd_in f = []) as Hnil by (apply nil_length_inv; unfold zlen in Hz; lia).
    assert (set_reading (reading_buffer d) 0 d = d) as Hsame.
    { pose proof (ci_check _ Hd). destruct d; simpl in *. by subst. }
    split; [|split_and!; try done].
    + exists L'. assert (<[a := d]> (w_heap w) = w_heap w) as -> by by apply insert_id.
      pose proof (world_mono X L L' w s Hw Hs HLL) as []. by constructor.
    + exists (reading_buffer d). rw Hsame Hnil app_nil_r. split_and!; try done.
      exists f. by rw Halt.
  - eapply wp_mono; [apply (fetch_from_spec L _ f d (zlen (fd_in f))); [apply (wa_mem _ _ _ Hw)|done|done|lia| |lia]|].
    { unfold reads_succeed. rw Hr. constructor. }
    intros [[r f'] d'] s (data & L' & -> & _ & Hin & Hd' & Hc & Hci & Hs & HLL & Ho & Hfr & _ & Ho' & Hw' & Hall & Hun).
    wp_steps. unfold put_fd. apply wp_bind. cbn. destruct (Hall Hr ltac:(lia)) as [Hall' Hr']. clear Hall. rename Hall' into Hall.
    assert (fd_in f' = []) as Hnil.
    { apply nil_length_inv. rw Hin in Hall. unfold zlen in Hall. rw length_app in Hall. lia. }
    rw Hnil app_nil_r in Hin. rw Hin. split; [|split_and!; try done].
    + exists L'. assert (world_at X L' (set_mem s (set_heap (<[a := d']> (w_heap w)) w))) as [].
      { eapply (world_update X L L' w s a d d'); try done. clear -HLL. set_solver. }
      by constructor.
    + exists (reading_buffer d'). rw -Hd'. split_and!; try done; [by intros -> |exists f'; by rw Halt].
Qed.
End input.
