(* ===== verification/ServerTheorems.v ===== *)
(** * What the server guarantees

    The properties of src/IMServer.c, each with a run on a concrete world. *)
From Stdlib Require Import Strings.Byte String.
From S2P Require Import Prelude CLib Alloc Cache Buffer Message ClientInfo Server ServerSpec.
From S2P Require Import ServerLoop ServerTurns BufferTheorems ClientTheorems.

(** ** Lemmas *)

Section lemmas.
Context {S : Type} `{!CacheModule S} `{!CacheModuleLaws S}.
Implicit Types (w : World S).

(** Nobody is marked as failed: the logout pass does nothing. *)
Lemma logout_clients_none ha suf : forall pre w,
  (forall a, a ∈ suf -> exists d, w_heap w !! a = Some d /\ flushes d = true) ->
  logout_clients ha (pre ++ suf) (seq (length pre) (length suf)) w = Ret (tt, w).
Proof.
  induction suf as [|a suf IH]; intros pre w Hall; cbn [length seq logout_clients]; [done|].
  unfold entry, lift, mbind, M_bind. rw list_lookup_middle //. unfold get_client.
  destruct (Hall a) as (d & Hd & Hfl); [apply list_elem_of_here|]. rw Hd.
  unfold flushes in Hfl. destruct (u64 FAIL =? pub d); [done|].
  assert (pre ++ a :: suf = (pre ++ [a]) ++ suf) as -> by by rw -app_assoc.
  assert (Datatypes.S (length pre) = length (pre ++ [a])) as -> by zl.
  apply IH. intros b Hb. apply Hall. by apply list_elem_of_further.
Qed.

Lemma flushed_flushes l h h' a d :
  heap_flushed l h h' -> h !! a = Some d -> exists d', h' !! a = Some d' /\ flushes d' = flushes d.
Proof.
  intros Hh Ha. specialize (Hh a). rw Ha in Hh. destruct Hh as (d' & Hd' & Hr). exists d'. split; [done|].
  destruct (_ && _); [by destruct Hr as [-> _]|by subst].
Qed.

(** A line that names a target. *)
Lemma to_c_line tn text :
  (x3a ∉ tn) -> 30 <= zlen tn < 64 ->
  let l := bs CMD_TO_C ++ tn ++ bs ": " ++ text in
  is_prefix (bs CMD_LOGIN) l = false /\ is_prefix (bs CMD_TO_ALL) l = false /\
  is_prefix (bs CMD_TO_C) l = true /\ colon l = Some (5 + length tn)%nat /\
  forall m, drop 5 (l ++ m) = tn ++ bs ": " ++ text ++ m.
Proof.
  intros Hcol Htn l. split_and!.
  - apply bool_decide_false. intros Heq. apply (f_equal (fun x => x !! 0%nat)) in Heq.
    by vm_compute in Heq.
  - apply bool_decide_false. intros Heq. apply (f_equal (fun x => x !! 3%nat)) in Heq.
    by vm_compute in Heq.
  - apply bool_decide_true. unfold l. apply take_app_length.
  - unfold colon, l. change (bs CMD_TO_C) with [x54; x4f; x2d; x43; x2d].
    assert (list_find (fun c : byte => c = x3a) (tn ++ bs ": " ++ text) = Some (length tn, x3a)) as Hf.
    { apply list_find_Some. split_and!.
      - rw list_lookup_middle //.
      - done.
      - intros j y Hj Hlt ->. apply Hcol. rw lookup_app_l // in Hj. by eapply list_elem_of_lookup_2. }
    simpl. by rw Hf.
  - intros m. unfold l. rw -!app_assoc. by apply (drop_app_length (bs CMD_TO_C)).
Qed.

(** The tests of [read_client] that lead to [fetch]. *)
Lemma read_client_pollin ha bh w a d revents (Q : () -> World S -> Prop) :
  w_heap w !! a = Some d -> socket_id d <> -1 -> Z.land revents POLLIN <> 0 ->
  wp false (r ← fetch a; if i32 r =? 0 then mark_failed a else try_to_handle_msg ha bh a) w Q ->
  wp false (read_client ha bh (socket_id d, a) revents) w Q.
Proof.
  intros Ha Hsk Hrev Hwp. unfold read_client. rw (proj2 (Z.eqb_neq _ _)) //.
  apply wp_bind, (wp_get_client _ _ _ d); [done|]. rw Z.eqb_refl. cbn [negb].
  destruct (Z.eqb_spec revents 0) as [->|_]; [done|]. rw (proj2 (Z.eqb_neq _ _)) //.
Qed.
End lemmas.

(** ** Theorems *)

Section theorems.
Context {S : Type} `{!CacheModule S} `{!CacheModuleLaws S}.
Context (heap_after : Z -> bytes) (behind : nat -> bytes).
Implicit Types (s : S) (w : World S).

(** A delivery queues the text for exactly the listed clients
    that are not marked as failed, have logged in, are not the excluded sender,
    and are the target (or everybody); it reports their number and changes
    nothing else. *)
Theorem deliver_reaches_targets w m tn en txt :
  world_ok ∅ w -> server_ok w -> msg_for m tn en txt ->
  exists n w', deliver_msg_to_all_clients m w = Ret (n, w') /\
    n = zlen (recipients tn en (clients (w_server w)) (w_heap w)) /\
    heap_delivered tn en txt (clients (w_server w)) (w_heap w) (w_heap w') /\
    same_rest w w' /\ world_ok ∅ w'.
Proof.
  intros Hw Hs Hm. destruct (wp_total _ _ _ (deliver_spec ∅ w m tn en txt Hw Hs Hm))
    as (n & w' & Hrun & -> & ? & ? & ?). by eexists _, w'.
Qed.

(** C11 (refinement): parsing and handling one line that is safe ([line_safe]: short,
    with a text that begins inside the line, and a target name, if any, of less than
    30 bytes) implements the abstract chat: the clients' names, marks and queues
    change as [handle_line] says, whatever lies in memory behind the line up to a
    NUL.  The other lines are the subject of [empty_broadcast_leaks] and
    [long_target_overflows]. *)
Theorem handle_msg_refines w a d l after :
  terminated heap_after -> nul ∈ after ->
  world_ok ∅ w -> server_ok w -> w_heap w !! a = Some d ->
  (nl ∉ l) -> (nul ∉ l) -> line_safe l ->
  exists n w', handle_msg heap_after a (l ++ [nl]) after w = Ret (n, w') /\
    abs_heap (w_heap w') = handle_line (clients (w_server w)) a (abs_heap (w_heap w)) l /\
    same_reading (w_heap w) (w_heap w') /\ same_rest w w' /\ world_ok ∅ w'.
Proof.
  intros Hter Haft Hw Hs Ha Hnl Hnul (Hlen & Hbey & Hto).
  destruct (wp_total _ _ _ (handle_msg_spec heap_after ∅ w a d l after Hw Hs Ha Hnl Hnul Hlen Haft Hbey Hto))
    as (n & w' & Hrun & Hw' & Hr & Heff).
  exists n, w'. split; [done|]. split; [by eapply line_effect_abs|].
  split; [by eapply line_effect_reading|]. done.
Qed.

(** C12 (refinement): on input that keeps to the protocol [try_to_handle_msg]
    terminates, handles lines that are a prefix of the input, in order, each as
    the abstract chat says, and stops where no further line is found. *)
Theorem try_to_handle_msg_folds w a d :
  terminated heap_after -> (forall i, nul ∈ behind i) ->
  world_ok ∅ w -> server_ok w -> w_heap w !! a = Some d ->
  protocol (contents (reading_buffer d)) ->
  exists w' lines d', try_to_handle_msg heap_after behind a w = Ret (tt, w') /\
    contents (reading_buffer d) = (lines ≫= fun x => x ++ [nl]) ++ contents (reading_buffer d') /\
    Forall line_text lines /\
    abs_heap (w_heap w') = foldl (handle_line (clients (w_server w)) a) (abs_heap (w_heap w)) lines /\
    w_heap w' !! a = Some d' /\ next_message (reading_buffer d') = None /\
    world_ok ∅ w' /\ server_ok w'.
Proof.
  intros Hter Hbeh Hw Hs Ha Hp.
  destruct (wp_total _ _ _ (try_to_handle_msg_spec heap_after behind Hter Hbeh ∅ w a d Hw Hs Ha Hp))
    as ([] & w' & Hrun & lines & d' & ? & ? & _ & _ & _ & []).
  by exists w', lines, d'.
Qed.

(** C14 (functional): a readable socket, end to end, when its reads succeed, a NUL
    can be read behind every heap block ([behind]), and the old and the new input
    together keep to the protocol: all its bytes are read, and lines are handled
    from the front of the old input and the new bytes, in order, until no newline
    is left in the first node (512 bytes) of the buffer. *)
Theorem read_client_handles w a d f revents :
  terminated heap_after -> (forall i, nul ∈ behind i) ->
  world_ok ∅ w -> server_ok w -> w_heap w !! a = Some d ->
  socket_id d <> -1 -> Z.land revents POLLIN <> 0 ->
  w_fds w !! socket_id d = Some f -> fd_rplan f = [] -> fd_in f <> [] ->
  zlen (contents (reading_buffer d)) + zlen (fd_in f) < 2 ^ 31 - 1 ->
  protocol (contents (reading_buffer d) ++ fd_in f) ->
  exists w' lines d' f', read_client heap_after behind (socket_id d, a) revents w = Ret (tt, w') /\
    contents (reading_buffer d) ++ fd_in f =
      (lines ≫= fun x => x ++ [nl]) ++ contents (reading_buffer d') /\
    Forall line_text lines /\
    abs_heap (w_heap w') = foldl (handle_line (clients (w_server w)) a) (abs_heap (w_heap w)) lines /\
    w_heap w' !! a = Some d' /\ next_message (reading_buffer d') = None /\
    w_fds w' !! socket_id d = Some f' /\ fd_in f' = [] /\ world_ok ∅ w' /\ server_ok w'.
Proof.
  intros Hter Hbeh Hw Hs Ha Hsk Hrev Hf Hr Hne Hsz Hp.
  pose proof (zlen_nonneg (contents (reading_buffer d))).
  assert (zlen (fd_in f) <> 0) as Hnz by (intros Hz; apply Hne, nil_length_inv; unfold zlen in Hz; lia).
  pose proof (zlen_nonneg (fd_in f)).
  set (post := fun (_ : ()) (w' : World S) => exists lines d' f',
    contents (reading_buffer d) ++ fd_in f =
      (lines ≫= fun x => x ++ [nl]) ++ contents (reading_buffer d') /\
    Forall line_text lines /\
    abs_heap (w_heap w') = foldl (handle_line (clients (w_server w)) a) (abs_heap (w_heap w)) lines /\
    w_heap w' !! a = Some d' /\ next_message (reading_buffer d') = None /\
    w_fds w' !! socket_id d = Some f' /\ fd_in f' = [] /\ world_ok ∅ w' /\ server_ok w').
  assert (wp false (read_client heap_after behind (socket_id d, a) revents) w post) as Hwp.
  2: { destruct (wp_total _ _ _ Hwp) as ([] & w' & Hrun & lines & d' & f' & Hpost). by exists w', lines, d', f'. }
  apply read_client_pollin; [done..|].
  eapply wp_bind, wp_mono; [by apply (fetch_at ∅ w a d f)|].
  intros r w1 (Hw1 & _ & Hsv1 & -> & rb & Hh1 & Hc1 & _ & _ & f' & Hf1 & Hin1 & _). cbv beta.
  rw i32_small; [lia|]. rw (proj2 (Z.eqb_neq _ _)) //.
  assert (server_ok w1) as Hs1.
  { pose proof (server_ok_insert w a (set_reading rb 0 d) Hs ltac:(by eexists)) as [].
    constructor; rw Hsv1; try done. by rw Hh1. }
  assert (w_heap w1 !! a = Some (set_reading rb 0 d)) as Ha1 by (rw Hh1; apply lookup_insert_eq).
  eapply wp_mono; [apply (try_to_handle_msg_spec heap_after behind Hter Hbeh ∅ w1 a _ Hw1 Hs1 Ha1); by rw /= Hc1|].
  intros [] w2 (lines & d' & Hw2 & Hs2 & Hfd2 & _ & _ & [Habs Ha2 Hno _ _ _ _ Hcl Hcon]).
  exists lines, d', f'. rw /= Hc1 in Hcon. rw Hsv1 Hh1 abs_reading // in Habs.
  split_and!; try done. by rw Hfd2 Hf1 lookup_insert_eq.
Qed.

(** A readable socket without bytes is a closed connection:
    the client is marked as failed and nothing else changes for anybody. *)
Theorem read_client_closed w a d f revents :
  world_ok ∅ w -> w_heap w !! a = Some d ->
  socket_id d <> -1 -> Z.land revents POLLIN <> 0 ->
  w_fds w !! socket_id d = Some f -> fd_rplan f = [] -> fd_in f = [] ->
  exists w', read_client heap_after behind (socket_id d, a) revents w = Ret (tt, w') /\
    w_heap w' = <[a := set_pub FAIL d]> (w_heap w) /\ w_server w' = w_server w.
Proof.
  intros Hw Ha Hsk Hrev Hf Hr Hnil.
  assert (client_inv d) as Hd by (destruct Hw as [L Hw]; by eapply hi_client, Ha; eapply wa_heap).
  assert (wp false (read_client heap_after behind (socket_id d, a) revents) w (fun _ w' =>
    w_heap w' = <[a := set_pub FAIL d]> (w_heap w) /\ w_server w' = w_server w)) as Hwp.
  2: { destruct (wp_total _ _ _ Hwp) as ([] & w' & Hrun & Hpost). by exists w'. }
  apply read_client_pollin; [done..|].
  eapply wp_bind, wp_mono.
  { apply (fetch_at ∅ w a d f Hw Ha Hf Hr). rw Hnil zlen_nil. pose proof (ci_size _ Hd). lia. }
  intros r w1 (_ & _ & Hsv1 & -> & rb & Hh1 & _ & Hrb & _). rw Hnil zlen_nil. cbv beta.
  change (i32 0 =? 0) with true. cbv iota. specialize (Hrb Hnil).
  assert (set_reading rb 0 d = d) as Hsame.
  { pose proof (ci_check _ Hd). subst rb. destruct d; simpl in *. by subst. }
  rw Hsame in Hh1. unfold mark_failed.
  apply wp_bind, (wp_get_client _ _ _ d); [rw Hh1; apply lookup_insert_eq|].
  apply wp_put_client. cbn. split; [|done]. by rw Hh1 insert_insert_eq.
Qed.

(** C16 (functional): a logout takes the client off the list (count included),
    tells every other logged-in client "<name> has logged out", closes the
    socket, frees the client, and raises the flush sign if somebody was told. *)
Theorem user_logout_removes w a d l1 l2 :
  world_ok ∅ w -> server_ok w -> w_heap w !! a = Some d -> (nl ∉ cname d) ->
  clients (w_server w) = l1 ++ a :: l2 ->
  (forall b, b ∈ l1 -> exists db, w_heap w !! b = Some db /\ socket_id db <> socket_id d) ->
  exists w' h, user_logout heap_after a w = Ret (tt, w') /\
    clients (w_server w') = l1 ++ l2 /\ server_ok w' /\
    w_heap w' = delete a h /\
    heap_delivered (bs CMD_TO_ALL) (cname d)
      (sys_text (cname d ++ bs " " ++ bs MSG_LOGOUT_SUFFIX)) (l1 ++ l2) (w_heap w) h /\
    w_fds w' = delete (socket_id d) (w_fds w) /\
    sign_to_flush_msg (w_server w') =
      (if zlen (recipients (bs CMD_TO_ALL) (cname d) (l1 ++ l2) (w_heap w)) =? 0
       then sign_to_flush_msg (w_server w) else i32 (sign_to_flush_msg (w_server w) + 1)) /\
    world_ok ∅ w'.
Proof.
  intros Hw Hs Ha Hnl Hcl Hl1.
  destruct (wp_total _ _ _ (user_logout_spec heap_after w a d l1 l2 Hw Hs Ha Hnl Hcl Hl1))
    as ([] & w' & Hrun & ? & ? & ? & ? & ? & ? & h & ? & ? & ?). by exists w', h.
Qed.

(** An accepted connection becomes a client named "unknown" at
    the end of the list, with empty buffers; the invariants hold on. *)
Theorem handle_listen_adds w id f peer now :
  world_ok ∅ w -> server_ok w -> w_heap w !! w_next w = None -> 0 <= id ->
  zlen (clients (w_server w)) + 1 < 2 ^ 31 ->
  exists w' d, handle_listen_turn id f peer now 0 0 w = Ret (tt, w') /\
    fresh_client id (bs UNKNOWN_CLIENT) d /\ w_heap w' = <[w_next w := d]> (w_heap w) /\
    w_fds w' = <[id := f]> (w_fds w) /\
    clients (w_server w') = clients (w_server w) ++ [w_next w] /\
    server_ok w' /\ world_ok ∅ w'.
Proof.
  intros Hw Hs Hnew Hid Hb.
  destruct (wp_total _ _ _ (listen_spec ∅ w id f peer now Hw Hs Hnew Hid Hb))
    as ([] & w' & Hrun & ? & ? & d & ? & ? & ? & ? & _). by exists w', d.
Qed.

(** A turn of the writing thread over healthy clients empties
    every queue into its socket, whatever short writes the kernel makes, and
    leaves the list and a raised sign as they are. *)
Theorem write_sockets_turn_flushes w :
  world_ok ∅ w -> server_ok w ->
  sockets_ok (clients (w_server w)) (w_heap w) (w_fds w) ->
  (forall a d, a ∈ clients (w_server w) -> w_heap w !! a = Some d -> flushes d = true) ->
  exists w', write_sockets_turn heap_after w = Ret (negb (is_running (w_server w) =? 0), w') /\
    fds_flushed (clients (w_server w)) (w_heap w) (w_fds w) (w_fds w') /\
    heap_flushed (clients (w_server w)) (w_heap w) (w_heap w') /\
    w_server w' = w_server w /\ world_ok ∅ w'.
Proof.
  intros Hw Hs Hsk Hfl. set (l := clients (w_server w)) in *.
  assert (wp false (write_sockets_turn heap_after) w (fun b w' =>
    b = negb (is_running (w_server w) =? 0) /\ fds_flushed l (w_heap w) (w_fds w) (w_fds w') /\
    heap_flushed l (w_heap w) (w_heap w') /\ w_server w' = w_server w /\ world_ok ∅ w')) as Hwp.
  2: { destruct (wp_total _ _ _ Hwp) as (b & w' & Hrun & -> & Hpost). by exists w'. }
  unfold write_sockets_turn. eapply wp_bind, wp_mono; [by apply (get_client_list_spec ∅ w)|].
  intros r w1 (-> & Hw1 & (Hf1 & _ & Hsv1) & Hh1). cbv beta iota.
  rw /zlen Nat2Z.id. fold l. destruct Hs as [Hlive Hnd _ _].
  eapply wp_bind, wp_mono; [apply (flush_clients_spec ∅ l [] w1 Hw1 Hnd)|].
  { intros a Ha. rw Hh1. by apply Hlive. }
  { by rw Hh1 Hf1. }
  intros _ w2 (Hw2 & _ & Hsv2 & Hheap & Hfds). rw Hh1 in Hheap. rw Hh1 Hf1 in Hfds.
  apply wp_bind. eapply wp_run; [apply (logout_clients_none heap_after l [] w2)|].
  { intros a Ha. destruct (Hlive a Ha) as [d Hd].
    destruct (flushed_flushes _ _ _ _ _ Hheap Hd) as (d' & Hd' & He). exists d'. split; [done|].
    rw He. by apply (Hfl a). }
  unfold write_wait. apply wp_bind, wp_server.
  assert (w_server w2 = w_server w) as Hsv by congruence. rw Hsv.
  destruct (Z.eqb_spec (sign_to_flush_msg (w_server w)) 0) as [Hz|Hz].
  - apply wp_bind, wp_put_server, wp_ret. split_and!; try done; [|by apply world_ok_server].
    cbn. rw /set_sign -Hz. by destruct (w_server w).
  - apply wp_bind, wp_ret, wp_ret. by split_and!.
Qed.

(** C38 (error): a remote crash: a line "TO-C-<name>: ..." with a name of 30 to 63
    bytes makes the server write past the target array. *)
Theorem long_target_overflows w a d tn text after :
  world_ok ∅ w -> w_heap w !! a = Some d ->
  (nul ∈ after) -> (x3a ∉ tn) -> (nl ∉ tn) -> (nul ∉ tn) -> (nl ∉ text) -> (nul ∉ text) ->
  30 <= zlen tn < 64 -> zlen text < 2 ^ 20 ->
  handle_msg heap_after a ((bs CMD_TO_C ++ tn ++ bs ": " ++ text) ++ [nl]) after w = UB.
Proof.
  intros [L Hw] Ha Haft Hcol Hnl Hnul Htnl Htnul Htn Htext.
  set (l := bs CMD_TO_C ++ tn ++ bs ": " ++ text).
  pose proof (hi_client _ _ (wa_heap _ _ _ Hw) _ _ Ha) as Hd. destruct (client_name _ Hd) as [Hn Hnlen].
  destruct (to_c_line tn text Hcol Htn) as (Hp1 & Hp2 & Hp3 & Hi & Hdrop). fold l in Hp1, Hp2, Hp3, Hi, Hdrop.
  assert (nul ∉ l) as Hlnul.
  { unfold l. rw !not_elem_of_app. split_and!; try done; by apply (bool_decide_unpack _); vm_compute. }
  assert (zlen l < 2 ^ 29 /\ zlen tn + 7 <= zlen l) as [Hll Hll2].
  { unfold l. rw !zlen_app. change (zlen (bs CMD_TO_C)) with 5. change (zlen (bs ": ")) with 2.
    pose proof (zlen_nonneg text). lia. }
  unfold handle_msg, redirect, mbind, M_bind, lift.
  destruct (strstr_line l after (bs CMD_LOGIN)) as (r1 & -> & ->);
    [by apply (bool_decide_unpack _); vm_compute|done|]. rw Hp1.
  destruct (strstr_line l after (bs CMD_TO_ALL)) as (r2 & -> & ->);
    [by apply (bool_decide_unpack _); vm_compute|done|]. rw Hp2.
  destruct (strstr_line l after (bs CMD_TO_C)) as (r3 & -> & ->);
    [by apply (bool_decide_unpack _); vm_compute|done|]. rw Hp3.
  destruct (strchr_colon l ([nl] ++ after) _ Hlnul Hi) as [Hc _]. rw -app_assoc Hc.
  change (zlen (bs CMD_TO_C)) with 5. change (Z.to_nat 5) with 5%nat. cbv zeta.
  replace (Z.of_nat (5 + length tn) - 5) with (zlen tn) by (unfold zlen; lia). rw i32_small; [lia|].
  unfold on_mem at 1.
  destruct (wp_total _ _ _ (cm_get_spec false L (w_mem w) (zlen tn) (wa_mem _ _ _ Hw) ltac:(lia)))
    as (oc & s1 & -> & c & -> & Hf & Hcl & Hs1).
  destruct (cache_name _ c tn (bs ": " ++ text ++ [nl] ++ after) _ Hf eq_refl) as (b & Hcpy & _ & Hcs);
    [lia|done|].
  rw Hdrop Hcpy. unfold get_client. cbn [w_heap set_mem]. rw Ha.
  rw at_offset_line; [unfold zlen in *; lia|]. unfold on_mem.
  assert (drop (Z.to_nat (Z.of_nat (5 + length tn) + 2)) l = text) as ->.
  { unfold l. replace (Z.to_nat _) with (length (bs CMD_TO_C ++ tn ++ bs ": ")).
    - assert (bs CMD_TO_C ++ tn ++ bs ": " ++ text = (bs CMD_TO_C ++ tn ++ bs ": ") ++ text) as ->
        by by rw -!app_assoc.
      apply drop_app_length.
    - rw !length_app. change (length (bs CMD_TO_C)) with 5%nat. change (length (bs ": ")) with 2%nat. lia. }
  rw (create_p2p_overflow ({[cid c]} ∪ L) s1 (name d) (cname d) _ tn _ (text ++ [nul]) after text) //;
    [by apply cut_line_nl|rw -app_assoc; by apply cstr_nul|lia|lia].
Qed.

(** C25 (bounds): The scan of a line does not end with the line.  [read_from_buffer]
    puts a line into a block of exactly its size and without a NUL, and
    [try_to_handle_msg] searches it for "LOGIN:" with [strstr]: unless "LOGIN:"
    occurs, the search reads on behind the block, through whatever bytes can be read
    there, and is undefined if neither a NUL nor "LOGIN:" is among them - so for
    every "TO-ALL:" or "TO-C-" line of a client, if nothing can be read there. *)
Theorem line_scan_overreads w a d k :
  terminated heap_after -> world_ok ∅ w -> w_heap w !! a = Some d ->
  next_message (reading_buffer d) = Some k -> (nul ∉ behind O) ->
  find_sub (bs CMD_LOGIN) (take k (contents (reading_buffer d)) ++ [nl] ++ behind O) = None ->
  try_to_handle_msg heap_after behind a w = UB.
Proof.
  intros Hter Hw Ha Hk Hnul Hf. unfold try_to_handle_msg, mbind, M_bind.
  assert (get_client a w = Ret (d, w)) as -> by (unfold get_client; by rw Ha).
  destruct (wp_total _ _ _ (fetch_msg_at heap_after Hter ∅ w a d Hw Ha)) as ([sz om] & w1 & -> & _ & _ & rb & _ & Hm).
  cbv zeta in Hm. rw Hk in Hm. destruct Hm as ([= -> ->] & _ & Hl & _). cbn [handle_loop].
  rw (proj2 (Z.ltb_lt 0 (Z.of_nat k + 1))); [lia|]. unfold handle_msg, redirect, mbind, M_bind, lift.
  rw -app_assoc strstr_unterminated //. rw !not_elem_of_app. split_and!; [done| |done].
  by apply (bool_decide_unpack _); vm_compute.
Qed.

(** A leak: the line "TO-ALL:" without text makes the server read
    behind the message block and send whatever lies there, up to the first NUL,
    to every client. *)
Theorem empty_broadcast_leaks w a d secret rest :
  world_ok ∅ w -> server_ok w -> w_heap w !! a = Some d ->
  (nl ∉ secret) -> (nul ∉ secret) -> zlen secret < 2 ^ 30 ->
  exists n w', handle_msg heap_after a (bs CMD_TO_ALL ++ [nl]) (secret ++ nul :: rest) w = Ret (n, w') /\
    heap_delivered (bs CMD_TO_ALL) (cname d) (p2p_text (cname d) secret)
      (clients (w_server w)) (w_heap w) (w_heap w').
Proof.
  intros [L Hw] Hs Ha Hnl Hnul Hlen. set (after := secret ++ nul :: rest).
  pose proof (hi_client _ _ (wa_heap _ _ _ Hw) _ _ Ha) as Hd. destruct (client_name _ Hd) as [Hn Hnlen].
  assert (nul ∈ after) as Haft by (apply elem_of_app; right; apply list_elem_of_here).
  assert (wp false (handle_msg heap_after a (bs CMD_TO_ALL ++ [nl]) after) w (fun _ w' =>
    heap_delivered (bs CMD_TO_ALL) (cname d) (p2p_text (cname d) secret)
      (clients (w_server w)) (w_heap w) (w_heap w'))) as Hwp.
  2: { destruct (wp_total _ _ _ Hwp) as (n & w' & ? & ?). by exists n, w'. }
  unfold handle_msg, redirect. apply wp_bind, wp_bind, wp_lift.
  destruct (strstr_line (bs CMD_TO_ALL) after (bs CMD_LOGIN)) as (r1 & -> & Hb1);
    [by apply (bool_decide_unpack _); vm_compute|done|]. apply owp_ret. rw Hb1.
  change (is_prefix (bs CMD_LOGIN) (bs CMD_TO_ALL)) with false. cbv iota. apply wp_bind, wp_lift.
  destruct (strstr_line (bs CMD_TO_ALL) after (bs CMD_TO_ALL)) as (r2 & -> & Hb2);
    [by apply (bool_decide_unpack _); vm_compute|done|]. apply owp_ret. rw Hb2.
  change (is_prefix (bs CMD_TO_ALL) (bs CMD_TO_ALL)) with true. cbv iota.
  apply wp_bind, (wp_get_client _ _ _ d); [done|].
  change (at_offset (zlen (bs CMD_TO_ALL) + 1) (bs CMD_TO_ALL ++ [nl]) after) with ([] : bytes, after).
  cbv beta iota. apply wp_on_mem. eapply wp_mono.
  { apply (create_p2p_spec false L _ (name d) (cname d) (lit CMD_TO_ALL) (bs CMD_TO_ALL) [] [] after secret);
      try done; [apply (wa_mem _ _ _ Hw)| |by apply cstr_nul].
    unfold cut_line. rw /= (_ : strchr after nl = Ret None) //. unfold after.
    clear -Hnl Hnul. induction secret as [|x l IH]; [done|].
    apply not_elem_of_cons in Hnl as [? Hnl]. apply not_elem_of_cons in Hnul as [? Hnul].
    simpl. repeat case_decide; try congruence. by rw IH. }
  intros om s (Hs1 & Hu & Hm). destruct om as [m|]; [|by destruct Hu].
  destruct (Hm _ eq_refl) as [Hmsg He].
  eapply wp_mono; [apply (deliver_spec ∅ (set_mem s w) m (bs CMD_TO_ALL) (cname d) (p2p_text (cname d) secret))|].
  - by apply (world_mem_ok ∅ L w).
  - by destruct Hs; constructor.
  - constructor; try done. unfold p2p_text. rw !zlen_app. pose proof (zlen_nonneg (cname d)).
    pose proof (zlen_nonneg secret). change (zlen (bs "FROM ")) with 5. change (zlen (bs ": ")) with 2.
    change (zlen [nl]) with 1. lia.
  - intros n w' (_ & _ & _ & Hdel). exact Hdel.
Qed.
End theorems.

(** The deadline of the writing thread's wait is a valid
    [timespec] only in the first nine tenths of a second. *)
Theorem wait_nsec_valid tv_usec :
  0 <= tv_usec < 1000000 -> (wait_nsec tv_usec < 1000000000 <-> tv_usec < 900000).
Proof. unfold wait_nsec. lia. Qed.

(** ** Concrete runs

    "ann" (at 1, on socket 5) and "bob" (at 2, on socket 6) are online. *)
Definition ann_input : bytes := bs "TO-ALL: hi" ++ [nl] ++ bs "TO-C-bob: yo" ++ [nl] ++ bs "le".
Definition input_node (x : bytes) : InnerNode :=
  mkNode (zlen x) 0 (mkCache 0 512 512 (x ++ zeros (512 - zlen x))).
Definition demo_user (id : Z) (nm : string) (rb : InnerBuffer) : ClientData :=
  mkClient id None 4000 (name_array nm) 0 1 0 0 rb [] 0.
Definition ann (rb : InnerBuffer) : ClientData := demo_user 5 "ann" rb.
Definition bob : ClientData := demo_user 6 "bob" [].
Definition demo_world (rb : InnerBuffer) (f : fdesc) : World mem :=
  mkWorld demo_mem (<[1 := ann rb]> (<[2 := bob]> ∅)) (<[5 := f]> (<[6 := mkFd [] [] [] [Some 3]]> ∅)) 3
    (mkServer [1; 2] 2 1 0 0).
Definition no_fd : fdesc := mkFd [] [] [] [].

Lemma demo_lookup rb f a d :
  w_heap (demo_world rb f) !! a = Some d -> (a = 1 /\ d = ann rb) \/ (a = 2 /\ d = bob).
Proof.
  cbn. intros [[<- <-]|[_ [[<- <-]|[_ H]]%lookup_insert_Some]]%lookup_insert_Some; [by left|by right|].
  by rw lookup_empty in H.
Qed.

Lemma demo_user_inv id nm rb :
  buffer_inv rb -> zlen (contents rb) < 2 ^ 31 - 1 ->
  cstr (name_array nm) = Ret (bs nm) -> zlen (bs nm) < 30 -> client_inv (demo_user id nm rb).
Proof.
  intros. constructor; try done; [apply empty_inv|by exists (bs nm)].
Qed.

Lemma demo_world_ok rb f :
  buffer_inv rb -> zlen (contents rb) < 2 ^ 31 - 1 -> owns rb ⊆ {[0]} -> world_ok ∅ (demo_world rb f).
Proof.
  intros Hrb Hl Ho. exists {[0]}.
  assert (client_owns (ann rb) = owns rb) as Hann by (unfold client_owns; cbn; by rw right_id_L).
  assert (client_owns bob = ∅) as Hbob by done.
  constructor; [apply demo_inv| |apply empty_subseteq|intros; apply disjoint_empty_r]. constructor.
  - intros a d [[-> ->]|[-> ->]]%demo_lookup; apply demo_user_inv; try done. apply empty_inv.
  - intros a d [[-> ->]|[-> ->]]%demo_lookup; [by rw Hann|rw Hbob; apply empty_subseteq].
  - intros a b da db [[-> ->]|[-> ->]]%demo_lookup [[-> ->]|[-> ->]]%demo_lookup Hne; try done;
      rw Hbob; by (apply disjoint_empty_r || apply disjoint_empty_l).
Qed.

Lemma demo_server_ok rb f : server_ok (demo_world rb f).
Proof.
  constructor; [|by apply (bool_decide_unpack _); vm_compute|done|done].
  intros a Ha. cbn in Ha. apply elem_of_cons in Ha as [->|Ha%list_elem_of_singleton]; [|subst a]; by eexists.
Qed.

Lemma empty_world f : world_ok ∅ (demo_world [] f).
Proof. apply demo_world_ok; [apply empty_inv|done|apply empty_subseteq]. Qed.

Lemma input_node_inv : buffer_inv [input_node ann_input].
Proof.
  split; [|apply NoDup_singleton]. apply (shape_snoc []); [done|]. split; [by split|by left].
Qed.

Lemma input_world f : world_ok ∅ (demo_world [input_node ann_input] f).
Proof.
  apply demo_world_ok; [apply input_node_inv|by vm_compute|]. unfold owns. simpl. set_solver.
Qed.

Lemma deliver_reaches_targets_witness :
  let w := demo_world [] no_fd in
  let m := mkMsg (lit "TO-ALL:") (lit "ann") 3 (bs "hi!" ++ [nul]) in
  exists n w', deliver_msg_to_all_clients m w = Ret (n, w') /\
    n = zlen (recipients (bs "TO-ALL:") (bs "ann") [1; 2] (w_heap w)) /\
    heap_delivered (bs "TO-ALL:") (bs "ann") (bs "hi!") [1; 2] (w_heap w) (w_heap w') /\
    same_rest w w' /\ world_ok ∅ w'.
Proof.
  apply (deliver_reaches_targets (demo_world [] no_fd) (mkMsg (lit "TO-ALL:") (lit "ann") 3 (bs "hi!" ++ [nul]))
    (bs "TO-ALL:") (bs "ann") (bs "hi!")); [apply empty_world|apply demo_server_ok|].
  constructor; [by constructor|done|by vm_compute].
Defined.

Lemma handle_msg_refines_witness :
  let w := demo_world [] no_fd in
  exists n w', handle_msg behind 1 (bs "TO-C-bob: yo" ++ [nl]) [nul] w = Ret (n, w') /\
    abs_heap (w_heap w') = handle_line [1; 2] 1 (abs_heap (w_heap w)) (bs "TO-C-bob: yo") /\
    same_reading (w_heap w) (w_heap w') /\ same_rest w w' /\ world_ok ∅ w'.
Proof.
  apply (handle_msg_refines behind (demo_world [] no_fd) 1 (ann []) (bs "TO-C-bob: yo") [nul]);
    [apply behind_terminated|apply list_elem_of_here|apply empty_world|apply demo_server_ok|done
    |by apply (bool_decide_unpack _); vm_compute|by apply (bool_decide_unpack _); vm_compute|].
  apply line_check_safe. by vm_compute.
Defined.

Lemma try_to_handle_msg_folds_witness :
  let w := demo_world [input_node ann_input] no_fd in
  exists w' lines d', try_to_handle_msg behind (fun _ => [nul]) 1 w = Ret (tt, w') /\
    ann_input = (lines ≫= fun x => x ++ [nl]) ++ contents (reading_buffer d') /\
    Forall line_text lines /\
    abs_heap (w_heap w') = foldl (handle_line [1; 2] 1) (abs_heap (w_heap w)) lines /\
    w_heap w' !! 1 = Some d' /\ next_message (reading_buffer d') = None /\
    world_ok ∅ w' /\ server_ok w'.
Proof.
  apply (try_to_handle_msg_folds behind (fun _ => [nul]) (demo_world [input_node ann_input] no_fd) 1
    (ann [input_node ann_input]));
    [apply behind_terminated|intros _; apply list_elem_of_here|apply input_world|apply demo_server_ok
    |done|apply protocol_check; by vm_compute].
Defined.

Lemma read_client_handles_witness :
  let f := mkFd (bs "ave it" ++ [nl]) [] [] [] in
  let w := demo_world [input_node ann_input] f in
  exists w' lines d' f', read_client behind (fun _ => [nul]) (5, 1) 1 w = Ret (tt, w') /\
    ann_input ++ fd_in f = (lines ≫= fun x => x ++ [nl]) ++ contents (reading_buffer d') /\
    Forall line_text lines /\
    abs_heap (w_heap w') = foldl (handle_line [1; 2] 1) (abs_heap (w_heap w)) lines /\
    w_heap w' !! 1 = Some d' /\ next_message (reading_buffer d') = None /\
    w_fds w' !! 5 = Some f' /\ fd_in f' = [] /\ world_ok ∅ w' /\ server_ok w'.
Proof.
  apply (read_client_handles behind (fun _ => [nul])
    (demo_world [input_node ann_input] (mkFd (bs "ave it" ++ [nl]) [] [] [])) 1
    (ann [input_node ann_input]) (mkFd (bs "ave it" ++ [nl]) [] [] []) 1);
    [apply behind_terminated|intros _; apply list_elem_of_here|apply input_world|apply demo_server_ok
    |done|done|done|done|done|done|by vm_compute|apply protocol_check; by vm_compute].
Defined.

Lemma read_client_closed_witness :
  let w := demo_world [] no_fd in
  exists w', read_client behind (fun _ => [nul]) (5, 1) 17 w = Ret (tt, w') /\
    w_heap w' = <[1 := set_pub FAIL (ann [])]> (w_heap w) /\ w_server w' = w_server w.
Proof.
  apply (read_client_closed behind (fun _ => [nul]) (demo_world [] no_fd) 1 (ann []) no_fd 17);
    [apply empty_world|done..].
Defined.

Lemma user_logout_removes_witness :
  let w := demo_world [] no_fd in
  exists w' h, user_logout behind 2 w = Ret (tt, w') /\
    clients (w_server w') = [1] /\ server_ok w' /\ w_heap w' = delete 2 h /\
    heap_delivered (bs "TO-ALL:") (bs "bob") (sys_text (bs "bob has logged out")) [1] (w_heap w) h /\
    w_fds w' = delete 6 (w_fds w) /\
    sign_to_flush_msg (w_server w') =
      (if zlen (recipients (bs "TO-ALL:") (bs "bob") [1] (w_heap w)) =? 0 then 0 else 1) /\
    world_ok ∅ w'.
Proof.
  apply (user_logout_removes behind (demo_world [] no_fd) 2 bob [1] []);
    [apply empty_world|apply demo_server_ok|done|by apply (bool_decide_unpack _); vm_compute|done|].
  intros b Hb%list_elem_of_singleton. subst b. by exists (ann []).
Defined.

Lemma handle_listen_adds_witness :
  let w := demo_world [] no_fd in
  exists w' d, handle_listen_turn 7 no_fd (0, None, 999) 5 0 0 w = Ret (tt, w') /\
    fresh_client 7 (bs "unknown") d /\ w_heap w' = <[3 := d]> (w_heap w) /\
    w_fds w' = <[7 := no_fd]> (w_fds w) /\ clients (w_server w') = [1; 2; 3] /\
    server_ok w' /\ world_ok ∅ w'.
Proof.
  apply (handle_listen_adds (demo_world [] no_fd) 7 no_fd (0, None, 999) 5);
    [apply empty_world|apply demo_server_ok|done|lia|by vm_compute].
Defined.

Lemma write_sockets_turn_flushes_witness :
  let w := demo_world [] no_fd in
  exists w', write_sockets_turn behind w = Ret (true, w') /\
    fds_flushed [1; 2] (w_heap w) (w_fds w) (w_fds w') /\
    heap_flushed [1; 2] (w_heap w) (w_heap w') /\
    w_server w' = w_server w /\ world_ok ∅ w'.
Proof.
  apply (write_sockets_turn_flushes behind (demo_world [] no_fd)); [apply empty_world|apply demo_server_ok| |].
  - constructor.
    + intros a d _ [[-> ->]|[-> ->]]%demo_lookup; eexists; (split; [done|]); by repeat constructor.
    + intros a d _ [[-> ->]|[-> ->]]%demo_lookup; done.
    + intros a b da db _ _ Hne [[-> ->]|[-> ->]]%demo_lookup [[-> ->]|[-> ->]]%demo_lookup; done.
  - intros a d _ [[-> ->]|[-> ->]]%demo_lookup; done.
Defined.

(** Ann's first line is "TO-ALL: hi"; nothing can be read behind its block. *)
Lemma line_scan_overreads_witness :
  try_to_handle_msg behind (fun _ => []) 1 (demo_world [input_node (bs "TO-ALL: hi" ++ [nl])] no_fd) = UB.
Proof.
  apply (line_scan_overreads behind (fun _ => []) _ 1 (ann [input_node (bs "TO-ALL: hi" ++ [nl])]) 10);
    [apply behind_terminated| |done|by vm_compute|by intros ?%not_elem_of_nil|by vm_compute].
  apply demo_world_ok; [|by vm_compute|unfold owns; simpl; set_solver].
  split; [|apply NoDup_singleton]. apply (shape_snoc []); [done|]. split; [by split|by left].
Defined.

Lemma long_target_overflows_witness :
  handle_msg behind 1 ((bs CMD_TO_C ++ replicate 30 x61 ++ bs ": " ++ bs "x") ++ [nl]) [nul]
    (demo_world [] no_fd) = UB.
Proof.
  apply (long_target_overflows behind (demo_world [] no_fd) 1 (ann []) (replicate 30 x61) (bs "x") [nul]);
    [apply empty_world|done|apply list_elem_of_here|by apply (bool_decide_unpack _); vm_compute..
    |by vm_compute|by vm_compute].
Defined.

Lemma empty_broadcast_leaks_witness :
  let w := demo_world [] no_fd in
  exists n w', handle_msg behind 1 (bs CMD_TO_ALL ++ [nl]) (bs "secret" ++ nul :: []) w = Ret (n, w') /\
    heap_delivered (bs CMD_TO_ALL) (bs "ann") (p2p_text (bs "ann") (bs "secret"))
      [1; 2] (w_heap w) (w_heap w').
Proof.
  apply (empty_broadcast_leaks behind (demo_world [] no_fd) 1 (ann []) (bs "secret") []);
    [apply empty_world|apply demo_server_ok|done|by apply (bool_decide_unpack _); vm_compute
    |by apply (bool_decide_unpack _); vm_compute|by vm_compute].
Defined.

Lemma wait_nsec_valid_witness : wait_nsec 950000 < 1000000000 <-> 950000 < 900000.
Proof. apply (wait_nsec_valid 950000). lia. Defined.
