(* ===== verification/LinuxList.v ===== *)
(** * The intrusive lists of include/collections/list.h

    The heap maps the address of every [list_head] to its two pointers.  The
    operations are the pointer assignments of the header in their order; the
    relation [dlist h head l] says that [head] is the head of a well-formed
    list with the entries [l].  The other files use Rocq lists for the lists of
    the program; the theorems here say that the macros and inline functions
    implement exactly the list operations used there. *)
From S2P Require Import Prelude CLib.

Record list_head := mkHead {
  next : Z;
  prev : Z;
}.
Abbreviation heap := (gmap Z list_head).

Definition LIST_POISON1 : Z := 1048832.
Definition LIST_POISON2 : Z := 2097664.

Definition load (a : Z) : M heap list_head := fun h =>
  match h !! a with
  | Some n => Ret (n, h)
  | None => UB
  end.
Definition set_next (a v : Z) : M heap () := fun h =>
  match h !! a with
  | Some n => Ret (tt, <[a := mkHead v (prev n)]> h)
  | None => UB
  end.
Definition set_prev (a v : Z) : M heap () := fun h =>
  match h !! a with
  | Some n => Ret (tt, <[a := mkHead (next n) v]> h)
  | None => UB
  end.

Definition INIT_LIST_HEAD (ptr : Z) : M heap () :=
  _ ← set_next ptr ptr; set_prev ptr ptr.

Definition __list_add (new prv nxt : Z) : M heap () :=
  _ ← set_prev nxt new;
  _ ← set_next new nxt;
  _ ← set_prev new prv;
  set_next prv new.
Definition list_add (new head : Z) : M heap () :=
  n ← load head; __list_add new head (next n).
Definition list_add_tail (new head : Z) : M heap () :=
  n ← load head; __list_add new (prev n) head.

Definition __list_del (prv nxt : Z) : M heap () :=
  _ ← set_prev nxt prv; set_next prv nxt.
Definition list_del (entry : Z) : M heap () :=
  n ← load entry;
  _ ← __list_del (prev n) (next n);
  _ ← set_next entry LIST_POISON1;
  set_prev entry LIST_POISON2.
Definition list_del_init (entry : Z) : M heap () :=
  n ← load entry;
  _ ← __list_del (prev n) (next n);
  INIT_LIST_HEAD entry.

Definition list_move (entry head : Z) : M heap () :=
  n ← load entry;
  _ ← __list_del (prev n) (next n);
  list_add entry head.
Definition list_move_tail (entry head : Z) : M heap () :=
  n ← load entry;
  _ ← __list_del (prev n) (next n);
  list_add_tail entry head.

Definition list_empty (head : Z) : M heap bool :=
  n ← load head; mret (next n =? head).

Definition __list_splice (list head : Z) : M heap () :=
  l ← load list;
  let first := next l in
  let last := prev l in
  hd ← load head;
  let at_ := next hd in
  _ ← set_prev first head;
  _ ← set_next head first;
  _ ← set_next last at_;
  set_prev at_ last.
Definition list_splice (list head : Z) : M heap () :=
  e ← list_empty list;
  if e : bool then mret tt else __list_splice list head.
Definition list_splice_init (list head : Z) : M heap () :=
  e ← list_empty list;
  if e : bool then mret tt
  else _ ← __list_splice list head; INIT_LIST_HEAD list.

(** [list_splice(&tmp_list, buff->cache_list.prev)], the merge at the end of
    [read_into_buffer] and [write_into_buffer]. *)
Definition merge_lists (tmp_list cache_list : Z) : M heap () :=
  n ← load cache_list; list_splice tmp_list (prev n).

(** [list_first_entry_or_null] and [list_last_entry], as addresses of the
    embedded [list_head]. *)
Definition list_first_entry_or_null (ptr : Z) : M heap (option Z) :=
  e ← list_empty ptr;
  if e : bool then mret None else n ← load ptr; mret (Some (next n)).
Definition list_last_entry (ptr : Z) : M heap Z := n ← load ptr; mret (prev n).

(** The loops of [list_for_each] and [list_for_each_prev], with [body] folded
    over the entries. *)
Fixpoint walk {A} (step : list_head -> Z) (fuel : nat) (head pos : Z) (body : A -> Z -> A) (acc : A)
    : M heap A :=
  match fuel with
  | O => timeout
  | S fuel =>
    if pos =? head then mret acc
    else n ← load pos; walk step fuel head (step n) body (body acc pos)
  end.
Definition list_for_each {A} (fuel : nat) (head : Z) (body : A -> Z -> A) (acc : A) : M heap A :=
  n ← load head; walk next fuel head (next n) body acc.
Definition list_for_each_prev {A} (fuel : nat) (head : Z) (body : A -> Z -> A) (acc : A) : M heap A :=
  n ← load head; walk prev fuel head (prev n) body acc.

(** ** Well-formed lists *)

Definition link (h : heap) (x y : Z) : Prop :=
  (exists p, h !! x = Some (mkHead y p)) /\ (exists n, h !! y = Some (mkHead n x)).
Fixpoint chain (h : heap) (c : list Z) : Prop :=
  match c with
  | x :: ((y :: _) as c') => link h x y /\ chain h c'
  | _ => True
  end.
Definition dlist (h : heap) (head : Z) (l : list Z) : Prop :=
  NoDup (head :: l) /\ chain h (head :: l ++ [head]).

(** What a heap update may not touch for a chain to stay. *)
Definition same_next (h h' : heap) (x : Z) : Prop := next <$> h' !! x = next <$> h !! x.
Definition same_prev (h h' : heap) (x : Z) : Prop := prev <$> h' !! x = prev <$> h !! x.

(** ** Lemmas *)

Lemma link_next h x y : link h x y <-> next <$> h !! x = Some y /\ prev <$> h !! y = Some x.
Proof.
  unfold link. split.
  - intros [[p ->] [n ->]]. done.
  - intros [Hx Hy]. destruct (h !! x) as [[n p]|]; [|done]. injection Hx as <-.
    destruct (h !! n) as [[n' p']|]; [|done]. injection Hy as <-. split; by eexists.
Qed.

Lemma chain_cons h x y c : chain h (x :: y :: c) <-> link h x y /\ chain h (y :: c).
Proof. done. Qed.

Lemma chain_app h c1 x c2 : chain h (c1 ++ x :: c2) <-> chain h (c1 ++ [x]) /\ chain h (x :: c2).
Proof.
  induction c1 as [|a [|b c1] IH].
  - simpl. tauto.
  - cbn [app]. rw chain_cons. cbn. tauto.
  - cbn [app] in *. rw !chain_cons IH. tauto.
Qed.

Lemma chain_frame h h' c :
  (forall x, x ∈ removelast c -> same_next h h' x) -> (forall y, y ∈ tail c -> same_prev h h' y) ->
  chain h c -> chain h' c.
Proof.
  induction c as [|x [|y c] IH]; [done..|]. intros Hn Hp. rw !chain_cons !link_next. intros [[Hx Hy] Hc].
  split.
  - rw (Hn x); [apply list_elem_of_here|]. by rw (Hp y); [apply list_elem_of_here|].
  - apply IH; [|intros z Hz; apply Hp; by apply list_elem_of_further|done].
    intros z Hz. apply Hn. by apply list_elem_of_further.
Qed.

(** The two pointer maps of a heap; the operations are characterised by them. *)
Definition nx (h : heap) (x : Z) : option Z := next <$> h !! x.
Definition pv (h : heap) (x : Z) : option Z := prev <$> h !! x.

Lemma nx_pv h x : is_Some (nx h x) <-> is_Some (pv h x).
Proof. unfold nx, pv. destruct (h !! x); simpl; split; intros [? ?]; by eexists. Qed.

Lemma wp_load a (h : heap) (Q : list_head -> heap -> Prop) n p :
  nx h a = Some n -> pv h a = Some p -> Q (mkHead n p) h -> wp false (load a) h Q.
Proof.
  unfold nx, pv, wp, load. destruct (h !! a) as [[n' p']|]; [|done]. by intros [= ->] [= ->].
Qed.

Lemma wp_set_next a v (h : heap) (Q : () -> heap -> Prop) :
  is_Some (nx h a) ->
  (forall h', (forall x, nx h' x = if decide (x = a) then Some v else nx h x) ->
              (forall x, pv h' x = pv h x) -> Q tt h') ->
  wp false (set_next a v) h Q.
Proof.
  unfold nx, pv, wp, set_next. intros [n Hn] HQ. destruct (h !! a) as [[n' p']|] eqn:Ha; [|done].
  apply HQ; intros x; [case_decide as Hx|destruct (decide (x = a)) as [->|Hx]].
  - subst x. by rw lookup_insert_eq.
  - by rw lookup_insert_ne.
  - by rw lookup_insert_eq Ha.
  - by rw lookup_insert_ne.
Qed.

Lemma wp_set_prev a v (h : heap) (Q : () -> heap -> Prop) :
  is_Some (pv h a) ->
  (forall h', (forall x, nx h' x = nx h x) ->
              (forall x, pv h' x = if decide (x = a) then Some v else pv h x) -> Q tt h') ->
  wp false (set_prev a v) h Q.
Proof.
  unfold nx, pv, wp, set_prev. intros [n Hn] HQ. destruct (h !! a) as [[n' p']|] eqn:Ha; [|done].
  apply HQ; intros x; [destruct (decide (x = a)) as [->|Hx]|case_decide as Hx].
  - by rw lookup_insert_eq Ha.
  - by rw lookup_insert_ne.
  - subst x. by rw lookup_insert_eq.
  - by rw lookup_insert_ne.
Qed.

(** One assignment: [ptr_step] introduces the new heap with its two maps. *)
Ltac ptr_some := by (eexists || (apply nx_pv; eexists) || (apply <- nx_pv; eexists)).
Tactic Notation "ptr_step" ident(h') ident(Hn) ident(Hp) :=
  lazymatch goal with
  | |- wp _ (mbind _ _) _ _ => apply wp_bind
  | _ => idtac
  end;
  lazymatch goal with
  | |- wp _ (set_next _ _) _ _ => apply wp_set_next
  | |- wp _ (set_prev _ _) _ _ => apply wp_set_prev
  end; [|intros h' Hn Hp].

Lemma link_nx h x y : link h x y <-> nx h x = Some y /\ pv h y = Some x.
Proof. apply link_next. Qed.

Lemma list_add_effect new p n h :
  link h p n -> is_Some (nx h new) -> new <> p -> new <> n ->
  wp false (__list_add new p n) h (fun _ h' =>
    link h' p new /\ link h' new n /\
    (forall x, x <> p -> x <> new -> nx h' x = nx h x) /\
    (forall x, x <> n -> x <> new -> pv h' x = pv h x)).
Proof.
  rw !link_nx. intros [Hpn Hnp] [k Hk] Hp Hn. unfold __list_add.
  ptr_step h1 N1 P1; [by eexists|]. ptr_step h2 N2 P2; [rw N1; by eexists|].
  ptr_step h3 N3 P3; [rw P2 P1; case_decide; [by eexists|apply nx_pv; by eexists]|].
  ptr_step h4 N4 P4; [rw N3 N2 N1; case_decide; by eexists|].
  rw !link_nx. split_and!.
  - rw N4. by rw decide_True.
  - rw P4 P3. by rw decide_True.
  - rw N4 N3 N2 decide_False // decide_True //.
  - rw P4 P3 P2 P1 decide_False // decide_True //.
  - intros x Hx1 Hx2. rw N4 N3 N2 N1 !decide_False //.
  - intros x Hx1 Hx2. rw P4 P3 P2 P1 !decide_False //.
Qed.

Lemma list_del_effect p e n h :
  link h p e -> link h e n -> e <> p -> e <> n ->
  wp false (__list_del p n) h (fun _ h' =>
    link h' p n /\
    (forall x, x <> p -> nx h' x = nx h x) /\ (forall x, x <> n -> pv h' x = pv h x)).
Proof.
  rw !link_nx. intros [Hpe Hep] [Hen Hne] ? ?. unfold __list_del.
  ptr_step h1 N1 P1; [by eexists|]. ptr_step h2 N2 P2; [rw N1; by eexists|].
  rw link_nx. split_and!.
  - rw N2 decide_True //.
  - rw P2 P1 decide_True //.
  - intros x Hx. rw N2 N1 decide_False //.
  - intros x Hx. rw P2 P1 decide_False //.
Qed.

(** The cycle of a list: its nodes as sources and as targets of links. *)
Lemma removelast_app_one {A} (l : list A) (x : A) : removelast (l ++ [x]) = l.
Proof. apply removelast_last. Qed.

Lemma dlist_cycle h head l : dlist h head l -> NoDup (l ++ [head]).
Proof. intros [Hnd _]. by rw -Permutation_cons_append. Qed.

(** A segment of a cycle survives changes at other nodes. *)
Lemma chain_keep h h' c (P Q : Z -> Prop) :
  chain h c -> (forall x, ~ P x -> nx h' x = nx h x) -> (forall x, ~ Q x -> pv h' x = pv h x) ->
  (forall x, x ∈ removelast c -> ~ P x) -> (forall x, x ∈ tail c -> ~ Q x) -> chain h' c.
Proof.
  intros Hc Hn Hp H1 H2. eapply chain_frame; [| |exact Hc].
  - intros x Hx. apply Hn. by apply H1.
  - intros x Hx. apply Hp. by apply H2.
Qed.

(** A node is the source, and the target, of one link of a cycle only. *)
Lemma sources_apart (a c : list Z) p :
  c <> [] -> NoDup (removelast (a ++ p :: c)) -> (p ∉ a) /\ (p ∉ removelast c).
Proof.
  intros Hc Hs. replace (a ++ p :: c) with ((a ++ [p]) ++ c) in Hs by by rw -app_assoc.
  rw removelast_app // -app_assoc /= in Hs. apply NoDup_app in Hs as (_ & H1 & H2).
  apply NoDup_cons in H2 as [H2 _]. split; [|done]. intros Hin. apply (H1 p Hin), list_elem_of_here.
Qed.

Lemma targets_apart (c b : list Z) n :
  c <> [] -> NoDup (tail (c ++ n :: b)) -> (n ∉ tail c) /\ (n ∉ b).
Proof.
  intros Hc Ht. destruct c as [|c0 c]; [done|]. simpl in *.
  apply NoDup_app in Ht as (_ & H1 & H2). apply NoDup_cons in H2 as [H2 _].
  split; [|done]. intros Hin. apply (H1 n Hin), list_elem_of_here.
Qed.

Lemma in_removelast {A} (x : A) l : x ∈ removelast l -> x ∈ l.
Proof.
  destruct l as [|y l] using rev_ind; [done|]. rw removelast_last. intros. apply elem_of_app. by left.
Qed.
Lemma in_tail {A} (x : A) l : x ∈ tail l -> x ∈ l.
Proof. destruct l; [done|]. by apply list_elem_of_further. Qed.

(** The two segments around a change of [next p] and [prev n] (and, at most, of
    the nodes [e], which are in neither) stay. *)
Lemma segments_keep h h' a p n b e :
  chain h (a ++ [p]) -> chain h (n :: b) ->
  (forall x, x <> p -> x <> e -> nx h' x = nx h x) -> (forall x, x <> n -> x <> e -> pv h' x = pv h x) ->
  (p ∉ a) -> (p ∉ removelast (n :: b)) -> (n ∉ tail (a ++ [p])) -> (n ∉ b) ->
  (e ∉ a ++ [p]) -> (e ∉ n :: b) ->
  chain h' (a ++ [p]) /\ chain h' (n :: b).
Proof.
  intros Hc1 Hc2 Hn Hp Hpa Hpb Hnt Hnb He1 He2.
  assert (forall x, ~ (x = p \/ x = e) -> nx h' x = nx h x) as Hn' by (intros x Hx; apply Hn; tauto).
  assert (forall x, ~ (x = n \/ x = e) -> pv h' x = pv h x) as Hp' by (intros x Hx; apply Hp; tauto).
  split.
  - eapply chain_keep; [exact Hc1|exact Hn'|exact Hp'| |].
    + rw removelast_app_one. intros x Hx [->| ->]; [done|]. apply He1, elem_of_app. by left.
    + intros x Hx [->| ->]; [done|]. by apply He1, in_tail.
  - eapply chain_keep; [exact Hc2|exact Hn'|exact Hp'| |].
    + intros x Hx [->| ->]; [done|]. by apply He2, in_removelast.
    + simpl. intros x Hx [->| ->]; [done|]. by apply He2, list_elem_of_further.
Qed.

(** Inserting into a cycle, and deleting from one. *)
Lemma cycle_insert h a p n b new :
  chain h (a ++ p :: n :: b) -> NoDup (removelast (a ++ p :: n :: b)) -> NoDup (tail (a ++ p :: n :: b)) ->
  (new ∉ (a ++ p :: n :: b)) -> is_Some (nx h new) ->
  wp false (__list_add new p n) h (fun _ h' => chain h' (a ++ p :: new :: n :: b) /\
    (forall x, x <> p -> x <> new -> nx h' x = nx h x) /\
    (forall x, x <> n -> x <> new -> pv h' x = pv h x)).
Proof.
  intros Hc Hs Ht Hnew Hk.
  destruct (sources_apart a (n :: b) p) as [Hpa Hpb]; [done|done|].
  destruct (targets_apart (a ++ [p]) b n) as [Hnt Hnb]; [by destruct a|by rw -app_assoc|].
  apply chain_app in Hc as [Hc1 Hc2]. apply chain_cons in Hc2 as [Hl Hc2].
  rw not_elem_of_app not_elem_of_cons in Hnew. destruct Hnew as (Hna & Hnp & Hnb2).
  pose proof Hnb2 as [Hnn _]%not_elem_of_cons.
  eapply wp_mono; [by apply list_add_effect|]. intros _ h' (L1 & L2 & Hnx & Hpv).
  destruct (segments_keep h h' a p n b new) as [K1 K2]; try done.
  { rw not_elem_of_app. split; [done|]. by intros Hx%list_elem_of_singleton. }
  split; [|done]. apply chain_app. by rw !chain_cons.
Qed.

Lemma cycle_delete h a p e n b :
  chain h (a ++ p :: e :: n :: b) -> NoDup (removelast (a ++ p :: e :: n :: b)) ->
  NoDup (tail (a ++ p :: e :: n :: b)) -> (e ∉ a) -> (e ∉ n :: b) -> e <> p ->
  wp false (__list_del p n) h (fun _ h' => chain h' (a ++ p :: n :: b) /\
    (forall x, x <> p -> nx h' x = nx h x) /\ (forall x, x <> n -> pv h' x = pv h x)).
Proof.
  intros Hc Hs Ht Hea Heb Hep.
  destruct (sources_apart a (e :: n :: b) p) as [Hpa Hpb]; [done|done|].
  destruct (targets_apart (a ++ [p; e]) b n) as [Hnt Hnb]; [by destruct a|by rw -app_assoc|].
  apply chain_app in Hc as [Hc1 Hc2]. rw !chain_cons in Hc2. destruct Hc2 as (L1 & L2 & Hc2).
  pose proof Heb as [Hen Heb2]%not_elem_of_cons.
  eapply wp_mono; [by apply (list_del_effect p e n)|]. intros _ h' (L & Hnx & Hpv).
  destruct (segments_keep h h' a p n b e) as [K1 K2]; try done.
  - intros x Hx _. by apply Hnx.
  - intros x Hx _. by apply Hpv.
  - intros Hin. apply Hpb. simpl. by apply list_elem_of_further.
  - intros Hin. apply Hnt. destruct a as [|a0 a]; simpl in *; [by apply not_elem_of_nil in Hin|].
    apply elem_of_app in Hin as [Hin|Hin%list_elem_of_singleton]; apply elem_of_app; [by left|].
    right. subst n. apply list_elem_of_here.
  - rw not_elem_of_app. split; [done|]. by intros Hx%list_elem_of_singleton.
  - split; [|done]. apply chain_app. by rw !chain_cons.
Qed.

(** *** The operations on whole lists *)

Lemma dlist_sources h head l : dlist h head l -> NoDup (removelast (head :: l ++ [head])).
Proof. intros [Hnd _]. by rw app_comm_cons removelast_app_one. Qed.
Lemma dlist_targets h head l : dlist h head l -> NoDup (tail (head :: l ++ [head])).
Proof. apply dlist_cycle. Qed.
Lemma dlist_notin h head l new : dlist h head l -> (new ∉ head :: l) -> new ∉ head :: l ++ [head].
Proof.
  intros _ Hn. rw app_comm_cons not_elem_of_app. split; [done|].
  intros ->%list_elem_of_singleton. apply Hn, list_elem_of_here.
Qed.

(** The nodes outside [c] keep their pointers. *)
Definition frame (c : list Z) (h h' : heap) : Prop :=
  forall x, x ∉ c -> nx h' x = nx h x /\ pv h' x = pv h x.

Lemma dlist_frame c h h' head l :
  dlist h head l -> frame c h h' -> (forall x, x ∈ head :: l -> x ∉ c) -> dlist h' head l.
Proof.
  intros [Hnd Hc] Hf Hdis. split; [done|].
  assert (forall x, x ∈ head :: l ++ [head] -> x ∉ c) as Hno.
  { intros x Hx. rw app_comm_cons elem_of_app in Hx. destruct Hx as [Hx|Hx]; [by apply Hdis|].
    apply list_elem_of_singleton in Hx as ->.
    apply Hdis, list_elem_of_here. }
  eapply chain_frame; [| |exact Hc]; intros x Hx; apply Hf, Hno.
  - by apply in_removelast.
  - by apply in_tail.
Qed.

(** The first and the last entry, or the head itself. *)
Definition first_of (head : Z) (l : list Z) : Z := default head (hd_error l).
Definition last_of (head : Z) (l : list Z) : Z := default head (last l).

Lemma dlist_head h head l : dlist h head l -> nx h head = Some (first_of head l) /\ pv h head = Some (last_of head l).
Proof.
  intros [_ Hc]. split.
  - destruct l as [|x l]; cbn [app] in Hc; apply chain_cons in Hc as [Hl _]; by apply link_nx in Hl as [? _].
  - destruct l as [|x l] using rev_ind.
    + apply chain_cons in Hc as [Hl _]. by apply link_nx in Hl as [_ ?].
    + rw -app_assoc in Hc. change (chain h ((head :: l) ++ x :: [head])) in Hc. apply chain_app in Hc as [_ Hc]. apply chain_cons in Hc as [Hl _].
      apply link_nx in Hl as [_ ?]. by rw /last_of last_snoc.
Qed.

Lemma first_of_in head l : first_of head l ∈ head :: l.
Proof. destruct l as [|x l]; [apply list_elem_of_here|]. apply list_elem_of_further, list_elem_of_here. Qed.
Lemma last_of_in head l : last_of head l ∈ head :: l.
Proof.
  destruct l as [|x l _] using rev_ind; [apply list_elem_of_here|]. rw /last_of last_snoc.
  apply list_elem_of_further, elem_of_app. right. apply list_elem_of_here.
Qed.

Lemma list_add_spec h head l new :
  dlist h head l -> (new ∉ head :: l) -> is_Some (h !! new) ->
  wp false (list_add new head) h (fun _ h' => dlist h' head (new :: l) /\ frame (new :: head :: l) h h').
Proof.
  intros Hd Hnew [k Hk]. destruct (dlist_head _ _ _ Hd) as [Hnx Hpv].
  assert (is_Some (nx h new)) as Hk' by (rw /nx Hk; by eexists).
  unfold list_add. apply wp_bind. eapply wp_load; [done|done|]. cbn [next].
  pose proof (dlist_sources _ _ _ Hd) as Hs. pose proof (dlist_targets _ _ _ Hd) as Ht.
  pose proof (dlist_notin _ _ _ _ Hd Hnew) as Hno. destruct Hd as [Hnd Hc].
  assert (exists b, l ++ [head] = first_of head l :: b) as [b Hb] by (destruct l; by eexists).
  rw Hb in Hc, Hs, Ht, Hno. eapply wp_mono; [by apply (cycle_insert h [] head (first_of head l) b new)|].
  intros [] h' (Hc' & Hnx' & Hpv'). split.
  2: { intros x [Hx1 Hx2]%not_elem_of_cons. split; [apply Hnx'|apply Hpv']; try done.
       - intros ->. apply Hx2, list_elem_of_here.
       - intros ->. apply Hx2, first_of_in. }
  split; [|by rw /= Hb].
  apply not_elem_of_cons in Hnew as [? ?]. apply NoDup_cons in Hnd as [? ?].
  repeat (apply NoDup_cons; split); rw ?not_elem_of_cons; done.
Qed.

Lemma list_add_tail_spec h head l new :
  dlist h head l -> (new ∉ head :: l) -> is_Some (h !! new) ->
  wp false (list_add_tail new head) h (fun _ h' => dlist h' head (l ++ [new]) /\ frame (new :: head :: l) h h').
Proof.
  intros Hd Hnew [k Hk]. destruct (dlist_head _ _ _ Hd) as [Hnx Hpv].
  assert (is_Some (nx h new)) as Hk' by (rw /nx Hk; by eexists).
  unfold list_add_tail. apply wp_bind. eapply wp_load; [done|done|]. cbn [prev].
  pose proof (dlist_sources _ _ _ Hd) as Hs. pose proof (dlist_targets _ _ _ Hd) as Ht.
  pose proof (dlist_notin _ _ _ _ Hd Hnew) as Hno. destruct Hd as [Hnd Hc].
  assert (exists a, head :: l = a ++ [last_of head l]) as [a Ha].
  { destruct l as [|x l _] using rev_ind; [by exists []|]. exists (head :: l).
    by rw /last_of last_snoc. }
  assert (head :: l ++ [head] = a ++ last_of head l :: head :: []) as Heq
    by by rw app_comm_cons Ha -app_assoc.
  rw Heq in Hc, Hs, Ht, Hno. eapply wp_mono; [by apply (cycle_insert h a (last_of head l) head [] new)|].
  intros [] h' (Hc' & Hnx' & Hpv'). split.
  2: { intros x [Hx1 Hx2]%not_elem_of_cons. split; [apply Hnx'|apply Hpv']; try done.
       - intros ->. apply Hx2, last_of_in.
       - intros ->. apply Hx2, list_elem_of_here. }
  split.
  - rw app_comm_cons. apply NoDup_app. split_and!; [done| |apply NoDup_singleton].
    by intros x Hx ->%list_elem_of_singleton.
  - rw -app_assoc app_comm_cons Ha -app_assoc. done.
Qed.

(** An entry splits the cycle at its two neighbours. *)
Lemma dlist_entry h head l1 e l2 :
  dlist h head (l1 ++ e :: l2) ->
  exists a p n b, head :: l1 = a ++ [p] /\ l2 ++ [head] = n :: b /\
    chain h (a ++ p :: e :: n :: b) /\ NoDup (removelast (a ++ p :: e :: n :: b)) /\
    NoDup (tail (a ++ p :: e :: n :: b)) /\ (e ∉ a) /\ (e ∉ n :: b) /\ e <> p /\
    nx h e = Some n /\ pv h e = Some p.
Proof.
  intros Hd. pose proof (dlist_sources _ _ _ Hd) as Hs. pose proof (dlist_targets _ _ _ Hd) as Ht.
  destruct Hd as [Hnd Hc].
  assert (exists a p, head :: l1 = a ++ [p]) as (a & p & Ha).
  { destruct l1 as [|x l1 _] using rev_ind; [by exists [], head|]. by exists (head :: l1), x. }
  assert (exists n b, l2 ++ [head] = n :: b) as (n & b & Hb) by (destruct l2; by eexists _, _).
  assert (head :: (l1 ++ e :: l2) ++ [head] = a ++ p :: e :: n :: b) as Heq.
  { rw -app_assoc app_comm_cons Ha -app_comm_cons Hb -app_assoc //. }
  rw Heq in Hc, Hs, Ht. exists a, p, n, b.
  rw app_comm_cons Ha in Hnd. apply NoDup_app in Hnd as (_ & H1 & H2). apply NoDup_cons in H2 as [H2 _].
  assert (e ∉ a ++ [p]) as He.
  { intros Hin. apply (H1 e Hin), list_elem_of_here. }
  apply not_elem_of_app in He as [He1 He2]. rw list_elem_of_singleton in He2.
  split_and!; try done.
  - rw -Hb not_elem_of_app. split; [done|]. intros ->%list_elem_of_singleton.
    apply (H1 head); [rw -Ha|]; apply list_elem_of_here.
  - apply chain_app in Hc as [_ Hc]. rw !chain_cons in Hc. destruct Hc as (_ & L & _).
    by apply link_nx in L as [? _].
  - apply chain_app in Hc as [_ Hc]. rw !chain_cons in Hc. destruct Hc as (L & _ & _).
    by apply link_nx in L as [_ ?].
Qed.

(** The core of every removal. *)
Lemma unlink_entry h head l1 e l2 :
  dlist h head (l1 ++ e :: l2) ->
  exists p n, nx h e = Some n /\ pv h e = Some p /\
  wp false (__list_del p n) h (fun _ h' => dlist h' head (l1 ++ l2) /\ is_Some (nx h' e) /\ frame (head :: l1 ++ l2) h h').
Proof.
  intros Hd. destruct (dlist_entry _ _ _ _ _ Hd) as (a & p & n & b & Ha & Hb & Hc & Hs & Ht & E1 & E2 & E3 & Hn & Hp).
  exists p, n. split_and!; try done. eapply wp_mono; [by apply (cycle_delete h a p e n b)|].
  intros _ h' (Hc' & Hn' & Hp'). split; [|split; [rw Hn' // Hn; by eexists|]].
  2: { assert (p ∈ head :: l1) as Hpin by (rw Ha elem_of_app list_elem_of_singleton; by right).
       assert (n ∈ l2 ++ [head]) as Hnin by (rw Hb; apply list_elem_of_here).
       intros x Hx. rw app_comm_cons not_elem_of_app in Hx. destruct Hx as [Hx1 Hx2].
       split; [apply Hn'|apply Hp']; intros ->; [done|].
       apply elem_of_app in Hnin as [?|Hnin%list_elem_of_singleton]; [done|]. subst n.
       apply Hx1, list_elem_of_here. }
  split.
  - destruct Hd as [Hnd _].
    assert (head :: l1 ++ e :: l2 ≡ₚ e :: head :: l1 ++ l2) as Hperm by solve_Permutation.
    rw Hperm in Hnd. by apply NoDup_cons in Hnd as [_ ?].
  - by rw -app_assoc app_comm_cons Ha Hb -app_assoc.
Qed.

(** Writing the pointers of one node, outside of any list. *)
Lemma frame_trans c1 c2 h1 h2 h3 : frame c1 h1 h2 -> frame c2 h2 h3 -> frame (c1 ++ c2) h1 h3.
Proof.
  intros H1 H2 x Hx. apply not_elem_of_app in Hx as [Hx1 Hx2].
  destruct (H1 x Hx1) as [<- <-]. by apply H2.
Qed.
Lemma frame_mono c c' h h' : frame c h h' -> (forall x, x ∈ c -> x ∈ c') -> frame c' h h'.
Proof. intros Hf Hc x Hx. apply Hf. intros Hin. by apply Hx, Hc. Qed.

Lemma dlist_removed h head l1 e l2 :
  dlist h head (l1 ++ e :: l2) -> (e ∉ head :: l1 ++ l2).
Proof.
  intros [Hnd _]. assert (head :: l1 ++ e :: l2 ≡ₚ e :: head :: l1 ++ l2) as Hperm by solve_Permutation.
  rw Hperm in Hnd. by apply NoDup_cons in Hnd as [? _].
Qed.

(** [list_del] takes the entry out and poisons it. *)
Lemma list_del_spec h head l1 e l2 :
  dlist h head (l1 ++ e :: l2) ->
  wp false (list_del e) h (fun _ h' =>
    dlist h' head (l1 ++ l2) /\ h' !! e = Some (mkHead LIST_POISON1 LIST_POISON2) /\
    frame (e :: head :: l1 ++ l2) h h').
Proof.
  intros Hd. pose proof (dlist_removed _ _ _ _ _ Hd) as He.
  destruct (unlink_entry _ _ _ _ _ Hd) as (p & n & Hn & Hp & Hwp).
  unfold list_del. apply wp_bind. eapply wp_load; [done|done|]. cbn [prev next].
  eapply wp_bind, wp_mono; [exact Hwp|]. intros _ h1 (Hd1 & Hs1 & Hf1).
  ptr_step h2 N2 P2; [done|]. ptr_step h3 N3 P3; [rw P2; by apply nx_pv|].
  assert (frame [e] h1 h3) as Hf3.
  { intros x [Hx _]%not_elem_of_cons. by rw N3 P3 N2 P2 !decide_False. }
  split_and!.
  - eapply (dlist_frame [e]); [exact Hd1|done|]. intros x Hx ->%list_elem_of_singleton. done.
  - assert (nx h3 e = Some LIST_POISON1 /\ pv h3 e = Some LIST_POISON2) as [H1 H2].
    { rw N3 P3 N2 !decide_True //. }
    unfold nx, pv in H1, H2. destruct (h3 !! e) as [[n' p']|]; [|done].
    by injection H1 as ->; injection H2 as ->.
  - eapply frame_mono; [by eapply frame_trans|]. intros x [Hx|Hx]%elem_of_app.
    + by apply list_elem_of_further.
    + apply list_elem_of_singleton in Hx as ->. apply list_elem_of_here.
Qed.

Lemma list_del_init_spec h head l1 e l2 :
  dlist h head (l1 ++ e :: l2) ->
  wp false (list_del_init e) h (fun _ h' => dlist h' head (l1 ++ l2) /\ dlist h' e []).
Proof.
  intros Hd. pose proof (dlist_removed _ _ _ _ _ Hd) as He.
  destruct (unlink_entry _ _ _ _ _ Hd) as (p & n & Hn & Hp & Hwp).
  unfold list_del_init, INIT_LIST_HEAD. apply wp_bind. eapply wp_load; [done|done|]. cbn [prev next].
  eapply wp_bind, wp_mono; [exact Hwp|]. intros _ h1 (Hd1 & Hs1 & Hf1).
  ptr_step h2 N2 P2; [done|]. ptr_step h3 N3 P3; [rw P2; by apply nx_pv|].
  split.
  - eapply (dlist_frame [e]); [exact Hd1| |].
    + intros x [Hx _]%not_elem_of_cons. by rw N3 P3 N2 P2 !decide_False.
    + intros x Hx ->%list_elem_of_singleton. done.
  - split; [apply NoDup_singleton|]. cbn [app]. apply chain_cons. split; [|done].
    rw link_nx N3 P3 N2 !decide_True //.
Qed.

(** Moving between two lists that share no node. *)
Lemma list_move_spec h src l1 e l2 dst l (tail_end : bool) :
  dlist h src (l1 ++ e :: l2) -> dlist h dst l ->
  (forall x, x ∈ src :: l1 ++ e :: l2 -> x ∉ dst :: l) ->
  wp false (if tail_end then list_move_tail e dst else list_move e dst) h (fun _ h' =>
    dlist h' src (l1 ++ l2) /\ dlist h' dst (if tail_end then l ++ [e] else e :: l)).
Proof.
  intros Hd Hdst Hdis. pose proof (dlist_removed _ _ _ _ _ Hd) as He.
  destruct (unlink_entry _ _ _ _ _ Hd) as (p & n & Hn & Hp & Hwp).
  assert (forall x, x ∈ src :: l1 ++ l2 -> x ∉ dst :: l) as Hdis'.
  { intros x Hx. apply Hdis. apply elem_of_cons in Hx as [->|Hx]; [apply list_elem_of_here|].
    apply list_elem_of_further. apply elem_of_app in Hx as [?|?]; apply elem_of_app; [by left|].
    right. by apply list_elem_of_further. }
  assert (e ∉ dst :: l) as Hedst.
  { apply Hdis. apply list_elem_of_further, elem_of_app. right. apply list_elem_of_here. }
  assert (forall h1 h2, dlist h1 src (l1 ++ l2) -> frame (e :: dst :: l) h1 h2 -> dlist h2 src (l1 ++ l2)) as Hsrc.
  { intros h1 h2 H1 H2. eapply dlist_frame; [done|done|]. intros x Hx [->|Hin]%elem_of_cons; [done|].
    by apply (Hdis' x). }
  destruct tail_end; unfold list_move, list_move_tail; (apply wp_bind; eapply wp_load; [done|done|]);
    cbn [prev next]; (eapply wp_bind, wp_mono; [exact Hwp|]); intros _ h1 (Hd1 & Hs1 & Hf1);
    assert (dlist h1 dst l) as Hdst1 by (eapply dlist_frame; [done|done|]; intros x Hx Hin; by apply (Hdis' x));
    assert (is_Some (h1 !! e)) as Hse by (unfold nx in Hs1; by apply fmap_is_Some in Hs1);
    eapply wp_mono.
  - by apply list_add_tail_spec.
  - intros [] h2 (? & ?). split; [by eapply Hsrc|done].
  - by apply list_add_spec.
  - intros [] h2 (? & ?). split; [by eapply Hsrc|done].
Qed.

Lemma list_empty_spec h head l :
  dlist h head l -> wp false (list_empty head) h (fun b h' => h' = h /\ b = bool_decide (l = [])).
Proof.
  intros Hd. destruct (dlist_head _ _ _ Hd) as [Hn Hp]. unfold list_empty.
  apply wp_bind. eapply wp_load; [done|done|]. apply wp_ret. split; [done|]. cbn [next].
  destruct l as [|x l]; cbn.
  - by rw Z.eqb_refl.
  - destruct Hd as [Hnd _]. apply NoDup_cons in Hnd as [Hnd _]. rw (proj2 (Z.eqb_neq _ _)) //.
    intros ->. apply Hnd, list_elem_of_here.
Qed.

(** *** Splicing and walking *)

(** The four assignments: the two seams, and what stays. *)
Lemma splice_effect h lst head f la at_ pl pt :
  nx h lst = Some f -> pv h lst = Some la -> nx h head = Some at_ -> pv h head = Some pt ->
  pv h f = Some pl -> is_Some (nx h la) -> is_Some (pv h at_) -> la <> head -> f <> at_ ->
  wp false (__list_splice lst head) h (fun _ h' =>
    link h' head f /\ link h' la at_ /\
    (forall x, x <> head -> x <> la -> nx h' x = nx h x) /\
    (forall x, x <> f -> x <> at_ -> pv h' x = pv h x)).
Proof.
  intros Hnm Hpm Hnl Hpl Sf Sl Sa Hla Hfa. unfold __list_splice.
  apply wp_bind. eapply wp_load; [done|done|]. cbn [next prev].
  apply wp_bind. eapply wp_load; [done|done|]. cbn [next]. cbv zeta.
  ptr_step h1 N1 P1; [by eexists|]. ptr_step h2 N2 P2; [rw N1; by eexists|].
  ptr_step h3 N3 P3; [rw N2 N1; by case_decide; [eexists|]|].
  ptr_step h4 N4 P4; [rw P3 P2 P1; by case_decide; [eexists|]|].
  rw !link_nx. split_and!.
  1-4: rw ?N4 ?P4 ?N3 ?P3 ?N2 ?P2 ?P1; repeat case_decide; congruence.
  - intros x ? ?. by rw N4 N3 N2 N1 !decide_False.
  - intros x ? ?. by rw P4 P3 P2 P1 !decide_False.
Qed.

(** Every node of a list has both pointers. *)
Lemma dlist_some h head l x : dlist h head l -> x ∈ head :: l -> is_Some (nx h x).
Proof.
  intros Hd [->|Hx]%elem_of_cons; [destruct (dlist_head _ _ _ Hd) as [-> _]; by eexists|].
  apply list_elem_of_split in Hx as (c1 & c2 & ->).
  destruct (dlist_entry _ _ _ _ _ Hd) as (? & ? & n & ? & _ & _ & _ & _ & _ & _ & _ & _ & -> & _).
  by eexists.
Qed.

(** The nodes around the seam: [m] runs from [f] to [la], and [at_] follows the
    head of [l]. *)
Section splice.
Context (h h4 : heap) (lst head f la at_ : Z) (m m1 m2 l b : list Z).
Hypothesis Hm : dlist h lst m.
Hypothesis Hl : dlist h head l.
Hypothesis Hm1 : m = m1 ++ [la].
Hypothesis Hm2 : m = f :: m2.
Hypothesis Hb : l ++ [head] = at_ :: b.
Hypothesis Hdm : forall x, x ∈ m -> x ∉ head :: l.
Hypothesis Hnx : forall x, x <> head -> x <> la -> nx h4 x = nx h x.
Hypothesis Hpv : forall x, x <> f -> x <> at_ -> pv h4 x = pv h x.

Lemma splice_ends : f ∈ m /\ la ∈ m /\ at_ ∈ head :: l.
Proof using Hm1 Hm2 Hb.
  split_and!; [rw Hm2; apply list_elem_of_here|rw Hm1; apply elem_of_app; right; apply list_elem_of_here|].
  assert (at_ ∈ l ++ [head]) as Hin by (rw Hb; apply list_elem_of_here).
  apply elem_of_app in Hin as [?|Hin%list_elem_of_singleton]; [by apply list_elem_of_further|].
  rw Hin. apply list_elem_of_here.
Qed.

(** The entries of the spliced list keep their links. *)
Lemma splice_inner : chain h4 m.
Proof using All.
  destruct splice_ends as (Hfm & Hlm & Hat). destruct Hm as [Hndm Hcm].
  apply NoDup_cons in Hndm as [_ Hndm].
  apply (chain_frame h).
  - intros x Hx. apply Hnx.
    + intros ->. apply (Hdm head); [by apply in_removelast|apply list_elem_of_here].
    + intros ->. rw Hm1 removelast_app_one in Hx.
      rw Hm1 in Hndm. apply NoDup_app in Hndm as (_ & Hno & _). apply (Hno la Hx), list_elem_of_here.
  - intros x Hx. apply Hpv.
    + intros ->. rw Hm2 /= in Hx. rw Hm2 in Hndm. by apply NoDup_cons in Hndm as [? _].
    + intros ->. by apply (Hdm at_); [apply in_tail|].
  - rw Hm2 in Hcm. cbn [app] in Hcm. apply chain_cons in Hcm as [_ Hcm].
    rw app_comm_cons -Hm2 Hm1 -app_assoc /= in Hcm. by apply chain_app in Hcm as [? _]; rw Hm1.
Qed.

(** So do the entries of the other list. *)
Lemma splice_outer : chain h4 (at_ :: b).
Proof using All.
  destruct splice_ends as (Hfm & Hlm & Hat). pose proof (dlist_targets _ _ _ Hl) as Htl.
  destruct Hl as [Hndl Hcl]. apply (chain_frame h).
  - intros x Hx. rw -Hb removelast_app_one in Hx. apply Hnx.
    + intros ->. by apply NoDup_cons in Hndl as [? _].
    + intros ->. apply (Hdm la Hlm). by apply list_elem_of_further.
  - simpl. intros x Hx. apply Hpv.
    + intros ->. apply (Hdm f Hfm). assert (f ∈ l ++ [head]) as Hin by (rw Hb; by apply list_elem_of_further).
      apply elem_of_app in Hin as [?|Hin%list_elem_of_singleton]; [by apply list_elem_of_further|].
      rw Hin. apply list_elem_of_here.
    + intros ->. rw /= Hb in Htl. by apply NoDup_cons in Htl as [? _].
  - rw Hb in Hcl. by apply chain_cons in Hcl as [_ ?].
Qed.

Lemma splice_joined : link h4 head f -> link h4 la at_ -> dlist h4 head (m ++ l).
Proof using All.
  intros L1 L2. pose proof splice_inner. pose proof splice_outer. split.
  - destruct Hm as [Hndm _], Hl as [Hndl _].
    apply NoDup_cons in Hndm as [_ Hndm]. apply NoDup_cons in Hndl as [Hhl Hndl].
    apply NoDup_cons. split; [|apply NoDup_app; split_and!; [done| |done]].
    + rw not_elem_of_app. split; [|done]. intros Hin. apply (Hdm head Hin), list_elem_of_here.
    + intros x Hx Hin. apply (Hdm x Hx). by apply list_elem_of_further.
  - rw -app_assoc Hb Hm2. cbn [app]. apply chain_cons. split; [done|].
    rw app_comm_cons -Hm2 Hm1 -app_assoc. apply chain_app. rw -Hm1. by split.
Qed.
End splice.

Lemma list_splice_spec h lst m head l :
  dlist h lst m -> dlist h head l -> (forall x, x ∈ lst :: m -> x ∉ head :: l) ->
  wp false (list_splice lst head) h (fun _ h' =>
    dlist h' head (m ++ l) /\ frame (head :: m ++ l) h h').
Proof.
  intros Hm Hl Hdis. unfold list_splice. eapply wp_bind, wp_mono; [by apply list_empty_spec|].
  intros b0 h0 [-> ->]. destruct (decide (m = [])) as [->|Hne].
  { by rw bool_decide_true. }
  rw bool_decide_false //.
  destruct (dlist_head _ _ _ Hm) as [Hnm Hpm]. destruct (dlist_head _ _ _ Hl) as [Hnl Hpl].
  assert (exists m1, m = m1 ++ [last_of lst m]) as [m1 Hm1].
  { destruct m as [|x m _] using rev_ind; [done|]. exists m. by rw /last_of last_snoc. }
  assert (exists m2, m = first_of lst m :: m2) as [m2 Hm2] by (destruct m; [done|by eexists]).
  assert (exists b, l ++ [head] = first_of head l :: b) as [b Hb] by (destruct l; by eexists).
  set (f := first_of lst m) in *. set (la := last_of lst m) in *. set (at_ := first_of head l) in *.
  clearbody f la at_. destruct (splice_ends head f la at_ m m1 m2 l b Hm1 Hm2 Hb) as (Hfm & Hlm & Hat).
  assert (forall x, x ∈ m -> x ∉ head :: l) as Hdm.
  { intros x Hx. apply Hdis. by apply list_elem_of_further. }
  assert (forall x, x ∈ m -> is_Some (nx h x)) as Hsm.
  { intros x Hx. eapply dlist_some; [exact Hm|by apply list_elem_of_further]. }
  assert (is_Some (pv h f)) as [pl Hpf] by by apply nx_pv, Hsm.
  eapply wp_mono; [eapply (splice_effect h lst head f la at_); try done|].
  - by apply Hsm.
  - apply nx_pv. by eapply dlist_some.
  - intros ->. apply (Hdm head Hlm), list_elem_of_here.
  - intros ->. by apply (Hdm at_ Hfm).
  - intros [] h4 (L1 & L2 & Hnx & Hpv). split.
    + by apply (splice_joined h h4 lst head f la at_ m m1 m2 l b).
    + intros x Hx. rw not_elem_of_cons not_elem_of_app in Hx. destruct Hx as (H1 & H2 & H3). split.
      * apply Hnx; [done|]. by intros ->.
      * apply Hpv; [by intros ->|]. intros ->. apply elem_of_cons in Hat as [?|?]; done.
Qed.

(** Any node of a cycle can be taken for its head. *)
Lemma dlist_rotate h x k head c : dlist h x (k ++ head :: c) <-> dlist h head (c ++ x :: k).
Proof.
  unfold dlist. assert (x :: k ++ head :: c ≡ₚ head :: c ++ x :: k) as Hp by solve_Permutation. rw Hp.
  assert (chain h (x :: (k ++ head :: c) ++ [x]) <-> chain h (head :: (c ++ x :: k) ++ [head])) as ->; [|done].
  assert (forall y z (a b : list Z), chain h (y :: (a ++ z :: b) ++ [y]) <->
    chain h ((y :: a) ++ [z]) /\ chain h ((z :: b) ++ [y])) as Hsplit.
  { intros y z a b. rw -app_assoc app_comm_cons. apply chain_app. }
  rw !Hsplit. simpl. tauto.
Qed.

Lemma merge_lists_spec h tmp m head l :
  dlist h tmp m -> dlist h head l -> (forall x, x ∈ tmp :: m -> x ∉ head :: l) ->
  wp false (merge_lists tmp head) h (fun _ h' => dlist h' head (l ++ m)).
Proof.
  intros Hm Hl Hdis. destruct (dlist_head _ _ _ Hl) as [Hn Hp].
  unfold merge_lists. apply wp_bind. eapply wp_load; [done|done|]. cbn [prev].
  destruct l as [|x l _] using rev_ind.
  - eapply wp_mono; [by apply (list_splice_spec h tmp m head [])|]. intros [] h' [Hd _]. by rw app_nil_r in Hd.
  - rw /last_of last_snoc. cbn.
    eapply wp_mono; [apply (list_splice_spec h tmp m x (head :: l)); [done|by apply (dlist_rotate h x [])|]|].
    + intros y Hy Hin. apply (Hdis y Hy). rw elem_of_cons elem_of_app list_elem_of_singleton.
      apply elem_of_cons in Hin as [->|[->|?]%elem_of_cons]; tauto.
    + intros [] h' [Hd _]. rw -app_assoc. by apply dlist_rotate.
Qed.

(** A loop over the list folds its body over the entries, and ends. *)
Lemma walk_next {A} h head (body : A -> Z -> A) fuel l : forall acc,
  chain h (l ++ [head]) -> (head ∉ l) -> (forall x, x ∈ l -> is_Some (pv h x)) -> (length l < fuel)%nat ->
  wp false (walk next fuel head (first_of head l) body acc) h (fun r h' =>
    h' = h /\ r = foldl body acc l).
Proof.
  revert l. induction fuel as [|fuel IH]; intros l acc Hc Hno Hs Hf; [lia|].
  cbn [walk]. destruct l as [|x l].
  - cbn. rw Z.eqb_refl. by apply wp_ret.
  - cbn [first_of hd_error default]. apply not_elem_of_cons in Hno as [Hne Hno].
    change (first_of head (x :: l)) with x. rw (proj2 (Z.eqb_neq _ _)); [by intros <-|].
    assert (nx h x = Some (first_of head l)) as Hn.
    { destruct l as [|y l]; cbn [app] in Hc; apply chain_cons in Hc as [Hl _]; by apply link_nx in Hl as [? _]. }
    destruct (Hs x) as [p Hp]; [apply list_elem_of_here|].
    apply wp_bind. eapply wp_load; [done|done|]. cbn [next]. cbn [foldl]. apply IH.
    + destruct l as [|y l]; [done|]. cbn [app] in Hc. by apply chain_cons in Hc as [_ ?].
    + done.
    + intros y Hy. apply Hs. by apply list_elem_of_further.
    + cbn in Hf. lia.
Qed.

Lemma list_for_each_spec {A} h head l (body : A -> Z -> A) acc fuel :
  dlist h head l -> (length l < fuel)%nat ->
  wp false (list_for_each fuel head body acc) h (fun r h' => h' = h /\ r = foldl body acc l).
Proof.
  intros Hd Hf. destruct (dlist_head _ _ _ Hd) as [Hn Hp]. unfold list_for_each.
  apply wp_bind. eapply wp_load; [done|done|]. cbn [next].
  assert (forall x, x ∈ l -> is_Some (pv h x)) as Hs.
  { intros x Hx. apply list_elem_of_split in Hx as (c1 & c2 & ->).
    destruct (dlist_entry _ _ _ _ _ Hd) as (? & ? & n & ? & _ & _ & _ & _ & _ & _ & _ & _ & _ & ->).
    by eexists. }
  destruct Hd as [Hnd Hc]. apply NoDup_cons in Hnd as [Hno _].
  apply walk_next; try done. destruct l as [|x l]; [done|]. cbn [app] in Hc. by apply chain_cons in Hc as [_ ?].
Qed.

(** ** Theorems *)

(** [list_add_tail] appends, as the queue uses of the program
    need, [list_add] prepends; nothing outside the list and the new node is
    touched. *)
Theorem list_adds h head l new :
  dlist h head l -> (new ∉ (head :: l)) -> is_Some (h !! new) ->
  (exists h', list_add_tail new head h = Ret (tt, h') /\ dlist h' head (l ++ [new]) /\
     frame (new :: head :: l) h h') /\
  (exists h', list_add new head h = Ret (tt, h') /\ dlist h' head (new :: l) /\
     frame (new :: head :: l) h h').
Proof.
  intros Hd Hn Hs. split.
  - destruct (wp_total _ _ _ (list_add_tail_spec h head l new Hd Hn Hs)) as ([] & h' & ? & ? & ?). by exists h'.
  - destruct (wp_total _ _ _ (list_add_spec h head l new Hd Hn Hs)) as ([] & h' & ? & ? & ?). by exists h'.
Qed.

(** [list_del] removes exactly the entry, wherever it stands,
    and leaves the two poison values in it. *)
Theorem list_del_removes h head l1 e l2 :
  dlist h head (l1 ++ e :: l2) ->
  exists h', list_del e h = Ret (tt, h') /\ dlist h' head (l1 ++ l2) /\
    h' !! e = Some (mkHead LIST_POISON1 LIST_POISON2) /\ frame (e :: head :: l1 ++ l2) h h'.
Proof.
  intros Hd. destruct (wp_total _ _ _ (list_del_spec h head l1 e l2 Hd)) as ([] & h' & ? & ? & ? & ?).
  by exists h'.
Qed.

(** C32 (functional): the merge at the end of the buffer's fill loops, a
    [list_splice] at [cache_list.prev], appends the temporary list's entries in
    order; a [list_splice] at the head puts them in front. *)
Theorem list_splice_joins h tmp m head l :
  dlist h tmp m -> dlist h head l -> (forall x, x ∈ (tmp :: m) -> x ∉ (head :: l)) ->
  (exists h', merge_lists tmp head h = Ret (tt, h') /\ dlist h' head (l ++ m)) /\
  (exists h', list_splice tmp head h = Ret (tt, h') /\ dlist h' head (m ++ l)).
Proof.
  intros Hm Hl Hd. split.
  - destruct (wp_total _ _ _ (merge_lists_spec h tmp m head l Hm Hl Hd)) as ([] & h' & ? & ?). by exists h'.
  - destruct (wp_total _ _ _ (list_splice_spec h tmp m head l Hm Hl Hd)) as ([] & h' & ? & ? & _).
    by exists h'.
Qed.

(** [list_move] and [list_move_tail] take an entry out of one
    list and put it at the front, or at the end, of another. *)
Theorem list_move_moves h src l1 e l2 dst l (tail_end : bool) :
  dlist h src (l1 ++ e :: l2) -> dlist h dst l ->
  (forall x, x ∈ (src :: l1 ++ e :: l2) -> x ∉ (dst :: l)) ->
  exists h', (if tail_end then list_move_tail e dst else list_move e dst) h = Ret (tt, h') /\
    dlist h' src (l1 ++ l2) /\ dlist h' dst (if tail_end then l ++ [e] else e :: l).
Proof.
  intros H1 H2 H3. destruct (wp_total _ _ _ (list_move_spec h src l1 e l2 dst l tail_end H1 H2 H3))
    as ([] & h' & ? & ? & ?). by exists h'.
Qed.

(** [list_for_each] over a well-formed list of [n] entries ends
    after [n] rounds and visits the entries in order; [list_empty] tells whether
    there are any. *)
Theorem list_for_each_visits h head l fuel :
  dlist h head l -> (length l < fuel)%nat ->
  list_for_each fuel head (fun acc x => acc ++ [x]) [] h = Ret (l, h) /\
  list_empty head h = Ret (bool_decide (l = []), h).
Proof.
  intros Hd Hf. split.
  - destruct (wp_total _ _ _ (list_for_each_spec h head l (fun acc x => acc ++ [x]) [] fuel Hd Hf))
      as (r & h' & Hrun & -> & ->). rw Hrun. do 2 f_equal.
    assert (forall acc, foldl (fun acc x => acc ++ [x]) acc l = acc ++ l) as Hfold; [|apply Hfold].
    clear. induction l as [|x l IH]; intros acc; simpl; [by rw app_nil_r|]. rw IH -app_assoc //.
  - destruct (wp_total _ _ _ (list_empty_spec h head l Hd)) as (b & h' & Hrun & -> & ->). done.
Qed.

(** ** Concrete runs: the list 10 -> [1; 2], the list 20 -> [3], and a free node. *)
Definition demo_heap : heap :=
  list_to_map [(10, mkHead 1 2); (1, mkHead 2 10); (2, mkHead 10 1);
               (20, mkHead 3 3); (3, mkHead 20 20); (7, mkHead 0 0)].

Lemma demo_list : dlist demo_heap 10 [1; 2].
Proof.
  split; [by apply (bool_decide_unpack _); vm_compute|]. cbn [app chain].
  split_and!; try done; split; eexists; by vm_compute.
Qed.
Lemma demo_list2 : dlist demo_heap 20 [3].
Proof.
  split; [by apply (bool_decide_unpack _); vm_compute|]. cbn [app chain].
  split_and!; try done; split; eexists; by vm_compute.
Qed.
Lemma demo_apart : forall x : Z, x ∈ [20; 3] -> x ∉ [10; 1; 2].
Proof.
  intros x [->|Hx%list_elem_of_singleton]%elem_of_cons; [|subst x];
    by apply (bool_decide_unpack _); vm_compute.
Qed.
Lemma demo_apart2 : forall x : Z, x ∈ [10; 1; 2] -> x ∉ [20; 3].
Proof. intros x H1 H2. by apply (demo_apart x). Qed.

Lemma list_adds_witness :
  (exists h', list_add_tail 7 10 demo_heap = Ret (tt, h') /\ dlist h' 10 [1; 2; 7] /\
     frame [7; 10; 1; 2] demo_heap h') /\
  (exists h', list_add 7 10 demo_heap = Ret (tt, h') /\ dlist h' 10 [7; 1; 2] /\
     frame [7; 10; 1; 2] demo_heap h').
Proof.
  apply (list_adds demo_heap 10 [1; 2] 7); [apply demo_list|by apply (bool_decide_unpack _); vm_compute|by eexists].
Defined.

Lemma list_del_removes_witness :
  exists h', list_del 1 demo_heap = Ret (tt, h') /\ dlist h' 10 [2] /\
    h' !! 1 = Some (mkHead LIST_POISON1 LIST_POISON2) /\ frame [1; 10; 2] demo_heap h'.
Proof. apply (list_del_removes demo_heap 10 [] 1 [2]). apply demo_list. Defined.

Lemma list_splice_joins_witness :
  (exists h', merge_lists 20 10 demo_heap = Ret (tt, h') /\ dlist h' 10 [1; 2; 3]) /\
  (exists h', list_splice 20 10 demo_heap = Ret (tt, h') /\ dlist h' 10 [3; 1; 2]).
Proof.
  apply (list_splice_joins demo_heap 20 [3] 10 [1; 2]); [apply demo_list2|apply demo_list|apply demo_apart].
Defined.

Lemma list_move_moves_witness :
  exists h', list_move_tail 1 20 demo_heap = Ret (tt, h') /\ dlist h' 10 [2] /\ dlist h' 20 [3; 1].
Proof.
  apply (list_move_moves demo_heap 10 [] 1 [2] 20 [3] true);
    [apply demo_list|apply demo_list2|apply demo_apart2].
Defined.

Lemma list_for_each_visits_witness :
  list_for_each 3 10 (fun acc x => acc ++ [x]) [] demo_heap = Ret ([1; 2], demo_heap) /\
  list_empty 10 demo_heap = Ret (false, demo_heap).
Proof. apply (list_for_each_visits demo_heap 10 [1; 2] 3); [apply demo_list|simpl; lia]. Defined.
