(* ===== verification/HList.v ===== *)
(** * The hash lists of include/collections/list.h

    A [hlist_node] points back at the pointer that points to it, so the memory
    is modelled by words: the node at address [a] has its [next] at [a] and its
    [pprev] at [a + 8], the head at [h] has its [first] at [h], and NULL is 0.
    The relation [hlist m h l] says that the head at [h] leads through the
    nodes [l]. *)
From S2P Require Import Prelude CLib LinuxList.

Abbreviation words := (gmap Z Z).

Definition ld (a : Z) : M words Z := fun m =>
  match m !! a with Some v => Ret (v, m) | None => UB end.
Definition st (a v : Z) : M words () := fun m =>
  match m !! a with Some _ => Ret (tt, <[a := v]> m) | None => UB end.

(** The addresses of the fields. *)
Definition first_field (h : Z) : Z := h.
Definition next_field (n : Z) : Z := n.
Definition pprev_field (n : Z) : Z := n + 8.

Definition INIT_HLIST_HEAD (ptr : Z) : M words () := st (first_field ptr) 0.
Definition INIT_HLIST_NODE (ptr : Z) : M words () :=
  _ ← st (next_field ptr) 0; st (pprev_field ptr) 0.

Definition hlist_unhashed (h : Z) : M words bool := p ← ld (pprev_field h); mret (p =? 0).
Definition hlist_empty (h : Z) : M words bool := f ← ld (first_field h); mret (f =? 0).

Definition __hlist_del (n : Z) : M words () :=
  next ← ld (next_field n);
  pprev ← ld (pprev_field n);
  _ ← st pprev next;
  if next =? 0 then mret tt else st (pprev_field next) pprev.
Definition hlist_del (n : Z) : M words () :=
  _ ← __hlist_del n;
  _ ← st (next_field n) LIST_POISON1;
  st (pprev_field n) LIST_POISON2.
Definition hlist_del_init (n : Z) : M words () :=
  p ← ld (pprev_field n);
  if p =? 0 then mret tt else _ ← __hlist_del n; INIT_HLIST_NODE n.

Definition hlist_add_head (n h : Z) : M words () :=
  first ← ld (first_field h);
  _ ← st (next_field n) first;
  _ ← (if first =? 0 then mret tt else st (pprev_field first) (next_field n));
  _ ← st (first_field h) n;
  st (pprev_field n) (first_field h).
Definition hlist_add_before (n next : Z) : M words () :=
  p ← ld (pprev_field next);
  _ ← st (pprev_field n) p;
  _ ← st (next_field n) next;
  _ ← st (pprev_field next) (next_field n);
  p ← ld (pprev_field n);
  st p n.
(** Here [next] is the new node. *)
Definition hlist_add_after (n next : Z) : M words () :=
  s ← ld (next_field n);
  _ ← st (next_field next) s;
  _ ← st (next_field n) next;
  _ ← st (pprev_field next) (next_field n);
  s ← ld (next_field next);
  if s =? 0 then mret tt
  else s ← ld (next_field next); st (pprev_field s) (next_field next).

(** The loops; in the safe one the successor is fetched before the body. *)
Fixpoint hwalk (fuel : nat) (pos : Z) (body : Z -> M words ()) : M words () :=
  match fuel with
  | O => timeout
  | S fuel =>
    if pos =? 0 then mret tt
    else _ ← body pos; n ← ld (next_field pos); hwalk fuel n body
  end.
Definition hlist_for_each (fuel : nat) (head : Z) (body : Z -> M words ()) : M words () :=
  f ← ld (first_field head); hwalk fuel f body.

Fixpoint hwalk_safe (fuel : nat) (pos : Z) (body : Z -> M words ()) : M words () :=
  match fuel with
  | O => timeout
  | S fuel =>
    if pos =? 0 then mret tt
    else n ← ld (next_field pos); _ ← body pos; hwalk_safe fuel n body
  end.
Definition hlist_for_each_safe (fuel : nat) (head : Z) (body : Z -> M words ()) : M words () :=
  f ← ld (first_field head); hwalk_safe fuel f body.

(** ** Well-formed hash lists *)

(** The cell that holds the pointer after [l], starting from the cell [p]. *)
Definition last_cell (p : Z) (l : list Z) : Z := default p (last l).

Fixpoint hseg (m : words) (p : Z) (l : list Z) : Prop :=
  match l with
  | [] => True
  | x :: l => m !! p = Some x /\ m !! (pprev_field x) = Some p /\ hseg m x l
  end.

Record hlist (m : words) (head : Z) (l : list Z) : Prop := {
  hl_nodup : NoDup (head :: l);
  hl_apart : forall x y, x ∈ head :: l -> y ∈ l -> x <> pprev_field y;
  hl_null : 0 ∉ l;
  hl_seg : hseg m head l;
  hl_end : m !! (last_cell head l) = Some 0;
}.

(** A node of memory apart from a list. *)
Record free_node (m : words) (e head : Z) (l : list Z) : Prop := {
  fn_next : is_Some (m !! next_field e);
  fn_pprev : is_Some (m !! pprev_field e);
  fn_null : e <> 0;
  fn_new : e ∉ head :: l;
  fn_apart : forall x, x ∈ head :: l -> x <> pprev_field e;
  fn_apart' : forall y, y ∈ l -> e <> pprev_field y;
}.

(** ** Lemmas *)

Lemma wp_ld a (m : words) v (Q : Z -> words -> Prop) : m !! a = Some v -> Q v m -> wp false (ld a) m Q.
Proof. unfold wp, ld. by intros ->. Qed.
Lemma wp_st a v (m : words) (Q : () -> words -> Prop) :
  is_Some (m !! a) -> Q tt (<[a := v]> m) -> wp false (st a v) m Q.
Proof. unfold wp, st. by intros [w ->]. Qed.

Lemma last_cell_snoc p l x : last_cell p (l ++ [x]) = x.
Proof. by rw /last_cell last_snoc. Qed.
Lemma last_cell_app p l1 l2 : last_cell p (l1 ++ l2) = last_cell (last_cell p l1) l2.
Proof. rw /last_cell last_app. by destruct (last l2). Qed.
Lemma last_cell_cons p x l : last_cell p (x :: l) = last_cell x l.
Proof. apply (last_cell_app p [x] l). Qed.
Lemma last_cell_in p l : last_cell p l ∈ p :: l.
Proof.
  destruct l as [|x l _] using rev_ind; [apply list_elem_of_here|]. rw last_cell_snoc.
  apply list_elem_of_further, elem_of_app. right. apply list_elem_of_here.
Qed.

Lemma hseg_app m p l1 l2 : hseg m p (l1 ++ l2) <-> hseg m p l1 /\ hseg m (last_cell p l1) l2.
Proof.
  revert p. induction l1 as [|x l1 IH]; intros p; [by split; [|intros []]|].
  cbn [app hseg]. rw IH last_cell_cons. tauto.
Qed.

(** A segment does not see a change outside its cells. *)
Lemma hseg_frame m m' p l :
  hseg m p l -> NoDup (p :: l) -> (forall x, x ∈ p :: l -> x <> last_cell p l -> m' !! x = m !! x) ->
  (forall y, y ∈ l -> m' !! pprev_field y = m !! pprev_field y) -> hseg m' p l.
Proof.
  revert p. induction l as [|x l IH]; intros p; [done|]. cbn [hseg]. intros (H1 & H2 & H3) Hnd Hn Hp.
  pose proof Hnd as [Hpl Hnd']%NoDup_cons. split_and!.
  - rw Hn //; [apply list_elem_of_here|]. rw last_cell_cons. intros ->. apply Hpl, last_cell_in.
  - rw Hp //. apply list_elem_of_here.
  - apply IH; [done|done| |].
    + intros y Hy Hne. apply Hn; [by apply list_elem_of_further|]. by rw last_cell_cons.
    + intros y Hy. apply Hp. by apply list_elem_of_further.
Qed.

(** Where a list is split: the cell before the second part, and what it holds. *)
Lemma hlist_split m head l1 l2 :
  hlist m head (l1 ++ l2) ->
  let p := last_cell head l1 in
  m !! p = Some (default 0 (hd_error l2)) /\ hseg m head l1 /\ hseg m p l2 /\
  (p ∈ head :: l1) /\ NoDup (head :: l1) /\ NoDup (p :: l2) /\
  m !! last_cell p l2 = Some 0 /\ (forall x, x ∈ l2 -> x ∉ head :: l1).
Proof.
  intros [Hnd Hap Hnu Hs He] p. apply hseg_app in Hs as [Hs1 Hs2]. rw last_cell_app in He.
  rw app_comm_cons in Hnd. apply NoDup_app in Hnd as (Hn1 & Hdis & Hn2).
  assert (p ∈ head :: l1) as Hp by apply last_cell_in.
  split_and!; try done.
  - destruct l2 as [|x l2]; [done|]. by destruct Hs2.
  - apply NoDup_cons. split; [by apply Hdis|done].
  - intros x Hx Hx'. by apply (Hdis x).
Qed.

(** The empty list. *)
Lemma hlist_nil m head : m !! head = Some 0 -> hlist m head [].
Proof.
  intros Hm. constructor; try done; try apply NoDup_singleton; try by intros ? ? ? ?%not_elem_of_nil.
  by intros ?%not_elem_of_nil.
Qed.

Lemma elem_mid {A} (x e : A) l1 l2 : x ∈ l1 ++ l2 -> x ∈ l1 ++ e :: l2.
Proof. rw !elem_of_app elem_of_cons. tauto. Qed.

(** Inserting between two parts, whatever the order of the assignments. *)
Lemma hlist_insert m m' head l1 e l2 :
  hlist m head (l1 ++ l2) -> free_node m e head (l1 ++ l2) ->
  let p := last_cell head l1 in
  m' !! p = Some e -> m' !! pprev_field e = Some p -> m' !! e = Some (default 0 (hd_error l2)) ->
  (forall y, hd_error l2 = Some y -> m' !! pprev_field y = Some e) ->
  (forall c, c <> p -> c <> e -> c <> pprev_field e -> hd_error l2 <> Some (c - 8) -> m' !! c = m !! c) ->
  hlist m' head (l1 ++ e :: l2).
Proof.
  intros Hl [_ _ He0 Hen Hea Hea'] p Hp Hpe Hm' Hy Hf.
  destruct (hlist_split _ _ _ _ Hl) as (_ & Hs1 & Hs2 & Hpin & Hn1 & Hn2 & Hend & Hdis).
  fold p in Hs2, Hpin, Hn2, Hend. pose proof Hl as [Hnd Hap Hnu _ _].
  assert (forall x, x ∈ head :: l1 -> x ∈ head :: l1 ++ l2) as Hin1.
  { intros x. rw !elem_of_cons elem_of_app. tauto. }
  assert (forall x, x ∈ l2 -> x ∈ head :: l1 ++ l2) as Hin2.
  { intros x. rw !elem_of_cons elem_of_app. tauto. }
  assert (forall x, x ∈ head :: l1 ++ l2 -> hd_error l2 <> Some (x - 8)) as Hno.
  { intros x Hx Hh. apply (Hap x (x - 8) Hx); [|unfold pprev_field; lia].
    apply elem_of_app. right. destruct l2; [done|]. injection Hh as ->. apply list_elem_of_here. }
  constructor.
  - assert (head :: l1 ++ e :: l2 ≡ₚ e :: head :: l1 ++ l2) as -> by solve_Permutation.
    by apply NoDup_cons.
  - intros x y Hx Hy'.
    assert (x = e \/ x ∈ head :: l1 ++ l2) as [->|Hx'].
    { revert Hx. rw !elem_of_cons !elem_of_app elem_of_cons. tauto. }
    + apply elem_of_app in Hy' as [Hy'|[->|Hy']%elem_of_cons]; [apply Hea', elem_of_app; by left| |apply Hea', elem_of_app; by right].
      unfold pprev_field. lia.
    + apply elem_of_app in Hy' as [Hy'|[->|Hy']%elem_of_cons]; [apply Hap; [done|apply elem_of_app; by left]|by apply Hea|].
      apply Hap; [done|apply elem_of_app; by right].
  - rw not_elem_of_app not_elem_of_cons. rw not_elem_of_app in Hnu. destruct Hnu. by split_and!.
  - apply hseg_app. fold p. split.
    + apply (hseg_frame m); [done|done| |].
      * intros x Hx Hxp. fold p in Hxp. apply Hf; [done|by intros ->; apply Hen, Hin1|by apply Hea, Hin1|by apply Hno, Hin1].
      * intros y Hy'. apply Hf.
        -- intros Heq. apply (Hap p y); [by apply Hin1|apply elem_of_app; by left|done].
        -- intros Heq. apply (Hea' y); [apply elem_of_app; by left|done].
        -- unfold pprev_field. intros Heq. assert (y = e) as -> by lia. apply Hen, Hin1.
           by apply list_elem_of_further.
        -- unfold pprev_field. rw Z.add_simpl_r. intros Hh. destruct l2 as [|z l2]; [done|]. injection Hh as ->.
           apply (Hdis y); [apply list_elem_of_here|by apply list_elem_of_further].
    + cbn [hseg]. split_and!; [done|done|]. destruct l2 as [|z l2]; [done|]. cbn [hseg] in Hs2 |- *.
      destruct Hs2 as (_ & _ & Hs2). split_and!; [done|by apply Hy|].
      apply NoDup_cons in Hn2 as [Hpz Hn2]. apply (hseg_frame m); [done|done| |].
      * intros x Hx _. assert (x ∈ head :: l1 ++ z :: l2) as Hx' by by apply Hin2.
        apply Hf; [by intros ->|by intros ->|by apply Hea|by apply Hno].
      * intros y Hy'. assert (y ∈ z :: l2) as Hy2 by by apply list_elem_of_further.
        apply Hf.
        -- intros Heq. apply (Hap p y); [by apply Hin1|apply elem_of_app; by right|done].
        -- intros Heq. apply (Hea' y); [apply elem_of_app; by right|done].
        -- unfold pprev_field. intros Heq. assert (y = e) as -> by lia. by apply Hen, Hin2.
        -- unfold pprev_field. rw Z.add_simpl_r. intros [= ->]. by apply NoDup_cons in Hn2 as [? _].
  - rw last_cell_app last_cell_cons. destruct l2 as [|z l2]; [done|]. rw last_cell_cons in Hend. rw last_cell_cons.
    assert (last_cell z l2 ∈ z :: l2) as Hx by apply last_cell_in.
    apply NoDup_cons in Hn2 as [Hpz _].
    rw Hf //; [by intros Heq; rw Heq in Hx|by intros Heq; rw Heq in Hx; apply Hen, Hin2|by apply Hea, Hin2|by apply Hno, Hin2].
Qed.

(** Taking out a node. *)
Lemma hlist_remove m m' head l1 e l2 :
  hlist m head (l1 ++ e :: l2) ->
  let p := last_cell head l1 in
  m' !! p = Some (default 0 (hd_error l2)) ->
  (forall y, hd_error l2 = Some y -> m' !! pprev_field y = Some p) ->
  (forall c, c <> p -> c <> e -> c <> pprev_field e -> hd_error l2 <> Some (c - 8) -> m' !! c = m !! c) ->
  hlist m' head (l1 ++ l2).
Proof.
  intros Hl p Hp Hy Hf. destruct (hlist_split _ _ _ _ Hl) as (_ & Hs1 & (_ & _ & Hs2) & Hpin & Hn1 & Hn2 & Hend & Hdis).
  fold p in Hpin, Hn2, Hend. rw last_cell_cons in Hend. pose proof Hl as [Hnd Hap Hnu _ _].
  apply NoDup_cons in Hn2 as [Hpe2 Hn2]. pose proof Hn2 as [He2 _]%NoDup_cons.
  assert (forall x, x ∈ head :: l1 ++ l2 -> x ∈ head :: l1 ++ e :: l2) as Hin.
  { intros x. rw !elem_of_cons !elem_of_app elem_of_cons. tauto. }
  assert (forall x, x ∈ l1 ++ l2 -> x ∈ l1 ++ e :: l2) as Hin' by (intros x; apply elem_mid).
  assert (e ∈ l1 ++ e :: l2) as Hein by (apply elem_of_app; right; apply list_elem_of_here).
  assert (e ∉ head :: l1 ++ l2) as Hee.
  { assert (head :: l1 ++ e :: l2 ≡ₚ e :: head :: l1 ++ l2) as Hperm by solve_Permutation.
    rw Hperm in Hnd. by apply NoDup_cons in Hnd as [? _]. }
  assert (forall x, x ∈ head :: l1 ++ l2 -> x <> p -> m' !! x = m !! x) as Hcell.
  { intros x Hx Hxp. apply Hf; [done|by intros ->|by apply Hap; [apply Hin|]|].
    intros Hh. apply (Hap x (x - 8)); [by apply Hin| |unfold pprev_field; lia].
    apply elem_of_app. right. destruct l2; [done|]. injection Hh as ->. apply list_elem_of_further, list_elem_of_here. }
  assert (forall y, y ∈ l1 ++ l2 -> hd_error l2 <> Some y -> m' !! pprev_field y = m !! pprev_field y) as Hback.
  { intros y Hyin Hh. apply Hf.
    - intros Heq. apply (Hap p y); [|by apply Hin'|done].
      apply Hin. revert Hpin. rw !elem_of_cons elem_of_app. tauto.
    - intros Heq. apply (Hap e y); [by apply list_elem_of_further|by apply Hin'|done].
    - unfold pprev_field. intros Heq. assert (y = e) as -> by lia. apply Hee. by apply list_elem_of_further.
    - unfold pprev_field. by rw Z.add_simpl_r. }
  constructor.
  - assert (head :: l1 ++ e :: l2 ≡ₚ e :: head :: l1 ++ l2) as Hperm by solve_Permutation.
    rw Hperm in Hnd. by apply NoDup_cons in Hnd as [_ ?].
  - intros x y Hx Hyin. apply Hap; [by apply Hin|by apply Hin'].
  - intros H0. by apply Hnu, Hin'.
  - apply hseg_app. fold p. split.
    + apply (hseg_frame m); [done|done| |].
      * intros x Hx. fold p. apply Hcell. revert Hx. rw !elem_of_cons elem_of_app. tauto.
      * intros y Hyin. apply Hback; [apply elem_of_app; by left|]. intros Hh. destruct l2 as [|z l2]; [done|].
        injection Hh as ->. apply (Hdis y); [apply list_elem_of_further, list_elem_of_here|by apply list_elem_of_further].
    + destruct l2 as [|z l2]; [done|]. cbn [hseg] in Hs2 |- *. destruct Hs2 as (_ & _ & Hs2).
      split_and!; [done|by apply Hy|]. apply NoDup_cons in Hn2 as [_ Hn2]. apply (hseg_frame m); [done|done| |].
      * intros x Hx _. apply Hcell; [apply list_elem_of_further, elem_of_app; by right|].
        intros ->. by apply Hpe2, list_elem_of_further.
      * intros y Hyin. apply Hback; [apply elem_of_app; right; by apply list_elem_of_further|].
        intros [= ->]. by apply NoDup_cons in Hn2 as [? _].
  - rw last_cell_app. fold p. destruct l2 as [|z l2]; [done|]. rw last_cell_cons in Hend. rw last_cell_cons.
    assert (last_cell z l2 ∈ z :: l2) as Hx by apply last_cell_in.
    rw Hcell //; [apply list_elem_of_further, elem_of_app; by right|].
    intros Heq. rw Heq in Hx. by apply Hpe2, list_elem_of_further.
Qed.

(** Two hash lists that share no cell do not notice each other. *)
Definition hframe (head : Z) (l : list Z) (m m' : words) : Prop :=
  forall c, c ∉ head :: l -> (forall y, y ∈ l -> c <> pprev_field y) -> m' !! c = m !! c.

(** The addresses at a place of a list and at a node to go there. *)
Lemma hlist_place m head l1 l2 :
  hlist m head (l1 ++ l2) ->
  let p := last_cell head l1 in
  m !! p = Some (default 0 (hd_error l2)) /\ (p ∈ head :: l1 ++ l2) /\
  forall y, hd_error l2 = Some y ->
    (y ∈ l1 ++ l2) /\ y <> 0 /\ y <> p /\ p <> pprev_field y /\ m !! pprev_field y = Some p.
Proof.
  intros Hl p. pose proof Hl as [Hnd Hap Hnu _ _].
  destruct (hlist_split _ _ _ _ Hl) as (Hp & _ & Hs2 & Hpin & _ & Hn2 & _ & Hdis). fold p in Hp, Hs2, Hpin, Hn2.
  assert (p ∈ head :: l1 ++ l2) as Hpin' by (revert Hpin; rw !elem_of_cons elem_of_app; tauto).
  split_and!; [done|done|]. intros y Hy. destruct l2 as [|z l2]; [done|]. injection Hy as ->.
  assert (y ∈ l1 ++ y :: l2) as Hyin by (apply elem_of_app; right; apply list_elem_of_here).
  destruct Hs2 as (_ & Hs2 & _). apply NoDup_cons in Hn2 as [Hne _].
  split_and!; [done|by intros ->|intros ->; by apply Hne, list_elem_of_here|by apply Hap|done].
Qed.

(** [cells]: lookups in a memory after some stores. *)
Lemma insert_is_Some (m : words) i v j : is_Some (m !! j) -> is_Some (<[i := v]> m !! j).
Proof. intros [w Hw]. rw lookup_insert Hw. case_decide; by eexists. Qed.
Lemma insert_lookup (m : words) i v j : <[i := v]> m !! j = if decide (i = j) then Some v else m !! j.
Proof. apply lookup_insert. Qed.
Ltac addresses := unfold pprev_field, next_field, first_field in *.
Ltac cells :=
  intros; addresses; repeat match goal with H : Some _ = Some _ |- _ => injection H as H end; subst;
  repeat (rw insert_lookup; case_decide); try done; try congruence; try lia;
  try match goal with H : Some ?y <> Some _ |- _ => exfalso; apply H; f_equal; lia end.
Ltac some_cell := repeat apply insert_is_Some; first [done|by eexists].

Section ops.
Context (m : words) (head : Z).

Lemma fresh_place l1 l2 e :
  hlist m head (l1 ++ l2) -> free_node m e head (l1 ++ l2) ->
  let p := last_cell head l1 in
  p <> e /\ p <> pprev_field e /\ forall y, hd_error l2 = Some y -> y <> e /\ e <> pprev_field y.
Proof.
  intros Hl [_ _ _ Hn Ha Ha'] p. destruct (hlist_place _ _ _ _ Hl) as (_ & Hp & Hy). fold p in Hp.
  split_and!; [by intros Heq; rw Heq in Hp|by apply Ha|]. intros y Hh. destruct (Hy y Hh) as (Hyin & _).
  split; [|by apply Ha']. intros ->. by apply Hn, list_elem_of_further.
Qed.

Lemma hlist_add_head_spec l n :
  hlist m head l -> free_node m n head l ->
  wp false (hlist_add_head n head) m (fun _ m' => hlist m' head (n :: l)).
Proof.
  intros Hl Hf. pose proof (hlist_place m head [] l Hl) as (Hp & _ & Hy).
  pose proof (fresh_place [] l n Hl Hf) as (F1 & F2 & F3).
  change (last_cell head []) with head in *.
  pose proof (fn_next _ _ _ _ Hf) as Hn. pose proof (fn_pprev _ _ _ _ Hf) as Hpp.
  unfold hlist_add_head. apply wp_bind. eapply wp_ld; [exact Hp|]. apply wp_bind, wp_st; [done|]. apply wp_bind.
  destruct (hd_error l) as [y|] eqn:Hh; simpl.
  - destruct (Hy y eq_refl) as (_ & Y0 & Yp & Yq & Ym). destruct (F3 y eq_refl) as [G1 G2].
    rw (proj2 (Z.eqb_neq y 0)) //. apply wp_st; [some_cell|].
    apply wp_bind, wp_st; [some_cell|]. apply wp_st; [some_cell|].
    apply (hlist_insert m _ head [] n l Hl Hf); rw ?Hh /=; change (last_cell head []) with head; cells.
  - apply wp_ret. apply wp_bind, wp_st; [some_cell|]. apply wp_st; [some_cell|].
    apply (hlist_insert m _ head [] n l Hl Hf); rw ?Hh /=; change (last_cell head []) with head; cells.
Qed.

Lemma hlist_add_before_spec l1 next l2 n :
  hlist m head (l1 ++ next :: l2) -> free_node m n head (l1 ++ next :: l2) ->
  wp false (hlist_add_before n next) m (fun _ m' => hlist m' head (l1 ++ n :: next :: l2)).
Proof.
  intros Hl Hf. pose proof (hlist_place m head l1 _ Hl) as (Hp & _ & Hy).
  pose proof (fresh_place l1 _ n Hl Hf) as (F1 & F2 & F3).
  pose proof (fn_next _ _ _ _ Hf) as Hn. pose proof (fn_pprev _ _ _ _ Hf) as Hpp.
  destruct (Hy next eq_refl) as (_ & Y0 & Yp & Yq & Ym). destruct (F3 next eq_refl) as [G1 G2].
  set (p := last_cell head l1) in *. unfold hlist_add_before.
  apply wp_bind. eapply wp_ld; [exact Ym|]. apply wp_bind, wp_st; [done|].
  apply wp_bind, wp_st; [some_cell|]. apply wp_bind, wp_st; [some_cell|].
  apply wp_bind. eapply (wp_ld _ _ p); [cells|]. apply wp_st; [some_cell|].
  apply (hlist_insert m _ head l1 n (next :: l2) Hl Hf); fold p; simpl; cells.
Qed.

Lemma hlist_add_after_spec l1 n l2 next :
  hlist m head (l1 ++ n :: l2) -> free_node m next head (l1 ++ n :: l2) ->
  wp false (hlist_add_after n next) m (fun _ m' => hlist m' head (l1 ++ n :: next :: l2)).
Proof.
  intros Hl Hf. assert (l1 ++ n :: l2 = (l1 ++ [n]) ++ l2) as Heq by by rw -app_assoc. rw Heq in Hl, Hf.
  assert (l1 ++ n :: next :: l2 = (l1 ++ [n]) ++ next :: l2) as -> by by rw -app_assoc.
  pose proof (hlist_place m head (l1 ++ [n]) l2 Hl) as (Hp & _ & Hy).
  pose proof (fresh_place (l1 ++ [n]) l2 next Hl Hf) as (F1 & F2 & F3). rw last_cell_snoc in Hp, Hy, F1, F2.
  pose proof (fn_next _ _ _ _ Hf) as Hn. pose proof (fn_pprev _ _ _ _ Hf) as Hpp.
  unfold hlist_add_after. apply wp_bind. eapply wp_ld; [exact Hp|]. apply wp_bind, wp_st; [done|].
  apply wp_bind, wp_st; [some_cell|]. apply wp_bind, wp_st; [some_cell|].
  apply wp_bind. eapply (wp_ld _ _ (default 0 (hd_error l2))); [cells|].
  destruct (hd_error l2) as [y|] eqn:Hh; simpl.
  - destruct (Hy y eq_refl) as (_ & Y0 & Yp & Yq & Ym). destruct (F3 y eq_refl) as [G1 G2].
    rw (proj2 (Z.eqb_neq y 0)) //. apply wp_bind. eapply (wp_ld _ _ y); [cells|]. apply wp_st; [some_cell|].
    apply (hlist_insert m _ head (l1 ++ [n]) next l2 Hl Hf); rw ?Hh ?last_cell_snoc /=; cells.
  - apply wp_ret. apply (hlist_insert m _ head (l1 ++ [n]) next l2 Hl Hf); rw ?Hh ?last_cell_snoc /=; cells.
Qed.

(** The core of the deletions. *)
Lemma hlist_del_core l1 e l2 :
  hlist m head (l1 ++ e :: l2) ->
  wp false (__hlist_del e) m (fun _ m' => hlist m' head (l1 ++ l2) /\
    is_Some (m' !! next_field e) /\ is_Some (m' !! pprev_field e) /\
    hframe head (l1 ++ l2) m m').
Proof.
  intros Hl. pose proof (hlist_place m head l1 _ Hl) as (_ & Hpin & Hy). destruct (Hy e eq_refl) as (Hein & E0 & Ep & Eq & Em).
  assert (hlist m head ((l1 ++ [e]) ++ l2)) as Hl' by by rw -app_assoc.
  pose proof (hlist_place m head (l1 ++ [e]) l2 Hl') as (Hp & _ & Hy'). rw last_cell_snoc in Hp, Hy'.
  set (p := last_cell head l1) in *.
  pose proof (hlist_split _ _ _ _ Hl) as (Hps & _). fold p in Hps.
  assert (is_Some (m !! p)) as Hsp by by eexists.
  assert (p ∈ head :: l1 ++ l2) as Hpin'.
  { pose proof (last_cell_in head l1) as H. fold p in H. revert H. rw !elem_of_cons elem_of_app. tauto. }
  unfold __hlist_del. apply wp_bind. eapply wp_ld; [exact Hp|]. apply wp_bind. eapply wp_ld; [exact Em|].
  apply wp_bind, wp_st; [done|]. destruct (hd_error l2) as [y|] eqn:Hh; simpl.
  - destruct (Hy' y eq_refl) as (Hyin & Y0 & Yp & Yq & Ym). rw (proj2 (Z.eqb_neq y 0)) //.
    assert (p <> pprev_field y) as Hpy.
    { apply (hl_apart _ _ _ Hl); [done|]. by rw -app_assoc in Hyin. }
    apply wp_st; [some_cell|]. split_and!; [|some_cell..|].
    + apply (hlist_remove m _ head l1 e l2 Hl); rw ?Hh /=; fold p; cells.
    + intros c Hc1 Hc2. assert (c <> p) by (by intros ->). assert (c <> pprev_field y).
      { apply Hc2, elem_of_app. right. destruct l2; [done|]. injection Hh as ->. apply list_elem_of_here. }
      cells.
  - apply wp_ret. split_and!; [|some_cell..|].
    + apply (hlist_remove m _ head l1 e l2 Hl); rw ?Hh /=; fold p; cells.
    + intros c Hc1 Hc2. assert (c <> p) by (by intros ->). cells.
Qed.

Lemma hlist_cell_fresh l1 e l2 :
  hlist m head (l1 ++ e :: l2) ->
  (e ∉ head :: l1 ++ l2) /\ (forall x, x ∈ head :: l1 ++ l2 -> x <> pprev_field e) /\
  (forall y, y ∈ l1 ++ l2 -> e <> pprev_field y).
Proof.
  intros [Hnd Hap _ _ _]. assert (e ∈ l1 ++ e :: l2) as Hein by (apply elem_of_app; right; apply list_elem_of_here).
  split_and!.
  - assert (head :: l1 ++ e :: l2 ≡ₚ e :: head :: l1 ++ l2) as Hperm by solve_Permutation.
    rw Hperm in Hnd. by apply NoDup_cons in Hnd as [? _].
  - intros x Hx. apply Hap; [|done]. revert Hx. rw !elem_of_cons !elem_of_app elem_of_cons. tauto.
  - intros y Hy. apply Hap; [by apply list_elem_of_further|by apply elem_mid].
Qed.
End ops.

(** Writing both fields of a node outside the list. *)
Lemma hlist_outside m head l e a b :
  hlist m head l -> (e ∉ head :: l) -> (forall x, x ∈ head :: l -> x <> pprev_field e) ->
  (forall y, y ∈ l -> e <> pprev_field y) ->
  hlist (<[pprev_field e := b]> (<[next_field e := a]> m)) head l.
Proof.
  intros [Hnd Hap Hnu Hs He] H1 H2 H3.
  assert (forall x, x ∈ head :: l -> <[pprev_field e := b]> (<[next_field e := a]> m) !! x = m !! x) as Hx.
  { intros x Hx. specialize (H2 x Hx). assert (x <> e) by (by intros ->). cells. }
  constructor; try done.
  - apply (hseg_frame m); [done|done|by intros; apply Hx|]. intros y Hy. specialize (H3 y Hy).
    assert (y <> e) by (intros ->; by apply H1, list_elem_of_further). cells.
  - rw Hx //. apply last_cell_in.
Qed.

Lemma hlist_del_spec m head l1 e l2 :
  hlist m head (l1 ++ e :: l2) ->
  wp false (hlist_del e) m (fun _ m' => hlist m' head (l1 ++ l2) /\
    m' !! next_field e = Some LIST_POISON1 /\ m' !! pprev_field e = Some LIST_POISON2).
Proof.
  intros Hl. destruct (hlist_cell_fresh _ _ _ _ _ Hl) as (F1 & F2 & F3).
  unfold hlist_del. eapply wp_bind, wp_mono; [by apply hlist_del_core|].
  intros _ m1 (Hl1 & S1 & S2 & _). apply wp_bind, wp_st; [done|]. apply wp_st; [some_cell|].
  split_and!; [by apply hlist_outside|cells..].
Qed.

(** A node in a list is unhashed; one that is not in a list is left alone. *)
Lemma hlist_del_init_spec m head l1 e l2 :
  hlist m head (l1 ++ e :: l2) -> head <> 0 ->
  wp false (hlist_del_init e) m (fun _ m' => hlist m' head (l1 ++ l2) /\
    m' !! next_field e = Some 0 /\ m' !! pprev_field e = Some 0).
Proof.
  intros Hl H0. destruct (hlist_cell_fresh _ _ _ _ _ Hl) as (F1 & F2 & F3).
  destruct (hlist_place _ _ _ _ Hl) as (_ & _ & Hy). destruct (Hy e eq_refl) as (_ & _ & _ & _ & Hm).
  unfold hlist_del_init. apply wp_bind. eapply wp_ld; [exact Hm|].
  assert (last_cell head l1 <> 0) as Hnz.
  { intros Hz. pose proof (last_cell_in head l1) as Hin. rw Hz in Hin.
    apply elem_of_cons in Hin as [Hin|Hin]; [done|]. apply (hl_null _ _ _ Hl), elem_of_app. by left. }
  rw (proj2 (Z.eqb_neq _ _)) //. eapply wp_bind, wp_mono; [by apply hlist_del_core|].
  intros _ m1 (Hl1 & S1 & S2 & _). apply wp_bind, wp_st; [done|]. apply wp_st; [some_cell|].
  split_and!; [by apply hlist_outside|cells..].
Qed.

Lemma hlist_first m head l : hlist m head l -> m !! head = Some (default 0 (hd_error l)).
Proof. intros Hl. by destruct (hlist_place _ _ [] _ Hl) as (? & _). Qed.

Lemma hlist_next m head l1 x l2 : hlist m head (l1 ++ x :: l2) -> m !! x = Some (default 0 (hd_error l2)).
Proof.
  intros Hl. assert (hlist m head ((l1 ++ [x]) ++ l2)) as Hl' by by rw -app_assoc.
  destruct (hlist_place _ _ _ _ Hl') as (H & _). by rw last_cell_snoc in H.
Qed.

(** A loop whose body keeps the list, with an invariant [P] of what was visited. *)
Lemma hwalk_spec head (body : Z -> M words ()) (P : list Z -> words -> Prop) l :
  (forall l1 x l2 m, l = l1 ++ x :: l2 -> hlist m head l -> P l1 m ->
     exists m', body x m = Ret (tt, m') /\ hlist m' head l /\ P (l1 ++ [x]) m') ->
  forall l2 l1 m fuel, l = l1 ++ l2 -> hlist m head l -> P l1 m -> (length l2 < fuel)%nat ->
  wp false (hwalk fuel (default 0 (hd_error l2)) body) m (fun _ m' => hlist m' head l /\ P l m').
Proof.
  intros Hbody l2. induction l2 as [|x l2 IH]; intros l1 m [|fuel] Heq Hl HP Hf; cbn [hwalk]; try (simpl in Hf; lia).
  { apply wp_ret. rw app_nil_r in Heq. by subst. }
  assert (x <> 0) as Hx0.
  { intros ->. apply (hl_null _ _ _ Hl). rw Heq elem_of_app. right. apply list_elem_of_here. }
  change (default 0 (hd_error (x :: l2))) with x. rw (proj2 (Z.eqb_neq x 0)) //.
  destruct (Hbody l1 x l2 m Heq Hl HP) as (m1 & Hrun & Hl1 & HP1). apply wp_bind. eapply wp_run; [exact Hrun|].
  apply wp_bind. eapply wp_ld; [rw Heq in Hl1; by eapply hlist_next|].
  apply (IH (l1 ++ [x])); [by rw -app_assoc|done|done|simpl in Hf; lia].
Qed.

(** Deleting in the safe loop: [p] says which nodes to delete. *)
Definition del_if (p : Z -> bool) (x : Z) : M words () := if p x then hlist_del x else mret tt.

Lemma hwalk_safe_filter head p l2 : forall l1 m fuel,
  hlist m head (l1 ++ l2) -> (length l2 < fuel)%nat ->
  wp false (hwalk_safe fuel (default 0 (hd_error l2)) (del_if p)) m (fun _ m' =>
    hlist m' head (l1 ++ filter (fun x => p x = false) l2)).
Proof.
  induction l2 as [|x l2 IH]; intros l1 m [|fuel] Hl Hf; cbn [hwalk_safe]; try (simpl in Hf; lia).
  { apply wp_ret. done. }
  assert (x <> 0) as Hx0.
  { intros ->. apply (hl_null _ _ _ Hl), elem_of_app. right. apply list_elem_of_here. }
  change (default 0 (hd_error (x :: l2))) with x. rw (proj2 (Z.eqb_neq x 0)) //.
  apply wp_bind. eapply wp_ld; [by eapply hlist_next|]. apply wp_bind. unfold del_if at 1.
  destruct (p x) eqn:Hp.
  - eapply wp_mono; [by apply hlist_del_spec|]. intros _ m1 (Hl1 & _).
    rw filter_cons_False; [by rw Hp|]. apply IH; [done|simpl in Hf; lia].
  - apply wp_ret. rw filter_cons_True //.
    assert (forall k, l1 ++ x :: k = (l1 ++ [x]) ++ k) as Heq by by intros; rw -app_assoc. rw (Heq l2) in Hl. rw (Heq (filter _ l2)).
    apply IH; [done|simpl in Hf; lia].
Qed.

(** ** The loops over the enclosing structures; [off] is the offset of the node *)

Definition hlist_entry (ptr off : Z) : Z := ptr - off.
Definition hlist_for_each_entry (fuel : nat) (head off : Z) (body : Z -> M words ()) : M words () :=
  hlist_for_each fuel head (fun pos => body (hlist_entry pos off)).
Definition hlist_for_each_entry_continue (fuel : nat) (pos off : Z) (body : Z -> M words ()) : M words () :=
  n ← ld (next_field pos); hwalk fuel n (fun pos => body (hlist_entry pos off)).
Definition hlist_for_each_entry_from (fuel : nat) (pos off : Z) (body : Z -> M words ()) : M words () :=
  hwalk fuel pos (fun pos => body (hlist_entry pos off)).
Definition hlist_for_each_entry_safe (fuel : nat) (head off : Z) (body : Z -> M words ()) : M words () :=
  hlist_for_each_safe fuel head (fun pos => body (hlist_entry pos off)).

(** ** Theorems *)

(** The insertions of the hash list: at the front, before a
    node and behind a node; the list is well formed again, back pointers
    included. *)
Theorem hlist_adds m head l1 x l2 n :
  hlist m head (l1 ++ x :: l2) -> free_node m n head (l1 ++ x :: l2) ->
  (exists m', hlist_add_head n head m = Ret (tt, m') /\ hlist m' head (n :: l1 ++ x :: l2)) /\
  (exists m', hlist_add_before n x m = Ret (tt, m') /\ hlist m' head (l1 ++ n :: x :: l2)) /\
  (exists m', hlist_add_after x n m = Ret (tt, m') /\ hlist m' head (l1 ++ x :: n :: l2)).
Proof.
  intros Hl Hf. split_and!.
  - destruct (wp_total _ _ _ (hlist_add_head_spec m head _ n Hl Hf)) as ([] & m' & ? & ?). by exists m'.
  - destruct (wp_total _ _ _ (hlist_add_before_spec m head l1 x l2 n Hl Hf)) as ([] & m' & ? & ?). by exists m'.
  - destruct (wp_total _ _ _ (hlist_add_after_spec m head l1 x l2 n Hl Hf)) as ([] & m' & ? & ?). by exists m'.
Qed.

(** The deletions of the hash list unlink the node in
    constant time through its back pointer; [hlist_del] poisons it,
    [hlist_del_init] leaves it unhashed, and does nothing to an unhashed node. *)
Theorem hlist_dels m head l1 x l2 :
  hlist m head (l1 ++ x :: l2) -> head <> 0 ->
  (exists m', hlist_del x m = Ret (tt, m') /\ hlist m' head (l1 ++ l2) /\
     m' !! next_field x = Some LIST_POISON1 /\ m' !! pprev_field x = Some LIST_POISON2) /\
  (exists m', hlist_del_init x m = Ret (tt, m') /\ hlist m' head (l1 ++ l2) /\
     hlist_unhashed x m' = Ret (true, m') /\ hlist_del_init x m' = Ret (tt, m')).
Proof.
  intros Hl H0. split.
  - destruct (wp_total _ _ _ (hlist_del_spec m head l1 x l2 Hl)) as ([] & m' & ? & ? & ? & ?). by exists m'.
  - destruct (wp_total _ _ _ (hlist_del_init_spec m head l1 x l2 Hl H0)) as ([] & m' & ? & ? & _ & Hp).
    exists m'. split_and!; [done|done|..]; unfold hlist_unhashed, hlist_del_init, mbind, M_bind, ld; by rw Hp.
Qed.

(** The loops over a hash list of [n] nodes end after [n]
    rounds.  The plain one visits the nodes in order: what the body keeps of the
    visited part holds of the whole list at the end.  The safe one may delete
    the node it is at, any number of times: what remains is the list without the
    deleted nodes. *)
Theorem hlist_loops m head l fuel body (P : list Z -> words -> Prop) p :
  hlist m head l -> (length l < fuel)%nat -> P [] m ->
  (forall l1 x l2 m1, l = l1 ++ x :: l2 -> hlist m1 head l -> P l1 m1 ->
     exists m2, body x m1 = Ret (tt, m2) /\ hlist m2 head l /\ P (l1 ++ [x]) m2) ->
  (exists m', hlist_for_each fuel head body m = Ret (tt, m') /\ hlist m' head l /\ P l m') /\
  (exists m', hlist_for_each_safe fuel head (del_if p) m = Ret (tt, m') /\
     hlist m' head (filter (fun x => p x = false) l)).
Proof.
  intros Hl Hf HP Hbody. unfold hlist_for_each, hlist_for_each_safe. split.
  - assert (wp false (f ← ld (first_field head); hwalk fuel f body) m (fun _ m' => hlist m' head l /\ P l m')) as Hwp.
    2: { destruct (wp_total _ _ _ Hwp) as ([] & m' & ? & ? & ?). by exists m'. }
    apply wp_bind. eapply wp_ld; [by apply hlist_first|].
    by apply (hwalk_spec head body P l Hbody l []).
  - assert (wp false (f ← ld (first_field head); hwalk_safe fuel f (del_if p)) m (fun _ m' =>
      hlist m' head (filter (fun x => p x = false) l))) as Hwp.
    2: { destruct (wp_total _ _ _ Hwp) as ([] & m' & ? & ?). by exists m'. }
    apply wp_bind. eapply wp_ld; [by apply hlist_first|]. by apply (hwalk_safe_filter head p l []).
Qed.

(** ** Concrete runs: the head 100 -> [10; 20; 30], a free node 40, a counter at 500 *)

Definition demo_words : words :=
  list_to_map [(100, 10); (10, 20); (18, 100); (20, 30); (28, 10); (30, 0); (38, 20); (40, 0); (48, 0); (500, 0)].

Lemma demo_hlist : hlist demo_words 100 [10; 20; 30].
Proof.
  constructor; [by apply (bool_decide_unpack _); vm_compute| |by apply (bool_decide_unpack _); vm_compute
    |by vm_compute|by vm_compute].
  intros x y. rw !elem_of_cons. unfold pprev_field.
  intros [->|[->|[->|[->|?%not_elem_of_nil]]]] [->|[->|[->|?%not_elem_of_nil]]]; done.
Qed.

Lemma demo_free : free_node demo_words 40 100 [10; 20; 30].
Proof.
  constructor; [by eexists|by eexists|done|by apply (bool_decide_unpack _); vm_compute|..];
    intros x; rw !elem_of_cons; unfold pprev_field.
  - intros [->|[->|[->|[->|?%not_elem_of_nil]]]]; done.
  - intros [->|[->|[->|?%not_elem_of_nil]]]; done.
Qed.

Lemma hlist_adds_witness :
  (exists m', hlist_add_head 40 100 demo_words = Ret (tt, m') /\ hlist m' 100 [40; 10; 20; 30]) /\
  (exists m', hlist_add_before 40 20 demo_words = Ret (tt, m') /\ hlist m' 100 [10; 40; 20; 30]) /\
  (exists m', hlist_add_after 20 40 demo_words = Ret (tt, m') /\ hlist m' 100 [10; 20; 40; 30]).
Proof. apply (hlist_adds demo_words 100 [10] 20 [30] 40); [apply demo_hlist|apply demo_free]. Defined.

Lemma hlist_dels_witness :
  (exists m', hlist_del 20 demo_words = Ret (tt, m') /\ hlist m' 100 [10; 30] /\
     m' !! 20 = Some LIST_POISON1 /\ m' !! 28 = Some LIST_POISON2) /\
  (exists m', hlist_del_init 20 demo_words = Ret (tt, m') /\ hlist m' 100 [10; 30] /\
     hlist_unhashed 20 m' = Ret (true, m') /\ hlist_del_init 20 m' = Ret (tt, m')).
Proof. apply (hlist_dels demo_words 100 [10] 20 [30]); [apply demo_hlist|done]. Defined.

(** The body counts the nodes. *)
Definition count_body (_ : Z) : M words () := n ← ld 500; st 500 (n + 1).

Lemma hlist_loops_witness :
  (exists m', hlist_for_each 4 100 count_body demo_words = Ret (tt, m') /\ hlist m' 100 [10; 20; 30] /\
     m' !! 500 = Some 3) /\
  (exists m', hlist_for_each_safe 4 100 (del_if (fun x => x =? 20)) demo_words = Ret (tt, m') /\
     hlist m' 100 [10; 30]).
Proof.
  apply (hlist_loops demo_words 100 [10; 20; 30] 4 count_body (fun l m => m !! 500 = Some (zlen l)) (fun x => x =? 20));
    [apply demo_hlist|simpl; lia|done|].
  intros l1 x l2 m1 Heq [Hnd Hap Hnu Hs He] HP.
  exists (<[500 := zlen l1 + 1]> m1). split; [|split].
  - unfold count_body, mbind, M_bind, ld, st. by rw HP HP.
  - assert (forall c, c <> 500 -> <[500 := zlen l1 + 1]> m1 !! c = m1 !! c) as Hc by (intros c Hc; by rw lookup_insert_ne).
    constructor; [done|done|done| |by rw Hc].
    cbn [hseg] in *. destruct Hs as (? & ? & ? & ? & ? & ? & _). split_and!; try done; by rw Hc.
  - rw lookup_insert_eq zlen_app //.
Defined.
