(* ===== verification/ListIter.v ===== *)
(** * The remaining macros of include/collections/list.h

    The iteration over the enclosing structures ([list_for_each_entry] and its
    variants) and the loops that are safe against removal.  [off] is the offset
    of the [list_head] in its structure; an entry is named by the structure's
    address.  [prefetch], which two loops call, has no effect. *)
From S2P Require Import Prelude CLib LinuxList.

Definition container_of (ptr off : Z) : Z := ptr - off.
Definition list_entry (ptr off : Z) : Z := container_of ptr off.
Definition list_first_entry (ptr off : Z) : M heap Z := n ← load ptr; mret (list_entry (next n) off).
Definition list_prepare_entry (pos head off : Z) : Z := if pos =? 0 then list_entry head off else pos.

Definition __list_for_each {A} (fuel : nat) (head : Z) (body : A -> Z -> A) (acc : A) : M heap A :=
  n ← load head; walk next fuel head (next n) body acc.

(** The loop of the entry macros, in the direction [step]. *)
Fixpoint walk_entry {A} (step : list_head -> Z) (fuel : nat) (head off pos : Z) (body : A -> Z -> A) (acc : A)
    : M heap A :=
  match fuel with
  | O => timeout
  | S fuel =>
    if pos + off =? head then mret acc
    else n ← load (pos + off); walk_entry step fuel head off (list_entry (step n) off) body (body acc pos)
  end.
Definition list_for_each_entry {A} (fuel : nat) (head off : Z) (body : A -> Z -> A) (acc : A) : M heap A :=
  n ← load head; walk_entry next fuel head off (list_entry (next n) off) body acc.
Definition list_for_each_entry_reverse {A} (fuel : nat) (head off : Z) (body : A -> Z -> A) (acc : A) : M heap A :=
  n ← load head; walk_entry prev fuel head off (list_entry (prev n) off) body acc.
Definition list_for_each_entry_continue {A} (fuel : nat) (pos head off : Z) (body : A -> Z -> A) (acc : A) : M heap A :=
  n ← load (pos + off); walk_entry next fuel head off (list_entry (next n) off) body acc.

(** The safe loops: [n] is the next position; the body acts on the heap. *)
Fixpoint walk_safe (fuel : nat) (head pos n : Z) (body : Z -> M heap ()) : M heap () :=
  match fuel with
  | O => timeout
  | S fuel =>
    if pos =? head then mret tt
    else _ ← body pos; p ← load n; walk_safe fuel head n (next p) body
  end.
Definition list_for_each_safe (fuel : nat) (head : Z) (body : Z -> M heap ()) : M heap () :=
  h ← load head; p ← load (next h); walk_safe fuel head (next h) (next p) body.

Fixpoint walk_entry_safe (step : list_head -> Z) (fuel : nat) (head off pos n : Z) (body : Z -> M heap ()) : M heap () :=
  match fuel with
  | O => timeout
  | S fuel =>
    if pos + off =? head then mret tt
    else _ ← body pos; p ← load (n + off);
         walk_entry_safe step fuel head off n (list_entry (step p) off) body
  end.
Definition list_for_each_entry_safe (fuel : nat) (head off : Z) (body : Z -> M heap ()) : M heap () :=
  h ← load head;
  let pos := list_entry (next h) off in
  p ← load (pos + off); walk_entry_safe next fuel head off pos (list_entry (next p) off) body.
Definition list_for_each_entry_safe_continue (fuel : nat) (pos head off : Z) (body : Z -> M heap ()) : M heap () :=
  h ← load (pos + off);
  let pos := list_entry (next h) off in
  p ← load (pos + off); walk_entry_safe next fuel head off pos (list_entry (next p) off) body.
Definition list_for_each_entry_safe_reverse (fuel : nat) (head off : Z) (body : Z -> M heap ()) : M heap () :=
  h ← load head;
  let pos := list_entry (prev h) off in
  p ← load (pos + off); walk_entry_safe prev fuel head off pos (list_entry (prev p) off) body.

(** ** Lemmas *)

(** The heads' loops and the entries' loops do the same, step by step. *)
Lemma walk_entry_walk {A} step fuel head off (body : A -> Z -> A) : forall pos acc h,
  walk_entry step fuel head off (list_entry pos off) body acc h =
  walk step fuel head pos (fun acc x => body acc (list_entry x off)) acc h.
Proof.
  induction fuel as [|fuel IH]; intros pos acc h; cbn [walk_entry walk]; [done|].
  unfold list_entry at 1 2, container_of. rw Z.sub_add. destruct (pos =? head); [done|].
  unfold mbind, M_bind. destruct (load pos h) as [[n h']| |]; [|done..]. apply IH.
Qed.

Lemma walk_entry_safe_walk fuel head off (body : Z -> M heap ()) : forall pos n h,
  walk_entry_safe next fuel head off (list_entry pos off) (list_entry n off) body h =
  walk_safe fuel head pos n (fun x => body (list_entry x off)) h.
Proof.
  induction fuel as [|fuel IH]; intros pos n h; cbn [walk_entry_safe walk_safe]; [done|].
  unfold list_entry at 1 3, container_of. rw !Z.sub_add. destruct (pos =? head); [done|].
  unfold mbind, M_bind. change (pos - off) with (list_entry pos off).
  destruct (body (list_entry pos off) h) as [[[] h1]| |]; [|done..].
  destruct (load n h1) as [[p h2]| |]; [|done..]. apply IH.
Qed.

(** Removing in the safe loop: [p] says which entries to remove. *)
Definition remove_if (p : Z -> bool) (x : Z) : M heap () := if p x then list_del x else mret tt.

Lemma dlist_next h head l1 x l2 : dlist h head (l1 ++ x :: l2) -> nx h x = Some (first_of head l2).
Proof.
  intros Hd. destruct (dlist_entry _ _ _ _ _ Hd) as (a & p & n & b & _ & Hb & _ & _ & _ & _ & _ & _ & Hn & _).
  rw Hn. destruct l2 as [|y l2]; by injection Hb as ->.
Qed.

Lemma dlist_load h head l x : dlist h head l -> x ∈ head :: l -> exists n, load x h = Ret (n, h).
Proof.
  intros Hd Hx. destruct (dlist_some _ _ _ _ Hd Hx) as [n Hn]. unfold load, nx in *.
  destruct (h !! x) as [v|]; [by exists v|done].
Qed.

Lemma walk_safe_filter head p l2 : forall l1 h fuel,
  dlist h head (l1 ++ l2) -> (length l2 < fuel)%nat ->
  forall n, (l2 <> [] -> n = first_of head (tail l2)) ->
  wp false (walk_safe fuel head (first_of head l2) n (remove_if p)) h (fun _ h' =>
    dlist h' head (l1 ++ filter (fun x => p x = false) l2)).
Proof.
  induction l2 as [|x l2 IH]; intros l1 h [|fuel] Hd Hf n Hn; cbn [walk_safe]; try (simpl in Hf; lia).
  { cbn. rw Z.eqb_refl. by apply wp_ret. }
  rw Hn //. cbn [tail]. change (first_of head (x :: l2)) with x.
  assert (x <> head) as Hxh.
  { intros ->. destruct Hd as [Hd _]. apply NoDup_cons in Hd as [Hd _]. apply Hd, elem_of_app. right. apply list_elem_of_here. }
  rw (proj2 (Z.eqb_neq x head)) //. apply wp_bind. unfold remove_if at 1.
  assert (forall h1 k, dlist h1 head (k ++ l2) ->
    wp false (p0 ← load (first_of head l2); walk_safe fuel head (first_of head l2) (next p0) (remove_if p)) h1
      (fun _ h' => dlist h' head (k ++ filter (fun x => p x = false) l2))) as Hrest.
  { intros h1 k Hk. destruct (dlist_load h1 head (k ++ l2) (first_of head l2) Hk) as [v Hv].
    { destruct l2; [apply list_elem_of_here|]. apply list_elem_of_further, elem_of_app. right. apply list_elem_of_here. }
    apply wp_bind. eapply wp_run; [exact Hv|]. apply IH; [done|simpl in Hf; lia|].
    intros Hne. destruct l2 as [|y l2]; [done|]. pose proof (dlist_next _ _ _ _ _ Hk) as Hnx.
    unfold load, nx in *. cbn in Hv. destruct (h1 !! y) as [u|]; [|done]. injection Hv as <-. by injection Hnx. }
  destruct (p x) eqn:Hp.
  - eapply wp_mono; [by apply list_del_spec|]. intros _ h1 (Hd1 & _).
    rw filter_cons_False; [by rw Hp|]. by apply Hrest.
  - apply wp_ret. rw filter_cons_True //.
    assert (forall k, l1 ++ x :: k = (l1 ++ [x]) ++ k) as Heq by by intros; rw -app_assoc.
    rw (Heq l2) in Hd. rw (Heq (filter _ l2)). by apply Hrest.
Qed.

(** ** Theorems *)

(** The entry macros are the plain loops over the embedded
    heads: on every heap, well formed or not, [list_for_each_entry], its reverse
    and its continuation do what [list_for_each], [list_for_each_prev] and a walk
    from the next node do, with each node replaced by its structure; and so for
    the safe loop. *)
Theorem entry_loops_equiv {A} fuel head off pos (body : A -> Z -> A) (act : Z -> M heap ()) acc h :
  let at_entry := fun acc x => body acc (list_entry x off) in
  list_for_each_entry fuel head off body acc h = list_for_each fuel head at_entry acc h /\
  list_for_each_entry_reverse fuel head off body acc h = list_for_each_prev fuel head at_entry acc h /\
  list_for_each_entry_continue fuel (list_entry pos off) head off body acc h =
    (n ← load pos; walk next fuel head (next n) at_entry acc) h /\
  list_for_each_entry_safe fuel head off act h =
    list_for_each_safe fuel head (fun x => act (list_entry x off)) h.
Proof.
  unfold list_for_each_entry, list_for_each, list_for_each_entry_reverse, list_for_each_prev,
    list_for_each_entry_continue, list_for_each_entry_safe, list_for_each_safe.
  unfold mbind, M_bind. split_and!.
  - destruct (load head h) as [[n h']| |]; [|done..]. apply walk_entry_walk.
  - destruct (load head h) as [[n h']| |]; [|done..]. apply walk_entry_walk.
  - unfold list_entry at 1, container_of. rw Z.sub_add.
    destruct (load pos h) as [[n h']| |]; [|done..]. apply walk_entry_walk.
  - destruct (load head h) as [[n h']| |]; [|done..]. cbv zeta.
    unfold list_entry at 1, container_of. rw Z.sub_add.
    destruct (load (next n) h') as [[q h2]| |]; [|done..]. apply walk_entry_safe_walk.
Qed.

(** C31 (termination): [list_for_each_safe] over a list of [n] entries ends
    after [n] rounds although its body takes entries out of the list: exactly the
    entries the body did not remove remain, in order. *)
Theorem list_for_each_safe_removes h head l p fuel :
  dlist h head l -> (length l < fuel)%nat ->
  exists h', list_for_each_safe fuel head (remove_if p) h = Ret (tt, h') /\
    dlist h' head (filter (fun x => p x = false) l).
Proof.
  intros Hd Hf.
  assert (wp false (list_for_each_safe fuel head (remove_if p)) h (fun _ h' =>
    dlist h' head (filter (fun x => p x = false) l))) as Hwp.
  2: { destruct (wp_total _ _ _ Hwp) as ([] & h' & ? & ?). by exists h'. }
  destruct (dlist_head _ _ _ Hd) as [Hn Hp]. unfold list_for_each_safe.
  apply wp_bind. eapply wp_load; [done|done|]. cbn [next].
  destruct (dlist_load h head l (first_of head l) Hd (first_of_in head l)) as [v Hv].
  apply wp_bind. eapply wp_run; [exact Hv|]. apply (walk_safe_filter head p l []); [done|done|].
  intros Hne. destruct l as [|x l]; [done|]. pose proof (dlist_next h head [] x l Hd) as Hnx.
  unfold load, nx in *. cbn in Hv. destruct (h !! x) as [u|]; [|done]. injection Hv as <-. by injection Hnx.
Qed.

(** A plain loop in which the body removes the current entry goes on
    at the poison. *)
Example plain_loop_poisoned :
  (_ ← list_del 1; n ← load 1; load (next n)) demo_heap = UB.
Proof. by vm_compute. Qed.

Lemma list_for_each_safe_removes_witness :
  exists h', list_for_each_safe 3 10 (remove_if (fun x => x =? 1)) demo_heap = Ret (tt, h') /\ dlist h' 10 [2].
Proof.
  apply (list_for_each_safe_removes demo_heap 10 [1; 2] (fun x => x =? 1) 3); [apply demo_list|simpl; lia].
Defined.
