(* ===== verification/Threads.v ===== *)
(** * The three threads of the server, interleaved

    The listening, reading and writing threads share one world.  A step is what
    a thread does between two points where another one can take over: taking
    a snapshot of the client list under the lock, handling one entry of a
    snapshot without it, accepting a connection.  A snapshot is a list of
    pointers and can outlive the clients it points to. *)
From Stdlib Require Import Strings.Byte String.
From S2P Require Import Prelude CLib Alloc Buffer Message ClientInfo Server.

Inductive reader :=
| RIdle                                 (* before [get_polling_and_client_list] *)
| RSnap (e : list (Z * Z))              (* before the debug block *)
| RPoll (e : list (Z * Z)) (k : nat).   (* [poll] has returned, entry [k] is next *)
Inductive writer :=
| WIdle                                 (* before [get_client_list] *)
| WFlush (l : list Z) (k : nat)
| WLogout (l : list Z) (k : nat)
| WWait                                 (* before the test of the sign *)
| WBlocked.                             (* in [pthread_cond_timedwait] *)

Record sys (S : Type) := mkSys {
  s_world : World S;
  s_reader : reader;
  s_writer : writer;
}.
Arguments mkSys {S}. Arguments s_world {S}. Arguments s_reader {S}. Arguments s_writer {S}.

(** Bytes arrive at a socket. *)
Definition receive (data : bytes) (f : fdesc) : fdesc :=
  mkFd (fd_in f ++ data) (fd_rplan f) (fd_out f) (fd_wplan f).

Section steps.
Context {S : Type} `{CacheModule S}.
Variable heap_after : Z -> bytes.
Variable behind : nat -> bytes.

(** The bodies of the two loops of the writing thread. *)
Definition flush_client (a : Z) : M (World S) () :=
  d ← get_client a;
  if u64 FAIL =? pub d then mret tt else _ ← flush a; mret tt.
Definition logout_client (a : Z) : M (World S) () :=
  d ← get_client a;
  if u64 FAIL =? pub d then user_logout heap_after a else mret tt.

Inductive step : sys S -> sys S -> Prop :=
| t_listen w r v id f peer now i1 i2 w' :
    handle_listen_turn id f peer now i1 i2 w = Ret (tt, w') ->
    step (mkSys w r v) (mkSys w' r v)
| t_data w r v id data :
    step (mkSys w r v) (mkSys (set_fds (alter (receive data) id (w_fds w)) w) r v)
| t_snapshot w v e n w' :
    get_polling_and_client_list w = Ret ((Some e, n), w') ->
    step (mkSys w RIdle v) (mkSys w' (RSnap e) v)
| t_debug w v e w' :
    debug_block e w = Ret (tt, w') -> step (mkSys w (RSnap e) v) (mkSys w' (RPoll e 0) v)
| t_client w v e k x revents w' :
    e !! k = Some x -> read_client heap_after behind x revents w = Ret (tt, w') ->
    step (mkSys w (RPoll e k) v) (mkSys w' (RPoll e (Datatypes.S k)) v)
| t_round w v e k : step (mkSys w (RPoll e k) v) (mkSys w RIdle v)
| t_list w r l n w' :
    get_client_list w = Ret ((Some l, n), w') -> step (mkSys w r WIdle) (mkSys w' r (WFlush l 0))
| t_flush w r l k a w' :
    l !! k = Some a -> flush_client a w = Ret (tt, w') ->
    step (mkSys w r (WFlush l k)) (mkSys w' r (WFlush l (Datatypes.S k)))
| t_flushed w r l k :
    (length l <= k)%nat -> step (mkSys w r (WFlush l k)) (mkSys w r (WLogout l 0))
| t_logout w r l k a w' :
    l !! k = Some a -> logout_client a w = Ret (tt, w') ->
    step (mkSys w r (WLogout l k)) (mkSys w' r (WLogout l (Datatypes.S k)))
| t_out w r l k :
    (length l <= k)%nat -> step (mkSys w r (WLogout l k)) (mkSys w r WWait)
| t_go w r : sign_to_flush_msg (w_server w) <> 0 -> step (mkSys w r WWait) (mkSys w r WIdle)
| t_block w r : sign_to_flush_msg (w_server w) = 0 -> step (mkSys w r WWait) (mkSys w r WBlocked)
| t_wake w r : step (mkSys w r WBlocked) (mkSys (set_server (set_sign 0 (w_server w)) w) r WIdle).

(** The start: the threads exist once a client has been accepted. *)
Definition started (w : World S) : sys S := mkSys w RIdle WIdle.

(** ** What the steps keep *)

(** [pres R m]: a run of [m] that returns is in [R]. *)
Definition pres {A} (R : World S -> World S -> Prop) (m : M (World S) A) : Prop :=
  forall w a w', m w = Ret (a, w') -> R w w'.

(** No client appears, disappears or changes its mark, [a] apart, and no client
    enters the list. *)
Definition keeps_but (a : option Z) (w w' : World S) : Prop :=
  w_next w' = w_next w /\ clients (w_server w') `sublist_of` clients (w_server w) /\
  forall b, a <> Some b -> match w_heap w !! b with
  | None => w_heap w' !! b = None
  | Some d => exists d', w_heap w' !! b = Some d' /\ pub d' = pub d
  end.
Definition keeps : World S -> World S -> Prop := keeps_but None.

(** The sign is raised by at most one. *)
Definition same_sign (w w' : World S) : Prop :=
  sign_to_flush_msg (w_server w') = sign_to_flush_msg (w_server w).
End steps.

(** What holds of the entries of a snapshot, [k] of them handled. *)
Record entries_ok {S} (w : World S) (e : list (Z * Z)) (k : nat) : Prop := {
  eo_distinct : NoDup (snd <$> e);
  eo_known : forall a, a ∈ snd <$> e -> a < w_next w;
  eo_live : forall j fd a, (k <= j)%nat -> e !! j = Some (fd, a) -> fd <> -1 ->
              exists d, w_heap w !! a = Some d /\ pub d = SUCC;
}.

Record threads_inv {S} (x : sys S) : Prop := {
  ti_list : NoDup (clients (w_server (s_world x)));
  ti_known : forall a, a ∈ clients (w_server (s_world x)) -> a < w_next (s_world x);
  ti_reader : match s_reader x with
              | RIdle => True
              | RSnap e => entries_ok (s_world x) e 0
              | RPoll e k => entries_ok (s_world x) e k
              end;
}.

(** ** Lemmas *)

Section lemmas.
Context {S : Type} `{CacheModule S}.
Variable heap_after : Z -> bytes.
Variable behind : nat -> bytes.

#[local] Instance keeps_preorder a : PreOrder (keeps_but (S := S) a).
Proof.
  split.
  - intros w. split_and!; [done..|]. intros b _. destruct (w_heap w !! b) as [d|]; [|done]. by exists d.
  - intros w1 w2 w3 (N1 & L1 & H1) (N2 & L2 & H2). split_and!; [congruence|by etrans|].
    intros b Hb. specialize (H1 b Hb).
    specialize (H2 b Hb). destruct (w_heap w1 !! b) as [d|].
    + destruct H1 as (d' & E1 & P1). rw E1 in H2. destruct H2 as (d2 & ? & ?). exists d2. split; [done|congruence].
    + by rw H1 in H2.
Qed.
#[local] Instance same_sign_preorder : PreOrder (same_sign (S := S)).
Proof. split; [by intros w|]. intros w1 w2 w3. unfold same_sign. congruence. Qed.

Lemma pres_ret {A} (R : World S -> World S -> Prop) `{!PreOrder R} (x : A) : pres R (mret x).
Proof. intros w a w' [= _ <-]. done. Qed.

Lemma pres_bind {A B} (R : World S -> World S -> Prop) `{!PreOrder R} (m : M (World S) A)
    (f : A -> M (World S) B) :
  pres R m -> (forall a, pres R (f a)) -> pres R (mbind f m).
Proof.
  intros Hm Hf w b w'. unfold mbind, M_bind. destruct (m w) as [[a w1]| |] eqn:Hw; [|done..].
  intros Hb. etrans; [by eapply Hm|by eapply Hf].
Qed.

Lemma pres_lift {A} (R : World S -> World S -> Prop) `{!PreOrder R} (o : outcome A) : pres R (lift o).
Proof. intros w a w'. unfold lift. by destruct o as [x| |]; [intros [= _ <-]|..]. Qed.
Lemma pres_getS (R : World S -> World S -> Prop) `{!PreOrder R} : pres R getS.
Proof. by intros w a w' [= _ <-]. Qed.
Lemma pres_server (R : World S -> World S -> Prop) `{!PreOrder R} : pres R server.
Proof. by intros w a w' [= _ <-]. Qed.
Lemma pres_get_client (R : World S -> World S -> Prop) `{!PreOrder R} a : pres R (get_client a).
Proof. intros w d w'. unfold get_client. destruct (w_heap w !! a); [|done]. by intros [= _ <-]. Qed.
Lemma pres_fail {A} (R : World S -> World S -> Prop) : pres R (undef : M (World S) A).
Proof. by intros w a w'. Qed.
Lemma pres_timeout {A} (R : World S -> World S -> Prop) : pres R (timeout : M (World S) A).
Proof. by intros w a w'. Qed.

(** Changes outside the heap. *)
Lemma keeps_on_mem {A} o (m : M S A) : pres (keeps_but o) (on_mem m).
Proof.
  intros w a w'. unfold on_mem. destruct (m (w_mem w)) as [[x s]| |]; [|done..]. intros [= _ <-].
  by apply (reflexivity (R := keeps_but o) w).
Qed.
Lemma keeps_put_fd o id f : pres (keeps_but (S := S) o) (put_fd id f).
Proof. intros w a w' [= _ <-]. by apply (reflexivity (R := keeps_but o) w). Qed.
Lemma keeps_close o id : pres (keeps_but (S := S) o) (close id).
Proof. intros w a w' [= _ <-]. by apply (reflexivity (R := keeps_but o) w). Qed.
Lemma keeps_bump o : pres (keeps_but (S := S) o) bump_sign.
Proof. intros w a w' [= _ <-]. by apply (reflexivity (R := keeps_but o) w). Qed.
Lemma sign_on_mem {A} (m : M S A) : pres same_sign (on_mem m).
Proof.
  intros w a w'. unfold on_mem. destruct (m (w_mem w)) as [[x s]| |]; [|done..]. by intros [= _ <-].
Qed.
Lemma sign_put_fd id f : pres (same_sign (S := S)) (put_fd id f).
Proof. by intros w a w' [= _ <-]. Qed.
Lemma sign_close id : pres (same_sign (S := S)) (close id).
Proof. by intros w a w' [= _ <-]. Qed.
Lemma sign_put_client a d : pres (same_sign (S := S)) (put_client a d).
Proof. by intros w x w' [= _ <-]. Qed.
Lemma sign_free_client a : pres (same_sign (S := S)) (free_client a).
Proof. by intros w x w' [= _ <-]. Qed.

(** A client written back with its mark. *)
Lemma keeps_update o (w : World S) a d d' :
  w_heap w !! a = Some d -> pub d' = pub d -> keeps_but o w (set_heap (<[a := d']> (w_heap w)) w).
Proof.
  intros Ha Hp. split_and!; [done..|]. intros b _. simpl. destruct (decide (b = a)) as [->|Hne].
  - rw Ha lookup_insert_eq. by exists d'.
  - rw lookup_insert_ne //. destruct (w_heap w !! b) as [db|]; [|done]. by exists db.
Qed.
End lemmas.

Create HintDb pres.
#[export] Hint Resolve pres_ret pres_lift pres_getS pres_server pres_get_client pres_fail pres_timeout
  keeps_on_mem keeps_put_fd keeps_close keeps_bump sign_on_mem sign_put_fd sign_close
  sign_put_client sign_free_client keeps_preorder same_sign_preorder : pres.
#[export] Existing Instances keeps_preorder same_sign_preorder.

(** [pres_auto]: follow the binds and branches of the program; the leaves are
    hints. *)
Ltac pres_auto :=
  repeat lazymatch goal with
  | |- pres _ (mbind _ _) => apply pres_bind; [typeclasses eauto| |intros ?]
  | |- pres _ (match ?x with _ => _ end) => destruct x
  | |- pres _ (let _ := _ in _) => cbv zeta
  | |- pres _ (_ (match ?x with _ => _ end)) => destruct x
  | |- pres _ _ => progress (eauto with pres)
  end.

Section programs.
Context {S : Type} `{CacheModule S}.
Variable heap_after : Z -> bytes.
Variable behind : nat -> bytes.

(** *** The calls on one client *)

Lemma send_msg_pub (d : ClientData) msg n (s : S) r d' s' :
  send_msg_to_client d msg n s = Ret ((r, d'), s') -> pub d' = pub d.
Proof.
  unfold send_msg_to_client, mbind, M_bind, mret, M_ret.
  destruct (write_into_buffer _ _ _ s) as [[[? ?] ?]| |]; [|done..]. by intros [= _ <- _].
Qed.
Lemma fetch_pub fd fion (d : ClientData) (s : S) r fd' d' s' :
  fetch_from_client fd fion d s = Ret ((r, fd', d'), s') -> pub d' = pub d.
Proof.
  unfold fetch_from_client, mbind, M_bind, mret, M_ret. destruct fion; [|by intros [= _ _ <- _]].
  destruct (read_into_buffer _ _ _ s) as [[[[? ?] ?] ?]| |]; [|done..]. by intros [= _ _ <- _].
Qed.
Lemma fetch_msg_pub ha (d : ClientData) (s : S) r om d' s' :
  fetch_msg_from_client ha d s = Ret ((r, om, d'), s') -> pub d' = pub d.
Proof.
  unfold fetch_msg_from_client, mbind, M_bind, mret, M_ret, lift.
  destruct (find_in_buffer _ _ _ _ _) as [i| |]; [|done..].
  destruct (i <? 0); [by intros [= _ _ <- _]|].
  destruct (read_from_buffer _ _ s) as [[[[? ?] ?] ?]| |]; [|done..]. by intros [= _ _ <- _].
Qed.
Lemma flush_pub fd (d : ClientData) (s : S) r fd' d' s' :
  flush_messages fd d s = Ret ((r, fd', d'), s') -> pub d' = pub d.
Proof.
  unfold flush_messages, mbind, M_bind, mret, M_ret. cbv zeta. destruct (0 <? _); [|by intros [= _ _ <- _]].
  destruct (write_from_buffer _ _ _ s) as [[[[? ?] ?] ?]| |]; [|done..]. by intros [= _ _ <- _].
Qed.
Lemma rename_pub d nm d' : update_client_name d nm = Ret d' -> pub d' = pub d.
Proof. unfold update_client_name. destruct (update_name nm); [|done..]. by intros [= <-]. Qed.

Lemma keeps_send o a msg n : pres (keeps_but (S := S) o) (send_msg a msg n).
Proof.
  intros w r w'. unfold send_msg, mbind, M_bind, get_client, on_mem, put_client, mret, M_ret.
  destruct (w_heap w !! a) as [d|] eqn:Ha; [|done].
  destruct (send_msg_to_client d msg n (w_mem w)) as [[[x d'] s]| |] eqn:Hs; [|done..]. intros [= _ <-].
  by apply (keeps_update o w a d d'), (send_msg_pub _ _ _ _ _ _ _ Hs).
Qed.
Lemma keeps_fetch o a : pres (keeps_but (S := S) o) (fetch a).
Proof.
  intros w r w'. unfold fetch, mbind, M_bind, get_client, getS, on_mem, put_fd, put_client, mret, M_ret.
  destruct (w_heap w !! a) as [d|] eqn:Ha; [|done].
  destruct (fetch_from_client _ _ d (w_mem w)) as [[[[x f] d'] s]| |] eqn:Hs; [|done..]. intros [= _ <-].
  by apply (keeps_update o w a d d'), (fetch_pub _ _ _ _ _ _ _ _ Hs).
Qed.
Lemma keeps_fetch_msg o a : pres (keeps_but (S := S) o) (fetch_msg heap_after a).
Proof.
  intros w r w'. unfold fetch_msg, mbind, M_bind, get_client, on_mem, put_client, mret, M_ret.
  destruct (w_heap w !! a) as [d|] eqn:Ha; [|done].
  destruct (fetch_msg_from_client _ d (w_mem w)) as [[[[x f] d'] s]| |] eqn:Hs; [|done..]. intros [= _ <-].
  by apply (keeps_update o w a d d'), (fetch_msg_pub _ _ _ _ _ _ _ Hs).
Qed.
Lemma keeps_flush o a : pres (keeps_but (S := S) o) (flush a).
Proof.
  intros w r w'. unfold flush, mbind, M_bind, get_client, getS, on_mem, put_fd, put_client, mret, M_ret.
  destruct (w_heap w !! a) as [d|] eqn:Ha; [|done].
  destruct (flush_messages _ d (w_mem w)) as [[[[x f] d'] s]| |] eqn:Hs; [|done..]. intros [= _ <-].
  by apply (keeps_update o w a d d'), (flush_pub _ _ _ _ _ _ _ Hs).
Qed.
Lemma keeps_login o a own after : pres (keeps_but (S := S) o) (user_login heap_after a own after).
Proof.
  unfold user_login. apply pres_bind; [typeclasses eauto|eauto with pres|intros own'].
  apply pres_bind; [typeclasses eauto|eauto with pres|intros p].
  intros w r w'. unfold mbind, M_bind, get_client, lift, put_client.
  destruct (w_heap w !! a) as [d|] eqn:Ha; [|done].
  destruct (update_client_name d (Some p)) as [d'| |] eqn:Hd; [|done..]. intros Hrun.
  etrans; [by apply (keeps_update o w a d d'), (rename_pub _ _ _ Hd)|]. by eapply keeps_on_mem.
Qed.
Lemma sign_send a msg n : pres (same_sign (S := S)) (send_msg a msg n).
Proof. unfold send_msg. pres_auto. Qed.
Lemma sign_fetch a : pres (same_sign (S := S)) (fetch a).
Proof. unfold fetch. pres_auto. Qed.
Lemma sign_fetch_msg a : pres (same_sign (S := S)) (fetch_msg heap_after a).
Proof. unfold fetch_msg. pres_auto. Qed.
Lemma sign_flush a : pres (same_sign (S := S)) (flush a).
Proof. unfold flush. pres_auto. Qed.
Lemma sign_login a own after : pres (same_sign (S := S)) (user_login heap_after a own after).
Proof. unfold user_login. pres_auto. Qed.
#[local] Hint Resolve keeps_send keeps_fetch keeps_fetch_msg keeps_flush keeps_login
  sign_send sign_fetch sign_fetch_msg sign_flush sign_login : pres.

(** *** Delivery and handling *)

Section generic.
Context (R : World S -> World S -> Prop) `{!PreOrder R}.
Hypothesis R_mem : forall A (m : M S A), pres R (on_mem m).
Hypothesis R_send : forall a msg n, pres R (send_msg a msg n).
Hypothesis R_fetch_msg : forall a, pres R (fetch_msg heap_after a).
Hypothesis R_login : forall a own after, pres R (user_login heap_after a own after).
#[local] Hint Resolve R_mem R_send R_fetch_msg R_login : pres.

Lemma pres_client_list : pres R get_client_list.
Proof using R_mem PreOrder0. unfold get_client_list. pres_auto. Qed.

Lemma pres_deliver_loop m to_all l index sent : pres R (deliver_loop m to_all l index sent).
Proof using R_mem R_send PreOrder0.
  revert sent. induction index as [|k index IH]; intros sent; cbn [deliver_loop]; pres_auto; apply IH.
Qed.
#[local] Hint Resolve pres_client_list pres_deliver_loop : pres.

Lemma pres_deliver m : pres R (deliver_msg_to_all_clients m).
Proof using R_mem R_send PreOrder0. unfold deliver_msg_to_all_clients. pres_auto. Qed.
#[local] Hint Resolve pres_deliver : pres.

Lemma pres_redirect a msg after : pres R (redirect heap_after a msg after).
Proof using R_mem R_login PreOrder0.
  unfold redirect. cbv zeta. apply pres_bind; [done|eauto with pres|intros login].
  destruct (bool_decide (login = Some 0)); [eauto with pres|].
  apply pres_bind; [done|eauto with pres|intros all].
  destruct (bool_decide (all = Some 0)); [destruct (at_offset _ _ _); pres_auto|].
  apply pres_bind; [done|eauto with pres|intros toc].
  destruct (bool_decide (toc = Some 0)); [|eauto with pres].
  apply pres_bind; [done|eauto with pres|intros [ind|]]; [|eauto with pres].
  apply pres_bind; [done|eauto with pres|intros [c|]]; [|eauto with pres].
  destruct (at_offset _ _ _). pres_auto.
Qed.
#[local] Hint Resolve pres_redirect : pres.

Lemma pres_handle_msg a msg after : pres R (handle_msg heap_after a msg after).
Proof using R_mem R_send R_login PreOrder0. unfold handle_msg. pres_auto. Qed.
#[local] Hint Resolve pres_handle_msg : pres.

Lemma pres_handle_loop fuel a i sz om need : pres R (handle_loop heap_after behind fuel a i sz om need).
Proof using R_mem R_send R_login R_fetch_msg PreOrder0.
  revert i sz om need. induction fuel as [|fuel IH]; intros i sz om need; cbn [handle_loop]; [eauto with pres|].
  destruct (0 <? sz); [|eauto with pres]. destruct om as [m|]; [|eauto with pres].
  apply pres_bind; [done|eauto with pres|intros n].
  apply pres_bind; [done|eauto with pres|intros [sz' om']]. apply IH.
Qed.

Lemma pres_logout_notice nm : pres R (logout_notice heap_after nm).
Proof using R_mem R_send PreOrder0. unfold logout_notice. pres_auto. Qed.
End generic.

Lemma pres_unlink (R : World S -> World S -> Prop) `{!PreOrder R} id l : pres R (unlink id l).
Proof. induction l as [|a l IH]; cbn [unlink]; pres_auto. Qed.

(** *** The bodies of the loops *)

#[local] Hint Extern 2 (pres _ (handle_loop _ _ _ _ _ _ _ _)) => apply pres_handle_loop : pres.
#[local] Hint Extern 2 (pres _ (logout_notice _ _)) => apply pres_logout_notice : pres.
#[local] Hint Extern 2 (pres _ (unlink _ _)) => apply pres_unlink : pres.

Lemma keeps_try o a : pres (keeps_but (S := S) o) (try_to_handle_msg heap_after behind a).
Proof. unfold try_to_handle_msg. pres_auto. Qed.
#[local] Hint Resolve keeps_try : pres.

(** Only the entry's own client may change its mark. *)
Lemma keeps_put_client a d : pres (keeps_but (S := S) (Some a)) (put_client a d).
Proof.
  intros w x w' [= _ <-]. split_and!; [done..|]. intros b Hb. simpl.
  rw lookup_insert_ne; [by intros ->|]. destruct (w_heap w !! b) as [db|]; [|done]. by exists db.
Qed.
Lemma keeps_free_client a : pres (keeps_but (S := S) (Some a)) (free_client a).
Proof.
  intros w x w' [= _ <-]. split_and!; [done..|]. intros b Hb. simpl.
  rw lookup_delete_ne; [by intros ->|]. destruct (w_heap w !! b) as [db|]; [|done]. by exists db.
Qed.
#[local] Hint Resolve keeps_put_client keeps_free_client : pres.

Lemma keeps_read_client fd a revents :
  pres (keeps_but (S := S) (Some a)) (read_client heap_after behind (fd, a) revents).
Proof. unfold read_client, mark_failed. pres_auto. Qed.

Lemma keeps_release a : pres (keeps_but (S := S) (Some a)) (release_client a).
Proof. unfold release_client. pres_auto. Qed.
#[local] Hint Resolve keeps_release : pres.

Lemma unlink_sublist id l (w : World S) r w' :
  unlink id l w = Ret (r, w') -> w' = w /\ forall l', r = Some l' -> l' `sublist_of` l.
Proof.
  revert r w'. induction l as [|a l IH]; intros r w'; cbn [unlink]; [by intros [= <- <-]|].
  unfold mbind, M_bind, get_client, mret, M_ret. destruct (w_heap w !! a) as [d|]; [|done].
  destruct (socket_id d =? id).
  - intros [= <- <-]. split; [done|]. intros l' [= <-]. by apply sublist_cons.
  - destruct (unlink id l w) as [[o w1]| |]; [|done..]. destruct (IH o w1 eq_refl) as [-> Hl].
    intros [= <- <-]. split; [done|]. intros l'. destruct o as [k|]; [|done]. intros [= <-].
    by apply sublist_skip, Hl.
Qed.

(** The second half of [user_logout], after the list has been changed. *)
Lemma keeps_logout_rest a d : pres (keeps_but (S := S) (Some a))
  (sent_count ← logout_notice heap_after (name d);
   _ ← close (socket_id d);
   _ ← release_client a;
   if sent_count =? 0 then mret tt else bump_sign).
Proof. pres_auto. Qed.

Lemma keeps_logout a : pres (keeps_but (S := S) (Some a)) (user_logout heap_after a).
Proof.
  intros w x w'. unfold user_logout. unfold mbind at 1, M_bind, server. unfold mbind at 1, M_bind, get_client.
  destruct (w_heap w !! a) as [d|] eqn:Ha; [|done]. unfold mbind at 1, M_bind.
  destruct (unlink (socket_id d) (clients (w_server w)) w) as [[ol w1]| |] eqn:Hl; [|done..].
  apply unlink_sublist in Hl as [-> Hl]. unfold mbind at 1, M_bind. destruct ol as [l|].
  - cbn [put_server]. intros Hrun. etrans; [|by eapply keeps_logout_rest]. split_and!; [done|by apply Hl|].
    intros b _. simpl. destruct (w_heap w !! b) as [db|]; [|done]. by exists db.
  - apply keeps_logout_rest.
Qed.

Lemma keeps_logout_client a : pres (keeps_but (S := S) (Some a)) (logout_client heap_after a).
Proof.
  unfold logout_client. apply pres_bind; [typeclasses eauto|eauto with pres|]. intros d.
  destruct (u64 FAIL =? pub d); [apply keeps_logout|eauto with pres].
Qed.
Lemma keeps_flush_client o a : pres (keeps_but (S := S) o) (flush_client a).
Proof. unfold flush_client. pres_auto. Qed.
Lemma keeps_debug o e : pres (keeps_but (S := S) o) (debug_block e).
Proof. induction e as [|[fd a] e IH]; cbn [debug_block]; pres_auto. Qed.
Lemma keeps_entries o l : pres (keeps_but (S := S) o) (polling_entries l).
Proof. induction l as [|a l IH]; cbn [polling_entries]; pres_auto. Qed.

(** *** The sign *)

(** It stays, or is raised by one. *)
Definition bumped (w w' : World S) : Prop :=
  sign_to_flush_msg (w_server w') = sign_to_flush_msg (w_server w) \/
  sign_to_flush_msg (w_server w') = i32 (sign_to_flush_msg (w_server w) + 1).

Lemma bumped_bind {A B} (m : M (World S) A) (f : A -> M (World S) B) :
  pres same_sign m -> (forall a, pres bumped (f a)) -> pres bumped (mbind f m).
Proof.
  intros Hm Hf w b w'. unfold mbind, M_bind. destruct (m w) as [[a w1]| |] eqn:Hw; [|done..].
  intros Hb%Hf. apply Hm in Hw. unfold bumped, same_sign in *. by rw Hw in Hb.
Qed.
Lemma bumped_same {A} (m : M (World S) A) : pres same_sign m -> pres bumped m.
Proof. intros Hm w a w' Hr. left. by eapply Hm. Qed.
Lemma bumped_bump : pres (S := S) bumped bump_sign.
Proof. intros w a w' [= _ <-]. by right. Qed.

Lemma bumped_after_sign (n : Z) : pres (S := S) bumped (if n =? 0 then mret tt else bump_sign).
Proof. destruct (n =? 0); [apply bumped_same; eauto with pres|apply bumped_bump]. Qed.

Lemma sign_try a : pres (S := S) bumped (try_to_handle_msg heap_after behind a).
Proof.
  unfold try_to_handle_msg. cbv zeta. apply bumped_bind; [eauto with pres|intros d].
  apply bumped_bind; [eauto with pres|intros [n om]]. apply bumped_bind; [eauto with pres|intros k].
  apply bumped_after_sign.
Qed.

Lemma sign_read_client e revents : pres (S := S) bumped (read_client heap_after behind e revents).
Proof.
  destruct e as [fd a]. unfold read_client. destruct (fd =? -1); [apply bumped_same; eauto with pres|].
  apply bumped_bind; [eauto with pres|intros d].
  destruct (negb _); [apply bumped_same; eauto with pres|].
  destruct (revents =? 0); [apply bumped_same; eauto with pres|].
  destruct (negb _); [|apply bumped_same; unfold mark_failed; pres_auto].
  apply bumped_bind; [eauto with pres|intros r]. cbv zeta.
  destruct (_ =? 0); [apply bumped_same; unfold mark_failed; pres_auto|apply sign_try].
Qed.

Lemma sign_logout a : pres (S := S) bumped (user_logout heap_after a).
Proof.
  intros w x w'. unfold user_logout. unfold mbind at 1, M_bind, server. unfold mbind at 1, M_bind, get_client.
  destruct (w_heap w !! a) as [d|] eqn:Ha; [|done]. unfold mbind at 1, M_bind.
  destruct (unlink (socket_id d) (clients (w_server w)) w) as [[ol w1]| |] eqn:Hl; [|done..].
  apply unlink_sublist in Hl as [-> _]. unfold mbind at 1, M_bind.
  assert (pres (S := S) bumped (sent_count ← logout_notice heap_after (name d);
    _ ← close (socket_id d); _ ← release_client a; if sent_count =? 0 then mret tt else bump_sign)) as Hrest.
  { apply bumped_bind; [eauto with pres|intros n]. apply bumped_bind; [eauto with pres|intros []].
    apply bumped_bind; [unfold release_client; pres_auto|intros r]. apply bumped_after_sign. }
  destruct ol as [l|]; [|apply Hrest]. by intros ?%Hrest.
Qed.

Lemma sign_logout_client a : pres (S := S) bumped (logout_client heap_after a).
Proof.
  unfold logout_client. apply bumped_bind; [eauto with pres|]. intros d.
  destruct (u64 FAIL =? pub d); [apply sign_logout|apply bumped_same; eauto with pres].
Qed.
Lemma sign_flush_client a : pres (same_sign (S := S)) (flush_client a).
Proof. unfold flush_client. pres_auto. Qed.
Lemma sign_debug e : pres (same_sign (S := S)) (debug_block e).
Proof. induction e as [|[fd a] e IH]; cbn [debug_block]; pres_auto. Qed.
Lemma sign_entries l : pres (same_sign (S := S)) (polling_entries l).
Proof. induction l as [|a l IH]; cbn [polling_entries]; pres_auto. Qed.

(** *** The snapshots *)

Lemma keeps_client_list o : pres (keeps_but (S := S) o) get_client_list.
Proof. apply pres_client_list; eauto with pres. Qed.
Lemma sign_client_list : pres (same_sign (S := S)) get_client_list.
Proof. apply pres_client_list; eauto with pres. Qed.
Lemma keeps_polling o : pres (keeps_but (S := S) o) get_polling_and_client_list.
Proof. unfold get_polling_and_client_list. pose proof keeps_entries. pres_auto. Qed.
Lemma sign_polling : pres (same_sign (S := S)) get_polling_and_client_list.
Proof. unfold get_polling_and_client_list. pose proof sign_entries. pres_auto. Qed.

(** The entries follow the list, and one with a socket is of a sound client. *)
Lemma polling_entries_spec l (w : World S) e w' :
  polling_entries l w = Ret (e, w') ->
  w' = w /\ snd <$> e = l /\
  forall fd a, (fd, a) ∈ e -> fd <> -1 -> exists d, w_heap w !! a = Some d /\ pub d = SUCC.
Proof.
  revert e w'. induction l as [|a l IH]; intros e w'; cbn [polling_entries].
  { intros [= <- <-]. split_and!; [done..|]. by intros fd a ?%not_elem_of_nil. }
  unfold mbind, M_bind, get_client, mret, M_ret. destruct (w_heap w !! a) as [d|] eqn:Ha; [|done].
  destruct (polling_entries l w) as [[r w1]| |]; [|done..]. destruct (IH r w1 eq_refl) as (-> & <- & He).
  intros [= <- <-]. split_and!; [done..|]. intros fd b [Heq|Hin]%elem_of_cons Hfd; [|by eapply He].
  injection Heq as -> ->. exists d. split; [done|]. by destruct (Z.eqb_spec (pub d) SUCC).
Qed.

Lemma polling_list_spec (w : World S) e n w' :
  get_polling_and_client_list w = Ret ((Some e, n), w') ->
  snd <$> e = clients (w_server w) /\ n = client_count (w_server w) /\
  forall fd a, (fd, a) ∈ e -> fd <> -1 -> exists d, w_heap w' !! a = Some d /\ pub d = SUCC.
Proof.
  unfold get_polling_and_client_list, server, on_mem, mbind, M_bind, mret, M_ret.
  destruct (cm_malloc _ (w_mem w)) as [[[b|] s]| |]; [|done..].
  unfold lift, copy_list. destruct (_ <=? _); [|done].
  set (w1 := set_mem s w). destruct (polling_entries _ w1) as [[e1 w2]| |] eqn:He; [|done..].
  apply polling_entries_spec in He as (-> & Hl & He). by intros [= <- <- <-].
Qed.

(** *** A new client *)

Lemma listen_run id f peer now i1 i2 (w w' : World S) :
  handle_listen_turn id f peer now i1 i2 w = Ret (tt, w') ->
  sign_to_flush_msg (w_server w') = sign_to_flush_msg (w_server w) /\
  (w_next w' = w_next w /\ w_heap w' = w_heap w /\ clients (w_server w') = clients (w_server w) \/
   w_next w' = w_next w + 1 /\ (forall b, b <> w_next w -> w_heap w' !! b = w_heap w !! b) /\
   (clients (w_server w') = clients (w_server w) \/
    clients (w_server w') = clients (w_server w) ++ [w_next w])).
Proof.
  unfold handle_listen_turn, accept_client, mret, M_ret. unfold mbind, M_bind, getS, putS, on_mem. cbv zeta.
  destruct (id <? 0).
  { intros [= <-]. split; [done|]. by left. }
  destruct (new_client_info _ _ _ _ _ _ _ _) as [[[d|] s]| |]; [| |done..].
  2: { intros [= <-]. split; [done|]. by left. }
  simpl. destruct (cm_malloc 24 s) as [[[b|] s1]| |]; [| |done..].
  - intros [= <-]. split; [done|]. right. simpl. split_and!; [done| |by right].
    intros c Hc. by rw lookup_insert_ne.
  - unfold release_client, mbind, M_bind, get_client. simpl. rw lookup_insert_eq. unfold on_mem.
    cbn [w_mem set_mem].
    match goal with |- context [?m s1] => destruct (m s1) as [[r s2]| |] end; [|done..].
    intros [= <-]. split; [done|]. right. simpl. split_and!; [done| |by left].
    intros c Hc. by rw lookup_delete_ne // lookup_insert_ne.
Qed.
End programs.
