(* ===== verification/ThreadTheorems.v ===== *)
(** * What the interleaving of the threads guarantees, and what it does not *)
From Stdlib Require Import Strings.Byte String.
From stdpp Require Import relations.
From S2P Require Import Prelude CLib Alloc Buffer Message ClientInfo Server Threads.
From S2P Require Import Cache BufferTheorems ClientTheorems ServerTheorems.

Section invariant.
Context {S : Type} `{CacheModule S}.
Variable heap_after : Z -> bytes.
Variable behind : nat -> bytes.
Abbreviation step := (step (S := S) heap_after behind).

(** Entries stay live while no client of theirs but handled ones is changed. *)
Lemma entries_keep o (w w' : World S) e k k' :
  entries_ok w e k -> (k <= k')%nat ->
  (forall j fd a, (k' <= j)%nat -> e !! j = Some (fd, a) -> fd <> -1 -> o <> Some a) ->
  keeps_but o w w' -> entries_ok w' e k'.
Proof.
  intros [Hd Hk Hl] Hkk Ho (Hn & _ & Hh). constructor; [done|by rw Hn|].
  intros j fd a Hj He Hfd. destruct (Hl j fd a) as (d & Ha & Hp); [lia|done..|].
  specialize (Hh a (Ho j fd a Hj He Hfd)). rw Ha in Hh. destruct Hh as (d' & ? & Hp').
  exists d'. by rw Hp'.
Qed.

Lemma list_keep o (w w' : World S) :
  keeps_but o w w' -> NoDup (clients (w_server w)) ->
  (forall a, a ∈ clients (w_server w) -> a < w_next w) ->
  NoDup (clients (w_server w')) /\ forall a, a ∈ clients (w_server w') -> a < w_next w'.
Proof.
  intros (Hn & Hl & _) Hnd Hk. split; [by eapply sublist_NoDup|].
  intros a Ha. rw Hn. apply Hk. by eapply elem_of_submseteq, sublist_submseteq.
Qed.

(** A step that keeps the clients keeps the invariant. *)
Lemma inv_keep (w w' : World S) r v v' :
  threads_inv (mkSys w r v) -> keeps w w' -> threads_inv (mkSys w' r v').
Proof.
  intros [Hl Hk Hr] Hw. pose proof (list_keep _ _ _ Hw Hl Hk) as [? ?]. constructor; [done..|].
  simpl in *. destruct r as [|e|e k]; [done|..]; by eapply (entries_keep None).
Qed.

(** The entry handled is the only one of the snapshot with its client. *)
Lemma read_client_keeps_entries (w w' : World S) e k x revents :
  entries_ok w e k -> e !! k = Some x -> read_client heap_after behind x revents w = Ret (tt, w') ->
  entries_ok w' e (Datatypes.S k).
Proof.
  intros He Hk Hrun. destruct x as [fd a]. apply (entries_keep (Some a) w w' e k); [done|lia| |].
  - intros j fd' b Hj Hb _ [= <-].
    assert (j = k); [|lia]. apply (NoDup_lookup (snd <$> e) j k a); [by destruct He|..];
      rw list_lookup_fmap ?Hb ?Hk //.
  - by eapply keeps_read_client.
Qed.

(** The client the writing thread removes is not one the reading thread polls. *)
Lemma logout_client_keeps_entries (w w' : World S) e k a :
  entries_ok w e k -> logout_client heap_after a w = Ret (tt, w') -> entries_ok w' e k.
Proof.
  intros He Hrun. pose proof (keeps_logout_client heap_after a w tt w' Hrun) as Hkeep.
  revert Hrun. unfold logout_client, mbind, M_bind, get_client. destruct (w_heap w !! a) as [d|] eqn:Ha; [|done].
  destruct (Z.eqb_spec (u64 FAIL) (pub d)) as [Hp|_]; [|intros [= <-]; done].
  intros _. apply (entries_keep (Some a) w w' e k); [done|lia| |done].
  intros j fd b Hj Hb Hfd [= <-]. destruct (eo_live _ _ _ He j fd a) as (d' & Hd' & Hs); [done..|].
  rw Ha in Hd'. injection Hd' as <-. by rw Hs in Hp.
Qed.

Lemma listen_inv id f peer now i1 i2 (w w' : World S) r v :
  handle_listen_turn id f peer now i1 i2 w = Ret (tt, w') ->
  threads_inv (mkSys w r v) -> threads_inv (mkSys w' r v).
Proof.
  intros (_ & [(Hn & Hh & Hl)|(Hn & Hh & Hl)])%listen_run [Hd Hk Hr]; simpl in *.
  - constructor; simpl; rw ?Hl ?Hn //. destruct r; [done|..]; (destruct Hr; constructor; by rw ?Hn ?Hh).
  - assert (forall e k, entries_ok w e k -> entries_ok w' e k) as He.
    { intros e k [He1 He2 He3]. constructor; [done| |].
      - intros a Ha%He2. lia.
      - intros j fd a Hj Hja Hfd. rw Hh; [|by eapply He3].
        assert (a < w_next w); [|lia]. apply He2. apply list_elem_of_fmap. exists (fd, a).
        split; [done|]. by eapply list_elem_of_lookup_2. }
    constructor; simpl; [destruct Hl as [->| ->]..|by destruct r; auto].
    + done.
    + apply NoDup_app. split_and!; [done| |by apply NoDup_singleton].
      intros a Ha%Hk ->%list_elem_of_singleton. lia.
    + intros a Ha%Hk. lia.
    + intros a [Ha%Hk| ->%list_elem_of_singleton]%elem_of_app; lia.
Qed.

Lemma snapshot_inv (w w' : World S) e n v :
  get_polling_and_client_list w = Ret ((Some e, n), w') ->
  threads_inv (mkSys w RIdle v) -> threads_inv (mkSys w' (RSnap e) v).
Proof.
  intros Hrun [Hl Hk _]. pose proof (keeps_polling None _ _ _ Hrun) as Hkeep.
  destruct (list_keep _ _ _ Hkeep Hl Hk) as [? ?]. apply polling_list_spec in Hrun as (He & _ & Hlive).
  simpl in *. constructor; [done..|]. simpl. constructor; rw ?He //.
  - destruct Hkeep as (-> & _). done.
  - intros j fd a _ Hj%list_elem_of_lookup_2 Hfd. by eapply Hlive.
Qed.

Lemma step_inv x y : step x y -> threads_inv x -> threads_inv y.
Proof.
  intros Hstep Hinv. destruct Hstep.
  - by eapply listen_inv.
  - apply (inv_keep w _ r v); [done|]. by apply (reflexivity (R := keeps_but None) w).
  - by eapply snapshot_inv.
  - assert (threads_inv (mkSys w' (RSnap e) v)) as [? ? ?]
      by (by eapply inv_keep; [|eapply keeps_debug]).
    by constructor.
  - pose proof Hinv as [Hl Hn ?]. destruct x as [fd a].
    pose proof (keeps_read_client heap_after behind fd a revents w tt w' H1) as Hk.
    destruct (list_keep _ _ _ Hk Hl Hn) as [? ?]. constructor; [done..|].
    by apply (read_client_keeps_entries w w' e k (fd, a) revents).
  - destruct Hinv. by constructor.
  - by eapply inv_keep; [|eapply keeps_client_list].
  - by eapply inv_keep; [|eapply keeps_flush_client].
  - destruct Hinv. by constructor.
  - pose proof Hinv as [Hl Hn ?]. pose proof (keeps_logout_client heap_after a w tt w' H1) as Hk.
    destruct (list_keep _ _ _ Hk Hl Hn) as [? ?]. constructor; [done..|].
    simpl in *. destruct r as [|e|e j]; [done|..]; by apply (logout_client_keeps_entries w w' e _ a).
  - destruct Hinv. by constructor.
  - destruct Hinv. by constructor.
  - destruct Hinv. by constructor.
  - apply (inv_keep w _ r WBlocked); [done|]. by apply (reflexivity (R := keeps_but None) w).
Qed.

(** The start has no snapshot: only the list matters. *)
Definition sound_start (w : World S) : Prop :=
  NoDup (clients (w_server w)) /\ forall a, a ∈ clients (w_server w) -> a < w_next w.

Lemma reachable_inv w x : sound_start w -> rtc step (started w) x -> threads_inv x.
Proof.
  intros [Hd Hk] Hr. assert (threads_inv (started w)) as Hinv by by constructor.
  induction Hr as [|x y z Hs Hr IH]; [done|]. by eapply IH, step_inv.
Qed.

(** The polling loop is safe: whatever the threads do between two
    clients, every entry that
    the reading thread has still to handle and that carries a socket is of a
    client that exists and has not been marked, so the loop itself never
    goes on to a client that the writing thread has released. *)
Theorem poll_loop_safe w x e k fd a :
  sound_start w -> rtc step (started w) x -> s_reader x = RPoll e k ->
  e !! k = Some (fd, a) -> fd <> -1 ->
  exists d, w_heap (s_world x) !! a = Some d /\ pub d = SUCC.
Proof.
  intros Hw Hx Hr Hk Hfd. destruct (reachable_inv w x Hw Hx) as [_ _ He]. rw Hr in He.
  by eapply eo_live.
Qed.

(** *** The sign *)

Definition waiting (x : sys S) : Prop := s_writer x = WBlocked.
Definition sign (x : sys S) : Z := sign_to_flush_msg (w_server (s_world x)).

Lemma step_sign x y : step x y -> ~ waiting x -> sign y = sign x \/ sign y = i32 (sign x + 1).
Proof.
  intros Hstep Hw. destruct Hstep; unfold sign; simpl; try by left.
  - left. by apply listen_run in H0 as [? _].
  - left. by eapply sign_polling.
  - left. by eapply sign_debug.
  - by eapply sign_read_client.
  - left. by eapply sign_client_list.
  - left. by eapply sign_flush_client.
  - by eapply sign_logout_client.
Qed.

Lemma step_waiting x y : step x y -> ~ waiting x -> sign x <> 0 -> ~ waiting y.
Proof. unfold waiting, sign. intros Hstep Hx Hs. by destruct Hstep. Qed.

(** C33 (liveness): Once a message has been queued (the sign is above zero) and the
    writing thread is not already waiting, it does not wait again for the next 2^31
    steps of the three threads, until the sign, an [int], overflows: in that time the
    sign is never cleared, so the thread turns without a pause. *)
Theorem writer_never_waits n x y :
  nsteps step n x y -> ~ waiting x -> 0 < sign x -> sign x + Z.of_nat n < 2 ^ 31 ->
  ~ waiting y /\ sign x <= sign y.
Proof.
  intros Hr. induction Hr as [|n x y z Hs Hr IH]; intros Hw Hp Hb; [done|].
  pose proof (step_waiting _ _ Hs Hw) as Hwy. pose proof (step_sign _ _ Hs Hw) as [Hy|Hy].
  - destruct IH as [? ?]; [apply Hwy; lia|lia..|]. split; [done|lia].
  - rw i32_small in Hy; [lia|]. destruct IH as [? ?]; [apply Hwy; lia|lia..|]. split; [done|lia].
Qed.
End invariant.

(** ** A concrete interleaving

    A client connects and closes; the reading thread marks it, takes its next
    snapshot, and the writing thread then logs the client out. *)
Definition race_world : World mem := mkWorld mem0 ∅ ∅ 1 (mkServer [] 0 1 0 0).
Definition ran {A} (m : M (World mem) A) (w : World mem) : World mem :=
  match m w with Ret (_, w') => w' | _ => w end.
Definition joined : World mem := ran (handle_listen_turn 5 no_fd (0, None, 999) 5 0 0) race_world.
Definition polled : World mem := ran get_polling_and_client_list joined.
Definition marked : World mem := ran (read_client behind (fun _ => [nul]) (5, 1) 17) polled.
Definition snapped : World mem := ran get_polling_and_client_list marked.
Definition listed : World mem := ran get_client_list snapped.
Definition removed : World mem := ran (logout_client behind 1) listed.

Abbreviation run_steps := (rtc (step behind (fun _ : nat => [nul]))).

Lemma run_to_poll : run_steps (started race_world) (mkSys polled (RPoll [(5, 1)] 0) WIdle).
Proof.
  eapply rtc_l; [apply (t_listen _ _ _ _ _ 5 no_fd (0, None, 999) 5 0 0 joined); by vm_compute|].
  eapply rtc_l; [apply (t_snapshot _ _ _ _ [(5, 1)] 1 polled); by vm_compute|].
  apply rtc_once, t_debug. by vm_compute.
Qed.

Lemma run_to_stale : run_steps (mkSys polled (RPoll [(5, 1)] 0) WIdle)
  (mkSys removed (RSnap [(-1, 1)]) (WLogout [1] 1)).
Proof.
  eapply rtc_l; [apply (t_client _ _ _ _ _ 0 (5, 1) 17 marked); by vm_compute|].
  eapply rtc_l; [apply t_round|].
  eapply rtc_l; [apply (t_snapshot _ _ _ _ [(-1, 1)] 1 snapped); by vm_compute|].
  eapply rtc_l; [apply (t_list _ _ _ _ [1] 1 listed); by vm_compute|].
  eapply rtc_l; [apply (t_flush _ _ _ _ [1] 0 1 listed); by vm_compute|].
  eapply rtc_l; [apply t_flushed; by vm_compute|].
  apply rtc_once, (t_logout _ _ _ _ [1] 0 1 removed); by vm_compute.
Qed.

(** A snapshot can outlive its clients: from a server without clients the
    threads can reach a state in which the reading thread is about to print its
    snapshot and the print reads a client that the writing thread has released
    (the build defines __DEBUG__, so the block is compiled in). *)
Theorem debug_block_use_after_free :
  exists x e, run_steps (started race_world) x /\ s_reader x = RSnap e /\
    debug_block e (s_world x) = UB.
Proof.
  eexists _, _. split; [etrans; [apply run_to_poll|apply run_to_stale]|]. split; [done|]. by vm_compute.
Qed.

Lemma race_start_sound : sound_start race_world.
Proof. split; [constructor|]. by intros a ?%not_elem_of_nil. Qed.

Lemma poll_loop_safe_witness :
  exists d, w_heap polled !! 1 = Some d /\ pub d = SUCC.
Proof.
  apply (poll_loop_safe behind (fun _ => [nul]) race_world (mkSys polled (RPoll [(5, 1)] 0) WIdle)
    [(5, 1)] 0 5 1); [apply race_start_sound|apply run_to_poll|done..].
Defined.

Definition signed : World mem := set_server (set_sign 1 (w_server joined)) joined.

Lemma writer_never_waits_witness :
  let y := mkSys (ran get_client_list signed) RIdle (WFlush [1] 0) in ~ waiting y /\ 1 <= sign y.
Proof.
  apply (writer_never_waits behind (fun _ => [nul]) 2 (mkSys signed RIdle WWait)); [|done..].
  eapply nsteps_l; [by apply t_go|]. eapply nsteps_l; [|constructor].
  apply (t_list _ _ _ _ [1] 1). by vm_compute.
Defined.
