(* ===== verification/Interleave.v ===== *)
(** * The threads, action by action

    Threads.v takes the handling of one client as one step.  Here a thread is a
    sequence of actions, each what it does without another thread in between: a
    section under a lock ([get_client_list], [send_msg_to_client],
    [flush_messages], the requests to the pool), or one access to a client object.
    So a delivery can be interrupted between two clients of its snapshot. *)
From Stdlib Require Import Strings.Byte String.
From S2P Require Import Prelude CLib Alloc Buffer Message ClientInfo Server.

Inductive prog (S A : Type) : Type :=
| Done (a : A)
| Act (X : Type) (m : M (World S) X) (k : X -> prog S A).
Arguments Done {S A} a.
Arguments Act {S A X} m k.

Fixpoint prog_bind {S A B : Type} (f : A -> prog S B) (p : prog S A) : prog S B :=
  match p with
  | Done a => f a
  | Act m k => Act m (fun x => prog_bind f (k x))
  end.
#[global] Instance prog_ret S : MRet (prog S) := fun A => Done.
#[global] Instance prog_mbind S : MBind (prog S) := fun A B => prog_bind.
Definition act {S A} (m : M (World S) A) : prog S A := Act m Done.

(** The run that nothing interrupts. *)
Fixpoint run {S A} (p : prog S A) : M (World S) A :=
  match p with
  | Done a => mret a
  | Act m k => x ← m; run (k x)
  end.

(** One action. *)
Definition pstep {S A} (p : prog S A) (w : World S) : outcome (prog S A * World S) :=
  match p with
  | Done a => Ret (Done a, w)
  | Act m k => '(x, w') ← m w; Ret (k x, w')
  end.
Definition finished {S A} (p : prog S A) : Prop := match p with Done _ => True | Act _ _ => False end.

Section threads.
Context {S : Type} `{CacheModule S}.
Variable heap_after : Z -> bytes.
Variable behind : nat -> bytes.
Abbreviation prog := (prog S).

(** ** Delivery *)

Fixpoint deliver_visits (msg : Msg) (to_all : bool) (l : list Z) (index : list nat)
    (sent_count : Z) : prog Z :=
  match index with
  | [] => mret sent_count
  | k :: rest =>
    a ← act (lift (entry l k));
    d ← act (get_client a);
    if u64 FAIL =? pub d then deliver_visits msg to_all l rest sent_count
    else
      d ← act (get_client a);
      skip ← act (lift (filter_out msg (name d)));
      if skip =? SUCC then deliver_visits msg to_all l rest sent_count
      else
        hit ← (if to_all then mret true
               else d ← act (get_client a); t ← act (lift (is_target msg (name d))); mret (t =? SUCC));
        if hit : bool then
          _ ← act (send_msg a (content msg) (size msg));
          deliver_visits msg to_all l rest (i32 (sent_count + 1))
        else deliver_visits msg to_all l rest sent_count
  end.

Definition deliver (msg : Msg) : prog Z :=
  '(ol, items) ← act get_client_list;
  t ← act (lift (is_msg_to_all msg));
  deliver_visits msg (t =? SUCC) (default [] ol) (seq 0 (Z.to_nat items)) 0.

(** ** The reading thread *)

Definition handle (a : Z) (msg after : bytes) : prog Z :=
  redirect_msg ← act (redirect heap_after a msg after);
  match redirect_msg with
  | None => mret 0
  | Some m => deliver m
  end.

Fixpoint handle_msgs (fuel : nat) (a : Z) (i : nat) (msg_size : Z) (msg : option bytes)
    (need_to_flush_msg : Z) : prog Z :=
  match fuel with
  | O => act timeout
  | Datatypes.S fuel =>
    if 0 <? msg_size then
      match msg with
      | None => act undef
      | Some m =>
        n ← handle a m (behind i);
        '(msg_size, msg) ← act (fetch_msg heap_after a);
        handle_msgs fuel a (Datatypes.S i) msg_size msg (i32 (need_to_flush_msg + n))
      end
    else mret need_to_flush_msg
  end.

Definition try_to_handle (a : Z) : prog () :=
  d ← act (get_client a);
  let fuel := Datatypes.S (Z.to_nat (buffer_size (reading_buffer d))) in
  '(msg_size, msg) ← act (fetch_msg heap_after a);
  need ← handle_msgs (Datatypes.S fuel) a 0 msg_size msg 0;
  if need =? 0 then mret tt else act bump_sign.

Definition read_entry (e : Z * Z) (revents : Z) : prog () :=
  let '(fd, a) := e in
  if fd =? -1 then mret tt
  else
    d ← act (get_client a);
    if negb (fd =? socket_id d) then mret tt
    else if revents =? 0 then mret tt
    else if negb (Z.land revents POLLIN =? 0) then
      r ← act (fetch a);
      let fetch_count := i32 r in
      if fetch_count =? 0 then act (mark_failed a) else try_to_handle a
    else act (mark_failed a).

Fixpoint read_entries (l : list (Z * Z)) (revents : list Z) (index : list nat) : prog () :=
  match index with
  | [] => mret tt
  | k :: rest =>
    e ← act (lift (entry l k));
    _ ← read_entry e (default 0 (revents !! k));
    read_entries l revents rest
  end.

Fixpoint debug_prints (l : list (Z * Z)) : prog () :=
  match l with
  | [] => mret tt
  | (_, a) :: rest => _ ← act (get_client a); debug_prints rest
  end.

Definition read_turn (poll : list Z -> Z * list Z) : prog bool :=
  '(oe, items) ← act get_polling_and_client_list;
  match oe with
  | None => mret false
  | Some e =>
    _ ← debug_prints e;
    let '(ret, revents) := poll (fst <$> e) in
    _ ← (if (ret =? FAIL) || (ret =? SUCC) then mret tt
         else read_entries e revents (seq 0 (Z.to_nat items)));
    i ← act server;
    mret (negb (is_running i =? 0))
  end.

(** ** The writing thread *)

(** The first section of [user_logout], under the lock of the list. *)
Definition take_out (a : Z) : M (World S) () :=
  i ← server;
  d ← get_client a;
  ol ← unlink (socket_id d) (clients i);
  match ol with
  | None => mret tt
  | Some l => put_server (set_clients l (i32 (client_count i - 1)) i)
  end.

Definition logout_delivery (nm : bytes) : prog Z :=
  sn ← act (lift (cstr nm));
  let msg_size := i32 (zlen sn + zlen (bs MSG_LOGOUT_SUFFIX) + 2) in
  oc ← act (on_mem (cm_get msg_size));
  match oc with
  | None => mret 0
  | Some c =>
    b ← act (lift (store_cstr (sn ++ bs " " ++ bs MSG_LOGOUT_SUFFIX) (buff c)));
    om ← act (on_mem (create_sys_msg_base_on_content (Some (lit CMD_TO_ALL)) b (heap_after (cid c))));
    sent ← match om with
           | None => mret 0
           | Some m =>
             e ← act (lift (strcpy (exclude m) nm));
             deliver (mkMsg (target m) e (size m) (content m))
           end;
    _ ← act (on_mem (cm_recycle (mkCache (cid c) (allocated_size c) (cache_size c) b)));
    mret sent
  end.

Definition logout (a : Z) : prog () :=
  _ ← act (take_out a);
  d ← act (get_client a);
  sent_count ← logout_delivery (name d);
  _ ← act (close (socket_id d));
  _ ← act (release_client a);
  if sent_count =? 0 then mret tt else act bump_sign.

Fixpoint flush_visits (l : list Z) (index : list nat) : prog () :=
  match index with
  | [] => mret tt
  | k :: rest =>
    a ← act (lift (entry l k));
    d ← act (get_client a);
    _ ← (if u64 FAIL =? pub d then mret 0 else act (flush a));
    flush_visits l rest
  end.

Fixpoint logout_visits (l : list Z) (index : list nat) : prog () :=
  match index with
  | [] => mret tt
  | k :: rest =>
    a ← act (lift (entry l k));
    d ← act (get_client a);
    _ ← (if u64 FAIL =? pub d then logout a else mret tt);
    logout_visits l rest
  end.

(** The wait releases the lock, so the sign is cleared in another action than
    the one that tests it. *)
Definition clear_sign : M (World S) () := i ← server; put_server (set_sign 0 i).
Definition wait : prog bool :=
  i ← act server;
  _ ← (if sign_to_flush_msg i =? 0 then act clear_sign else mret tt);
  i ← act server;
  mret (negb (is_running i =? 0)).

Definition write_turn : prog bool :=
  '(ol, items) ← act get_client_list;
  match ol with
  | None => mret false
  | Some l =>
    _ ← flush_visits l (seq 0 (Z.to_nat items));
    _ ← logout_visits l (seq 0 (Z.to_nat items));
    wait
  end.

(** ** The threads together *)

Record threads := mkThreads {
  t_world : World S;
  t_reader : prog bool;
  t_writer : prog bool;
}.

(** A connection is one step: nobody knows the client before it is in the list.
    [accept] returns a descriptor that is not open. *)
Inductive move : threads -> threads -> Prop :=
| m_listen w r v id f peer now i1 i2 w' :
    w_fds w !! id = None -> handle_listen_turn id f peer now i1 i2 w = Ret (tt, w') ->
    move (mkThreads w r v) (mkThreads w' r v)
| m_data w r v id f f' :
    w_fds w !! id = Some f -> move (mkThreads w r v) (mkThreads (set_fds (<[id := f']> (w_fds w)) w) r v)
| m_read w r v r' w' :
    ~ finished r -> pstep r w = Ret (r', w') -> move (mkThreads w r v) (mkThreads w' r' v)
| m_read_turn w v poll : move (mkThreads w (Done true) v) (mkThreads w (read_turn poll) v)
| m_write w r v v' w' :
    ~ finished v -> pstep v w = Ret (v', w') -> move (mkThreads w r v) (mkThreads w' r v')
| m_write_turn w r : move (mkThreads w r (Done true)) (mkThreads w r write_turn).

Definition threads_start (w : World S) : threads := mkThreads w (Done true) (Done true).

(** An access to a released client: undefined, and it would not be if the heap
    still held the object. *)
Definition use_after_free (p : prog bool) (w : World S) : Prop :=
  pstep p w = UB /\ exists h, w_heap w ⊆ h /\ pstep p (set_heap h w) <> UB.

(** ** The actions are the handlers *)

Lemma run_bind {A B} (p : prog A) (f : A -> prog B) w :
  run (p ≫= f) w = (run p ≫= (fun a => run (f a))) w.
Proof.
  revert w. induction p as [a|X m k IH]; intros w; [done|]. cbn. unfold mbind, M_bind.
  destruct (m w) as [[x w1]| |]; [|done..]. apply IH.
Qed.

Lemma bind_same {A B} (m m' : M (World S) A) (f f' : A -> M (World S) B) w :
  m w = m' w -> (forall a w', m' w = Ret (a, w') -> f a w' = f' a w') -> (m ≫= f) w = (m' ≫= f') w.
Proof. intros Hm Hf. unfold mbind, M_bind. rw Hm. destruct (m' w) as [[a w1]| |]; [by apply Hf|done..]. Qed.

Lemma run_act {A B} (m : M (World S) A) (f : A -> prog B) w :
  run (act m ≫= f) w = (m ≫= (fun a => run (f a))) w.
Proof. done. Qed.

Lemma lift_world {A} (o : outcome A) (w : World S) a w' : lift o w = Ret (a, w') -> w' = w.
Proof. unfold lift. destruct o; [|done..]. by intros [= _ <-]. Qed.

Lemma run_single {A} (m : M (World S) A) w : run (act m) w = m w.
Proof. cbn. unfold mbind, M_bind, mret, M_ret. by destruct (m w) as [[a w1]| |]. Qed.

(** A client read again is the same. *)
Lemma get_client_again {B} a (f : ClientData -> prog B) w w' d :
  get_client a w = Ret (d, w') -> run (act (get_client a) ≫= f) w' = run (f d) w'.
Proof.
  rw run_act. unfold mbind, M_bind, get_client. destruct (w_heap w !! a) eqn:Ha; [|done].
  intros [= <- <-]. by rw Ha.
Qed.

End threads.

(** [run_auto]: follow a program and its handler in step. *)
Ltac run_auto :=
  repeat lazymatch goal with
  | |- run (act ?m ≫= _) ?w = mbind _ ?m ?w => rw run_act; apply bind_same; [done|intros ???]
  | |- run (act ?m) ?w = ?m ?w => apply run_single
  | |- run (_ ≫= _) ?w = mbind _ _ ?w => rw run_bind; apply bind_same; [|intros ???]
  | |- run (let '(_, _) := ?x in _) _ = _ => destruct x
  | |- run (match ?x with _ => _ end) _ = _ => destruct x
  | |- run (mret _) _ = mret _ _ => done
  end.

Section equal.
Context {S : Type} `{CacheModule S}.
Variable heap_after : Z -> bytes.
Variable behind : nat -> bytes.

Lemma run_visits msg to_all l index sent (w : World S) :
  run (deliver_visits msg to_all l index sent) w = deliver_loop msg to_all l index sent w.
Proof.
  revert sent w. induction index as [|k index IH]; intros sent w; cbn [deliver_visits deliver_loop]; [done|].
  run_auto; [apply IH|]. rw (get_client_again _ _ _ _ _ ltac:(eassumption)).
  run_auto; [apply IH| |apply IH..].
  match goal with E : lift (filter_out _ _) _ = _ |- _ => apply lift_world in E as -> end.
  rw (get_client_again _ _ _ _ _ ltac:(eassumption)). run_auto.
Qed.

Lemma run_deliver msg (w : World S) : run (deliver msg) w = deliver_msg_to_all_clients msg w.
Proof. unfold deliver, deliver_msg_to_all_clients. run_auto. apply run_visits. Qed.

Lemma run_handle a msg after (w : World S) :
  run (handle heap_after a msg after) w = handle_msg heap_after a msg after w.
Proof. unfold handle, handle_msg. run_auto. apply run_deliver. Qed.

Lemma run_handle_msgs fuel a i n om need (w : World S) :
  run (handle_msgs heap_after behind fuel a i n om need) w = handle_loop heap_after behind fuel a i n om need w.
Proof.
  revert i n om need w. induction fuel as [|fuel IH]; intros i n om need w; cbn [handle_msgs handle_loop]; run_auto.
  - apply run_handle.
  - apply IH.
Qed.

Lemma run_try a (w : World S) : run (try_to_handle heap_after behind a) w = try_to_handle_msg heap_after behind a w.
Proof. unfold try_to_handle, try_to_handle_msg. run_auto. apply run_handle_msgs. Qed.

Lemma run_read_entry e revents (w : World S) :
  run (read_entry heap_after behind e revents) w = read_client heap_after behind e revents w.
Proof. unfold read_entry, read_client. run_auto. apply run_try. Qed.

Lemma run_read_entries l revents index (w : World S) :
  run (read_entries heap_after behind l revents index) w = read_clients heap_after behind l revents index w.
Proof.
  revert w. induction index as [|k index IH]; intros w; cbn [read_entries read_clients]; run_auto.
  - apply run_read_entry.
  - apply IH.
Qed.

Lemma run_debug l (w : World S) : run (debug_prints l) w = debug_block l w.
Proof. revert w. induction l as [|[fd a] l IH]; intros w; cbn [debug_prints debug_block]; run_auto. apply IH. Qed.

Lemma run_read_turn poll (w : World S) :
  run (read_turn heap_after behind poll) w = read_sockets_turn heap_after behind poll w.
Proof. unfold read_turn, read_sockets_turn. run_auto; [apply run_debug|apply run_read_entries]. Qed.

Lemma run_logout_delivery nm (w : World S) : run (logout_delivery heap_after nm) w = logout_notice heap_after nm w.
Proof. unfold logout_delivery, logout_notice. cbv zeta. run_auto. apply run_deliver. Qed.

Lemma unlink_world id l (w : World S) r w' : unlink id l w = Ret (r, w') -> w' = w.
Proof.
  revert r w'. induction l as [|a l IH]; intros r w'; cbn [unlink]; [by intros [= _ <-]|].
  unfold mbind, M_bind, get_client, mret, M_ret. destruct (w_heap w !! a); [|done].
  destruct (_ =? _); [by intros [= _ <-]|]. destruct (unlink id l w) as [[x w1]| |]; [|done..].
  intros [= _ <-]. by eapply IH.
Qed.

Lemma take_out_bind {B} a (f : () -> M (World S) B) (g : ClientData -> M (World S) B) (w : World S) :
  (forall d w1, w_heap w !! a = Some d -> w_heap w1 = w_heap w -> f tt w1 = g d w1) ->
  (take_out a ≫= f) w =
  (i ← server; d ← get_client a; ol ← unlink (socket_id d) (clients i);
   _ ← match ol with
       | None => mret tt
       | Some l => put_server (set_clients l (i32 (client_count i - 1)) i)
       end;
   g d) w.
Proof.
  intros Hfg. unfold take_out, mbind, M_bind, server, get_client. destruct (w_heap w !! a) as [d|]; [|done].
  destruct (unlink (socket_id d) (clients (w_server w)) w) as [[ol w1]| |] eqn:Hu; [|done..].
  apply unlink_world in Hu as ->. destruct ol as [l|]; by apply Hfg.
Qed.

Lemma run_logout a (w : World S) : run (logout heap_after a) w = user_logout heap_after a w.
Proof.
  unfold logout, user_logout. rw run_act. apply take_out_bind. intros d w1 Hd Hw1.
  rw run_act. unfold mbind at 1, M_bind, get_client. rw Hw1 Hd. run_auto. apply run_logout_delivery.
Qed.

Lemma run_flush_visits l index (w : World S) : run (flush_visits l index) w = flush_clients l index w.
Proof.
  revert w. induction index as [|k index IH]; intros w; cbn [flush_visits flush_clients]; run_auto. apply IH.
Qed.

Lemma run_logout_visits l index (w : World S) :
  run (logout_visits heap_after l index) w = logout_clients heap_after l index w.
Proof.
  revert w. induction index as [|k index IH]; intros w; cbn [logout_visits logout_clients]; run_auto.
  - apply run_logout.
  - apply IH.
Qed.

Lemma run_wait (w : World S) : run wait w = write_wait w.
Proof.
  unfold wait, write_wait. rw run_act. unfold mbind at 1 4, M_bind, server at 1 3.
  by destruct (sign_to_flush_msg (w_server w) =? 0).
Qed.

Lemma run_write_turn (w : World S) : run (write_turn heap_after) w = write_sockets_turn heap_after w.
Proof.
  unfold write_turn, write_sockets_turn. run_auto;
    [apply run_flush_visits|apply run_logout_visits|apply run_wait].
Qed.
End equal.
