(* ===== verification/InterleaveTheorems.v ===== *)
(** * Rely and guarantee: what the fine interleaving keeps

    The listening and reading threads never release a client that another thread
    can know.  So everything the writing thread reads stays alive, by a small
    rely-guarantee logic over its actions; the reading thread has no such luck. *)
From Stdlib Require Import Strings.Byte String.
From stdpp Require Import relations.
From S2P Require Import Prelude CLib Alloc Buffer Message ClientInfo Server ServerTurns Threads Interleave.
From S2P Require Import Cache BufferTheorems ClientTheorems ServerTheorems ThreadTheorems.

(** ** The invariant and the rely *)

Section rely.
Context {S : Type}.

(** The clients of the list exist, each has an open socket of its own, and no
    address has been handed out beyond [w_next]. *)
Record listed (w : World S) : Prop := {
  li_nodup : NoDup (clients (w_server w));
  li_live : forall a, a ∈ clients (w_server w) ->
    exists d, w_heap w !! a = Some d /\ is_Some (w_fds w !! socket_id d);
  li_sockets : forall a b d db, a ∈ clients (w_server w) -> b ∈ clients (w_server w) ->
    w_heap w !! a = Some d -> w_heap w !! b = Some db -> socket_id d = socket_id db -> a = b;
  li_next : forall a d, w_heap w !! a = Some d -> a < w_next w;
}.

(** Same list, same addresses and sockets: what the actions on the buffers, the
    names, the marks and the sign change is not seen here. *)
Definition alike (w w' : World S) : Prop :=
  clients (w_server w') = clients (w_server w) /\ w_next w' = w_next w /\
  (forall id, is_Some (w_fds w' !! id) <-> is_Some (w_fds w !! id)) /\
  forall a, socket_id <$> w_heap w' !! a = socket_id <$> w_heap w !! a.

#[global] Instance alike_preorder : PreOrder alike.
Proof.
  split; [by intros w|]. intros w1 w2 w3 (A1 & A2 & A3 & A4) (B1 & B2 & B3 & B4).
  split_and!; [congruence..| |congruence]. intros id. by rw B3.
Qed.

(** What the other two threads do to what the writing thread knows. *)
Record others (w w' : World S) : Prop := {
  ot_listed : listed w';
  ot_clients : exists new, clients (w_server w') = clients (w_server w) ++ new /\
    forall b, b ∈ new -> w_heap w !! b = None /\
      exists d, w_heap w' !! b = Some d /\ w_fds w !! socket_id d = None;
  ot_fds : forall id, is_Some (w_fds w !! id) -> is_Some (w_fds w' !! id);
  ot_heap : forall a d, w_heap w !! a = Some d ->
    exists d', w_heap w' !! a = Some d' /\ socket_id d' = socket_id d;
}.

Lemma alike_heap w w' a d : alike w w' -> w_heap w !! a = Some d ->
  exists d', w_heap w' !! a = Some d' /\ socket_id d' = socket_id d.
Proof.
  intros (_ & _ & _ & Hh) Ha. specialize (Hh a). rw Ha in Hh.
  destruct (w_heap w' !! a) as [d'|]; [|done]. injection Hh as Hs. by exists d'.
Qed.
Lemma alike_back w w' a d' : alike w w' -> w_heap w' !! a = Some d' ->
  exists d, w_heap w !! a = Some d /\ socket_id d = socket_id d'.
Proof.
  intros (_ & _ & _ & Hh) Ha. specialize (Hh a). rw Ha in Hh.
  destruct (w_heap w !! a) as [d|]; [|done]. injection Hh as Hs. by exists d.
Qed.

Lemma alike_listed w w' : alike w w' -> listed w -> listed w'.
Proof.
  intros Hw [Hnd Hlive Hsock Hnext]. pose proof Hw as (Hc & Hn & Hf & _). constructor; rw ?Hc ?Hn //.
  - intros a Ha. destruct (Hlive a Ha) as (d & Hd & Ho). destruct (alike_heap _ _ _ _ Hw Hd) as (d' & ? & Hs).
    exists d'. split; [done|]. rw Hs. by apply Hf.
  - intros a b d db Ha Hb Hd Hdb Hs. destruct (alike_back _ _ _ _ Hw Hd) as (d0 & ? & ?).
    destruct (alike_back _ _ _ _ Hw Hdb) as (d1 & ? & ?). eapply (Hsock a b d0 d1); try done. congruence.
  - intros a d Hd. destruct (alike_back _ _ _ _ Hw Hd) as (d0 & ? & ?). by eapply Hnext.
Qed.

Lemma alike_others w w' : alike w w' -> listed w -> others w w'.
Proof.
  intros Hw Hl. pose proof Hw as (Hc & Hn & Hf & _). constructor.
  - by eapply alike_listed.
  - exists []. rw app_nil_r. split; [done|]. by intros b ?%not_elem_of_nil.
  - intros id. apply Hf.
  - intros a d. by apply alike_heap.
Qed.

(** ** The logic *)

(** An assertion that the others keep, and that has the invariant. *)
Definition stable (P : World S -> Prop) : Prop := forall w w', P w -> others w w' -> P w'.
Definition known (P : World S -> Prop) : Prop := stable P /\ forall w, P w -> listed w.

(** Not undefined for want of a client. *)
Definition no_uaf {A} (m : M (World S) A) (w : World S) : Prop :=
  m w = UB -> forall h, w_heap w ⊆ h -> m (set_heap h w) = UB.

(** From [P], whatever the others do, [p] touches no released client and ends in
    [Q]. *)
Fixpoint rg {A} (P : World S -> Prop) (p : prog S A) (Q : A -> World S -> Prop) : Prop :=
  known P /\
  match p with
  | Done a => forall w, P w -> Q a w
  | Act m k => forall w, P w -> no_uaf m w /\
      forall x w', m w = Ret (x, w') -> exists R, (R w' : Prop) /\ rg R (k x) Q
  end.


Lemma rg_pre {A} (P P' : World S -> Prop) (p : prog S A) Q :
  known P' -> (forall w, P' w -> P w) -> rg P p Q -> rg P' p Q.
Proof. intros Hs Hp. destruct p; intros [_ H]; (split; [done|]); naive_solver. Qed.

Lemma rg_done {A} (P : World S -> Prop) (a : A) (Q : A -> World S -> Prop) :
  known P -> (forall w, P w -> Q a w) -> rg P (mret a) Q.
Proof. by split. Qed.

Lemma rg_bind {A B} (P : World S -> Prop) (p : prog S A) (f : A -> prog S B) (R : A -> World S -> Prop) Q :
  rg P p R -> (forall a, rg (R a) (f a) Q) -> rg P (p ≫= f) Q.
Proof.
  revert P. induction p as [a|X m k IH]; intros P [Hs Hp] Hf.
  - by eapply (rg_pre (R a)).
  - split; [done|]. intros w Hw. destruct (Hp w Hw) as [Hu Hk]. split; [done|].
    intros x w' Hx. destruct (Hk x w' Hx) as (R' & ? & Hr). exists R'. split; [done|]. by apply IH.
Qed.

Lemma rg_post {A} (P : World S -> Prop) (p : prog S A) (Q Q' : A -> World S -> Prop) :
  rg P p Q -> (forall a w, Q a w -> Q' a w) -> rg P p Q'.
Proof.
  revert P. induction p as [a|X m k IH]; intros P [Hs Hp] HQ; (split; [done|]); [by auto|].
  intros w Hw. destruct (Hp w Hw) as [Hu Hk]. split; [done|].
  intros x w' Hx. destruct (Hk x w' Hx) as (R' & ? & Hr). exists R'. split; [done|]. by apply IH.
Qed.

Lemma rg_act {A B} (P : World S -> Prop) (m : M (World S) A) (f : A -> prog S B) Q :
  known P -> (forall w, P w -> no_uaf m w) ->
  (forall w x w', P w -> m w = Ret (x, w') -> exists R, (R w' : Prop) /\ rg R (f x) Q) ->
  rg P (act m ≫= f) Q.
Proof. intros Hs Hu Hf. split; [done|]. intros w Hw. split; [by apply Hu|]. intros x w' Hx. by eapply Hf. Qed.

(** An action that the others could do as well keeps the assertion. *)
Lemma rg_keep {A B} (P : World S -> Prop) (m : M (World S) A) (f : A -> prog S B) Q :
  known P -> pres alike m -> (forall w, P w -> no_uaf m w) ->
  (forall w x w', P w -> m w = Ret (x, w') -> rg P (f x) Q) ->
  rg P (act m ≫= f) Q.
Proof.
  intros HP Hm Hu Hf. pose proof HP as [Hs Hl]. apply rg_act; [done..|]. intros w x w' Hw Hx. exists P.
  split; [|by eapply Hf]. eapply Hs; [done|]. apply alike_others; [by eapply Hm|by apply Hl].
Qed.

Lemma rg_last {A} (P : World S -> Prop) (m : M (World S) A) :
  known P -> pres alike m -> (forall w, P w -> no_uaf m w) -> rg P (act m) (fun _ => P).
Proof.
  intros HP Hm Hu. apply (rg_keep P m Done); [done..|]. intros w x w' _ _. by apply rg_done.
Qed.
End rely.
#[export] Hint Resolve alike_preorder : pres.

(** ** The actions *)

Section actions.
Context {S : Type} `{CacheModule S}.
Variable heap_after : Z -> bytes.
Variable behind : nat -> bytes.
Abbreviation alike := (alike (S := S)).

Lemma alike_on_mem {A} (m : M S A) : pres alike (on_mem m).
Proof. intros w a w'. unfold on_mem. destruct (m (w_mem w)) as [[x s]| |]; [|done..]. by intros [= _ <-]. Qed.
Lemma alike_put_fd id f : pres alike (put_fd id f).
Proof.
  intros w a w' [= _ <-]. split_and!; [done..| |done]. intros i. simpl. destruct (decide (i = id)) as [->|Hne].
  - rw lookup_alter_eq. by destruct (w_fds w !! id).
  - by rw lookup_alter_ne.
Qed.
Lemma alike_bump : pres alike bump_sign.
Proof. by intros w a w' [= _ <-]. Qed.
Lemma alike_clear : pres alike clear_sign.
Proof. by intros w a w' [= _ <-]. Qed.

(** A client written back with its socket. *)
Lemma alike_update (w : World S) a d d' :
  w_heap w !! a = Some d -> socket_id d' = socket_id d -> alike w (set_heap (<[a := d']> (w_heap w)) w).
Proof.
  intros Ha Hs. split_and!; [done..|]. intros b. simpl. destruct (decide (b = a)) as [->|Hne].
  - rw lookup_insert_eq Ha /=. by f_equal.
  - by rw lookup_insert_ne.
Qed.

Lemma alike_send a msg n : pres alike (send_msg a msg n).
Proof.
  intros w r w'. unfold send_msg, mbind, M_bind, get_client, on_mem, put_client, mret, M_ret.
  destruct (w_heap w !! a) as [d|] eqn:Ha; [|done].
  unfold send_msg_to_client, mbind, M_bind, mret, M_ret.
  destruct (write_into_buffer _ _ _ (w_mem w)) as [[[x b] s]| |]; [|done..]. intros [= _ <-].
  by apply (alike_update w a d).
Qed.
Lemma alike_mark a : pres alike (mark_failed a).
Proof.
  intros w r w'. unfold mark_failed, mbind, M_bind, get_client, put_client.
  destruct (w_heap w !! a) as [d|] eqn:Ha; [|done]. intros [= _ <-]. by apply (alike_update w a d).
Qed.
Lemma alike_fetch_msg a : pres alike (fetch_msg heap_after a).
Proof.
  intros w r w'. unfold fetch_msg, mbind, M_bind, get_client, on_mem, put_client, mret, M_ret.
  destruct (w_heap w !! a) as [d|] eqn:Ha; [|done].
  destruct (fetch_msg_from_client _ d (w_mem w)) as [[[[x om] d'] s]| |] eqn:Hs; [|done..]. intros [= _ <-].
  apply (alike_update w a d d'); [done|]. revert Hs.
  unfold fetch_msg_from_client, mbind, M_bind, mret, M_ret, lift.
  destruct (find_in_buffer _ _ _ _ _) as [i| |]; [|done..]. destruct (i <? 0); [by intros [= _ _ <- _]|].
  destruct (read_from_buffer _ _ _) as [[[[? ?] ?] ?]| |]; [|done..]. by intros [= _ _ <- _].
Qed.
(** ... after a call on its socket. *)
Lemma alike_io (w : World S) a d d' f s :
  w_heap w !! a = Some d -> socket_id d' = socket_id d ->
  alike w (mkWorld s (<[a := d']> (w_heap w)) (alter (fun _ => f) (socket_id d) (w_fds w)) (w_next w) (w_server w)).
Proof.
  intros Ha Hs. transitivity (set_heap (<[a := d']> (w_heap w)) w); [by apply (alike_update w a d)|].
  exact (alike_put_fd (socket_id d) f (set_heap (<[a := d']> (w_heap w)) w) tt _ eq_refl).
Qed.
Lemma alike_fetch a : pres alike (fetch a).
Proof.
  intros w r w'. unfold fetch, mbind, M_bind, get_client, getS, on_mem, put_client, mret, M_ret.
  destruct (w_heap w !! a) as [d|] eqn:Ha; [|done].
  destruct (fetch_from_client _ _ d (w_mem w)) as [[[[x f] d'] s]| |] eqn:Hs; [|done..]. intros [= _ <-].
  apply (alike_io w a d d' f s); [done|]. revert Hs. unfold fetch_from_client, mbind, M_bind, mret, M_ret.
  destruct (_ <$> _); [|by intros [= _ _ <- _]].
  destruct (read_into_buffer _ _ _ _) as [[[[? ?] ?] ?]| |]; [|done..]. by intros [= _ _ <- _].
Qed.
Lemma alike_flush a : pres alike (flush a).
Proof.
  intros w r w'. unfold flush, mbind, M_bind, get_client, getS, on_mem, put_client, mret, M_ret.
  destruct (w_heap w !! a) as [d|] eqn:Ha; [|done].
  destruct (flush_messages _ d (w_mem w)) as [[[[x f] d'] s]| |] eqn:Hs; [|done..]. intros [= _ <-].
  apply (alike_io w a d d' f s); [done|]. revert Hs. unfold flush_messages, mbind, M_bind, mret, M_ret.
  cbv zeta. destruct (0 <? _); [|by intros [= _ _ <- _]].
  destruct (write_from_buffer _ _ _ _) as [[[[? ?] ?] ?]| |]; [|done..]. by intros [= _ _ <- _].
Qed.
Lemma alike_login a own after : pres alike (user_login heap_after a own after).
Proof.
  unfold user_login. apply pres_bind; [typeclasses eauto|eauto with pres|intros own'].
  apply pres_bind; [typeclasses eauto|eauto with pres|intros p].
  intros w r w'. unfold mbind, M_bind, get_client, lift, put_client.
  destruct (w_heap w !! a) as [d|] eqn:Ha; [|done]. unfold update_client_name.
  destruct (update_name (Some p)) as [n| |]; [|done..]. cbn [mbind outcome_bind]. intros Hrun%alike_on_mem.
  etrans; [|exact Hrun]. by apply (alike_update w a d).
Qed.
#[local] Hint Resolve alike_on_mem alike_put_fd alike_bump alike_clear alike_send alike_mark alike_fetch_msg
  alike_fetch alike_flush alike_login : pres.

Lemma alike_redirect a msg after : pres alike (redirect heap_after a msg after).
Proof. apply pres_redirect; eauto with pres. Qed.
Lemma alike_client_list : pres alike get_client_list.
Proof. apply pres_client_list; eauto with pres. Qed.
Lemma alike_entries l : pres alike (polling_entries l).
Proof. induction l as [|a l IH]; cbn [polling_entries]; pres_auto. Qed.
Lemma alike_polling : pres alike get_polling_and_client_list.
Proof. unfold get_polling_and_client_list. pose proof alike_entries. pres_auto. Qed.

(** *** The reading thread *)

(** Every action of the program is in [R]. *)
Fixpoint acts {A} (R : World S -> World S -> Prop) (p : prog S A) : Prop :=
  match p with
  | Done a => True
  | Act m k => pres R m /\ forall x, acts R (k x)
  end.

Lemma acts_bind {A B} R (p : prog S A) (f : A -> prog S B) :
  acts R p -> (forall a, acts R (f a)) -> acts R (p ≫= f).
Proof.
  induction p as [a|X m k IH]; [intros _ Hf; apply Hf|]. intros [Hm Hk] Hf. split; [done|].
  intros x. by apply IH.
Qed.
Lemma acts_act {A} R (m : M (World S) A) : pres R m -> acts R (act m).
Proof. by split. Qed.
End actions.

#[export] Hint Resolve alike_on_mem alike_put_fd alike_bump alike_clear alike_send alike_mark alike_fetch_msg
  alike_fetch alike_flush alike_login alike_redirect alike_client_list alike_polling : pres.

(** [acts_auto]: follow the binds and branches; the leaves are [pres] hints. *)
Ltac acts_auto :=
  repeat lazymatch goal with
  | |- acts _ (mbind _ _) => apply acts_bind; [|intros ?]
  | |- acts _ (act _) => apply acts_act; eauto with pres
  | |- acts _ (mret _) => exact I
  | |- acts _ (match ?x with _ => _ end) => destruct x
  | |- acts _ _ => progress cbv zeta
  end.

Section reader.
Context {S : Type} `{CacheModule S}.
Variable heap_after : Z -> bytes.
Variable behind : nat -> bytes.
Abbreviation alike := (alike (S := S)).

Lemma acts_deliver msg : acts alike (deliver msg).
Proof.
  unfold deliver. acts_auto. generalize 0. induction (seq _ _) as [|k index IH]; intros sent;
    cbn [deliver_visits]; acts_auto; apply IH.
Qed.

Lemma acts_handle_msgs fuel a i n om need : acts alike (handle_msgs heap_after behind fuel a i n om need).
Proof.
  revert i n om need. induction fuel as [|fuel IH]; intros i n om need; cbn [handle_msgs]; unfold handle; acts_auto.
  - apply acts_deliver.
  - apply IH.
Qed.

Lemma acts_read_turn poll : acts alike (read_turn heap_after behind poll).
Proof.
  unfold read_turn. acts_auto.
  - induction l as [|[fd a] l IH]; cbn [debug_prints]; acts_auto; apply IH.
  - induction (seq _ _) as [|k index IH]; cbn [read_entries]; unfold read_entry, try_to_handle; acts_auto;
      [apply acts_handle_msgs|apply IH].
Qed.
End reader.

(** *** The listening thread *)

Section listener.
Context {S : Type} `{CacheModule S}.

Lemma others_fds (w w' : World S) :
  listed w -> w_server w' = w_server w -> w_next w <= w_next w' -> w_heap w' = w_heap w ->
  (forall i, is_Some (w_fds w !! i) -> is_Some (w_fds w' !! i)) -> others w w'.
Proof.
  intros [Hnd Hlive Hsock Hnext] Hs Hn Hh Hf. constructor; [|exists []; rw Hs app_nil_r; split; [done|by intros b ?%not_elem_of_nil]|done|].
  - constructor; rw ?Hs ?Hh //.
    + intros a Ha. destruct (Hlive a Ha) as (d & ? & ?). exists d. split; [done|by apply Hf].
    + intros a d Ha%Hnext. lia.
  - intros a d Ha. rw Hh. by exists d.
Qed.

(** A new client at the end of the list. *)
Lemma others_join (w w' : World S) d f :
  listed w -> w_fds w !! socket_id d = None -> clients (w_server w') = clients (w_server w) ++ [w_next w] ->
  w_next w' = w_next w + 1 -> w_heap w' = <[w_next w := d]> (w_heap w) ->
  w_fds w' = <[socket_id d := f]> (w_fds w) -> others w w'.
Proof.
  intros [Hnd Hlive Hsock Hnext] Hid Hc Hn Hh Hf.
  assert (forall b db, w_heap w !! b = Some db -> b <> w_next w) as Hfresh by (intros b db Hb%Hnext; lia).
  assert (forall a, a ∈ clients (w_server w) -> exists da, w_heap w !! a = Some da /\ w_heap w' !! a = Some da /\
    is_Some (w_fds w !! socket_id da)) as Hold.
  { intros a Ha. destruct (Hlive a Ha) as (da & Hda & ?). exists da. split_and!; [done| |done].
    rw Hh lookup_insert_ne //. intros Heq. by apply (Hfresh a da). }
  assert (forall a, a ∈ clients (w_server w) -> a <> w_next w) as Hne.
  { intros a Ha. destruct (Hold a Ha) as (da & ? & _). by eapply Hfresh. }
  assert (forall a da, a ∈ clients (w_server w) -> w_heap w' !! a = Some da -> socket_id da <> socket_id d) as Hapart.
  { intros a da Ha Hda Hs. destruct (Hold a Ha) as (d0 & _ & Hd0 & [x Hx]). rw Hda in Hd0. injection Hd0 as <-.
    by rw Hs Hid in Hx. }
  assert (w_heap w' !! w_next w = Some d) as Hnew by by rw Hh lookup_insert_eq.
  constructor.
  - constructor.
    + rw Hc. apply NoDup_app. split_and!; [done| |by apply NoDup_singleton].
      intros a Ha%Hne ->%list_elem_of_singleton. done.
    + intros a. rw Hc elem_of_app list_elem_of_singleton. intros [Ha| ->].
      * destruct (Hold a Ha) as (da & _ & ? & [x Hx]). exists da. split; [done|]. rw Hf.
        rw lookup_insert_ne; [intros Heq; by rw -Heq Hid in Hx|]. by exists x.
      * exists d. split; [done|]. rw Hf lookup_insert_eq. by exists f.
    + intros a b da db. rw Hc !elem_of_app !list_elem_of_singleton. intros [Ha| ->] [Hb| ->] Hda Hdb Hs.
      * destruct (Hold a Ha) as (d0 & ? & ? & _), (Hold b Hb) as (d1 & ? & ? & _). eapply (Hsock a b d0 d1); try done.
        congruence.
      * rw Hnew in Hdb. injection Hdb as <-. by apply (Hapart a) in Hda.
      * rw Hnew in Hda. injection Hda as <-. by apply (Hapart b) in Hdb.
      * done.
    + intros a da. rw Hh Hn. intros [[<- _]|[_ Ha%Hnext]]%lookup_insert_Some; lia.
  - exists [w_next w]. split; [done|]. intros b ->%list_elem_of_singleton. split; [|by exists d].
    destruct (w_heap w !! w_next w) as [db|] eqn:Hb; [|done]. by apply Hfresh in Hb.
  - intros i [x Hi]. rw Hf. destruct (decide (i = socket_id d)) as [->|?]; [by rw Hi in Hid|].
    by rw lookup_insert_ne.
  - intros a da Ha. exists da. split; [|done]. rw Hh lookup_insert_ne //. intros Heq. by apply (Hfresh a da).
Qed.

Lemma new_client_socket sock nm ty peer now i1 i2 (s : S) d s' :
  new_client_info sock nm ty peer now i1 i2 s = Ret (Some d, s') -> socket_id d = sock.
Proof.
  unfold new_client_info, mbind, M_bind, mret, M_ret, lift, undef.
  destruct (cm_malloc 152 s) as [[[x|] s0]| |]; [|done..]. destruct peer as [[ret ip] port].
  destruct (if ty =? C_TYPE_C then _ else _) as [? ?]. destruct (update_name nm) as [n| |]; [|done..].
  destruct (create_new_buffer s0) as [[[rb|] s1]| |]; [|done..].
  destruct (create_new_buffer s1) as [[[wb|] s2]| |]; [|done..].
  destruct (i1 =? SUCC); [|done]. destruct (i2 =? SUCC); [|done]. by intros [= <- _].
Qed.

Lemma listen_others id f peer now i1 i2 (w w' : World S) :
  listed w -> w_fds w !! id = None -> handle_listen_turn id f peer now i1 i2 w = Ret (tt, w') -> others w w'.
Proof.
  intros Hl Hid. unfold handle_listen_turn, accept_client, mret, M_ret.
  unfold mbind, M_bind, getS, putS, on_mem. cbv zeta.
  destruct (id <? 0); [intros [= <-]; by apply others_fds|].
  assert (forall i, is_Some (w_fds w !! i) -> is_Some (<[id := f]> (w_fds w) !! i)) as Hf.
  { intros i Hi. destruct (decide (i = id)) as [->|?]; [by rw lookup_insert_eq|by rw lookup_insert_ne]. }
  destruct (new_client_info _ _ _ _ _ _ _ _) as [[[d|] s]| |] eqn:Hd; [| |done..].
  2: { intros [= <-]. by apply others_fds. }
  apply new_client_socket in Hd. cbn [w_mem set_mem].
  destruct (cm_malloc 24 s) as [[[b|] s1]| |]; [| |done..].
  - intros [= <-]. by apply (others_join w _ d f); rw ?Hd.
  - unfold release_client, mbind, M_bind, get_client. simpl. rw lookup_insert_eq. unfold on_mem.
    cbn [w_mem set_mem].
    match goal with |- context [?m s1] => destruct (m s1) as [[r s2]| |] end; [|done..].
    intros [= <-]. apply others_fds; simpl; try done; [lia|].
    rw delete_insert_id //. destruct (w_heap w !! w_next w) as [x|] eqn:Hx; [|done].
    apply (li_next _ Hl) in Hx. lia.
Qed.
End listener.

(** *** The writing thread *)

Section writer.
Context {S : Type} `{CacheModule S}.
Variable heap_after : Z -> bytes.
Implicit Types (P : World S -> Prop) (w : World S).

(** Actions that do not look at the clients, and actions on a live one. *)
Lemma nu_lift {A} (o : outcome A) w : no_uaf (lift o) w.
Proof. unfold no_uaf, lift. by destruct o. Qed.
Lemma nu_on_mem {A} (m : M S A) w : no_uaf (on_mem m) w.
Proof. intros Hu h _. revert Hu. unfold on_mem. simpl. by destruct (m (w_mem w)) as [[x s]| |]. Qed.
Lemma nu_ret {A} (m : M (World S) A) w r : m w = Ret r -> no_uaf m w.
Proof. unfold no_uaf. by intros ->. Qed.
Lemma nu_client_list w : no_uaf get_client_list w.
Proof.
  intros Hu h _. revert Hu. unfold get_client_list, mbind, M_bind, server, on_mem, lift, mret, M_ret. simpl.
  destruct (cm_malloc _ (w_mem w)) as [[[b|] s]| |]; [|done..]. simpl. by destruct (copy_list _ _).
Qed.
Lemma nu_get_client a w d : w_heap w !! a = Some d -> no_uaf (get_client a) w.
Proof. intros Ha. apply (nu_ret _ _ (d, w)). unfold get_client. by rw Ha. Qed.
Lemma nu_send a msg n w d : w_heap w !! a = Some d -> no_uaf (send_msg a msg n) w.
Proof.
  intros Ha Hu h Hh. revert Hu. unfold send_msg, mbind, M_bind, get_client, on_mem, put_client, mret, M_ret.
  simpl. rw Ha (lookup_weaken _ _ _ _ Ha Hh). simpl. by destruct (send_msg_to_client d msg n (w_mem w)) as [[[x d'] s]| |].
Qed.
Lemma nu_flush a w d : w_heap w !! a = Some d -> no_uaf (flush a) w.
Proof.
  intros Ha Hu h Hh. revert Hu. unfold flush, mbind, M_bind, get_client, getS, on_mem, put_fd, put_client, mret, M_ret.
  simpl. rw Ha (lookup_weaken _ _ _ _ Ha Hh). simpl. by destruct (flush_messages _ d (w_mem w)) as [[[[x f] d'] s]| |].
Qed.
Lemma nu_release a w d : w_heap w !! a = Some d -> no_uaf (release_client a) w.
Proof.
  intros Ha Hu h Hh. revert Hu. unfold release_client, mbind, M_bind, get_client, on_mem, free_client, mret, M_ret.
  cbn [w_mem w_heap set_heap]. rw Ha (lookup_weaken _ _ _ _ Ha Hh).
  change (w_mem (set_heap h w)) with (w_mem w). by destruct (release_client_info (Some d) (w_mem w)) as [[x s]| |].
Qed.
#[local] Hint Resolve nu_lift nu_on_mem nu_client_list : pres.

(** Clients of the list stay there as long as the writing thread keeps them. *)
Definition holds (f : Z -> Prop) w : Prop := listed w /\ forall a, f a -> a ∈ clients (w_server w).

Lemma others_member w w' a : others w w' -> a ∈ clients (w_server w) -> a ∈ clients (w_server w').
Proof. intros [_ (new & -> & _) _ _] Ha. apply elem_of_app. by left. Qed.

Lemma holds_known f : known (holds f).
Proof.
  split; [|by intros w []]. intros w w' [_ Hf] Ho. split; [by destruct Ho|].
  intros a Ha%Hf. by eapply others_member.
Qed.
Lemma listed_known : known (listed (S := S)).
Proof. split; [|done]. by intros w w' _ []. Qed.

Lemma known_and P (f : Z -> Prop) : known P -> known (fun w => P w /\ forall a, f a -> a ∈ clients (w_server w)).
Proof.
  intros [Hs Hl]. split; [|by intros w [? _]; auto]. intros w w' [HP Hf] Ho. split; [by eapply Hs|].
  intros a Ha%Hf. by eapply others_member.
Qed.

Lemma client_list_result w l n w' :
  get_client_list w = Ret ((Some l, n), w') -> l = clients (w_server w) /\ n = client_count (w_server w) /\ w_server w' = w_server w.
Proof.
  unfold get_client_list, mbind, M_bind, server, on_mem, lift, mret, M_ret, copy_list.
  destruct (cm_malloc _ (w_mem w)) as [[[b|] s]| |]; [|done..]. simpl. destruct (_ <=? _); [|done].
  by intros [= <- <- <-].
Qed.

(** [rg_step]: an action that keeps the assertion. *)
Ltac rg_step :=
  apply rg_keep; [assumption|solve [eauto with pres]|first [solve [intros; eauto with pres]|idtac]|].

Lemma rg_visits P msg to_all l index sent :
  known P -> (forall w a, P w -> a ∈ l -> a ∈ clients (w_server w)) ->
  rg P (deliver_visits msg to_all l index sent) (fun _ => P).
Proof.
  intros HP Hl.
  assert (forall w a, P w -> a ∈ l -> exists d, w_heap w !! a = Some d) as Hlive.
  { intros w a Hw Ha. destruct (li_live _ (proj2 HP w Hw) a) as (d & ? & _); [by apply Hl|by exists d]. }
  revert sent. induction index as [|k index IH]; intros sent; cbn [deliver_visits].
  { apply rg_done; [apply HP|done]. }
  rg_step. intros w0 a w1 _ Ha.
  assert (a ∈ l) as Hin.
  { unfold lift, entry in Ha. destruct (l !! k) eqn:Hk; [|done]. injection Ha as -> _. by eapply list_elem_of_lookup_2. }
  assert (forall w, P w -> no_uaf (get_client a) w) as Hget.
  { intros w Hw. destruct (Hlive w a Hw Hin) as [d Hd]. by eapply nu_get_client. }
  assert (forall w, P w -> no_uaf (send_msg a (content msg) (size msg)) w) as Hsend.
  { intros w Hw. destruct (Hlive w a Hw Hin) as [d Hd]. by eapply nu_send. }
  rg_step. intros _ d _ _ _. destruct (u64 FAIL =? pub d); [apply IH|].
  rg_step. intros _ d1 _ _ _. rg_step. intros _ skip _ _ _. destruct (skip =? SUCC); [apply IH|].
  apply (rg_bind _ _ _ (fun _ => P)).
  - destruct to_all; [apply rg_done; [apply HP|done]|]. rg_step. intros _ d2 _ _ _.
    rg_step. intros _ t _ _ _. apply rg_done; [apply HP|done].
  - intros [|]; [|apply IH]. rg_step. intros _ r _ _ _. apply IH.
Qed.

Lemma rg_deliver P msg : known P -> rg P (deliver msg) (fun _ => P).
Proof.
  intros HP. unfold deliver. apply rg_act; [apply HP|eauto with pres|].
  intros w [ol n] w' Hw Hrun. exists (fun w1 => P w1 /\ forall a, a ∈ default [] ol -> a ∈ clients (w_server w1)).
  assert (P w') as Hw'.
  { eapply (proj1 HP); [done|]. apply alike_others; [by eapply alike_client_list|by apply HP]. }
  split.
  - split; [done|]. destruct ol as [l|]; [|by intros a ?%not_elem_of_nil].
    by apply client_list_result in Hrun as (-> & _ & ->).
  - pose proof (known_and P (fun a => a ∈ default [] ol) HP) as HP'. rg_step. intros _ t _ _ _.
    eapply rg_post; [apply rg_visits; [done|]|].
    + intros w1 a [_ Hl]. apply Hl.
    + by intros _ w1 [? _].
Qed.

(** *** The parts of the writing thread's turn *)

(** [a] is out of the list, with the open socket [s] that no listed client has. *)
Record taken (f : Z -> Prop) (a s : Z) w : Prop := {
  tk_holds : holds f w;
  tk_out : a ∉ clients (w_server w);
  tk_live : exists d, w_heap w !! a = Some d /\ socket_id d = s;
  tk_open : is_Some (w_fds w !! s);
  tk_own : forall b d, b ∈ clients (w_server w) -> w_heap w !! b = Some d -> socket_id d <> s;
}.

Lemma taken_known f a s : known (taken f a s).
Proof.
  split; [|by intros w [[] _ _ _ _]]. intros w w' [Hh Ho Hl Hop Hown] Hw. constructor.
  - by eapply (proj1 (holds_known f)).
  - destruct (ot_clients _ _ Hw) as (new & -> & Hnew). rw elem_of_app. intros [?|[Hb _]%Hnew]; [done|].
    destruct Hl as (d & Hd & _). congruence.
  - destruct Hl as (d & Hd & <-). apply (ot_heap _ _ Hw _ _ Hd).
  - by apply (ot_fds _ _ Hw).
  - destruct (ot_clients _ _ Hw) as (new & Hc & Hnew). intros b d. rw Hc elem_of_app. intros [Hb|Hb] Hd.
    + destruct (li_live _ (proj1 Hh) b Hb) as (d0 & Hd0 & _). destruct (ot_heap _ _ Hw _ _ Hd0) as (d1 & Hd1 & Hs1).
      rw Hd in Hd1. injection Hd1 as ->. rw Hs1. by eapply Hown.
    + destruct (Hnew b Hb) as (_ & d1 & Hd1 & Hf). rw Hd in Hd1. injection Hd1 as <-. intros Hs.
      rw Hs in Hf. destruct Hop as [x Hx]. congruence.
Qed.

(** ... and after [close]. *)
Record unknown (f : Z -> Prop) (a : Z) w : Prop := {
  un_holds : holds f w;
  un_out : a ∉ clients (w_server w);
  un_live : is_Some (w_heap w !! a);
}.
Lemma unknown_known f a : known (unknown f a).
Proof.
  split; [|by intros w [[] _ _]]. intros w w' [Hh Ho [d Hd]] Hw. constructor.
  - by eapply (proj1 (holds_known f)).
  - destruct (ot_clients _ _ Hw) as (new & -> & Hnew). rw elem_of_app. intros [?|[Hb _]%Hnew]; congruence.
  - destruct (ot_heap _ _ Hw _ _ Hd) as (d' & -> & _). by exists d'.
Qed.

Lemma take_out_run f g w a :
  holds g w -> g a -> (forall b, f b -> g b /\ b <> a) ->
  exists w' d, take_out a w = Ret (tt, w') /\ w_heap w !! a = Some d /\ taken f a (socket_id d) w'.
Proof.
  intros [Hl Hg] Ha%Hg Hf. destruct (li_live _ Hl a Ha) as (d & Hd & Hopen).
  destruct (list_elem_of_split _ _ Ha) as (l1 & l2 & Hc). pose proof (li_nodup _ Hl) as Hnd. rw Hc in Hnd.
  assert (forall b, b ∈ l1 ++ l2 -> b <> a /\ b ∈ clients (w_server w)) as Hrest.
  { intros b Hb. rw Hc. rw elem_of_app elem_of_cons. apply elem_of_app in Hb as Hb'. split; [|tauto].
    intros ->. apply NoDup_app in Hnd as (_ & Hnd & [Hn _]%NoDup_cons). destruct Hb' as [Hb'|?]; [|done].
    apply (Hnd a Hb'), list_elem_of_here. }
  assert (forall b db, b ∈ l1 ++ l2 -> w_heap w !! b = Some db -> socket_id db <> socket_id d) as Hsock.
  { intros b db [Hne Hb]%Hrest Hdb Hs. by apply Hne, (li_sockets _ Hl b a db d). }
  eexists _, d. split; [|split; [done|]].
  - unfold take_out, mbind, M_bind, server, get_client. rw Hd Hc unlink_spec; [done| |done].
    intros b Hb. destruct (li_live _ Hl b) as (db & Hdb & _); [apply Hrest, elem_of_app; by left|].
    exists db. split; [done|]. eapply Hsock; [apply elem_of_app; by left|done].
  - assert (NoDup (l1 ++ l2)) as Hnd'.
    { eapply sublist_NoDup; [exact Hnd|]. apply sublist_app; [done|]. by apply sublist_cons. }
    constructor; simpl.
    + split; [constructor; simpl|]; [done|intros b Hb; apply (li_live _ Hl), Hrest, Hb| |apply (li_next _ Hl)|].
      * intros b c db dc Hb Hcc. apply (li_sockets _ Hl); by apply Hrest.
      * intros b [Hb%Hg Hne]%Hf. rw Hc in Hb. apply elem_of_app. apply elem_of_app in Hb as [Hb|[?|Hb]%elem_of_cons]; auto.
        done.
    + intros Ha'. by destruct (Hrest a Ha').
    + by exists d.
    + done.
    + intros b db Hb. by apply Hsock.
Qed.

Lemma rg_logout_delivery P nm : known P -> rg P (logout_delivery heap_after nm) (fun _ => P).
Proof.
  intros HP. unfold logout_delivery. cbv zeta. rg_step. intros _ sn _ _ _. rg_step. intros _ [c|] _ _ _.
  2: { apply rg_done; [apply HP|done]. }
  rg_step. intros _ b _ _ _. rg_step. intros _ om _ _ _. apply (rg_bind _ _ _ (fun _ => P)).
  - destruct om as [m|]; [|apply rg_done; [apply HP|done]]. rg_step. intros _ e _ _ _. by apply rg_deliver.
  - intros sent. rg_step. intros _ r _ _ _. apply rg_done; [apply HP|done].
Qed.

Lemma nu_server w : no_uaf server w.
Proof. by apply (nu_ret _ _ (w_server w, w)). Qed.
Lemma nu_bump w : no_uaf bump_sign w.
Proof. by eapply nu_ret. Qed.
Lemma nu_clear w : no_uaf clear_sign w.
Proof. by eapply nu_ret. Qed.
Lemma nu_close id w : no_uaf (close id) w.
Proof. by eapply nu_ret. Qed.
#[local] Hint Resolve nu_server nu_bump nu_clear nu_close : pres.

Lemma close_taken f a s w : taken f a s w -> unknown f a (set_fds (delete s (w_fds w)) w).
Proof.
  intros [[Hl Hf] Ho (d & Hd & <-) _ Hown]. constructor; simpl; [|done|by exists d].
  split; [|done]. destruct Hl as [Hnd Hlive Hsock Hnext]. constructor; simpl; try done.
  intros b Hb. destruct (Hlive b Hb) as (db & Hdb & ?). exists db. split; [done|].
  rw lookup_delete_ne //. intros Hs. by eapply Hown.
Qed.

Lemma release_unknown f a w r w' :
  unknown f a w -> release_client a w = Ret (r, w') -> holds f w'.
Proof.
  intros [[Hl Hf] Ho [d Hd]]. unfold release_client, mbind, M_bind, get_client, on_mem, free_client, mret, M_ret.
  rw Hd. destruct (release_client_info (Some d) (w_mem w)) as [[x s]| |]; [|done..]. intros [= _ <-].
  split; [|done]. destruct Hl as [Hnd Hlive Hsock Hnext]. constructor; simpl; try done.
  - intros b Hb. destruct (Hlive b Hb) as (db & Hdb & ?). exists db. split; [|done].
    rw lookup_delete_ne //. by intros ->.
  - intros b c db dc Hb Hc [_ Hdb]%lookup_delete_Some [_ Hdc]%lookup_delete_Some. by apply Hsock.
  - intros b db [_ Hdb]%lookup_delete_Some. by eapply Hnext.
Qed.

Lemma rg_logout f g a : g a -> (forall b, f b -> g b /\ b <> a) ->
  rg (holds g) (logout heap_after a) (fun _ => holds f).
Proof.
  intros Ha Hf. unfold logout. apply rg_act; [apply holds_known| |].
  { intros w Hw. destruct (take_out_run f g w a Hw Ha Hf) as (w' & d & Hrun & _). by eapply nu_ret. }
  intros w [] w' Hw Hrun. destruct (take_out_run f g w a Hw Ha Hf) as (w1 & d & Hrun' & _ & Ht).
  rw Hrun in Hrun'. injection Hrun' as <-. exists (taken f a (socket_id d)). split; [done|].
  pose proof (taken_known f a (socket_id d)) as HP. rg_step.
  { intros w1 Hw1. destruct (tk_live _ _ _ _ Hw1) as (d1 & Hd1 & _). by eapply nu_get_client. }
  intros w1 d1 w2 Hw1 Hd1. assert (socket_id d1 = socket_id d) as ->.
  { destruct (tk_live _ _ _ _ Hw1) as (d2 & Hd2 & <-). unfold get_client in Hd1. rw Hd2 in Hd1. by injection Hd1 as ->. }
  apply (rg_bind _ _ _ (fun _ => taken f a (socket_id d))); [by apply rg_logout_delivery|]. intros sent.
  apply rg_act; [apply HP|eauto with pres|]. intros w3 [] w4 Hw3 [= <-].
  exists (unknown f a). split; [by apply close_taken|].
  apply rg_act; [apply unknown_known| |].
  { intros w5 [_ _ [d5 Hd5]]. by eapply nu_release. }
  intros w5 r w6 Hw5 Hr. exists (holds f). split; [by eapply release_unknown|].
  pose proof (holds_known f) as HPf. destruct (sent =? 0); [by apply rg_done; [apply HPf|]|].
  apply rg_last; [done|eauto with pres|eauto with pres].
Qed.

(** The clients that the entries [index] of [l] name. *)
Definition named (l : list Z) (index : list nat) (a : Z) : Prop := exists k, k ∈ index /\ l !! k = Some a.

Lemma entry_run (l : list Z) k w a w' : lift (entry l k) w = Ret (a, w') -> l !! k = Some a.
Proof. unfold lift, entry. destruct (l !! k) eqn:Hk; [|done]. by intros [= -> _]. Qed.

Lemma holds_get f a w : holds f w -> f a -> exists d, w_heap w !! a = Some d.
Proof. intros [Hl Hf] Ha%Hf. destruct (li_live _ Hl a Ha) as (d & ? & _). by exists d. Qed.

Lemma rg_flush_visits f l index :
  (forall a, a ∈ l -> f a) -> rg (holds f) (flush_visits l index) (fun _ => holds f).
Proof.
  intros Hl. pose proof (holds_known f) as HP. induction index as [|k index IH]; cbn [flush_visits].
  { apply rg_done; [apply HP|done]. }
  rg_step. intros w0 a w1 _ Hk%entry_run%list_elem_of_lookup_2%Hl. rg_step.
  { intros w Hw. destruct (holds_get _ _ _ Hw Hk) as [d Hd]. by eapply nu_get_client. }
  intros _ d _ _ _. apply (rg_bind _ _ _ (fun _ => holds f)); [|done].
  destruct (u64 FAIL =? pub d); [apply rg_done; [apply HP|done]|].
  apply rg_last; [done|eauto with pres|]. intros w Hw. destruct (holds_get _ _ _ Hw Hk) as [d1 Hd]. by eapply nu_flush.
Qed.

Lemma rg_logout_visits l index :
  NoDup l -> NoDup index ->
  rg (holds (named l index)) (logout_visits heap_after l index) (fun _ => listed).
Proof.
  intros Hl. induction index as [|k index IH]; intros Hi; cbn [logout_visits].
  { apply rg_done; [apply holds_known|by intros w []]. }
  apply NoDup_cons in Hi as [Hk Hi]. pose proof (holds_known (named l (k :: index))) as HP.
  rg_step. intros w0 a w1 _ Ha%entry_run.
  assert (named l (k :: index) a) as Hn by (exists k; split; [apply list_elem_of_here|done]).
  assert (forall b, named l index b -> named l (k :: index) b /\ b <> a) as Hrest.
  { intros b (j & Hj & Hb). split; [exists j; split; [by apply list_elem_of_further|done]|].
    intros ->. by rw (NoDup_lookup _ _ _ _ Hl Ha Hb) in Hk. }
  rg_step.
  { intros w Hw. destruct (holds_get _ _ _ Hw Hn) as [d Hd]. by eapply nu_get_client. }
  intros _ d _ _ _. apply (rg_bind _ _ _ (fun _ => holds (named l index))); [|by intros _; apply IH].
  destruct (u64 FAIL =? pub d); [by apply rg_logout|].
  apply rg_done; [apply HP|]. intros w [Hw Hf]. split; [done|]. intros b [Hb _]%Hrest. by apply Hf.
Qed.

Lemma rg_wait : rg listed wait (fun _ => listed (S := S)).
Proof.
  pose proof listed_known as HP. unfold wait. rg_step. intros _ i _ _ _.
  apply (rg_bind _ _ _ (fun _ => listed)).
  - destruct (_ =? 0); [apply rg_last; [done|eauto with pres|eauto with pres]|apply rg_done; [apply HP|done]].
  - intros []. rg_step. intros _ j _ _ _. apply rg_done; [apply HP|done].
Qed.

Lemma rg_write_turn : rg listed (write_turn heap_after) (fun _ => listed).
Proof.
  pose proof listed_known as HP. unfold write_turn. apply rg_act; [apply HP|eauto with pres|].
  intros w [[l|] n] w' Hw Hrun.
  2: { exists listed. split; [by eapply alike_listed, Hw; eapply alike_client_list|]. by apply rg_done; [apply HP|]. }
  pose proof Hrun as (-> & _ & Hs)%client_list_result. set (l := clients (w_server w)).
  exists (holds (fun a => a ∈ l)). split.
  { split; [by eapply alike_listed, Hw; eapply alike_client_list|]. intros a. by rw Hs. }
  apply (rg_bind _ _ _ (fun _ => holds (fun a => a ∈ l))); [by apply rg_flush_visits|]. intros [].
  apply (rg_bind _ _ _ (fun _ => listed)); [|intros []; apply rg_wait].
  eapply rg_pre; [apply holds_known| |apply rg_logout_visits; [apply (li_nodup _ Hw)|apply NoDup_seq]].
  intros w1 [? Hl]. split; [done|]. intros a (k & _ & Hk). by eapply Hl, list_elem_of_lookup_2.
Qed.
End writer.

(** ** Theorems *)

Section theorems.
Context {S : Type} `{CacheModule S}.
Variable heap_after : Z -> bytes.
Variable behind : nat -> bytes.
Abbreviation move := (move (S := S) heap_after behind).

Definition inv (x : threads (S := S)) : Prop :=
  acts alike (t_reader x) /\
  exists P, (P (t_world x) : Prop) /\ rg P (t_writer x) (fun _ => listed).

Lemma inv_listed x : inv x -> listed (t_world x).
Proof. intros (_ & P & HP & Hrg). destruct (t_writer x); destruct Hrg as [[_ Hl] _]; by apply Hl. Qed.

(** The other threads: the assertion stays. *)
Lemma inv_others w w' r r' v :
  inv (mkThreads w r v) -> others w w' -> acts alike r' -> inv (mkThreads w' r' v).
Proof.
  intros (_ & P & HP & Hrg) Ho Hr. split; [done|]. exists P. split; [|done].
  destruct v; destruct Hrg as [[Hs _] _]; by apply (Hs w).
Qed.

Lemma move_inv x y : move x y -> inv x -> inv y.
Proof.
  intros Hm Hx. pose proof (inv_listed _ Hx) as Hl. pose proof Hx as [Hr (P & HP & Hrg)]. destruct Hm; simpl in *.
  - eapply inv_others; [done| |done]. by eapply listen_others.
  - eapply inv_others; [done| |done]. apply others_fds; try done. simpl. intros i Hi.
    destruct (decide (i = id)) as [->|?]; [by rw lookup_insert_eq|by rw lookup_insert_ne].
  - destruct r as [|X m k]; [done|]. destruct Hr as [Hm Hk]. revert H1. simpl.
    destruct (m w) as [[z w1]| |] eqn:Hz; [|done..]. intros [= <- <-].
    eapply inv_others; [done| |apply Hk]. apply alike_others; [by eapply Hm|done].
  - eapply inv_others; [done| |apply acts_read_turn]. by apply alike_others.
  - split; [done|]. destruct v as [|X m k]; [done|]. destruct Hrg as [_ Hk]. revert H1. simpl.
    destruct (m w) as [[z w1]| |] eqn:Hz; [|done..]. intros [= <- <-].
    destruct (Hk w HP) as [_ Hk']. by destruct (Hk' z w1 Hz) as (R & ? & ?); exists R.
  - split; [done|]. exists listed. split; [by destruct Hrg as [_ Hd]; apply Hd in HP|apply rg_write_turn].
Qed.

Lemma moves_inv x y : rtc move x y -> inv x -> inv y.
Proof. induction 1 as [|x y z Hxy _ IH]; [done|]. intros Hx. by eapply IH, move_inv. Qed.

Lemma start_inv w : listed w -> inv (threads_start w).
Proof. intros Hw. split; [done|]. exists listed. split; [done|]. by apply rg_done; [apply listed_known|]. Qed.

(** A turn of the reading or writing thread taken action by
    action, with nothing in between, is the turn of Server.v. *)
Theorem turns_alone poll (w : World S) :
  run (read_turn heap_after behind poll) w = read_sockets_turn heap_after behind poll w /\
  run (write_turn heap_after) w = write_sockets_turn heap_after w.
Proof. split; [apply run_read_turn|apply run_write_turn]. Qed.

(** The writing thread never touches a released client: started on a
    sound list, and whatever the threads do between any two of its actions -
    while it visits its snapshot, while it delivers a logout, before it closes and
    releases a client - its next action is never undefined for want of a client. *)
Theorem writer_never_uses_freed w x :
  listed w -> rtc move (threads_start w) x -> ~ use_after_free (t_writer x) (t_world x).
Proof.
  intros Hw Hx [Hub (h & Hh & Hno)].
  assert (inv x) as [_ (P & HP & Hrg)] by (eapply moves_inv; [done|by apply start_inv]).
  destruct (t_writer x) as [b|X m k]; [done|]. destruct Hrg as [_ Hk]. destruct (Hk _ HP) as [Hu _].
  apply Hno. simpl in *. destruct (m (t_world x)) as [[z w1]| |] eqn:Hz; [done| |done].
  by rw (Hu Hz h Hh).
Qed.
End theorems.

(** ** A schedule *)

(** Who moves. *)
Inductive turn_of :=
| Listen (id : Z)
| Data (id : Z) (data : bytes)
| Read
| ReadTurn (poll : list Z -> Z * list Z)
| Write
| WriteTurn.

Definition exec1 (t : turn_of) (x : threads (S := mem)) : option threads :=
  let '(mkThreads w r v) := x in
  match t with
  | Listen id =>
    if bool_decide (w_fds w !! id = None) then
      match handle_listen_turn id no_fd (0, None, 999) 5 0 0 w with
      | Ret (tt, w') => Some (mkThreads w' r v)
      | _ => None
      end
    else None
  | Data id data => f ← w_fds w !! id; Some (mkThreads (set_fds (<[id := receive data f]> (w_fds w)) w) r v)
  | Read =>
    match r with
    | Done _ => None
    | Act _ _ => match pstep r w with Ret (r', w') => Some (mkThreads w' r' v) | _ => None end
    end
  | ReadTurn poll => match r with Done true => Some (mkThreads w (read_turn behind (fun _ => [nul]) poll) v) | _ => None end
  | Write =>
    match v with
    | Done _ => None
    | Act _ _ => match pstep v w with Ret (v', w') => Some (mkThreads w' r v') | _ => None end
    end
  | WriteTurn => match v with Done true => Some (mkThreads w r (write_turn behind)) | _ => None end
  end.
Definition exec (l : list turn_of) (x : threads) : option threads := foldl (fun o t => o ≫= exec1 t) (Some x) l.

Lemma exec1_move t x y : exec1 t x = Some y -> move behind (fun _ => [nul]) x y.
Proof.
  destruct x as [w r v], t as [id|id data| |poll| |]; simpl.
  - destruct (bool_decide _) eqn:Hb; [|done]. apply bool_decide_eq_true in Hb.
    destruct (handle_listen_turn id no_fd (0, None, 999) 5 0 0 w) as [[[] w']| |] eqn:Hl; [|done..]. intros [= <-].
    by eapply m_listen.
  - destruct (w_fds w !! id) as [f|] eqn:Hf; [|done]. intros [= <-]. by eapply m_data.
  - destruct r as [|X m k]; [done|]. destruct (pstep (Act m k) w) as [[r' w']| |] eqn:Hp; [|done..].
    intros [= <-]. apply m_read; [by intros []|done].
  - destruct r as [[]|]; [|done..]. intros [= <-]. apply m_read_turn.
  - destruct v as [|X m k]; [done|]. destruct (pstep (Act m k) w) as [[r' w']| |] eqn:Hp; [|done..].
    intros [= <-]. apply m_write; [by intros []|done].
  - destruct v as [[]|]; [|done..]. intros [= <-]. apply m_write_turn.
Qed.

Lemma exec_moves l x y : exec l x = Some y -> rtc (move behind (fun _ => [nul])) x y.
Proof.
  revert x. unfold exec. induction l as [|t l IH]; intros x; cbn [foldl]; [by intros [= <-]|].
  cbn [mbind option_bind]. destruct (exec1 t x) as [x1|] eqn:Hx.
  - intros Hl. eapply rtc_l; [by apply exec1_move in Hx|by apply IH].
  - intros Hl. exfalso. clear -Hl. induction l as [|t l IH]; [done|]. by apply IH.
Qed.

(** Two clients connect; the first closes, the second sends a message to all.
    One turn of the reading thread marks the first and takes the snapshot for the
    message; then the writing thread runs until it has logged the first out. *)
Definition hang_up (fds : list Z) : Z * list Z := (2, [17; 1]).
Definition reader_part : list turn_of :=
  [Listen 5; Listen 6; Data 6 (bs "TO-ALL: x" ++ [nl]); ReadTurn hang_up] ++ replicate 16 Read.
Definition writer_part : list turn_of := WriteTurn :: replicate 24 Write.

Lemma writer_part_reader n x y : exec (WriteTurn :: replicate n Write) x = Some y -> t_reader y = t_reader x.
Proof.
  assert (forall t x y, t = Write \/ t = WriteTurn -> exec1 t x = Some y -> t_reader y = t_reader x) as Hone.
  { intros t [w r v] y' [-> | ->]; simpl.
    - destruct v as [|X m k]; [done|]. destruct (pstep _ w) as [[v' w']| |]; [|done..]. by intros [= <-].
    - destruct v as [[]|]; [|done..]. by intros [= <-]. }
  unfold exec. cbn [foldl mbind option_bind]. destruct (exec1 WriteTurn x) as [x1|] eqn:Hx.
  2: { intros Hl. exfalso. clear -Hl. induction n as [|n IH]; [done|]. by apply IH. }
  apply Hone in Hx as <-; [|by right]. revert x1. induction n as [|n IH]; intros x1; [by intros [= <-]|].
  cbn [replicate foldl mbind option_bind]. destruct (exec1 Write x1) as [x2|] eqn:Hx2.
  - intros ->%IH. eapply Hone in Hx2; [done|by left].
  - intros Hl. exfalso. clear -Hl. induction n as [|n IH]; [done|]. by apply IH.
Qed.

(** Client 1 is marked in [x0], the reader of [x0] alone ends its turn, and in [x]
    it fails for want of client 1. *)
Definition marked_check (x0 : threads (S := mem)) : option ClientData :=
  match w_heap (t_world x0) !! 1, run (t_reader x0) (t_world x0) with
  | Some d, Ret (true, _) => if bool_decide (pub d = u64 FAIL) then Some d else None
  | _, _ => None
  end.
Definition uaf_check (d : ClientData) (x : threads (S := mem)) : bool :=
  let w := t_world x in
  match w_heap w !! 1, pstep (t_reader x) w, pstep (t_reader x) (set_heap (<[1 := d]> (w_heap w)) w) with
  | None, UB, Ret _ => true
  | _, _, _ => false
  end.

Lemma race_check :
  match exec reader_part (threads_start race_world) with
  | Some x0 =>
    match marked_check x0, exec writer_part x0 with
    | Some d, Some x => uaf_check d x
    | _, _ => false
    end
  | None => false
  end = true.
Proof. by vm_compute. Qed.

(** C17 (safety): A delivery can touch a released client.  From a server without
    clients the threads can reach a state [x0] in which the reading thread, left
    alone, ends its turn, but in which the writing thread can move on instead and
    log a marked client out - and then the reading thread's next action, in a turn
    that had found that client alive, is an access to the released object. *)
Theorem delivery_use_after_free :
  exists x0 x d, rtc (move behind (fun _ => [nul])) (threads_start race_world) x0 /\
    w_heap (t_world x0) !! 1 = Some d /\ pub d = u64 FAIL /\
    (exists w', run (t_reader x0) (t_world x0) = Ret (true, w')) /\
    rtc (move behind (fun _ => [nul])) x0 x /\ t_reader x = t_reader x0 /\
    w_heap (t_world x) !! 1 = None /\ use_after_free (t_reader x) (t_world x).
Proof.
  pose proof race_check as Hc. destruct (exec reader_part _) as [x0|] eqn:H0; [|done].
  destruct (marked_check x0) as [d|] eqn:Hm; [|done]. destruct (exec writer_part x0) as [x|] eqn:H1; [|done].
  unfold marked_check in Hm. destruct (w_heap (t_world x0) !! 1) as [d0|] eqn:Hd; [|done].
  destruct (run (t_reader x0) (t_world x0)) as [[[] w']| |] eqn:Hr; [|done..].
  destruct (bool_decide _) eqn:Hp; [|done]. injection Hm as ->. apply bool_decide_eq_true in Hp.
  exists x0, x, d. pose proof (writer_part_reader _ _ _ H1) as Hrd. unfold uaf_check in Hc.
  apply exec_moves in H0, H1.
  destruct (w_heap (t_world x) !! 1) eqn:Hx; [done|].
  destruct (pstep (t_reader x) (t_world x)) as [p| |] eqn:Hub; [done| |done].
  destruct (pstep (t_reader x) (set_heap _ (t_world x))) as [p| |] eqn:Hok; [|done..].
  split_and!; try done; [by exists w'|].
  split; [done|]. exists (<[1 := d]> (w_heap (t_world x))). split; [by apply insert_subseteq|]. by rw Hok.
Qed.

Lemma race_start_listed : listed race_world.
Proof.
  constructor; simpl; [apply NoDup_nil_2|by intros a ?%not_elem_of_nil|by intros a b d db ?%not_elem_of_nil|done].
Qed.

Lemma race_runs : match exec (reader_part ++ writer_part) (threads_start race_world) with Some _ => true | None => false end = true.
Proof. by vm_compute. Qed.

(** The state of the race: the writing thread has just released a client. *)
Lemma writer_never_uses_freed_witness :
  match exec (reader_part ++ writer_part) (threads_start race_world) with
  | Some x => ~ use_after_free (t_writer x) (t_world x)
  | None => False
  end.
Proof.
  pose proof race_runs as Hr. destruct (exec _ _) as [x|] eqn:Hx; [clear Hr; apply exec_moves in Hx|done].
  apply (writer_never_uses_freed behind (fun _ => [nul]) race_world); [apply race_start_listed|exact Hx].
Defined.
