(* ===== verification/ReaderTheorems.v ===== *)
(** * Where the reading thread can meet a released client

    The reading thread takes two kinds of snapshots: the entries it polls, and one
    for each delivery.  The entries it goes on to handle are of clients that are
    not marked, and the writing thread releases marked ones only: here is the proof,
    action by action, that nothing else than a visit of a delivery and a debug print
    can be an access to a released client.  It has two parts that rely on each
    other: what the writing thread guarantees and what the reading thread does. *)
From Stdlib Require Import Strings.Byte String.
From stdpp Require Import relations.
From S2P Require Import Prelude CLib Alloc Cache Locks Buffer Message ClientInfo Server ServerTurns.
From S2P Require Import BufferTheorems ClientTheorems ServerTheorems Threads ThreadTheorems Interleave InterleaveTheorems.

(** ** The two accesses *)

Section excused.
Context {S : Type} `{CacheModule S}.

(** The program of a delivery that has visited some of its clients. *)
Inductive visiting : prog S Z -> Prop :=
| v_start msg to_all l index sent : visiting (deliver_visits msg to_all l index sent)
| v_step q w q' w' : visiting q -> pstep q w = Ret (q', w') -> visiting q'.

(** The next action is part of a delivery's visits, or a print of the debug block. *)
Inductive excused : forall {A}, prog S A -> Prop :=
| ex_visit q : visiting q -> ~ finished q -> excused q
| ex_print fd a l : excused (debug_prints ((fd, a) :: l))
| ex_bind A B (p : prog S A) (f : A -> prog S B) : excused p -> excused (p ≫= f).

(** Only a program that goes on can be excused. *)
Lemma excused_goes_on {A} (p : prog S A) : excused p -> ~ finished p.
Proof. induction 1 as [q _ Hq|fd a l|A B p f _ IH]; [done|by intros []|]. by destruct p. Qed.
End excused.

(** ** What the threads do to each other *)

Section relies.
Context {S : Type}.
Implicit Types (w : World S) (a : Z).

(** A client that is not marked, and one that is marked or gone. *)
Definition sound w a : Prop := exists d, w_heap w !! a = Some d /\ pub d <> u64 FAIL.
Definition done_for w a : Prop := a < w_next w /\ forall d, w_heap w !! a = Some d -> pub d = u64 FAIL.

(** Nobody takes a mark back or uses an address again. *)
Definition marks_stay w w' : Prop := forall a, done_for w a -> done_for w' a.
(** Nobody marks or releases a client that is not marked, [o] apart. *)
Definition sound_stay (o : option Z) w w' : Prop := forall a, o <> Some a -> sound w a -> sound w' a.

Lemma keeps_marks o w w' :
  keeps_but o w w' -> (forall a, o = Some a -> done_for w a -> done_for w' a) -> marks_stay w w'.
Proof.
  intros (Hn & _ & Hh) Ho a Ha. destruct (decide (o = Some a)) as [Heq|Hne]; [by apply Ho|].
  destruct Ha as [Hlt Ha]. split; [lia|]. intros d' Hd'. specialize (Hh a Hne).
  destruct (w_heap w !! a) as [d|]; [|by rw Hh in Hd'].
  destruct Hh as (d1 & Hd1 & Hp). rw Hd' in Hd1. injection Hd1 as ->. rw Hp. by apply Ha.
Qed.
Lemma keeps_sound o w w' : keeps_but o w w' -> sound_stay o w w'.
Proof.
  intros (_ & _ & Hh) a Ha (d & Hd & Hp). specialize (Hh a Ha). rw Hd in Hh.
  destruct Hh as (d' & ? & Hp'). exists d'. by rw Hp'.
Qed.
End relies.

(** ** The logics *)

Section logics.
Context {S : Type} `{CacheModule S}.
Implicit Types (P : World S -> Prop) (w : World S).

(** What the others do to the assertions of the writing thread, and to those of
    the reading thread. *)
Definition kept_marked P : Prop := forall w w', P w -> marks_stay w w' -> P w'.
Definition kept_sound P : Prop := forall w w', P w -> sound_stay None w w' -> P w'.

(** Every action of [p] leaves the marks and the sound clients alone. *)
Fixpoint guarantees {A} P (p : prog S A) (Q : A -> World S -> Prop) : Prop :=
  kept_marked P /\
  match p with
  | Done a => forall w, P w -> Q a w
  | Act m k => forall w x w', listed w -> P w -> m w = Ret (x, w') ->
      marks_stay w w' /\ sound_stay None w w' /\ exists R, (R w' : Prop) /\ guarantees R (k x) Q
  end.

(** Every action of [p] takes no mark back, and touches no released client unless
    it is excused. *)
Fixpoint reads {A} P (p : prog S A) (Q : A -> World S -> Prop) : Prop :=
  kept_sound P /\
  match p with
  | Done a => forall w, P w -> Q a w
  | Act m k => (forall w, listed w -> P w -> no_uaf m w \/ excused (Act m k)) /\
      forall w x w', listed w -> P w -> m w = Ret (x, w') ->
        marks_stay w w' /\ exists R, (R w' : Prop) /\ reads R (k x) Q
  end.

Lemma guarantees_pre {A} P P' (p : prog S A) Q :
  kept_marked P' -> (forall w, P' w -> P w) -> guarantees P p Q -> guarantees P' p Q.
Proof. intros Hk Hp. destruct p; intros [_ Hg]; (split; [done|]); naive_solver. Qed.
Lemma reads_pre {A} P P' (p : prog S A) Q :
  kept_sound P' -> (forall w, P' w -> P w) -> reads P p Q -> reads P' p Q.
Proof. intros Hk Hp. destruct p; intros [_ Hg]; (split; [done|]); naive_solver. Qed.

Lemma guarantees_bind {A B} P (p : prog S A) (f : A -> prog S B) (R : A -> World S -> Prop) Q :
  guarantees P p R -> (forall a, guarantees (R a) (f a) Q) -> guarantees P (p ≫= f) Q.
Proof.
  revert P. induction p as [a|X m k IH]; intros P [Hs Hp] Hf; [by eapply (guarantees_pre (R a))|].
  split; [done|]. intros w x w' Hl Hw Hx. destruct (Hp w x w' Hl Hw Hx) as (Hm & Hso & R' & ? & Hr).
  split_and!; [done..|]. exists R'. split; [done|]. by apply IH.
Qed.
Lemma reads_bind {A B} P (p : prog S A) (f : A -> prog S B) (R : A -> World S -> Prop) Q :
  reads P p R -> (forall a, reads (R a) (f a) Q) -> reads P (p ≫= f) Q.
Proof.
  revert P. induction p as [a|X m k IH]; intros P [Hs Hp] Hf; [by eapply (reads_pre (R a))|].
  destruct Hp as [Hu Hp]. split; [done|]. split.
  - intros w Hl Hw. destruct (Hu w Hl Hw) as [?|Hex]; [by left|right]. exact (ex_bind _ _ _ f Hex).
  - intros w x w' Hl Hw Hx. destruct (Hp w x w' Hl Hw Hx) as (Hm & R' & ? & Hr).
    split; [done|]. exists R'. split; [done|]. by apply IH.
Qed.

Lemma guarantees_act {A B} P (m : M (World S) A) (f : A -> prog S B) Q :
  kept_marked P ->
  (forall w x w', listed w -> P w -> m w = Ret (x, w') ->
    marks_stay w w' /\ sound_stay None w w' /\ exists R, (R w' : Prop) /\ guarantees R (f x) Q) ->
  guarantees P (act m ≫= f) Q.
Proof. by split. Qed.

(** Programs whose actions all keep the clients and their marks. *)
Lemma keeps_guarantees {A} P (p : prog S A) :
  kept_marked P -> acts (keeps_but None) p -> guarantees P p (fun _ => P).
Proof.
  intros HP. induction p as [a|X m k IH]; intros Hp; (split; [done|]); [done|]. destruct Hp as [Hm Hk].
  intros w x w' Hl Hw Hx%Hm. pose proof (keeps_marks None w w' Hx ltac:(done)) as Hms.
  split_and!; [done|by apply keeps_sound|]. exists P. split; [by eapply HP|by apply IH].
Qed.

Lemma reads_post {A} P (p : prog S A) (Q Q' : A -> World S -> Prop) :
  reads P p Q -> (forall a w, Q a w -> Q' a w) -> reads P p Q'.
Proof.
  revert P. induction p as [a|X m k IH]; intros P [Hs Hp] HQ; (split; [done|]); [by auto|].
  destruct Hp as [Hu Hp]. split; [done|]. intros w x w' Hl Hw Hx. destruct (Hp w x w' Hl Hw Hx) as (Hm & R' & ? & Hr).
  split; [done|]. exists R'. split; [done|]. by apply IH.
Qed.

Lemma reads_done {A} P (a : A) (Q : A -> World S -> Prop) : kept_sound P -> (forall w, P w -> Q a w) -> reads P (mret a) Q.
Proof. by split. Qed.
Lemma reads_keep {A B} P (m : M (World S) A) (f : A -> prog S B) Q :
  kept_sound P -> pres (keeps_but None) m -> (forall w, listed w -> P w -> no_uaf m w) ->
  (forall w x w', listed w -> P w -> m w = Ret (x, w') -> reads P (f x) Q) -> reads P (act m ≫= f) Q.
Proof.
  intros HP Hm Hu Hf. split; [done|]. split; [intros w Hl Hw; left; by apply Hu|]. intros w x w' Hl Hw Hx.
  pose proof (Hm _ _ _ Hx) as Hk. split; [by apply (keeps_marks None)|]. exists P.
  split; [by eapply HP, keeps_sound|by eapply Hf].
Qed.
Lemma reads_last {A} P (m : M (World S) A) :
  kept_sound P -> pres (keeps_but None) m -> (forall w, listed w -> P w -> no_uaf m w) -> reads P (act m) (fun _ => P).
Proof. intros HP Hm Hu. apply (reads_keep P m Done); [done..|]. intros w x w' _ _ _. by apply reads_done. Qed.
End logics.

(** ** Actions on one client *)

Section local.
Context {S : Type} `{CacheModule S}.
Variable heap_after : Z -> bytes.
Implicit Types (w : World S).

(** [m] looks at no client but [a]: where [a] is, more clients change nothing. *)
Definition local_to {A} (a : Z) (m : M (World S) A) : Prop :=
  forall w h, is_Some (w_heap w !! a) -> w_heap w ⊆ h ->
  match m w with
  | Ret (x, w') => is_Some (w_heap w' !! a) /\ exists h', w_heap w' ⊆ h' /\ m (set_heap h w) = Ret (x, set_heap h' w')
  | UB => m (set_heap h w) = UB
  | OutOfFuel => m (set_heap h w) = OutOfFuel
  end.

Lemma local_no_uaf {A} a (m : M (World S) A) w : local_to a m -> is_Some (w_heap w !! a) -> no_uaf m w.
Proof. intros Hm Ha Hu h Hh. specialize (Hm w h Ha Hh). by rw Hu in Hm. Qed.

Lemma local_bind {A B} a (m : M (World S) A) (f : A -> M (World S) B) :
  local_to a m -> (forall x, local_to a (f x)) -> local_to a (m ≫= f).
Proof.
  intros Hm Hf w h Ha Hh. specialize (Hm w h Ha Hh). unfold mbind, M_bind.
  destruct (m w) as [[x w1]| |]; [|by rw Hm..]. destruct Hm as (Ha1 & h1 & Hh1 & ->). by apply Hf.
Qed.
Lemma local_ret {A} a (x : A) : local_to a (mret x).
Proof. intros w h Ha Hh. split; [done|]. by exists h. Qed.
Lemma local_lift {A} a (o : outcome A) : local_to a (lift o).
Proof. intros w h Ha Hh. unfold lift. destruct o; [|done..]. split; [done|]. by exists h. Qed.
Lemma local_on_mem {A} a (m : M S A) : local_to a (on_mem m).
Proof.
  intros w h Ha Hh. unfold on_mem. change (w_mem (set_heap h w)) with (w_mem w).
  destruct (m (w_mem w)) as [[x s]| |]; [|done..]. split; [done|]. by exists h.
Qed.
Lemma local_get a : local_to a (get_client a).
Proof.
  intros w h [d Hd] Hh. unfold get_client. cbn [w_heap set_heap]. rw Hd (lookup_weaken _ _ _ _ Hd Hh).
  split; [by exists d|]. by exists h.
Qed.
Lemma local_put a d : local_to a (put_client a d).
Proof.
  intros w h Ha Hh. unfold put_client. cbn [w_heap set_heap]. split; [rw lookup_insert_eq; by exists d|].
  exists (<[a := d]> h). split; [by apply insert_mono|done].
Qed.
Lemma local_put_fd a id f : local_to a (put_fd id f).
Proof. intros w h Ha Hh. split; [done|]. by exists h. Qed.

Lemma local_fetch a : local_to a (fetch a).
Proof.
  unfold fetch. apply local_bind; [apply local_get|]. intros d w h Ha Hh. rw !bind_getS.
  assert (forall m : M S (Z * fdesc * ClientData), local_to a
    ('(r, f, d') ← on_mem m; _ ← put_fd (socket_id d) f; _ ← put_client a d'; mret r)) as Hrest.
  { intros m. apply local_bind; [apply local_on_mem|]. intros [[r f] d']. apply local_bind; [apply local_put_fd|].
    intros []. apply local_bind; [apply local_put|]. intros []. apply local_ret. }
  exact (Hrest _ w h Ha Hh).
Qed.
End local.

(** [local_auto]: follow the binds and branches. *)
Ltac local_auto :=
  repeat lazymatch goal with
  | |- local_to _ (mbind _ _) => apply local_bind; [|intros ?]
  | |- local_to _ (match ?x with _ => _ end) => destruct x
  | |- local_to _ (mret _) => apply local_ret
  | |- local_to _ (lift _) => apply local_lift
  | |- local_to _ (on_mem _) => apply local_on_mem
  | |- local_to _ (get_client _) => apply local_get
  | |- local_to _ (put_client _ _) => apply local_put
  | |- local_to _ _ => progress cbv zeta
  end.

Section reader.
Context {S : Type} `{CacheModule S}.
Variable heap_after : Z -> bytes.
Variable behind : nat -> bytes.
Implicit Types (w : World S).

Lemma local_fetch_msg a : local_to a (fetch_msg heap_after a).
Proof. unfold fetch_msg. local_auto. Qed.
Lemma local_mark a : local_to (S := S) a (mark_failed a).
Proof. unfold mark_failed. local_auto. Qed.
Lemma local_login a own after : local_to a (user_login heap_after a own after).
Proof. unfold user_login. local_auto. Qed.
Lemma local_redirect a msg after : local_to a (redirect heap_after a msg after).
Proof. unfold redirect. local_auto; apply local_login. Qed.

#[local] Hint Resolve keeps_send keeps_fetch keeps_fetch_msg keeps_flush keeps_login keeps_client_list keeps_polling : pres.

(** *** Deliveries and prints *)

Lemma acts_visits msg to_all l index sent : acts (S := S) (keeps_but None) (deliver_visits msg to_all l index sent).
Proof. revert sent. induction index as [|k index IH]; intros sent; cbn [deliver_visits]; acts_auto; apply IH. Qed.
Lemma acts_delivery msg : acts (S := S) (keeps_but None) (deliver msg).
Proof. unfold deliver. acts_auto. apply acts_visits. Qed.

Lemma visiting_acts (q : prog S Z) : visiting q -> acts (keeps_but None) q.
Proof.
  induction 1 as [msg to_all l index sent|q w q' w' _ IH Hq]; [apply acts_visits|].
  destruct q as [n|X m k]; [by injection Hq as <- _|]. destruct IH as [_ Hk]. simpl in Hq.
  destruct (m w) as [[x w1]| |]; [|done..]. injection Hq as <- _. apply Hk.
Qed.

Lemma reads_visiting P (q : prog S Z) : kept_sound P -> visiting q -> reads P q (fun _ => P).
Proof.
  intros HP. induction q as [n|X m k IH]; intros Hq; [by split|]. split; [done|]. split.
  - intros w _ _. right. by apply ex_visit; [|intros []].
  - intros w x w' _ Hw Hx. destruct (visiting_acts _ Hq) as [Hm _]. pose proof (Hm _ _ _ Hx) as Hk.
    split; [by apply (keeps_marks None)|]. exists P. split; [by eapply HP, keeps_sound|].
    apply IH. apply (v_step _ w _ w' Hq). simpl. by rw Hx.
Qed.

Lemma reads_prints P l : kept_sound P -> reads (S := S) P (debug_prints l) (fun _ => P).
Proof.
  intros HP. induction l as [|[fd a] l IH]; [by apply reads_done|]. split; [done|]. split.
  - intros w _ _. right. apply (ex_print fd a l).
  - intros w x w' _ Hw Hx. pose proof (pres_get_client (keeps_but None) a _ _ _ Hx) as Hk.
    split; [by apply (keeps_marks None)|]. exists P. split; [by eapply HP, keeps_sound|exact IH].
Qed.

(** [reads_step]: an action that keeps the clients. *)
Ltac reads_step :=
  apply reads_keep; [done|solve [eauto with pres]|first [solve [intros; eauto with pres]|idtac]|].
#[local] Hint Resolve nu_lift nu_on_mem nu_client_list nu_server nu_bump : pres.

Lemma reads_deliver P msg : kept_sound P -> reads (S := S) P (deliver msg) (fun _ => P).
Proof.
  intros HP. unfold deliver. reads_step. intros w [ol n] w' _ _ _. reads_step. intros _ t _ _ _ _.
  apply reads_visiting; [done|constructor].
Qed.

(** *** The entries *)

(** The clients of [f] are not marked. *)
Definition sounds (f : Z -> Prop) w : Prop := forall a, f a -> sound w a.
Lemma sounds_kept f : kept_sound (sounds f).
Proof. intros w w' Hf Hs a Ha. by apply Hs, Hf. Qed.
Lemma sounds_live f w a : sounds f w -> f a -> is_Some (w_heap w !! a).
Proof. intros Hf (d & -> & _)%Hf. by exists d. Qed.
#[local] Hint Resolve sounds_kept : core.

Lemma reads_handle_msgs f a fuel i n om need : f a ->
  reads (sounds f) (handle_msgs heap_after behind fuel a i n om need) (fun _ => sounds f).
Proof.
  intros Ha. assert (forall w, sounds f w -> is_Some (w_heap w !! a)) as Hlive by (intros w Hw; by eapply sounds_live).
  revert i n om need. induction fuel as [|fuel IH]; intros i n om need; cbn [handle_msgs].
  { apply reads_last; [done|eauto with pres|]. by intros w _ _. }
  destruct (0 <? n); [|by apply reads_done]. destruct om as [m|].
  2: { apply reads_last; [done|eauto with pres|]. by intros w _ _. }
  eapply reads_bind.
  - unfold handle. apply reads_keep; [done|apply pres_redirect; eauto with pres| |].
    { intros w _ Hw. eapply local_no_uaf; [apply local_redirect|by apply Hlive]. }
    intros w [msg|] w' _ _ _; [by apply reads_deliver|by apply reads_done].
  - intros r. cbv beta. reads_step.
    { intros w _ Hw. eapply local_no_uaf; [apply local_fetch_msg|by apply Hlive]. }
    intros _ [n' om'] _ _ _ _. apply IH.
Qed.

Lemma reads_try f a : f a -> reads (sounds f) (try_to_handle heap_after behind a) (fun _ => sounds f).
Proof.
  intros Ha. assert (forall w, sounds f w -> is_Some (w_heap w !! a)) as Hlive by (intros w Hw; by eapply sounds_live).
  unfold try_to_handle. reads_step.
  { intros w _ Hw. eapply local_no_uaf; [apply local_get|by apply Hlive]. }
  intros _ d _ _ _ _. cbv zeta. reads_step.
  { intros w _ Hw. eapply local_no_uaf; [apply local_fetch_msg|by apply Hlive]. }
  intros _ [n om] _ _ _ _. eapply reads_bind; [by apply reads_handle_msgs|]. intros need. cbv beta.
  destruct (need =? 0); [by apply reads_done|]. apply reads_last; [done|eauto with pres|eauto with pres].
Qed.

(** The mark that ends an entry is the only one that the reading thread sets. *)
Lemma mark_run a w r w' : mark_failed a w = Ret (r, w') ->
  keeps_but (Some a) w w' /\ forall d, w_heap w' !! a = Some d -> pub d = u64 FAIL.
Proof.
  intros Hr. split; [revert Hr; unfold mark_failed, mbind, M_bind; pose proof (keeps_put_client (S := S) a)|].
  - unfold get_client. destruct (w_heap w !! a) as [d|]; [|done]. intros Hp. by eapply H0.
  - revert Hr. unfold mark_failed, mbind, M_bind, get_client. destruct (w_heap w !! a) as [d|]; [|done].
    intros [= _ <-] d'. simpl. rw lookup_insert_eq. by intros [= <-].
Qed.

Lemma reads_mark (f g : Z -> Prop) a : f a -> (forall b, g b -> f b /\ b <> a) ->
  reads (S := S) (sounds f) (act (mark_failed a)) (fun _ => sounds g).
Proof.
  intros Ha Hg. split; [done|]. split.
  - intros w _ Hw. left. eapply local_no_uaf; [apply local_mark|by eapply sounds_live].
  - intros w [] w' _ Hw [Hk Hd]%mark_run. split.
    + apply (keeps_marks (Some a)); [done|]. intros b [= <-] [Hlt _]. split; [|done]. destruct Hk as (-> & _). done.
    + exists (sounds g). split; [|by split]. intros b [Hb Hne]%Hg. apply (keeps_sound _ _ _ Hk); [congruence|by apply Hw].
Qed.

Lemma reads_entry (g : Z -> Prop) fd a revents : ~ g a ->
  reads (sounds (fun b => fd <> -1 /\ b = a \/ g b)) (read_entry heap_after behind (fd, a) revents) (fun _ => sounds g).
Proof.
  intros Hn. unfold read_entry. set (f := fun b => _ \/ g b).
  assert (forall w, sounds f w -> sounds g w) as Hfg by (intros w Hw b Hb; apply Hw; by right).
  destruct (Z.eqb_spec fd (-1)) as [|Hfd]; [by apply reads_done|].
  assert (f a) as Ha by by left. assert (forall b, g b -> f b /\ b <> a) as Hg.
  { intros b Hb. split; [by right|]. by intros ->. }
  assert (forall w, sounds f w -> is_Some (w_heap w !! a)) as Hlive by (intros w Hw; by eapply sounds_live).
  reads_step. { intros w _ Hw. eapply local_no_uaf; [apply local_get|by apply Hlive]. }
  intros _ d _ _ _ _. destruct (negb _); [by apply reads_done|]. destruct (revents =? 0); [by apply reads_done|].
  destruct (negb _); [|by apply reads_mark].
  reads_step. { intros w _ Hw. eapply local_no_uaf; [apply local_fetch|by apply Hlive]. }
  intros _ r _ _ _ _. cbv zeta. destruct (i32 r =? 0); [by apply reads_mark|].
  eapply reads_pre; [done| |eapply reads_post; [by apply (reads_try f)|]]; [done|]. intros []. apply Hfg.
Qed.

(** The entries [index] of [l] that have a socket name these clients. *)
Definition pending (l : list (Z * Z)) (index : list nat) (a : Z) : Prop :=
  exists k fd, k ∈ index /\ l !! k = Some (fd, a) /\ fd <> -1.

Lemma reads_entries l revents index :
  NoDup (snd <$> l) -> NoDup index ->
  reads (sounds (pending l index)) (read_entries heap_after behind l revents index) (fun _ _ => True).
Proof.
  intros Hl. induction index as [|k index IH]; intros Hi; cbn [read_entries]; [by apply reads_done|].
  apply NoDup_cons in Hi as [Hk Hi]. reads_step. intros w0 [fd a] w1 _ _ Hrun.
  assert (l !! k = Some (fd, a)) as Ha.
  { revert Hrun. unfold lift, entry. destruct (l !! k); [|done]. by intros [= -> _]. }
  eapply reads_bind; [eapply reads_pre; [done| |apply (reads_entry (pending l index))]|intros []; by apply IH].
  - intros w Hw b [[Hfd ->]|(j & fd' & Hj & Hb & Hfd)]; apply Hw.
    + exists k, fd. split_and!; [apply list_elem_of_here|done..].
    + exists j, fd'. split_and!; [by apply list_elem_of_further|done..].
  - intros (j & fd' & Hj & Hb & _). assert (j = k) as ->; [|done].
    eapply (NoDup_lookup (snd <$> l)); [done|rw list_lookup_fmap Hb //|rw list_lookup_fmap Ha //].
Qed.

Lemma polling_entries_live l w : (forall a, a ∈ l -> is_Some (w_heap w !! a)) -> exists e, polling_entries l w = Ret (e, w).
Proof.
  induction l as [|a l IH]; intros Hl; cbn [polling_entries]; [by eexists|].
  destruct (Hl a) as [d Hd]; [apply list_elem_of_here|]. destruct IH as [e He].
  { intros b Hb. by apply Hl, list_elem_of_further. }
  unfold mbind, M_bind, get_client. rw Hd He. by eexists.
Qed.

Lemma nu_polling w : listed w -> no_uaf (S := S) get_polling_and_client_list w.
Proof.
  intros Hl Hu h _. revert Hu.
  assert (forall s, exists e, polling_entries (clients (w_server w)) (set_mem s w) = Ret (e, set_mem s w)) as Hs.
  { intros s. apply polling_entries_live. intros a Ha. destruct (li_live _ Hl a Ha) as (d & Hd & _). by exists d. }
  unfold get_polling_and_client_list, mbind, M_bind, server, on_mem, lift, copy_list, mret, M_ret. cbn [w_server set_heap w_mem].
  destruct (cm_malloc _ (w_mem w)) as [[[b|] s]| |]; [|done..]. destruct (_ <=? _); [|done].
  destruct (Hs s) as [e' ->]. done.
Qed.

Lemma reads_turn poll : reads (fun _ => True) (read_turn heap_after behind poll) (fun _ _ => True).
Proof.
  assert (kept_sound (S := S) (fun _ => True)) as HT by done.
  unfold read_turn. split; [done|]. split; [intros w Hl _; left; by apply nu_polling|].
  intros w [[e|] n] w' Hl _ Hrun; (split; [by apply (keeps_marks None); [eapply keeps_polling|]|]).
  2: { exists (fun _ => True). split; [done|]. by apply reads_done. }
  apply polling_list_spec in Hrun as (He & _ & Hlive).
  assert (NoDup (snd <$> e)) as Hnd by (rw He; apply Hl).
  exists (sounds (pending e (seq 0 (Z.to_nat n)))). split.
  { intros a (k & fd & _ & Hk%list_elem_of_lookup_2 & Hfd). destruct (Hlive fd a Hk Hfd) as (d & ? & Hp). exists d. by rw Hp. }
  eapply reads_bind; [by apply reads_prints|]. intros []. cbv beta. destruct (poll (fst <$> e)) as [ret revents].
  eapply (reads_bind _ _ _ (fun _ _ => True)).
  - destruct (_ || _); [by apply reads_done|apply reads_entries; [done|apply NoDup_seq]].
  - intros []. reads_step. intros _ i _ _ _ _. by apply reads_done.
Qed.
End reader.

(** ** What an excused action can be

    It reads a client or queues a message for it.  So the actions that read a
    socket, take a line, change a name or set a mark are never excused. *)
Section only_sends.
Context {S : Type} `{CacheModule S}.

Definition but_writing (d : ClientData) : Z * bytes * Z * InnerBuffer :=
  (socket_id d, name d, pub d, reading_buffer d).
Definition only_sends (w w' : World S) : Prop :=
  w_fds w' = w_fds w /\ w_server w' = w_server w /\ w_next w' = w_next w /\
  forall a, but_writing <$> w_heap w' !! a = but_writing <$> w_heap w !! a.

#[local] Instance only_sends_preorder : PreOrder only_sends.
Proof.
  split; [by intros w|]. intros w1 w2 w3 (A1 & A2 & A3 & A4) (B1 & B2 & B3 & B4). split_and!; congruence.
Qed.

Lemma only_sends_send a msg n : pres only_sends (send_msg a msg n).
Proof.
  intros w r w'. unfold send_msg, mbind, M_bind, get_client, on_mem, put_client, mret, M_ret.
  destruct (w_heap w !! a) as [d|] eqn:Ha; [|done]. unfold send_msg_to_client, mbind, M_bind, mret, M_ret.
  destruct (write_into_buffer _ _ _ (w_mem w)) as [[[x b] s]| |]; [|done..]. intros [= _ <-].
  split_and!; [done..|]. intros c. simpl. destruct (decide (c = a)) as [->|Hne]; [by rw lookup_insert_eq Ha|by rw lookup_insert_ne].
Qed.
#[local] Hint Resolve only_sends_preorder only_sends_send : pres.

Lemma visits_only_send (q : prog S Z) : visiting q -> acts only_sends q.
Proof.
  induction 1 as [msg to_all l index sent|q w q' w' _ IH Hq].
  - revert sent. induction index as [|k index IH]; intros sent; cbn [deliver_visits]; acts_auto; apply IH.
  - destruct q as [n|X m k]; [by injection Hq as <- _|]. destruct IH as [_ Hk]. simpl in Hq.
    destruct (m w) as [[x w1]| |]; [|done..]. injection Hq as <- _. apply Hk.
Qed.

Lemma excused_only_sends {A} (p : prog S A) :
  excused p -> match p with Done _ => False | Act m _ => pres only_sends m end.
Proof.
  induction 1 as [q Hv Hq|fd a l|A B p f _ IH]; [|apply pres_get_client, _|by destruct p].
  apply visits_only_send in Hv. destruct q as [n|X m k]; [by destruct Hq|apply Hv].
Qed.
End only_sends.

(** ** The writing thread *)

Section writer.
Context {S : Type} `{CacheModule S}.
Variable heap_after : Z -> bytes.
Implicit Types (w : World S).

Lemma keeps_take_out a : pres (S := S) (keeps_but None) (take_out a).
Proof.
  intros w x w'. unfold take_out, mbind, M_bind, server, get_client. destruct (w_heap w !! a) as [d|]; [|done].
  destruct (unlink (socket_id d) (clients (w_server w)) w) as [[ol w1]| |] eqn:Hl; [|done..].
  apply unlink_sublist in Hl as [-> Hl]. destruct ol as [l|]; intros [= _ <-]; [|done].
  split_and!; [done|by apply Hl|]. intros b _. simpl. destruct (w_heap w !! b) as [db|]; [|done]. by exists db.
Qed.
Lemma keeps_clear : pres (S := S) (keeps_but None) clear_sign.
Proof. intros w x w' [= _ <-]. by apply (reflexivity (R := keeps_but None) w). Qed.
#[local] Hint Resolve keeps_take_out keeps_clear keeps_flush keeps_client_list : pres.

Lemma acts_logout_delivery nm : acts (S := S) (keeps_but None) (logout_delivery heap_after nm).
Proof. unfold logout_delivery. acts_auto. apply acts_delivery. Qed.

Lemma done_for_kept a : kept_marked (S := S) (fun w => done_for w a).
Proof. intros w w' Hw Hm. by apply Hm. Qed.
#[local] Hint Resolve done_for_kept : core.

(** Only a marked client is released. *)
Lemma release_guarantees a :
  guarantees (S := S) (fun w => done_for w a) (act (release_client a)) (fun _ _ => True).
Proof.
  split; [done|]. intros w r w' _ Hw Hr. pose proof (keeps_release a _ _ _ Hr) as Hk.
  assert (w_heap w' !! a = None) as Hgone.
  { revert Hr. unfold release_client, mbind, M_bind, get_client, on_mem, free_client, mret, M_ret.
    destruct (w_heap w !! a); [|done]. destruct (release_client_info _ _) as [[x s]| |]; [|done..].
    intros [= _ <-]. apply lookup_delete_eq. }
  split_and!.
  - apply (keeps_marks (Some a)); [done|]. intros b [= <-] [Hlt _]. split; [by destruct Hk as (-> & _)|]. by rw Hgone.
  - intros b _ Hb. apply (keeps_sound _ _ _ Hk); [|done]. intros [= <-]. destruct Hb as (d & Hd & Hp).
    apply Hp. by apply Hw.
  - by exists (fun _ => True).
Qed.

Lemma logout_guarantees a : guarantees (S := S) (fun w => done_for w a) (logout heap_after a) (fun _ _ => True).
Proof.
  unfold logout. eapply guarantees_bind; [apply keeps_guarantees; [done|acts_auto]|]. intros [].
  eapply guarantees_bind; [apply keeps_guarantees; [done|acts_auto]|]. intros d.
  eapply guarantees_bind; [apply keeps_guarantees; [done|apply acts_logout_delivery]|]. intros sent.
  eapply guarantees_bind; [apply keeps_guarantees; [done|acts_auto]|]. intros [].
  eapply guarantees_bind; [apply release_guarantees|]. intros r. apply keeps_guarantees; [done|acts_auto].
Qed.

Lemma logout_visits_guarantees l index :
  guarantees (S := S) (fun _ => True) (logout_visits heap_after l index) (fun _ _ => True).
Proof.
  induction index as [|k index IH]; cbn [logout_visits]; [done|].
  eapply guarantees_bind; [apply keeps_guarantees; [done|acts_auto]|]. intros a.
  apply guarantees_act; [done|]. intros w d w' Hl _ Hd. pose proof (pres_get_client (keeps_but None) a _ _ _ Hd) as Hk.
  split_and!; [by apply (keeps_marks None)|by apply keeps_sound|].
  assert (w_heap w !! a = Some d /\ w' = w) as [Ha ->].
  { revert Hd. unfold get_client. destruct (w_heap w !! a); [|done]. by intros [= -> ->]. }
  destruct (Z.eqb_spec (u64 FAIL) (pub d)) as [Hp|_].
  - exists (fun w => done_for w a). split; [|eapply guarantees_bind; [apply logout_guarantees|by intros []]].
    split; [by apply (li_next _ Hl a d)|]. intros d'. rw Ha. by intros [= <-].
  - exists (fun _ => True). split; [done|exact IH].
Qed.

Lemma write_turn_guarantees : guarantees (S := S) (fun _ => True) (write_turn heap_after) (fun _ _ => True).
Proof.
  unfold write_turn. eapply guarantees_bind; [apply keeps_guarantees; [done|acts_auto]|]. intros [[l|] n]; [|done].
  eapply guarantees_bind; [apply keeps_guarantees; [done|]|].
  { induction (seq _ _) as [|k index IH]; cbn [flush_visits]; acts_auto. apply IH. }
  intros []. eapply guarantees_bind; [apply logout_visits_guarantees|]. intros [].
  apply keeps_guarantees; [done|]. unfold wait. acts_auto.
Qed.

(** A new client gets an address nobody had. *)
Lemma listen_stays id f peer now i1 i2 w w' :
  listed w -> handle_listen_turn id f peer now i1 i2 w = Ret (tt, w') ->
  marks_stay w w' /\ sound_stay None w w'.
Proof.
  intros Hl (_ & [(Hn & Hh & _)|(Hn & Hh & _)])%listen_run.
  - split; [intros a [? ?]; split; [lia|by rw Hh]|]. intros a _ (d & ? & ?). exists d. by rw Hh.
  - split.
    + intros a [? Ha]. split; [lia|]. rw Hh; [lia|done].
    + intros a _ (d & Hd & ?). exists d. rw Hh; [|done]. apply (li_next _ Hl) in Hd. lia.
Qed.
End writer.

(** ** Theorem *)

Section theorems.
Context {S : Type} `{CacheModule S}.
Variable heap_after : Z -> bytes.
Variable behind : nat -> bytes.
Abbreviation move := (move (S := S) heap_after behind).

Record confined (x : threads (S := S)) : Prop := {
  cf_inv : inv x;
  cf_reader : exists P, (P (t_world x) : Prop) /\ reads P (t_reader x) (fun _ _ => True);
  cf_writer : exists P, (P (t_world x) : Prop) /\ guarantees P (t_writer x) (fun _ _ => True);
}.

Lemma reads_stay P (p : prog S bool) Q w w' : reads P p Q -> P w -> sound_stay None w w' -> P w'.
Proof. intros Hp Hw Hs. destruct p; destruct Hp as [Hk _]; by eapply Hk. Qed.
Lemma guarantees_stay P (p : prog S bool) Q w w' : guarantees P p Q -> P w -> marks_stay w w' -> P w'.
Proof. intros Hp Hw Hs. destruct p; destruct Hp as [Hk _]; by eapply Hk. Qed.

Lemma move_confined x y : move x y -> confined x -> confined y.
Proof.
  intros Hm [Hi (P & HP & Hr) (Q & HQ & Hg)]. pose proof (inv_listed _ Hi) as Hl.
  pose proof (move_inv _ _ _ _ Hm Hi) as Hi'. destruct Hm; simpl in *; (constructor; [done|..]; cbn [t_world t_reader t_writer]).
  - apply listen_stays in H1 as [? ?]; [|done]. exists P. split; [by eapply reads_stay|done].
  - apply listen_stays in H1 as [? ?]; [|done]. exists Q. split; [by eapply guarantees_stay|done].
  - exists P. split; [|done]. eapply reads_stay; [done..|]. by intros a _ ?.
  - exists Q. split; [|done]. eapply guarantees_stay; [done..|]. by intros a ?.
  - destruct r as [|X m k]; [done|]. destruct Hr as (_ & _ & Hk). revert H1. simpl.
    destruct (m w) as [[z w1]| |] eqn:Hz; [|done..]. intros [= <- <-]. by destruct (Hk w z w1 Hl HP Hz) as [_ ?].
  - destruct r as [|X m k]; [done|]. destruct Hr as (_ & _ & Hk). revert H1. simpl.
    destruct (m w) as [[z w1]| |] eqn:Hz; [|done..]. intros [= <- <-]. destruct (Hk w z w1 Hl HP Hz) as [Hms _].
    exists Q. split; [|done]. by eapply guarantees_stay.
  - exists (fun _ => True). split; [done|apply reads_turn].
  - by exists Q.
  - destruct v as [|X m k]; [done|]. destruct Hg as (_ & Hk). revert H1. simpl.
    destruct (m w) as [[z w1]| |] eqn:Hz; [|done..]. intros [= <- <-]. destruct (Hk w z w1 Hl HQ Hz) as (_ & Hs & _).
    exists P. split; [|done]. by eapply reads_stay.
  - destruct v as [|X m k]; [done|]. destruct Hg as (_ & Hk). revert H1. simpl.
    destruct (m w) as [[z w1]| |] eqn:Hz; [|done..]. intros [= <- <-]. by destruct (Hk w z w1 Hl HQ Hz) as (_ & _ & ?).
  - by exists P.
  - exists (fun _ => True). split; [done|apply write_turn_guarantees].
Qed.

Lemma start_confined w : listed w -> confined (threads_start w).
Proof. intros Hl. constructor; [by apply start_inv|by exists (fun _ => True)..]. Qed.

(** C15 (safety): The only accesses of the reading thread that can meet a released
    client are the visits of a delivery and the prints of the debug block.
    Whatever the three threads do between any two of its actions, the clients whose
    sockets it goes on to read - their messages, their names, their marks - are
    alive: the race is confined to the snapshots that hold marked clients. *)
Theorem reader_uses_freed_in_snapshots w x :
  listed w -> rtc move (threads_start w) x -> use_after_free (t_reader x) (t_world x) -> excused (t_reader x).
Proof.
  intros Hw Hx [Hub (h & Hh & Hno)].
  assert (confined x) as [Hi (P & HP & Hr) _].
  { pose proof (start_confined w Hw) as Hc. induction Hx as [|x y z Hxy _ IH]; [done|]. by eapply IH, move_confined. }
  destruct (t_reader x) as [b|X m k]; [done|]. destruct Hr as (_ & Hu & _).
  destruct (Hu _ (inv_listed _ Hi) HP) as [Hn|?]; [|done]. exfalso. apply Hno. simpl in *.
  destruct (m (t_world x)) as [[z w1]| |] eqn:Hz; [done| |done]. by rw (Hn Hz h Hh).
Qed.
End theorems.

(** ** The race, once more *)

Lemma race_state :
  match exec reader_part (threads_start race_world) with
  | Some x0 =>
    match exec writer_part x0 with
    | Some x => rtc (move behind (fun _ => [nul])) (threads_start race_world) x /\
        use_after_free (t_reader x) (t_world x)
    | None => False
    end
  | None => False
  end.
Proof.
  pose proof race_check as Hc. destruct (exec reader_part _) as [x0|] eqn:H0; [|discriminate Hc].
  destruct (marked_check x0) as [d|] eqn:Hm; [|discriminate Hc]. destruct (exec writer_part x0) as [x|] eqn:H1; [|discriminate Hc].
  apply exec_moves in H0, H1. split; [by etrans|]. unfold uaf_check in Hc.
  destruct (w_heap (t_world x) !! 1) eqn:Hx; [done|].
  destruct (pstep (t_reader x) (t_world x)) as [p| |] eqn:Hub; [done| |done].
  destruct (pstep (t_reader x) (set_heap _ (t_world x))) as [p| |] eqn:Hok; [|done..].
  split; [done|]. exists (<[1 := d]> (w_heap (t_world x))). split; [by apply insert_subseteq|]. by rw Hok.
Qed.

(** In the state of the race the reading thread is in a delivery. *)
Lemma reader_uses_freed_in_snapshots_witness :
  match exec reader_part (threads_start race_world) with
  | Some x0 => match exec writer_part x0 with Some x => excused (t_reader x) | None => False end
  | None => False
  end.
Proof.
  pose proof race_state as Hr. destruct (exec reader_part _) as [x0|]; [|destruct Hr].
  destruct (exec writer_part x0) as [x|]; [|destruct Hr]. destruct Hr as [Hx Hu].
  apply (reader_uses_freed_in_snapshots behind (fun _ => [nul]) race_world); [apply race_start_listed|exact Hx|exact Hu].
Defined.
