(* ===== verification/ClientList.v ===== *)
(** * The client list as the server keeps it

    Server.v takes the list of the clients as a sequence of [info] pointers.  In
    IMServer.c it is an intrusive list of [ClientNode]s, allocated and freed by the
    threads and protected, together with [client_count] and [sign_to_flush_msg], by
    the mutex of the server object.  Here are all sections under that mutex, access
    by access on the nodes; they do to the nodes what the definitions of Server.v do
    to the sequence, whatever the interleaving. *)
From Stdlib Require Import Strings.Byte String.
From S2P Require Import Prelude CLib Alloc Cache Buffer Message ClientInfo Server LinuxList ListIter Interleave Locks.
From S2P Require Import BufferTheorems ClientTheorems ServerTheorems.

(** [n_world]: everything but the list, whose field [clients] is not used;
    [n_heap], [n_info]: the [node] and [info] fields of the nodes, and the head;
    [n_next]: the address of the next node. *)
Record NWorld (S : Type) := mkNWorld {
  n_world : World S;
  n_heap : heap;
  n_info : gmap Z Z;
  n_next : Z;
}.
Arguments mkNWorld {S}. Arguments n_world {S}. Arguments n_heap {S}.
Arguments n_info {S}. Arguments n_next {S}.

(** The sections, in the order of IMServer.c: [get_client_list], the removal in
    [user_logout], the two that count [sign_to_flush_msg] up, the polling list, the
    test before the wait and the reset behind it, and the new client of
    [handle_listen]. *)
Inductive section_call :=
| CCopy
| CTakeOut (a : Z)
| CBump
| CPoll
| CTest
| CClear
| CAdd (a : Z).

Definition section_ret (c : section_call) : Type :=
  match c with
  | CCopy => option (list Z) * Z
  | CPoll => option (list (Z * Z)) * Z
  | CTest => Z
  | _ => ()
  end.

Section sections.
Context {S : Type} `{CacheModule S}.
(** The address of [server_info->clients]. *)
Variable head : Z.
Abbreviation nprog := (lprog (NWorld S)).

(** ** Single accesses *)

Definition on_world {A} (m : M (World S) A) : M (NWorld S) A := fun x =>
  match m (n_world x) with
  | Ret (a, w) => Ret (a, mkNWorld w (n_heap x) (n_info x) (n_next x))
  | UB => UB
  | OutOfFuel => OutOfFuel
  end.
Definition on_list {A} (m : M heap A) : M (NWorld S) A := fun x =>
  match m (n_heap x) with
  | Ret (a, h) => Ret (a, mkNWorld (n_world x) h (n_info x) (n_next x))
  | UB => UB
  | OutOfFuel => OutOfFuel
  end.
Definition get_info (node : Z) : M (NWorld S) Z := fun x =>
  match n_info x !! node with Some a => Ret (a, x) | None => UB end.
(** A fresh node for the client [a]; its pointers are not initialised. *)
Definition new_node (a : Z) : M (NWorld S) Z := fun x =>
  let node := n_next x in
  Ret (node, mkNWorld (n_world x) (<[node := mkHead 0 0]> (n_heap x)) (<[node := a]> (n_info x)) (node + 1)).
Definition free_node (node : Z) : M (NWorld S) () := fun x =>
  Ret (tt, mkNWorld (n_world x) (delete node (n_heap x)) (delete node (n_info x)) (n_next x)).
(** A bound of the length of any walk. *)
Definition nodes_bound : M (NWorld S) nat := fun x => Ret (base.size (n_heap x), x).

Definition count_add (k : Z) : M (World S) () :=
  i ← server; put_server (set_clients (clients i) (i32 (client_count i + k)) i).

(** ** The sections *)

(** The walk that fills an array of [room] entries. *)
Fixpoint visit {B} (fuel : nat) (pos room : Z) (f : Z -> nprog B) (acc : list B) : nprog (list B) :=
  match fuel with
  | O => lact timeout
  | Datatypes.S fuel =>
    if pos =? head then mret acc
    else
      a ← lact (get_info pos);
      _ ← lact (if zlen acc <? room then mret tt else undef);
      b ← f a;
      n ← lact (on_list (load pos));
      visit fuel (next n) room f (acc ++ [b])
  end.
Definition visits {B} (room : Z) (f : Z -> nprog B) : nprog (list B) :=
  k ← lact nodes_bound;
  n ← lact (on_list (load head));
  visit (Datatypes.S k) (next n) room f [].

Definition copy_steps : nprog (option (list Z) * Z) :=
  i ← lact (on_world server);
  ob ← lact (on_world (on_mem (cm_malloc (u64 (8 * client_count i)))));
  match ob with
  | None => mret (None, 0)
  | Some _ =>
    l ← visits (client_count i) mret;
    mret (Some l, client_count i)
  end.

Definition poll_steps : nprog (option (list (Z * Z)) * Z) :=
  i ← lact (on_world server);
  let size := i32 (client_count i * 16) in
  ob ← lact (on_world (on_mem (cm_malloc (u64 size))));
  match ob with
  | None => mret (None, 0)
  | Some _ =>
    e ← visits (Z.min (client_count i) (u64 size / 16))
          (fun a => d ← lact (on_world (get_client a));
                    mret (if pub d =? SUCC then socket_id d else -1, a));
    mret (Some e, client_count i)
  end.

Fixpoint take_walk (fuel : nat) (pos a : Z) : nprog () :=
  match fuel with
  | O => lact timeout
  | Datatypes.S fuel =>
    if pos =? head then mret tt
    else
      b ← lact (get_info pos);
      db ← lact (on_world (get_client b));
      da ← lact (on_world (get_client a));
      if socket_id db =? socket_id da then
        _ ← lact (on_list (list_del pos));
        _ ← lact (on_world (count_add (-1)));
        lact (free_node pos)
      else
        n ← lact (on_list (load pos));
        take_walk fuel (next n) a
  end.
Definition take_out_steps (a : Z) : nprog () :=
  k ← lact nodes_bound;
  n ← lact (on_list (load head));
  take_walk (Datatypes.S k) (next n) a.

(** The node that nobody else knows yet is allocated here just behind the lock. *)
Definition add_steps (a : Z) : nprog () :=
  node ← lact (new_node a);
  _ ← lact (on_list (list_empty head));
  _ ← lact (on_list (list_add_tail node head));
  lact (on_world (count_add 1)).

Definition sign : M (World S) Z := i ← server; mret (sign_to_flush_msg i).

Definition section_body (c : section_call) : nprog (section_ret c) :=
  match c with
  | CCopy => copy_steps
  | CTakeOut a => take_out_steps a
  | CBump => lact (on_world bump_sign)
  | CPoll => poll_steps
  | CTest => lact (on_world sign)
  | CClear => lact (on_world clear_sign)
  | CAdd a => add_steps a
  end.

(** What the sections are in Server.v and Interleave.v. *)
Definition list_call (c : section_call) : M (World S) (section_ret c) :=
  match c with
  | CCopy => get_client_list
  | CTakeOut a => take_out a
  | CBump => bump_sign
  | CPoll => get_polling_and_client_list
  | CTest => sign
  | CClear => clear_sign
  | CAdd a => i ← server; put_server (set_clients (clients i ++ [a]) (i32 (client_count i + 1)) i)
  end.
Definition node_call (c : section_call) : M (NWorld S) (section_ret c) := lrun (section_body c).

(** ** The abstraction *)

Definition forget (w : World S) : World S :=
  let i := w_server w in set_server (set_clients [] (client_count i) i) w.

Record represents (x : NWorld S) (w : World S) (nodes : list Z) : Prop := {
  rp_world : n_world x = forget w;
  rp_list : dlist (n_heap x) head nodes;
  rp_info : Forall2 (fun node a => n_info x !! node = Some a) nodes (clients (w_server w));
  rp_count : client_count (w_server w) = i32 (zlen (clients (w_server w)));
  rp_fresh : forall a, is_Some (n_heap x !! a) -> a < n_next x;
}.

(** The computation on the nodes does what the one on the sequence does. *)
Definition simulates {A} (m : M (NWorld S) A) (m' : M (World S) A) (x : NWorld S) (w : World S) : Prop :=
  match m' w with
  | Ret (a, w') => exists x' nodes', m x = Ret (a, x') /\ represents x' w' nodes' /\ w_heap w' = w_heap w
  | UB => m x = UB
  | OutOfFuel => m x = OutOfFuel
  end.
End sections.

(** The section is entered for clients that are alive. *)
Definition alive_in (h : gmap Z ClientData) (c : section_call) : Prop :=
  match c with CTakeOut a => is_Some (h !! a) | _ => True end.
Fixpoint enters_alive {A} (h : gmap Z ClientData) (u : user section_ret A) : Prop :=
  match u with
  | UDone _ => True
  | UCall c k => alive_in h c /\ forall r, enters_alive h (k r)
  end.

(** ** Lemmas *)

Lemma lrun_act {T A B} (m : M T A) (f : A -> lprog T B) s :
  lrun (lact m ≫= f) s = match m s with Ret (a, s') => lrun (f a) s' | UB => UB | OutOfFuel => OutOfFuel end.
Proof. done. Qed.

Section lemmas.
Context {S : Type} `{CacheModule S}.
Variable head : Z.
Implicit Types (x : NWorld S) (w : World S) (nodes : list Z).
Abbreviation represents := (represents head).

Lemma Forall2_keep {A B} (P Q : A -> B -> Prop) l k :
  Forall2 P l k -> (forall y b, y ∈ l -> P y b -> Q y b) -> Forall2 Q l k.
Proof.
  induction 1 as [|y b l k Hy _ IH]; intros HQ; [constructor|]. constructor.
  - apply HQ; [apply list_elem_of_here|done].
  - apply IH. intros. apply HQ; [by apply list_elem_of_further|done].
Qed.

(** Nothing but the list and its count is forgotten. *)
Lemma represents_mem x w nodes s :
  represents x w nodes ->
  represents (mkNWorld (set_mem s (n_world x)) (n_heap x) (n_info x) (n_next x)) (set_mem s w) nodes.
Proof. intros [Hw Hl Hi Hc Hf]. constructor; cbn; [by rw Hw|done..]. Qed.

Lemma represents_server x w nodes i :
  represents x w nodes -> clients i = clients (w_server w) -> client_count i = client_count (w_server w) ->
  represents (mkNWorld (forget (set_server i w)) (n_heap x) (n_info x) (n_next x)) (set_server i w) nodes.
Proof. intros [Hw Hl Hi Hc Hf] H1 H2. constructor; cbn; [done|done|by rw H1|by rw H1 H2|done]. Qed.

(** An access to the rest of the world. *)
Lemma on_mem_run {A} (m : M S A) x w nodes :
  represents x w nodes ->
  simulates head (on_world (on_mem m)) (on_mem m) x w.
Proof.
  intros Hx. unfold simulates, on_world, on_mem. rw (rp_world _ _ _ _ Hx). cbn.
  destruct (m (w_mem w)) as [[a s']| |]; [|done..]. eexists _, nodes. split; [done|]. split; [|done].
  change (set_mem s' (forget w)) with (set_mem s' (forget w)). rw -(rp_world _ _ _ _ Hx). by apply represents_mem.
Qed.

Lemma server_run x w nodes :
  represents x w nodes -> on_world server x = Ret (set_clients [] (client_count (w_server w)) (w_server w), x).
Proof. intros Hx. unfold on_world, server. rw (rp_world _ _ _ _ Hx). cbn. f_equal. destruct x. cbn in *. f_equal.
  f_equal. symmetry. apply Hx. Qed.

Lemma client_run x w nodes a :
  represents x w nodes ->
  on_world (get_client a) x = match w_heap w !! a with Some d => Ret (d, x) | None => UB end.
Proof.
  intros Hx. unfold on_world, get_client. rw (rp_world _ _ _ _ Hx). cbn.
  destruct (w_heap w !! a); [|done]. destruct x. cbn in *. do 3 f_equal. symmetry. apply Hx.
Qed.

(** *** Walks *)

Lemma dlist_size h l : dlist h head l -> (length l < base.size h)%nat.
Proof.
  intros Hd. assert (list_to_set (head :: l) ⊆ dom h) as Hsub.
  { intros a Ha%elem_of_list_to_set. destruct (dlist_some _ _ _ _ Hd Ha) as [n Hn]. apply elem_of_dom.
    unfold nx in Hn. destruct (h !! a); [by eexists|done]. }
  apply subseteq_size in Hsub. rw size_list_to_set in Hsub; [by destruct Hd|]. rw size_dom in Hsub. cbn in Hsub. lia.
Qed.

Lemma load_run h l1 nd l2 :
  dlist h head (l1 ++ nd :: l2) -> exists n, load nd h = Ret (n, h) /\ next n = first_of head l2.
Proof.
  intros Hd. destruct (dlist_load h head (l1 ++ nd :: l2) nd Hd) as [n Hn].
  { apply list_elem_of_further, elem_of_app. right. apply list_elem_of_here. }
  exists n. split; [done|]. pose proof (dlist_next _ _ _ _ _ Hd) as Hnx. unfold load, nx in *.
  destruct (h !! nd); [|done]. by injection Hn as <-; injection Hnx as <-.
Qed.

Lemma head_run x w nodes :
  represents x w nodes -> exists n, on_list (load head) x = Ret (n, x) /\ next n = first_of head nodes.
Proof.
  intros Hx. destruct (dlist_load _ _ _ head (rp_list _ _ _ _ Hx) (list_elem_of_here _ _)) as [n Hn].
  exists n. split; [unfold on_list; rw Hn; by destruct x|].
  pose proof (dlist_head _ _ _ (rp_list _ _ _ _ Hx)) as [Hnx _]. unfold load, nx in *.
  destruct (n_heap x !! head); [|done]. by injection Hn as <-; injection Hnx as <-.
Qed.

Lemma first_not_head h l1 nd l2 : dlist h head (l1 ++ nd :: l2) -> nd <> head.
Proof.
  intros [Hd _] ->. apply NoDup_cons in Hd as [Hd _]. apply Hd, elem_of_app. right. apply list_elem_of_here.
Qed.

(** The walk over the nodes [l2], with a visit that changes nothing. *)
Lemma visit_run {B} (f : Z -> lprog (NWorld S) B) (g : Z -> option B) x room :
  (forall a, lrun (f a) x = match g a with Some b => Ret (b, x) | None => UB end) ->
  forall l2 as2 l1 fuel acc,
    dlist (n_heap x) head (l1 ++ l2) -> Forall2 (fun nd a => n_info x !! nd = Some a) l2 as2 ->
    (length l2 < fuel)%nat ->
    lrun (visit head fuel (first_of head l2) room f acc) x =
      match (if bool_decide (l2 = []) || (zlen acc + zlen l2 <=? room) then mapM g as2 else None) with
      | Some l => Ret (acc ++ l, x)
      | None => UB
      end.
Proof.
  intros Hf l2. induction l2 as [|nd l2 IH]; intros as2 l1 [|fuel] acc Hd Hi Hfuel; try (cbn in Hfuel; lia).
  { apply Forall2_nil_inv_l in Hi as ->. cbn [visit first_of hd_error default]. cbn. by rw Z.eqb_refl app_nil_r. }
  apply Forall2_cons_inv_l in Hi as (a & as3 & Ha & Hi & ->). cbn [visit first_of hd_error default].
  change (id nd) with nd. rw (proj2 (Z.eqb_neq nd head)); [by eapply first_not_head|].
  rw lrun_act. unfold get_info. rw Ha lrun_act. rw bool_decide_false // orb_false_l zlen_cons.
  destruct (Z.ltb_spec (zlen acc) room) as [Hr|Hr].
  2: { rw (proj2 (Z.leb_gt _ _)); [pose proof (zlen_nonneg l2); lia|done]. }
  cbn [mret M_ret]. rw lrun_bind bind_run Hf. cbn [mapM]. destruct (g a) as [b|]; [|by destruct (_ <=? _)].
  rw lrun_act. destruct (load_run _ _ _ _ Hd) as (n & Hn & Hnx). unfold on_list at 1. rw Hn Hnx.
  replace (mkNWorld _ _ _ _) with x by by destruct x.
  rw (IH as3 (l1 ++ [nd])) //; [by rw -app_assoc|cbn in Hfuel; lia|]. rw zlen_app.
  assert (bool_decide (l2 = []) || (zlen acc + zlen [b] + zlen l2 <=? room) = (zlen acc + (1 + zlen l2) <=? room)) as ->.
  { change (zlen [b]) with 1. destruct l2; [cbn; symmetry; apply Z.leb_le; unfold zlen in *; cbn in *; lia|].
    rw bool_decide_false // orb_false_l. f_equal. lia. }
  destruct (_ <=? room); [|done]. cbn. destruct (mapM g as3); [|done]. cbn. by rw -app_assoc.
Qed.

Lemma visits_run {B} (f : Z -> lprog (NWorld S) B) (g : Z -> option B) x w nodes room :
  represents x w nodes ->
  (forall a, lrun (f a) x = match g a with Some b => Ret (b, x) | None => UB end) ->
  lrun (visits head room f) x =
    match (if bool_decide (clients (w_server w) = []) || (zlen (clients (w_server w)) <=? room)
           then mapM g (clients (w_server w)) else None) with
    | Some l => Ret (l, x)
    | None => UB
    end.
Proof.
  intros Hx Hf. unfold visits. rw lrun_act. cbn [nodes_bound]. unfold nodes_bound. rw lrun_act.
  destruct (head_run _ _ _ Hx) as (n & Hn & Hnx). rw Hn Hnx.
  rw (visit_run f g x room Hf nodes (clients (w_server w)) []); [apply Hx|apply Hx| |].
  - pose proof (dlist_size _ _ (rp_list _ _ _ _ Hx)). lia.
  - pose proof (Forall2_length _ _ _ (rp_info _ _ _ _ Hx)) as Hlen. unfold zlen. cbn [length]. rw Hlen.
    assert (bool_decide (nodes = []) = bool_decide (clients (w_server w) = [])) as ->.
    { apply bool_decide_ext. rw -!length_zero_iff_nil. lia. }
    done.
Qed.

(** *** The sections that only read the list *)

Lemma room_enough (l : list Z) n :
  (l = [] -> 0 <= n) -> bool_decide (l = []) || (zlen l <=? n) = (zlen l <=? n).
Proof. intros Hl. case_bool_decide as Hb; [|done]. subst. symmetry. by apply Z.leb_le, Hl. Qed.

Lemma empty_count x w nodes : represents x w nodes -> clients (w_server w) = [] -> client_count (w_server w) = 0.
Proof. intros Hx Hl. by rw (rp_count _ _ _ _ Hx) Hl. Qed.

Lemma mapM_all {A} (l : list A) : mapM Some l = Some l.
Proof. induction l as [|a l IH]; [done|]. cbn. by rw IH. Qed.

Lemma copy_simulates x w nodes :
  represents x w nodes -> simulates head (lrun (copy_steps head)) get_client_list x w.
Proof.
  intros Hx. unfold simulates, copy_steps, get_client_list. rw lrun_act (server_run _ _ _ Hx) lrun_act bind_run.
  cbn [client_count set_clients server]. unfold server. rw bind_run.
  pose proof (on_mem_run (cm_malloc (u64 (8 * client_count (w_server w)))) x w nodes Hx) as Hm. unfold simulates in Hm.
  destruct (on_mem _ w) as [[[blk|] w1]| |] eqn:Hrun; [| |by rw Hm..].
  2: { destruct Hm as (x1 & nodes1 & -> & Hx1 & Hh). by exists x1, nodes1. }
  destruct Hm as (x1 & nodes1 & -> & Hx1 & Hh).
  assert (w_server w1 = w_server w) as Hsv.
  { unfold on_mem in Hrun. destruct (cm_malloc _ _) as [[? ?]| |]; [|done..]. by injection Hrun as _ <-. }
  rw lrun_bind !bind_run (visits_run (mret (M := lprog (NWorld S))) Some x1 w1 nodes1) //. rw Hsv room_enough; [intros Hl; by rw (empty_count _ _ _ Hx Hl)|].
  rw /lift /copy_list. destruct (_ <=? _); [|done].
  rw mapM_all.
  by exists x1, nodes1.
Qed.

Lemma polling_entries_mapM w l :
  polling_entries l w =
    match mapM (fun a => (fun d => (if pub d =? SUCC then socket_id d else -1, a)) <$> w_heap w !! a) l with
    | Some e => Ret (e, w)
    | None => UB
    end.
Proof.
  induction l as [|a l IH]; [done|]. cbn [polling_entries mapM]. rw bind_run. unfold get_client at 1.
  destruct (w_heap w !! a) as [d|]; [|done]. rw bind_run IH. cbn. by destruct (mapM _ l).
Qed.

Lemma poll_simulates x w nodes :
  represents x w nodes -> simulates head (lrun (poll_steps head)) get_polling_and_client_list x w.
Proof.
  intros Hx. unfold simulates, poll_steps, get_polling_and_client_list. cbv zeta.
  rw lrun_act (server_run _ _ _ Hx) lrun_act bind_run. cbn [client_count set_clients server]. unfold server. rw bind_run.
  pose proof (on_mem_run (cm_malloc (u64 (i32 (client_count (w_server w) * 16)))) x w nodes Hx) as Hm. unfold simulates in Hm.
  destruct (on_mem _ w) as [[[blk|] w1]| |] eqn:Hrun; [| |by rw Hm..].
  2: { destruct Hm as (x1 & nodes1 & -> & Hx1 & Hh). by exists x1, nodes1. }
  destruct Hm as (x1 & nodes1 & -> & Hx1 & Hh).
  assert (w_server w1 = w_server w) as Hsv.
  { unfold on_mem in Hrun. destruct (cm_malloc _ _) as [[? ?]| |]; [|done..]. by injection Hrun as _ <-. }
  rw lrun_bind !bind_run.
  rw (visits_run _ (fun a => (fun d => (if pub d =? SUCC then socket_id d else -1, a)) <$> w_heap w1 !! a) x1 w1 nodes1) //.
  { intros a. rw lrun_act (client_run _ _ _ _ Hx1). by destruct (w_heap w1 !! a). }
  rw Hsv room_enough; [intros Hl; by rw (empty_count _ _ _ Hx Hl)|].
  rw /lift /copy_list. destruct (_ <=? _); [|done].
  rw bind_run polling_entries_mapM. destruct (mapM _ _); [|done]. by exists x1, nodes1.
Qed.

(** *** The sections that change it *)

Lemma i32_add z k : i32 (i32 z + k) = i32 (z + k).
Proof.
  unfold i32. replace ((z + 2 ^ 31) mod 2 ^ 32 - 2 ^ 31 + k + 2 ^ 31) with ((z + 2 ^ 31) mod 2 ^ 32 + k) by lia.
  rw Zplus_mod_idemp_l. do 2 f_equal. lia.
Qed.

(** The operations neither make nor free list heads. *)
Definition keeps_dom {A} (m : M heap A) : Prop := forall h a h', m h = Ret (a, h') -> forall y, is_Some (h' !! y) <-> is_Some (h !! y).

Lemma keeps_set_next a v : keeps_dom (set_next a v).
Proof.
  intros h [] h'. unfold set_next. destruct (h !! a) eqn:Ha; [|done]. intros [= <-] y.
  destruct (decide (y = a)) as [->|?]; [by rw lookup_insert_eq Ha|by rw lookup_insert_ne].
Qed.
Lemma keeps_set_prev a v : keeps_dom (set_prev a v).
Proof.
  intros h [] h'. unfold set_prev. destruct (h !! a) eqn:Ha; [|done]. intros [= <-] y.
  destruct (decide (y = a)) as [->|?]; [by rw lookup_insert_eq Ha|by rw lookup_insert_ne].
Qed.
Lemma keeps_load a : keeps_dom (load a).
Proof. intros h n h'. unfold load. destruct (h !! a); [|done]. by intros [= _ <-]. Qed.
Lemma keeps_bind {A B} (m : M heap A) (f : A -> M heap B) :
  keeps_dom m -> (forall a, keeps_dom (f a)) -> keeps_dom (m ≫= f).
Proof.
  intros Hm Hf h b h'. rw bind_run. destruct (m h) as [[a h1]| |] eqn:Hr; [|done..]. intros Hb y.
  rw (Hf a h1 b h' Hb y). by eapply Hm.
Qed.
Ltac keeps := repeat lazymatch goal with
  | |- keeps_dom (_ ≫= _) => apply keeps_bind; [|intros ?]
  | |- keeps_dom (set_next _ _) => apply keeps_set_next
  | |- keeps_dom (set_prev _ _) => apply keeps_set_prev
  | |- keeps_dom (load _) => apply keeps_load
  end.
Lemma keeps_add_tail a hd : keeps_dom (list_add_tail a hd).
Proof. unfold list_add_tail, __list_add. keeps. Qed.
Lemma keeps_del a : keeps_dom (list_del a).
Proof. unfold list_del, __list_del. keeps. Qed.

Lemma add_simulates x w nodes a :
  represents x w nodes -> simulates head (lrun (add_steps head a)) (list_call (CAdd a)) x w.
Proof.
  intros Hx. unfold simulates, add_steps. cbn [list_call]. rw bind_run. cbn [server]. unfold server, put_server.
  rw lrun_act. cbn [new_node]. rw lrun_act. set (nd := n_next x). set (h1 := <[nd := mkHead 0 0]> (n_heap x)).
  destruct Hx as [Hw Hl Hi Hc Hf].
  assert (forall y, y ∈ head :: nodes -> y < nd) as Hold.
  { intros y Hy. destruct (dlist_some _ _ _ _ Hl Hy) as [n Hn]. apply Hf. unfold nx in Hn.
    destruct (n_heap x !! y); [by eexists|done]. }
  assert (nd ∉ head :: nodes) as Hnew by (intros Hin; specialize (Hold _ Hin); lia).
  assert (dlist h1 head nodes) as Hl1.
  { apply (dlist_frame [nd] (n_heap x)); [done| |].
    - intros y Hy. rw /nx /pv /h1 lookup_insert_ne //. intros ->. by apply Hy, list_elem_of_here.
    - intros y Hy ->%list_elem_of_singleton. done. }
  destruct (wp_total _ _ _ (list_empty_spec _ _ _ Hl1)) as (e & h1' & He & -> & _).
  unfold on_list at 1. cbn [n_heap]. rw He. rw lrun_act.
  assert (is_Some (h1 !! nd)) as Hs1 by (rw /h1 lookup_insert_eq; by eexists).
  destruct (wp_total _ _ _ (list_add_tail_spec _ _ _ nd Hl1 Hnew Hs1)) as ([] & h2 & Ha & Hl2 & _).
  unfold on_list at 1. cbn [n_heap n_world n_info n_next]. rw Ha lrun_lact.
  eexists _, (nodes ++ [nd]). split; [unfold on_world; cbn [n_world]; rw Hw; done|]. split; [|done].
  constructor; cbn.
  - done.
  - done.
  - apply Forall2_app; [|apply Forall2_cons_2; [apply lookup_insert_eq|constructor]].
    eapply Forall2_keep; [exact Hi|]. intros y b Hy Hb. rw lookup_insert_ne //.
    intros <-. by apply Hnew, list_elem_of_further.
  - rw Hc i32_add zlen_app. done.
  - intros y Hy. apply (keeps_add_tail nd head h1 tt h2 Ha) in Hy. rw /h1 in Hy.
    destruct (decide (y = nd)) as [->|Hne]; [lia|]. rw lookup_insert_ne // in Hy. specialize (Hf y Hy). unfold nd in *. lia.
Qed.

(** The node at [nd] taken out, freed, and the count lowered. *)
Lemma remove_run x w nd l1 l2 as1 a as2 :
  represents x w (l1 ++ nd :: l2) -> clients (w_server w) = as1 ++ a :: as2 -> length l1 = length as1 ->
  exists x',
    lrun (_ ← lact (on_list (list_del nd)); _ ← lact (on_world (count_add (-1))); lact (free_node nd)) x = Ret (tt, x') /\
    represents x' (set_server (set_clients (as1 ++ as2) (i32 (client_count (w_server w) - 1)) (w_server w)) w) (l1 ++ l2).
Proof.
  intros [Hw Hl Hi Hc Hf] Has Hlen. rw Has in Hi.
  destruct (wp_total _ _ _ (list_del_spec _ _ _ _ _ Hl)) as ([] & h' & Hd & Hl' & _).
  rw lrun_act. unfold on_list. rw Hd lrun_act. unfold on_world. cbn [n_world n_heap n_info n_next]. rw Hw.
  cbn [count_add]. eexists. split; [done|].
  pose proof (dlist_removed _ _ _ _ _ Hl) as Hnd. assert (nd ∉ l1 ++ l2) as Hnd' by (intros Hin; by apply Hnd, list_elem_of_further).
  constructor; cbn.
  - done.
  - apply (dlist_frame [nd] h'); [done| |].
    + intros y Hy. rw /nx /pv lookup_delete_ne //. intros ->. by apply Hy, list_elem_of_here.
    + intros y Hy ->%list_elem_of_singleton. done.
  - apply Forall2_app_inv in Hi as [Hi1 Hi2]; [|done]. apply Forall2_cons in Hi2 as [_ Hi2].
    eapply Forall2_keep; [by apply Forall2_app|]. intros y b Hy Hb. cbn in Hb. rw lookup_delete_ne //. by intros ->.
  - rw Hc Has -Z.add_opp_r i32_add !zlen_app zlen_cons. f_equal. lia.
  - intros y Hy. apply Hf, (keeps_del nd _ _ _ Hd). destruct (decide (y = nd)) as [->|Hne].
    + by rw lookup_delete_eq in Hy; destruct Hy.
    + by rw lookup_delete_ne // in Hy.
Qed.

(** The walk that looks for the socket of the client [a]. *)
Lemma take_walk_run x w a da :
  w_heap w !! a = Some da -> forall l2 as2 l1 as1 fuel,
  represents x w (l1 ++ l2) -> clients (w_server w) = as1 ++ as2 -> length l1 = length as1 -> (length l2 < fuel)%nat ->
  match unlink (socket_id da) as2 w with
  | Ret (None, _) => lrun (take_walk head fuel (first_of head l2) a) x = Ret (tt, x)
  | Ret (Some l', _) => exists x' nodes', lrun (take_walk head fuel (first_of head l2) a) x = Ret (tt, x') /\
      represents x' (set_server (set_clients (as1 ++ l') (i32 (client_count (w_server w) - 1)) (w_server w)) w) nodes'
  | UB => lrun (take_walk head fuel (first_of head l2) a) x = UB
  | OutOfFuel => False
  end.
Proof.
  intros Hda l2. induction l2 as [|nd l2 IH]; intros as2 l1 as1 [|fuel] Hx Has Hlen Hfuel; try (cbn in Hfuel; lia).
  { pose proof (rp_info _ _ _ _ Hx) as Hi. rw Has in Hi. apply Forall2_app_inv in Hi as [_ ->%Forall2_nil_inv_l]; [|done].
    cbn [unlink mret M_ret take_walk first_of hd_error default]. cbn. by rw Z.eqb_refl. }
  pose proof (rp_info _ _ _ _ Hx) as Hi. rw Has in Hi. apply Forall2_app_inv in Hi as [_ Hi]; [|done].
  apply Forall2_cons_inv_l in Hi as (b & as3 & Hb & _ & ->). cbn [take_walk first_of hd_error default unlink].
  change (id nd) with nd. rw (proj2 (Z.eqb_neq nd head)); [eapply first_not_head, Hx|].
  rw lrun_act. unfold get_info. rw Hb lrun_act (client_run _ _ _ _ Hx) bind_run. unfold get_client at 1.
  destruct (w_heap w !! b) as [db|]; [|done]. rw lrun_act (client_run _ _ _ _ Hx) Hda.
  destruct (socket_id db =? socket_id da).
  - cbn [mret M_ret]. destruct (remove_run x w nd l1 l2 as1 b as3 Hx Has Hlen) as (x' & Hrun & Hx').
    exists x', (l1 ++ l2). split; [done|]. by eapply Hx'.
  - rw lrun_act. destruct (load_run _ _ _ _ (rp_list _ _ _ _ Hx)) as (n & Hn & Hnx).
    assert (on_list (load nd) x = Ret (n, x)) as -> by (unfold on_list; rw Hn; by destruct x). rw Hnx.
    specialize (IH as3 (l1 ++ [nd]) (as1 ++ [b]) fuel). rw -!app_assoc /= in IH.
    specialize (IH Hx Has). rw !length_app Hlen in IH. specialize (IH eq_refl ltac:(cbn in Hfuel; lia)).
    rw bind_run. destruct (unlink (socket_id da) as3 w) as [[[l'|] w1]| |] eqn:Hu; [|exact IH..].
    cbn. cbn in IH. destruct IH as (x' & nodes' & Hrun & Hx'). exists x', nodes'. split; [done|]. by rw -app_assoc in Hx'.
Qed.

Lemma take_out_simulates x w nodes a :
  represents x w nodes -> is_Some (w_heap w !! a) -> simulates head (lrun (take_out_steps head a)) (take_out a) x w.
Proof.
  intros Hx [da Hda]. unfold simulates, take_out_steps, take_out. rw lrun_act. unfold nodes_bound. rw lrun_act.
  destruct (head_run _ _ _ Hx) as (n & Hn & Hnx). rw Hn Hnx. rw bind_run. unfold server. rw bind_run.
  unfold get_client. rw Hda bind_run.
  pose proof (take_walk_run x w a da Hda nodes (clients (w_server w)) [] [] (Datatypes.S (base.size (n_heap x))) Hx eq_refl eq_refl) as Hrun.
  specialize (Hrun ltac:(pose proof (dlist_size _ _ (rp_list _ _ _ _ Hx)); lia)).
  destruct (unlink _ _ w) as [[[l'|] w1]| |] eqn:Hu; [|by apply unlink_world in Hu as ->; eexists _, nodes|done|done].
  apply unlink_world in Hu as ->. destruct Hrun as (x' & nodes' & Hrun & Hx'). by exists x', nodes'.
Qed.

Lemma world_simulates {A} (m : M (World S) A) x w nodes (r : ServerInfo -> A) (f : ServerInfo -> ServerInfo) :
  represents x w nodes ->
  (forall w, m w = Ret (r (w_server w), set_server (f (w_server w)) w)) ->
  (forall i l, r (set_clients l (client_count i) i) = r i) ->
  (forall i l, f (set_clients l (client_count i) i) = set_clients l (client_count (f i)) (f i)) ->
  (forall i, clients (f i) = clients i /\ client_count (f i) = client_count i) ->
  simulates head (lrun (lact (on_world m))) m x w.
Proof.
  intros Hx Hm Hr Hf Hc. unfold simulates. rw lrun_lact Hm. unfold on_world. rw Hm (rp_world _ _ _ _ Hx). cbn.
  rw Hr Hf. eexists _, nodes. split; [done|]. split; [|done].
  by apply (represents_server x w nodes (f (w_server w)) Hx); apply Hc.
Qed.

Lemma section_simulates c x w nodes :
  represents x w nodes -> alive_in (w_heap w) c -> simulates head (node_call head c) (list_call c) x w.
Proof.
  intros Hx Ha. unfold node_call. destruct c as [|a| | | | |a]; cbn [section_body list_call].
  - by eapply copy_simulates.
  - by eapply take_out_simulates.
  - by apply (world_simulates _ x w nodes (fun _ => tt) (fun i => set_sign (i32 (sign_to_flush_msg i + 1)) i)).
  - by eapply poll_simulates.
  - apply (world_simulates _ x w nodes sign_to_flush_msg (fun i => i)); try done. intros [? ? ? ? ?]. done.
  - by apply (world_simulates _ x w nodes (fun _ => tt) (fun i => set_sign 0 i)).
  - by eapply add_simulates.
Qed.

Lemma section_flat c : flat (section_body head c).
Proof.
  assert (forall B (f : Z -> lprog (NWorld S) B) room, (forall a, flat (f a)) -> forall fuel pos acc, flat (visit head fuel pos room f acc)) as Hvisit.
  { intros B f room Hf fuel. induction fuel as [|fuel IH]; intros pos acc; cbn [visit]; flat_auto; auto. }
  assert (forall fuel pos a, flat (take_walk (S := S) head fuel pos a)) as Hwalk.
  { intros fuel. induction fuel as [|fuel IH]; intros pos a; cbn [take_walk]; flat_auto; auto. }
  destruct c; cbn [section_body]; unfold copy_steps, take_out_steps, poll_steps, add_steps, visits; cbv zeta;
    flat_auto; try done; try apply Hvisit; try apply Hwalk; intros; flat_auto.
Qed.

(** Whole sections on the nodes are sections on the sequence. *)
Lemma sections_lift {A} x w nodes (us : list (user section_ret A)) z :
  represents x w nodes -> Forall (enters_alive (w_heap w)) us -> rtc (call_move (node_call head)) (x, us) z ->
  exists w' nodes', rtc (call_move list_call) (w, us) (w', z.2) /\ represents z.1 w' nodes' /\
    w_heap w' = w_heap w /\ Forall (enters_alive (w_heap w)) z.2.
Proof.
  intros Hx Ha Hm. remember (x, us) as z0 eqn:Hz. revert x w nodes us Hz Hx Ha.
  induction Hm as [z0|z0 z1 z2 [t Hs] _ IH]; intros x w nodes us -> Hx Ha; [by exists w, nodes|].
  unfold call_step in Hs. cbn in Hs. destruct (us !! t) as [u|] eqn:Hu; [|done]. cbn in Hs.
  pose proof (Forall_lookup_1 _ _ _ _ Ha Hu) as Hal. destruct u as [b|c k]; [done|]. cbn in Hs, Hal.
  destruct Hal as [Hal Hk]. pose proof (section_simulates c x w nodes Hx Hal) as Hsim. unfold simulates in Hsim.
  rw bind_run in Hs. destruct (list_call c w) as [[r w1]| |] eqn:Hl; [|by rw Hsim in Hs..].
  destruct Hsim as (x1 & nodes1 & Hrun & Hx1 & Hh1). rw Hrun in Hs. cbn in Hs. injection Hs as <-.
  destruct (IH x1 w1 nodes1 (<[t := k r]> us) eq_refl Hx1) as (w2 & nodes2 & Hm2 & Hx2 & Hh2 & Ha2).
  { rw Hh1. by apply Forall_insert. }
  exists w2, nodes2. split_and!; [|done|congruence|by rw -Hh1].
  eapply rtc_l; [|exact Hm2]. exists t. unfold call_step. cbn. rw Hu. cbn. by rw bind_run Hl.
Qed.
End lemmas.

(** ** Theorems *)

Section theorems.
Context {S : Type} `{CacheModule S}.
Variable head : Z.

(** C18 (refinement): The sections under the server's mutex, taken node by node -
    copying the list, taking a client out and freeing its node, composing the
    polling list, adding a client, and the counting of [sign_to_flush_msg] - do to
    the intrusive list and the other fields what the definitions of Server.v and
    Interleave.v do to the sequence of clients: the same results, the sequence in
    step with the nodes, and undefined on one side exactly when on the other, if
    the client to take out is alive. *)
Theorem list_sections_refine c (x : NWorld S) w nodes :
  represents head x w nodes -> alive_in (w_heap w) c ->
  match list_call c w with
  | Ret (r, w') => exists x' nodes', lrun (section_body head c) x = Ret (r, x') /\ represents head x' w' nodes'
  | UB => lrun (section_body head c) x = UB
  | OutOfFuel => lrun (section_body head c) x = OutOfFuel
  end.
Proof.
  intros Hx Ha. pose proof (section_simulates head c x w nodes Hx Ha) as Hs. unfold simulates, node_call in Hs.
  destruct (list_call c w) as [[r w']| |]; [|done..]. destruct Hs as (x' & nodes' & ? & ? & _). by exists x', nodes'.
Qed.

(** C7 (refinement): The threads that share the client list: however their accesses
    to the nodes interleave, the sequence of clients is where some order of whole
    sections, each as Server.v defines it, brings it; when the mutex is free the
    nodes represent that sequence, and while a thread holds it the rest of its
    accesses leads to the end of its section; an access is undefined only if a
    section of Server.v is. *)
Theorem client_list_linearizable (A : Type) (x : NWorld S) w nodes (us : list (user section_ret A)) y :
  represents head x w nodes -> Forall (enters_alive (w_heap w)) us ->
  rtc lmove (users_start (section_body head) x us) y ->
  exists x' w' nodes' us', rtc (call_move list_call) (w, us) (w', us') /\ represents head x' w' nodes' /\
    between (section_body head) (node_call head) y x' us' /\
    (forall t o, lstep t y = Some o -> fails o -> exists o', call_step list_call t (w', us') = Some o' /\ fails o').
Proof.
  intros Hx Ha Hr.
  destruct (users_between section_ret (section_body head) (node_call head) (section_flat head) (fun _ _ => eq_refl) x us y Hr)
    as (x' & us' & Hm & Hb & Hfail).
  destruct (sections_lift head x w nodes us _ Hx Ha Hm) as (w' & nodes' & Hm' & Hx' & Hh & Ha'). cbn in *.
  exists x', w', nodes', us'. split_and!; [done..|]. intros t o Hs Ho. destruct (Hfail t o Hs Ho) as (o' & Hc & Ho').
  unfold call_step in *. cbn in *. destruct (us' !! t) as [u|] eqn:Hu; [|done]. cbn in *.
  pose proof (Forall_lookup_1 _ _ _ _ Ha' Hu) as Hal. destruct u as [b|c k]; [done|]. cbn in *.
  rw -Hh in Hal. pose proof (section_simulates head c x' w' nodes' Hx' (proj1 Hal)) as Hsim. unfold simulates in Hsim.
  injection Hc as <-. rw bind_run in Ho'. eexists. split; [done|]. rw bind_run.
  destruct (list_call c w') as [[r w1]| |]; [|done..]. destruct Hsim as (x1 & nodes1 & Hrun & _). by rw Hrun in Ho'.
Qed.
End theorems.

(** ** Concrete threads *)

(** The nodes 1 and 2 of the clients 1 and 2, behind the head 10. *)
Definition demo_nodes : NWorld mem :=
  mkNWorld (forget (demo_world [] no_fd)) demo_heap (<[1 := 1]> (<[2 := 2]> ∅)) 100.

Lemma demo_represents : represents 10 demo_nodes (demo_world [] no_fd) [1; 2].
Proof.
  constructor; cbn [n_heap n_world n_info n_next demo_nodes]; [done|apply demo_list| |done|].
  - by repeat constructor.
  - intros a [v Ha]. apply elem_of_list_to_map_2 in Ha. rw !elem_of_cons in Ha.
    repeat destruct Ha as [[= -> _]|Ha]; try lia. by apply not_elem_of_nil in Ha.
Qed.

Lemma list_sections_refine_witness :
  exists x' nodes', lrun (section_body 10 (CTakeOut 2)) demo_nodes = Ret (tt, x') /\
    represents 10 x' (set_server (set_clients [1] 1 (w_server (demo_world [] no_fd))) (demo_world [] no_fd)) nodes'.
Proof.
  apply (list_sections_refine 10 (CTakeOut 2) demo_nodes (demo_world [] no_fd) [1; 2]); [apply demo_represents|by eexists].
Defined.

(** One thread adds a client and copies the list, one takes a client out, one
    composes the polling list. *)
Definition three_users : list (user section_ret nat) :=
  [ UCall (CAdd 1) (fun _ => UCall CCopy (fun r => UDone (length (default [] r.1))));
    UCall (CTakeOut 2) (fun _ => UDone O);
    UCall CPoll (fun r => UDone (length (default [] r.1))) ].
Definition three_turns (n : nat) : list nat := concat (replicate n [0; 1; 2; 2; 0]%nat).

Lemma client_list_linearizable_witness :
  exists x' w' nodes' us',
    rtc (call_move list_call) (demo_world [] no_fd, three_users) (w', us') /\ represents 10 x' w' nodes' /\
    between (section_body 10) (node_call 10) (follow (three_turns 5) (users_start (section_body 10) demo_nodes three_users)) x' us' /\
    (forall t o, lstep t (follow (three_turns 5) (users_start (section_body 10) demo_nodes three_users)) = Some o ->
       fails o -> exists o', call_step list_call t (w', us') = Some o' /\ fails o').
Proof.
  apply (client_list_linearizable 10 nat demo_nodes (demo_world [] no_fd) [1; 2] three_users); [apply demo_represents| |].
  - apply Forall_cons; split; [done|]. apply Forall_cons; split; [|by apply Forall_cons].
    split; [by eexists|done].
  - apply follow_moves.
Defined.

Definition returned {T A} (p : lprog T A) : option A := match p with LDone a => Some a | _ => None end.
Example three_users_end :
  returned <$> procs (follow (three_turns 30) (users_start (section_body 10) demo_nodes three_users)) =
    [Some 3; Some O; Some 2]%nat.
Proof. by vm_compute. Qed.
