(* ===== verification/Blocks.v ===== *)
(** * The blocks that the server allocates and frees

    The other files pass a message, a fetched line and the copies of the client
    list by value.  Here they are blocks of a heap, reached through pointers: what
    [malloc] gives stays until [free], a pointer to a freed block is dangling.  The
    definitions are those of Message.v and Server.v with the blocks; the theorems
    say that they compute the same and which blocks they leave.  [malloc(0)] gives
    a block, as the state of the allocator says. *)
From Stdlib Require Import Strings.Byte String.
From S2P Require Import Prelude CLib Alloc Cache Buffer Message ClientInfo Server ServerSpec ServerLoop.

(** A string or line; a [Msg], whose content is another block; the two arrays. *)
Inductive block :=
| BBytes (b : bytes)
| BMsg (target exclude : bytes) (size : Z) (content : Z)
| BClients (l : list Z)
| BPoll (l : list (Z * Z)).

Record BWorld (S : Type) := mkBWorld {
  b_world : World S;
  b_blocks : gmap Z block;
  b_next : Z;
}.
Arguments mkBWorld {S}. Arguments b_world {S}. Arguments b_blocks {S}. Arguments b_next {S}.

Section ops.
Context {S : Type} `{CacheModule S}.
Variable heap_after : Z -> bytes.
Variable behind : nat -> bytes.

Definition on_w {A} (m : M (World S) A) : M (BWorld S) A := fun x =>
  match m (b_world x) with
  | Ret (a, w) => Ret (a, mkBWorld w (b_blocks x) (b_next x))
  | UB => UB
  | OutOfFuel => OutOfFuel
  end.
Definition new_block (b : block) : M (BWorld S) Z := fun x =>
  Ret (b_next x, mkBWorld (b_world x) (<[b_next x := b]> (b_blocks x)) (b_next x + 1)).
Definition load_block (p : Z) : M (BWorld S) block := fun x =>
  match b_blocks x !! p with Some b => Ret (b, x) | None => UB end.
Definition store_block (p : Z) (b : block) : M (BWorld S) () := fun x =>
  match b_blocks x !! p with
  | Some _ => Ret (tt, mkBWorld (b_world x) (<[p := b]> (b_blocks x)) (b_next x))
  | None => UB
  end.
Definition free (p : Z) : M (BWorld S) () := fun x =>
  match b_blocks x !! p with
  | Some _ => Ret (tt, mkBWorld (b_world x) (delete p (b_blocks x)) (b_next x))
  | None => UB
  end.
Definition load_bytes (p : Z) : M (BWorld S) bytes :=
  b ← load_block p; match b with BBytes l => mret l | _ => undef end.
(** The message at [p], with the pointer to its content. *)
Definition load_msg (p : Z) : M (BWorld S) (bytes * bytes * Z * Z) :=
  b ← load_block p; match b with BMsg t e n q => mret (t, e, n, q) | _ => undef end.
Definition load_clients (p : Z) : M (BWorld S) (list Z) :=
  b ← load_block p; match b with BClients l => mret l | _ => undef end.
Definition load_poll (p : Z) : M (BWorld S) (list (Z * Z)) :=
  b ← load_block p; match b with BPoll l => mret l | _ => undef end.
Definition lift_w {A} (o : outcome A) : M (BWorld S) A := on_w (lift o).

(** ** Messages *)

Definition create_new_msg_at (n : Z) : M (BWorld S) (option Z) :=
  oc ← on_w (on_mem (cm_malloc n));
  match oc with
  | None => mret None
  | Some junk =>
    q ← new_block (BBytes junk);
    c ← load_bytes q;
    c ← lift_w (mem_write 0 (zeros n) c);
    _ ← store_block q (BBytes c);
    om ← on_w (on_mem (cm_malloc 80));
    match om with
    | None => _ ← free q; mret None
    | Some m =>
      let w := Z.to_nat CLIENT_NAME_MAXIMUM_SIZE in
      p ← new_block (BMsg (take w m) (take w (drop w m)) n q);
      mret (Some p)
    end
  end.

Definition release_msg (msg : option Z) : M (BWorld S) () :=
  match msg with
  | None => mret tt
  | Some p =>
    '(_, _, _, q) ← load_msg p;
    _ ← free q;
    free p
  end.

(** The text at offset [k] of the block [p], with [after] behind the block. *)
Definition load_text (p k : Z) (after : bytes) : M (BWorld S) (bytes * bytes) :=
  own ← load_bytes p; mret (at_offset k own after).
(** The newline of that text overwritten. *)
Definition cut_text (p k : Z) (after : bytes) : M (BWorld S) () :=
  own ← load_bytes p;
  let '(own', after') := at_offset k own after in
  cut ← lift_w (cut_line own' after');
  store_block p (BBytes (take (Z.to_nat k) own ++ cut)).

(** The message at [p] filled in: [text] printed to its content, the terminator not
    counted, the names copied. *)
Definition fill_msg (p : Z) (text : bytes) (tgt : option bytes) (excl : option bytes) : M (BWorld S) () :=
  '(t, e, n, q) ← load_msg p;
  c ← load_bytes q;
  c ← lift_w (store_cstr text c);
  _ ← store_block q (BBytes c);
  t ← lift_w (match tgt with None => Ret t | Some s => strcpy t s end);
  e ← lift_w (match excl with None => Ret e | Some s => strcpy e s end);
  store_block p (BMsg t e (u64 (n - 1)) q).

Definition create_p2p_msg_at (sender : bytes) (tgt : option bytes) (p k : Z) (after : bytes)
    : M (BWorld S) (option Z) :=
  _ ← cut_text p k after;
  sn ← lift_w (cstr sender);
  '(own, after) ← load_text p k after;
  sc ← lift_w (cstr (own ++ after));
  let message_len := i32 (zlen (bs MSG_PEER_PREFIX) + zlen sn + zlen sc + 5) in
  om ← create_new_msg_at message_len;
  match om with
  | None => mret None
  | Some m =>
    _ ← fill_msg m (bs MSG_PEER_PREFIX ++ bs " " ++ sn ++ bs MSG_PREFIX_INDICATOR ++ bs " " ++ sc ++ [nl])
          tgt (Some sender);
    mret (Some m)
  end.

(** Here the text is in the block of a cache. *)
Definition create_sys_msg_at (tgt : option bytes) (own after : bytes) : M (BWorld S) (option Z) :=
  own ← lift_w (cut_line own after);
  sc ← lift_w (cstr (own ++ after));
  let msg_len := i32 (zlen (bs MSG_SYS_PREFIX) + zlen sc + 3) in
  om ← create_new_msg_at msg_len;
  match om with
  | None => mret None
  | Some m =>
    _ ← fill_msg m (bs MSG_SYS_PREFIX ++ bs " " ++ sc ++ [nl]) tgt None;
    mret (Some m)
  end.

(** [strcpy(message->exclude, name)]. *)
Definition set_exclude (p : Z) (nm : bytes) : M (BWorld S) () :=
  '(t, e, n, q) ← load_msg p;
  e ← lift_w (strcpy e nm);
  store_block p (BMsg t e n q).

(** ** Delivery *)

Definition get_client_list_at : M (BWorld S) (option Z * Z) :=
  '(ol, items) ← on_w get_client_list;
  match ol with
  | None => mret (None, items)
  | Some l => p ← new_block (BClients l); mret (Some p, items)
  end.

(** [clients[index]], through the null pointer too. *)
Definition client_at (arr : option Z) (k : nat) : M (BWorld S) Z :=
  match arr with
  | None => undef
  | Some p => l ← load_clients p; lift_w (entry l k)
  end.

Fixpoint deliver_loop_at (m : Z) (to_all : bool) (arr : option Z) (index : list nat) (sent_count : Z)
    : M (BWorld S) Z :=
  match index with
  | [] => mret sent_count
  | k :: rest =>
    a ← client_at arr k;
    d ← on_w (get_client a);
    if u64 FAIL =? pub d then deliver_loop_at m to_all arr rest sent_count
    else
      '(t, e, n, q) ← load_msg m;
      skip ← lift_w (filter_out (mkMsg t e n []) (name d));
      if skip =? SUCC then deliver_loop_at m to_all arr rest sent_count
      else
        hit ← (if to_all then mret true
               else r ← lift_w (is_target (mkMsg t e n []) (name d)); mret (r =? SUCC));
        if hit : bool then
          c ← load_bytes q;
          _ ← on_w (send_msg a c n);
          deliver_loop_at m to_all arr rest (i32 (sent_count + 1))
        else deliver_loop_at m to_all arr rest sent_count
  end.

Definition deliver_at (m : Z) : M (BWorld S) Z :=
  '(arr, items) ← get_client_list_at;
  '(t, e, n, q) ← load_msg m;
  r ← lift_w (is_msg_to_all (mkMsg t e n []));
  sent_count ← deliver_loop_at m (r =? SUCC) arr (seq 0 (Z.to_nat items)) 0;
  _ ← match arr with None => mret tt | Some p => free p end;
  mret sent_count.

(** ** Login, redirection, logout *)

Definition notice_at (nm : bytes) (suffix : string) : M (BWorld S) (option Z) :=
  sn ← lift_w (cstr nm);
  let msg_size := i32 (zlen sn + zlen (bs suffix) + 2) in
  oc ← on_w (on_mem (cm_get msg_size));
  match oc with
  | None => mret None
  | Some c =>
    b ← lift_w (store_cstr (sn ++ bs " " ++ bs suffix) (buff c));
    om ← create_sys_msg_at (Some (lit CMD_TO_ALL)) b (heap_after (cid c));
    _ ← match om with None => mret tt | Some m => set_exclude m nm end;
    _ ← on_w (on_mem (cm_recycle (mkCache (cid c) (allocated_size c) (cache_size c) b)));
    mret om
  end.

Definition user_login_at (a p : Z) (after : bytes) : M (BWorld S) (option Z) :=
  _ ← cut_text p 0 after;
  own ← load_bytes p;
  t ← lift_w (ptr_at (zlen (bs CMD_LOGIN)) own after);
  d ← on_w (get_client a);
  d' ← lift_w (update_client_name d (Some t));
  _ ← on_w (put_client a d');
  notice_at (name d') MSG_LOGIN_SUFFIX.

Definition logout_notice_at (nm : bytes) : M (BWorld S) Z :=
  sn ← lift_w (cstr nm);
  let msg_size := i32 (zlen sn + zlen (bs MSG_LOGOUT_SUFFIX) + 2) in
  oc ← on_w (on_mem (cm_get msg_size));
  match oc with
  | None => mret 0
  | Some c =>
    b ← lift_w (store_cstr (sn ++ bs " " ++ bs MSG_LOGOUT_SUFFIX) (buff c));
    om ← create_sys_msg_at (Some (lit CMD_TO_ALL)) b (heap_after (cid c));
    sent ← match om with
           | None => mret 0
           | Some m =>
             _ ← set_exclude m nm;
             n ← deliver_at m;
             _ ← release_msg (Some m);
             mret n
           end;
    _ ← on_w (on_mem (cm_recycle (mkCache (cid c) (allocated_size c) (cache_size c) b)));
    mret sent
  end.

Definition redirect_at (a p : Z) (after : bytes) : M (BWorld S) (option Z) :=
  msg ← load_bytes p;
  let text := msg ++ after in
  login ← lift_w (strstr text (bs CMD_LOGIN));
  if bool_decide (login = Some 0) then user_login_at a p after
  else
    all ← lift_w (strstr text (bs CMD_TO_ALL));
    if bool_decide (all = Some 0) then
      let cmd_size := zlen (bs CMD_TO_ALL) in
      d ← on_w (get_client a);
      create_p2p_msg_at (name d) (Some (lit CMD_TO_ALL)) p (cmd_size + 1) after
    else
      toc ← lift_w (strstr text (bs CMD_TO_C));
      if bool_decide (toc = Some 0) then
        indicator ← lift_w (strchr text x3a);
        match indicator with
        | None => mret None
        | Some ind =>
          let cmd_size := zlen (bs CMD_TO_C) in
          let target_name_size := i32 (ind - cmd_size) in
          oc ← on_w (on_mem (cm_get target_name_size));
          match oc with
          | None => mret None
          | Some c =>
            b ← lift_w (strncpy (buff c) (drop (Z.to_nat cmd_size) text) target_name_size);
            d ← on_w (get_client a);
            om ← create_p2p_msg_at (name d) (Some (b ++ heap_after (cid c))) p (ind + 2) after;
            _ ← on_w (on_mem (cm_recycle (mkCache (cid c) (allocated_size c) (cache_size c) b)));
            mret om
          end
        end
      else mret None.

(** The message in the block [p]: redirected, delivered, released. *)
Definition handle_msg_at (a p : Z) (after : bytes) : M (BWorld S) Z :=
  redirect_msg ← redirect_at a p after;
  match redirect_msg with
  | None => mret 0
  | Some m =>
    n ← deliver_at m;
    _ ← release_msg (Some m);
    mret n
  end.

(** ** The loop over the messages *)

Definition fetch_line_at (a : Z) : M (BWorld S) (Z * option Z) :=
  '(r, om) ← on_w (fetch_msg heap_after a);
  match om with
  | None => mret (r, None)
  | Some m => p ← new_block (BBytes m); mret (r, Some p)
  end.

Fixpoint handle_loop_at (fuel : nat) (a : Z) (i : nat) (msg_size : Z) (msg : option Z)
    (need_to_flush_msg : Z) : M (BWorld S) Z :=
  match fuel with
  | O => timeout
  | Datatypes.S fuel =>
    if 0 <? msg_size then
      match msg with
      | None => undef
      | Some p =>
        n ← handle_msg_at a p (behind i);
        _ ← free p;
        '(msg_size, msg) ← fetch_line_at a;
        handle_loop_at fuel a (Datatypes.S i) msg_size msg (i32 (need_to_flush_msg + n))
      end
    else mret need_to_flush_msg
  end.

Definition try_to_handle_at (a : Z) : M (BWorld S) () :=
  d ← on_w (get_client a);
  let fuel := Datatypes.S (Z.to_nat (buffer_size (reading_buffer d))) in
  '(msg_size, msg) ← fetch_line_at a;
  need ← handle_loop_at (Datatypes.S fuel) a 0 msg_size msg 0;
  if need =? 0 then mret tt else on_w bump_sign.

(** ** The turns *)

Definition read_client_at (e : Z * Z) (revents : Z) : M (BWorld S) () :=
  let '(fd, a) := e in
  if fd =? -1 then mret tt
  else
    d ← on_w (get_client a);
    if negb (fd =? socket_id d) then mret tt
    else if revents =? 0 then mret tt
    else if negb (Z.land revents POLLIN =? 0) then
      r ← on_w (fetch a);
      let fetch_count := i32 r in
      if fetch_count =? 0 then on_w (mark_failed a) else try_to_handle_at a
    else on_w (mark_failed a).

Fixpoint read_clients_at (data : Z) (revents : list Z) (index : list nat) : M (BWorld S) () :=
  match index with
  | [] => mret tt
  | k :: rest =>
    l ← load_poll data;
    e ← lift_w (entry l k);
    _ ← read_client_at e (default 0 (revents !! k));
    read_clients_at data revents rest
  end.

(** The block [data] is freed behind the loop only: [continue] skips it. *)
Definition read_turn_at (poll : list Z -> Z * list Z) : M (BWorld S) bool :=
  '(oe, items) ← on_w get_polling_and_client_list;
  match oe with
  | None => mret false
  | Some e =>
    data ← new_block (BPoll e);
    l ← load_poll data;
    _ ← on_w (debug_block l);
    let '(ret, revents) := poll (fst <$> l) in
    _ ← (if (ret =? FAIL) || (ret =? SUCC) then mret tt
         else _ ← read_clients_at data revents (seq 0 (Z.to_nat items)); free data);
    i ← on_w server;
    mret (negb (is_running i =? 0))
  end.
(** The loop, for given results of [poll], one a turn. *)
Fixpoint read_loop_at (polls : list (list Z -> Z * list Z)) : M (BWorld S) () :=
  match polls with
  | [] => mret tt
  | poll :: polls =>
    running ← read_turn_at poll;
    if running : bool then read_loop_at polls else mret tt
  end.

Definition user_logout_at (a : Z) : M (BWorld S) () :=
  i ← on_w server;
  d ← on_w (get_client a);
  ol ← on_w (unlink (socket_id d) (clients i));
  _ ← match ol with
      | None => mret tt
      | Some l => on_w (put_server (set_clients l (i32 (client_count i - 1)) i))
      end;
  sent_count ← logout_notice_at (name d);
  _ ← on_w (close (socket_id d));
  _ ← on_w (release_client a);
  if sent_count =? 0 then mret tt else on_w bump_sign.

Fixpoint flush_clients_at (arr : option Z) (index : list nat) : M (BWorld S) () :=
  match index with
  | [] => mret tt
  | k :: rest =>
    a ← client_at arr k;
    d ← on_w (get_client a);
    _ ← (if u64 FAIL =? pub d then mret 0 else on_w (flush a));
    flush_clients_at arr rest
  end.
Fixpoint logout_clients_at (arr : option Z) (index : list nat) : M (BWorld S) () :=
  match index with
  | [] => mret tt
  | k :: rest =>
    a ← client_at arr k;
    d ← on_w (get_client a);
    _ ← (if u64 FAIL =? pub d then user_logout_at a else mret tt);
    logout_clients_at arr rest
  end.
Definition write_turn_at : M (BWorld S) bool :=
  '(arr, items) ← get_client_list_at;
  match arr with
  | None => mret false
  | Some p =>
    _ ← flush_clients_at arr (seq 0 (Z.to_nat items));
    _ ← logout_clients_at arr (seq 0 (Z.to_nat items));
    _ ← free p;
    on_w write_wait
  end.
End ops.

(** ** The abstraction

    [does mb m x Q]: from [x] the computation [mb] on blocks does to the world what
    [m] does, undefined behaviour included; [Q] relates the results, and says what
    blocks there are in the end. *)
Definition does {S A B} (mb : M (BWorld S) B) (m : M (World S) A) (x : BWorld S)
    (Q : B -> A -> BWorld S -> Prop) : Prop :=
  match m (b_world x) with
  | Ret (a, w') => exists b x', mb x = Ret (b, x') /\ b_world x' = w' /\ Q b a x'
  | UB => mb x = UB
  | OutOfFuel => mb x = OutOfFuel
  end.

(** The blocks there are, and none where the next one goes. *)
Definition has {S} (x : BWorld S) (B : gmap Z block) : Prop :=
  b_blocks x = B /\ forall p, is_Some (B !! p) -> p < b_next x.

(** The blocks [B'] are [B] and the two blocks of the message [m] at [p]. *)
Definition with_msg (B : gmap Z block) (p : Z) (m : Msg) (B' : gmap Z block) : Prop :=
  exists q, p <> q /\ B !! p = None /\ B !! q = None /\
    B' = <[p := BMsg (target m) (exclude m) (size m) q]> (<[q := BBytes (content m)]> B).

(** A message that may have been created. *)
Definition made {S} (B : gmap Z block) (op : option Z) (om : option Msg) (x : BWorld S) : Prop :=
  match op, om with
  | None, None => has x B
  | Some p, Some m => exists B', with_msg B p m B' /\ has x B'
  | _, _ => False
  end.

(** An array of clients, or the null pointer. *)
Definition array_at (B : gmap Z block) (arr : option Z) (l : list Z) : Prop :=
  match arr with None => l = [] | Some p => B !! p = Some (BClients l) end.

(** ** Rules *)

Section rules.
Context {S : Type} `{CacheModule S}.
Implicit Types (x : BWorld S) (B : gmap Z block).

Lemma does_ret {A C} (b : C) (a : A) x (Q : C -> A -> BWorld S -> Prop) : Q b a x -> does (mret b) (mret a) x Q.
Proof. intros HQ. by exists b, x. Qed.

Lemma does_eq {A C} (mb : M (BWorld S) C) (m m' : M (World S) A) x Q :
  m (b_world x) = m' (b_world x) -> does mb m' x Q -> does mb m x Q.
Proof. unfold does. by intros ->. Qed.

Lemma does_mono {A C} (mb : M (BWorld S) C) (m : M (World S) A) x (P Q : C -> A -> BWorld S -> Prop) :
  does mb m x P -> (forall b a x', P b a x' -> Q b a x') -> does mb m x Q.
Proof.
  unfold does. destruct (m (b_world x)) as [[a w']| |]; [|done..]. intros (b & x' & ? & ? & ?) HPQ.
  exists b, x'. auto.
Qed.

Lemma does_bind {A A' C C'} (mb : M (BWorld S) C) (m : M (World S) A) (f : C -> M (BWorld S) C') (g : A -> M (World S) A') x P Q :
  does mb m x P -> (forall b a x', P b a x' -> does (f b) (g a) x' Q) -> does (mb ≫= f) (m ≫= g) x Q.
Proof.
  unfold does, mbind, M_bind. destruct (m (b_world x)) as [[a w']| |]; [|by intros -> ..].
  intros (b & x' & -> & <- & HP) Hf. by apply Hf.
Qed.

Lemma does_bind_l {A C C'} (mb : M (BWorld S) C) (m : M (World S) A) (f : C -> M (BWorld S) C') x P Q :
  does mb m x P -> (forall b a x', P b a x' -> does (f b) (mret a) x' Q) -> does (mb ≫= f) m x Q.
Proof.
  unfold does, mbind, M_bind. destruct (m (b_world x)) as [[a w']| |]; [|by intros -> ..].
  intros (b & x' & -> & <- & HP) Hf. by apply Hf.
Qed.

Lemma does_bind_r {A A' C} (mb : M (BWorld S) C) (m : M (World S) A) (g : A -> M (World S) A') x P Q :
  does mb m x P -> (forall b a x', P b a x' -> does (mret b) (g a) x' Q) -> does mb (m ≫= g) x Q.
Proof.
  unfold does, mbind, M_bind. destruct (m (b_world x)) as [[a w']| |]; [|by intros -> ..].
  intros (b & x' & -> & <- & HP) Hg. specialize (Hg b a x' HP). destruct (g a (b_world x')) as [[? ?]| |]; done.
Qed.

(** The same, with the run of the first part on the world. *)
Lemma does_bind_run {A A' C C'} (mb : M (BWorld S) C) (m : M (World S) A) (f : C -> M (BWorld S) C') (g : A -> M (World S) A') x a w P Q :
  m (b_world x) = Ret (a, w) -> does mb m x P ->
  (forall b x', P b a x' -> b_world x' = w -> does (f b) (g a) x' Q) -> does (mb ≫= f) (m ≫= g) x Q.
Proof.
  intros Hm. unfold does, mbind, M_bind. rw Hm. intros (b & x' & -> & <- & HP) Hf. by apply Hf.
Qed.

(** What touches no block. *)
Lemma does_on_w {A} (m : M (World S) A) x B :
  has x B -> does (on_w m) m x (fun b a x' => b = a /\ has x' B /\ m (b_world x) = Ret (a, b_world x')).
Proof.
  intros Hx. unfold does, on_w. destruct (m (b_world x)) as [[a w']| |]; [|done..].
  eexists _, _. split; [done|]. by split_and!.
Qed.

Lemma does_w {A A' C} (m : M (World S) A) (f : A -> M (BWorld S) C) (g : A -> M (World S) A') x B Q :
  has x B ->
  (forall a x', has x' B -> m (b_world x) = Ret (a, b_world x') -> does (f a) (g a) x' Q) ->
  does (on_w m ≫= f) (m ≫= g) x Q.
Proof. intros Hx Hf. eapply does_bind; [by apply does_on_w|]. intros b a x' (-> & Hx' & Hm). by apply Hf. Qed.

Lemma does_lift {A A' C} (o : outcome A) (f : A -> M (BWorld S) C) (g : A -> M (World S) A') x Q :
  (forall a, o = Ret a -> does (f a) (g a) x Q) -> does (lift_w o ≫= f) (lift o ≫= g) x Q.
Proof.
  intros Hf. unfold does, lift_w, on_w, lift, mbind, M_bind. destruct o as [a| |]; [|done..].
  destruct x as [w Bl n]. cbn. apply (Hf a eq_refl).
Qed.

(** Accesses to blocks alone. *)
Lemma does_new {A C} b (f : Z -> M (BWorld S) C) (m : M (World S) A) x B Q :
  has x B ->
  (forall p x', B !! p = None -> has x' (<[p := b]> B) -> b_world x' = b_world x -> does (f p) m x' Q) ->
  does (new_block b ≫= f) m x Q.
Proof.
  intros [<- Hn] Hf. specialize (Hf (b_next x) (mkBWorld (b_world x) (<[b_next x := b]> (b_blocks x)) (b_next x + 1))).
  apply Hf; [| |done].
  - destruct (b_blocks x !! b_next x) eqn:Hb; [|done]. specialize (Hn (b_next x)). rw Hb in Hn. pose proof (Hn (ex_intro _ _ eq_refl)). lia.
  - split; [done|]. cbn. intros p Hp. destruct (decide (p = b_next x)) as [->|Hne]; [lia|].
    rw lookup_insert_ne // in Hp. pose proof (Hn p Hp). lia.
Qed.

Lemma does_load {A C} p b (f : block -> M (BWorld S) C) (m : M (World S) A) x B Q :
  has x B -> B !! p = Some b -> does (f b) m x Q -> does (load_block p ≫= f) m x Q.
Proof. intros [<- _] Hp Hf. unfold does, load_block, mbind, M_bind in *. by rw Hp. Qed.

Lemma does_bytes {A C} p b (f : bytes -> M (BWorld S) C) (m : M (World S) A) x B Q :
  has x B -> B !! p = Some (BBytes b) -> does (f b) m x Q -> does (load_bytes p ≫= f) m x Q.
Proof. intros [<- _] Hp Hf. unfold does, load_bytes, load_block, mbind, M_bind in *. by rw Hp. Qed.
Lemma does_msg {A C} p t e n q f (m : M (World S) A) x B (Q : C -> A -> BWorld S -> Prop) :
  has x B -> B !! p = Some (BMsg t e n q) -> does (f (t, e, n, q)) m x Q -> does (load_msg p ≫= f) m x Q.
Proof. intros [<- _] Hp Hf. unfold does, load_msg, load_block, mbind, M_bind in *. by rw Hp. Qed.
Lemma does_poll {A C} p l f (m : M (World S) A) x B (Q : C -> A -> BWorld S -> Prop) :
  has x B -> B !! p = Some (BPoll l) -> does (f l) m x Q -> does (load_poll p ≫= f) m x Q.
Proof. intros [<- _] Hp Hf. unfold does, load_poll, load_block, mbind, M_bind in *. by rw Hp. Qed.

Lemma does_store {A C} p b (f : () -> M (BWorld S) C) (m : M (World S) A) x B Q :
  has x B -> is_Some (B !! p) -> (forall x', has x' (<[p := b]> B) -> does (f tt) m x' Q) ->
  does (store_block p b ≫= f) m x Q.
Proof.
  intros [<- Hn] [c Hp] Hf. specialize (Hf (mkBWorld (b_world x) (<[p := b]> (b_blocks x)) (b_next x))).
  unfold does, store_block, mbind, M_bind in *. rw Hp. apply Hf. split; [done|]. cbn. intros p' Hp'.
  destruct (decide (p' = p)) as [->|Hne]; apply Hn; [by eexists|by rw lookup_insert_ne // in Hp'].
Qed.

Lemma does_free {A C} p (f : () -> M (BWorld S) C) (m : M (World S) A) x B Q :
  has x B -> is_Some (B !! p) ->
  (forall x', has x' (delete p B) -> b_world x' = b_world x -> does (f tt) m x' Q) -> does (free p ≫= f) m x Q.
Proof.
  intros [<- Hn] [c Hp] Hf. specialize (Hf (mkBWorld (b_world x) (delete p (b_blocks x)) (b_next x))).
  unfold does, free, mbind, M_bind in *. rw Hp. apply Hf; [|done]. split; [done|]. cbn. intros p' [b Hp'].
  apply lookup_delete_Some in Hp' as [_ Hp']. apply Hn. by eexists.
Qed.

(** Calls on the allocator and the pool inside a call of message.c. *)
Lemma on_mem_bind {A C} (m : M S A) (f : A -> M S C) (w : World S) :
  on_mem (m ≫= f) w = (on_mem m ≫= fun a => on_mem (f a)) w.
Proof.
  unfold on_mem, mbind, M_bind. destruct (m (w_mem w)) as [[a s]| |]; [|done..]. cbn.
  destruct (f a s) as [[b s']| |]; done.
Qed.
Lemma on_mem_lift {A} (o : outcome A) (w : World S) : on_mem (lift o) w = lift o w.
Proof. unfold on_mem, lift. destruct o; [|done..]. by destruct w. Qed.
Lemma on_mem_ret {A} (a : A) (w : World S) : on_mem (mret a : M S A) w = (mret a : M (World S) A) w.
Proof. unfold on_mem, mret, M_ret. by destruct w. Qed.
Lemma bind_eq {A C} (m m' : M (World S) A) (f : A -> M (World S) C) w : m w = m' w -> (m ≫= f) w = (m' ≫= f) w.
Proof. unfold mbind, M_bind. by intros ->. Qed.
Lemma on_mem_lift_bind {A C} (o : outcome A) (f : A -> M S C) (w : World S) :
  on_mem (lift o ≫= f) w = (lift o ≫= fun a => on_mem (f a)) w.
Proof. rw on_mem_bind. apply bind_eq, on_mem_lift. Qed.
End rules.

(** [does_step]: through a computation that both sides make, or a branch. *)
Ltac does_step :=
  lazymatch goal with
  | |- does _ (on_mem (lift _ ≫= _)) _ _ => eapply does_eq; [apply on_mem_lift_bind|]
  | |- does _ (on_mem (_ ≫= _)) _ _ => eapply does_eq; [apply on_mem_bind|]
  | |- does _ (on_mem (mret _)) _ _ => eapply does_eq; [apply on_mem_ret|]
  | |- does (lift_w _ ≫= _) (lift _ ≫= _) _ _ => apply does_lift; intros ? ?
  | Hx : has ?x ?B |- does (on_w _ ≫= _) (_ ≫= _) ?x _ => eapply (does_w _ _ _ x B); [exact Hx|clear Hx; intros ? ? Hx ?]
  | |- does (let '(_, _) := ?y in _) _ _ _ => destruct y
  end; cbv beta.
Ltac does_steps := repeat does_step.

(** ** Messages *)

Section messages.
Context {S : Type} `{CacheModule S}.
Implicit Types (x : BWorld S) (B : gmap Z block).

Lemma with_msg_lookup B p m B' :
  with_msg B p m B' -> exists q, B' !! p = Some (BMsg (target m) (exclude m) (size m) q) /\
    B' !! q = Some (BBytes (content m)) /\ p <> q.
Proof.
  intros (q & Hpq & Hp & Hq & ->). exists q. split_and!; [apply lookup_insert_eq| |done].
  rw lookup_insert_ne // lookup_insert_eq //.
Qed.

(** What was there stays there. *)
Lemma with_msg_old B p m B' r b : with_msg B p m B' -> B !! r = Some b -> B' !! r = Some b.
Proof.
  intros (q & Hpq & Hp & Hq & ->) Hr. rw !lookup_insert_ne //; intros ->; congruence.
Qed.

Lemma with_msg_delete B p q b c :
  p <> q -> B !! p = None -> B !! q = None -> delete p (delete q (<[p := b]> (<[q := c]> B))) = B.
Proof.
  intros Hpq Hp Hq. apply map_eq. intros r. destruct (decide (r = p)) as [->|Hrp]; [by rw lookup_delete_eq|].
  rw lookup_delete_ne //. destruct (decide (r = q)) as [->|Hrq]; [by rw lookup_delete_eq|].
  rw lookup_delete_ne // !lookup_insert_ne //.
Qed.

(** The message freed: the blocks from before. *)
Lemma release_run p m B B' x :
  with_msg B p m B' -> has x B' ->
  exists x', release_msg (Some p) x = Ret (tt, x') /\ b_world x' = b_world x /\ has x' B.
Proof.
  intros Hm [<- Hn]. destruct (with_msg_lookup _ _ _ _ Hm) as (q & Hp & Hq & Hpq).
  unfold release_msg, load_msg, load_block, free, mbind, M_bind, mret, M_ret. rw Hp Hq. cbn.
  rw lookup_delete_ne // Hp. eexists. split; [done|]. split; [done|].
  destruct Hm as (q' & Hpq' & HBp & HBq & HB). rw HB in Hp. rw lookup_insert_eq in Hp. injection Hp as ->.
  split; cbn; [rw HB; by apply with_msg_delete|]. intros r Hr. apply Hn.
  rw HB !lookup_insert_ne //; intros ->; rw ?HBp ?HBq in Hr; by destruct Hr.
Qed.

(** A second release is undefined. *)
Lemma release_gone p B x : has x B -> B !! p = None -> release_msg (Some p) x = UB.
Proof. intros [<- _] Hp. unfold release_msg, load_msg, load_block, mbind, M_bind. by rw Hp. Qed.

Lemma does_release {A C} p m B B' (f : () -> M (BWorld S) C) (g : M (World S) A) x Q :
  with_msg B p m B' -> has x B' -> (forall x', has x' B -> does (f tt) g x' Q) ->
  does (release_msg (Some p) ≫= f) g x Q.
Proof.
  intros Hm Hx Hf. destruct (release_run _ _ _ _ _ Hm Hx) as (x' & Hrun & Hw & Hx').
  specialize (Hf x' Hx'). unfold does, mbind, M_bind in *. by rw Hrun -Hw.
Qed.

Lemma does_create n x B : has x B -> does (create_new_msg_at n) (on_mem (create_new_msg n)) x (made B).
Proof.
  intros Hx. unfold create_new_msg_at, create_new_msg. does_steps.
  match goal with |- does (match ?oc with _ => _ end) _ _ _ => destruct oc as [junk|] end.
  2: { does_steps. by apply does_ret. }
  eapply does_new; [exact Hx|]. intros q x1 Hq Hx1 _. eapply does_bytes; [exact Hx1|apply lookup_insert_eq|].
  does_step. does_step. eapply does_store; [exact Hx1|rw lookup_insert_eq; by eexists|]. clear x1 Hx1. intros x1 Hx1.
  rw insert_insert_eq in Hx1. does_steps. match goal with |- does (match ?oc with _ => _ end) _ _ _ => destruct oc as [blk|] end.
  2: { does_steps. eapply does_free; [done|rw lookup_insert_eq; by eexists|]. intros x2 Hx2 _. apply does_ret. cbn.
       by rw delete_insert_id // in Hx2. }
  cbv zeta. eapply does_new; [done|]. intros p x2 Hp Hx2 _. does_steps. apply does_ret. cbn.
  eexists. split; [|exact Hx2]. apply lookup_insert_None in Hp as [Hp Hne]. by exists q.
Qed.

(** What is done to a message once it is created. *)
Definition filled (m : Msg) (text : bytes) (tgt excl : option bytes) : outcome Msg :=
  c ← store_cstr text (content m);
  t ← match tgt with None => Ret (target m) | Some s => strcpy (target m) s end;
  e ← match excl with None => Ret (exclude m) | Some s => strcpy (exclude m) s end;
  Ret (mkMsg t e (u64 (size m - 1)) c).

Lemma does_fill {A C} p text tgt excl m B B' x (f : () -> M (BWorld S) C) (g : Msg -> M (World S) A) Q :
  with_msg B p m B' -> has x B' ->
  (forall m' x' B'', with_msg B p m' B'' -> has x' B'' -> does (f tt) (g m') x' Q) ->
  does (fill_msg p text tgt excl ≫= f) (lift (filled m text tgt excl) ≫= g) x Q.
Proof.
  intros Hm Hx Hf. apply (does_bind _ _ _ _ _ (fun _ m' x' => exists B'', with_msg B p m' B'' /\ has x' B'')).
  2: { intros [] m' x' (B'' & ? & ?). by eapply Hf. }
  destruct (with_msg_lookup _ _ _ _ Hm) as (q & Hp & Hq & Hpq). unfold fill_msg.
  eapply does_msg; [exact Hx|exact Hp|]. cbv beta iota. eapply does_bytes; [exact Hx|exact Hq|].
  eapply (does_eq _ _ (c ← lift (store_cstr text (content m));
    t ← lift (match tgt with None => Ret (target m) | Some s => strcpy (target m) s end);
    e ← lift (match excl with None => Ret (exclude m) | Some s => strcpy (exclude m) s end);
    mret (mkMsg t e (u64 (size m - 1)) c))).
  { unfold filled, lift, mbind, M_bind, outcome_bind. destruct (store_cstr _ _); [|done..].
    destruct tgt as [s|]; [destruct (strcpy (target m) s); [|done..]|]; (destruct excl as [s'|]; [by destruct (strcpy (exclude m) s')|done]). }
  apply does_lift. intros c _. eapply does_store; [exact Hx|by eexists|]. intros x1 Hx1.
  does_step. does_step. unfold does. cbn.
  destruct Hm as (q' & Hpq' & HBp & HBq & ->). rw lookup_insert_eq in Hp. injection Hp as ->.
  destruct Hx1 as [Hb1 Hn1]. rw insert_insert_ne // insert_insert_eq in Hb1, Hn1.
  eexists tt, _. split; [unfold store_block; rw Hb1 lookup_insert_eq; done|]. split; [done|].
  eexists. split; [exists q; by split_and!|]. split; cbn.
  - by rw insert_insert_eq.
  - intros r Hr. apply Hn1. destruct (decide (r = p)) as [->|Hrp]; [rw lookup_insert_eq; by eexists|].
    rw lookup_insert_ne //. by rw lookup_insert_ne // in Hr.
Qed.

(** *** Text in a block *)

Lemma cut_line_length own after cut : cut_line own after = Ret cut -> length cut = length own.
Proof.
  unfold cut_line, mbind, outcome_bind. destruct (strchr _ _) as [[k|]| |]; [|by intros [= <-]|done..].
  destruct (Z.ltb_spec k (zlen own)) as [Hk|]; [|done]. unfold mem_write.
  destruct ((0 <=? k) && (k + zlen [nul] <=? zlen own)) eqn:Hb; [|done]. intros [= <-].
  apply andb_prop in Hb as [Hk0%Z.leb_le Hk1%Z.leb_le]. unfold zlen in *. cbn in *. rw length_app /= length_take length_drop. lia.
Qed.

(** The text read back behind the cut. *)
Lemma at_offset_cut k own after cut :
  cut_line (at_offset k own after).1 (at_offset k own after).2 = Ret cut ->
  at_offset k (take (Z.to_nat k) own ++ cut) after = (cut, (at_offset k own after).2).
Proof.
  intros Hc%cut_line_length. unfold at_offset in *. cbn in *. rw length_drop in Hc.
  destruct (decide (Z.to_nat k <= length own)%nat).
  - rw drop_app_length'; [rw length_take; lia|]. f_equal. f_equal. rw length_app length_take. lia.
  - assert (cut = []) as -> by (apply nil_length_inv; lia). rw app_nil_r take_ge; [lia|]. rw drop_ge; [lia|done].
Qed.

Lemma does_cut {A C} p k own after x B (f : () -> M (BWorld S) C) (g : bytes -> M (World S) A) Q :
  has x B -> B !! p = Some (BBytes own) ->
  (forall cut x', has x' (<[p := BBytes (take (Z.to_nat k) own ++ cut)]> B) ->
     at_offset k (take (Z.to_nat k) own ++ cut) after = (cut, (at_offset k own after).2) ->
     does (f tt) (g cut) x' Q) ->
  does (cut_text p k after ≫= f) (lift (cut_line (at_offset k own after).1 (at_offset k own after).2) ≫= g) x Q.
Proof.
  intros Hx Hp Hf. apply (does_bind _ _ _ _ _ (fun _ cut x' => has x' (<[p := BBytes (take (Z.to_nat k) own ++ cut)]> B) /\
    at_offset k (take (Z.to_nat k) own ++ cut) after = (cut, (at_offset k own after).2))).
  2: { intros [] cut x' [? ?]. by apply Hf. }
  unfold cut_text. eapply does_bytes; [exact Hx|exact Hp|]. cbn [at_offset fst snd]. cbv beta iota.
  eapply (does_eq _ _ (cut ← lift (cut_line (drop (Z.to_nat k) own) (drop (Z.to_nat k - length own) after)); mret cut)).
  { unfold lift, mbind, M_bind. by destruct (cut_line _ _). }
  apply does_lift. intros cut Hc. destruct Hx as [Hb Hn]. unfold does. cbn.
  eexists tt, _. split; [unfold store_block; rw Hb Hp; done|]. split; [done|]. split.
  - split; cbn; [done|]. intros r Hr. apply Hn. destruct (decide (r = p)) as [->|Hne]; [by eexists|].
    by rw lookup_insert_ne // in Hr.
  - by apply at_offset_cut.
Qed.

Lemma does_text {A C} p k own after r x B (f : bytes * bytes -> M (BWorld S) C) (m : M (World S) A) Q :
  has x B -> B !! p = Some (BBytes own) -> at_offset k own after = r -> does (f r) m x Q ->
  does (load_text p k after ≫= f) m x Q.
Proof.
  intros [<- _] Hp <- Hf. unfold does, load_text, load_bytes, load_block, mbind, M_bind, mret, M_ret in *. by rw Hp.
Qed.

(** *** Construction *)

(** The creation of a message, and what fills it. *)
Lemma does_created n text tgt excl x B (g : Msg -> M S (option Msg)) :
  has x B ->
  (forall m w, on_mem (g m) w = (m' ← lift (filled m text tgt excl); mret (Some m')) w) ->
  does (om ← create_new_msg_at n;
        match om with None => mret None | Some m => _ ← fill_msg m text tgt excl; mret (Some m) end)
    (om ← on_mem (create_new_msg n); on_mem (match om with None => mret None | Some m => g m end)) x (made B).
Proof.
  intros Hx Hg. eapply does_bind; [by apply does_create|].
  intros op om x1 Hmade. destruct op as [p|], om as [m|]; try done.
  2: { eapply does_eq; [apply on_mem_ret|]. by apply does_ret. }
  destruct Hmade as (B' & Hm & Hx1). eapply does_eq; [apply Hg|]. eapply does_fill; [exact Hm|exact Hx1|].
  intros m' x2 B'' Hm' Hx2. apply does_ret. by exists B''.
Qed.

(** The blocks of a message made after the block [p] was changed. *)
Lemma does_p2p sender tgt p k own after x B :
  has x B -> B !! p = Some (BBytes own) ->
  does (create_p2p_msg_at sender tgt p k after)
    (on_mem (create_p2p_msg_base_on_content sender tgt (at_offset k own after).1 (at_offset k own after).2)) x
    (fun op om x' => exists cut, made (<[p := BBytes cut]> B) op om x').
Proof.
  intros Hx Hp. unfold create_p2p_msg_at, create_p2p_msg_base_on_content. does_step.
  eapply does_cut; [exact Hx|exact Hp|]. intros cut x1 Hx1 Hat. does_steps.
  eapply does_text; [exact Hx1|apply lookup_insert_eq|exact Hat|]. cbv beta iota. does_steps. cbv zeta.
  eapply does_mono; [apply (does_created _ _ _ _ _ _ _ Hx1)|by intros op om x2 Hm; exists (take (Z.to_nat k) own ++ cut)].
  intros m w. unfold filled, on_mem, lift, mbind, M_bind, outcome_bind, mret, M_ret, lift.
  destruct (store_cstr _ _); [|done..]. destruct tgt as [t|]; [destruct (strcpy (target m) t); [|done..]|];
    (destruct (strcpy (exclude m) sender); [|done..]); by destruct w.
Qed.

Lemma does_sys tgt own after x B :
  has x B ->
  does (create_sys_msg_at tgt own after) (on_mem (create_sys_msg_base_on_content tgt own after)) x (made B).
Proof.
  intros Hx. unfold create_sys_msg_at, create_sys_msg_base_on_content. does_steps. cbv zeta.
  apply (does_created _ _ _ _ _ _ _ Hx).
  intros m w. unfold filled, on_mem, lift, mbind, M_bind, outcome_bind, mret, M_ret, lift.
  destruct (store_cstr _ _); [|done..]. destruct tgt as [t|]; [destruct (strcpy (target m) t); [|done..]|]; by destruct w.
Qed.

Lemma does_exclude p nm m B B' x :
  with_msg B p m B' -> has x B' ->
  does (set_exclude p nm) (lift (strcpy (exclude m) nm)) x (fun _ e x' => exists B'',
    with_msg B p (mkMsg (target m) e (size m) (content m)) B'' /\ has x' B'').
Proof.
  intros Hm Hx.
  destruct (with_msg_lookup _ _ _ _ Hm) as (q & Hp & Hq & Hpq). unfold set_exclude.
  eapply does_msg; [exact Hx|exact Hp|]. cbv beta iota.
  eapply (does_eq _ _ (e ← lift (strcpy (exclude m) nm); mret e)).
  { unfold lift, mbind, M_bind. by destruct (strcpy _ _). }
  apply does_lift. intros e _. destruct Hm as (q' & Hpq' & HBp & HBq & ->). rw lookup_insert_eq in Hp. injection Hp as ->.
  destruct Hx as [Hb Hn]. unfold does. cbn. eexists tt, _.
  split; [unfold store_block; rw Hb lookup_insert_eq; done|]. split; [done|].
  eexists. split; [exists q; by split_and!|]. split; cbn.
  - by rw insert_insert_eq.
  - intros r Hr. apply Hn. destruct (decide (r = p)) as [->|Hrp]; [rw lookup_insert_eq; by eexists|].
    rw lookup_insert_ne //. by rw lookup_insert_ne // in Hr.
Qed.
End messages.

(** ** Delivery *)

Section delivery.
Context {S : Type} `{CacheModule S}.
Variable heap_after : Z -> bytes.
Implicit Types (x : BWorld S) (B : gmap Z block).

Lemma does_copy x B :
  has x B ->
  does get_client_list_at get_client_list x (fun '(arr, items) '(ol, items') x' => items = items' /\
    match ol with
    | None => arr = None /\ has x' B
    | Some l => exists p, arr = Some p /\ B !! p = None /\ has x' (<[p := BClients l]> B)
    end).
Proof.
  intros Hx. unfold get_client_list_at. eapply does_bind_l; [by apply does_on_w|].
  intros [ol items] a x1 (<- & Hx1 & _). cbv beta iota. destruct ol as [l|]; [|by apply does_ret].
  eapply does_new; [exact Hx1|]. intros p x2 Hp Hx2 _. apply does_ret. split; [done|]. by exists p.
Qed.

Lemma does_client_at {A C} arr l k x B (f : Z -> M (BWorld S) C) (g : Z -> M (World S) A) Q :
  has x B -> array_at B arr l -> (forall a, does (f a) (g a) x Q) ->
  does (client_at arr k ≫= f) (lift (entry l k) ≫= g) x Q.
Proof.
  intros Hx Harr Hf. destruct arr as [p|]; cbn in Harr.
  - destruct Hx as [<- _]. unfold client_at, load_clients, load_block, does, lift_w, on_w, lift, mbind, M_bind, mret, M_ret.
    rw Harr. destruct (entry l k) as [a| |]; [|done..]. specialize (Hf a). unfold does in Hf. by destruct x.
  - subst l. done.
Qed.

Lemma does_deliver_loop p m B B0 to_all arr l index : forall sent x,
  with_msg B0 p m B -> forall B', (forall r b, B !! r = Some b -> B' !! r = Some b) -> array_at B' arr l -> has x B' ->
  does (deliver_loop_at p to_all arr index sent) (deliver_loop m to_all l index sent) x
    (fun b a x' => b = a /\ has x' B').
Proof.
  induction index as [|k index IH]; intros sent x Hm B' HB Harr Hx; cbn [deliver_loop_at deliver_loop].
  { by apply does_ret. }
  destruct (with_msg_lookup _ _ _ _ Hm) as (q & Hp & Hq & _). apply HB in Hp, Hq.
  eapply does_client_at; [exact Hx|exact Harr|]. intros a. does_step.
  match goal with |- does (if ?c then _ else _) _ _ _ => destruct c end; [by eapply IH|].
  eapply does_msg; [exact Hx|exact Hp|]. cbv beta iota. does_step.
  match goal with |- does (if ?c then _ else _) _ _ _ => destruct c end; [by eapply IH|].
  eapply (does_bind _ _ _ _ _ (fun b a x' => b = a /\ has x' B')).
  { destruct to_all; [by apply does_ret|]. does_step. by apply does_ret. }
  intros hit hit' x1 [-> Hx1]. destruct hit'; [|by eapply IH].
  eapply does_bytes; [exact Hx1|exact Hq|]. does_step. by eapply IH.
Qed.

Lemma does_deliver p m B B0 x :
  with_msg B0 p m B -> has x B ->
  does (deliver_at p) (deliver_msg_to_all_clients m) x (fun b a x' => b = a /\ has x' B).
Proof.
  intros Hm Hx. unfold deliver_at, deliver_msg_to_all_clients. eapply does_bind; [by apply does_copy|].
  intros [arr items] [ol items'] x1 [-> Harr]. cbv beta iota.
  assert (exists B', (forall r b, B !! r = Some b -> B' !! r = Some b) /\ array_at B' arr (default [] ol) /\ has x1 B' /\
    match arr with None => B' = B | Some r => B !! r = None /\ delete r B' = B end) as (B' & Hold & Ha & Hx1 & Hend).
  { destruct ol as [l|].
    - destruct Harr as (r & -> & Hr & Hx1). exists (<[r := BClients l]> B). split_and!; [|apply lookup_insert_eq|done|done|by apply delete_insert_id].
      intros r' b Hr'. rw lookup_insert_ne //. intros ->. congruence.
    - destruct Harr as [-> Hx1]. by exists B. }
  destruct (with_msg_lookup _ _ _ _ Hm) as (q & Hp & Hq & _). pose proof (Hold _ _ Hp) as Hp'.
  eapply does_msg; [exact Hx1|exact Hp'|]. cbv beta iota. does_step.
  eapply does_bind_l; [by eapply does_deliver_loop|]. intros sent sent' x2 [-> Hx2].
  destruct arr as [r|].
  - destruct Hend as [Hr Hend]. eapply does_free; [exact Hx2|by eexists|]. intros x3 Hx3 _. apply does_ret. by rw Hend in Hx3.
  - subst B'. eapply does_mono; [apply (does_ret sent' sent' x2 (fun b a x' => b = a /\ has x' B)); done|done].
Qed.
End delivery.

(** ** The handlers *)

Section handlers.
Context {S : Type} `{CacheModule S}.
Variable heap_after : Z -> bytes.
Variable behind : nat -> bytes.
Implicit Types (x : BWorld S) (B : gmap Z block).

Lemma does_notice nm suffix x B :
  has x B -> does (notice_at heap_after nm suffix) (on_mem (notice heap_after nm suffix)) x (made B).
Proof.
  intros Hx. unfold notice_at, notice. does_steps. cbv zeta. does_steps.
  match goal with |- does (match ?oc with _ => _ end) _ _ _ => destruct oc as [c|] end.
  2: { does_steps. by apply does_ret. }
  does_steps. eapply does_bind; [by apply does_sys|]. intros op om x1 Hmade. does_step.
  eapply (does_bind _ _ _ _ _ (fun _ om' x' => made B op om' x')).
  { destruct op as [p|], om as [m|]; try done.
    - destruct Hmade as (B' & Hm & Hx1). does_step. eapply does_bind_r; [by eapply does_exclude|].
      intros [] e x2 (B'' & Hm2 & Hx2). does_steps. apply does_ret. by exists B''.
    - does_step. by apply does_ret. }
  intros [] om' x2 Hmade2. assert (exists B', has x2 B' /\ forall x', has x' B' -> made B op om' x') as (B' & Hx2 & Hret).
  { destruct op as [p|], om' as [m'|]; try done; [|by exists B]. destruct Hmade2 as (B' & Hm' & Hx2). exists B'. split; [done|]. by intros; exists B'. }
  does_steps. apply does_ret. by apply Hret.
Qed.

Lemma does_login a p own after x B :
  has x B -> B !! p = Some (BBytes own) ->
  does (user_login_at heap_after a p after) (user_login heap_after a own after) x
    (fun op om x' => exists cut, made (<[p := BBytes cut]> B) op om x').
Proof.
  intros Hx Hp. unfold user_login_at, user_login.
  eapply (does_cut p 0 own after); [exact Hx|exact Hp|]. intros cut x1 Hx1 _. rw /= in Hx1.
  eapply does_bytes; [exact Hx1|apply lookup_insert_eq|]. does_step. does_step. does_step. does_step.
  eapply does_mono; [by apply does_notice|]. intros op om x2 Hm. by exists cut.
Qed.

Lemma does_redirect a p own after x B :
  has x B -> B !! p = Some (BBytes own) ->
  does (redirect_at heap_after a p after) (redirect heap_after a own after) x
    (fun op om x' => exists cut, made (<[p := BBytes cut]> B) op om x').
Proof.
  intros Hx Hp. unfold redirect_at, redirect. eapply does_bytes; [exact Hx|exact Hp|]. cbv zeta. does_step.
  assert (forall x', has x' B -> exists cut, made (S := S) (<[p := BBytes cut]> B) None None x') as Hnone.
  { intros x' Hx'. exists own. cbn. by rw insert_id. }
  match goal with |- does (if ?c then _ else _) _ _ _ => destruct c end; [by apply does_login|]. does_step.
  match goal with |- does (if ?c then _ else _) _ _ _ => destruct c end.
  { does_step. cbn [at_offset]. by eapply (does_p2p _ _ _ _ own after). }
  does_step. match goal with |- does (if ?c then _ else _) _ _ _ => destruct c end; [|apply does_ret; by apply Hnone].
  does_step. match goal with |- does (match ?c with _ => _ end) _ _ _ => destruct c as [ind|] end; [|apply does_ret; by apply Hnone].
  does_step. match goal with |- does (match ?c with _ => _ end) _ _ _ => destruct c as [c|] end; [|apply does_ret; by apply Hnone].
  does_step. does_step. cbn [at_offset]. eapply does_bind; [by eapply (does_p2p _ _ _ (ind + 2) own after)|].
  intros op om x2 (cut & Hmade).
  assert (exists B', has x2 B' /\ forall x', has x' B' -> made (<[p := BBytes cut]> B) op om x') as (B' & Hx2 & Hret).
  { destruct op as [q|], om as [m|]; try done; [|by eexists]. destruct Hmade as (B' & Hm' & Hx2). exists B'. split; [done|]. by intros; exists B'. }
  does_step. apply does_ret. exists cut. by apply Hret.
Qed.

Lemma does_handle a p own after x B :
  has x B -> B !! p = Some (BBytes own) ->
  does (handle_msg_at heap_after a p after) (handle_msg heap_after a own after) x
    (fun b n x' => b = n /\ exists cut, has x' (<[p := BBytes cut]> B)).
Proof.
  intros Hx Hp. unfold handle_msg_at, handle_msg. eapply does_bind; [by apply does_redirect|].
  intros op om x1 (cut & Hmade). destruct op as [q|], om as [m|]; try done.
  - destruct Hmade as (B' & Hm & Hx1). eapply does_bind_l; [by eapply does_deliver|]. intros n n' x2 [-> Hx2].
    eapply does_release; [exact Hm|exact Hx2|]. intros x3 Hx3. apply does_ret. split; [done|]. by exists cut.
  - apply does_ret. split; [done|]. by exists cut.
Qed.

Lemma does_fetch a x B :
  has x B ->
  does (fetch_line_at heap_after a) (fetch_msg heap_after a) x (fun '(sz, op) '(sz', om) x' => sz = sz' /\
    match om with
    | None => op = None /\ has x' B
    | Some m => exists p, op = Some p /\ B !! p = None /\ has x' (<[p := BBytes m]> B)
    end).
Proof.
  intros Hx. unfold fetch_line_at. eapply does_bind_l; [by apply does_on_w|].
  intros [sz om] a' x1 (<- & Hx1 & _). cbv beta iota. destruct om as [m|]; [|by apply does_ret].
  eapply does_new; [exact Hx1|]. intros p x2 Hp Hx2 _. apply does_ret. split; [done|]. by exists p.
Qed.
End handlers.
