(* ===== verification/IMClient.v ===== *)
(** * The client: src/IMClient.c

    The login line, what one line of standard input becomes on the wire, the
    socket side, and the loop over the rounds of [poll]. *)
From Stdlib Require Import Strings.Byte String.
From S2P Require Import Prelude CLib Alloc Buffer Message ClientInfo Server ServerSpec ServerLoop.

Definition CACHE_SIZE : Z := 1024.

(** [name]: the argument.  [blk]: the block of [malloc], [None] when it failed;
    the result is what [send] gets, [None] when the program gives up. *)
Definition login_line (name : bytes) (malloc : Z -> option bytes) : outcome (option bytes) :=
  len ← strlen name;
  let login_cmd_size := u64 (u64 (len + zlen (bs CMD_LOGIN)) + 1) in
  match malloc login_cmd_size with
  | None => Ret None
  | Some blk =>
    name_line ← mem_write 0 (zeros login_cmd_size) blk;
    s ← cstr name;
    name_line ← store_cstr (bs CMD_LOGIN ++ s ++ [nl]) name_line;
    data ← mem_read 0 login_cmd_size name_line;
    Ret (Some data)
  end.

(** One read of standard input ([None]: the read failed) and what [write] gets.
    [after] is the memory behind the buffer. *)
Definition stdin_turn (input : option bytes) (after : bytes) : outcome bytes :=
  let buff := zeros CACHE_SIZE in
  let cmd_len := zlen (bs CMD_TO_ALL) in
  let start_read_pos := cmd_len + 1 in
  let data := take (Z.to_nat (CACHE_SIZE - cmd_len - 1)) (default [] input) in
  let read_size := match input with Some _ => zlen data | None => -1 end in
  buff ← mem_write start_read_pos data buff;
  text ← ptr_at start_read_pos buff after;
  indicator_pos ← strstr text (bs MSG_PREFIX_INDICATOR ++ bs " ");
  toc ← strstr text (bs CMD_TO_C);
  let private :=
    match toc, indicator_pos with
    | Some 0, Some i => u64 i <? zlen (bs CMD_TO_C) + CLIENT_NAME_MAXIMUM_SIZE
    | _, _ => false
    end in
  if private then mem_read start_read_pos read_size buff
  else
    d ← strn_take (Z.to_nat (cmd_len + 1)) (bs CMD_TO_ALL ++ lit " ");
    buff ← mem_write 0 d buff;
    mem_read 0 (read_size + (cmd_len + 1)) buff.

(** ** The loop *)

(** [sent]: what was handed to [write] on the socket; [shown]: what the server
    sent and the user saw. *)
Record Client := mkClient {
  is_online : bool;
  sent : bytes;
  shown : bytes;
}.

(** What the system calls return in one round: [poll], the events of the two
    descriptors, the read of each, the [write]. *)
Record round := mkRound {
  r_poll : Z;
  r_stdin : Z;
  r_socket : Z;
  r_input : option bytes;
  r_data : option bytes;
  r_write : Z;
}.

Definition read_stdin (after : bytes) (r : round) (c : Client) : outcome Client :=
  if negb (Z.land (r_stdin r) POLLIN =? 0) then
    d ← stdin_turn (r_input r) after;
    Ret (if r_write r =? -1 then mkClient false (sent c) (shown c)
         else mkClient (is_online c) (sent c ++ take (Z.to_nat (r_write r)) d) (shown c))
  else Ret c.

Definition read_socket (r : round) (c : Client) : Client :=
  if negb (Z.land (r_socket r) POLLIN =? 0) then
    match r_data r with
    | None => c
    | Some [] => mkClient false (sent c) (shown c)
    | Some d => mkClient (is_online c) (sent c) (shown c ++ take (Z.to_nat CACHE_SIZE) d)
    end
  else if negb (r_socket r =? 0) then mkClient false (sent c) (shown c)
  else c.

Fixpoint client_loop (after : bytes) (rounds : list round) (c : Client) : outcome Client :=
  if is_online c then
    match rounds with
    | [] => Ret c
    | r :: rounds =>
      if r_poll r =? -1 then Ret c
      else c ← read_stdin after r c; client_loop after rounds (read_socket r c)
    end
  else Ret c.

(** ** The contract *)

(** A line that goes out as it is: "TO-C-<name>: " with a short name. *)
Definition private_line (l : bytes) : bool :=
  is_prefix (bs CMD_TO_C) l &&
  match find_sub (bs ": ") l with Some j => Z.of_nat j <? 35 | None => false end.

Definition composed (l : bytes) : bytes :=
  if private_line l then l else bs CMD_TO_ALL ++ bs " " ++ l.

(** ** Lemmas *)

Lemma strstr_find p l m :
  p <> [] -> nl ∉ p -> nul ∉ p -> nul ∉ l ->
  strstr (l ++ nl :: nul :: m) p = Ret (Z.of_nat <$> find_sub p l).
Proof.
  intros Hp Hnl Hnul. assert (forall t, is_prefix p (nul :: t) = false) as Hz.
  { intros t. apply bool_decide_false. destruct p as [|x p]; [done|]. intros [= <- _].
    by apply Hnul, list_elem_of_here. }
  induction l as [|x l IH]; intros Hl.
  - cbn [app strstr find_sub]. rw (is_prefix_line p [] (nul :: m) Hnl). rw Hz. simpl.
    by destruct (is_prefix p []).
  - apply not_elem_of_cons in Hl as [Hx Hl]. cbn [app strstr find_sub].
    rw (is_prefix_line p (x :: l) (nul :: m) Hnl). destruct (is_prefix p (x :: l)); [done|].
    rw decide_False; [congruence|]. rw IH //=. destruct (find_sub p l); simpl; [|done]. do 2 f_equal. lia.
Qed.

Lemma find_sub_zero p l : find_sub p l = Some O <-> is_prefix p l = true.
Proof.
  destruct l as [|x l]; simpl; (destruct (is_prefix p _); [done|]); [done|].
  destruct (find_sub p l); simpl; split; done.
Qed.

Lemma find_sub_bound p l j : find_sub p l = Some j -> (j + length p <= length l)%nat.
Proof.
  revert j. induction l as [|x l IH]; intros j; cbn [find_sub].
  - destruct (is_prefix p []) eqn:Hp; [|done]. intros [= <-]. apply is_prefix_len in Hp. simpl in *. lia.
  - destruct (is_prefix p (x :: l)) eqn:Hp; [intros [= <-]; apply is_prefix_len in Hp; simpl in *; lia|].
    destruct (find_sub p l) as [k|]; [|done]. intros [= <-]. specialize (IH k eq_refl). simpl. lia.
Qed.

(** The first colon is not behind the first ": ". *)
Lemma find_sub_colon l j :
  find_sub (bs ": ") l = Some j -> exists i, colon l = Some i /\ (i <= j)%nat.
Proof.
  revert j. induction l as [|x l IH]; intros j; cbn [find_sub].
  - by destruct (is_prefix _ []) eqn:Hp; [vm_compute in Hp|].
  - destruct (is_prefix _ (x :: l)) eqn:Hp.
    + intros [= <-]. apply bool_decide_eq_true in Hp. exists O. split; [|done]. unfold colon. simpl.
      rw decide_True //. destruct l as [|y l]; vm_compute in Hp; by injection Hp.
    + destruct (find_sub _ l) as [k|]; [|done]. intros [= <-]. destruct (IH k eq_refl) as (i & Hi & ?).
      unfold colon in *. simpl. destruct (decide (x = x3a)); [exists O; split; [done|lia]|].
      destruct (list_find _ l) as [[m c]|]; [|done]. injection Hi as <-. exists (S m). split; [done|lia].
Qed.

Lemma parse_private l :
  private_line l = true -> exists tn text, parse_line l = CmdTo tn text /\ zlen tn < 30.
Proof.
  unfold private_line. intros [Hp Hf]%andb_true_iff.
  destruct (find_sub (bs ": ") l) as [j|] eqn:Hj; [|done]. apply Z.ltb_lt in Hf.
  destruct (find_sub_colon l j Hj) as (i & Hi & Hij). apply find_sub_bound in Hj. change (length (bs ": ")) with 2%nat in Hj.
  unfold parse_line. pose proof (colon_after _ _ Hp Hi).
  assert (is_prefix (bs CMD_LOGIN) l = false /\ is_prefix (bs CMD_TO_ALL) l = false) as [-> ->].
  { apply bool_decide_eq_true in Hp. change (length (bs CMD_TO_C)) with 5%nat in Hp.
    split; apply bool_decide_false; intros Heq; apply (f_equal (take 5)) in Heq;
      rw take_take in Heq; simpl in Heq; rw Hp in Heq; by vm_compute in Heq. }
  rw Hp Hi. rw (proj2 (Z.leb_le _ _)); [zl|]. eexists _, _. split; [done|]. zl.
Qed.

Lemma parse_broadcast l : parse_line (bs CMD_TO_ALL ++ bs " " ++ l) = CmdAll l.
Proof.
  unfold parse_line. assert (is_prefix (bs CMD_LOGIN) (bs CMD_TO_ALL ++ bs " " ++ l) = false) as ->.
  { by apply bool_decide_false. }
  assert (is_prefix (bs CMD_TO_ALL) (bs CMD_TO_ALL ++ bs " " ++ l) = true) as ->.
  { apply bool_decide_true, take_app_length. }
  rw (proj2 (Z.leb_le _ _)); [|done]. rw !zlen_app. change (zlen (bs CMD_TO_ALL)) with 7.
  change (zlen (bs " ")) with 1. pose proof (zlen_nonneg l). lia.
Qed.

Lemma input_fits (d : bytes) : zlen d <= 1016 -> take (Z.to_nat (CACHE_SIZE - 7 - 1)) d = d.
Proof. intros. apply take_ge. unfold CACHE_SIZE. zl. Qed.

(** The buffer after the read. *)
Lemma input_stored d :
  zlen d <= 1016 -> mem_write (7 + 1) d (zeros CACHE_SIZE) = Ret (zeros 8 ++ d ++ zeros (1016 - zlen d)).
Proof.
  intros Hd. rw mem_write_in; [lia|unfold CACHE_SIZE; zl|]. do 3 f_equal.
  unfold zeros. rw drop_replicate. f_equal. unfold CACHE_SIZE. zl.
Qed.

Lemma input_pointer d after : ptr_at (7 + 1) (zeros 8 ++ d) after = Ret (d ++ after).
Proof.
  unfold ptr_at. rw (proj2 (Z.leb_le (7 + 1) _)) /=; [zl|]. done.
Qed.

(** The text of a line is what the two searches see. *)
Lemma private_search l :
  zlen l < 1015 ->
  match Z.of_nat <$> find_sub (bs CMD_TO_C) l with
  | Some 0 => match Z.of_nat <$> find_sub (bs ": ") l with
              | Some i => u64 i <? zlen (bs CMD_TO_C) + CLIENT_NAME_MAXIMUM_SIZE
              | None => false
              end
  | _ => false
  end = private_line l.
Proof.
  intros Hlen. unfold private_line. pose proof (find_sub_zero (bs CMD_TO_C) l) as Hz.
  destruct (find_sub (bs CMD_TO_C) l) as [[|k]|]; simpl.
  - rw (proj1 Hz eq_refl). destruct (find_sub (bs ": ") l) as [j|] eqn:Hj; [|done]. simpl.
    rw u64_small //. apply find_sub_bound in Hj. unfold zlen in Hlen. lia.
  - destruct (is_prefix _ l); [by apply proj2 in Hz; specialize (Hz eq_refl)|done].
  - destruct (is_prefix _ l); [by apply proj2 in Hz; specialize (Hz eq_refl)|done].
Qed.

Lemma mem_read_at off n pre d post :
  off = zlen pre -> n = zlen d -> mem_read off n (pre ++ d ++ post) = Ret d.
Proof.
  intros -> ->. unfold mem_read. destruct (Z.eqb_spec (zlen d) 0) as [Hz|Hz].
  { destruct d; [done|]. rw zlen_cons in Hz. pose proof (zlen_nonneg d). lia. }
  pose proof (zlen_nonneg d). pose proof (zlen_nonneg pre). pose proof (zlen_nonneg post).
  rw (proj2 (Z.leb_le _ _)) // (proj2 (Z.ltb_lt _ _)); [lia|].
  rw (proj2 (Z.leb_le _ _)) /=; [rw !zlen_app; lia|].
  unfold zlen. rw !Nat2Z.id drop_app_length take_app_length //.
Qed.

Lemma stdin_turn_line l after :
  nl ∉ l -> nul ∉ l -> zlen l < 1015 ->
  stdin_turn (Some (l ++ [nl])) after = Ret (composed l ++ [nl]).
Proof.
  intros Hnl Hnul Hlen. unfold stdin_turn. change (zlen (bs CMD_TO_ALL)) with 7. cbn [default id].
  set (data := l ++ [nl]). assert (zlen data = zlen l + 1) as Hd by by unfold data; rw zlen_app.
  rw input_fits; [lia|]. rw input_stored; [lia|]. cbn [mbind outcome_bind]. rw input_pointer.
  set (pad := zeros (1016 - zlen data)).
  assert (exists m, pad = nul :: m) as [m Hpad].
  { unfold pad, zeros. destruct (Z.to_nat _) as [|k] eqn:Hk; [lia|]. by exists (replicate k nul). }
  cbn [mbind outcome_bind].
  assert ((data ++ pad) ++ after = l ++ nl :: nul :: (m ++ after)) as ->.
  { unfold data. rw Hpad -!app_assoc. done. }
  change (bs MSG_PREFIX_INDICATOR ++ bs " ") with (bs ": ").
  rw strstr_find //; [by apply (bool_decide_unpack _); vm_compute..|].
  rw strstr_find //; [by apply (bool_decide_unpack _); vm_compute..|]. cbn [mbind outcome_bind].
  rw private_search //. unfold composed. destruct (private_line l).
  - by apply mem_read_at.
  - change (strn_take (Z.to_nat (7 + 1)) (bs CMD_TO_ALL ++ lit " ")) with (Ret (bs CMD_TO_ALL ++ bs " ")).
    cbn [mbind outcome_bind]. rw mem_write_in; [done|change (zlen (bs CMD_TO_ALL ++ bs " ")) with 8; rw zlen_app zlen_zeros; pose proof (zlen_nonneg (data ++ pad)); lia|].
    cbn [mbind outcome_bind]. change (drop _ (zeros 8 ++ data ++ pad)) with (data ++ pad).
    change (take _ _) with (@nil byte). cbn [app]. rw app_assoc.
    apply (mem_read_at 0 _ []); [done|].
    unfold data. rw !zlen_app. change (zlen (bs CMD_TO_ALL)) with 7. change (zlen (bs " ")) with 1. lia.
Qed.

Lemma composed_safe l : zlen l < 1015 -> line_safe (composed l).
Proof.
  intros Hlen. unfold composed, line_safe. destruct (private_line l) eqn:Hp.
  - destruct (parse_private l Hp) as (tn & text & -> & ?). split_and!; [lia|done|].
    by intros ? ? [= <- _].
  - rw parse_broadcast. split_and!; [|done..]. rw !zlen_app. change (zlen (bs CMD_TO_ALL)) with 7.
    change (zlen (bs " ")) with 1. lia.
Qed.

Lemma composed_no_nl l : nl ∉ l -> nl ∉ composed l.
Proof.
  intros Hl. unfold composed. destruct (private_line l); [done|].
  rw !elem_of_app. intros [H|[H|H]]; [..|done]; revert H; by apply (bool_decide_unpack (~ _)); vm_compute.
Qed.

(** ** Theorems *)

(** What is typed arrives as meant: a line of standard input goes out as it
    is when it names a target of less than 30 bytes, and with "TO-ALL: " in
    front otherwise; the server reads the first as a message to that target and
    the second as a message of the whole line to everybody, and neither makes it
    look behind the line or overflow a name. *)
Theorem typed_line_parses l after :
  nl ∉ l -> nul ∉ l -> zlen l < 1015 ->
  exists out, stdin_turn (Some (l ++ [nl])) after = Ret (out ++ [nl]) /\ line_safe out /\
    if private_line l then out = l /\ exists tn text, parse_line out = CmdTo tn text /\ zlen tn < 30
    else parse_line out = CmdAll l.
Proof.
  intros. exists (composed l). rw stdin_turn_line //. split; [done|]. split; [by apply composed_safe|].
  unfold composed. destruct (private_line l) eqn:Hp; [split; [done|by apply parse_private]|apply parse_broadcast].
Qed.

(** A round in which the line [l] is typed and sent in full. *)
Definition typed (l : bytes) (sock : Z) (data : option bytes) : round :=
  mkRound 1 1 sock (Some (l ++ [nl])) data 1024.

(** What standard input brings in a round: nothing, or the line [l], read at once
    with its newline; [write] takes all of it or fails.  The socket and [poll] may do
    anything. *)
Definition fed (r : round) (o : option bytes) : Prop :=
  match o with
  | None => Z.land (r_stdin r) POLLIN = 0
  | Some l => Z.land (r_stdin r) POLLIN <> 0 /\ r_input r = Some (l ++ [nl]) /\
      (nl ∉ l) /\ (nul ∉ l) /\ zlen l < 1015 /\ (r_write r = -1 \/ zlen (composed l) < r_write r)
  end.

Definition wire_lines (lines : list bytes) : bytes := (composed <$> lines) ≫= (fun x => x ++ [nl]).

Lemma read_socket_sent r c : sent (read_socket r c) = sent c.
Proof. unfold read_socket. by repeat case_match. Qed.
Lemma read_socket_offline r c : is_online c = false -> is_online (read_socket r c) = false.
Proof. intros Hc. unfold read_socket. by repeat case_match. Qed.

(** One round: the line is sent, or the client gives up. *)
Lemma read_stdin_fed after r o c :
  fed r o -> is_online c = true -> exists c1, read_stdin after r c = Ret c1 /\
    (sent c1 = sent c ++ wire_lines (option_list o) /\ is_online c1 = true \/ sent c1 = sent c /\ is_online c1 = false).
Proof.
  unfold fed, read_stdin. destruct o as [l|]; intros Hf Hc.
  - destruct Hf as (Hin & Hl & Hnl & Hnul & Hlen & Hw). rw (proj2 (Z.eqb_neq _ _)) // Hl stdin_turn_line //.
    eexists. split; [done|]. destruct (Z.eqb_spec (r_write r) (-1)) as [_|Hne]; [by right|]. left. destruct Hw as [?|Hw]; [done|].
    split; [|done]. cbn [sent]. unfold wire_lines. cbn. rw app_nil_r take_ge; [zl|done].
  - rw (proj2 (Z.eqb_eq _ _)) //. exists c. split; [done|]. left. by rw app_nil_r.
Qed.

Lemma session_sends after rounds typed : Forall2 fed rounds typed -> forall c, is_online c = true ->
  exists c' lines rest, client_loop after rounds c = Ret c' /\ omap id typed = lines ++ rest /\
    sent c' = sent c ++ wire_lines lines /\
    (is_online c' = true -> Forall (fun r => r_poll r <> -1) rounds -> rest = []).
Proof.
  induction 1 as [|r o rounds typed Hr _ IH]; intros c Hc; cbn [client_loop]; rw Hc.
  { exists c, [], []. split_and!; try done. by rw app_nil_r. }
  destruct (Z.eqb_spec (r_poll r) (-1)) as [Hp|Hp].
  { exists c, [], (omap id (o :: typed)). split_and!; try done; [by rw app_nil_r|]. by intros _ [? _]%Forall_cons. }
  destruct (read_stdin_fed after r o c Hr Hc) as (c1 & -> & Hc1). cbn [mbind outcome_bind].
  destruct (is_online (read_socket r c1)) eqn:Hon.
  - destruct (IH _ Hon) as (c' & lines & rest & Hrun & Htyped & Hsent & Hall). rw read_socket_sent in Hsent.
    destruct Hc1 as [[Hs1 _]|[_ Hoff]]; [|by rw read_socket_offline in Hon].
    exists c', (option_list o ++ lines), rest. split_and!; [done| | |].
    + rw -app_assoc -Htyped. by destruct o.
    + by rw Hsent Hs1 -app_assoc /wire_lines fmap_app bind_app.
    + by intros ? [_ ?]%Forall_cons; apply Hall.
  - assert (client_loop after rounds (read_socket r c1) = Ret (read_socket r c1)) as Hrun.
    { destruct rounds; cbn [client_loop]; by rw Hon. }
    destruct Hc1 as [[Hs1 _]|[Hs1 _]].
    + exists (read_socket r c1), (option_list o), (omap id typed). split_and!; [done|by destruct o|by rw read_socket_sent|].
      by rw Hon.
    + exists (read_socket r c1), [], (omap id (o :: typed)). split_and!; [done|done|by rw read_socket_sent Hs1 app_nil_r|].
      by rw Hon.
Qed.

(** C26 (safety): A session keeps to the server's protocol, if what is typed is read
    one line at a time (each with its newline, of less than 1015 bytes, without NUL)
    and [write] takes a line as a whole or fails.  Whatever [poll] and the socket
    bring, the session returns, and the bytes that the client has sent are the
    composed forms of the lines typed, each with its newline, up to the point where
    the client stopped - all of them, if it is still online and [poll] has not
    failed.  They keep to [protocol]: no line that the server finds in them names a
    target that overflows, or asks for text from behind its end. *)
Theorem session_follows_protocol after rounds typed c :
  is_online c = true -> sent c = [] -> Forall2 fed rounds typed ->
  exists c' lines rest, client_loop after rounds c = Ret c' /\ omap id typed = lines ++ rest /\
    sent c' = wire_lines lines /\ protocol (sent c') /\
    (is_online c' = true -> Forall (fun r => r_poll r <> -1) rounds -> rest = []).
Proof.
  intros Hon Hsent Hfed. destruct (session_sends after rounds typed Hfed c Hon) as (c' & lines & rest & Hrun & Htyped & Hs & Hall).
  rw Hsent in Hs. exists c', lines, rest. split_and!; [done..| |done].
  assert (Forall (fun l => (nl ∉ l) /\ zlen l < 1015) lines) as Hl.
  { assert (Forall (fun l => (nl ∉ l) /\ zlen l < 1015) (omap id typed)) as Hall2; [|by rw Htyped in Hall2; apply Forall_app in Hall2 as [? _]].
    clear -Hfed. induction Hfed as [|r o rounds typed Hr _ IH]; [done|]. destruct o as [l|]; [|done].
    destruct Hr as (_ & _ & ? & _ & ? & _). by constructor. }
  rw Hs. apply protocol_lines; apply Forall_fmap.
  - eapply Forall_impl; [exact Hl|]. intros l [? _]. by apply composed_no_nl.
  - eapply Forall_impl; [exact Hl|]. intros l [_ ?]. by apply composed_safe.
Qed.

(** Registration always writes past its buffer: the block has room for the
    line but not for the NUL that [sprintf] adds. *)
Theorem login_line_overflows name s malloc :
  cstr name = Ret s -> zlen s < 2 ^ 62 ->
  (forall n, 0 <= n -> exists blk, malloc n = Some blk /\ zlen blk = n) ->
  login_line name malloc = UB.
Proof.
  intros Hs Hlen Hm. unfold login_line, strlen. rw Hs /=. change (zlen (bs CMD_LOGIN)) with 7.
  pose proof (zlen_nonneg s). rw (u64_small (zlen s + 7)); [lia|]. rw u64_small; [lia|].
  destruct (Hm (zlen s + 7 + 1)) as (blk & -> & Hblk); [lia|].
  rw mem_write_all; [rw zlen_zeros; lia|]. cbn [mbind outcome_bind]. rw store_cstr_overflow; [|done].
  zl.
Qed.

(** End of input is not noticed: every round then broadcasts the bare
    prefix and the client stays online. *)
Theorem end_of_input_keeps_sending n after c :
  is_online c = true ->
  client_loop after (replicate n (mkRound 1 1 0 (Some []) None 8)) c =
    Ret (mkClient true (sent c ++ mjoin (replicate n (bs CMD_TO_ALL ++ bs " "))) (shown c)).
Proof.
  revert c. induction n as [|n IH]; intros [on snt shw]; simpl; intros ->.
  - by rw app_nil_r.
  - unfold read_stdin. simpl. rw IH //=. by rw -!app_assoc.
Qed.

(** A read that fills the buffer leaves it without a NUL, and the searches
    run off it. *)
Theorem full_read_runs_off d :
  zlen d = 1016 -> nul ∉ d -> find_sub (bs ": ") d = None -> stdin_turn (Some d) [] = UB.
Proof.
  intros Hd Hnul Hf. unfold stdin_turn. change (zlen (bs CMD_TO_ALL)) with 7. cbn [default id].
  rw input_fits; [lia|]. rw input_stored; [lia|]. cbn [mbind outcome_bind]. rw input_pointer Hd.
  cbn [mbind outcome_bind]. change (zeros (1016 - 1016)) with (@nil byte). rw !app_nil_r.
  change (bs MSG_PREFIX_INDICATOR ++ bs " ") with (bs ": "). by rw (strstr_unterminated (bs ": ")) //.
Qed.

(** When the server closes the connection the client stops, whatever would
    come next. *)
Theorem server_close_stops pre rest w data after c c' :
  client_loop after pre c = Ret c' -> is_online c' = true ->
  Forall (fun r => r_poll r <> -1) pre -> data = [] ->
  client_loop after (pre ++ mkRound 1 0 1 None (Some data) w :: rest) c =
    Ret (mkClient false (sent c') (shown c')).
Proof.
  intros Hr Hon Hpre ->. revert c Hr. induction Hpre as [|r pre Hpoll Hpre IH]; intros c; simpl.
  - destruct (is_online c) eqn:Hc; intros [= <-]; [|by rw Hc in Hon].
    unfold read_stdin. simpl. unfold read_socket. simpl. by destruct rest.
  - destruct (is_online c) eqn:Hc; [|intros [= <-]; by rw Hc in Hon].
    destruct (Z.eqb_spec (r_poll r) (-1)); [done|].
    destruct (read_stdin after r c) as [c1| |]; simpl; [|done..]. apply IH.
Qed.

(** ** Concrete runs *)

Lemma typed_line_parses_witness :
  exists out, stdin_turn (Some (bs "TO-C-bob: hi" ++ [nl])) [] = Ret (out ++ [nl]) /\ line_safe out /\
    if private_line (bs "TO-C-bob: hi")
    then out = bs "TO-C-bob: hi" /\ exists tn text, parse_line out = CmdTo tn text /\ zlen tn < 30
    else parse_line out = CmdAll (bs "TO-C-bob: hi").
Proof.
  apply (typed_line_parses (bs "TO-C-bob: hi") []); [by apply (bool_decide_unpack _); vm_compute..|by vm_compute].
Defined.

Definition logged_in : Client := mkClient true [] [].

(** Two lines, bytes of the server with the first and alone, and a failing write. *)
Definition demo_session : list round :=
  [ typed (bs "hi") 1 (Some (bs "FROM bob: yo" ++ [nl])); mkRound 1 0 1 None (Some (bs "x")) 0;
    typed (bs "TO-C-bob: yo") 0 None; mkRound 1 1 0 (Some (bs "lost" ++ [nl])) None (-1) ].

Lemma session_follows_protocol_witness :
  exists c' lines rest, client_loop [] demo_session logged_in = Ret c' /\
    [bs "hi"; bs "TO-C-bob: yo"; bs "lost"] = lines ++ rest /\
    sent c' = wire_lines lines /\ protocol (sent c') /\
    (is_online c' = true -> Forall (fun r => r_poll r <> -1) demo_session -> rest = []).
Proof.
  apply (session_follows_protocol [] demo_session [Some (bs "hi"); None; Some (bs "TO-C-bob: yo"); Some (bs "lost")] logged_in);
    [done..|].
  repeat (apply Forall2_cons; split); [..|constructor]; cbn [fed]; try done;
    (split_and!; [done|done|by apply (bool_decide_unpack _); vm_compute..|by vm_compute|]); [by right|by right|by left].
Defined.

(** Of several lines that one read brings, only the first gets a prefix. *)
Example second_line_bare :
  stdin_turn (Some (bs "a" ++ [nl] ++ bs "b" ++ [nl])) [] = Ret (bs "TO-ALL: a" ++ [nl] ++ bs "b" ++ [nl]).
Proof. by vm_compute. Qed.

Lemma login_line_overflows_witness : login_line (lit "bob") (fun n => Some (zeros n)) = UB.
Proof.
  apply (login_line_overflows (lit "bob") (bs "bob")); [done|by vm_compute|].
  intros n Hn. exists (zeros n). split; [done|]. rw zlen_zeros. lia.
Defined.

Lemma end_of_input_keeps_sending_witness :
  client_loop [] (replicate 3 (mkRound 1 1 0 (Some []) None 8)) logged_in =
    Ret (mkClient true (bs "TO-ALL: TO-ALL: TO-ALL: ") []).
Proof. apply (end_of_input_keeps_sending 3 [] logged_in). done. Defined.

Lemma full_read_runs_off_witness : stdin_turn (Some (replicate 1016 x61)) [] = UB.
Proof.
  apply (full_read_runs_off (replicate 1016 x61)); [by vm_compute|by apply (bool_decide_unpack _); vm_compute|by vm_compute].
Defined.

Lemma server_close_stops_witness :
  client_loop [] ([typed (bs "hi") 0 None] ++ mkRound 1 0 1 None (Some []) 0 :: [typed (bs "x") 0 None]) logged_in =
    Ret (mkClient false (bs "TO-ALL: hi" ++ [nl]) []).
Proof.
  apply (server_close_stops [typed (bs "hi") 0 None] [typed (bs "x") 0 None] 0 [] [] logged_in
    (mkClient true (bs "TO-ALL: hi" ++ [nl]) [])); [by vm_compute|done|by repeat constructor|done].
Defined.
