(* ===== verification/ServerRun.v ===== *)
(** * Whole runs of the server

    The turns of the three threads one after the other, as events: a
    connection is accepted, bytes arrive, the reading thread and the writing
    thread make a turn.  [server_inv] is the invariant of the server between
    turns.  An admissible event from a state with the invariant is never stuck
    (it returns: no undefined behaviour, no loop without end) and leaves a state
    with the invariant. *)
From Stdlib Require Import Strings.Byte String.
From S2P Require Import Prelude CLib Alloc Buffer Message ClientInfo Server.
From S2P Require Import ServerSpec ServerLoop ServerTurns Threads.

(** A listed client against the open sockets: its socket is open, fails neither
    way, and what is read and still to be read keeps to the protocol. *)
Record user_ok (f : gmap Z fdesc) (d : ClientData) : Prop := {
  uo_name : nl ∉ cname d;
  uo_socket : 0 <= socket_id d;
  uo_fd : exists x, f !! socket_id d = Some x /\ fd_rplan x = [] /\ writes_succeed x /\
    protocol (contents (reading_buffer d) ++ fd_in x) /\
    zlen (contents (reading_buffer d)) + zlen (fd_in x) < 2 ^ 31 - 1;
}.
Record users_ok (l : list Z) (h : gmap Z ClientData) (f : gmap Z fdesc) : Prop := {
  us_user : forall a d, a ∈ l -> h !! a = Some d -> user_ok f d;
  us_distinct : forall a b da db, a ∈ l -> b ∈ l -> a <> b -> h !! a = Some da -> h !! b = Some db ->
    socket_id da <> socket_id db;
}.
(** ... while the caches of [X] are held by a function that is running. *)
Record server_at {S} `{CacheModuleLaws S} (X : gset Z) (w : World S) : Prop := {
  iv_world : world_ok X w;
  iv_server : server_ok w;
  iv_users : users_ok (clients (w_server w)) (w_heap w) (w_fds w);
  iv_fresh : forall a, w_next w <= a -> w_heap w !! a = None;
  (** the size of the polling block is an [int] *)
  iv_room : zlen (clients (w_server w)) < 2 ^ 27;
}.
Abbreviation server_inv := (server_at ∅).
Arguments iv_world {S _ _ X} w _.
Arguments iv_server {S _ _ X} w _.
Arguments iv_users {S _ _ X} w _.
Arguments iv_fresh {S _ _ X} w _.
Arguments iv_room {S _ _ X} w _.

(** ** Events *)

Inductive event :=
| EListen (id : Z) (f : fdesc) (peer : Z * option bytes * Z) (now : Z)
| EData (id : Z) (data : bytes)
| ERead (poll : list Z -> Z * list Z)
| EWrite.

Section events.
Context {S : Type} `{CacheModule S}.
Variable heap_after : Z -> bytes.
Variable behind : nat -> bytes.

Definition run_event (ev : event) : M (World S) () :=
  match ev with
  | EListen id f peer now => handle_listen_turn id f peer now 0 0
  | EData id data => w ← getS; putS (set_fds (alter (receive data) id (w_fds w)) w)
  | ERead poll => _ ← read_sockets_turn heap_after behind poll; mret tt
  | EWrite => _ ← write_sockets_turn heap_after; mret tt
  end.

Fixpoint run_events (evs : list event) : M (World S) () :=
  match evs with
  | [] => mret tt
  | ev :: rest => _ ← run_event ev; run_events rest
  end.

(** What the peers and the kernel are trusted with: a new socket is not one
    already open, does not fail and brings protocol input; arriving bytes keep to
    the protocol; sizes stay below those of the machine.  What [poll] reports is
    not restricted. *)
Definition admissible (w : World S) (ev : event) : Prop :=
  match ev with
  | EListen id f _ _ =>
    0 <= id /\ w_fds w !! id = None /\ fd_rplan f = [] /\ writes_succeed f /\ protocol (fd_in f) /\
    zlen (fd_in f) < 2 ^ 31 - 1 /\ zlen (clients (w_server w)) + 1 < 2 ^ 27
  | EData id data =>
    forall a d x, a ∈ clients (w_server w) -> w_heap w !! a = Some d -> socket_id d = id ->
      w_fds w !! id = Some x ->
      protocol (contents (reading_buffer d) ++ fd_in x ++ data) /\
      zlen (contents (reading_buffer d)) + zlen (fd_in x ++ data) < 2 ^ 31 - 1
  | ERead _ => True
  | EWrite =>
    forall a d, a ∈ clients (w_server w) -> w_heap w !! a = Some d ->
      zlen (contents (writing_buffer d)) < 2 ^ 63
  end.

(** Every event is admissible in the state it meets. *)
Fixpoint admissible_run (evs : list event) (w : World S) : Prop :=
  match evs with
  | [] => True
  | ev :: rest => admissible w ev /\
      forall w', run_event ev w = Ret (tt, w') -> admissible_run rest w'
  end.
End events.

(** ** Lemmas *)

(** A change to a client that its socket survives. *)
Definition user_step (f f' : gmap Z fdesc) (d d' : ClientData) : Prop :=
  socket_id d' = socket_id d /\ (user_ok f d -> user_ok f' d').

Lemma users_ok_step l l' h h' f f' :
  users_ok l h f -> (forall a, a ∈ l' -> a ∈ l) ->
  (forall a d', a ∈ l' -> h' !! a = Some d' -> exists d, h !! a = Some d /\ user_step f f' d d') ->
  users_ok l' h' f'.
Proof.
  intros [Hu Hd] Hl Hstep. constructor.
  - intros a d' Ha Hd'. destruct (Hstep a d' Ha Hd') as (d & Hh & _ & Hok). apply Hok.
    by eapply Hu; [apply Hl|].
  - intros a b da db Ha Hb Hne Hda Hdb.
    destruct (Hstep a da Ha Hda) as (da0 & Hda0 & -> & _).
    destruct (Hstep b db Hb Hdb) as (db0 & Hdb0 & -> & _).
    by apply (Hd a b); [apply Hl|apply Hl|..].
Qed.

(** The sockets as before, as far as the client sees. *)
Lemma user_step_fd f f' d d' :
  socket_id d' = socket_id d -> (nl ∉ cname d -> nl ∉ cname d') ->
  (forall x, f !! socket_id d = Some x -> fd_rplan x = [] -> writes_succeed x ->
     protocol (contents (reading_buffer d) ++ fd_in x) ->
     exists x', f' !! socket_id d = Some x' /\ fd_rplan x' = [] /\ writes_succeed x' /\
       protocol (contents (reading_buffer d') ++ fd_in x') /\
       zlen (contents (reading_buffer d')) + zlen (fd_in x') <=
       zlen (contents (reading_buffer d)) + zlen (fd_in x)) ->
  user_step f f' d d'.
Proof.
  intros Hs Hn Hf. split; [done|]. intros [Hnm Hsk (x & Hx & Hr & Hw & Hp & Hz)].
  destruct (Hf x Hx Hr Hw Hp) as (x' & ? & ? & ? & ? & ?).
  constructor; [by apply Hn|by rw Hs|]. exists x'. rw Hs. split_and!; try done. lia.
Qed.

Lemma user_step_same f f' d d' :
  socket_id d' = socket_id d -> cname d' = cname d -> reading_buffer d' = reading_buffer d ->
  f' !! socket_id d = f !! socket_id d -> user_step f f' d d'.
Proof.
  intros Hs Hn Hr Hf. apply user_step_fd; [done|by rw Hn|]. intros x Hx ???. exists x. by rw Hr Hf.
Qed.

Lemma protocol_prefix c c' : protocol (c ++ c') -> protocol c.
Proof.
  intros Hp lines l post -> Hl. apply (Hp lines l (post ++ c')); [|done]. by rw -!app_assoc.
Qed.
Lemma protocol_lines_drop lines c : protocol ((lines ≫= fun x => x ++ [nl]) ++ c) -> protocol c.
Proof.
  intros Hp lines' l post -> Hl. apply (Hp (lines ++ lines') l post); [|done].
  by rw bind_app -!app_assoc.
Qed.

(** A line without newline keeps the names free of newlines. *)
Lemma handle_line_name l a s line b c' :
  nl ∉ line -> handle_line l a s line !! b = Some c' ->
  exists c, s !! b = Some c /\ (nl ∉ a_name c -> nl ∉ a_name c').
Proof.
  intros Hl. unfold handle_line. destruct (s !! a) as [ca|] eqn:Ha; [|by exists c'].
  set (s1 := match parse_line line with CmdLogin nm => _ | _ => s end).
  assert (forall c1, s1 !! b = Some c1 -> exists c, s !! b = Some c /\ (nl ∉ a_name c -> nl ∉ a_name c1)) as H1.
  { intros c1. unfold s1. unfold parse_line.
    destruct (is_prefix (bs CMD_LOGIN) line).
    2: { intros Hc. exists c1. split; [|done]. by repeat case_match. }
    intros [[<- <-]|[_ Hc]]%lookup_insert_Some; [|by exists c1]. exists ca. split; [done|]. intros _. simpl.
    by intros ?%elem_of_take_in%elem_of_drop_in. }
  destruct (command_message (a_name ca) (parse_line line)) as [[[tn en] txt]|]; [|apply H1].
  unfold adeliver. rw map_lookup_imap. destruct (s1 !! b) as [c1|] eqn:Hc1; [|done].
  intros [= <-]. destruct (H1 c1 eq_refl) as (c & Hc & Hn). exists c. split; [done|].
  by destruct (_ && _).
Qed.

Lemma fold_lines_name l a lines : forall s b c',
  Forall line_text lines -> foldl (handle_line l a) s lines !! b = Some c' ->
  exists c, s !! b = Some c /\ (nl ∉ a_name c -> nl ∉ a_name c').
Proof.
  induction lines as [|x lines IH]; intros s b c' Hl Hb; simpl in *; [by exists c'|].
  apply Forall_cons in Hl as [[Hx _] Hl]. destruct (IH _ _ _ Hl Hb) as (c1 & Hc1 & Hn1).
  destruct (handle_line_name _ _ _ _ _ _ Hx Hc1) as (c & Hc & Hn). exists c. split; [done|].
  intros ?. by apply Hn1, Hn.
Qed.

Section turns.
Context {S : Type} `{!CacheModule S} `{!CacheModuleLaws S}.
Context (heap_after : Z -> bytes) (behind : nat -> bytes).
Hypothesis heap_terminated : terminated heap_after.
Hypothesis behind_terminated : forall i, nul ∈ behind i.
Implicit Types (w : World S).

Lemma inv_client {X} w a :
  server_at X w -> a ∈ clients (w_server w) ->
  exists d, w_heap w !! a = Some d /\ user_ok (w_fds w) d /\ client_inv d.
Proof.
  intros [[L Hw] [Hl _ _ _] [Hu _] _ _] Ha. destruct (Hl a Ha) as [d Hd]. exists d.
  split_and!; [done|by eapply Hu|]. by apply (hi_client _ _ (wa_heap _ _ _ Hw) a).
Qed.

(** The invariant after a change that every client's socket survives. *)
Lemma inv_step {X Y} w w' :
  server_at X w -> world_ok Y w' -> server_ok w' -> w_next w' = w_next w ->
  (forall a, a ∈ clients (w_server w') -> a ∈ clients (w_server w)) ->
  zlen (clients (w_server w')) <= zlen (clients (w_server w)) ->
  (forall b, w_heap w !! b = None -> w_heap w' !! b = None) ->
  (forall a d', a ∈ clients (w_server w') -> w_heap w' !! a = Some d' ->
     exists d, w_heap w !! a = Some d /\ user_step (w_fds w) (w_fds w') d d') ->
  server_at Y w'.
Proof.
  intros [_ _ Hu Hf Hr] Hw Hs Hn Hl Hz Hb Hstep. constructor; try done.
  - by eapply users_ok_step.
  - intros a Ha. apply Hb, Hf. by rw -Hn.
  - lia.
Qed.

Lemma server_ok_heap w w' :
  server_ok w -> clients (w_server w') = clients (w_server w) ->
  client_count (w_server w') = client_count (w_server w) ->
  (forall b db, w_heap w !! b = Some db -> is_Some (w_heap w' !! b)) -> server_ok w'.
Proof.
  intros [Hl Hn Hc Hb] Hcl Hco Hh. constructor; rw ?Hcl ?Hco; try done.
  intros a Ha. destruct (Hl a Ha) as [d Hd]. by eapply Hh.
Qed.

(** One client changed, and perhaps its socket. *)
Lemma inv_update {X} w w' a d d' :
  server_at X w -> world_ok X w' -> w_heap w !! a = Some d -> w_heap w' = <[a := d']> (w_heap w) ->
  w_next w' = w_next w -> w_server w' = w_server w -> a ∈ clients (w_server w) ->
  (forall id, id <> socket_id d -> w_fds w' !! id = w_fds w !! id) ->
  user_step (w_fds w) (w_fds w') d d' -> server_at X w'.
Proof.
  intros Hi Hw Ha Hh Hn Hs Hin Hfd Hstep. eapply (inv_step w); try done; rw ?Hs //.
  - apply (server_ok_heap w); [apply Hi|by rw Hs..|]. intros b db Hb. rw Hh.
    destruct (decide (b = a)) as [->|Hne]; [by rw lookup_insert_eq|]. by rw lookup_insert_ne // Hb.
  - intros b Hb. rw Hh lookup_insert_ne //. congruence.
  - intros b db Hb. rw Hh. intros [[<- <-]|[Hne Hdb]]%lookup_insert_Some; [by exists d|].
    exists db. split; [done|]. apply user_step_same; try done. apply Hfd. intros Heq.
    by apply (us_distinct _ _ _ (iv_users _ Hi) a b d db).
Qed.

Lemma mark_failed_inv {X} w a :
  server_at X w -> a ∈ clients (w_server w) ->
  wp false (mark_failed a) w (fun _ w' => server_at X w' /\ w_server w' = w_server w).
Proof.
  intros Hi Ha. destruct (inv_client w a Hi Ha) as (d & Hd & Hu & Hci).
  unfold mark_failed. apply wp_bind, (wp_get_client _ _ _ d); [done|]. apply wp_put_client.
  split; [|done]. apply (inv_update w _ a d (set_pub FAIL d)); try done; [|by apply user_step_same].
  destruct (iv_world _ Hi) as [L Hw]. exists L.
  apply (world_update X L L w (w_mem w) a d); try done.
  - destruct Hci. by constructor.
  - apply (wa_mem _ _ _ Hw).
  - apply (hi_owned _ _ (wa_heap _ _ _ Hw) a d Hd).
  - unfold client_owns. simpl. clear. set_solver.
  - clear. set_solver.
Qed.

Lemma fetch_inv {X} w a :
  server_at X w -> a ∈ clients (w_server w) ->
  wp false (fetch a) w (fun r w' => server_at X w' /\ w_server w' = w_server w).
Proof.
  intros Hi Ha. destruct (inv_client w a Hi Ha) as (d & Hd & [Hnm Hsk (x & Hx & Hr & Hw & Hp & Hz)] & Hci).
  eapply wp_mono; [by apply (fetch_at X w a d x); [apply Hi|..]|].
  intros r w1 (Hw1 & Hn1 & Hs1 & _ & rb & Hh1 & Hc1 & _ & _ & x' & Hf1 & Hin & Hr' & _ & Hwp).
  split; [|done]. apply (inv_update w w1 a d (set_reading rb 0 d)); try done.
  - intros id Hne. by rw Hf1 lookup_insert_ne.
  - apply user_step_fd; [done|done|]. intros y Hy _ _ _. rw Hx in Hy. injection Hy as <-.
    exists x'. rw Hf1 lookup_insert_eq /= Hc1 Hin app_nil_r zlen_app zlen_nil. split_and!; try done.
    + unfold writes_succeed. by rw Hwp.
    + lia.
Qed.

Lemma try_inv w a :
  server_inv w -> a ∈ clients (w_server w) ->
  wp false (try_to_handle_msg heap_after behind a) w (fun _ w' =>
    server_inv w' /\ clients (w_server w') = clients (w_server w)).
Proof.
  intros Hi Ha. destruct (inv_client w a Hi Ha) as (d & Hd & [Hnm Hsk (x & Hx & Hr & Hw & Hp & Hz)] & Hci).
  eapply wp_mono; [apply (try_to_handle_msg_spec heap_after behind heap_terminated behind_terminated ∅ w a d);
    [apply Hi|apply Hi|done|by eapply protocol_prefix]|].
  intros _ w1 (lines & d1 & Hw1 & Hs1 & Hf1 & Hn1 & (k & Hk) & [Habs Ha1 Hno _ Hs Hoth Hnone Hcl Hcon]).
  assert (clients (w_server w1) = clients (w_server w)) as Hcli by by rw Hk.
  split; [|done]. eapply (inv_step w w1); try done; try by rw Hcli.
  intros b db Hb Hdb.
  destruct (fold_lines_name (clients (w_server w)) a lines (abs_heap (w_heap w)) b (abs_client db) Hcl)
    as (c & Hc & Hname); [by rw -Habs abs_lookup Hdb|].
  rw abs_lookup in Hc. destruct (w_heap w !! b) as [d0|] eqn:H0; [|done]. injection Hc as <-.
  exists d0. split; [done|]. simpl in Hname. destruct (decide (b = a)) as [->|Hne].
  - rw Hd in H0. injection H0 as <-. rw Ha1 in Hdb. injection Hdb as <-. simpl in Hcon.
    apply user_step_fd; [done|done|]. intros y Hy Hry Hwy Hpy. exists y. rw Hf1. split_and!; try done.
    + apply (protocol_lines_drop lines). by rw app_assoc -Hcon.
    + rw Hcon zlen_app. pose proof (zlen_nonneg (lines ≫= fun x => x ++ [nl])). lia.
  - destruct (Hoth b d0 Hne H0) as (d2 & Hd2 & Hrb & Hsb). rw Hdb in Hd2. injection Hd2 as <-.
    apply user_step_fd; [done|done|]. intros y Hy Hry Hwy Hpy. exists y. by rw Hf1 Hrb.
Qed.

(** *** The reading thread *)

Lemma read_client_inv w fd a revents :
  server_inv w -> a ∈ clients (w_server w) ->
  wp false (read_client heap_after behind (fd, a) revents) w (fun _ w' =>
    server_inv w' /\ clients (w_server w') = clients (w_server w)).
Proof.
  intros Hi Ha. destruct (inv_client w a Hi Ha) as (d & Hd & _ & _).
  assert (forall w1, server_inv w1 -> w_server w1 = w_server w ->
    wp false (mark_failed a) w1 (fun _ w' => server_inv w' /\ clients (w_server w') = clients (w_server w)))
    as Hmark.
  { intros w1 Hi1 Hs1. eapply wp_mono; [apply (mark_failed_inv w1 a Hi1); by rw Hs1|].
    intros _ w2 [? Hs2]. by rw Hs2 Hs1. }
  unfold read_client. destruct (fd =? -1); [by apply wp_ret|].
  apply wp_bind, (wp_get_client _ _ _ d); [done|].
  destruct (negb _); [by apply wp_ret|]. destruct (revents =? 0); [by apply wp_ret|].
  destruct (negb _); [|by apply Hmark].
  eapply wp_bind, wp_mono; [apply (fetch_inv w a Hi Ha)|]. intros r w1 [Hi1 Hs1]. cbv beta zeta.
  destruct (i32 r =? 0); [by apply Hmark|].
  eapply wp_mono; [apply (try_inv w1 a Hi1); by rw Hs1|]. intros _ w2 [? Hs2]. by rw Hs2 Hs1.
Qed.

Lemma read_clients_inv revents suf : forall pre w,
  server_inv w -> (forall a, a ∈ snd <$> suf -> a ∈ clients (w_server w)) ->
  wp false (read_clients heap_after behind (pre ++ suf) revents (seq (length pre) (length suf))) w
    (fun _ w' => server_inv w' /\ clients (w_server w') = clients (w_server w)).
Proof.
  induction suf as [|[fd a] suf IH]; intros pre w Hi Hl; cbn [length seq read_clients].
  { by apply wp_ret. }
  unfold entry. rw list_lookup_middle //. wp_steps. simpl in Hl.
  eapply wp_mono; [apply read_client_inv; [done|apply Hl, list_elem_of_here]|].
  intros _ w1 [Hi1 Hs1].
  assert (pre ++ (fd, a) :: suf = (pre ++ [(fd, a)]) ++ suf) as -> by by rw -app_assoc.
  assert (Datatypes.S (length pre) = length (pre ++ [(fd, a)])) as -> by zl.
  eapply wp_mono; [apply (IH (pre ++ [(fd, a)]) w1 Hi1)|].
  - intros b Hb. rw Hs1. apply Hl. by apply list_elem_of_further.
  - intros _ w2 [? ->]. done.
Qed.

(** What is polled for the client of an entry. *)
Definition polls (h : gmap Z ClientData) (e : Z * Z) : Prop :=
  exists d, h !! e.2 = Some d /\ e.1 = if pub d =? SUCC then socket_id d else -1.

Lemma polling_entries_run w l :
  (forall a, a ∈ l -> is_Some (w_heap w !! a)) ->
  exists e, polling_entries l w = Ret (e, w) /\ snd <$> e = l /\ Forall (polls (w_heap w)) e.
Proof.
  induction l as [|a l IH]; intros Hl; cbn [polling_entries]; [exists []; split_and!; try done; constructor|].
  destruct (Hl a) as [d Hd]; [apply list_elem_of_here|].
  destruct IH as (e & He & Hs & Hp); [intros b Hb; by apply Hl, list_elem_of_further|].
  unfold mbind, M_bind, get_client, mret, M_ret. rw Hd He. eexists. split; [done|]. split; [cbn; by f_equal|].
  apply Forall_cons. split; [|done]. by exists d.
Qed.

Lemma debug_block_run w e :
  (forall a, a ∈ snd <$> e -> is_Some (w_heap w !! a)) -> debug_block e w = Ret (tt, w).
Proof.
  induction e as [|[fd a] e IH]; intros Hl; cbn [debug_block]; [done|]. simpl in Hl.
  destruct (Hl a) as [d Hd]; [apply list_elem_of_here|].
  unfold mbind, M_bind, get_client. rw Hd. apply IH. intros b Hb. by apply Hl, list_elem_of_further.
Qed.

Lemma polling_size n : 0 <= n < 2 ^ 27 -> Z.min n (u64 (i32 (n * 16)) / 16) = n.
Proof. intros Hn. rw i32_small; [lia|]. rw u64_small; [lia|]. rw Z.div_mul; lia. Qed.

Lemma polling_spec {X} w :
  server_at X w ->
  wp false get_polling_and_client_list w (fun r w' =>
    exists e, r = (Some e, zlen (clients (w_server w))) /\ snd <$> e = clients (w_server w) /\
    Forall (polls (w_heap w)) e /\ world_ok X w' /\ same_rest w w' /\ w_heap w' = w_heap w).
Proof.
  intros [[L Hw] Hs _ _ Hr]. unfold get_polling_and_client_list. apply wp_bind, wp_server.
  pose proof (zlen_nonneg (clients (w_server w))). cbv zeta.
  apply wp_bind, wp_on_mem. eapply wp_mono; [apply cm_malloc_spec, (wa_mem _ _ _ Hw)|].
  intros [blk|] s (Hs' & Hu & _); [|by destruct Hu].
  rw (so_count _ Hs) polling_size //. wp_steps.
  unfold copy_list. rw (proj2 (Z.leb_le _ _)); [lia|]. wp_steps.
  destruct (polling_entries_run (set_mem s w) (clients (w_server w))) as (e & He & Hsnd & Hpl); [apply Hs|].
  eapply wp_run; [exact He|]. apply wp_ret. exists e. split_and!; try done.
  exists L. by eapply world_mono.
Qed.

Lemma same_rest_inv {X Y} w w' :
  server_at X w -> world_ok Y w' -> same_rest w w' -> w_heap w' = w_heap w -> server_at Y w'.
Proof.
  intros Hi Hw (Hf & Hn & Hs) Hh. eapply (inv_step w); try done; rw ?Hs ?Hh //.
  - apply (server_ok_heap w); [apply Hi|by rw Hs..|]. intros b db Hb. by rw Hh Hb.
  - intros a d _ Ha. exists d. split; [done|]. apply user_step_same; by rw ?Hf.
Qed.

Lemma read_turn_inv w poll :
  server_inv w ->
  wp false (read_sockets_turn heap_after behind poll) w (fun _ w' =>
    server_inv w' /\ clients (w_server w') = clients (w_server w)).
Proof.
  intros Hi. unfold read_sockets_turn. eapply wp_bind, wp_mono; [apply (polling_spec w Hi)|].
  intros r w1 (e & -> & He & _ & Hw1 & Hr1 & Hh1). cbv beta iota.
  pose proof (same_rest_inv w w1 Hi Hw1 Hr1 Hh1) as Hi1. destruct Hr1 as (_ & _ & Hs1).
  apply wp_bind. eapply wp_run.
  { apply debug_block_run. intros a. rw He -Hs1. apply Hi1. }
  destruct (poll (fst <$> e)) as [ret revents]. apply wp_bind.
  assert (wp false (if (ret =? FAIL) || (ret =? SUCC) then mret tt else
     read_clients heap_after behind e revents (seq 0 (Z.to_nat (zlen (clients (w_server w)))))) w1
     (fun _ w' => server_inv w' /\ clients (w_server w') = clients (w_server w))) as Hb.
  { destruct (_ || _); [apply wp_ret; by rw Hs1|].
    rw -He /zlen Nat2Z.id length_fmap. eapply wp_mono; [apply (read_clients_inv revents e [] w1 Hi1)|].
    - intros a. by rw He Hs1.
    - intros _ w2 [? ->]. by rw He Hs1. }
  eapply wp_mono; [exact Hb|]. intros _ w2 [Hi2 Hs2]. by apply wp_bind, wp_server, wp_ret.
Qed.

(** *** The writing thread *)

(** From [w] to [w'] the failed clients of [l] have left. *)
Record logged_out (l : list Z) (w w' : World S) : Prop := {
  lo_sublist : clients (w_server w') `sublist_of` clients (w_server w);
  lo_clients : forall a, a ∈ clients (w_server w') <->
    a ∈ clients (w_server w) /\ (a ∈ l -> forall d, w_heap w !! a = Some d -> flushes d = true);
  lo_gone : forall a d, a ∈ l -> w_heap w !! a = Some d -> flushes d = false ->
    w_heap w' !! a = None /\ w_fds w' !! socket_id d = None;
  lo_kept : forall a d, a ∈ clients (w_server w') -> w_heap w !! a = Some d -> exists d',
    w_heap w' !! a = Some d' /\ socket_id d' = socket_id d /\ flushes d' = flushes d /\
    w_fds w' !! socket_id d = w_fds w !! socket_id d;
  lo_none : forall a, w_heap w !! a = None -> w_heap w' !! a = None;
  lo_closed : forall id, w_fds w !! id = None -> w_fds w' !! id = None;
  lo_running : is_running (w_server w') = is_running (w_server w);
}.

Lemma logged_out_nil w : logged_out [] w w.
Proof.
  constructor; try done.
  - intros a. split; [|by intros []]. intros Ha. split; [done|]. by intros ?%not_elem_of_nil.
  - by intros a d ?%not_elem_of_nil.
  - intros a d _ Hd. by exists d.
Qed.

Lemma logged_out_skip l w w' a d :
  w_heap w !! a = Some d -> flushes d = true -> logged_out l w w' -> logged_out (a :: l) w w'.
Proof.
  intros Ha Hfl [Hsub Hc Hg Hk Hn Hcl Hru]. constructor; try done.
  - intros b. rw Hc. split; intros [Hb Hbf]; (split; [done|]); intros Hin db Hdb.
    + apply elem_of_cons in Hin as [->|Hin]; [congruence|by apply Hbf].
    + apply (Hbf (list_elem_of_further _ _ _ Hin) db Hdb).
  - intros b db [->|Hin]%elem_of_cons Hdb Hff; [congruence|by apply Hg].
Qed.

Lemma logged_out_cons l w w1 w' a d :
  w_heap w !! a = Some d -> flushes d = false -> a ∈ clients (w_server w) -> (a ∉ l) ->
  (forall b, b ∈ l -> b ∈ clients (w_server w)) ->
  logged_out [a] w w1 -> logged_out l w1 w' -> logged_out (a :: l) w w'.
Proof.
  intros Ha Hfa Hin Hal Hl [Hsub1 Hc1 Hg1 Hk1 Hn1 Hcl1 Hru1] [Hsub2 Hc2 Hg2 Hk2 Hn2 Hcl2 Hru2].
  assert (forall b, b ∈ clients (w_server w) -> b <> a -> b ∈ clients (w_server w1)) as Hin1.
  { intros b Hb Hne. apply Hc1. split; [done|]. by intros ?%list_elem_of_singleton. }
  assert (a ∉ clients (w_server w1)) as Ha1.
  { intros [_ Hx]%Hc1. specialize (Hx (list_elem_of_here _ _) d Ha). congruence. }
  assert (forall b, b ∈ clients (w_server w') -> b ∈ clients (w_server w1)) as H21
    by (intros b Hb; by apply Hc2).
  constructor.
  - by etrans.
  - intros b. rw Hc2. split.
    + intros [Hb Hbf]. pose proof (proj1 (proj1 (Hc1 b) Hb)) as Hbw. split; [done|].
      intros [->|Hbl]%elem_of_cons db Hdb; [done|].
      destruct (Hk1 b db Hb Hdb) as (d1 & Hd1 & _ & Hf1 & _). rw -Hf1. by apply Hbf.
    + intros [Hb Hbf]. assert (b <> a) as Hne.
      { intros ->. specialize (Hbf (list_elem_of_here _ _) d Ha). congruence. }
      split; [by apply Hin1|]. intros Hbl d1 Hd1.
      destruct (w_heap w !! b) as [db|] eqn:Hdb; [|by rw (Hn1 b Hdb) in Hd1].
      destruct (Hk1 b db (Hin1 b Hb Hne) Hdb) as (d1' & Hd1' & _ & Hf1 & _).
      rw Hd1 in Hd1'. injection Hd1' as <-. rw Hf1. by apply (Hbf (list_elem_of_further _ _ _ Hbl) db).
  - intros b db [->|Hbl]%elem_of_cons Hdb Hff.
    + destruct (Hg1 a db (list_elem_of_here _ _) Hdb Hff). split; [by apply Hn2|by apply Hcl2].
    + assert (b <> a) as Hne by congruence.
      destruct (Hk1 b db (Hin1 b (Hl b Hbl) Hne) Hdb) as (d1 & Hd1 & Hs1 & Hf1 & _).
      rw -Hs1. apply (Hg2 b d1 Hbl Hd1). congruence.
  - intros b db Hb Hdb. destruct (Hk1 b db (H21 b Hb) Hdb) as (d1 & Hd1 & Hs1 & Hf1 & He1).
    destruct (Hk2 b d1 Hb Hd1) as (d2 & Hd2 & Hs2 & Hf2 & He2). rw Hs1 in Hs2, He2.
    exists d2. split_and!; congruence.
  - intros b Hb. by apply Hn2, Hn1.
  - intros id Hid. by apply Hcl2, Hcl1.
  - congruence.
Qed.

Lemma logout_inv w a d :
  server_inv w -> a ∈ clients (w_server w) -> w_heap w !! a = Some d -> flushes d = false ->
  wp false (user_logout heap_after a) w (fun _ w' => server_inv w' /\ logged_out [a] w w').
Proof.
  intros Hi Ha Hd Hfl. pose proof (us_user _ _ _ (iv_users _ Hi) a d Ha Hd) as Hu.
  pose proof (so_nodup _ (iv_server _ Hi)) as Hnd.
  destruct (list_elem_of_split _ _ Ha) as (l1 & l2 & Hcl).
  assert (forall b, b ∈ clients (w_server w) <-> b = a \/ b ∈ l1 ++ l2) as Hmem.
  { intros b. rw Hcl !elem_of_app elem_of_cons. tauto. }
  assert (a ∉ l1 ++ l2) as Hal.
  { rw Hcl in Hnd. assert (l1 ++ a :: l2 ≡ₚ a :: (l1 ++ l2)) as Hp by solve_Permutation.
    rw Hp in Hnd. by apply NoDup_cons in Hnd as [? _]. }
  assert (forall b db, b ∈ l1 ++ l2 -> w_heap w !! b = Some db -> socket_id db <> socket_id d) as Hdis.
  { intros b db Hb Hdb. apply (us_distinct _ _ _ (iv_users _ Hi) b a); try done.
    - apply Hmem. by right.
    - by intros ->. }
  eapply wp_mono; [apply (user_logout_spec heap_after w a d l1 l2 (iv_world _ Hi) (iv_server _ Hi) Hd (uo_name _ _ Hu) Hcl)|].
  { intros b Hb. assert (b ∈ l1 ++ l2) as Hb' by (apply elem_of_app; by left).
    destruct (so_live _ (iv_server _ Hi) b) as [db Hdb]; [apply Hmem; by right|].
    exists db. split; [done|by eapply Hdis]. }
  intros _ w' (Hw' & Hs' & Hcl' & Hf' & Hn' & Hrun & h & Hh & Hdel & Hsg).
  assert (forall b db, b ∈ l1 ++ l2 -> w_heap w !! b = Some db -> exists db', w_heap w' !! b = Some db' /\
    socket_id db' = socket_id db /\ pub db' = pub db /\ cname db' = cname db /\
    reading_buffer db' = reading_buffer db /\ w_fds w' !! socket_id db = w_fds w !! socket_id db) as Hkept.
  { intros b db Hb Hdb. pose proof (Hdel b) as Hb2. rw Hdb in Hb2. destruct Hb2 as (db' & Hdb' & Hr).
    assert (a <> b) by (by intros ->). exists db'. rw Hh Hf' lookup_delete_ne // lookup_delete_ne.
    { pose proof (Hdis b db Hb Hdb). congruence. }
    split; [done|]. destruct (_ && _); [destruct Hr as [-> _]|subst db']; done. }
  assert (forall b, w_heap w !! b = None -> w_heap w' !! b = None) as Hnone.
  { intros b Hb. rw Hh. apply lookup_delete_None. right. specialize (Hdel b). by rw Hb in Hdel. }
  split.
  - eapply (inv_step w w'); try done; rw Hcl'.
    + intros b Hb. apply Hmem. by right.
    + rw Hcl. zl.
    + intros b db' Hb Hdb'. destruct (w_heap w !! b) as [db|] eqn:Hdb; [|by rw (Hnone b Hdb) in Hdb'].
      destruct (Hkept b db Hb Hdb) as (db2 & Hdb2 & ? & ? & ? & ? & ?). rw Hdb' in Hdb2. injection Hdb2 as <-.
      exists db. split; [done|]. by apply user_step_same.
  - constructor; try done.
    + rw Hcl Hcl'. apply sublist_app; [done|]. by apply sublist_cons.
    + intros b. rw Hcl' Hmem. split.
      * intros Hb. split; [by right|]. by intros ->%list_elem_of_singleton.
      * intros [[->|Hb] Hx]; [|done]. specialize (Hx (list_elem_of_here _ _) d Hd). congruence.
    + intros b db ->%list_elem_of_singleton Hdb _. rw Hd in Hdb. injection Hdb as <-.
      rw Hh Hf'. split; apply lookup_delete_eq.
    + intros b db Hb Hdb. rw Hcl' in Hb. destruct (Hkept b db Hb Hdb) as (db' & ? & ? & Hp & ? & ? & ?).
      exists db'. unfold flushes. by rw Hp.
    + intros id Hid. rw Hf'. apply lookup_delete_None. by right.
Qed.

Lemma logout_clients_inv suf : forall pre w,
  server_inv w -> NoDup suf -> (forall a, a ∈ suf -> a ∈ clients (w_server w)) ->
  wp false (logout_clients heap_after (pre ++ suf) (seq (length pre) (length suf))) w
    (fun _ w' => server_inv w' /\ logged_out suf w w').
Proof.
  induction suf as [|a suf IH]; intros pre w Hi Hnd Hl; cbn [length seq logout_clients].
  { apply wp_ret. split; [done|apply logged_out_nil]. }
  apply NoDup_cons in Hnd as [Ha Hnd]. pose proof (Hl a (list_elem_of_here _ _)) as Hin.
  assert (forall b, b ∈ suf -> b ∈ clients (w_server w)) as Hsuf
    by (intros b Hb; by apply Hl, list_elem_of_further).
  destruct (inv_client w a Hi Hin) as (d & Hd & _ & _).
  unfold entry. rw list_lookup_middle //. wp_steps. apply (wp_get_client _ _ _ d); [done|].
  assert (pre ++ a :: suf = (pre ++ [a]) ++ suf) as -> by by rw -app_assoc.
  assert (Datatypes.S (length pre) = length (pre ++ [a])) as -> by zl.
  destruct (u64 FAIL =? pub d) eqn:Hp.
  - assert (flushes d = false) as Hfl by by rw /flushes Hp.
    eapply wp_bind, wp_mono; [by apply (logout_inv w a d)|]. intros _ w1 [Hi1 Hlo].
    eapply wp_mono; [apply (IH (pre ++ [a]) w1 Hi1 Hnd)|].
    + intros b Hb. apply (lo_clients _ _ _ Hlo). split; [by apply Hsuf|].
      intros ->%list_elem_of_singleton. done.
    + intros _ w2 [Hi2 Hlo2]. split; [done|]. by eapply logged_out_cons.
  - apply wp_bind, wp_ret. eapply wp_mono; [by apply (IH (pre ++ [a]) w Hi Hnd)|].
    intros _ w2 [Hi2 Hlo]. split; [done|]. apply (logged_out_skip _ _ _ _ d); [done| |done].
    by rw /flushes Hp.
Qed.

Lemma users_sockets w :
  server_inv w ->
  (forall a d, a ∈ clients (w_server w) -> w_heap w !! a = Some d ->
     zlen (contents (writing_buffer d)) < 2 ^ 63) ->
  sockets_ok (clients (w_server w)) (w_heap w) (w_fds w).
Proof.
  intros [_ _ [Hu Hd] _ _] Hsz. constructor; try done.
  intros a d Ha Hda. destruct (Hu a d Ha Hda) as [_ _ (x & ? & _ & ? & _)]. by exists x.
Qed.

(** A flush is a step that every socket survives. *)
Lemma flushed_inv w w' :
  let l := clients (w_server w) in
  server_inv w -> world_ok ∅ w' -> w_next w' = w_next w -> w_server w' = w_server w ->
  sockets_ok l (w_heap w) (w_fds w) ->
  heap_flushed l (w_heap w) (w_heap w') -> fds_flushed l (w_heap w) (w_fds w) (w_fds w') ->
  server_inv w'.
Proof.
  intros l Hi Hw Hn Hs Hsk Hh [Hf1 Hf2]. eapply (inv_step w); try done; rw ?Hs //.
  - apply (server_ok_heap w); [apply Hi|by rw Hs..|]. intros b db Hb. specialize (Hh b).
    rw Hb in Hh. destruct Hh as (d' & -> & _). done.
  - intros b Hb. specialize (Hh b). by rw Hb in Hh.
  - intros a d' Ha Hd'. specialize (Hh a). destruct (w_heap w !! a) as [d|] eqn:Hd; [|congruence].
    destruct Hh as (d2 & Hd2 & Hr). rw Hd' in Hd2. injection Hd2 as <-. exists d. split; [done|].
    rw bool_decide_true // in Hr. destruct (flushes d) eqn:Hfl; simpl in Hr.
    + destruct Hr as [Hr _]. apply user_step_fd; [by rw Hr|by rw Hr|]. intros x Hx Hrx Hwx Hpx.
      destruct (Hf1 a d x Ha Hd Hfl Hx) as (x' & Hx' & Hin & Hrp & _ & Hwr). exists x'.
      assert (reading_buffer d' = reading_buffer d) as -> by by rw Hr. rw Hin. split_and!; try done.
      congruence.
    + subst d'. apply user_step_same; try done. apply Hf2. intros b db Hb Hdb Hflb Heq.
      apply (us_distinct _ _ _ (iv_users _ Hi) b a db d); try done. by intros ->; congruence.
Qed.

(** What the turn does to the sockets and the list. *)
Record served (w w' : World S) : Prop := {
  sv_clients : forall a, a ∈ clients (w_server w') <->
    a ∈ clients (w_server w) /\ forall d, w_heap w !! a = Some d -> flushes d = true;
  sv_order : clients (w_server w') `sublist_of` clients (w_server w);
  sv_sent : forall a d x, a ∈ clients (w_server w) -> w_heap w !! a = Some d -> flushes d = true ->
    w_fds w !! socket_id d = Some x -> exists x', w_fds w' !! socket_id d = Some x' /\
    fd_out x' = fd_out x ++ contents (writing_buffer d) /\ fd_in x' = fd_in x;
  sv_gone : forall a d, a ∈ clients (w_server w) -> w_heap w !! a = Some d -> flushes d = false ->
    w_heap w' !! a = None /\ w_fds w' !! socket_id d = None;
}.

(** Flushing and then logging out the failed ones is serving. *)
Lemma served_by w w2 w3 :
  let l := clients (w_server w) in
  server_ok w -> clients (w_server w2) = l ->
  heap_flushed l (w_heap w) (w_heap w2) -> fds_flushed l (w_heap w) (w_fds w) (w_fds w2) ->
  logged_out l w2 w3 -> served w w3.
Proof.
  intros l Hs Hs2 Hheap [Hf _] Hlo.
  assert (forall a d, a ∈ l -> w_heap w !! a = Some d -> exists d', w_heap w2 !! a = Some d' /\
    flushes d' = flushes d /\ socket_id d' = socket_id d) as Hfl.
  { intros a d Ha Hd. specialize (Hheap a). rw Hd in Hheap. destruct Hheap as (d' & Hd' & Hr).
    exists d'. split; [done|]. destruct (_ && _); [by destruct Hr as [-> _]|by subst]. }
  assert (forall a, a ∈ clients (w_server w3) <->
    a ∈ l /\ forall d, w_heap w !! a = Some d -> flushes d = true) as Hcl.
  { intros a. rw (lo_clients _ _ _ Hlo) Hs2 -/l. split.
    - intros [Ha Hx]. split; [done|]. intros d Hd. destruct (Hfl a d Ha Hd) as (d' & Hd' & <- & _).
      by apply Hx.
    - intros [Ha Hx]. split; [done|]. intros _ d' Hd'.
      destruct (so_live _ Hs a Ha) as [d Hd]. destruct (Hfl a d Ha Hd) as (d2 & Hd2 & Hfd & _).
      rw Hd' in Hd2. injection Hd2 as <-. rw Hfd. by apply Hx. }
  constructor.
  - exact Hcl.
  - rw -/l -Hs2. apply Hlo.
  - intros a d x Ha Hd Hflu Hx.
    destruct (Hf a d x Ha Hd Hflu Hx) as (x' & Hx' & ? & ? & ? & ?). exists x'.
    destruct (Hfl a d Ha Hd) as (d' & Hd' & _ & Hsd).
    destruct (lo_kept _ _ _ Hlo a d') as (_ & _ & _ & _ & Heq); [|done|].
    { apply Hcl. split; [done|]. intros d0 Hd0. congruence. }
    rw Hsd in Heq. by rw Heq.
  - intros a d Ha Hd Hflu. destruct (Hfl a d Ha Hd) as (d' & Hd' & Hfd & <-).
    apply (lo_gone _ _ _ Hlo a d' Ha Hd'). congruence.
Qed.

(** Only the sign of the server object is written. *)
Lemma set_sign_inv {X} w k :
  server_at X w -> server_at X (set_server (set_sign k (w_server w)) w).
Proof.
  intros Hi. eapply (inv_step w); try done; [by apply world_ok_server, Hi| |].
  - apply (server_ok_heap w); [apply Hi|done..|]. intros b db Hb. cbn. by rw Hb.
  - intros a d _ Hd. exists d. split; [done|]. by apply user_step_same.
Qed.

Lemma write_turn_inv w :
  server_inv w ->
  (forall a d, a ∈ clients (w_server w) -> w_heap w !! a = Some d ->
     zlen (contents (writing_buffer d)) < 2 ^ 63) ->
  wp false (write_sockets_turn heap_after) w (fun b w' =>
    server_inv w' /\ served w w' /\ b = negb (is_running (w_server w) =? 0) /\
    is_running (w_server w') = is_running (w_server w)).
Proof.
  intros Hi Hsz. pose proof (users_sockets w Hi Hsz) as Hsk. pose proof (iv_server _ Hi) as Hs.
  unfold write_sockets_turn. eapply wp_bind, wp_mono; [by apply (get_client_list_spec ∅ w); [apply Hi|]|].
  intros r w1 (-> & Hw1 & Hr1 & Hh1). cbv beta iota.
  pose proof (same_rest_inv w w1 Hi Hw1 Hr1 Hh1) as Hi1. destruct Hr1 as (Hf1 & _ & Hs1).
  rw /zlen Nat2Z.id. set (l := clients (w_server w)) in *.
  eapply wp_bind, wp_mono; [apply (flush_clients_spec ∅ l [] w1 Hw1)|].
  { apply (so_nodup _ Hs). } { rw Hh1. apply (so_live _ Hs). } { by rw Hh1 Hf1. }
  intros _ w2 (Hw2 & Hn2 & Hs2 & Hheap & Hfds).
  assert (server_inv w2) as Hi2.
  { apply (flushed_inv w1); try done; rw ?Hs1 ?Hh1 ?Hf1 //; by rw -?Hh1 -?Hf1. }
  rw Hh1 in Hheap, Hfds. rw Hf1 in Hfds. rw Hs1 in Hs2.
  eapply wp_bind, wp_mono; [apply (logout_clients_inv l [] w2 Hi2); [apply (so_nodup _ Hs)|by rw Hs2]|].
  intros _ w3 [Hi3 Hlo].
  assert (served w w3) as Hsv by (apply (served_by w w2); [done|by rw Hs2|done..]).
  unfold write_wait. apply wp_bind, wp_server. apply wp_bind.
  assert (is_running (w_server w3) = is_running (w_server w)) as Hrun by by rw (lo_running _ _ _ Hlo) Hs2.
  rw Hrun. destruct (sign_to_flush_msg (w_server w3) =? 0); [|by apply wp_ret, wp_ret].
  apply wp_put_server, wp_ret. split; [by apply set_sign_inv|]. split; [by destruct Hsv|done].
Qed.

(** *** Connections and bytes *)

Lemma listen_inv_step {X} w id f peer now :
  server_at X w -> admissible w (EListen id f peer now) ->
  wp false (handle_listen_turn id f peer now 0 0) w (fun _ w' =>
    server_at X w' /\ clients (w_server w') = clients (w_server w) ++ [w_next w] /\ w_fds w' = <[id := f]> (w_fds w)).
Proof.
  intros Hi (Hid & Hnew & Hr & Hwr & Hp & Hz & Hroom). pose proof (iv_server _ Hi) as Hs.
  assert (w_heap w !! w_next w = None) as Hfree by (apply (iv_fresh _ Hi); lia).
  eapply wp_mono; [apply (listen_spec X w id f peer now (iv_world _ Hi) Hs Hfree Hid); lia|].
  intros _ w' (Hw' & Hs' & d & (Hci & Hown & Hcs & Hsd & Hpub & Hrb & Hwb) & Hh & Hf & Hcl & Hn).
  split; [|done].
  assert (user_ok (w_fds w') d) as Hud.
  { constructor.
    - rw /cname Hcs. by apply (bool_decide_unpack _); vm_compute.
    - by rw Hsd.
    - exists f. rw Hf Hsd lookup_insert_eq Hrb. split_and!; try done. }
  assert (forall a da, a ∈ clients (w_server w') -> w_heap w' !! a = Some da ->
    (a = w_next w /\ da = d) \/ (a ∈ clients (w_server w) /\ w_heap w !! a = Some da)) as Hcase.
  { intros a da Ha. rw Hh. intros [[<- <-]|[Hne Hda]]%lookup_insert_Some; [by left|right].
    rw Hcl in Ha. apply elem_of_app in Ha as [Ha|Ha%list_elem_of_singleton]; [done|congruence]. }
  assert (forall a da, a ∈ clients (w_server w) -> w_heap w !! a = Some da -> socket_id da <> id) as Hne.
  { intros a da Ha Hda Heq. destruct (us_user _ _ _ (iv_users _ Hi) a da Ha Hda) as [_ _ (x & Hx & _)].
    congruence. }
  constructor; try done.
  - constructor.
    + intros a da Ha Hda. destruct (Hcase a da Ha Hda) as [[-> ->]|[Ha' Hda']]; [done|].
      pose proof (us_user _ _ _ (iv_users _ Hi) a da Ha' Hda') as [? ? (x & ? & ?)].
      constructor; [done|done|]. exists x. rw Hf lookup_insert_ne //. apply not_eq_sym. by eapply Hne.
    + intros a b da db Ha Hb Hab Hda Hdb.
      destruct (Hcase a da Ha Hda) as [[-> ->]|[Ha' Hda']], (Hcase b db Hb Hdb) as [[-> ->]|[Hb' Hdb']].
      * done.
      * rw Hsd. apply not_eq_sym. by eapply Hne.
      * rw Hsd. by eapply Hne.
      * by apply (us_distinct _ _ _ (iv_users _ Hi) a b).
  - intros a Ha. rw Hn in Ha. rw Hh lookup_insert_ne; [lia|]. apply (iv_fresh _ Hi). lia.
  - rw Hcl zlen_app. change (zlen [w_next w]) with 1. lia.
Qed.

Lemma data_inv {X} w id data :
  server_at X w -> admissible w (EData id data) ->
  server_at X (set_fds (alter (receive data) id (w_fds w)) w).
Proof.
  intros Hi Had. constructor; try apply Hi.
  - by apply world_ok_fds, Hi.
  - pose proof (iv_server _ Hi) as []. by constructor.
  - constructor; [|apply Hi]. cbn. intros a d Ha Hd.
    pose proof (us_user _ _ _ (iv_users _ Hi) a d Ha Hd) as [? ? (x & Hx & Hr & Hw & Hp & Hz)].
    constructor; [done|done|]. destruct (decide (socket_id d = id)) as [Heq|Hne].
    + rw Heq in Hx. destruct (Had a d x Ha Hd Heq Hx) as [Hp' Hz'].
      exists (receive data x). rw Heq lookup_alter_eq Hx. by split_and!.
    + exists x. rw lookup_alter_ne //.
Qed.

Lemma run_event_inv w ev :
  server_inv w -> admissible w ev ->
  wp false (run_event heap_after behind ev) w (fun _ w' => server_inv w').
Proof.
  intros Hi Had. destruct ev as [id f peer now|id data|poll|]; cbn [run_event].
  - eapply wp_mono; [by apply (listen_inv_step w _ _ _ _ Hi)|]. by intros _ w' [? _].
  - apply wp_bind, wp_getS, wp_putS. by apply data_inv.
  - eapply wp_bind, wp_mono; [by apply read_turn_inv|]. intros b w' [? _]. by apply wp_ret.
  - eapply wp_bind, wp_mono; [by apply write_turn_inv|]. intros b w' [? _]. by apply wp_ret.
Qed.

Lemma run_events_inv evs : forall w,
  server_inv w -> admissible_run heap_after behind evs w ->
  wp false (run_events heap_after behind evs) w (fun _ w' => server_inv w').
Proof.
  induction evs as [|ev evs IH]; intros w Hi Had; cbn [run_events]; [by apply wp_ret|].
  destruct Had as [Had Hrest]. destruct (wp_total _ _ _ (run_event_inv w ev Hi Had)) as ([] & w1 & Hrun & Hi1).
  apply wp_bind. eapply wp_run; [exact Hrun|]. by apply IH, Hrest.
Qed.

(** *** Nobody stops the server *)

Definition goes_on (w w' : World S) : Prop := is_running (w_server w') = is_running (w_server w).
#[local] Instance goes_on_preorder : PreOrder goes_on.
Proof. split; [by intros w|]. intros w1 w2 w3. unfold goes_on. congruence. Qed.

Lemma goes_on_mem {A} (m : M S A) : pres goes_on (on_mem m).
Proof. intros w a w'. unfold on_mem. destruct (m (w_mem w)) as [[x s]| |]; [|done..]. by intros [= _ <-]. Qed.
Lemma goes_on_put_fd id f : pres goes_on (put_fd id f).
Proof. by intros w a w' [= _ <-]. Qed.
Lemma goes_on_put_client a d : pres goes_on (put_client a d).
Proof. by intros w x w' [= _ <-]. Qed.
Lemma goes_on_bump : pres goes_on bump_sign.
Proof. by intros w x w' [= _ <-]. Qed.
#[local] Hint Resolve goes_on_preorder goes_on_mem goes_on_put_fd goes_on_put_client goes_on_bump : pres.

Lemma goes_on_try a : pres goes_on (try_to_handle_msg heap_after behind a).
Proof.
  assert (forall fuel i sz om need, pres goes_on (handle_loop heap_after behind fuel a i sz om need)) as Hloop.
  { intros. apply pres_handle_loop; [typeclasses eauto|eauto with pres|..]; intros;
      unfold send_msg, fetch_msg, user_login; pres_auto. }
  unfold try_to_handle_msg, fetch_msg. pres_auto.
Qed.
#[local] Hint Resolve goes_on_try : pres.

Lemma goes_on_read_turn poll : pres goes_on (read_sockets_turn heap_after behind poll).
Proof.
  assert (forall l, pres goes_on (polling_entries l)) as Hentries.
  { induction l as [|a l IH]; cbn [polling_entries]; pres_auto. }
  assert (forall l, pres goes_on (debug_block l)) as Hdebug.
  { induction l as [|[fd a] l IH]; cbn [debug_block]; pres_auto. }
  assert (forall l revents index, pres goes_on (read_clients heap_after behind l revents index)) as Hread.
  { intros l revents. induction index as [|k index IH]; cbn [read_clients]; [by apply pres_ret; typeclasses eauto|].
    pres_auto. unfold read_client, fetch, mark_failed. pres_auto. }
  unfold read_sockets_turn, get_polling_and_client_list. pres_auto.
Qed.

Lemma run_event_goes_on w ev w' :
  server_inv w -> admissible w ev -> run_event heap_after behind ev w = Ret (tt, w') -> goes_on w w'.
Proof.
  intros Hi Had. destruct ev as [id f peer now|id data|poll|]; cbn [run_event].
  - intros Hrun. destruct Had as (Hid & Hnew & _ & _ & _ & _ & Hroom). pose proof (iv_server _ Hi) as Hs.
    assert (w_heap w !! w_next w = None) as Hfree by (apply (iv_fresh _ Hi); lia).
    unfold handle_listen_turn, mbind, M_bind in Hrun.
    destruct (wp_total _ _ _ (accept_spec ∅ w id f peer now (iv_world _ Hi) Hs Hfree Hid ltac:(lia)))
      as (b & w2 & Hrun2 & -> & _ & _ & d & _ & _ & _ & _ & _ & Hr). rw Hrun2 in Hrun. by injection Hrun as <-.
  - by intros [= <-].
  - intros Hrun. apply (pres_bind goes_on _ (fun _ => mret tt) (goes_on_read_turn poll) (fun _ => pres_ret _ tt) w tt w' Hrun).
  - unfold mbind, M_bind. destruct (wp_total _ _ _ (write_turn_inv w Hi Had)) as (b & w1 & -> & _ & _ & _ & Hr).
    by intros [= <-].
Qed.

Lemma run_events_go_on evs : forall w,
  server_inv w -> admissible_run heap_after behind evs w ->
  wp false (run_events heap_after behind evs) w (fun _ w' => server_inv w' /\ goes_on w w').
Proof.
  induction evs as [|ev evs IH]; intros w Hi Had; cbn [run_events]; [by apply wp_ret|].
  destruct Had as [Had Hrest]. destruct (wp_total _ _ _ (run_event_inv w ev Hi Had)) as ([] & w1 & Hrun & Hi1).
  pose proof (run_event_goes_on _ _ _ Hi Had Hrun) as Hg.
  apply wp_bind. eapply wp_run; [exact Hrun|]. eapply wp_mono; [by apply IH, Hrest|].
  intros _ w2 [? ?]. split; [done|]. by etrans.
Qed.
End turns.

(** ** Deciding admissibility *)

Definition protocol_checked (c : bytes) : bool := forallb line_check (complete_lines [] c).
Definition plan_checked (l : list (option Z)) : bool := forallb (fun o => bool_decide (is_Some o)) l.
Definition each_client {S} (w : World S) (p : ClientData -> bool) : bool :=
  forallb (fun a => match w_heap w !! a with Some d => p d | None => true end) (clients (w_server w)).

Definition admissible_check {S} (w : World S) (ev : event) : bool :=
  match ev with
  | EListen id f _ _ =>
    (0 <=? id) && bool_decide (w_fds w !! id = None) && bool_decide (fd_rplan f = []) &&
    plan_checked (fd_wplan f) && protocol_checked (fd_in f) &&
    (zlen (fd_in f) <? 2 ^ 31 - 1) && (zlen (clients (w_server w)) + 1 <? 2 ^ 27)
  | EData id data =>
    each_client w (fun d => if socket_id d =? id then
      match w_fds w !! id with
      | Some x => protocol_checked (contents (reading_buffer d) ++ fd_in x ++ data) &&
                  (zlen (contents (reading_buffer d)) + zlen (fd_in x ++ data) <? 2 ^ 31 - 1)
      | None => true
      end else true)
  | ERead _ => true
  | EWrite => each_client w (fun d => zlen (contents (writing_buffer d)) <? 2 ^ 63)
  end.

Lemma each_client_spec {S} (w : World S) p a d :
  each_client w p = true -> a ∈ clients (w_server w) -> w_heap w !! a = Some d -> p d = true.
Proof.
  unfold each_client. rw forallb_forall. intros Hall Ha%list_elem_of_In Hd.
  specialize (Hall a Ha). by rw Hd in Hall.
Qed.

Lemma plan_check_spec l : plan_checked l = true -> Forall is_Some l.
Proof.
  unfold plan_checked. rw forallb_forall. intros Hall. apply Forall_forall. intros x Hx%list_elem_of_In.
  by apply (bool_decide_eq_true_1 _ (Hall x Hx)).
Qed.

Lemma admissible_check_spec {S} (w : World S) ev : admissible_check w ev = true -> admissible w ev.
Proof.
  destruct ev as [id f peer now|id data|poll|]; cbn [admissible_check admissible]; [| |done|].
  - intros Hc. repeat (apply andb_prop in Hc as [Hc ?]).
    repeat match goal with H : bool_decide _ = true |- _ => apply bool_decide_eq_true_1 in H
      | H : (_ <? _) = true |- _ => apply Z.ltb_lt in H | H : (_ <=? _) = true |- _ => apply Z.leb_le in H end.
    split_and!; try done; [by apply plan_check_spec|by apply protocol_check].
  - intros Hc a d x Ha Hd Hs Hx. pose proof (each_client_spec _ _ _ _ Hc Ha Hd) as Hp. cbv beta in Hp.
    rw Hs Z.eqb_refl Hx in Hp. apply andb_prop in Hp as [Hp Hz%Z.ltb_lt]. split; [by apply protocol_check|done].
  - intros Hc a d Ha Hd. pose proof (each_client_spec _ _ _ _ Hc Ha Hd) as Hp. by apply Z.ltb_lt in Hp.
Qed.

Fixpoint run_check {S} `{CacheModule S} (ha : Z -> bytes) (bh : nat -> bytes) (evs : list event)
    (w : World S) : bool :=
  match evs with
  | [] => true
  | ev :: rest => admissible_check w ev &&
    match run_event ha bh ev w with Ret (_, w') => run_check ha bh rest w' | _ => true end
  end.

Lemma run_check_spec {S} `{CacheModule S} ha bh evs : forall w : World S,
  run_check ha bh evs w = true -> admissible_run ha bh evs w.
Proof.
  induction evs as [|ev evs IH]; intros w Hc; [done|]. simpl in *. apply andb_prop in Hc as [Hc Hr].
  split; [by apply admissible_check_spec|]. intros w' Hrun. rw Hrun in Hr. by apply IH.
Qed.
