(* ===== verification/RunTheorems.v ===== *)
(** * What the server guarantees over whole runs *)
From Stdlib Require Import Strings.Byte String.
From S2P Require Import Prelude CLib Alloc Cache Locks PoolShared Buffer Message ClientInfo Server.
From S2P Require Import ServerSpec ServerLoop ServerTurns Threads ServerRun BufferTheorems ClientTheorems ServerTheorems.

(** Where the data of a buffer lie. *)
Definition buffer_bounds (b : InnerBuffer) : Prop :=
  Forall (fun n => 0 <= r_offset n <= w_offset n /\ w_offset n <= 512 /\ zlen (buff (cache n)) = 512) b /\
  zlen b <= zlen (contents b) + 1.

Lemma full_nodes_hold b : Forall full_node b -> zlen b <= zlen (contents b).
Proof.
  induction 1 as [|n b (Hn & Hw & Hr) _ IH]; [done|]. pose proof (live_len n Hn).
  unfold contents in *. rw bind_cons !zlen_app. unfold zlen in *. cbn [length]. unfold CACHE_SIZE in *. lia.
Qed.

Lemma buffer_inv_bounds b : buffer_inv b -> buffer_bounds b.
Proof.
  intros [Hs _]. split.
  - eapply Forall_impl; [by apply shape_all|]. intros n [Ho Hw _ Hl _]. unfold CACHE_SIZE in *. split; [done|by split].
  - destruct Hs as [|b n Hb _]; [done|]. pose proof (full_nodes_hold b Hb). unfold contents in *.
    rw bind_app !zlen_app. pose proof (zlen_nonneg (live n)). rw (eq_refl : zlen [n] = 1) (eq_refl : zlen (@nil byte) = 0). lia.
Qed.

Section theorems.
Context {S : Type} `{!CacheModule S} `{!CacheModuleLaws S}.
Context (heap_after : Z -> bytes) (behind : nat -> bytes).
Implicit Types (w : World S).

(** C1 (type): The server runs on and stays well formed, under the assumptions that
    follow.  From a state with the invariant, any sequence of connections, arriving
    bytes, reading turns (whatever [poll] reports) and writing turns that is
    admissible runs to its end - every call returns, no loop is endless - and the
    invariant holds afterwards.  Admissible: what arrives keeps to the protocol, no
    call on a socket fails, there are fewer than 2^27 clients and the queues fit a
    [size_t].  The invariant includes that no allocation fails.  And the code reads
    outside of its blocks, so memory is assumed to go on there: behind a heap block a
    NUL can be read ([terminated], [behind]; IMServer.c:280 needs it for every line,
    see [line_scan_overreads]), and with the pool of cache.c the reads of lines 41
    and 92 meet readable memory ([pool_inv false]). *)
Theorem server_sound w evs :
  terminated heap_after -> (forall i, nul ∈ behind i) ->
  server_inv w -> admissible_run heap_after behind evs w ->
  exists w', run_events heap_after behind evs w = Ret (tt, w') /\ server_inv w'.
Proof.
  intros Hter Hbeh Hi Had.
  destruct (wp_total _ _ _ (run_events_inv heap_after behind Hter Hbeh evs w Hi Had)) as ([] & w' & ? & ?).
  by exists w'.
Qed.

(** A turn of the reading thread keeps the invariant of the
    server and the list, whatever [poll] reports: also for a client whose socket
    is closed, has an error or has nothing to read. *)
Theorem read_turn_keeps_invariant w poll :
  terminated heap_after -> (forall i, nul ∈ behind i) -> server_inv w ->
  exists b w', read_sockets_turn heap_after behind poll w = Ret (b, w') /\
    server_inv w' /\ clients (w_server w') = clients (w_server w).
Proof.
  intros Hter Hbeh Hi.
  destruct (wp_total _ _ _ (read_turn_inv heap_after behind Hter Hbeh w poll Hi)) as (b & w' & ? & ? & ?).
  by exists b, w'.
Qed.

(** C13 (functional): A turn of the writing thread serves everybody: each client
    that is not marked gets exactly what was queued for it, whatever short writes
    the kernel makes; each marked client leaves the list, is released and has its
    socket closed; the others keep their order. *)
Theorem write_turn_serves w :
  server_inv w ->
  (forall a d, a ∈ clients (w_server w) -> w_heap w !! a = Some d ->
     zlen (contents (writing_buffer d)) < 2 ^ 63) ->
  exists w', write_sockets_turn heap_after w = Ret (negb (is_running (w_server w) =? 0), w') /\
    server_inv w' /\ served w w'.
Proof.
  intros Hi Hq. destruct (wp_total _ _ _ (write_turn_inv heap_after w Hi Hq)) as (b & w' & Hrun & ? & ? & -> & _).
  by exists w'.
Qed.

(** The bounds in force after every admissible run (which keeps the clients below
    2^27).  The count of the clients is the length of their list.  Of every client,
    the name lies with its terminator inside its array of 30 bytes, and in both of
    its buffers every node has its offsets in order inside a block of 512 bytes, and
    there are at most as many nodes as bytes held and one more. *)
Theorem run_bounds w evs :
  terminated heap_after -> (forall i, nul ∈ behind i) -> server_inv w ->
  admissible_run heap_after behind evs w ->
  exists w', run_events heap_after behind evs w = Ret (tt, w') /\
    client_count (w_server w') = zlen (clients (w_server w')) /\
    0 <= client_count (w_server w') * 16 < 2 ^ 31 /\
    forall a, a ∈ clients (w_server w') -> exists d, w_heap w' !! a = Some d /\
      (exists nm, cstr (name d) = Ret nm /\ zlen nm < 30) /\
      zlen (contents (reading_buffer d)) < 2 ^ 31 - 1 /\
      buffer_bounds (reading_buffer d) /\ buffer_bounds (writing_buffer d).
Proof.
  intros Hter Hbeh Hi Had.
  destruct (wp_total _ _ _ (run_events_inv heap_after behind Hter Hbeh evs w Hi Had)) as ([] & w' & Hrun & Hi').
  exists w'. split; [done|]. rw (so_count _ (iv_server _ Hi')). pose proof (iv_room _ Hi').
  pose proof (zlen_nonneg (clients (w_server w'))). split_and!; [done|lia|lia|].
  intros a Ha. destruct (inv_client w' a Hi' Ha) as (d & Hd & _ & Hc). exists d. split; [done|].
  destruct Hc as [Hr Hw _ Hn _ Hz]. split_and!; try done; by apply buffer_inv_bounds.
Qed.
End theorems.

(** ** Concrete runs *)

Lemma demo_server_inv : server_inv (demo_world [] no_fd).
Proof.
  constructor; [apply empty_world|apply demo_server_ok| | |by vm_compute].
  - constructor.
    + intros a d _ [[-> ->]|[-> ->]]%demo_lookup; (constructor;
        [by apply (bool_decide_unpack _); vm_compute|done|eexists; split; [done|]; split_and!;
           [done|by repeat constructor|by apply protocol_check|by vm_compute]]).
    + intros a b da db _ _ Hne [[-> ->]|[-> ->]]%demo_lookup [[-> ->]|[-> ->]]%demo_lookup; done.
  - intros a Ha. cbn in *. rw !lookup_insert_ne; [lia|lia|done].
Qed.

Definition no_users : World mem := mkWorld mem0 ∅ ∅ 1 (mkServer [] 0 1 0 0).

Lemma no_users_inv : server_inv no_users.
Proof.
  constructor; [|constructor|constructor|by intros|by vm_compute]; try done; try (by intros a ?%not_elem_of_nil).
  - exists ∅. constructor; [apply mem0_inv|by constructor|done|done].
  - constructor.
Qed.

(** Two clients connect, log in and exchange messages; one hangs up. *)
Definition session : list event :=
  [ EListen 5 (mkFd (bs "LOGIN: ann" ++ [nl]) [] [] []) (0, None, 999) 1;
    EListen 6 (mkFd (bs "LOGIN: bob" ++ [nl]) [] [] [Some 3]) (0, None, 999) 2;
    ERead (fun _ => (2, [1; 1]));
    EData 5 (bs "TO-ALL: hi" ++ [nl]);
    EData 6 (bs "TO-C-ann: yo" ++ [nl] ++ bs "TO-");
    ERead (fun _ => (2, [1; 1]));
    EWrite;
    ERead (fun _ => (1, [0; 17]));
    EWrite ].

(** The same start, with other threads that take caches and give them back, full,
    between the calls of the server's. *)
Definition busy_pool : pool_state :=
  mkPool Free mem0 [] [[OGet 100]; []; [OGet 64; OMalloc 10]; [ORecycle 1 (bs "LOGIN: eve")];
                       [OGet 2048; ORecycle 0 (bs "TO-ALL: boo")]].
Definition no_users_busy : World pool_state := mkWorld busy_pool ∅ ∅ 1 (mkServer [] 0 1 0 0).

Lemma no_users_busy_inv : server_inv no_users_busy.
Proof.
  constructor; [|constructor|constructor|by intros|by vm_compute]; try done; try (by intros a ?%not_elem_of_nil).
  - exists ∅. constructor; [|by constructor|done|done]. constructor; cbn; [done| |set_solver|constructor|constructor|by repeat constructor].
    rw ids_nil union_empty_r_L. apply mem0_inv.
  - constructor.
Qed.

Lemma server_sound_witness :
  exists w', run_events behind (fun _ => [nul]) session no_users_busy = Ret (tt, w') /\ server_inv w'.
Proof.
  apply (server_sound behind (fun _ => [nul]) no_users_busy session);
    [apply behind_terminated|intros _; apply list_elem_of_here|apply no_users_busy_inv|].
  apply run_check_spec. by vm_compute.
Defined.

Lemma read_turn_keeps_invariant_witness :
  exists b w', read_sockets_turn behind (fun _ => [nul]) (fun _ => (2, [8; 1])) (demo_world [] no_fd) = Ret (b, w') /\
    server_inv w' /\ clients (w_server w') = [1; 2].
Proof.
  apply (read_turn_keeps_invariant behind (fun _ => [nul]) (demo_world [] no_fd) (fun _ => (2, [8; 1])));
    [apply behind_terminated|intros _; apply list_elem_of_here|apply demo_server_inv].
Defined.

Lemma write_turn_serves_witness :
  exists w', write_sockets_turn behind (demo_world [] no_fd) = Ret (true, w') /\ server_inv w' /\
    served (demo_world [] no_fd) w'.
Proof.
  apply (write_turn_serves behind (demo_world [] no_fd)); [apply demo_server_inv|].
  intros a d _ [[-> ->]|[-> ->]]%demo_lookup; by vm_compute.
Defined.

Lemma run_bounds_witness :
  exists w', run_events behind (fun _ => [nul]) session no_users_busy = Ret (tt, w') /\
    client_count (w_server w') = zlen (clients (w_server w')) /\
    0 <= client_count (w_server w') * 16 < 2 ^ 31 /\
    forall a, a ∈ clients (w_server w') -> exists d, w_heap w' !! a = Some d /\
      (exists nm, cstr (name d) = Ret nm /\ zlen nm < 30) /\
      zlen (contents (reading_buffer d)) < 2 ^ 31 - 1 /\
      buffer_bounds (reading_buffer d) /\ buffer_bounds (writing_buffer d).
Proof.
  apply (run_bounds behind (fun _ => [nul]) no_users_busy session);
    [apply behind_terminated|intros _; apply list_elem_of_here|apply no_users_busy_inv|].
  apply run_check_spec. by vm_compute.
Defined.
