(* ===== verification/BlockTheorems.v ===== *)
(** * Which blocks the threads leave *)
From Stdlib Require Import Strings.Byte String.
From S2P Require Import Prelude CLib Alloc Cache Buffer Message ClientInfo Server.
From S2P Require Import ServerSpec ServerLoop ServerTurns Threads ServerRun BufferTheorems ClientTheorems ServerTheorems RunTheorems Locks Blocks.

Section handling.
Context {S : Type} `{!CacheModule S} `{!CacheModuleLaws S}.
Context (heap_after : Z -> bytes) (behind : nat -> bytes).
Hypothesis heap_terminated : terminated heap_after.
Hypothesis behind_terminated : forall i, nul ∈ behind i.
Implicit Types (x : BWorld S) (w : World S) (B : gmap Z block) (X : gset Z).

(** The loop frees every line but the last, which is empty. *)
Lemma does_loop X a fuel : forall i x d sz om p need c B,
  world_ok X (b_world x) -> server_ok (b_world x) -> w_heap (b_world x) !! a = Some d ->
  protocol (c ++ contents (reading_buffer d)) ->
  line_found sz om c (reading_buffer d) ->
  B !! p = None -> has x (<[p := BBytes (default [] om)]> B) ->
  does (handle_loop_at heap_after behind fuel a i sz (Some p) need) (handle_loop heap_after behind fuel a i sz om need) x
    (fun b n x' => b = n /\ exists q, B !! q = None /\ has x' (<[q := BBytes []]> B)).
Proof.
  induction fuel as [|fuel IH]; intros i x d sz om p need c B Hw Hs Ha Hp Hc HBp Hx; [done|].
  unfold line_found in Hc. cbn [handle_loop_at handle_loop]. destruct (0 <? sz) eqn:Hsz.
  2: { destruct Hc as (-> & -> & Hno). apply does_ret. split; [done|]. by exists p. }
  destruct Hc as (l & -> & -> & Hnl & Hnul). rw -app_assoc /= in Hp. cbn [default] in Hx.
  destruct (loop_round heap_after behind heap_terminated behind_terminated X _ a d l i Hw Hs Ha Hp Hnl Hnul)
    as (n & w1 & d1 & sz2 & om2 & w2 & rb & c2 & Hrun & Hfetch & Ha1 & Hrb1 & _ & _ & _ & Hh2 & Hw2 & Hs2 & _ & Hc2 & Hn2).
  eapply does_bind_run; [exact Hrun|by apply does_handle; [|apply lookup_insert_eq]|].
  intros b x1 (-> & cut & Hx1) Hw1. rw insert_insert_eq in Hx1.
  eapply does_free; [exact Hx1|rw lookup_insert_eq; by eexists|]. intros x2 Hx2 Hwx2. rw delete_insert_id // in Hx2.
  eapply does_bind_run; [rw Hwx2 Hw1; exact Hfetch|by apply does_fetch|].
  intros [sz3 op] x3 [-> Hop] Hw3. cbv beta iota. assert (exists m2, om2 = Some m2) as [m2 ->].
  { unfold line_found in Hn2. destruct (0 <? sz2); [destruct Hn2 as (? & -> & _)|destruct Hn2 as (_ & -> & _)]; by eexists. }
  destruct Hop as (q & -> & Hq & Hx3).
  apply (IH (Datatypes.S i) x3 (set_reading rb 0 d1) sz2 (Some m2) q _ c2 B); rw ?Hw3; try done.
  - rw Hh2. apply lookup_insert_eq.
  - simpl. rw -Hc2. by eapply protocol_drop.
Qed.

Lemma does_try X a d x B :
  world_ok X (b_world x) -> server_ok (b_world x) -> w_heap (b_world x) !! a = Some d ->
  protocol (contents (reading_buffer d)) -> has x B ->
  does (try_to_handle_at heap_after behind a) (try_to_handle_msg heap_after behind a) x
    (fun _ _ x' => exists q, B !! q = None /\ has x' (<[q := BBytes []]> B)).
Proof.
  intros Hw Hs Ha Hp Hx. unfold try_to_handle_at, try_to_handle_msg.
  eapply does_bind_run; [unfold get_client; by rw Ha|by apply does_on_w|]. intros d' x1 (-> & Hx1 & _) Hw1. cbv zeta.
  destruct (wp_total _ _ _ (fetch_msg_at heap_after heap_terminated X _ a d Hw Ha)) as ([sz om] & w2 & Hfetch & Hw2 & Hr2 & rb & Hh2 & Hm).
  cbv zeta in Hm. destruct (fetched_line _ _ _ _ _ eq_refl Hm) as (c & Hc & _ & Hl).
  eapply does_bind_run; [rw Hw1; exact Hfetch|by apply does_fetch|]. intros [sz' op] x2 [-> Hop] Hwx2. cbv beta iota.
  assert (exists m, om = Some m) as [m ->].
  { unfold line_found in Hl. destruct (0 <? sz); [destruct Hl as (? & -> & _)|destruct Hl as (_ & -> & _)]; by eexists. }
  destruct Hop as (p & -> & HBp & Hx2).
  eapply does_bind; [apply (does_loop X a _ 0 x2 (set_reading rb 0 d) sz (Some m) p 0 c B); rw ?Hwx2; try done|].
  - destruct Hr2 as (_ & _ & Hsv). pose proof (server_ok_insert (b_world x) a (set_reading rb 0 d) Hs ltac:(by eexists)) as [].
    constructor; rw Hsv; try done. by rw Hh2.
  - rw Hh2. apply lookup_insert_eq.
  - by rw /= -Hc.
  - intros b n x3 (-> & q & Hq & Hx3). destruct (n =? 0); [apply does_ret; by exists q|].
    eapply does_mono; [by apply does_on_w|]. intros [] [] x4 (_ & Hx4 & _). by exists q.
Qed.
End handling.

(** *** The writing thread *)

Section writer.
Context {S : Type} `{CacheModule S}.
Variable heap_after : Z -> bytes.
Implicit Types (x : BWorld S) (B : gmap Z block).

Lemma does_logout_notice nm x B :
  has x B ->
  does (logout_notice_at heap_after nm) (logout_notice heap_after nm) x (fun b n x' => b = n /\ has x' B).
Proof.
  intros Hx. unfold logout_notice_at, logout_notice. does_step. cbv zeta. does_step.
  match goal with |- does (match ?oc with _ => _ end) _ _ _ => destruct oc as [c|] end; [|by apply does_ret].
  does_step. eapply does_bind; [by apply does_sys|]. intros op om x1 Hmade.
  eapply (does_bind _ _ _ _ _ (fun b n x' => b = n /\ has x' B)).
  - destruct op as [p|], om as [m|]; try done; [|by apply does_ret]. destruct Hmade as (B' & Hm & Hx1).
    eapply does_bind; [by eapply does_exclude|]. intros [] e x2 (B'' & Hm2 & Hx2).
    eapply does_bind_l; [by eapply does_deliver|]. intros n n' x3 [-> Hx3].
    eapply does_release; [exact Hm2|exact Hx3|]. intros x4 Hx4. by apply does_ret.
  - intros n n' x2 [-> Hx2]. does_step. by apply does_ret.
Qed.

Lemma does_logout a x B :
  has x B ->
  does (user_logout_at heap_after a) (user_logout heap_after a) x (fun _ _ x' => has x' B).
Proof.
  intros Hx. unfold user_logout_at, user_logout. does_steps.
  eapply (does_bind _ _ _ _ _ (fun _ _ x' => has x' B)).
  { match goal with |- does (match ?oc with _ => _ end) _ _ _ => destruct oc end; [|by apply does_ret].
    eapply does_mono; [by apply does_on_w|]. by intros [] [] ? (_ & ? & _). }
  intros [] [] x1 Hx1. eapply does_bind; [by apply does_logout_notice|]. intros n n' x2 [-> Hx2]. does_steps.
  destruct (n' =? 0); [by apply does_ret|]. eapply does_mono; [by apply does_on_w|]. by intros [] [] ? (_ & ? & _).
Qed.

Lemma does_flush_clients arr l index : forall x B,
  array_at B arr l -> has x B ->
  does (flush_clients_at arr index) (flush_clients l index) x (fun _ _ x' => has x' B).
Proof.
  induction index as [|k index IH]; intros x B Ha Hx; cbn [flush_clients_at flush_clients]; [by apply does_ret|].
  eapply does_client_at; [exact Hx|exact Ha|]. intros a. does_step.
  eapply (does_bind _ _ _ _ _ (fun _ _ x' => has x' B)).
  { match goal with |- does (if ?c then _ else _) _ _ _ => destruct c end; [by apply does_ret|].
    eapply does_mono; [by apply does_on_w|]. by intros ? ? ? (_ & ? & _). }
  intros ? ? x2 Hx2. by apply IH.
Qed.

Lemma does_logout_clients arr l index : forall x B,
  array_at B arr l -> has x B ->
  does (logout_clients_at heap_after arr index) (logout_clients heap_after l index) x (fun _ _ x' => has x' B).
Proof.
  induction index as [|k index IH]; intros x B Ha Hx; cbn [logout_clients_at logout_clients]; [by apply does_ret|].
  eapply does_client_at; [exact Hx|exact Ha|]. intros a. does_step.
  eapply (does_bind _ _ _ _ _ (fun _ _ x' => has x' B)).
  { match goal with |- does (if ?c then _ else _) _ _ _ => destruct c end; [|by apply does_ret]. by apply does_logout. }
  intros [] [] x2 Hx2. by apply IH.
Qed.

Lemma does_write_turn x B :
  has x B -> does (write_turn_at heap_after) (write_sockets_turn heap_after) x (fun b r x' => b = r /\ has x' B).
Proof.
  intros Hx. unfold write_turn_at, write_sockets_turn. eapply does_bind; [by apply does_copy|].
  intros [arr items] [ol items'] x1 [-> Harr]. cbv beta iota. destruct ol as [l|].
  - destruct Harr as (p & -> & Hp & Hx1).
    eapply does_bind; [apply (does_flush_clients (Some p) l _ _ (<[p := BClients l]> B)); [apply lookup_insert_eq|done]|].
    intros [] [] x2 Hx2.
    eapply does_bind; [apply (does_logout_clients (Some p) l _ _ (<[p := BClients l]> B)); [apply lookup_insert_eq|done]|].
    intros [] [] x3 Hx3. eapply does_free; [exact Hx3|rw lookup_insert_eq; by eexists|]. intros x4 Hx4 _.
    rw delete_insert_id // in Hx4. eapply does_mono; [by apply does_on_w|]. by intros b r x5 (-> & ? & _).
  - destruct Harr as [-> Hx1]. by apply does_ret.
Qed.
End writer.

(** *** The reading thread *)

(** The blocks [B'] are those of [B] and empty ones. *)
Definition grown (B B' : gmap Z block) : Prop :=
  (forall p b, B !! p = Some b -> B' !! p = Some b) /\
  (forall p b, B !! p = None -> B' !! p = Some b -> b = BBytes []).

Lemma grown_refl B : grown B B.
Proof. split; [done|]. congruence. Qed.
Lemma grown_trans B1 B2 B3 : grown B1 B2 -> grown B2 B3 -> grown B1 B3.
Proof.
  intros [H1 H2] [H3 H4]. split; [by auto|]. intros p b Hp Hb.
  destruct (B2 !! p) as [b2|] eqn:E; [|by eapply H4]. rw (H3 _ _ E) in Hb. injection Hb as <-. by eapply H2.
Qed.
Lemma grown_insert B q : B !! q = None -> grown B (<[q := BBytes []]> B).
Proof.
  intros Hq. split.
  - intros p b Hp. rw lookup_insert_ne //. congruence.
  - intros p b Hp. destruct (decide (p = q)) as [->|?]; [rw lookup_insert_eq; by intros [= <-]|].
    rw lookup_insert_ne //. congruence.
Qed.
Lemma grown_delete B q b B' : B !! q = None -> grown (<[q := b]> B) B' -> grown B (delete q B').
Proof.
  intros Hq [H1 H2]. split.
  - intros p c Hp. rw lookup_delete_ne; [congruence|]. apply H1. rw lookup_insert_ne //. congruence.
  - intros p c Hp [Hne Hc]%lookup_delete_Some. eapply H2; [|exact Hc]. by rw lookup_insert_ne.
Qed.

Lemma does_free_last {S} p (x : BWorld S) B :
  has x B -> is_Some (B !! p) -> does (free p) (mret tt) x (fun (_ _ : ()) x' => has x' (delete p B)).
Proof.
  intros [<- Hn] [c Hp]. unfold does, free. rw Hp. eexists tt, _. split; [done|]. split; [done|]. split; [done|].
  cbn. intros p' [b Hp']. apply lookup_delete_Some in Hp' as [_ Hp']. apply Hn. by eexists.
Qed.

Section reader.
Context {S : Type} `{!CacheModule S} `{!CacheModuleLaws S}.
Context (heap_after : Z -> bytes) (behind : nat -> bytes).
Hypothesis heap_terminated : terminated heap_after.
Hypothesis behind_terminated : forall i, nul ∈ behind i.
Implicit Types (x : BWorld S) (w : World S) (B : gmap Z block).

Lemma does_read_client e revents x B :
  server_inv (b_world x) -> e.2 ∈ clients (w_server (b_world x)) -> has x B ->
  does (read_client_at heap_after behind e revents) (read_client heap_after behind e revents) x
    (fun _ _ x' => exists B', grown B B' /\ has x' B').
Proof.
  destruct e as [fd a]. cbn [snd]. intros Hi Ha Hx. unfold read_client_at, read_client.
  assert (forall x1, has x1 B -> does (mret tt) (mret tt) x1 (fun (_ _ : ()) x' => exists B', grown B B' /\ has x' B')) as Hret.
  { intros x1 Hx1. apply does_ret. exists B. split; [apply grown_refl|done]. }
  assert (forall m x1, has x1 B -> does (on_w m) m x1 (fun (_ _ : ()) x' => exists B', grown B B' /\ has x' B')) as Hw.
  { intros m x1 Hx1. eapply does_mono; [by apply does_on_w|]. intros [] [] x' (_ & Hx' & _). exists B. split; [apply grown_refl|done]. }
  destruct (fd =? -1); [by apply Hret|].
  destruct (inv_client _ a Hi Ha) as (d & Hd & _ & _).
  eapply does_bind_run; [unfold get_client; by rw Hd|by apply does_on_w|]. intros d' x1 (-> & Hx1 & _) Hw1.
  destruct (negb _); [by apply Hret|]. destruct (revents =? 0); [by apply Hret|]. destruct (negb _); [|by apply Hw].
  destruct (wp_total _ _ _ (fetch_inv _ a Hi Ha)) as (r & w2 & Hfetch & Hi2 & Hs2).
  eapply does_bind_run; [rw Hw1; exact Hfetch|by apply does_on_w|]. intros r' x2 (-> & Hx2 & _) Hw2. cbv zeta.
  destruct (i32 r =? 0); [by apply Hw|].
  assert (a ∈ clients (w_server w2)) as Ha2 by by rw Hs2.
  destruct (inv_client w2 a Hi2 Ha2) as (d2 & Hd2 & [_ _ (f & _ & _ & _ & Hpr & _)] & _).
  eapply does_mono; [apply (does_try heap_after behind heap_terminated behind_terminated ∅ a d2); rw ?Hw2; try done; try apply Hi2|].
  - by eapply protocol_prefix.
  - intros [] [] x3 (q & Hq & Hx3). exists (<[q := BBytes []]> B). split; [by apply grown_insert|done].
Qed.

Lemma does_read_clients data revents suf : forall pre x B,
  server_inv (b_world x) -> (forall a, a ∈ snd <$> suf -> a ∈ clients (w_server (b_world x))) ->
  B !! data = Some (BPoll (pre ++ suf)) -> has x B ->
  does (read_clients_at heap_after behind data revents (seq (length pre) (length suf)))
       (read_clients heap_after behind (pre ++ suf) revents (seq (length pre) (length suf))) x
    (fun _ _ x' => exists B', grown B B' /\ has x' B').
Proof.
  induction suf as [|[fd a] suf IH]; intros pre x B Hi Hl Hp Hx; cbn [length seq read_clients_at read_clients].
  { apply does_ret. exists B. split; [apply grown_refl|done]. }
  eapply does_poll; [exact Hx|exact Hp|]. unfold entry. rw list_lookup_middle //. apply does_lift. intros e [= <-]. simpl in Hl.
  destruct (wp_total _ _ _ (read_client_inv heap_after behind heap_terminated behind_terminated (b_world x) fd a
    (default 0 (revents !! length pre)) Hi ltac:(apply Hl, list_elem_of_here))) as ([] & w1 & Hrun & Hi1 & Hs1).
  eapply does_bind_run; [exact Hrun|apply does_read_client; [done|apply Hl, list_elem_of_here|done]|].
  intros [] x1 (B1 & Hg1 & Hx1) Hw1.
  assert (pre ++ (fd, a) :: suf = (pre ++ [(fd, a)]) ++ suf) as Heq by by rw -app_assoc. rw Heq in Hp |- *.
  assert (Datatypes.S (length pre) = length (pre ++ [(fd, a)])) as -> by zl.
  eapply does_mono; [apply (IH (pre ++ [(fd, a)]) x1 B1); rw ?Hw1; try done|].
  - intros b Hb. rw Hs1. apply Hl. by apply list_elem_of_further.
  - by apply Hg1.
  - intros [] [] x2 (B2 & Hg2 & Hx2). exists B2. split; [by eapply grown_trans|done].
Qed.

(** What a turn of the reading thread leaves: [e] is the snapshot. *)
Definition read_leaves (poll : list Z -> Z * list Z) (e : list (Z * Z)) B B' : Prop :=
  let ret := (poll (fst <$> e)).1 in
  if (ret =? FAIL) || (ret =? SUCC) then exists data, B !! data = None /\ B' = <[data := BPoll e]> B
  else grown B B'.

Lemma does_read_turn poll x B :
  server_inv (b_world x) -> has x B ->
  does (read_turn_at heap_after behind poll) (read_sockets_turn heap_after behind poll) x
    (fun b r x' => b = r /\ exists e B', snd <$> e = clients (w_server (b_world x)) /\ read_leaves poll e B B' /\ has x' B').
Proof.
  intros Hi Hx. unfold read_turn_at, read_sockets_turn, read_leaves.
  destruct (wp_total _ _ _ (polling_spec _ Hi)) as (r & w1 & Hrun & e & -> & He & _ & Hw1 & Hr1 & Hh1).
  eapply does_bind_run; [exact Hrun|by apply does_on_w|]. intros r x1 (-> & Hx1 & _) Hwx1. cbv beta iota.
  pose proof (same_rest_inv _ w1 Hi Hw1 Hr1 Hh1) as Hi1. destruct Hr1 as (_ & _ & Hs1).
  eapply does_new; [exact Hx1|]. intros data x2 Hd Hx2 Hwx2. eapply does_poll; [exact Hx2|apply lookup_insert_eq|].
  rw Hwx1 in Hwx2. assert (debug_block e w1 = Ret (tt, w1)) as Hdbg.
  { apply debug_block_run. intros a. rw He -Hs1. apply Hi1. }
  eapply does_bind_run; [rw Hwx2; exact Hdbg|by apply does_on_w|]. intros [] x3 (_ & Hx3 & _) Hwx3.
  destruct (poll (fst <$> e)) as [ret revents] eqn:Hpoll.
  eapply (does_bind _ _ _ _ _ (fun _ _ x' => exists B', (if (ret =? FAIL) || (ret =? SUCC) then B' = <[data := BPoll e]> B
    else grown B B') /\ has x' B')).
  - destruct (_ || _); [apply does_ret; by eexists|].
    rw -He /zlen Nat2Z.id length_fmap.
    eapply does_bind_l; [apply (does_read_clients data revents e [] x3 (<[data := BPoll e]> B)); rw ?Hwx3; try done|].
    + intros a. by rw He Hs1.
    + apply lookup_insert_eq.
    + intros [] [] x4 (B' & Hg & Hx4).
      eapply does_mono; [eapply does_free_last; [exact Hx4|]|].
      { exists (BPoll e). apply Hg. apply lookup_insert_eq. }
      intros [] [] x5 Hx5. exists (delete data B'). split; [by eapply grown_delete|done].
  - intros [] [] x4 (B' & HB & Hx4). eapply does_bind; [by apply does_on_w|]. intros i i' x5 (-> & Hx5 & _).
    apply does_ret. split; [done|]. exists e, B'. rw He Hpoll. cbn [fst]. split; [done|]. split; [|done].
    destruct (_ || _); [by exists data|done].
Qed.
End reader.

(** [poll] times out or fails, whatever it is asked. *)
Definition idle (poll : list Z -> Z * list Z) : Prop :=
  forall fds, (poll fds).1 = SUCC \/ (poll fds).1 = FAIL.

Section idle.
Context {S : Type} `{!CacheModule S} `{!CacheModuleLaws S}.
Context (heap_after : Z -> bytes) (behind : nat -> bytes).
Implicit Types (x : BWorld S) (w : World S).

Lemma idle_test poll fds : idle poll -> ((poll fds).1 =? FAIL) || ((poll fds).1 =? SUCC) = true.
Proof. intros Hp. destruct (Hp fds) as [-> | ->]; done. Qed.

Lemma idle_turn poll w :
  server_inv w -> idle poll ->
  exists w', read_sockets_turn heap_after behind poll w = Ret (negb (is_running (w_server w) =? 0), w') /\
    server_inv w' /\ w_server w' = w_server w.
Proof.
  intros Hi Hidle.
  destruct (wp_total _ _ _ (polling_spec _ Hi)) as (r & w1 & Hrun & e & -> & He & _ & Hw1 & Hr1 & Hh1).
  pose proof (same_rest_inv _ w1 Hi Hw1 Hr1 Hh1) as Hi1. destruct Hr1 as (_ & _ & Hs1).
  exists w1. split; [|done]. unfold read_sockets_turn. rw bind_run Hrun bind_run.
  rw debug_block_run; [intros a; rw He -Hs1; apply Hi1|].
  pose proof (idle_test poll (fst <$> e) Hidle) as Ht. destruct (poll (fst <$> e)) as [ret revents]. cbn [fst] in Ht.
  rw Ht bind_run /= bind_run /=. by rw Hs1.
Qed.
End idle.

(** ** Theorems *)

Section theorems.
Context {S : Type} `{!CacheModule S} `{!CacheModuleLaws S}.
Context (heap_after : Z -> bytes) (behind : nat -> bytes).
Implicit Types (x : BWorld S).

(** C8 (refinement): What the server does with the lines of a client, with the
    messages, the lines and the arrays as blocks of a heap reached through
    pointers, computes what the model by values computes: no pointer is used after
    its block is freed, no block is freed twice.  Every message is released with
    its content and every line is freed but the last, empty one, of which exactly
    one block is left behind. *)
Theorem try_to_handle_blocks x a d :
  terminated heap_after -> (forall i, nul ∈ behind i) ->
  world_ok ∅ (b_world x) -> server_ok (b_world x) -> w_heap (b_world x) !! a = Some d ->
  protocol (contents (reading_buffer d)) -> has x (b_blocks x) ->
  exists x' q, try_to_handle_at heap_after behind a x = Ret (tt, x') /\
    try_to_handle_msg heap_after behind a (b_world x) = Ret (tt, b_world x') /\
    b_blocks x !! q = None /\ has x' (<[q := BBytes []]> (b_blocks x)).
Proof.
  intros Hter Hbeh Hw Hs Ha Hp Hx.
  destruct (wp_total _ _ _ (try_to_handle_msg_spec heap_after behind Hter Hbeh ∅ _ a d Hw Hs Ha Hp)) as ([] & w' & Hrun & _).
  pose proof (does_try heap_after behind Hter Hbeh ∅ a d x _ Hw Hs Ha Hp Hx) as Hdoes.
  unfold does in Hdoes. rw Hrun in Hdoes. destruct Hdoes as ([] & x' & Hat & Hx' & q & Hq & Hhas).
  exists x', q. by rw Hx'.
Qed.

(** C34 (functional): The blocks a turn of the reading thread leaves.  When [poll]
    fails or times out, the array of the turn is never freed, [continue] skips the
    call: it is the one block more.  Otherwise the array is freed and
    only the empty lines stay. *)
Theorem read_turn_blocks x poll :
  terminated heap_after -> (forall i, nul ∈ behind i) -> server_inv (b_world x) -> has x (b_blocks x) ->
  exists r x' e, read_turn_at heap_after behind poll x = Ret (r, x') /\
    read_sockets_turn heap_after behind poll (b_world x) = Ret (r, b_world x') /\
    snd <$> e = clients (w_server (b_world x)) /\
    read_leaves poll e (b_blocks x) (b_blocks x') /\ server_inv (b_world x') /\ has x' (b_blocks x').
Proof.
  intros Hter Hbeh Hi Hx.
  destruct (wp_total _ _ _ (read_turn_inv heap_after behind Hter Hbeh _ poll Hi)) as (r & w' & Hrun & Hi' & _).
  pose proof (does_read_turn heap_after behind Hter Hbeh poll x _ Hi Hx) as Hdoes.
  unfold does in Hdoes. rw Hrun in Hdoes. destruct Hdoes as (b & x' & Hat & Hx' & -> & e & B' & He & Hl & Hhas).
  exists r, x', e. rw Hx'. split_and!; try done; destruct Hhas as [<- ?]; [done|by split].
Qed.

(** A turn of the writing thread frees what it allocates: the
    copy of the client list, the notices of the clients it logs out, the messages
    they are sent in. *)
Theorem write_turn_blocks x :
  server_inv (b_world x) ->
  (forall a d, a ∈ clients (w_server (b_world x)) -> w_heap (b_world x) !! a = Some d ->
     zlen (contents (writing_buffer d)) < 2 ^ 63) -> has x (b_blocks x) ->
  exists r x', write_turn_at heap_after x = Ret (r, x') /\
    write_sockets_turn heap_after (b_world x) = Ret (r, b_world x') /\
    b_blocks x' = b_blocks x /\ server_inv (b_world x') /\ served (b_world x) (b_world x').
Proof.
  intros Hi Hq Hx.
  destruct (wp_total _ _ _ (write_turn_inv heap_after _ Hi Hq)) as (r & w' & Hrun & Hi' & Hsv & _).
  pose proof (does_write_turn heap_after x _ Hx) as Hdoes.
  unfold does in Hdoes. rw Hrun in Hdoes. destruct Hdoes as (b & x' & Hat & Hx' & -> & Hhas & _).
  exists r, x'. by rw Hx'.
Qed.

(** C35 (liveness): The server's memory grows without bound while its clients are
    silent: the reading thread goes on, and each turn in which [poll] times out or
    fails leaves one block more, for any number of turns. *)
Theorem idle_server_leaks polls x :
  terminated heap_after -> (forall i, nul ∈ behind i) -> server_inv (b_world x) -> has x (b_blocks x) ->
  is_running (w_server (b_world x)) <> 0 -> Forall idle polls ->
  exists x', read_loop_at heap_after behind polls x = Ret (tt, x') /\ server_inv (b_world x') /\
    base.size (b_blocks x') = (base.size (b_blocks x) + length polls)%nat.
Proof.
  intros Hter Hbeh Hi Hx Hrun Hidle. revert x Hi Hx Hrun.
  induction Hidle as [|poll polls Hp _ IH]; intros x Hi Hx Hrun; [exists x; split_and!; [done..|cbn; lia]|].
  destruct (idle_turn heap_after behind poll (b_world x) Hi Hp) as (w' & Hturn & Hi' & Hs').
  pose proof (does_read_turn heap_after behind Hter Hbeh poll x _ Hi Hx) as Hdoes.
  unfold does in Hdoes. rw Hturn in Hdoes. destruct Hdoes as (b & x' & Hat & Hx' & -> & e & B' & _ & Hl & Hhas).
  unfold read_leaves in Hl. cbv zeta in Hl. rw idle_test // in Hl. destruct Hl as (data & Hd & HB).
  destruct (IH x') as (x2 & Hrun2 & Hi2 & Hsz); [by rw Hx'|destruct Hhas as [<- ?]; by split|by rw Hx' Hs'|].
  exists x2. split_and!; [|done|].
  - cbn [read_loop_at]. rw bind_run Hat. apply Z.eqb_neq in Hrun. by rw Hrun.
  - rw Hsz (proj1 Hhas) HB map_size_insert_None //. cbn [length]. lia.
Qed.
End theorems.

(** ** Concrete runs *)

Definition no_blocks (w : World mem) : BWorld mem := mkBWorld w ∅ 1.
Lemma no_blocks_has w : has (no_blocks w) ∅.
Proof. split; [done|]. intros p [b Hp]. by rw lookup_empty in Hp. Qed.

Lemma try_to_handle_blocks_witness :
  let x := no_blocks (demo_world [input_node ann_input] no_fd) in
  exists x' q, try_to_handle_at behind (fun _ => [nul]) 1 x = Ret (tt, x') /\
    try_to_handle_msg behind (fun _ => [nul]) 1 (b_world x) = Ret (tt, b_world x') /\
    (∅ : gmap Z block) !! q = None /\ has x' (<[q := BBytes []]> ∅).
Proof.
  apply (try_to_handle_blocks behind (fun _ => [nul]) (no_blocks (demo_world [input_node ann_input] no_fd)) 1
    (ann [input_node ann_input]));
    [apply behind_terminated|intros _; apply list_elem_of_here|apply input_world|apply demo_server_ok
    |done|apply protocol_check; by vm_compute|apply no_blocks_has].
Defined.

Lemma read_turn_blocks_witness :
  let x := no_blocks (demo_world [] no_fd) in
  exists r x' e, read_turn_at behind (fun _ => [nul]) (fun _ => (2, [8; 1])) x = Ret (r, x') /\
    read_sockets_turn behind (fun _ => [nul]) (fun _ => (2, [8; 1])) (b_world x) = Ret (r, b_world x') /\
    snd <$> e = [1; 2] /\ read_leaves (fun _ => (2, [8; 1])) e ∅ (b_blocks x') /\
    server_inv (b_world x') /\ has x' (b_blocks x').
Proof.
  apply (read_turn_blocks behind (fun _ => [nul]) (no_blocks (demo_world [] no_fd)) (fun _ => (2, [8; 1])));
    [apply behind_terminated|intros _; apply list_elem_of_here|apply demo_server_inv|apply no_blocks_has].
Defined.

Lemma write_turn_blocks_witness :
  let x := no_blocks (demo_world [] no_fd) in
  exists r x', write_turn_at behind x = Ret (r, x') /\
    write_sockets_turn behind (b_world x) = Ret (r, b_world x') /\
    b_blocks x' = ∅ /\ server_inv (b_world x') /\ served (b_world x) (b_world x').
Proof.
  apply (write_turn_blocks behind (no_blocks (demo_world [] no_fd))); [apply demo_server_inv| |apply no_blocks_has].
  intros a d _ [[-> ->]|[-> ->]]%demo_lookup; by vm_compute.
Defined.

Lemma idle_server_leaks_witness :
  exists x', read_loop_at behind (fun _ => [nul]) (replicate 100 (fun _ => (0, []))) (no_blocks (demo_world [] no_fd)) =
      Ret (tt, x') /\
    server_inv (b_world x') /\ base.size (b_blocks x') = 100%nat.
Proof.
  apply (idle_server_leaks behind (fun _ => [nul]) (replicate 100 (fun _ => (0, []))) (no_blocks (demo_world [] no_fd)));
    [apply behind_terminated|intros _; apply list_elem_of_here|apply demo_server_inv|apply no_blocks_has|done|].
  apply Forall_replicate. intros fds. by left.
Defined.
