(* ===== verification/Chat.v ===== *)
(** * The chat, end to end

    A line typed at one client, through the client program, the socket, the
    reading thread, the abstract chat, the writing thread and the sockets of the
    recipients, to what the recipients' programs show. *)
From Stdlib Require Import Strings.Byte String.
From S2P Require Import Prelude CLib Alloc Cache Buffer Message ClientInfo Server.
From S2P Require Import ServerSpec ServerLoop ServerTurns Threads ServerRun BufferTheorems ClientTheorems ServerTheorems RunTheorems IMClient.

(** ** Definitions *)

(** The target and the text that a typed line stands for. *)
Definition addressed (l : bytes) : bytes * bytes :=
  match parse_line (composed l) with
  | CmdTo tn text => (tn, text)
  | _ => (bs CMD_TO_ALL, l)
  end.

(** [poll] reports input on the descriptor [id] only. *)
Definition only (id : Z) (fds : list Z) : Z * list Z :=
  (1, (fun fd => if fd =? id then POLLIN else 0) <$> fds).

(** A round of the client's loop in which the server's bytes arrive. *)
Definition arrival (data : bytes) : round := mkRound 1 0 POLLIN None (Some data) 0.

(** What the handling of the line [l] of the client at [a] leaves, seen from
    outside: the abstract chat made its step, the lists are the same and only the
    input of the sender's socket is used up. *)
Record line_handled {S} (a : Z) (d : ClientData) (x : fdesc) (l : bytes) (w w' : World S) : Prop := {
  lh_abs : abs_heap (w_heap w') = handle_line (clients (w_server w)) a (abs_heap (w_heap w)) l;
  lh_list : clients (w_server w') = clients (w_server w);
  lh_socket : forall b db, w_heap w !! b = Some db ->
    exists db', w_heap w' !! b = Some db' /\ socket_id db' = socket_id db /\
      (b <> a -> reading_buffer db' = reading_buffer db);
  lh_others : forall id, id <> socket_id d -> w_fds w' !! id = w_fds w !! id;
  lh_self : exists x', w_fds w' !! socket_id d = Some x' /\ fd_in x' = [] /\ fd_out x' = fd_out x;
  lh_empty : exists d', w_heap w' !! a = Some d' /\ contents (reading_buffer d') = [];
}.

(** ** Lemmas *)

(** A short line in a fresh buffer is found. *)
Lemma next_message_line b l :
  buffer_inv b -> unread b -> contents b = l ++ [nl] -> (nl ∉ l) -> (nul ∉ l) ->
  zlen l < 512 -> is_Some (next_message b).
Proof.
  intros Hb Hu Hc Hnl Hnul Hl. pose proof (unread_first b Hb Hu) as Hf.
  rw Hc zlen_app in Hf. specialize (Hf ltac:(unfold Buffer.CACHE_SIZE; change (zlen [nl]) with 1; lia)).
  destruct b as [|n b]; [by apply app_nil in Hf as [_ ?]|]. cbn [next_message]. rw -Hf.
  clear -Hnl Hnul. induction l as [|x l IH]; [by eexists|].
  apply not_elem_of_cons in Hnl as [? Hnl]. apply not_elem_of_cons in Hnul as [? Hnul].
  destruct (IH Hnl Hnul) as [k Hk]. cbn. rw decide_False; [congruence|]. rw decide_False; [congruence|].
  rw Hk. by eexists.
Qed.

(** One line is all the lines there are. *)
Lemma only_line lines l rest :
  l ++ [nl] = (lines ≫= fun x => x ++ [nl]) ++ rest -> lines <> [] -> (nl ∉ l) -> Forall line_text lines ->
  lines = [l] /\ rest = [].
Proof.
  intros Heq Hne Hl Hlines. destruct lines as [|x lines]; [done|]. apply Forall_cons in Hlines as [[Hx _] _].
  cbn in Heq. rw -!app_assoc /= in Heq. assert (x = l /\ [] = (lines ≫= fun x => x ++ [nl]) ++ rest) as [-> Hr].
  { clear Hne. revert x Hx Heq. induction l as [|y l IH]; intros [|z x] Hx Heq; cbn in Heq.
    - by injection Heq.
    - injection Heq as Hz _. destruct Hx. rw -Hz. apply list_elem_of_here.
    - injection Heq as Hz _. destruct Hl. rw Hz. apply list_elem_of_here.
    - injection Heq as -> Heq. apply not_elem_of_cons in Hx as [_ Hx]. apply not_elem_of_cons in Hl as [_ Hl].
      destruct (IH Hl x Hx Heq) as [-> ?]. done. }
  symmetry in Hr. apply app_nil in Hr as [Hl' ->]. split; [|done].
  destruct lines as [|z lines]; [done|]. cbn in Hl'. by destruct z.
Qed.

Section chat.
Context {S : Type} `{!CacheModule S} `{!CacheModuleLaws S}.
Context (heap_after : Z -> bytes) (behind : nat -> bytes).
Hypothesis heap_terminated : terminated heap_after.
Hypothesis behind_terminated : forall i, nul ∈ behind i.
Implicit Types (w : World S).

(** The lines of one read, when there is exactly one. *)
Lemma handle_one_line w a d l :
  server_inv w -> a ∈ clients (w_server w) -> w_heap w !! a = Some d ->
  unread (reading_buffer d) -> contents (reading_buffer d) = l ++ [nl] ->
  (nl ∉ l) -> (nul ∉ l) -> zlen l < 512 ->
  wp false (try_to_handle_msg heap_after behind a) w (fun _ w' =>
    abs_heap (w_heap w') = handle_line (clients (w_server w)) a (abs_heap (w_heap w)) l /\
    w_fds w' = w_fds w /\
    (forall b db, w_heap w !! b = Some db ->
       exists db', w_heap w' !! b = Some db' /\ socket_id db' = socket_id db /\
         (b <> a -> reading_buffer db' = reading_buffer db)) /\
    exists d', w_heap w' !! a = Some d' /\ contents (reading_buffer d') = []).
Proof.
  intros Hi Ha Hd Hu Hc Hnl Hnul Hl. destruct (inv_client w a Hi Ha) as (d0 & Hd0 & [_ _ (x & _ & _ & _ & Hp & _)] & Hci).
  rw Hd in Hd0. injection Hd0 as <-.
  destruct (next_message_line _ l (ci_reading _ Hci) Hu Hc Hnl Hnul Hl) as [k Hk].
  eapply wp_mono; [apply (try_to_handle_msg_spec heap_after behind heap_terminated behind_terminated ∅ w a d);
    [apply Hi|apply Hi|done|by eapply protocol_prefix]|].
  intros _ w' (lines & d' & _ & _ & Hf & _ & _ & [Habs Ha' Hno Hnil Hs Hoth _ Hcl Hcon]).
  simpl in Hcon. rw Hc in Hcon.
  assert (lines <> []) as Hne. { intros Hl'. destruct (Hnil Hl') as [_ Heq]. rw Heq Hk in Hno. done. }
  destruct (only_line _ _ _ Hcon Hne Hnl Hcl) as [-> Hrest].
  split_and!; [done|done| |by exists d'].
  intros b db Hb. destruct (decide (b = a)) as [->|Hba].
  - exists d'. split_and!; [done|congruence|done].
  - destruct (Hoth b db Hba Hb) as (db' & ? & ? & ?). by exists db'.
Qed.

(** A readable socket that holds one line. *)
Lemma read_one_line w a d x l :
  server_inv w -> a ∈ clients (w_server w) -> w_heap w !! a = Some d ->
  contents (reading_buffer d) = [] -> w_fds w !! socket_id d = Some x -> fd_in x = l ++ [nl] ->
  (nl ∉ l) -> (nul ∉ l) -> zlen l < 512 ->
  wp false (read_client heap_after behind (socket_id d, a) POLLIN) w (fun _ w' =>
    server_inv w' /\ line_handled a d x l w w').
Proof.
  intros Hi Ha Hd Hrb Hx Hin Hnl Hnul Hl.
  destruct (inv_client w a Hi Ha) as (d0 & Hd0 & [_ Hsk (x0 & Hx0 & Hr & Hw & Hp & Hz)] & Hci).
  rw Hd in Hd0. injection Hd0 as <-. rw Hx in Hx0. injection Hx0 as <-.
  pose proof (unread_empty _ (ci_reading _ Hci) Hrb) as Hun.
  unfold read_client. rw (proj2 (Z.eqb_neq _ _)); [lia|].
  apply wp_bind, (wp_get_client _ _ _ d); [done|]. rw Z.eqb_refl. cbn [negb].
  change (POLLIN =? 0) with false. change (negb (Z.land POLLIN POLLIN =? 0)) with true. cbv iota.
  destruct (wp_total _ _ _ (fetch_inv w a Hi Ha)) as (r & w1 & Hrun & Hi1 & Hs1).
  pose proof (wp_partial _ _ _ _ _ _ (fetch_at ∅ w a d x (iv_world _ Hi) Hd Hx Hr Hz) Hrun)
    as (_ & _ & _ & -> & rb & Hh1 & Hc1 & _ & Hun1 & x' & Hf1 & Hin1 & _ & Ho1 & _).
  apply wp_bind. eapply wp_run; [exact Hrun|]. cbv beta zeta. rw Hin zlen_app. change (zlen [nl]) with 1.
  pose proof (zlen_nonneg l). rw i32_small; [lia|]. rw (proj2 (Z.eqb_neq _ _)); [lia|].
  assert (w_heap w1 !! a = Some (set_reading rb 0 d)) as Hd1 by (rw Hh1; apply lookup_insert_eq).
  rw Hrb Hin in Hc1. assert (a ∈ clients (w_server w1)) as Ha1 by by rw Hs1.
  pose proof (handle_one_line w1 a _ l Hi1 Ha1 Hd1 (Hun1 Hun) Hc1 Hnl Hnul Hl) as Hone.
  pose proof (try_inv heap_after behind heap_terminated behind_terminated w1 a Hi1 Ha1) as Hinv.
  destruct (wp_total _ _ _ Hone) as ([] & w2 & Hrun2 & Habs & Hf2 & Hsame & Hempty).
  pose proof (wp_partial _ _ _ _ _ _ Hinv Hrun2) as [Hi2 Hs2].
  eapply wp_run; [exact Hrun2|]. split; [done|]. constructor; try done.
  - by rw Habs Hs1 Hh1 (abs_reading _ _ _ _ _ Hd).
  - by rw Hs2 Hs1.
  - intros b db Hb. destruct (decide (b = a)) as [->|Hne].
    + destruct (Hsame a _ Hd1) as (db' & ? & Hsd & _). exists db'. split_and!; [done| |done]. rw Hsd. simpl. congruence.
    + apply Hsame. by rw Hh1 lookup_insert_ne.
  - intros id Hid. by rw Hf2 Hf1 lookup_insert_ne.
  - exists x'. by rw Hf2 Hf1 lookup_insert_eq.
Qed.

(** *** The reading turn *)

(** Entries without events are passed over. *)
Lemma read_quiet l revents index w :
  (forall k, k ∈ index -> exists fd a, l !! k = Some (fd, a) /\ is_Some (w_heap w !! a) /\
     default 0 (revents !! k) = 0) ->
  read_clients heap_after behind l revents index w = Ret (tt, w).
Proof.
  induction index as [|k index IH]; intros Hq; cbn [read_clients]; [done|].
  destruct (Hq k (list_elem_of_here _ _)) as (fd & a & Hk & [d Hd] & Hr).
  unfold mbind, M_bind, lift, entry. rw Hk Hr. unfold read_client, mbind, M_bind, mret, M_ret, get_client.
  assert (read_clients heap_after behind l revents index w = Ret (tt, w)) as Hrest
    by (apply IH; intros j Hj; by apply Hq, list_elem_of_further).
  destruct (fd =? -1); [done|]. rw Hd. destruct (negb _); done.
Qed.

Lemma read_clients_app l revents i1 i2 w w1 :
  read_clients heap_after behind l revents i1 w = Ret (tt, w1) ->
  read_clients heap_after behind l revents (i1 ++ i2) w = read_clients heap_after behind l revents i2 w1.
Proof.
  revert w. induction i1 as [|k i1 IH]; intros w; cbn [read_clients app]; [by intros [= ->]|].
  unfold mbind, M_bind, lift. destruct (entry l k) as [e| |]; [|done..].
  destruct (read_client _ _ e _ w) as [[[] w2]| |]; [|done..]. apply IH.
Qed.

Lemma seq_around k n : (k < n)%nat -> seq 0 n = seq 0 k ++ k :: seq (Datatypes.S k) (n - Datatypes.S k).
Proof.
  intros Hk. change (k :: seq (Datatypes.S k) (n - Datatypes.S k)) with (seq k (Datatypes.S (n - Datatypes.S k))).
  rw -(seq_app k _ 0). f_equal. lia.
Qed.

(** Only the entry of the client at [a] has an event. *)
Lemma only_events w a d e k fd b :
  server_inv w -> a ∈ clients (w_server w) -> w_heap w !! a = Some d -> Forall (polls (w_heap w)) e ->
  snd <$> e = clients (w_server w) -> e !! k = Some (fd, b) ->
  default 0 ((only (socket_id d) (fst <$> e)).2 !! k) =
    if decide (b = a) then (if pub d =? SUCC then POLLIN else 0) else 0.
Proof.
  intros Hi Ha Hd Hp Hs Hk. pose proof (proj1 (Forall_lookup _ _) Hp k (fd, b) Hk) as (db & Hb & Hfd).
  simpl in Hb, Hfd. simpl. rw list_lookup_fmap list_lookup_fmap Hk /= Hfd.
  destruct (inv_client w a Hi Ha) as (d0 & Hd0 & [_ Hsk _] & _). rw Hd in Hd0. injection Hd0 as <-.
  assert ((-1 =? socket_id d) = false) as Hneg by (apply Z.eqb_neq; lia).
  destruct (decide (b = a)) as [->|Hne].
  - rw Hd in Hb. injection Hb as <-. destruct (pub d =? SUCC); [by rw Z.eqb_refl|by rw Hneg].
  - destruct (pub db =? SUCC); [|by rw Hneg]. rw (proj2 (Z.eqb_neq _ _)) //.
    apply (us_distinct _ _ _ (iv_users _ Hi) b a); try done.
    rw -Hs. apply list_elem_of_fmap. exists (fd, b). split; [done|]. by eapply list_elem_of_lookup_2.
Qed.

(** Where the client at [a] is in the polling list, and that all others are quiet. *)
Lemma polled_at w a d e :
  server_inv w -> a ∈ clients (w_server w) -> w_heap w !! a = Some d -> pub d = SUCC ->
  Forall (polls (w_heap w)) e -> snd <$> e = clients (w_server w) ->
  let rv := (only (socket_id d) (fst <$> e)).2 in
  exists k, e !! k = Some (socket_id d, a) /\ default 0 (rv !! k) = POLLIN /\
  forall j, (j < length e)%nat -> j <> k -> exists fd b, e !! j = Some (fd, b) /\
    b ∈ clients (w_server w) /\ default 0 (rv !! j) = 0.
Proof.
  intros Hi Ha Hd Hpub Hpl He rv. pose proof Ha as Hin. rw -He in Hin.
  apply list_elem_of_fmap in Hin as ([fd b] & Heq & Hin). simpl in Heq. subst b.
  apply list_elem_of_lookup in Hin as [k Hk].
  assert (fd = socket_id d) as ->.
  { pose proof (proj1 (Forall_lookup _ _) Hpl k _ Hk) as (db & Hb & Heq). simpl in Hb, Heq.
    rw Hd in Hb. injection Hb as <-. by rw Hpub Z.eqb_refl in Heq. }
  exists k. split; [done|]. split.
  { unfold rv. rw (only_events w a d e k (socket_id d) a Hi Ha Hd Hpl He Hk) decide_True // Hpub //. }
  intros j Hj Hjk. destruct (lookup_lt_is_Some_2 _ _ Hj) as [[fd b] Hb]. exists fd, b.
  assert (b ∈ clients (w_server w)) as Hbin.
  { rw -He. apply list_elem_of_fmap. exists (fd, b). split; [done|]. by eapply list_elem_of_lookup_2. }
  split_and!; [done|done|]. unfold rv. rw (only_events w a d e j fd b) //. destruct (decide (b = a)) as [->|]; [|done].
  exfalso. apply Hjk, (NoDup_lookup (clients (w_server w)) j k a); [apply Hi|..];
    by rw -He list_lookup_fmap ?Hb ?Hk.
Qed.

Lemma read_turn_one_line w a d x l :
  server_inv w -> a ∈ clients (w_server w) -> w_heap w !! a = Some d -> pub d = SUCC ->
  contents (reading_buffer d) = [] -> w_fds w !! socket_id d = Some x -> fd_in x = l ++ [nl] ->
  (nl ∉ l) -> (nul ∉ l) -> zlen l < 512 ->
  wp false (read_sockets_turn heap_after behind (only (socket_id d))) w (fun _ w' =>
    server_inv w' /\ line_handled a d x l w w').
Proof.
  intros Hi Ha Hd Hpub Hrb Hx Hin Hnl Hnul Hl.
  unfold read_sockets_turn. eapply wp_bind, wp_mono; [apply (polling_spec w Hi)|].
  intros r w1 (e & -> & He & Hpl & Hw1 & Hr1 & Hh1). cbv beta iota.
  pose proof (same_rest_inv w w1 Hi Hw1 Hr1 Hh1) as Hi1. destruct Hr1 as (Hf1 & _ & Hs1).
  apply wp_bind. eapply wp_run.
  { apply debug_block_run. intros b. rw He -Hs1. apply Hi1. }
  destruct (polled_at w a d e Hi Ha Hd Hpub Hpl He) as (k & Hk & Hrk & Hquiet).
  change (only (socket_id d) (fst <$> e)) with (1, (only (socket_id d) (fst <$> e)).2). cbv beta iota.
  change ((1 =? FAIL) || (1 =? SUCC)) with false. cbv iota.
  rw -He /zlen Nat2Z.id length_fmap. set (rv := (only _ _).2) in *.
  rw (seq_around k (length e)); [by eapply lookup_lt_Some|].
  assert (forall w0 i, (forall b, b ∈ clients (w_server w) -> is_Some (w_heap w0 !! b)) ->
    (forall j, j ∈ i -> (j < length e)%nat /\ j <> k) -> read_clients heap_after behind e rv i w0 = Ret (tt, w0)) as Hpass.
  { intros w0 i Hlive Hi0. apply read_quiet. intros j Hj. destruct (Hi0 j Hj) as [Hlj Hjk].
    destruct (Hquiet j Hlj Hjk) as (fd & b & ? & ? & ?). exists fd, b. split_and!; [done|by apply Hlive|done]. }
  pose proof (lookup_lt_Some _ _ _ Hk) as Hlt.
  assert (w_heap w1 !! a = Some d) as Hd1 by by rw Hh1.
  assert (a ∈ clients (w_server w1)) as Ha1 by by rw Hs1.
  destruct (wp_total _ _ _ (read_one_line w1 a d x l Hi1 Ha1 Hd1 Hrb ltac:(by rw Hf1) Hin Hnl Hnul Hl))
    as ([] & w2 & Hrun & Hi2 & [Habs Hli Hso Hot Hse Hem]).
  apply wp_bind. eapply (wp_run _ _ _ tt w2).
  { rw (read_clients_app _ _ _ _ _ w1); [apply Hpass; [intros b Hb; apply Hi1; by rw Hs1|]|].
    { intros j Hj%elem_of_seq. lia. }
    cbn [read_clients]. unfold mbind, M_bind, lift, entry. rw Hk Hrk Hrun. apply Hpass.
    - intros b Hb. apply Hi2. by rw Hli Hs1.
    - intros j Hj%elem_of_seq. lia. }
  apply wp_bind, wp_server, wp_ret. split; [done|]. rw Hs1 Hh1 in Habs. rw Hs1 in Hli.
  constructor; try done; [by rw -Hh1|by rw -Hf1].
Qed.

(** *** The abstract step *)

Lemma composed_cases l :
  exists c, parse_line (composed l) = c /\
    (c = CmdTo (addressed l).1 (addressed l).2 \/ c = CmdAll (addressed l).2 /\ (addressed l).1 = bs CMD_TO_ALL).
Proof.
  eexists. split; [done|]. unfold addressed, composed. destruct (private_line l) eqn:Hp.
  - destruct (parse_private l Hp) as (tn & text & -> & _). by left.
  - rw parse_broadcast. by right.
Qed.

Lemma handle_composed L a s c l :
  s !! a = Some c ->
  handle_line L a s (composed l) =
    adeliver L (addressed l).1 (a_name c) (p2p_text (a_name c) (addressed l).2) s.
Proof.
  intros Ha. unfold handle_line. rw Ha. cbv zeta.
  destruct (composed_cases l) as (cmd & -> & [->|[-> ->]]); done.
Qed.

(** What a client has queued after the line. *)
Lemma queue_after w w' a d x l b db :
  line_handled a d x (composed l) w w' -> w_heap w !! a = Some d -> w_heap w !! b = Some db ->
  b ∈ clients (w_server w) ->
  exists db', w_heap w' !! b = Some db' /\ socket_id db' = socket_id db /\ pub db' = pub db /\ cname db' = cname db /\
    contents (writing_buffer db') = contents (writing_buffer db) ++
      (if wants (addressed l).1 (cname d) db then p2p_text (cname d) (addressed l).2 else []).
Proof.
  intros [Habs _ Hsock _ _ _] Hd Hb Hin. destruct (Hsock b db Hb) as (db' & Hb' & Hs & _). exists db'.
  rw (handle_composed _ _ _ (abs_client d)) in Habs; [by rw abs_lookup Hd|].
  apply (f_equal (fun m => m !! b)) in Habs. unfold adeliver in Habs.
  rw map_lookup_imap !abs_lookup Hb Hb' /= bool_decide_true // in Habs.
  change (awants _ _ (abs_client db)) with (wants (addressed l).1 (cname d) db) in Habs.
  destruct (wants _ _ db); simpl in Habs; injection Habs as Hn Hp Hq; split_and!; try done.
  by rw app_nil_r.
Qed.

Lemma composed_length l : zlen l <= zlen (composed l).
Proof. unfold composed. destruct (private_line l); [done|]. rw !zlen_app. pose proof (zlen_nonneg (bs CMD_TO_ALL)). change (zlen (bs " ")) with 1. lia. Qed.

Lemma composed_no_nul l : nul ∉ l -> nul ∉ composed l.
Proof.
  intros Hl. unfold composed. destruct (private_line l); [done|].
  rw !not_elem_of_app. split_and!; [by apply (bool_decide_unpack _); vm_compute..|done].
Qed.

Lemma addressed_length l : zlen (addressed l).2 <= zlen l.
Proof.
  unfold addressed, composed. destruct (private_line l) eqn:Hp.
  - unfold parse_line. repeat case_match; simpl; try lia; simplify_eq/=; zl.
  - rw parse_broadcast /=. lia.
Qed.

(** The line arrives at the sender's socket. *)
Lemma line_arrives w a d x l :
  server_inv w -> a ∈ clients (w_server w) -> w_heap w !! a = Some d ->
  w_fds w !! socket_id d = Some x -> contents (reading_buffer d) = [] -> fd_in x = [] ->
  (nl ∉ l) -> zlen (composed l) < 512 ->
  admissible w (EData (socket_id d) (composed l ++ [nl])).
Proof.
  intros Hi Ha Hd Hx Hrb Hin Hnl Hl b db y Hb Hdb Hs Hy.
  assert (b = a) as ->.
  { destruct (decide (b = a)) as [|Hne]; [done|].
    by destruct (us_distinct _ _ _ (iv_users _ Hi) b a db d Hb Ha Hne Hdb Hd). }
  rw Hd in Hdb. injection Hdb as <-. rw Hx in Hy. injection Hy as <-. rw Hrb Hin. cbn [app]. split.
  - replace (composed l ++ [nl]) with ([composed l] ≫= fun x => x ++ [nl]) by (cbn; apply app_nil_r).
    apply protocol_lines; apply Forall_singleton; [by apply composed_no_nl|]. apply composed_safe.
    pose proof (composed_length l). lia.
  - rw zlen_nil zlen_app. change (zlen [nl]) with 1. lia.
Qed.

(** No queue grows beyond what a write can take. *)
Lemma queue_bound w w' a d x l b db' :
  server_inv w -> a ∈ clients (w_server w) -> w_heap w !! a = Some d -> zlen (composed l) < 512 ->
  line_handled a d x (composed l) w w' -> b ∈ clients (w_server w') -> w_heap w' !! b = Some db' ->
  (forall db, w_heap w !! b = Some db -> zlen (contents (writing_buffer db)) < 2 ^ 62) ->
  zlen (contents (writing_buffer db')) < 2 ^ 63.
Proof.
  intros Hi Ha Hd Hl Hh Hb Hdb' Hq. rw (lh_list _ _ _ _ _ _ Hh) in Hb.
  destruct (so_live _ (iv_server _ Hi) b Hb) as [db Hdb].
  destruct (queue_after w w' a d _ l b db Hh Hd Hdb Hb) as (db2 & Hdb2 & _ & _ & _ & Hc).
  rw Hdb' in Hdb2. injection Hdb2 as <-. rw Hc zlen_app. specialize (Hq db Hdb).
  pose proof (addressed_length l). pose proof (composed_length l).
  assert (client_inv d) as Hci by by destruct (inv_client w a Hi Ha) as (d0 & Hd0 & _ & ?); rw Hd in Hd0; injection Hd0 as <-.
  destruct (client_name _ Hci) as [_ Hnm].
  destruct (wants _ _ db); [|rw zlen_nil; lia]. unfold p2p_text. rw !zlen_app.
  change (zlen (bs "FROM ")) with 5. change (zlen (bs ": ")) with 2. change (zlen [nl]) with 1. lia.
Qed.

(** The three turns, one after the other: [w0] with the line at the socket, [w1]
    with the line handled. *)
Lemma line_turns w a d x l :
  server_inv w -> a ∈ clients (w_server w) -> w_heap w !! a = Some d -> pub d = SUCC ->
  w_fds w !! socket_id d = Some x -> contents (reading_buffer d) = [] -> fd_in x = [] ->
  (nl ∉ l) -> (nul ∉ l) -> zlen (composed l) < 512 ->
  (forall b db, b ∈ clients (w_server w) -> w_heap w !! b = Some db ->
     zlen (contents (writing_buffer db)) < 2 ^ 62) ->
  let w0 := set_fds (alter (receive (composed l ++ [nl])) (socket_id d) (w_fds w)) w in
  exists w1 w', run_events heap_after behind
      [EData (socket_id d) (composed l ++ [nl]); ERead (only (socket_id d)); EWrite] w = Ret (tt, w') /\
    server_inv w1 /\ line_handled a d (receive (composed l ++ [nl]) x) (composed l) w0 w1 /\
    (forall b db, b ∈ clients (w_server w1) -> w_heap w1 !! b = Some db ->
       zlen (contents (writing_buffer db)) < 2 ^ 63) /\
    (exists b, write_sockets_turn heap_after w1 = Ret (b, w')) /\ server_inv w' /\ served w1 w'.
Proof.
  intros Hi Ha Hd Hpub Hx Hrb Hin Hnl Hnul Hl Hq w0.
  assert (server_inv w0) as Hi0 by by apply data_inv; [|eapply line_arrives].
  assert (w_fds w0 !! socket_id d = Some (receive (composed l ++ [nl]) x)) as Hx0.
  { cbn. by rw lookup_alter_eq Hx. }
  destruct (wp_total _ _ _ (read_turn_one_line w0 a d _ (composed l) Hi0 Ha Hd Hpub Hrb Hx0 ltac:(by cbn; rw Hin)
    (composed_no_nl _ Hnl) (composed_no_nul _ Hnul) Hl)) as (r & w1 & Hread & Hi1 & Hh).
  assert (forall b db, b ∈ clients (w_server w1) -> w_heap w1 !! b = Some db ->
    zlen (contents (writing_buffer db)) < 2 ^ 63) as Hq1.
  { intros b db Hb Hdb. eapply (queue_bound w0 w1 a d _ l b db Hi0 Ha Hd Hl Hh Hb Hdb).
    rw (lh_list _ _ _ _ _ _ Hh) in Hb. intros db0 Hdb0. by eapply Hq. }
  destruct (wp_total _ _ _ (write_turn_inv heap_after w1 Hi1 Hq1)) as (r' & w' & Hwrite & Hi' & Hsv & _).
  exists w1, w'. split_and!; try done; [|by exists r'].
  cbn [run_events run_event]. unfold mbind, M_bind, getS, putS, mret, M_ret. fold w0. by rw Hread Hwrite.
Qed.
End chat.

(** ** Theorem *)

Section theorem.
Context {S : Type} `{!CacheModule S} `{!CacheModuleLaws S}.
Context (heap_after : Z -> bytes) (behind : nat -> bytes).
Implicit Types (w : World S).

(** C10 (refinement): In a sound state, with a NUL behind every heap block, a line
    typed at one client reaches the others, if its wire form has less than 512
    bytes, the sender is not marked and none of its earlier input is waiting. The
    program of the client at [a] turns the line into its wire form; when these
    bytes reach the server, one turn of the reading thread and one of the writing
    thread put on every healthy client's socket what was queued for it and then,
    if the line is for it, "FROM <sender>: <text>" - and nothing to anybody else
    -, the invariant holds on, and the program of a recipient shows what it got,
    when that is at most 1024 bytes, the size of one read. *)
Theorem typed_line_delivered w a d x l after :
  terminated heap_after -> (forall i, nul ∈ behind i) ->
  server_inv w -> a ∈ clients (w_server w) -> w_heap w !! a = Some d -> pub d = SUCC ->
  w_fds w !! socket_id d = Some x -> contents (reading_buffer d) = [] -> fd_in x = [] ->
  (nl ∉ l) -> (nul ∉ l) -> zlen (composed l) < 512 ->
  (forall b db, b ∈ clients (w_server w) -> w_heap w !! b = Some db ->
     zlen (contents (writing_buffer db)) < 2 ^ 62) ->
  let '(target, text) := addressed l in
  exists out w', stdin_turn (Some (l ++ [nl])) after = Ret out /\
    run_events heap_after behind
      [EData (socket_id d) out; ERead (only (socket_id d)); EWrite] w = Ret (tt, w') /\
    server_inv w' /\
    forall b db y, b ∈ clients (w_server w) -> w_heap w !! b = Some db -> flushes db = true ->
      w_fds w !! socket_id db = Some y ->
      exists y' new, w_fds w' !! socket_id db = Some y' /\ fd_out y' = fd_out y ++ new /\
        new = contents (writing_buffer db) ++
              (if wants target (cname d) db then p2p_text (cname d) text else []) /\
        forall c : Client, is_online c = true -> 0 < zlen new <= 1024 ->
          read_socket (arrival new) c = mkClient true (sent c) (shown c ++ new).
Proof.
  intros Hter Hbeh Hi Ha Hd Hpub Hx Hrb Hin Hnl Hnul Hl Hq. destruct (addressed l) as [target text] eqn:Had.
  pose proof (composed_length l).
  destruct (line_turns heap_after behind Hter Hbeh w a d x l Hi Ha Hd Hpub Hx Hrb Hin Hnl Hnul Hl Hq)
    as (w1 & w' & Hrun & _ & Hh & _ & _ & Hi' & Hsv).
  exists (composed l ++ [nl]), w'. split; [apply stdin_turn_line; [done|done|lia]|]. split_and!; [done|done|].
  intros b db y Hb Hdb Hfl Hy.
  destruct (queue_after _ w1 a d _ l b db Hh Hd Hdb Hb) as (db1 & Hdb1 & Hs1 & Hp1 & _ & Hc1).
  rw Had /= in Hc1.
  assert (exists y1, w_fds w1 !! socket_id db1 = Some y1 /\ fd_out y1 = fd_out y) as (y1 & Hy1 & Hout1).
  { rw Hs1. destruct (decide (socket_id db = socket_id d)) as [Heq|Hne].
    - destruct (lh_self _ _ _ _ _ _ Hh) as (x' & Hx' & _ & Ho). rw Heq in Hy |- *. exists x'. split; [done|].
      rw Ho /=. congruence.
    - exists y. split; [|done]. rw (lh_others _ _ _ _ _ _ Hh) //. cbn. by rw lookup_alter_ne. }
  rw -(lh_list _ _ _ _ _ _ Hh) in Hb.
  destruct (sv_sent _ _ Hsv b db1 y1) as (y' & Hy' & Hout & _); [|done| |done|].
  { rw (lh_list _ _ _ _ _ _ Hh) in Hb. by rw (lh_list _ _ _ _ _ _ Hh). }
  { by rw /flushes Hp1. }
  rw Hs1 in Hy'. exists y', (contents (writing_buffer db1)). split_and!; [done|by rw Hout Hout1|done|].
  intros [on snt shw] Hon Hlen. simpl in Hon. subst on. unfold read_socket, arrival. simpl.
  destruct (contents (writing_buffer db1)) as [|z new]; [rw zlen_nil in Hlen; lia|].
  rw take_ge; [unfold zlen in Hlen; unfold IMClient.CACHE_SIZE; lia|done].
Qed.
End theorem.

(** ** A concrete run: ann types a private line to bob *)

Lemma typed_line_delivered_witness :
  let w := demo_world [] no_fd in
  exists out w', stdin_turn (Some (bs "TO-C-bob: yo" ++ [nl])) [] = Ret out /\
    run_events ClientTheorems.behind (fun _ => [nul]) [EData 5 out; ERead (only 5); EWrite] w = Ret (tt, w') /\
    server_inv w' /\
    forall b db y, b ∈ [1; 2] -> w_heap w !! b = Some db -> flushes db = true ->
      w_fds w !! socket_id db = Some y ->
      exists y' new, w_fds w' !! socket_id db = Some y' /\ fd_out y' = fd_out y ++ new /\
        new = contents (writing_buffer db) ++
              (if wants (bs "bob") (bs "ann") db then p2p_text (bs "ann") (bs "yo") else []) /\
        forall c : Client, is_online c = true -> 0 < zlen new <= 1024 ->
          read_socket (arrival new) c = mkClient true (sent c) (shown c ++ new).
Proof.
  apply (typed_line_delivered ClientTheorems.behind (fun _ => [nul]) (demo_world [] no_fd) 1 (ann []) no_fd
    (bs "TO-C-bob: yo") []);
    [apply behind_terminated|intros _; apply list_elem_of_here|apply demo_server_inv|apply list_elem_of_here
    |done|done|done|done|done|by apply (bool_decide_unpack _); vm_compute
    |by apply (bool_decide_unpack _); vm_compute|by vm_compute|].
  intros b db _ [[-> ->]|[-> ->]]%demo_lookup; by vm_compute.
Defined.
