(* ===== verification/Conversation.v ===== *)
(** * A conversation

    Chat.v follows one line; here any number of lines, typed at any of the
    clients, go through the client programs and the server one after the other.
    The contract is the transcript: what a client gets is, line by line, what the
    grammar addresses to it. *)
From Stdlib Require Import Strings.Byte String.
From S2P Require Import Prelude CLib Alloc Cache Buffer Message ClientInfo Server.
From S2P Require Import ServerSpec ServerLoop ServerTurns Threads ServerRun BufferTheorems ClientTheorems ServerTheorems RunTheorems IMClient Chat.

(** ** The contract *)

(** What the client at [b] gets for the line [m.2] typed at the client [m.1]. *)
Definition said {S} (w : World S) (b : Z) (m : Z * bytes) : bytes :=
  match w_heap w !! m.1, w_heap w !! b with
  | Some d, Some db =>
    if wants (addressed m.2).1 (cname d) db then p2p_text (cname d) (addressed m.2).2 else []
  | _, _ => []
  end.
Definition transcript {S} (w : World S) (script : list (Z * bytes)) (b : Z) : bytes := script ≫= said w b.

(** Nobody has failed, and nothing is on its way. *)
Record calm {S} `{CacheModuleLaws S} (w : World S) : Prop := {
  ca_inv : server_inv w;
  ca_users : forall a d, a ∈ clients (w_server w) -> w_heap w !! a = Some d ->
    pub d = SUCC /\ contents (reading_buffer d) = [] /\ contents (writing_buffer d) = [] /\
    exists x, w_fds w !! socket_id d = Some x /\ fd_in x = [];
}.

(** A line that can be typed, at a client that is there. *)
Definition typeable {S} (w : World S) (m : Z * bytes) : Prop :=
  m.1 ∈ clients (w_server w) /\ (nl ∉ m.2) /\ (nul ∉ m.2) /\ zlen (composed m.2) < 512.

(** The same clients with their sockets, names and marks. *)
Record same_room {S} (w w' : World S) : Prop := {
  sr_list : clients (w_server w') = clients (w_server w);
  sr_users : forall a d, a ∈ clients (w_server w) -> w_heap w !! a = Some d ->
    exists d', w_heap w' !! a = Some d' /\ socket_id d' = socket_id d /\ cname d' = cname d /\ pub d' = pub d;
}.

(** ** The run *)

(** What a typed line makes happen: the client's program sends it, and the two
    threads of the server make their turns. *)
Definition line_events {S} (w : World S) (after : bytes) (m : Z * bytes) : outcome (list event) :=
  match w_heap w !! m.1 with
  | None => UB
  | Some d =>
    out ← stdin_turn (Some (m.2 ++ [nl])) after;
    Ret [EData (socket_id d) out; ERead (only (socket_id d)); EWrite]
  end.
Fixpoint conversation {S} (w : World S) (after : bytes) (script : list (Z * bytes)) : outcome (list event) :=
  match script with
  | [] => Ret []
  | m :: rest => e ← line_events w after m; es ← conversation w after rest; Ret (e ++ es)
  end.

(** The socket side of a client's program, fed chunk by chunk. *)
Definition watch (chunks : list bytes) (c : Client) : Client :=
  foldl (fun c d => read_socket (arrival d) c) c chunks.

(** ** Lemmas *)

Lemma watch_shows chunks c :
  is_online c = true -> Forall (fun d => 0 < zlen d <= 1024) chunks ->
  watch chunks c = mkClient true (sent c) (shown c ++ mjoin chunks).
Proof.
  revert c. induction chunks as [|d chunks IH]; intros [on snt shw] Hon Hc; simpl in Hon; subst on; simpl.
  { by rw app_nil_r. }
  apply Forall_cons in Hc as [Hd Hc]. unfold watch. simpl. rw -/(watch _ _).
  destruct d as [|x d]; [rw zlen_nil in Hd; lia|]. unfold read_socket, arrival. simpl.
  rw zlen_cons /zlen in Hd. rw take_ge; [simpl; unfold IMClient.CACHE_SIZE; lia|]. rw IH //=. by rw -app_assoc.
Qed.

Lemma run_events_app {S} `{CacheModule S} ha bh e1 e2 (w w1 : World S) r :
  run_events ha bh e1 w = Ret (tt, w1) -> run_events ha bh e2 w1 = r -> run_events ha bh (e1 ++ e2) w = r.
Proof.
  revert w. induction e1 as [|ev e1 IH]; intros w; cbn [run_events app]; [by intros [= ->]|].
  unfold mbind, M_bind. destruct (run_event ha bh ev w) as [[[] w2]| |]; [|done..]. apply IH.
Qed.

Lemma same_room_trans {S} (w1 w2 w3 : World S) : same_room w1 w2 -> same_room w2 w3 -> same_room w1 w3.
Proof.
  intros [L1 U1] [L2 U2]. constructor; [congruence|]. intros a d Ha Hd.
  destruct (U1 a d Ha Hd) as (d1 & Hd1 & ? & ? & ?). destruct (U2 a d1) as (d2 & ? & ? & ? & ?); [by rw L1|done|].
  exists d2. split_and!; [done|congruence..].
Qed.

Section conversation.
Context {S : Type} `{!CacheModule S} `{!CacheModuleLaws S}.
Context (heap_after : Z -> bytes) (behind : nat -> bytes).
Hypothesis heap_terminated : terminated heap_after.
Hypothesis behind_terminated : forall i, nul ∈ behind i.
Implicit Types (w : World S).

Lemma calm_live w a : calm w -> a ∈ clients (w_server w) -> exists d, w_heap w !! a = Some d.
Proof. intros Hw Ha. destruct (so_live _ (iv_server _ (ca_inv _ Hw)) a Ha) as [d Hd]. by exists d. Qed.

Lemma said_room w w' b m :
  calm w -> same_room w w' -> m.1 ∈ clients (w_server w) -> b ∈ clients (w_server w) -> said w' b m = said w b m.
Proof.
  intros Hw [_ Hu] Hm Hb. destruct (calm_live _ _ Hw Hm) as [d Hd], (calm_live _ _ Hw Hb) as [db Hdb].
  destruct (Hu _ d Hm Hd) as (d' & Hd' & _ & Hn & _), (Hu _ db Hb Hdb) as (db' & Hdb' & _ & Hn' & Hp').
  unfold said. rw Hd Hd' Hdb Hdb' Hn. unfold wants. by rw Hn' Hp'.
Qed.

Lemma line_events_room w w' after m :
  calm w -> same_room w w' -> m.1 ∈ clients (w_server w) -> line_events w' after m = line_events w after m.
Proof.
  intros Hw [_ Hu] Hm. destruct (calm_live _ _ Hw Hm) as [d Hd]. destruct (Hu _ d Hm Hd) as (d' & Hd' & Hs & _).
  unfold line_events. by rw Hd Hd' Hs.
Qed.

Lemma conversation_room w w' after script :
  calm w -> same_room w w' -> Forall (typeable w) script -> conversation w' after script = conversation w after script.
Proof.
  intros Hw Hr. induction script as [|m script IH]; [done|]. intros [[Hm _] Hs]%Forall_cons.
  cbn [conversation]. by rw (line_events_room w w') // IH.
Qed.

(** The sockets of the clients that wait for the writing thread. *)
Lemma inv_sockets w :
  server_inv w ->
  (forall b db, b ∈ clients (w_server w) -> w_heap w !! b = Some db -> zlen (contents (writing_buffer db)) < 2 ^ 63) ->
  sockets_ok (clients (w_server w)) (w_heap w) (w_fds w).
Proof.
  intros Hi Hq. constructor; [|done|].
  - intros a d Ha Hd. destruct (us_user _ _ _ (iv_users _ Hi) a d Ha Hd) as [_ _ (x & ? & _ & ? & _)]. by exists x.
  - intros a b da db Ha Hb Hne. by apply (us_distinct _ _ _ (iv_users _ Hi)).
Qed.

(** What the reading thread's turn leaves at a client [b], and at its socket. *)
Lemma handled_at w w1 a d x l b db y :
  calm w -> a ∈ clients (w_server w) -> w_heap w !! a = Some d -> w_fds w !! socket_id d = Some x ->
  let w0 := set_fds (alter (receive (composed l ++ [nl])) (socket_id d) (w_fds w)) w in
  line_handled a d (receive (composed l ++ [nl]) x) (composed l) w0 w1 ->
  b ∈ clients (w_server w) -> w_heap w !! b = Some db -> w_fds w !! socket_id db = Some y ->
  exists db1 y1, w_heap w1 !! b = Some db1 /\ socket_id db1 = socket_id db /\ cname db1 = cname db /\
    pub db1 = pub db /\ contents (reading_buffer db1) = [] /\ contents (writing_buffer db1) = said w b (a, l) /\
    w_fds w1 !! socket_id db = Some y1 /\ fd_in y1 = [] /\ fd_out y1 = fd_out y.
Proof.
  intros Hw Ha Hd Hx w0 Hh Hb Hdb Hy. destruct (ca_users _ Hw b db Hb Hdb) as (_ & Hrb & Hwb & y0 & Hy0 & Hin).
  rw Hy in Hy0. injection Hy0 as <-.
  destruct (queue_after w0 w1 a d _ l b db Hh Hd Hdb Hb) as (db1 & Hdb1 & Hs & Hp & Hn & Hq).
  exists db1. assert (contents (reading_buffer db1) = []) as Hr1.
  { destruct (decide (b = a)) as [->|Hne].
    - destruct (lh_empty _ _ _ _ _ _ Hh) as (d' & Hd' & He). congruence.
    - destruct (lh_socket _ _ _ _ _ _ Hh b db Hdb) as (db2 & Hdb2 & _ & Hrd).
      rw Hdb1 in Hdb2. injection Hdb2 as <-. by rw Hrd. }
  assert (contents (writing_buffer db1) = said w b (a, l)) as Hw1.
  { rw Hq Hwb /said /= Hd Hdb. done. }
  destruct (decide (b = a)) as [->|Hne].
  - rw Hd in Hdb. injection Hdb as <-. rw Hx in Hy. injection Hy as <-.
    destruct (lh_self _ _ _ _ _ _ Hh) as (x' & Hx' & Hi' & Ho'). exists x'. by split_and!.
  - exists y. split_and!; try done. rw (lh_others _ _ _ _ _ _ Hh).
    + apply (us_distinct _ _ _ (iv_users _ (ca_inv _ Hw)) b a); done.
    + cbn. rw lookup_alter_ne //. apply not_eq_sym.
      by apply (us_distinct _ _ _ (iv_users _ (ca_inv _ Hw)) b a).
Qed.

(** A client after the line: [y] and [y'] are its socket before and after. *)
Record settled (w w' : World S) (m : Z * bytes) (b : Z) (db : ClientData) : Prop := {
  se_client : exists db', w_heap w' !! b = Some db' /\ socket_id db' = socket_id db /\ cname db' = cname db /\
    pub db' = pub db /\ contents (reading_buffer db') = [] /\ contents (writing_buffer db') = [];
  se_socket : exists y y', w_fds w !! socket_id db = Some y /\ w_fds w' !! socket_id db = Some y' /\
    fd_in y' = [] /\ fd_out y' = fd_out y ++ said w b m;
}.

(** The writing thread's turn after the line has been handled. *)
Lemma settle w w1 w' a d x l r :
  calm w -> a ∈ clients (w_server w) -> w_heap w !! a = Some d -> w_fds w !! socket_id d = Some x ->
  let w0 := set_fds (alter (receive (composed l ++ [nl])) (socket_id d) (w_fds w)) w in
  line_handled a d (receive (composed l ++ [nl]) x) (composed l) w0 w1 -> server_inv w1 ->
  (forall b db, b ∈ clients (w_server w1) -> w_heap w1 !! b = Some db ->
     zlen (contents (writing_buffer db)) < 2 ^ 63) ->
  write_sockets_turn heap_after w1 = Ret (r, w') ->
  clients (w_server w') = clients (w_server w) /\
  forall b db, b ∈ clients (w_server w) -> w_heap w !! b = Some db -> settled w w' (a, l) b db.
Proof.
  intros Hw Ha Hd Hx w0 Hh Hi1 Hq1 Hwrite. pose proof (lh_list _ _ _ _ _ _ Hh) as Hcl. cbn [w0 set_fds w_server] in Hcl.
  assert (forall b db1, b ∈ clients (w_server w1) -> w_heap w1 !! b = Some db1 -> flushes db1 = true) as Hfl.
  { intros b db1 Hb Hdb1. rw Hcl in Hb. destruct (calm_live _ _ Hw Hb) as [db Hdb].
    destruct (ca_users _ Hw b db Hb Hdb) as (Hpub & _ & _ & y & Hy & _).
    destruct (handled_at w w1 a d x l b db y Hw Ha Hd Hx Hh Hb Hdb Hy) as (db2 & _ & Hdb2 & _ & _ & Hp & _).
    rw Hdb1 in Hdb2. injection Hdb2 as <-. unfold flushes. by rw Hp Hpub. }
  destruct (write_sockets_turn_flushes heap_after w1 (iv_world _ Hi1) (iv_server _ Hi1) (inv_sockets _ Hi1 Hq1) Hfl)
    as (w2 & Hwrite2 & [Hfds _] & Hheap & Hsv & _). rw Hwrite in Hwrite2. injection Hwrite2 as _ <-.
  split; [by rw Hsv|]. intros b db Hb Hdb. destruct (ca_users _ Hw b db Hb Hdb) as (_ & _ & _ & y & Hy & _).
  destruct (handled_at w w1 a d x l b db y Hw Ha Hd Hx Hh Hb Hdb Hy)
    as (db1 & y1 & Hdb1 & Hs & Hn & Hp & Hr & Hq & Hy1 & Hin & Ho).
  rw -Hcl in Hb. pose proof (Hfl b db1 Hb Hdb1) as Hf1. specialize (Hheap b).
  rw Hdb1 bool_decide_true // Hf1 /= in Hheap. destruct Hheap as (db' & Hdb' & Heq & He).
  destruct (Hfds b db1 y1 Hb Hdb1 Hf1) as (y' & Hy' & Hi2 & _ & Ho2 & _); [by rw Hs|]. rw Hs in Hy'.
  rw Heq in He Hdb'. constructor.
  - exists (set_writing (writing_buffer db') db1). by split_and!.
  - exists y, y'. split_and!; [done|done|congruence|by rw Ho2 Ho Hq].
Qed.

(** One line. *)
Lemma line_calm w after m :
  calm w -> typeable w m ->
  exists evs w', line_events w after m = Ret evs /\ run_events heap_after behind evs w = Ret (tt, w') /\
    calm w' /\ same_room w w' /\
    forall b db, b ∈ clients (w_server w) -> w_heap w !! b = Some db -> settled w w' m b db.
Proof.
  destruct m as [a l]. intros Hw (Ha & Hnl & Hnul & Hl). simpl in Ha, Hnl, Hnul, Hl. pose proof Hw as [Hi Hu].
  destruct (calm_live _ _ Hw Ha) as [d Hd]. destruct (Hu a d Ha Hd) as (Hpub & Hrb & Hwb & x & Hx & Hin).
  pose proof (composed_length l) as Hll.
  destruct (line_turns heap_after behind heap_terminated behind_terminated w a d x l Hi Ha Hd Hpub Hx Hrb Hin Hnl Hnul Hl)
    as (w1 & w' & Hrun & Hi1 & Hh & Hq1 & [r Hwrite] & Hi' & _).
  { intros b db Hb Hdb. destruct (Hu b db Hb Hdb) as (_ & _ & -> & _). by vm_compute. }
  destruct (settle w w1 w' a d x l r Hw Ha Hd Hx Hh Hi1 Hq1 Hwrite) as [Hcl Hset].
  exists [EData (socket_id d) (composed l ++ [nl]); ERead (only (socket_id d)); EWrite], w'. split_and!; [|done| | |done].
  - unfold line_events. simpl. rw Hd stdin_turn_line //. lia.
  - constructor; [done|]. intros b db'. rw Hcl. intros Hb Hdb'. destruct (calm_live _ _ Hw Hb) as [db Hdb].
    destruct (Hset b db Hb Hdb) as [(db2 & Hdb2 & Hs & _ & Hp & ? & ?) (_ & y' & _ & Hy' & ? & _)].
    rw Hdb' in Hdb2. injection Hdb2 as <-. rw Hp Hs. destruct (Hu b db Hb Hdb) as [-> _].
    split_and!; [done..|]. by exists y'.
  - constructor; [done|]. intros b db Hb Hdb. destruct (Hset b db Hb Hdb) as [(db' & ? & ? & ? & ? & _) _]. by exists db'.
Qed.

(** Many lines. *)
Lemma conversation_runs after script : forall w,
  calm w -> Forall (typeable w) script ->
  exists evs w', conversation w after script = Ret evs /\ run_events heap_after behind evs w = Ret (tt, w') /\
    calm w' /\ same_room w w' /\
    forall b db y, b ∈ clients (w_server w) -> w_heap w !! b = Some db -> w_fds w !! socket_id db = Some y ->
      exists y', w_fds w' !! socket_id db = Some y' /\ fd_out y' = fd_out y ++ transcript w script b.
Proof.
  induction script as [|m script IH]; intros w Hw Hs.
  { exists [], w. split_and!; [done..| |].
    - constructor; [done|]. intros a d _ Hd. by exists d.
    - intros b db y _ _ Hy. exists y. by rw app_nil_r. }
  apply Forall_cons in Hs as [Hm Hs]. destruct (line_calm w after m Hw Hm) as (e1 & w1 & He1 & Hr1 & Hw1 & Hroom1 & Hset).
  assert (Forall (typeable w1) script) as Hs1.
  { eapply Forall_impl; [exact Hs|]. intros k (? & ? & ? & ?). split_and!; try done. by rw (sr_list _ _ Hroom1). }
  destruct (IH w1 Hw1 Hs1) as (e2 & w2 & He2 & Hr2 & Hw2 & Hroom2 & Hout).
  rw (conversation_room w w1) // in He2.
  exists (e1 ++ e2), w2. split_and!; [by rw /= He1 /= He2|by eapply run_events_app|done|by eapply same_room_trans|].
  intros b db y Hb Hdb Hy. destruct (Hset b db Hb Hdb) as [(db1 & Hdb1 & Hs1' & _) (y0 & y1 & Hy0 & Hy1 & _ & Ho1)].
  rw Hy in Hy0. injection Hy0 as <-. rw -Hs1' in Hy1.
  destruct (Hout b db1 y1) as (y2 & Hy2 & Ho2); [by rw (sr_list _ _ Hroom1)|done..|].
  exists y2. rw -Hs1'. split; [done|]. rw Ho2 Ho1 -app_assoc. f_equal. unfold transcript. cbn. f_equal.
  clear -Hs Hw Hroom1 Hb. induction Hs as [|k script [Hk _] _ IH]; [done|]. cbn. by rw (said_room w w1) // IH.
Qed.

(** C9 (refinement): A conversation of any length.  In a sound state,
    when nobody has failed and nothing is on its way ([calm]), with a NUL behind every
    heap block ([behind]), and when lines are typed one after the other at any of
    the clients, each with a wire form of less than 512 bytes ([typeable]; a longer
    one would stall its sender, see [long_line_stalls]), the client programs and the
    turns of the server bring every client exactly its transcript - each line
    addressed to it, with the name of its sender, in the order typed - and leave the
    room as it was; and a client that receives these bytes, cut up in any way, shows
    the transcript. *)
Theorem conversation_delivered after script w :
  calm w -> Forall (typeable w) script ->
  exists evs w', conversation w after script = Ret evs /\ run_events heap_after behind evs w = Ret (tt, w') /\
    calm w' /\ same_room w w' /\
    forall b db y, b ∈ clients (w_server w) -> w_heap w !! b = Some db -> w_fds w !! socket_id db = Some y ->
      (exists y', w_fds w' !! socket_id db = Some y' /\ fd_out y' = fd_out y ++ transcript w script b) /\
      forall chunks c, mjoin chunks = transcript w script b -> Forall (fun d => 0 < zlen d <= 1024) chunks ->
        is_online c = true -> watch chunks c = mkClient true (sent c) (shown c ++ transcript w script b).
Proof.
  intros Hw Hs. destruct (conversation_runs after script w Hw Hs) as (evs & w' & Hevs & Hrun & Hw' & Hroom & Hout).
  exists evs, w'. split_and!; try done. intros b db y Hb Hdb Hy. split; [by eapply Hout|].
  intros chunks c <- Hc Hon. by apply watch_shows.
Qed.
End conversation.

(** ** A concrete conversation *)

Definition chat_script : list (Z * bytes) := [(1, bs "hi all"); (2, bs "TO-C-ann: yo"); (1, bs "TO-C-bob bye")].

Example ann_gets : transcript (demo_world [] no_fd) chat_script 1 = bs "FROM bob: yo" ++ [nl].
Proof. by vm_compute. Qed.
Example bob_gets : transcript (demo_world [] no_fd) chat_script 2 =
  bs "FROM ann: hi all" ++ [nl] ++ bs "FROM ann: TO-C-bob bye" ++ [nl].
Proof. by vm_compute. Qed.

Lemma demo_calm : calm (demo_world [] no_fd).
Proof.
  constructor; [apply demo_server_inv|]. intros a d _ [[-> ->]|[-> ->]]%demo_lookup; (split_and!; [done..|]);
    [by exists no_fd|by exists (mkFd [] [] [] [Some 3])].
Qed.

Lemma chat_script_typeable : Forall (typeable (demo_world [] no_fd)) chat_script.
Proof.
  repeat constructor; cbn [fst snd]; try (by vm_compute); by apply (bool_decide_unpack _); vm_compute.
Qed.

Lemma conversation_delivered_witness :
  let w := demo_world [] no_fd in
  exists evs w', conversation w [] chat_script = Ret evs /\
    run_events ClientTheorems.behind (fun _ => [nul]) evs w = Ret (tt, w') /\ calm w' /\ same_room w w' /\
    forall b db y, b ∈ [1; 2] -> w_heap w !! b = Some db -> w_fds w !! socket_id db = Some y ->
      (exists y', w_fds w' !! socket_id db = Some y' /\ fd_out y' = fd_out y ++ transcript w chat_script b) /\
      forall chunks c, mjoin chunks = transcript w chat_script b -> Forall (fun d => 0 < zlen d <= 1024) chunks ->
        is_online c = true -> watch chunks c = mkClient true (sent c) (shown c ++ transcript w chat_script b).
Proof.
  apply (conversation_delivered ClientTheorems.behind (fun _ => [nul]));
    [apply behind_terminated|intros _; apply list_elem_of_here|apply demo_calm|apply chat_script_typeable].
Defined.
