(* ===== verification/FineInv.v ===== *)
(** * The invariant of the server between two actions

    [server_inv] of ServerRun.v holds between the turns of the threads.  Here it is
    kept by every action of Interleave.v, so that it holds wherever a thread is
    interrupted.  While the writing thread composes a logout notice it holds a
    cache, and the client it has taken out of the list is still alive. *)
From Stdlib Require Import Strings.Byte String.
From S2P Require Import Prelude CLib Alloc Buffer Message ClientInfo Server ServerSpec ServerLoop ServerTurns ServerRun.
From S2P Require Import Cache BufferTheorems ClientTheorems ServerTheorems Threads ThreadTheorems Interleave InterleaveTheorems ReaderTheorems.

(** [X]: the caches of the thread that is in the middle of a handler.  A client out
    of the list is on its way out: it is marked. *)
Record fine_inv {S} `{CacheModuleLaws S} (X : gset Z) (w : World S) : Prop := {
  fv_server : server_at X w;
  fv_names : forall a d, w_heap w !! a = Some d -> nl ∉ cname d;
  fv_marked : forall a d, w_heap w !! a = Some d -> a ∉ clients (w_server w) -> pub d = u64 FAIL;
}.
Arguments fv_server {S _ _ X} w _.
Arguments fv_names {S _ _ X} w _.
Arguments fv_marked {S _ _ X} w _.

(** *** What goes out to a client

    What its socket has got and what is still in its writing buffer. *)
Definition wire {S} (w : World S) (d : ClientData) : bytes :=
  default [] (fd_out <$> w_fds w !! socket_id d) ++ contents (writing_buffer d).

(** A message as the client will read it: one line. *)
Definition whole (t : bytes) : Prop := exists l, t = l ++ [nl] /\ (nl ∉ l).

(** What the writing thread sends: the notice that somebody has left. *)
Definition goodbye (t : bytes) : Prop :=
  exists nm, t = sys_text (nm ++ bs " " ++ bs MSG_LOGOUT_SUFFIX) /\ (nl ∉ nm).

(** More messages of the kind [G]. *)
Definition grown (G : bytes -> Prop) (s s' : bytes) : Prop := exists ms, Forall G ms /\ s' = s ++ concat ms.

(** Every client that is not marked stays, and gets whole messages only. *)
Definition wires_grow {S} (w w' : World S) : Prop :=
  forall a d, w_heap w !! a = Some d -> pub d <> u64 FAIL ->
    exists d', w_heap w' !! a = Some d' /\ grown whole (wire w d) (wire w' d').

(** What the others than the reading thread do to a client that is not marked. *)
Definition sound_kept {S} (w w' : World S) : Prop :=
  forall a d, w_heap w !! a = Some d -> pub d <> u64 FAIL ->
    exists d', w_heap w' !! a = Some d' /\ but_writing d' = but_writing d /\ grown goodbye (wire w d) (wire w' d').

(** ... and as far as the reading thread can see it. *)
Definition sound_still {S} (w w' : World S) : Prop :=
  forall a d, w_heap w !! a = Some d -> pub d <> u64 FAIL ->
    exists d', w_heap w' !! a = Some d' /\ but_writing d' = but_writing d.

#[global] Instance grown_preorder G : PreOrder (grown G).
Proof.
  split; [intros s; exists []; by rw app_nil_r|].
  intros s1 s2 s3 (m1 & H1 & ->) (m2 & H2 & ->). exists (m1 ++ m2). split; [by apply Forall_app|].
  by rw concat_app app_assoc.
Qed.
Lemma grown_one (G : bytes -> Prop) s t : G t -> grown G s (s ++ t).
Proof. intros Ht. exists [t]. split; [by constructor|]. cbn. by rw app_nil_r. Qed.
Lemma grown_mono (G G' : bytes -> Prop) s s' : (forall t, G t -> G' t) -> grown G s s' -> grown G' s s'.
Proof. intros HG (ms & Hms & ->). exists ms. split; [|done]. by eapply Forall_impl. Qed.

Lemma but_writing_eq d d' : but_writing d' = but_writing d ->
  socket_id d' = socket_id d /\ name d' = name d /\ pub d' = pub d /\ reading_buffer d' = reading_buffer d.
Proof. by intros [= -> -> -> ->]. Qed.

Lemma notice_whole sn suffix : (nl ∉ sn) -> (nl ∉ bs suffix) -> whole (sys_text (sn ++ bs " " ++ bs suffix)).
Proof.
  intros Hs Hx. unfold sys_text. eexists. rw app_assoc. split; [done|]. rw !not_elem_of_app.
  split_and!; try done; by apply (bool_decide_unpack _); vm_compute.
Qed.

Lemma goodbye_whole t : goodbye t -> whole t.
Proof. intros (nm & -> & Hnm). apply notice_whole; [done|]. by apply (bool_decide_unpack _); vm_compute. Qed.

Section lemmas.
Context {S : Type} `{!CacheModule S} `{!CacheModuleLaws S}.
Implicit Types (w : World S) (X Y : gset Z).

#[global] Instance sound_kept_preorder : PreOrder (sound_kept (S := S)).
Proof.
  split; [by intros w a d Ha _; exists d|]. intros w1 w2 w3 H1 H2 a d Ha Hp.
  destruct (H1 a d Ha Hp) as (d2 & Ha2 & Hb2 & Hg2). pose proof (but_writing_eq _ _ Hb2) as (_ & _ & Hp2 & _).
  destruct (H2 a d2 Ha2) as (d3 & ? & Hb3 & ?); [by rw Hp2|]. exists d3. split_and!; [done|by rw Hb3|by etrans].
Qed.

Lemma sound_kept_grow w w' : sound_kept w w' -> wires_grow w w'.
Proof.
  intros Hk a d Ha Hp. destruct (Hk a d Ha Hp) as (d' & ? & _ & ?). exists d'. split; [done|].
  eapply grown_mono; [exact goodbye_whole|done].
Qed.
Lemma sound_kept_still w w' : sound_kept w w' -> sound_still w w'.
Proof. intros Hk a d Ha Hp. destruct (Hk a d Ha Hp) as (d' & ? & ? & _). by exists d'. Qed.

(** The clients as they are, and the output of their sockets too. *)
Lemma outs_sound_kept w w' :
  w_heap w' = w_heap w ->
  (forall a d, w_heap w !! a = Some d -> pub d <> u64 FAIL ->
    fd_out <$> w_fds w' !! socket_id d = fd_out <$> w_fds w !! socket_id d) -> sound_kept w w'.
Proof.
  intros Hh Hf a d Ha Hp. exists d. split_and!; [by rw Hh|done|]. unfold wire. by rw (Hf a d Ha Hp).
Qed.
Lemma heap_sound_kept w w' : w_heap w' = w_heap w -> w_fds w' = w_fds w -> sound_kept w w'.
Proof. intros Hh Hf. apply outs_sound_kept; [done|]. by rw Hf. Qed.

(** The invariant has what the safety of the list needs. *)
Lemma fine_listed X w : server_at X w -> listed w.
Proof.
  intros [_ Hs [Hu Hd] Hf _]. constructor.
  - apply Hs.
  - intros a Ha. destruct (so_live _ Hs a Ha) as [d Hda]. exists d. split; [done|].
    destruct (Hu a d Ha Hda) as [_ _ (x & Hx & _)]. by exists x.
  - intros a b d db Ha Hb Hda Hdb Hsk. destruct (decide (a = b)) as [|Hne]; [done|]. by destruct (Hd a b d db Ha Hb Hne).
  - intros a d Ha. destruct (Z.lt_ge_cases a (w_next w)) as [|Hge]; [done|]. by rw (Hf a Hge) in Ha.
Qed.

Lemma fine_member X w a d : fine_inv X w -> w_heap w !! a = Some d -> pub d <> u64 FAIL -> a ∈ clients (w_server w).
Proof.
  intros Hi Ha Hp. destruct (decide (a ∈ clients (w_server w))) as [|Hn]; [done|]. by destruct Hp; apply (fv_marked _ Hi a).
Qed.

Lemma fine_client X w a d : fine_inv X w -> w_heap w !! a = Some d -> client_inv d.
Proof. intros [[[L Hw] _ _ _ _] _ _]. apply (hi_client _ _ (wa_heap _ _ _ Hw)). Qed.

(** One client changed, and perhaps its socket: the others have sockets of their own. *)
Lemma insert_other X w w' a d d' b db :
  fine_inv X w -> w_heap w !! a = Some d -> a ∈ clients (w_server w) -> w_heap w' = <[a := d']> (w_heap w) ->
  (forall id, id <> socket_id d -> w_fds w' !! id = w_fds w !! id) ->
  b <> a -> w_heap w !! b = Some db -> pub db <> u64 FAIL ->
  w_heap w' !! b = Some db /\ wire w' db = wire w db.
Proof.
  intros Hi Ha Hin Hh Hf Hne Hdb Hp. split; [by rw Hh lookup_insert_ne|].
  unfold wire. rw Hf; [|done]. pose proof (fine_member X w b db Hi Hdb Hp) as Hb.
  by apply (us_distinct _ _ _ (iv_users _ (fv_server _ Hi)) b a db d).
Qed.
Lemma insert_grows X w w' a d d' :
  fine_inv X w -> w_heap w !! a = Some d -> a ∈ clients (w_server w) -> w_heap w' = <[a := d']> (w_heap w) ->
  (forall id, id <> socket_id d -> w_fds w' !! id = w_fds w !! id) ->
  grown whole (wire w d) (wire w' d') -> wires_grow w w'.
Proof.
  intros Hi Ha Hin Hh Hf Hg b db Hdb Hp. destruct (decide (b = a)) as [->|Hne].
  - rw Ha in Hdb. injection Hdb as <-. exists d'. by rw Hh lookup_insert_eq.
  - destruct (insert_other X w w' a d d' b db) as [Hb Hw]; [done..|]. exists db. by rw Hw.
Qed.
Lemma insert_sound_kept X w w' a d d' :
  fine_inv X w -> w_heap w !! a = Some d -> a ∈ clients (w_server w) -> w_heap w' = <[a := d']> (w_heap w) ->
  (forall id, id <> socket_id d -> w_fds w' !! id = w_fds w !! id) ->
  but_writing d' = but_writing d -> grown goodbye (wire w d) (wire w' d') -> sound_kept w w'.
Proof.
  intros Hi Ha Hin Hh Hf Hb Hg b db Hdb Hp. destruct (decide (b = a)) as [->|Hne].
  - rw Ha in Hdb. injection Hdb as <-. exists d'. by rw Hh lookup_insert_eq.
  - destruct (insert_other X w w' a d d' b db) as [Hb' Hw]; [done..|]. exists db. by rw Hw.
Qed.
Lemma insert_still w w' a d d' :
  w_heap w !! a = Some d -> w_heap w' = <[a := d']> (w_heap w) -> but_writing d' = but_writing d -> sound_still w w'.
Proof.
  intros Ha Hh Hb b db Hdb _. rw Hh. destruct (decide (b = a)) as [->|Hne].
  - rw Ha in Hdb. injection Hdb as <-. exists d'. by rw lookup_insert_eq.
  - exists db. by rw lookup_insert_ne.
Qed.

(** ** Changes that keep the invariant *)

(** Only the memory. *)
Lemma fine_same X Y w w' :
  fine_inv X w -> world_ok Y w' -> same_rest w w' -> w_heap w' = w_heap w -> fine_inv Y w'.
Proof.
  intros [Hs Hn Hm] Hw Hr Hh. pose proof Hr as (_ & _ & Hsv). constructor; rw ?Hh ?Hsv; [|done..].
  by eapply (same_rest_inv w w').
Qed.

(** One client of the list, and perhaps its socket. *)
Lemma fine_update X w w' a d d' :
  fine_inv X w -> world_ok X w' -> w_heap w !! a = Some d -> w_heap w' = <[a := d']> (w_heap w) ->
  w_next w' = w_next w -> w_server w' = w_server w -> a ∈ clients (w_server w) ->
  (forall id, id <> socket_id d -> w_fds w' !! id = w_fds w !! id) ->
  user_step (w_fds w) (w_fds w') d d' -> (nl ∉ cname d -> nl ∉ cname d') -> fine_inv X w'.
Proof.
  intros Hi Hw Ha Hh Hn Hs Hin Hf Hstep Hnm. pose proof Hi as [Hsv Hns Hm]. constructor.
  - by eapply (inv_update w w' a d d').
  - intros b db. rw Hh. intros [[<- <-]|[_ Hdb]]%lookup_insert_Some; [|by eapply Hns]. by eapply Hnm, Hns.
  - intros b db. rw Hh Hs. intros [[<- <-]|[_ Hdb]]%lookup_insert_Some; [done|by eapply Hm].
Qed.

(** Only the sign. *)
Lemma fine_sign X w k : fine_inv X w -> fine_inv X (set_server (set_sign k (w_server w)) w).
Proof. intros [Hs Hn Hm]. constructor; [by apply set_sign_inv|done..]. Qed.

(** ** The actions of both threads *)

Lemma fine_client_list X w :
  fine_inv X w -> wp false get_client_list w (fun r w' => fine_inv X w' /\ sound_kept w w' /\
    r = (Some (clients (w_server w)), zlen (clients (w_server w))) /\ w_server w' = w_server w).
Proof.
  intros Hi. eapply wp_mono; [apply (get_client_list_spec X w); apply Hi|]. intros r w' (-> & Hw & Hr & Hh).
  split_and!; [by eapply fine_same|by apply heap_sound_kept; [|apply Hr]|done|apply Hr].
Qed.

(** What queueing [txt] for the client [d] at [a] does. *)
Record sent_to (a : Z) (d : ClientData) (txt : bytes) (w w' : World S) : Prop := {
  se_fds : w_fds w' = w_fds w;
  se_client : exists d', w_heap w' = <[a := d']> (w_heap w) /\ but_writing d' = but_writing d /\
    wire w' d' = wire w d ++ txt;
}.

Lemma fine_send X w a d m tn en txt :
  fine_inv X w -> w_heap w !! a = Some d -> a ∈ clients (w_server w) -> msg_for m tn en txt ->
  wp false (send_msg a (content m) (size m)) w (fun _ w' => fine_inv X w' /\ sent_to a d txt w w').
Proof.
  intros Hi Ha Hin Hm. pose proof (mf_size _ _ _ _ Hm) as Hsz. pose proof (mf_msg _ _ _ _ Hm) as Hmsg.
  rw (mo_content _ _ _ Hmsg) (mo_size _ _ _ Hmsg).
  eapply wp_mono; [apply (send_at_spec X w a d (txt ++ [nul]) (zlen txt)); [apply Hi|done|lia|zl]|].
  intros _ w' (Hw & (Hf & Hnx & Hs) & d' & Hh & [Hq Hc]). rw /zlen Nat2Z.id take_app_length in Hc.
  assert (but_writing d' = but_writing d /\ cname d' = cname d /\ reading_buffer d' = reading_buffer d) as (Hb & Hcn & Hrb)
    by by rw Hq.
  pose proof (but_writing_eq _ _ Hb) as (Hsk & _). split.
  - apply (fine_update X w w' a d d'); try done; [by intros id _; rw Hf|by apply user_step_same; rw ?Hf|by rw Hcn].
  - constructor; [done|]. exists d'. split_and!; [done..|]. by rw /wire Hf Hsk Hc app_assoc.
Qed.

Lemma sent_kept X w w' a d txt :
  fine_inv X w -> w_heap w !! a = Some d -> a ∈ clients (w_server w) -> goodbye txt -> sent_to a d txt w w' -> sound_kept w w'.
Proof.
  intros Hi Ha Hin Ht [Hf (d' & Hh & Hb & Hwire)]. apply (insert_sound_kept X w w' a d d'); try done.
  - by intros id _; rw Hf.
  - rw Hwire. by apply grown_one.
Qed.
Lemma sent_grows X w w' a d txt :
  fine_inv X w -> w_heap w !! a = Some d -> a ∈ clients (w_server w) -> whole txt -> sent_to a d txt w w' -> wires_grow w w'.
Proof.
  intros Hi Ha Hin Ht [Hf (d' & Hh & Hb & Hwire)]. apply (insert_grows X w w' a d d'); try done.
  - by intros id _; rw Hf.
  - rw Hwire. by apply grown_one.
Qed.
Lemma sent_still w w' a d txt : w_heap w !! a = Some d -> sent_to a d txt w w' -> sound_still w w'.
Proof. intros Ha [Hf (d' & Hh & Hb & _)]. by apply (insert_still w w' a d d'). Qed.

Lemma fine_bump X w : fine_inv X w -> wp false bump_sign w (fun _ w' => fine_inv X w' /\ sound_kept w w').
Proof.
  intros Hi. unfold bump_sign. apply wp_bind, wp_server, wp_put_server. split; [by apply fine_sign|].
  by apply heap_sound_kept.
Qed.

(** The other events. *)
Lemma fine_data X w id data :
  fine_inv X w -> admissible w (EData id data) -> fine_inv X (set_fds (alter (receive data) id (w_fds w)) w).
Proof. intros [Hs Hn Hm] Had. constructor; [by apply data_inv|done..]. Qed.

Lemma fine_listen X w id f peer now w' :
  fine_inv X w -> admissible w (EListen id f peer now) -> handle_listen_turn id f peer now 0 0 w = Ret (tt, w') ->
  fine_inv X w' /\ sound_kept w w'.
Proof.
  intros Hi Had Hrun. pose proof Hi as [Hs Hn Hm].
  destruct (wp_partial _ _ _ _ _ _ (listen_inv_step w id f peer now Hs Had) Hrun) as (Hs' & Hc & Hf).
  destruct (listen_run _ _ _ _ _ _ _ _ Hrun) as [_ Hl].
  assert (forall b, b <> w_next w -> w_heap w' !! b = w_heap w !! b) as Hh
    by (intros b Hb; destruct Hl as [(_ & -> & _)|(_ & Hh & _)]; [done|by apply Hh]).
  split.
  - constructor; [done| |].
    + intros b d Hd. destruct (decide (b = w_next w)) as [->|Hne]; [|rw Hh // in Hd; by eapply Hn].
      apply (us_user _ _ _ (iv_users _ Hs') (w_next w) d); [|done]. rw Hc. apply elem_of_app. right. by apply list_elem_of_singleton.
    + intros b d Hd. rw Hc elem_of_app list_elem_of_singleton. intros Hb. rw Hh in Hd; [tauto|]. eapply Hm; [done|tauto].
  - intros b d Hd Hp. exists d. split; [|split; [done|]].
    + rw Hh; [|done]. intros ->. rw (iv_fresh _ Hs) in Hd; [lia|done].
    + unfold wire. rw Hf lookup_insert_ne //. intros Hid. destruct Had as (_ & Hnone & _).
      destruct (us_user _ _ _ (iv_users _ Hs) b d (fine_member X w b d Hi Hd Hp) Hd) as [_ _ (x & Hx & _)]. congruence.
Qed.

Lemma data_sound_kept w id data : sound_kept w (set_fds (alter (receive data) id (w_fds w)) w).
Proof.
  apply outs_sound_kept; [done|]. intros a d _ _. simpl. destruct (decide (socket_id d = id)) as [->|Hne].
  - rw lookup_alter_eq. by destruct (w_fds w !! id).
  - by rw lookup_alter_ne.
Qed.
End lemmas.

(** ** Walking a snapshot *)

Lemma entry_some {A} (l : list A) k : (k < length l)%nat -> exists x, entry l k = Ret x /\ x ∈ l.
Proof.
  intros [x Hx]%lookup_lt_is_Some_2. exists x. unfold entry. rw Hx. split; [done|]. by eapply list_elem_of_lookup_2.
Qed.

Lemma seq_length (l : list Z) k : k ∈ seq 0 (Z.to_nat (zlen l)) -> (k < length l)%nat.
Proof. rw elem_of_seq /zlen Nat2Z.id. lia. Qed.

(** The test for a message to all. *)
Lemma to_all_test m tn en txt :
  msg_for m tn en txt -> exists r, is_msg_to_all m = Ret r /\ (r =? SUCC) = bool_decide (tn = bs CMD_TO_ALL).
Proof.
  intros Hm. destruct (strcmp_spec _ (lit CMD_TO_ALL) _ (bs CMD_TO_ALL) (mo_target _ _ _ (mf_msg _ _ _ _ Hm)) eq_refl)
    as (r & Hr & Heq).
  exists r. split; [exact Hr|]. unfold SUCC. symmetry.
  destruct (Z.eqb_spec r 0); [apply bool_decide_true|apply bool_decide_false]; tauto.
Qed.
