(* ===== verification/FineWriter.v ===== *)
(** * The writing thread never fails

    Every action of the writing thread, whatever the other threads do between two
    of them, returns and keeps the invariant of FineInv.v: it is neither undefined
    nor without end.  The rely is that of InterleaveTheorems.v with the marks of
    ReaderTheorems.v; the guarantee is what the reading thread relies on. *)
From Stdlib Require Import Strings.Byte String.
From S2P Require Import Prelude CLib Alloc Buffer Message ClientInfo Server ServerSpec ServerLoop ServerTurns ServerRun.
From S2P Require Import Cache BufferTheorems ClientTheorems ServerTheorems Threads ThreadTheorems Interleave InterleaveTheorems ReaderTheorems FineInv.

(** ** The logic *)

Section logic.
Context {S : Type} `{!CacheModule S} `{!CacheModuleLaws S}.
Implicit Types (P : World S -> Prop) (w : World S) (X Y : gset Z).

(** An assertion that the other threads keep. *)
Definition steady P : Prop := forall w w', P w -> others w w' -> marks_stay w w' -> P w'.

(** From [P] and the invariant with [X], every action of [p] returns, keeps the
    clients that are not marked and the invariant, whatever caches it takes or
    gives back; at the end the caches are [Y] and [Q] holds. *)
Fixpoint wsafe {A} X P (p : prog S A) Y (Q : A -> World S -> Prop) : Prop :=
  steady P /\
  match p with
  | Done a => X = Y /\ forall w, P w -> Q a w
  | Act m k => forall w, fine_inv X w -> admissible w EWrite -> P w ->
      wp false m w (fun x w' => sound_kept w w' /\
        exists Z R, fine_inv Z w' /\ (R w' : Prop) /\ wsafe Z R (k x) Y Q)
  end.

Lemma steady_known P : known P -> steady P.
Proof. intros [Hs _] w w' HP Ho _. by eapply Hs. Qed.
Lemma steady_done a : steady (fun w => done_for w a).
Proof. intros w w' HP _ Hm. by apply Hm. Qed.
Lemma steady_and P R : steady P -> steady R -> steady (fun w => P w /\ R w).
Proof. intros HP HR w w' [? ?] Ho Hm. split; [by eapply HP|by eapply HR]. Qed.

Lemma wsafe_pre {A} X P P' (p : prog S A) Y Q :
  steady P' -> (forall w, P' w -> P w) -> wsafe X P p Y Q -> wsafe X P' p Y Q.
Proof. intros Hs Hp. destruct p; intros [_ H]; (split; [done|]); naive_solver. Qed.

Lemma wsafe_done {A} X P (a : A) (Q : A -> World S -> Prop) :
  steady P -> (forall w, P w -> Q a w) -> wsafe X P (mret a) X Q.
Proof. by split. Qed.

Lemma wsafe_post {A} X P (p : prog S A) Y (Q Q' : A -> World S -> Prop) :
  wsafe X P p Y Q -> (forall a w, Q a w -> Q' a w) -> wsafe X P p Y Q'.
Proof.
  revert X P. induction p as [a|T m k IH]; intros X P [Hs Hp] HQ; (split; [done|]).
  - destruct Hp as [-> Hp]. split; [done|]. by auto.
  - intros w Hi Had Hw. eapply wp_mono; [by apply Hp|].
    intros x w' (? & X1 & R1 & ? & ? & Hr). split; [done|]. exists X1, R1. split_and!; [done..|]. by apply IH.
Qed.

Lemma wsafe_bind {A B} X P (p : prog S A) Z (f : A -> prog S B) (R : A -> World S -> Prop) Y Q :
  wsafe X P p Z R -> (forall a, wsafe Z (R a) (f a) Y Q) -> wsafe X P (p ≫= f) Y Q.
Proof.
  revert X P. induction p as [a|T m k IH]; intros X P [Hs Hp] Hf.
  - destruct Hp as [-> Hp]. by eapply (wsafe_pre _ (R a)).
  - split; [done|]. intros w Hi Had Hw. eapply wp_mono; [by apply Hp|].
    intros x w' (? & X1 & R1 & ? & ? & Hr). split; [done|]. exists X1, R1. split_and!; [done..|]. by apply IH.
Qed.

Lemma wsafe_act {A B} X P (m : M (World S) A) (f : A -> prog S B) Y Q :
  steady P ->
  (forall w, fine_inv X w -> admissible w EWrite -> P w ->
     wp false m w (fun x w' => sound_kept w w' /\
       exists Z R, fine_inv Z w' /\ (R w' : Prop) /\ wsafe Z R (f x) Y Q)) ->
  wsafe X P (act m ≫= f) Y Q.
Proof. by split. Qed.

(** An action that the other threads could do as well. *)
Lemma steady_alike X P w w' : steady P -> fine_inv X w -> P w -> alike w w' -> marks_stay w w' -> P w'.
Proof. intros HP [Hi _ _] Hw Ha. eapply HP; [done|]. by apply alike_others; [|eapply fine_listed]. Qed.

Lemma wsafe_keep {A B} X P (m : M (World S) A) (f : A -> prog S B) (F : A -> Prop) Y Q :
  steady P -> pres alike m -> pres (keeps_but None) m ->
  (forall w, fine_inv X w -> admissible w EWrite -> P w ->
     wp false m w (fun x w' => sound_kept w w' /\ fine_inv X w' /\ F x)) ->
  (forall x, F x -> wsafe X P (f x) Y Q) -> wsafe X P (act m ≫= f) Y Q.
Proof.
  intros HP Ha Hk Hm Hf. apply wsafe_act; [done|]. intros w Hi Had Hw.
  destruct (wp_total _ _ _ (Hm w Hi Had Hw)) as (x & w' & Hrun & Hsk & Hi' & HF).
  eapply wp_run; [exact Hrun|]. split; [done|]. exists X, P. split_and!; [done| |by apply Hf].
  apply (steady_alike X P w w'); [done..|by eapply Ha|]. apply (keeps_marks None); [by eapply Hk|done].
Qed.

Lemma wsafe_last {A} X P (m : M (World S) A) :
  steady P -> pres alike m -> pres (keeps_but None) m ->
  (forall w, fine_inv X w -> admissible w EWrite -> P w ->
     wp false m w (fun x w' => sound_kept w w' /\ fine_inv X w')) ->
  wsafe X P (act m) X (fun _ => P).
Proof.
  intros HP Ha Hk Hm. apply (wsafe_keep X P m Done (fun _ => True)); [done..| |].
  - intros w Hi Had Hw. eapply wp_mono; [by apply Hm|]. by intros x w' [? ?].
  - intros x _. by apply wsafe_done.
Qed.

(** An action that changes nothing. *)
Lemma wsafe_pure {A B} X P (m : M (World S) A) (f : A -> prog S B) (F : A -> Prop) Y Q :
  steady P ->
  (forall w, fine_inv X w -> P w -> exists x, m w = Ret (x, w) /\ F x) ->
  (forall x, F x -> wsafe X P (f x) Y Q) -> wsafe X P (act m ≫= f) Y Q.
Proof.
  intros HP Hm Hf. apply wsafe_act; [done|]. intros w Hi Had Hw. destruct (Hm w Hi Hw) as (x & Hrun & HF).
  eapply wp_run; [exact Hrun|]. split; [done|]. exists X, P. split_and!; [done..|]. by apply Hf.
Qed.
Lemma wsafe_lift {A B} X P (o : outcome A) (x : A) (f : A -> prog S B) Y Q :
  steady P -> o = Ret x -> wsafe X P (f x) Y Q -> wsafe X P (act (lift o) ≫= f) Y Q.
Proof.
  intros HP -> Hf. apply (wsafe_pure X P _ f (eq x)); [done| |by intros ? <-]. intros w _ _. by exists x.
Qed.
End logic.
#[export] Hint Resolve steady_known steady_done steady_and : core.

(** ** The actions of the writing thread *)

Section actions.
Context {S : Type} `{!CacheModule S} `{!CacheModuleLaws S}.
Implicit Types (P : World S -> Prop) (w : World S) (X Y : gset Z).

Lemma fine_flush X w a :
  fine_inv X w -> admissible w EWrite -> a ∈ clients (w_server w) ->
  wp false (flush a) w (fun _ w' => sound_kept w w' /\ fine_inv X w').
Proof.
  intros Hi Had Ha. destruct (so_live _ (iv_server _ (fv_server _ Hi)) a Ha) as [d Hd].
  destruct (us_user _ _ _ (iv_users _ (fv_server _ Hi)) a d Ha Hd) as [_ _ (x & Hx & _ & Hw & _)].
  eapply wp_mono; [apply (flush_at X w a d x); try done; [apply Hi|by apply (Had a)]|].
  intros _ w' (Hw' & Hn & Hs & d' & x' & Hh & Hd' & Hnil & Hf & Hin & Hrp & Hout & Hwr).
  assert (forall id, id <> socket_id d -> w_fds w' !! id = w_fds w !! id) as Hoth by (intros id Hne; by rw Hf lookup_insert_ne).
  assert (socket_id d' = socket_id d) as Hsk by by rw Hd'.
  split.
  { apply (insert_sound_kept X w w' a d d'); [done..|by rw Hd'|].
    unfold wire. by rw Hsk Hf lookup_insert_eq Hx /= Hnil Hout app_nil_r. }
  apply (fine_update X w w' a d d'); try done; [|by rw Hd'].
  - apply user_step_fd; [by rw Hd'|by rw Hd'|]. intros y Hy Hyr _ Hp. rw Hx in Hy. injection Hy as <-.
    assert (reading_buffer d' = reading_buffer d) as -> by by rw Hd'.
    exists x'. rw Hf lookup_insert_eq Hin. split_and!; try done. by rw Hrp.
Qed.

Lemma fine_take_out X w a d :
  fine_inv X w -> a ∈ clients (w_server w) -> w_heap w !! a = Some d -> pub d = u64 FAIL ->
  wp false (take_out a) w (fun _ w' => sound_kept w w' /\ fine_inv X w').
Proof.
  intros Hi Ha Hd Hp. pose proof Hi as [Hsv Hnm Hmk]. pose proof (iv_server _ Hsv) as Hs.
  destruct (list_elem_of_split _ _ Ha) as (l1 & l2 & Hc). pose proof (so_nodup _ Hs) as Hnd.
  assert (forall b, b ∈ clients (w_server w) <-> b = a \/ b ∈ l1 ++ l2) as Hmem.
  { intros b. rw Hc !elem_of_app elem_of_cons. tauto. }
  assert (i32 (client_count (w_server w) - 1) = client_count (w_server w) - 1) as Hcount.
  { pose proof (so_bound _ Hs). pose proof (zlen_nonneg (clients (w_server w))). rw (so_count _ Hs) i32_small; lia. }
  unfold take_out. apply wp_bind, wp_server, wp_bind, (wp_get_client _ _ _ d); [done|]. apply wp_bind. rw Hcount.
  eapply wp_run.
  { rw Hc. apply unlink_spec; [done|]. intros b Hb. assert (b ∈ clients (w_server w)) as Hb' by (rw Hc; apply elem_of_app; by left).
    destruct (so_live _ Hs b Hb') as [db Hdb]. exists db. split; [done|].
    apply (us_distinct _ _ _ (iv_users _ Hsv) b a); try done. intros ->.
    rw Hc in Hnd. apply NoDup_app in Hnd as (_ & Hno & _). apply (Hno a Hb), list_elem_of_here. }
  apply wp_put_server. split; [by apply heap_sound_kept|]. constructor; [|done|].
  - eapply (inv_step w); [exact Hsv|by apply world_ok_server, Hsv|by apply (server_ok_remove w a l1 l2 _ _ Hs Hc eq_refl)|done| | |done|].
    + intros b Hb. apply Hmem. by right.
    + simpl. rw Hc. zl.
    + intros b db _ Hb. exists db. split; [done|]. by apply user_step_same.
  - intros b db Hdb Hb. simpl in Hdb, Hb. destruct (decide (b = a)) as [->|Hne]; [congruence|].
    apply (Hmk b db Hdb). rw Hmem. tauto.
Qed.

Lemma fine_close X w s :
  fine_inv X w -> (forall b d, b ∈ clients (w_server w) -> w_heap w !! b = Some d -> socket_id d <> s) ->
  sound_kept w (set_fds (delete s (w_fds w)) w) /\ fine_inv X (set_fds (delete s (w_fds w)) w).
Proof.
  intros Hi Hs. pose proof Hi as [Hsv Hnm Hmk]. split.
  { apply outs_sound_kept; [done|]. intros a d Ha Hp. simpl. rw lookup_delete_ne //. apply not_eq_sym.
    by eapply (Hs a), Ha; eapply fine_member. }
  constructor; [|done..].
  eapply (inv_step w); try done; [by apply world_ok_fds, Hsv|by destruct (iv_server _ Hsv); constructor|].
  intros b d Hb Hd. exists d. split; [done|]. apply user_step_same; try done. simpl. rw lookup_delete_ne //.
  apply not_eq_sym. by apply (Hs b).
Qed.

Lemma fine_release X w a :
  fine_inv X w -> a ∉ clients (w_server w) -> is_Some (w_heap w !! a) ->
  wp false (release_client a) w (fun _ w' => sound_kept w w' /\ fine_inv X w').
Proof.
  intros [Hsv Hnm Hmk] Ha [d Hd]. eapply wp_mono; [by apply (release_at X w a d); [apply Hsv|]|].
  intros _ w' (Hw & (Hf & Hn & Hs) & Hh). assert (forall b db, w_heap w' !! b = Some db -> w_heap w !! b = Some db) as Hsub.
  { intros b db. rw Hh. by intros [_ ?]%lookup_delete_Some. }
  split.
  - intros b db Hdb Hp. exists db. split_and!; [|done|unfold wire; by rw Hf].
    rw Hh lookup_delete_ne //. intros ->. by destruct Hp; apply (Hmk b).
  - constructor; [|by eauto|rw Hs; by eauto].
    eapply (inv_step w); try done; rw ?Hs //.
    + destruct (iv_server _ Hsv) as [Hl ???]. constructor; rw ?Hs //. intros b Hb. rw Hh lookup_delete_ne; [|by apply Hl].
      by intros ->.
    + intros b Hb. rw Hh. apply lookup_delete_None. by right.
    + intros b db _ Hdb. exists db. split; [by apply Hsub|]. apply user_step_same; by rw ?Hf.
Qed.

(** *** The members of the list *)

Lemma steady_members (f : Z -> Prop) : steady (S := S) (fun w => forall a, f a -> a ∈ clients (w_server w)).
Proof. intros w w' Hf Ho _ a Ha%Hf. by eapply others_member. Qed.

Lemma fine_live X w a : fine_inv X w -> a ∈ clients (w_server w) -> exists d, get_client a w = Ret (d, w) /\ client_inv d.
Proof.
  intros Hi Ha. destruct (so_live _ (iv_server _ (fv_server _ Hi)) a Ha) as [d Hd]. exists d.
  split; [unfold get_client; by rw Hd|by eapply fine_client].
Qed.
End actions.
#[export] Hint Resolve steady_members : core.

(** ** The programs *)

Section programs.
Context {S : Type} `{!CacheModule S} `{!CacheModuleLaws S}.
Context (heap_after : Z -> bytes).
Implicit Types (P : World S -> Prop) (w : World S) (X Y : gset Z).

#[local] Hint Resolve keeps_send keeps_flush keeps_client_list keeps_clear : pres.

Lemma wsafe_visits X P msg tn en txt to_all l index sent :
  steady P -> msg_for msg tn en txt -> goodbye txt -> (forall k, k ∈ index -> (k < length l)%nat) ->
  (forall w a, P w -> a ∈ l -> a ∈ clients (w_server w)) ->
  wsafe X P (deliver_visits msg to_all l index sent) X (fun _ => P).
Proof.
  intros HP Hm Hgb Hl Hin. revert sent. induction index as [|k index IH]; intros sent; cbn [deliver_visits].
  { by apply wsafe_done. }
  assert (forall sent, wsafe X P (deliver_visits msg to_all l index sent) X (fun _ => P)) as Hrest.
  { apply IH. intros j Hj. by apply Hl, list_elem_of_further. }
  destruct (entry_some l k) as (a & He & Ha); [by apply Hl, list_elem_of_here|].
  apply (wsafe_lift _ _ _ a); [done..|].
  assert (forall w, fine_inv X w -> P w -> exists d, get_client a w = Ret (d, w) /\ client_inv d) as Hget.
  { intros w Hi Hw. eapply fine_live; [done|by apply Hin]. }
  apply (wsafe_pure _ _ _ _ client_inv); [done..|]. intros d _. destruct (u64 FAIL =? pub d); [apply Hrest|].
  apply (wsafe_pure _ _ _ _ client_inv); [done..|]. intros d1 Hd1.
  destruct (deliver_tests _ _ _ _ _ Hm Hd1) as (r1 & _ & H1 & _).
  apply (wsafe_lift _ _ _ r1); [done..|]. destruct (r1 =? SUCC); [apply Hrest|].
  apply (wsafe_bind _ _ _ X _ (fun _ => P)).
  - destruct to_all; [by apply wsafe_done|].
    apply (wsafe_pure _ _ _ _ client_inv); [done..|]. intros d2 Hd2.
    destruct (deliver_tests _ _ _ _ _ Hm Hd2) as (_ & r2 & _ & H2 & _).
    apply (wsafe_lift _ _ _ r2); [done..|]. by apply wsafe_done.
  - intros [|]; [|apply Hrest]. apply (wsafe_keep _ _ _ _ (fun _ => True)); [done|eauto with pres..| |by intros _ _].
    intros w Hi _ Hw. pose proof (Hin w a Hw Ha) as Ha'.
    destruct (so_live _ (iv_server _ (fv_server _ Hi)) a Ha') as [d3 Hd3].
    eapply wp_mono; [by apply (fine_send X w a d3 msg tn en txt)|].
    intros r w' [? ?]. split_and!; [by eapply sent_kept|done..].
Qed.

(** The snapshot: its clients stay in the list, since nobody else takes one out. *)
Lemma wsafe_snapshot {B} X P (f : option (list Z) * Z -> prog S B) Y Q :
  steady P ->
  (forall l, NoDup l -> wsafe X (fun w => P w /\ forall a, a ∈ l -> a ∈ clients (w_server w)) (f (Some l, zlen l)) Y Q) ->
  wsafe X P (act get_client_list ≫= f) Y Q.
Proof.
  intros HP Hf. apply wsafe_act; [done|]. intros w Hi _ Hw.
  destruct (wp_total _ _ _ (fine_client_list X w Hi)) as (r & w' & Hrun & Hi' & Hsk & -> & Hs).
  eapply wp_run; [exact Hrun|]. split; [done|]. set (l := clients (w_server w)).
  exists X, (fun w1 => P w1 /\ forall a, a ∈ l -> a ∈ clients (w_server w1)).
  split; [done|]. split; [|apply Hf, (iv_server _ (fv_server _ Hi))]. rw Hs. split; [|done]. apply (steady_alike X P w w'); [done..|by eapply alike_client_list|].
  apply (keeps_marks None); [by eapply keeps_client_list|done].
Qed.

Lemma wsafe_deliver X P msg tn en txt :
  steady P -> msg_for msg tn en txt -> goodbye txt -> wsafe X P (deliver msg) X (fun _ => P).
Proof.
  intros HP Hm Hgb. unfold deliver. apply wsafe_snapshot; [done|]. intros l _. cbv beta iota.
  destruct (strcmp_spec _ (lit CMD_TO_ALL) _ (bs CMD_TO_ALL) (mo_target _ _ _ (mf_msg _ _ _ _ Hm)) eq_refl) as (r & Hr & _).
  apply (wsafe_lift _ _ _ r); [auto|done|].
  eapply wsafe_post; [eapply wsafe_visits; [auto|done..|apply seq_length|by intros w a [_ Hl] Ha; apply Hl]|by intros _ w []].
Qed.

(** Taking and giving back the cache of a logout notice. *)
Lemma fine_hold w n :
  fine_inv ∅ w -> n <= 2048 ->
  wp false (on_mem (cm_get n)) w (fun oc w' => sound_kept w w' /\
    exists c, oc = Some c /\ cache_fresh n c /\ fine_inv {[cid c]} w').
Proof.
  intros Hi Hn. pose proof (iv_world _ (fv_server _ Hi)) as [L Hw].
  apply wp_on_mem. eapply wp_mono; [apply (cm_get_spec false L); [apply (wa_mem _ _ _ Hw)|lia]|].
  intros oc s (c & -> & Hf & Hc & Hs). split; [by apply heap_sound_kept|]. exists c. split_and!; [done..|].
  eapply (fine_same ∅ _ w); [done| |done..]. exists ({[cid c]} ∪ L).
  destruct (world_hold ∅ L w s (cid c) Hw Hc Hs) as [Hw' _]. by rw (right_id_L ∅ union {[cid c]}) in Hw'.
Qed.

Lemma fine_drop w n c b :
  fine_inv {[cid c]} w -> cache_fresh n c -> zlen b = zlen (buff c) ->
  wp false (on_mem (cm_recycle (mkCache (cid c) (allocated_size c) (cache_size c) b))) w (fun _ w' =>
    sound_kept w w' /\ fine_inv ∅ w').
Proof.
  intros Hi Hf Hb. pose proof (iv_world _ (fv_server _ Hi)) as [L Hw].
  apply wp_on_mem. eapply wp_mono.
  { apply (cm_recycle_spec false L); [apply (wa_mem _ _ _ Hw)| |].
    - simpl. pose proof (wa_held _ _ _ Hw) as HX. clear -HX. set_solver.
    - destruct (cache_fresh_ok _ _ Hf) as [Hcl Hlen]. constructor; [done|]. simpl. by rw Hb. }
  intros r s [_ Hs]. split; [by apply heap_sound_kept|]. eapply (fine_same {[cid c]} _ w); [done| |done..].
  exists (L ∖ {[cid c]}). apply (world_drop ∅ L); [|clear; set_solver|done].
  by rw (right_id_L ∅ union {[cid c]}).
Qed.

(** The notice is composed in the cache [c], whatever the memory is. *)
Lemma fine_notice X w nm sn b c n after :
  fine_inv X w -> cstr nm = Ret sn -> zlen sn < 30 -> (nl ∉ sn) -> cache_fresh n c ->
  store_cstr (sn ++ bs " " ++ bs MSG_LOGOUT_SUFFIX) (buff c) = Ret b ->
  wp false (on_mem (create_sys_msg_base_on_content (Some (lit CMD_TO_ALL)) b after)) w (fun om w' =>
    sound_kept w w' /\ fine_inv X w' /\ exists m e, om = Some m /\ strcpy (exclude m) nm = Ret e /\
    msg_for (mkMsg (target m) e (size m) (content m)) (bs CMD_TO_ALL) sn
      (sys_text (sn ++ bs " " ++ bs MSG_LOGOUT_SUFFIX))).
Proof.
  intros Hi Hnm Hl Hnl Hf Hst. pose proof (iv_world _ (fv_server _ Hi)) as [L Hw].
  destruct (notice_message L (w_mem w) nm sn MSG_LOGOUT_SUFFIX n c (wa_mem _ _ _ Hw) Hnm Hl Hnl) as (b' & Hst' & _ & Hmsg);
    [by apply (bool_decide_unpack _); vm_compute|by apply (bool_decide_unpack _); vm_compute|done|done|].
  rw Hst in Hst'. injection Hst' as <-. apply wp_on_mem. eapply wp_mono; [apply Hmsg|].
  intros om s (Hs & m & e & -> & Hcpy & Hm). split; [by apply heap_sound_kept|].
  split; [eapply fine_same; [done|by eapply world_mem_ok|done..]|].
  by exists m, e.
Qed.

Lemma notice_stored sn n c :
  zlen sn < 30 -> cache_fresh n c ->
  exists b, store_cstr (sn ++ bs " " ++ bs MSG_LOGOUT_SUFFIX) (buff c) = Ret b /\ zlen b = zlen (buff c).
Proof.
  intros Hl Hf. pose proof (fresh_room _ _ Hf). pose proof (zlen_nonneg sn).
  assert (zlen (sn ++ bs " " ++ bs MSG_LOGOUT_SUFFIX) = zlen sn + 15) as Hz by by rw !zlen_app.
  set (txt := sn ++ _) in *. eexists. rw store_cstr_in; [lia|]. split; [done|]. rw zlen_app zlen_cons zlen_drop; lia.
Qed.

Lemma wsafe_logout_delivery P nm sn :
  steady P -> cstr nm = Ret sn -> zlen sn < 30 -> (nl ∉ sn) ->
  wsafe ∅ P (logout_delivery heap_after nm) ∅ (fun _ => P).
Proof.
  intros HP Hnm Hl Hnl. pose proof (zlen_nonneg sn). unfold logout_delivery. apply (wsafe_lift _ _ _ sn); [done..|].
  cbv zeta. change (zlen (bs MSG_LOGOUT_SUFFIX)) with 14. rw i32_small; [lia|].
  apply wsafe_act; [done|]. intros w Hi _ Hw.
  destruct (wp_total _ _ _ (fine_hold w (zlen sn + 14 + 2) Hi ltac:(lia))) as (oc & w1 & Hrun & Hsk & c & -> & Hf & Hi1).
  eapply wp_run; [exact Hrun|]. split; [done|]. exists {[cid c]}, P. split; [done|].
  assert (P w1) as Hw1.
  { apply (steady_alike ∅ P w w1); [done..|by eapply alike_on_mem|]. apply (keeps_marks None); [by eapply keeps_on_mem|done]. }
  split; [done|]. destruct (notice_stored sn _ c Hl Hf) as (b & Hst & Hb). apply (wsafe_lift _ _ _ b); [done..|].
  eapply (wsafe_keep _ _ _ _ (fun om => exists m e, om = Some m /\ strcpy (exclude m) nm = Ret e /\
    msg_for (mkMsg (target m) e (size m) (content m)) (bs CMD_TO_ALL) sn _)); [done|eauto with pres..| |].
  { intros w2 Hi2 _ _. by eapply fine_notice. }
  intros om (m & e & -> & Hcpy & Hm). apply (wsafe_bind _ _ _ {[cid c]} _ (fun _ => P)).
  - apply (wsafe_lift _ _ _ e); [done..|]. eapply wsafe_deliver; [done..|]. by exists sn.
  - intros sent. apply wsafe_act; [done|]. intros w2 Hi2 _ Hw2.
    destruct (wp_total _ _ _ (fine_drop w2 _ c b Hi2 Hf Hb)) as (r & w3 & Hrun3 & Hsk3 & Hi3).
    eapply wp_run; [exact Hrun3|]. split; [done|]. exists ∅, P. split_and!; [done| |by apply wsafe_done].
    apply (steady_alike {[cid c]} P w2 w3); [done..|by eapply alike_on_mem|].
    apply (keeps_marks None); [by eapply keeps_on_mem|done].
Qed.

Lemma wsafe_logout f g a :
  g a -> (forall b, f b -> g b /\ b <> a) ->
  wsafe ∅ (fun w => holds g w /\ done_for w a) (logout heap_after a) ∅ (fun _ => holds f).
Proof.
  intros Ha Hf. unfold logout. pose proof (steady_known _ (holds_known (S := S) g)) as Hg.
  apply wsafe_act; [by apply steady_and|]. intros w Hi _ [Hw [Hlt Hp]].
  destruct (take_out_run heap_after f g w a Hw Ha Hf) as (w1 & d & Hrun & Hd & Ht).
  pose proof (wp_partial _ _ _ _ _ _ (fine_take_out ∅ w a d Hi (proj2 Hw a Ha) Hd (Hp d Hd)) Hrun) as [Hsk Hi1].
  eapply wp_run; [exact Hrun|]. split; [done|].
  assert (steady (fun w => taken f a (socket_id d) w /\ done_for w a)) as HP.
  { apply steady_and; [apply steady_known, taken_known|done]. }
  exists ∅, (fun w => taken f a (socket_id d) w /\ done_for w a). split; [done|]. split.
  { split; [done|]. apply (keeps_marks None _ _ (keeps_take_out a _ _ _ Hrun)); [done|]. by split. }
  eapply (wsafe_pure _ _ _ _ (fun d1 => client_inv d1 /\ (nl ∉ cname d1) /\ socket_id d1 = socket_id d)); [done| |].
  { intros w2 Hi2 [Hw2 _]. destruct (tk_live _ _ _ _ Hw2) as (d1 & Hd1 & Hs1). exists d1.
    split; [unfold get_client; by rw Hd1|]. split_and!; [by eapply fine_client|by eapply (fv_names _ Hi2)|done]. }
  intros d1 (Hc1 & Hnl & ->). destruct (client_name _ Hc1) as [Hnm Hlen].
  eapply wsafe_bind; [by eapply wsafe_logout_delivery|]. intros sent. cbv beta.
  apply wsafe_act; [done|]. intros w3 Hi3 _ [Hw3 Hd3]. apply (wp_run _ _ _ tt (set_fds (delete (socket_id d) (w_fds w3)) w3)); [done|].
  destruct (fine_close ∅ w3 (socket_id d) Hi3 (tk_own _ _ _ _ Hw3)) as [Hsk3 Hi4].
  split; [done|]. exists ∅, (unknown f a). split; [done|]. split; [by apply close_taken|].
  apply wsafe_act; [apply steady_known, unknown_known|]. clear Hi4. intros w4 Hi4 _ Hw4.
  destruct (wp_total _ _ _ (fine_release ∅ w4 a Hi4 (un_out _ _ _ Hw4) (un_live _ _ _ Hw4))) as (r & w5 & Hrun5 & Hsk5 & Hi5).
  eapply wp_run; [exact Hrun5|]. split; [done|]. exists ∅, (holds f). split; [done|].
  split; [by eapply release_unknown|]. pose proof (steady_known _ (holds_known (S := S) f)) as Hf'.
  destruct (sent =? 0); [by apply wsafe_done|]. apply wsafe_last; [done|eauto with pres..|].
  intros w6 Hi6 _ _. eapply wp_mono; [by apply fine_bump|]. by intros ? ? [? ?].
Qed.

Lemma wsafe_flush_visits f l index :
  (forall a, a ∈ l -> f a) -> (forall k, k ∈ index -> (k < length l)%nat) ->
  wsafe ∅ (holds f) (flush_visits l index) ∅ (fun _ => holds f).
Proof.
  intros Hl. pose proof (steady_known _ (holds_known (S := S) f)) as HP.
  induction index as [|k index IH]; intros Hk; cbn [flush_visits]; [by apply wsafe_done|].
  destruct (entry_some l k) as (a & He & Ha%Hl); [by apply Hk, list_elem_of_here|].
  apply (wsafe_lift _ _ _ a); [done..|].
  apply (wsafe_pure _ _ _ _ client_inv); [done|by intros w Hi [_ Hw]; eapply fine_live, Hw|]. intros d _.
  apply (wsafe_bind _ _ _ ∅ _ (fun _ => holds f)); [|intros _; apply IH; intros j Hj; by apply Hk, list_elem_of_further].
  destruct (u64 FAIL =? pub d); [by apply wsafe_done|]. apply wsafe_last; [done|eauto with pres..|].
  intros w Hi Had [_ Hw]. by apply fine_flush, Hw.
Qed.

Lemma wsafe_logout_visits l index :
  NoDup l -> NoDup index -> (forall k, k ∈ index -> (k < length l)%nat) ->
  wsafe ∅ (holds (named l index)) (logout_visits heap_after l index) ∅ (fun _ _ => True).
Proof.
  intros Hl. induction index as [|k index IH]; intros Hi Hlen; cbn [logout_visits].
  { apply wsafe_done; [apply steady_known, holds_known|done]. }
  apply NoDup_cons in Hi as [Hk Hi]. pose proof (steady_known _ (holds_known (S := S) (named l (k :: index)))) as HP.
  destruct (entry_some l k) as (a & He & _); [by apply Hlen, list_elem_of_here|].
  assert (l !! k = Some a) as Ha by (revert He; unfold entry; destruct (l !! k); [by intros [= ->]|done]).
  apply (wsafe_lift _ _ _ a); [done..|].
  assert (named l (k :: index) a) as Hn by (exists k; split; [apply list_elem_of_here|done]).
  assert (forall b, named l index b -> named l (k :: index) b /\ b <> a) as Hrest.
  { intros b (j & Hj & Hb). split; [exists j; split; [by apply list_elem_of_further|done]|].
    intros ->. by rw (NoDup_lookup _ _ _ _ Hl Ha Hb) in Hk. }
  assert (wsafe ∅ (holds (named l index)) (logout_visits heap_after l index) ∅ (fun _ _ => True)) as Hvisits.
  { apply IH; [done|]. intros j Hj. by apply Hlen, list_elem_of_further. }
  apply wsafe_act; [done|]. intros w Hw _ Hwh. destruct (holds_get _ _ _ Hwh Hn) as [d Hd].
  apply (wp_get_client _ _ _ d); [done|]. split; [done|].
  destruct (Z.eqb_spec (u64 FAIL) (pub d)) as [Hp|_].
  - exists ∅, (fun w => holds (named l (k :: index)) w /\ done_for w a). split; [done|]. split.
    { split; [done|]. split; [apply (li_next _ (proj1 Hwh) a d Hd)|]. intros d'. rw Hd. by intros [= <-]. }
    apply (wsafe_bind _ _ _ ∅ _ (fun _ => holds (named l index))); [by apply wsafe_logout|done].
  - exists ∅, (holds (named l index)). split; [done|]. split; [|exact Hvisits].
    destruct Hwh as [? Hf]. split; [done|]. intros b [Hb _]%Hrest. by apply Hf.
Qed.

Lemma wsafe_wait : wsafe ∅ (fun _ : World S => True) wait ∅ (fun _ _ => True).
Proof.
  assert (steady (S := S) (fun _ => True)) as HT by done. unfold wait.
  apply (wsafe_pure _ _ _ _ (fun _ => True)); [done|by intros w _ _; exists (w_server w)|]. intros i _.
  apply (wsafe_bind _ _ _ ∅ _ (fun _ _ => True)).
  - destruct (_ =? 0); [|by apply wsafe_done]. apply wsafe_last; [done|eauto with pres..|]. intros w Hi _ _.
    unfold clear_sign. apply wp_bind, wp_server, wp_put_server. split; [by apply heap_sound_kept|by apply fine_sign].
  - intros []. apply (wsafe_pure _ _ _ _ (fun _ => True)); [done|by intros w _ _; exists (w_server w)|]. intros j _. by apply wsafe_done.
Qed.

Lemma wsafe_write_turn : wsafe ∅ (fun _ => True) (write_turn heap_after) ∅ (fun _ _ => True).
Proof.
  unfold write_turn. apply wsafe_act; [done|]. intros w Hi _ _.
  destruct (wp_total _ _ _ (fine_client_list ∅ w Hi)) as (r & w' & Hrun & Hi' & Hsk & -> & Hs).
  eapply wp_run; [exact Hrun|]. split; [done|]. set (l := clients (w_server w)).
  exists ∅, (holds (fun a => a ∈ l)). split; [done|]. split.
  { split; [eapply fine_listed, Hi'|]. by rw Hs. }
  apply (wsafe_bind _ _ _ ∅ _ (fun _ => holds (fun a => a ∈ l))); [apply wsafe_flush_visits; [done|apply seq_length]|].
  intros []. apply (wsafe_bind _ _ _ ∅ _ (fun _ _ => True)); [|intros []; apply wsafe_wait].
  eapply wsafe_pre; [apply steady_known, holds_known| |apply wsafe_logout_visits; [apply (iv_server _ (fv_server _ Hi))|apply NoDup_seq|apply seq_length]].
  intros w1 [? Hl]. split; [done|]. intros a (k & _ & Hk). by eapply Hl, list_elem_of_lookup_2.
Qed.
End programs.
