(* ===== verification/FineReader.v ===== *)
(** * The reading thread fails on released clients only

    Every action of the reading thread, whatever the other threads do between two
    of them, returns and keeps the invariant of FineInv.v, or is an access to a
    client that the writing thread has released. *)
From Stdlib Require Import Strings.Byte String.
From S2P Require Import Prelude CLib Alloc Buffer Message ClientInfo Server ServerSpec ServerLoop ServerTurns ServerRun.
From S2P Require Import Cache BufferTheorems ClientTheorems ServerTheorems Threads ThreadTheorems Interleave InterleaveTheorems ReaderTheorems FineInv.

(** ** The logic *)

Section logic.
Context {S : Type} `{!CacheModule S} `{!CacheModuleLaws S}.
Implicit Types (P : World S -> Prop) (w : World S) (X : gset Z).

Definition kept P : Prop := forall w w', P w -> sound_kept w w' -> P w'.
(** ... and that does not see what is sent. *)
Definition still P : Prop := forall w w', P w -> sound_still w w' -> P w'.

(** Undefined, and it would not be if the heap still held the client. *)
Definition freed {A} (m : M (World S) A) w : Prop :=
  m w = UB /\ exists h, w_heap w ⊆ h /\ m (set_heap h w) <> UB.

(** From [P] and the invariant, whatever caches the writing thread holds, every
    action of [p] returns, keeps the invariant and sends whole messages only, or
    meets a released client. *)
Fixpoint rsafe {A} P (p : prog S A) (Q : A -> World S -> Prop) : Prop :=
  kept P /\
  match p with
  | Done a => forall w, P w -> Q a w
  | Act m k => forall X w, fine_inv X w -> P w -> freed m w \/
      wp false m w (fun x w' => fine_inv X w' /\ wires_grow w w' /\ exists R, (R w' : Prop) /\ rsafe R (k x) Q)
  end.

Lemma still_kept P : still P -> kept P.
Proof. intros HP w w' Hw Hk. by eapply HP, sound_kept_still. Qed.
Lemma still_and P R : still P -> still R -> still (fun w => P w /\ R w).
Proof. intros HP HR w w' [? ?] Hk. split; [by eapply HP|by eapply HR]. Qed.
Lemma kept_and P R : kept P -> kept R -> kept (fun w => P w /\ R w).
Proof. intros HP HR w w' [? ?] Hk. split; [by eapply HP|by eapply HR]. Qed.
Lemma still_sounds (f : Z -> Prop) : still (sounds f).
Proof.
  intros w w' Hf Hk a Ha. destruct (Hf a Ha) as (d & Hd & Hp). destruct (Hk a d Hd Hp) as (d' & Hd' & Hb).
  exists d'. split; [done|]. pose proof (but_writing_eq _ _ Hb) as (_ & _ & -> & _). done.
Qed.

(** The client at [a] is not marked, and is [d] up to what is queued for it. *)
Definition is_at (a : Z) (d : ClientData) w : Prop :=
  pub d <> u64 FAIL /\ exists d', w_heap w !! a = Some d' /\ but_writing d' = but_writing d.
Lemma still_at a d : still (is_at a d).
Proof.
  intros w w' [Hp (d1 & Hd1 & Hb1)] Hk. split; [done|]. pose proof (but_writing_eq _ _ Hb1) as (_ & _ & Hp1 & _).
  destruct (Hk a d1 Hd1) as (d2 & ? & ?); [by rw Hp1|]. exists d2. split; [done|congruence].
Qed.
Lemma kept_sounds (f : Z -> Prop) : kept (sounds f).
Proof. apply still_kept, still_sounds. Qed.
Lemma kept_at a d : kept (is_at a d).
Proof. apply still_kept, still_at. Qed.

Lemma rsafe_pre {A} P P' (p : prog S A) Q : kept P' -> (forall w, P' w -> P w) -> rsafe P p Q -> rsafe P' p Q.
Proof. intros Hk Hp. destruct p; intros [_ H]; (split; [done|]); naive_solver. Qed.

Lemma rsafe_done {A} P (a : A) (Q : A -> World S -> Prop) : kept P -> (forall w, P w -> Q a w) -> rsafe P (mret a) Q.
Proof. by split. Qed.

Lemma rsafe_post {A} P (p : prog S A) (Q Q' : A -> World S -> Prop) :
  rsafe P p Q -> (forall a w, Q a w -> Q' a w) -> rsafe P p Q'.
Proof.
  revert P. induction p as [a|T m k IH]; intros P [Hs Hp] HQ; (split; [done|]); [by auto|].
  intros X w Hi Hw. destruct (Hp X w Hi Hw) as [?|Hm]; [by left|right]. eapply wp_mono; [exact Hm|].
  intros x w' (? & ? & R & ? & Hr). split_and!; [done..|]. exists R. split; [done|]. by apply IH.
Qed.

Lemma rsafe_bind {A B} P (p : prog S A) (f : A -> prog S B) (R : A -> World S -> Prop) Q :
  rsafe P p R -> (forall a, rsafe (R a) (f a) Q) -> rsafe P (p ≫= f) Q.
Proof.
  revert P. induction p as [a|T m k IH]; intros P [Hs Hp] Hf; [by eapply (rsafe_pre (R a))|].
  split; [done|]. intros X w Hi Hw. destruct (Hp X w Hi Hw) as [?|Hm]; [by left|right]. eapply wp_mono; [exact Hm|].
  intros x w' (? & ? & R' & ? & Hr). split_and!; [done..|]. exists R'. split; [done|]. by apply IH.
Qed.

Lemma rsafe_act {A B} P (m : M (World S) A) (f : A -> prog S B) Q :
  kept P ->
  (forall X w, fine_inv X w -> P w -> wp false m w (fun x w' =>
     fine_inv X w' /\ wires_grow w w' /\ exists R, (R w' : Prop) /\ rsafe R (f x) Q)) ->
  rsafe P (act m ≫= f) Q.
Proof. intros HP Hm. split; [done|]. intros X w Hi Hw. right. by apply Hm. Qed.

(** An action that leaves the clients that are not marked alone. *)
Lemma rsafe_keep {A B} P (m : M (World S) A) (f : A -> prog S B) (F : A -> Prop) Q :
  kept P ->
  (forall X w, fine_inv X w -> P w -> wp false m w (fun x w' => fine_inv X w' /\ sound_kept w w' /\ F x)) ->
  (forall x, F x -> rsafe P (f x) Q) -> rsafe P (act m ≫= f) Q.
Proof.
  intros HP Hm Hf. apply rsafe_act; [done|]. intros X w Hi Hw. eapply wp_mono; [by apply Hm|].
  intros x w' (Hi' & Hk & HF). split_and!; [done|by apply sound_kept_grow|]. exists P. split; [by eapply HP|by apply Hf].
Qed.

Lemma rsafe_lift {A B} P (o : outcome A) (x : A) (f : A -> prog S B) Q :
  kept P -> o = Ret x -> rsafe P (f x) Q -> rsafe P (act (lift o) ≫= f) Q.
Proof.
  intros HP -> Hf. apply (rsafe_keep P _ f (eq x)); [done| |by intros ? <-].
  intros X w Hi _. by eapply wp_run.
Qed.

Lemma rsafe_absurd {A} P (p : prog S A) Q : kept P -> (forall w, ~ P w) -> rsafe P p Q.
Proof. intros HP Hno. destruct p as [a|T m k]; (split; [done|]); [intros w Hw|intros X w _ Hw]; by destruct (Hno w). Qed.

(** One program, many posts. *)
Lemma rsafe_all {A I} P (i0 : I) (p : prog S A) (Q : I -> A -> World S -> Prop) :
  (forall i, rsafe P p (Q i)) -> rsafe P p (fun a w => forall i, Q i a w).
Proof.
  assert (forall P : I -> World S -> Prop, (forall i, rsafe (P i) p (Q i)) ->
    rsafe (fun w => forall i, P i w) p (fun a w => forall i, Q i a w)) as Hall.
  { induction p as [a|T m k IH]; intros R Hr.
    - split; [intros w w' Hw Hk i; by eapply (proj1 (Hr i))|]. intros w Hw i. by apply (proj2 (Hr i)).
    - split; [intros w w' Hw Hk i; by eapply (proj1 (Hr i))|]. intros X w Hi Hw.
      destruct (proj2 (Hr i0) X w Hi (Hw i0)) as [?|H0]; [by left|right].
      destruct (wp_total _ _ _ H0) as (x & w' & Hrun & Hi' & Hg & _). eapply wp_run; [exact Hrun|]. split_and!; [done..|].
      exists (fun w => forall i, exists R, (R w : Prop) /\ rsafe R (k x) (Q i)). split.
      + intros i. destruct (proj2 (Hr i) X w Hi (Hw i)) as [[Hub _]|Hwp]; [by rw Hrun in Hub|].
        by destruct (wp_partial _ _ _ _ _ _ Hwp Hrun) as (_ & _ & ?).
      + apply (IH x (fun i w => exists R, (R w : Prop) /\ rsafe R (k x) (Q i))). intros i.
        assert (kept (fun w => exists R, (R w : Prop) /\ rsafe R (k x) (Q i))) as Hk.
        { intros w1 w2 (R1 & HR1 & Hr1) Hk. exists R1. split; [|done]. by destruct (k x); destruct Hr1 as [Hkept _]; eapply Hkept. }
        destruct (k x) as [b|T' m' k'] eqn:Hkx; (split; [done|]).
        * intros w1 (R1 & HR1 & _ & Hr1). by apply Hr1.
        * intros X1 w1 Hi1 (R1 & HR1 & _ & Hr1). by apply Hr1. }
  intros Hr. eapply rsafe_pre; [| |apply (Hall (fun _ => P)); exact Hr]; [|by intros w Hw i].
  specialize (Hr i0). by destruct p; destruct Hr.
Qed.

Lemma rsafe_exists {A D} (P : D -> World S -> Prop) (F : D -> Prop) (p : prog S A) Q :
  (forall d, kept (P d)) -> (forall d, F d -> rsafe (P d) p Q) -> rsafe (fun w => exists d, P d w /\ F d) p Q.
Proof.
  intros HP Hp.
  assert (kept (fun w => exists d, P d w /\ F d)) as Hk.
  { intros w w' (d & Hd & HF) Hw. exists d. split; [by eapply HP|done]. }
  destruct p as [a|T m k]; (split; [done|]).
  - intros w (d & Hd & HF). by apply (proj2 (Hp d HF)).
  - intros X w Hi (d & Hd & HF). by apply (proj2 (Hp d HF)).
Qed.

(** Reading a client that may be gone or marked, and one that is there. *)
Lemma rsafe_visit {B} P a (f : ClientData -> prog S B) Q :
  kept P ->
  (forall w d, P w -> w_heap w !! a = Some d -> pub d = u64 FAIL -> exists R, (R w : Prop) /\ rsafe R (f d) Q) ->
  (forall d, pub d <> u64 FAIL -> rsafe (fun w => P w /\ is_at a d w) (f d) Q) ->
  rsafe P (act (get_client a) ≫= f) Q.
Proof.
  intros HP Hfail Hok. split; [done|]. intros X w Hi Hw. destruct (w_heap w !! a) as [d|] eqn:Hd.
  - right. apply (wp_get_client _ _ _ d); [done|]. split_and!; [done|by apply sound_kept_grow|].
    destruct (decide (pub d = u64 FAIL)) as [Hp|Hp]; [by apply Hfail|].
    exists (fun w => P w /\ is_at a d w). split; [|by apply Hok]. split; [done|]. split; [done|]. by exists d.
  - left. unfold freed, get_client. rw Hd. split; [done|].
    exists (<[a := mkClient 0 None 0 [] 0 0 0 0 [] [] 0]> (w_heap w)). split; [by apply insert_subseteq|].
    simpl. by rw lookup_insert_eq.
Qed.

Lemma rsafe_get {B} P a d (f : ClientData -> prog S B) Q :
  kept P -> (forall w, P w -> is_at a d w) ->
  (forall d', but_writing d' = but_writing d -> client_inv d' -> rsafe P (f d') Q) ->
  rsafe P (act (get_client a) ≫= f) Q.
Proof.
  intros HP Ha Hf. apply (rsafe_keep P _ f (fun d' => but_writing d' = but_writing d /\ client_inv d')); [done| |by intros d' [? ?]; apply Hf].
  intros X w Hi Hw. destruct (Ha w Hw) as [_ (d' & Hd' & Hb)]. apply (wp_get_client _ _ _ d'); [done|].
  split_and!; [done..|]. by eapply fine_client.
Qed.
End logic.
#[export] Hint Resolve still_and still_sounds still_at kept_and kept_sounds kept_at : core.
#[export] Hint Immediate still_kept : core.

(** ** Deliveries *)

Section delivery.
Context {S : Type} `{!CacheModule S} `{!CacheModuleLaws S}.
Implicit Types (P : World S -> Prop) (w : World S) (X : gset Z).

(** The client at [a] does not want the message. *)
Definition passed (tn en : bytes) (a : Z) w : Prop := forall d, is_at a d w -> wants tn en d = false.

Lemma wants_but tn en d d' : but_writing d' = but_writing d -> wants tn en d' = wants tn en d.
Proof. intros (_ & Hn & Hp & _)%but_writing_eq. by rw /wants /cname Hn Hp. Qed.
Lemma is_at_passed tn en a d w : is_at a d w -> wants tn en d = false -> passed tn en a w.
Proof.
  intros [_ (d0 & Hd0 & Hb0)] Hw d1 [_ (d2 & Hd2 & Hb2)]. rw Hd0 in Hd2. injection Hd2 as <-.
  rw -Hw. apply wants_but. congruence.
Qed.
Lemma marked_passed tn en a d w : w_heap w !! a = Some d -> pub d = u64 FAIL -> passed tn en a w.
Proof.
  intros Hd Hp d1 [Hp1 (d2 & Hd2 & Hb2)]. rw Hd in Hd2. injection Hd2 as <-.
  pose proof (but_writing_eq _ _ Hb2) as (_ & _ & Hp2 & _). congruence.
Qed.

(** [P idx]: what holds when the entries [idx] are still to be visited.  A visit
    either passes over its client or sends it the message. *)
Lemma rsafe_visits (P : list nat -> World S -> Prop) msg tn en txt l index sent :
  (forall idx, kept (P idx)) -> msg_for msg tn en txt -> whole txt ->
  (forall k idx a w, l !! k = Some a -> P (k :: idx) w -> passed tn en a w -> P idx w) ->
  (forall k idx a d w w', l !! k = Some a -> P (k :: idx) w -> w_heap w !! a = Some d -> wants tn en d = true ->
     sent_to a d txt w w' -> P idx w') ->
  (forall k, k ∈ index -> (k < length l)%nat) ->
  rsafe (P index) (deliver_visits msg (bool_decide (tn = bs CMD_TO_ALL)) l index sent) (fun _ => P []).
Proof.
  intros HP Hm Hwh Hskip Hsend. revert sent. induction index as [|k index IH]; intros sent Hl; cbn [deliver_visits]; [by apply rsafe_done|].
  assert (forall sent, rsafe (P index) (deliver_visits msg (bool_decide (tn = bs CMD_TO_ALL)) l index sent) (fun _ => P [])) as Hrest0.
  { intros n. apply IH. intros j Hj. by apply Hl, list_elem_of_further. }
  destruct (entry_some l k) as (a & He & _); [by apply Hl, list_elem_of_here|].
  assert (l !! k = Some a) as Ha by (revert He; unfold entry; destruct (l !! k); [by intros [= ->]|done]).
  apply (rsafe_lift _ _ a); [done..|]. apply rsafe_visit; [done| |].
  { intros w d Hw Hd Hp. exists (P index). split; [by eapply Hskip, marked_passed|]. rw Hp. apply Hrest0. }
  intros d Hp. rw (proj2 (Z.eqb_neq _ _) (not_eq_sym Hp)). set (P' := fun w => P (k :: index) w /\ is_at a d w).
  assert (kept P') as HP' by by apply kept_and.
  assert (forall sent, wants tn en d = false -> rsafe P' (deliver_visits msg (bool_decide (tn = bs CMD_TO_ALL)) l index sent) (fun _ => P [])) as Hrest.
  { intros n Hno. eapply rsafe_pre; [done| |apply Hrest0]. intros w [Hw Hat]. by eapply Hskip, is_at_passed. }
  apply (rsafe_get _ a d); [done|by intros w []|]. intros d1 Hb1 Hd1.
  destruct (deliver_tests _ _ _ _ _ Hm Hd1) as (r1 & r2 & H1 & H2 & Hwant). rw (wants_but tn en _ _ Hb1) in Hwant.
  pose proof (but_writing_eq _ _ Hb1) as (_ & Hn1 & Hp1 & _). rw Hp1 (proj2 (Z.eqb_neq _ _) (not_eq_sym Hp)) in Hwant.
  apply (rsafe_lift _ _ r1); [done..|]. destruct (r1 =? SUCC); [by apply Hrest|]. simpl in Hwant.
  apply (rsafe_bind _ _ _ (fun hit w => P' w /\ hit = wants tn en d)).
  - rw Hwant. destruct (bool_decide (tn = bs CMD_TO_ALL)); [by apply rsafe_done|].
    apply (rsafe_get _ a d); [done|by intros w []|]. intros d2 Hb2 _.
    pose proof (but_writing_eq _ _ Hb2) as (_ & Hn2 & _). rw Hn1 in H2. rw Hn2.
    apply (rsafe_lift _ _ r2); [done..|]. by apply rsafe_done.
  - intros hit. destruct (wants tn en d) eqn:Hyes.
    2: { destruct hit; [|eapply rsafe_pre; [|by intros w [? _]|by apply Hrest]; by apply kept_and].
         apply rsafe_absurd; [by apply kept_and|by intros w [_ ?]]. }
    destruct hit; [|apply rsafe_absurd; [by apply kept_and|by intros w [_ ?]]].
    apply rsafe_act; [by apply kept_and|]. intros X w Hi [[Hw [_ (d3 & Hd3 & Hb3)]] _].
    pose proof (but_writing_eq _ _ Hb3) as (_ & _ & Hp3 & _).
    assert (a ∈ clients (w_server w)) as Hin by (eapply fine_member; [done..|by rw Hp3]).
    eapply wp_mono; [by apply (fine_send X w a d3 msg tn en txt)|]. intros r w' [Hi' Hs].
    split_and!; [done|by eapply sent_grows|]. exists (P index). split; [|apply Hrest0].
    eapply Hsend; [done..| |done]. by rw (wants_but tn en _ _ Hb3).
Qed.

Lemma rsafe_deliver P msg tn en txt :
  still P -> msg_for msg tn en txt -> whole txt -> rsafe P (deliver msg) (fun _ => P).
Proof.
  intros HP Hm Hwh. unfold deliver. pose proof (still_kept P HP) as HPk.
  apply (rsafe_keep _ _ _ (fun r => exists l, r = (Some l, zlen l))); [done| |].
  { intros X w Hi _. eapply wp_mono; [by apply fine_client_list|]. intros r w' (? & ? & -> & _). split_and!; [done..|]. by eexists. }
  intros r (l & ->). destruct (to_all_test _ _ _ _ Hm) as (r & Hr & Heq).
  apply (rsafe_lift _ _ r); [done..|]. rw Heq. eapply (rsafe_visits (fun _ => P)); [done..| | |by apply seq_length].
  - by intros.
  - intros k idx a d w w' _ Hw Hd _ Hs. by eapply HP, sent_still.
Qed.
End delivery.

(** ** The actions on one client *)

Section actions.
Context {S : Type} `{!CacheModule S} `{!CacheModuleLaws S}.
Context (heap_after : Z -> bytes).
Hypothesis heap_terminated : terminated heap_after.
Implicit Types (w : World S) (X : gset Z).

(** The client as it is: listed, with an open socket that brings protocol input. *)
Lemma is_at_now X w a d :
  fine_inv X w -> is_at a d w ->
  exists d0, w_heap w !! a = Some d0 /\ but_writing d0 = but_writing d /\ pub d0 <> u64 FAIL /\
    a ∈ clients (w_server w) /\ user_ok (w_fds w) d0.
Proof.
  intros Hi [Hp (d0 & Hd0 & Hb)]. pose proof (but_writing_eq _ _ Hb) as (_ & _ & Hp0 & _).
  assert (pub d0 <> u64 FAIL) as Hf by by rw Hp0. pose proof (fine_member X w a d0 Hi Hd0 Hf) as Hin.
  exists d0. split_and!; [done..|]. by apply (us_user _ _ _ (iv_users _ (fv_server _ Hi)) a).
Qed.

Lemma is_at_put (w : World S) a d : w_heap w !! a = Some d -> pub d <> u64 FAIL -> is_at a d w.
Proof. intros Hd Hp. split; [done|]. by exists d. Qed.

(** Taking a line out of the reading buffer of [d]: [c] is what was taken. *)
Definition took (a : Z) (d : ClientData) (r : Z * option bytes) (c : bytes) (rb : InnerBuffer) w w' : Prop :=
  contents (reading_buffer d) = c ++ contents rb /\ line_found r.1 r.2 c rb /\
  (forall l, r.2 = Some (l ++ [nl]) -> (0 <? r.1) = true -> line_safe l) /\
  exists d0, w_heap w !! a = Some d0 /\ but_writing d0 = but_writing d /\
    w_heap w' = <[a := set_reading rb 0 d0]> (w_heap w) /\ w_fds w' = w_fds w.

Lemma fine_fetch_msg X w a d :
  fine_inv X w -> is_at a d w ->
  wp false (fetch_msg heap_after a) w (fun r w' => fine_inv X w' /\ wires_grow w w' /\
    exists c rb, took a d r c rb w w').
Proof.
  intros Hi Ha. destruct (is_at_now X w a d Hi Ha) as (d0 & Hd0 & Hb & Hp0 & Hin & [Hnm Hsk (x & Hx & _ & _ & Hpr & _)]).
  pose proof (but_writing_eq _ _ Hb) as (_ & _ & _ & Hrb).
  eapply wp_mono; [apply (fetch_msg_at heap_after heap_terminated X w a d0); [apply Hi|done]|].
  intros [sz om] w' (Hw & (Hf & Hn & Hs) & rb & Hh & Hm). cbv zeta in Hm.
  destruct (fetched_line _ _ _ _ _ eq_refl Hm) as (c & Hc & _ & Hl).
  assert (protocol (c ++ contents rb ++ fd_in x)) as Hpc by (by rw app_assoc -Hc).
  assert (protocol (contents rb ++ fd_in x)) as Hpr'.
  { unfold line_found in Hl. destruct (0 <? sz); [|by destruct Hl as (-> & _)]. destruct Hl as (l & _ & -> & _).
    rw -app_assoc in Hpc. by eapply protocol_drop. }
  split_and!.
  - apply (fine_update X w w' a d0 (set_reading rb 0 d0)); try done; [by intros id _; rw Hf|].
    apply user_step_fd; [done|done|]. intros y Hy Hyr Hyw _. rw Hx in Hy. injection Hy as <-. exists x. rw Hf.
    split_and!; try done. simpl. rw Hc zlen_app. pose proof (zlen_nonneg c). lia.
  - apply (insert_grows X w w' a d0 (set_reading rb 0 d0)); try done; [by intros id _; rw Hf|]. by rw /wire Hf.
  - exists c, rb. split_and!; [by rw -Hrb|done| |by exists d0]. cbn [fst snd]. intros l -> Hsz.
    unfold line_found in Hl. rw Hsz in Hl. destruct Hl as (l' & [= Heq] & -> & Hnl & _). apply app_inj_tail in Heq as [<- _].
    rw -app_assoc in Hpc. by eapply protocol_line.
Qed.

(** A line that was fetched. *)
Definition next_line (d : ClientData) (r : Z * option bytes) (d' : ClientData) : Prop :=
  ((0 <? r.1) = true -> exists l, r.2 = Some (l ++ [nl]) /\ line_text l /\ line_safe l) /\
  zlen (contents (reading_buffer d')) + (if 0 <? r.1 then 1 else 0) <= zlen (contents (reading_buffer d)).

Lemma line_found_less sz om c rb : line_found sz om c rb -> (if 0 <? sz then 1 else 0) <= zlen c.
Proof.
  unfold line_found. pose proof (zlen_nonneg c). destruct (0 <? sz); [|done]. intros (l & _ & -> & _).
  rw zlen_app. change (zlen [nl]) with 1. pose proof (zlen_nonneg l). lia.
Qed.

Lemma took_next a d r c rb w w' :
  pub d <> u64 FAIL -> took a d r c rb w w' -> exists d', is_at a d' w' /\ next_line d r d'.
Proof.
  intros Hp (Hc & Hl & Hsafe & d0 & Hd0 & Hb & Hh & _). pose proof (but_writing_eq _ _ Hb) as (_ & _ & Hp0 & _).
  exists (set_reading rb 0 d0). split; [by apply is_at_put; [rw Hh lookup_insert_eq|rw -Hp0 in Hp]|]. split.
  - intros Hsz. pose proof Hl as Hl'. unfold line_found in Hl'. rw Hsz in Hl'. destruct Hl' as (l & Hr & _ & ? & ?).
    exists l. split_and!; [done..|]. by apply Hsafe.
  - apply line_found_less in Hl. simpl. rw Hc zlen_app. lia.
Qed.

Lemma fine_fetch_next X w a d :
  fine_inv X w -> is_at a d w ->
  wp false (fetch_msg heap_after a) w (fun r w' => fine_inv X w' /\ wires_grow w w' /\
    exists d', is_at a d' w' /\ next_line d r d').
Proof.
  intros Hi Ha. eapply wp_mono; [by apply fine_fetch_msg|]. intros r w' (? & ? & c & rb & Ht). split_and!; [done..|].
  by eapply took_next, Ht; destruct Ha.
Qed.

Lemma fine_fetch X w a d :
  fine_inv X w -> is_at a d w ->
  wp false (fetch a) w (fun _ w' => fine_inv X w' /\ wires_grow w w' /\ exists d', is_at a d' w' /\ True).
Proof.
  intros Hi Ha. destruct (is_at_now X w a d Hi Ha) as (d0 & Hd0 & _ & Hp0 & Hin & [Hnm Hsk (x & Hx & Hr & Hw & Hpr & Hz)]).
  eapply wp_mono; [by apply (fetch_at X w a d0 x); [apply Hi|..]|].
  intros r w1 (Hw1 & Hn1 & Hs1 & _ & rb & Hh1 & Hc1 & _ & _ & x' & Hf1 & Hin' & Hr' & Hout & Hwp).
  assert (forall id, id <> socket_id d0 -> w_fds w1 !! id = w_fds w !! id) as Hoth by (intros id Hne; by rw Hf1 lookup_insert_ne).
  split_and!.
  - apply (fine_update X w w1 a d0 (set_reading rb 0 d0)); try done.
    apply user_step_fd; [done|done|]. intros y Hy _ _ _. rw Hx in Hy. injection Hy as <-.
    exists x'. rw Hf1 lookup_insert_eq /= Hc1 Hin' app_nil_r zlen_app zlen_nil. split_and!; try done; [|lia].
    unfold writes_succeed. by rw Hwp.
  - apply (insert_grows X w w1 a d0 (set_reading rb 0 d0)); try done. by rw /wire Hf1 lookup_insert_eq Hx /= Hout.
  - exists (set_reading rb 0 d0). split; [|done]. by apply is_at_put; [rw Hh1 lookup_insert_eq|].
Qed.

Lemma fine_mark X w a d :
  fine_inv X w -> is_at a d w -> wp false (mark_failed a) w (fun _ w' => fine_inv X w' /\ wires_grow w w').
Proof.
  intros Hi Ha. destruct (is_at_now X w a d Hi Ha) as (d0 & Hd0 & _ & _ & Hin & _).
  pose proof Hi as [Hsv Hnm Hmk]. destruct (wp_total _ _ _ (mark_failed_inv w a Hsv Hin)) as ([] & w' & Hrun & Hsv' & Hs).
  eapply wp_run; [exact Hrun|]. revert Hrun. unfold mark_failed, mbind, M_bind, get_client. rw Hd0. intros [= <-].
  split; [|by apply (insert_grows X w _ a d0 (set_pub FAIL d0))].
  constructor; [done| |]; intros b db; simpl; intros [[<- <-]|[_ Hdb]]%lookup_insert_Some.
  - by apply (Hnm a d0).
  - by eapply Hnm.
  - done.
  - by apply (Hmk b).
Qed.

Lemma renamed_keeps c d d1 : renamed c d d1 ->
  socket_id d1 = socket_id d /\ pub d1 = pub d /\ reading_buffer d1 = reading_buffer d /\
  writing_buffer d1 = writing_buffer d.
Proof. destruct c; simpl; [intros (arr & -> & _)|intros ->..]; done. Qed.
Lemma renamed_name l d d1 : nl ∉ l -> renamed (parse_line l) d d1 -> nl ∉ cname d -> nl ∉ cname d1.
Proof.
  intros Hl. unfold parse_line. destruct (is_prefix (bs CMD_LOGIN) l).
  - intros (arr & -> & _ & Harr) _. unfold cname. simpl. rw Harr. by intros ?%elem_of_take_in%elem_of_drop_in.
  - intros Hr. assert (d1 = d) as ->; [|done]. by repeat case_match.
Qed.

(** Every message is one line. *)
Lemma command_whole sender l tn en txt :
  (nl ∉ sender) -> (nl ∉ l) -> command_message sender (parse_line l) = Some (tn, en, txt) -> whole txt.
Proof.
  intros Hs Hl. assert (forall text, (nl ∉ text) -> whole (p2p_text sender text)) as Hp.
  { intros text Ht. unfold p2p_text. eexists. rw !app_assoc. split; [done|]. rw !not_elem_of_app.
    split_and!; try done; by apply (bool_decide_unpack _); vm_compute. }
  unfold parse_line. destruct (is_prefix (bs CMD_LOGIN) l).
  { intros [= <- <- <-]. apply notice_whole; [by intros ?%elem_of_take_in%elem_of_drop_in|by apply (bool_decide_unpack _); vm_compute]. }
  destruct (is_prefix (bs CMD_TO_ALL) l).
  { destruct (8 <=? zlen l); [|done]. intros [= <- <- <-]. apply Hp. by intros ?%elem_of_drop_in. }
  destruct (is_prefix (bs CMD_TO_C) l); [|done]. destruct (colon l); [|done]. destruct (_ <=? _); [|done].
  intros [= <- <- <-]. apply Hp. by intros ?%elem_of_drop_in.
Qed.

(** The client at [a] is renamed if the line is a login, and the message is the one
    that the line asks for. *)
Definition redirects (a : Z) (d : ClientData) (l : bytes) (om : option Msg) (w w' : World S) : Prop :=
  exists d0 d1, w_heap w !! a = Some d0 /\ but_writing d0 = but_writing d /\ renamed (parse_line l) d0 d1 /\
    w_heap w' = <[a := d1]> (w_heap w) /\ w_fds w' = w_fds w /\
    match command_message (cname d) (parse_line l) with
    | Some (tn, en, txt) => exists m, om = Some m /\ msg_for m tn en txt /\ whole txt
    | None => om = None
    end.

Lemma fine_redirect X w a d l after :
  fine_inv X w -> is_at a d w -> line_text l -> line_safe l -> nul ∈ after ->
  wp false (redirect heap_after a (l ++ [nl]) after) w (fun om w' => fine_inv X w' /\ wires_grow w w' /\
    redirects a d l om w w').
Proof.
  intros Hi Ha [Hnl Hnul] (Hlen & Hbey & Hto) Haft.
  destruct (is_at_now X w a d Hi Ha) as (d0 & Hd0 & Hb & Hp0 & Hin & _).
  pose proof (but_writing_eq _ _ Hb) as (_ & Hname & _ & Hrb).
  assert (cname d = cname d0) as Hcn by by rw /cname Hname.
  eapply wp_mono; [by apply (redirect_spec heap_after X w a d0 l after); [apply Hi|apply Hi|..]|].
  intros om w' (Hw & (Hf & Hn & Hs) & d1 & Hren & Hh & Hm).
  destruct (renamed_keeps _ _ _ Hren) as (Hsk & Hp & Hrd & Hwb). split_and!.
  - apply (fine_update X w w' a d0 d1); try done; [by intros id _; rw Hf| |by apply (renamed_name l)].
    apply user_step_fd; [done|by apply (renamed_name l)|]. intros x Hx Hxr Hxw Hxp. exists x. rw Hf Hrd. by split_and!.
  - apply (insert_grows X w w' a d0 d1); try done; [by intros id _; rw Hf|]. by rw /wire Hf Hsk Hwb.
  - exists d0, d1. split_and!; try done. rw Hcn.
    destruct (command_message _ _) as [[[tn en] txt]|] eqn:Hc; [|done]. destruct Hm as (m & -> & Hm).
    exists m. split_and!; [done..|]. eapply command_whole, Hc; [|done]. by eapply (fv_names _ Hi).
Qed.
End actions.

(** ** The programs *)

Section programs.
Context {S : Type} `{!CacheModule S} `{!CacheModuleLaws S}.
Context (heap_after : Z -> bytes) (behind : nat -> bytes).
Hypothesis heap_terminated : terminated heap_after.
Hypothesis behind_terminated : forall i, nul ∈ behind i.
Implicit Types (w : World S) (X : gset Z).

#[local] Hint Resolve keeps_fetch keeps_fetch_msg keeps_login : pres.

(** The clients of [f] are not marked, and the one at [a] is [d]. *)
Definition reading (f : Z -> Prop) (a : Z) (d : ClientData) w : Prop := sounds f w /\ is_at a d w.
Lemma reading_still f a d : still (reading f a d).
Proof. by apply still_and. Qed.
Lemma reading_kept f a d : kept (reading f a d).
Proof. apply still_kept, reading_still. Qed.
#[local] Hint Resolve reading_still reading_kept : core.

(** An action on the client that is being handled. *)
Lemma rsafe_on {A B} f a d (m : M (World S) A) (k : A -> prog S B) (F : A -> ClientData -> Prop) Q :
  pres (keeps_but None) m ->
  (forall X w, fine_inv X w -> is_at a d w ->
     wp false m w (fun x w' => fine_inv X w' /\ wires_grow w w' /\ exists d', is_at a d' w' /\ F x d')) ->
  (forall x d', F x d' -> rsafe (reading f a d') (k x) Q) -> rsafe (reading f a d) (act m ≫= k) Q.
Proof.
  intros Hk Hm Hf. apply rsafe_act; [done|]. intros X w Hi [Hw Ha].
  destruct (wp_total _ _ _ (Hm X w Hi Ha)) as (x & w' & Hrun & Hi' & Hg & d' & Ha' & HF).
  eapply wp_run; [exact Hrun|]. split_and!; [done..|]. exists (reading f a d'). split; [|by apply Hf].
  split; [|done]. intros b Hb. apply (keeps_sound None w w'); [by eapply Hk|done|by apply Hw].
Qed.

Lemma rsafe_bump P : kept P -> rsafe (S := S) P (act bump_sign) (fun _ => P).
Proof.
  intros HP. apply (rsafe_keep P bump_sign Done (fun _ => True)); [done| |].
  - intros X w Hi _. eapply wp_mono; [by apply fine_bump|]. by intros ? ? [? ?].
  - intros x _. by apply rsafe_done.
Qed.

Lemma rsafe_handle f a d l after :
  line_text l -> line_safe l -> nul ∈ after ->
  rsafe (reading f a d) (handle heap_after a (l ++ [nl]) after)
    (fun _ w => exists d', reading f a d' w /\ reading_buffer d' = reading_buffer d).
Proof.
  intros Hl Hs Haft. unfold handle.
  apply (rsafe_on _ _ _ _ _ (fun om d' => reading_buffer d' = reading_buffer d /\
    forall m, om = Some m -> exists tn en txt, msg_for m tn en txt /\ whole txt)).
  - apply pres_redirect; eauto with pres.
  - intros X w Hi Ha. eapply wp_mono; [by apply (fine_redirect heap_after X w a d l)|].
    intros om w' (? & ? & d0 & d1 & Hd0 & Hb & Hren & Hh & _ & Hm). split_and!; [done..|]. exists d1.
    destruct (renamed_keeps _ _ _ Hren) as (_ & Hp & Hrd & _). pose proof (but_writing_eq _ _ Hb) as (_ & _ & Hp0 & Hrb).
    split_and!; [apply is_at_put; [by rw Hh lookup_insert_eq|rw Hp Hp0; by destruct Ha]|congruence|].
    intros m ->. destruct (command_message _ _) as [[[tn en] txt]|]; [|done]. destruct Hm as (m' & [= <-] & ? & ?).
    by exists tn, en, txt.
  - intros om d' [Hrb Hm].
    assert (forall (n : Z) w, reading f a d' w -> exists d1, reading f a d1 w /\ reading_buffer d1 = reading_buffer d) as Hpost
      by (intros _ w Hw; by exists d').
    destruct om as [m|]; [|apply rsafe_done; [done|by apply (Hpost 0)]].
    destruct (Hm m eq_refl) as (tn & en & txt & Hmsg & Hwh). eapply rsafe_post; [by eapply rsafe_deliver|exact Hpost].
Qed.

Lemma rsafe_handle_msgs f a fuel : forall i d n om need,
  ((0 <? n) = true -> exists l, om = Some (l ++ [nl]) /\ line_text l /\ line_safe l) ->
  zlen (contents (reading_buffer d)) + (if 0 <? n then 1 else 0) < Z.of_nat fuel ->
  rsafe (reading f a d) (handle_msgs heap_after behind fuel a i n om need) (fun _ => sounds f).
Proof.
  induction fuel as [|fuel IH]; intros i d n om need Hl Hz; cbn [handle_msgs].
  { pose proof (zlen_nonneg (contents (reading_buffer d))). destruct (0 <? n); lia. }
  destruct (0 <? n) eqn:Hn; [|by apply rsafe_done; [|intros w []]].
  destruct (Hl eq_refl) as (l & -> & Hlt & Hls).
  eapply rsafe_bind; [by apply rsafe_handle|]. intros r. cbv beta.
  apply rsafe_exists; [done|]. intros d1 Hd1.
  apply (rsafe_on _ _ _ _ _ (next_line d1)); [eauto with pres|by intros X w Hi Ha; apply fine_fetch_next|].
  intros [n2 om2] d2 [Hl2 Hz2]. cbn [fst snd] in Hl2, Hz2. apply IH; [done|]. rw Hd1 in Hz2. lia.
Qed.

Lemma rsafe_try f a d :
  rsafe (reading f a d) (try_to_handle heap_after behind a) (fun _ => sounds f).
Proof.
  unfold try_to_handle. apply (rsafe_get _ a d); [done|by intros w []|]. intros d0 Hb Hci. cbv zeta.
  pose proof (but_writing_eq _ _ Hb) as (_ & _ & _ & Hrb). pose proof (ci_size _ Hci).
  pose proof (zlen_nonneg (contents (reading_buffer d0))).
  rw buffer_size_spec; [apply shape_all, (ci_reading _ Hci)|lia|].
  apply (rsafe_on _ _ _ _ _ (next_line d)); [eauto with pres|by intros X w Hi Ha; apply fine_fetch_next|].
  intros [n om] d1 [Hl Hz]. cbn [fst snd] in Hl, Hz. rw -Hrb in Hz.
  eapply rsafe_bind; [apply rsafe_handle_msgs; [done|destruct (0 <? n); lia]|]. intros need. cbv beta.
  destruct (need =? 0); [by apply rsafe_done|by apply rsafe_bump].
Qed.

Lemma rsafe_mark (f g : Z -> Prop) a d :
  (forall b, g b -> f b /\ b <> a) -> rsafe (S := S) (reading f a d) (act (mark_failed a)) (fun _ => sounds g).
Proof.
  intros Hg. apply (rsafe_act _ (mark_failed a) Done); [done|]. intros X w Hi [Hw Ha].
  destruct (wp_total _ _ _ (fine_mark X w a d Hi Ha)) as (x & w' & Hrun & Hi' & Hgr).
  eapply wp_run; [exact Hrun|]. split_and!; [done..|]. exists (sounds g). split; [|by apply rsafe_done].
  apply mark_run in Hrun as [Hk _]. intros b [Hb Hne]%Hg. apply (keeps_sound _ _ _ Hk); [congruence|by apply Hw].
Qed.

Lemma rsafe_entry (g : Z -> Prop) fd a revents : ~ g a ->
  rsafe (sounds (fun b => fd <> -1 /\ b = a \/ g b)) (read_entry heap_after behind (fd, a) revents) (fun _ => sounds g).
Proof.
  intros Hn. unfold read_entry. set (f := fun b => _ \/ g b).
  assert (forall w, sounds f w -> sounds g w) as Hfg by (intros w Hw b Hb; apply Hw; by right).
  destruct (Z.eqb_spec fd (-1)) as [|Hfd]; [by apply rsafe_done|].
  assert (f a) as Ha by by left. assert (forall b, g b -> f b /\ b <> a) as Hg.
  { intros b Hb. split; [by right|]. by intros ->. }
  apply rsafe_act; [done|]. intros X w Hi Hw. destruct (Hw a Ha) as (d & Hd & Hp).
  apply (wp_get_client _ _ _ d); [done|]. split_and!; [done|by apply sound_kept_grow|]. exists (reading f a d).
  split; [split; [done|by apply is_at_put]|].
  assert (forall d', rsafe (reading f a d') (mret tt) (fun _ => sounds g)) as Hskip.
  { intros d'. apply rsafe_done; [done|]. intros w1 [Hw1 _]. by apply Hfg. }
  destruct (negb _); [apply Hskip|]. destruct (revents =? 0); [apply Hskip|].
  destruct (negb _); [|by apply rsafe_mark].
  apply (rsafe_on _ _ _ _ _ (fun _ _ => True)); [eauto with pres|by intros X1 w1 Hi1 Ha1; eapply fine_fetch|].
  intros r d1 _. cbv zeta. destruct (i32 r =? 0); [by apply rsafe_mark|].
  eapply rsafe_post; [apply rsafe_try|]. intros []. apply Hfg.
Qed.

Lemma rsafe_entries l revents index :
  NoDup (snd <$> l) -> NoDup index -> (forall k, k ∈ index -> (k < length l)%nat) ->
  rsafe (sounds (pending l index)) (read_entries heap_after behind l revents index) (fun _ _ => True).
Proof.
  intros Hl. induction index as [|k index IH]; intros Hi Hlen; cbn [read_entries]; [by apply rsafe_done|].
  apply NoDup_cons in Hi as [Hk Hi]. destruct (entry_some l k) as ([fd a] & He & _); [by apply Hlen, list_elem_of_here|].
  assert (l !! k = Some (fd, a)) as Ha by (revert He; unfold entry; destruct (l !! k); [by intros [= ->]|done]).
  apply (rsafe_lift _ _ (fd, a)); [done..|].
  eapply rsafe_bind; [eapply rsafe_pre; [done| |apply (rsafe_entry (pending l index))]|intros []; apply IH; [done|]].
  - intros w Hw b [[Hfd ->]|(j & fd' & Hj & Hb & Hfd)]; apply Hw.
    + exists k, fd. split_and!; [apply list_elem_of_here|done..].
    + exists j, fd'. split_and!; [by apply list_elem_of_further|done..].
  - intros (j & fd' & Hj & Hb & _). assert (j = k) as ->; [|done].
    eapply (NoDup_lookup (snd <$> l)); [done|rw list_lookup_fmap Hb //|rw list_lookup_fmap Ha //].
  - intros j Hj. by apply Hlen, list_elem_of_further.
Qed.

Lemma rsafe_prints P l : kept P -> rsafe (S := S) P (debug_prints l) (fun _ => P).
Proof.
  intros HP. induction l as [|[fd a] l IH]; [by apply rsafe_done|]. cbn [debug_prints].
  apply rsafe_visit; [done|by intros w d Hw _ _; exists P|]. intros d _. eapply rsafe_pre; [by apply kept_and| |exact IH]. by intros w [].
Qed.

Lemma rsafe_read_turn poll : rsafe (fun _ => True) (read_turn heap_after behind poll) (fun _ _ => True).
Proof.
  assert (kept (S := S) (fun _ => True)) as HT by done.
  unfold read_turn. apply rsafe_act; [done|]. intros X w Hi _.
  destruct (wp_total _ _ _ (polling_spec w (fv_server _ Hi))) as (r & w' & Hrun & e & -> & He & _ & Hw & Hr & Hh).
  eapply wp_run; [exact Hrun|]. apply polling_list_spec in Hrun as (_ & _ & Hlive).
  split; [by eapply fine_same|]. split; [by apply sound_kept_grow, heap_sound_kept; [|apply Hr]|]. pose proof (so_nodup _ (iv_server _ (fv_server _ Hi))) as Hnd. rw -He in Hnd.
  set (n := zlen (clients (w_server w))) in *.
  exists (sounds (pending e (seq 0 (Z.to_nat n)))). split.
  { intros a (k & fd & _ & Hk%list_elem_of_lookup_2 & Hfd). destruct (Hlive fd a Hk Hfd) as (d & ? & Hp). exists d. by rw Hp. }
  eapply rsafe_bind; [by apply rsafe_prints|]. intros []. cbv beta. destruct (poll (fst <$> e)) as [ret revents].
  eapply (rsafe_bind _ _ _ (fun _ _ => True)).
  - destruct (_ || _); [by apply rsafe_done|]. apply rsafe_entries; [done|apply NoDup_seq|].
    intros k. unfold n. rw -He. intros Hk%seq_length. by rw length_fmap in Hk.
  - intros []. apply (rsafe_keep _ _ _ (fun _ => True)); [done| |].
    + intros X1 w1 Hi1 _. apply wp_server. split_and!; [done..|]. done.
    + intros i _. by apply rsafe_done.
Qed.
End programs.
