(* ===== verification/FineTheorems.v ===== *)
(** * The server is sound between any two actions

    The invariant of the server and the progress of its threads along every
    interleaving of their single actions. *)
From Stdlib Require Import Strings.Byte String.
From stdpp Require Import relations.
From S2P Require Import Prelude CLib Alloc Cache Locks Buffer Message ClientInfo Server ServerSpec ServerLoop ServerTurns ServerRun.
From S2P Require Import BufferTheorems ClientTheorems ServerTheorems Threads ThreadTheorems Interleave InterleaveTheorems ReaderTheorems FineInv FineWriter FineReader.

Section moves.
Context {S : Type} `{!CacheModule S} `{!CacheModuleLaws S}.
Context (heap_after : Z -> bytes) (behind : nat -> bytes).

(** The moves of Interleave.v, with the peers, the kernel and the sizes as in
    [admissible] of ServerRun.v. *)
Inductive admissible_move : threads -> threads -> Prop :=
| am_listen w r v id f peer now w' :
    admissible w (EListen id f peer now) -> handle_listen_turn id f peer now 0 0 w = Ret (tt, w') ->
    admissible_move (mkThreads w r v) (mkThreads w' r v)
| am_data w r v id f data :
    w_fds w !! id = Some f -> admissible w (EData id data) ->
    admissible_move (mkThreads w r v) (mkThreads (set_fds (<[id := receive data f]> (w_fds w)) w) r v)
| am_read w r v r' w' :
    ~ finished r -> pstep r w = Ret (r', w') -> admissible_move (mkThreads w r v) (mkThreads w' r' v)
| am_read_turn w v poll :
    admissible_move (mkThreads w (Done true) v) (mkThreads w (read_turn heap_after behind poll) v)
| am_write w r v v' w' :
    admissible w EWrite -> ~ finished v -> pstep v w = Ret (v', w') ->
    admissible_move (mkThreads w r v) (mkThreads w' r v')
| am_write_turn w r :
    admissible_move (mkThreads w r (Done true)) (mkThreads w r (write_turn heap_after)).

Lemma admissible_is_move x y : admissible_move x y -> move heap_after behind x y.
Proof.
  destruct 1; [|by eapply m_data|by apply m_read|by apply m_read_turn|by apply m_write|by apply m_write_turn].
  eapply m_listen; [|done]. by destruct H as (_ & ? & _).
Qed.
End moves.

Section theorems.
Context {S : Type} `{!CacheModule S} `{!CacheModuleLaws S}.
Context (heap_after : Z -> bytes) (behind : nat -> bytes).
Hypothesis heap_terminated : terminated heap_after.
Hypothesis behind_terminated : forall i, nul ∈ behind i.
Abbreviation admissible_move := (admissible_move (S := S) heap_after behind).

(** [R] and [P] are what the reading and the writing thread know. *)
Record fine (x : threads (S := S)) : Prop := {
  fn_confined : confined x;
  fn_state : exists X R P, fine_inv X (t_world x) /\
    ((R (t_world x) : Prop) /\ rsafe R (t_reader x) (fun _ _ => True)) /\
    ((P (t_world x) : Prop) /\ wsafe X P (t_writer x) ∅ (fun _ _ => True));
}.

Lemma rsafe_stays R (p : prog S bool) Q w w' : rsafe R p Q -> R w -> sound_kept w w' -> R w'.
Proof. intros Hp Hw Hs. destruct p; destruct Hp as [Hk _]; by eapply Hk. Qed.
Lemma wsafe_stays X P (p : prog S bool) Y Q w w' :
  wsafe X P p Y Q -> P w -> others w w' -> marks_stay w w' -> P w'.
Proof. intros Hp Hw Ho Hm. destruct p; destruct Hp as [Hk _]; by eapply Hk. Qed.

(** A step of the listening thread or of a peer. *)
Lemma fine_outside w w' r v :
  fine (mkThreads w r v) -> confined (mkThreads w' r v) -> (forall X, fine_inv X w -> fine_inv X w' /\ sound_kept w w') ->
  others w w' -> marks_stay w w' -> fine (mkThreads w' r v).
Proof.
  intros [_ (X & R & P & Hi & [HR Hr] & [HP Hw])] Hc Hf Ho Hm. destruct (Hf X Hi) as [Hi' Hk]. constructor; [done|].
  exists X, R, P. split_and!; [done|by eapply rsafe_stays|done|by eapply wsafe_stays|done].
Qed.

Lemma admissible_move_fine x y : admissible_move x y -> fine x -> fine y.
Proof.
  intros Hm Hx. pose proof Hx as [Hc (X & R & P & Hi & [HR Hr] & [HP Hw])].
  pose proof (inv_listed _ (cf_inv _ Hc)) as Hl.
  pose proof (move_confined _ _ _ _ (admissible_is_move _ _ _ _ Hm) Hc) as Hc'. destruct Hm; simpl in *.
  - destruct (listen_stays _ _ _ _ _ _ _ _ Hl H0) as [Hms _].
    eapply fine_outside; [exact Hx|done|intros Y HY; by eapply fine_listen|eapply listen_others; [done|by destruct H as (_ & ? & _)|done]|done].
  - assert (<[id := receive data f]> (w_fds w) = alter (receive data) id (w_fds w)) as Hf.
    { apply map_eq. intros i. destruct (decide (i = id)) as [->|Hne]; [by rw lookup_insert_eq lookup_alter_eq H|].
      by rw lookup_insert_ne // lookup_alter_ne. }
    eapply fine_outside; [exact Hx|done| | |by intros a ?].
    + intros Y HY. rw Hf. split; [by apply fine_data|by apply data_sound_kept].
    + apply others_fds; try done. simpl. intros i Hid.
      destruct (decide (i = id)) as [->|?]; [by rw lookup_insert_eq|by rw lookup_insert_ne].
  - destruct r as [|T m k]; [done|]. constructor; [done|]. revert H0. simpl.
    destruct (m w) as [[z w1]| |] eqn:Hz; [|done..]. intros [= <- <-].
    destruct Hr as [_ Hr]. destruct (Hr X w Hi HR) as [[Hub _]|Hwp]; [by rw Hub in Hz|].
    destruct (wp_partial _ _ _ _ _ _ Hwp Hz) as (Hi1 & _ & R1 & HR1 & Hr1).
    exists X, R1, P. split; [done|]. split; [done|]. split; [|done].
    destruct Hc as [[Ha _] (P0 & HP0 & _ & _ & Hreads) _]. destruct Ha as [Ha _].
    destruct (Hreads w z w1 Hl HP0 Hz) as [Hms _].
    eapply wsafe_stays; [done..| |done]. apply alike_others; [by eapply Ha|done].
  - constructor; [done|]. exists X, (fun _ => True), P. split_and!; try done. by apply rsafe_read_turn.
  - destruct v as [|T m k]; [done|]. constructor; [done|]. revert H1. simpl.
    destruct (m w) as [[z w1]| |] eqn:Hz; [|done..]. intros [= <- <-].
    destruct Hw as [_ Hw]. destruct (wp_partial _ _ _ _ _ _ (Hw w Hi H HP) Hz) as (Hk & Z1 & P1 & Hi1 & HP1 & Hw1).
    exists Z1, R, P1. split_and!; try done. by eapply rsafe_stays.
  - constructor; [done|]. destruct Hw as [_ [-> _]]. exists ∅, R, (fun _ => True). split_and!; try done.
    apply wsafe_write_turn.
Qed.

(** What every move does to the clients that are not marked. *)
Lemma admissible_move_grows x y :
  admissible_move x y -> fine x -> wires_grow (t_world x) (t_world y) /\ marks_stay (t_world x) (t_world y).
Proof.
  intros Hm [Hc (X & R & P & Hi & [HR Hr] & [HP Hw])]. pose proof (inv_listed _ (cf_inv _ Hc)) as Hl.
  destruct Hm; simpl in *.
  - destruct (listen_stays _ _ _ _ _ _ _ _ Hl H0) as [Hms _]. split; [|done].
    by eapply sound_kept_grow, fine_listen.
  - split; [|by intros a ?]. apply sound_kept_grow, outs_sound_kept; [done|]. intros a d _ _. simpl.
    destruct (decide (socket_id d = id)) as [->|Hne]; [by rw lookup_insert_eq H|by rw lookup_insert_ne].
  - destruct r as [|T m k]; [done|]. revert H0. simpl. destruct (m w) as [[z w1]| |] eqn:Hz; [|done..]. intros [= <- <-].
    destruct Hr as [_ Hr]. destruct (Hr X w Hi HR) as [[Hub _]|Hwp]; [by rw Hub in Hz|].
    destruct (wp_partial _ _ _ _ _ _ Hwp Hz) as (_ & Hg & _). split; [done|].
    destruct (cf_reader _ Hc) as (P0 & HP0 & _ & _ & Hreads). by destruct (Hreads w z w1 Hl HP0 Hz).
  - split; [by apply sound_kept_grow|by intros a ?].
  - destruct v as [|T m k]; [done|]. revert H1. simpl. destruct (m w) as [[z w1]| |] eqn:Hz; [|done..]. intros [= <- <-].
    destruct Hw as [_ Hw]. destruct (wp_partial _ _ _ _ _ _ (Hw w Hi H HP) Hz) as (Hk & _).
    split; [by apply sound_kept_grow|]. destruct (cf_writer _ Hc) as (P0 & HP0 & _ & Hg). by destruct (Hg w z w1 Hl HP0 Hz).
  - split; [by apply sound_kept_grow|by intros a ?].
Qed.

Lemma moves_fine x y : rtc admissible_move x y -> fine x -> fine y.
Proof. induction 1 as [|x y z Hxy _ IH]; [done|]. intros Hx. by eapply IH, admissible_move_fine. Qed.

Lemma moves_marks x y : rtc admissible_move x y -> fine x -> marks_stay (t_world x) (t_world y).
Proof.
  induction 1 as [|x y z Hxy _ IH]; [by intros _ a ?|]. intros Hx a Ha.
  destruct (admissible_move_grows x y Hxy Hx) as [_ Hm]. by apply IH, Hm; [eapply admissible_move_fine|].
Qed.

(** A client that is not marked in the end was not marked before. *)
Lemma moves_grow x y a d d' :
  rtc admissible_move x y -> fine x -> w_heap (t_world x) !! a = Some d ->
  w_heap (t_world y) !! a = Some d' -> pub d' <> u64 FAIL -> grown whole (wire (t_world x) d) (wire (t_world y) d').
Proof.
  intros Hxy. revert d. induction Hxy as [x|x y z Hxy Hyz IH]; intros d Hx Hd Hd' Hp.
  { rw Hd in Hd'. by injection Hd' as <-. }
  destruct (admissible_move_grows x y Hxy Hx) as [Hg Hm]. pose proof (admissible_move_fine x y Hxy Hx) as Hy.
  assert (pub d <> u64 FAIL) as Hpd.
  { intros Hmk. assert (done_for (t_world z) a) as [_ Hz]; [|by apply Hp, Hz].
    apply (moves_marks y z Hyz Hy), Hm. split; [by apply (li_next _ (inv_listed _ (cf_inv _ (fn_confined _ Hx))) a d)|].
    intros d0. rw Hd. by intros [= <-]. }
  destruct (Hg a d Hd Hpd) as (d1 & Hd1 & Hg1). etrans; [exact Hg1|]. by apply IH.
Qed.

(** The other threads do not care for the reading one's program. *)
Lemma fine_alone x : fine x -> fine (mkThreads (t_world x) (Done false) (t_writer x)).
Proof.
  intros [[[_ Hinv] _ Hwr] (X & R & P & Hi & _ & [HP Hwsafe])]. constructor.
  - constructor; [by split|by exists (fun _ => True)|exact Hwr].
  - exists X, (fun _ => True), P. by split_and!.
Qed.

Lemma fine_start w :
  server_inv w -> (forall a d, w_heap w !! a = Some d -> a ∈ clients (w_server w)) -> fine (threads_start w).
Proof.
  intros Hi Hall. constructor; [by apply start_confined; eapply fine_listed|].
  exists ∅, (fun _ => True), (fun _ => True). split_and!; try done. constructor; [done| |].
  - intros a d Hd. by apply (us_user _ _ _ (iv_users _ Hi) a d (Hall a d Hd)).
  - intros a d Hd Hn. by destruct Hn; eapply Hall.
Qed.

End theorems.

Section soundness.
Context {S : Type} `{!CacheModule S} `{!CacheModuleLaws S}.
Context (heap_after : Z -> bytes) (behind : nat -> bytes).

(** C2 (safety): The server is sound between any two actions, under the assumptions
    of [server_sound].  Whatever the order in which admissible connections, arriving
    bytes that keep to the protocol, and the single actions of the reading and the
    writing thread come, the invariant of the server holds after each of them, with
    the caches that the writing thread is holding; the writing thread's next action
    returns, if the queues fit a [size_t]; and the reading thread's returns too,
    unless it is the visit of a delivery or the print of the debug block that meets a
    client which the writing thread has released: on such runs nothing else is
    undefined, or runs without end. *)
Theorem actions_sound w x :
  terminated heap_after -> (forall i, nul ∈ behind i) -> server_inv w ->
  (forall a d, w_heap w !! a = Some d -> a ∈ clients (w_server w)) ->
  rtc (admissible_move heap_after behind) (threads_start w) x ->
  (exists X, server_at X (t_world x)) /\
  (admissible (t_world x) EWrite -> exists v w', pstep (t_writer x) (t_world x) = Ret (v, w')) /\
  ((exists r w', pstep (t_reader x) (t_world x) = Ret (r, w')) \/
   use_after_free (t_reader x) (t_world x) /\ excused (t_reader x)).
Proof.
  intros Hter Hbeh Hw Hall Hx.
  assert (fine x) as [[Hi (R0 & HR0 & Hreads) _] (X & R & P & Hf & [HR Hr] & [HP Hwr])].
  { eapply moves_fine; [done..|]. by apply fine_start. }
  split; [exists X; apply Hf|]. split.
  - intros Had. destruct (t_writer x) as [b|T m k]; [by eexists _, _|]. destruct Hwr as [_ Hwr].
    destruct (wp_total _ _ _ (Hwr _ Hf Had HP)) as (z & w' & Hrun & _). simpl. rw Hrun. by eexists _, _.
  - destruct (t_reader x) as [b|T m k]; [left; by eexists _, _|]. destruct Hr as [_ Hr].
    destruct (Hr X _ Hf HR) as [[Hub (h & Hh & Hno)]|Hwp].
    + right. split.
      * split; [simpl; by rw Hub|]. exists h. split; [done|]. simpl. by destruct (m (set_heap h (t_world x))) as [[z w1]| |].
      * destruct Hreads as (_ & Hex & _). destruct (Hex _ (inv_listed _ Hi) HR0) as [Hnu|?]; [|done].
        by destruct Hno; apply Hnu.
    + left. destruct (wp_total _ _ _ Hwp) as (z & w' & Hrun & _). simpl. rw Hrun. by eexists _, _.
Qed.

(** C4 (safety): What a client is sent stays whole.  In every admissible interleaving
    of single actions - no write fails, input keeps to the protocol -, from any state
    [x] to any later state [y]: a client that is not marked in [y] has, in what its
    socket got and what is queued for it, everything that was there in [x], followed
    by whole messages, each one line: no message is torn by another thread, lost or
    sent twice in part, and a partial write is made up for. *)
Theorem wires_stay_whole w x y a d d' :
  terminated heap_after -> (forall i, nul ∈ behind i) -> server_inv w ->
  (forall b db, w_heap w !! b = Some db -> b ∈ clients (w_server w)) ->
  rtc (admissible_move heap_after behind) (threads_start w) x -> rtc (admissible_move heap_after behind) x y ->
  w_heap (t_world x) !! a = Some d -> w_heap (t_world y) !! a = Some d' -> pub d' <> u64 FAIL ->
  exists ms, Forall whole ms /\ wire (t_world y) d' = wire (t_world x) d ++ concat ms.
Proof.
  intros Hter Hbeh Hw Hall Hx Hxy Hd Hd' Hp. eapply (moves_grow heap_after behind); try done.
  eapply moves_fine; [done..|]. by apply fine_start.
Qed.
End soundness.

(** ** A schedule *)

Definition turn_check (t : turn_of) (w : World mem) : bool :=
  match t with
  | Listen id => admissible_check w (EListen id no_fd (0, None, 999) 5)
  | Data id data => admissible_check w (EData id data)
  | Write => admissible_check w EWrite
  | _ => true
  end.
Definition checked1 (t : turn_of) (x : threads (S := mem)) : option threads :=
  if turn_check t (t_world x) then exec1 t x else None.
Definition checked (l : list turn_of) (x : threads) : option threads := foldl (fun o t => o ≫= checked1 t) (Some x) l.

Lemma checked1_move t x y : checked1 t x = Some y -> admissible_move behind (fun _ => [nul]) x y.
Proof.
  unfold checked1. destruct (turn_check t (t_world x)) eqn:Hc; [|done].
  destruct x as [w r v], t as [id|id data| |poll| |]; cbn [exec1]; cbn [turn_check t_world] in Hc.
  - apply admissible_check_spec in Hc. destruct (bool_decide _); [|done].
    destruct (handle_listen_turn id no_fd (0, None, 999) 5 0 0 w) as [[[] w']| |] eqn:Hl; [|done..]. intros [= <-].
    by eapply am_listen.
  - apply admissible_check_spec in Hc. destruct (w_fds w !! id) as [f|] eqn:Hf; [|done]. intros [= <-]. by eapply am_data.
  - destruct r as [|X m k]; [done|]. destruct (pstep (Act m k) w) as [[r' w']| |] eqn:Hp; [|done..].
    intros [= <-]. apply am_read; [by intros []|done].
  - destruct r as [[]|]; [|done..]. intros [= <-]. apply am_read_turn.
  - apply admissible_check_spec in Hc. destruct v as [|X m k]; [done|].
    destruct (pstep (Act m k) w) as [[v' w']| |] eqn:Hp; [|done..]. intros [= <-]. apply am_write; [done|by intros []|done].
  - destruct v as [[]|]; [|done..]. intros [= <-]. apply am_write_turn.
Qed.

Lemma checked_moves l x y : checked l x = Some y -> rtc (admissible_move behind (fun _ => [nul])) x y.
Proof.
  revert x. unfold checked. induction l as [|t l IH]; intros x; cbn [foldl]; [by intros [= <-]|].
  cbn [mbind option_bind]. destruct (checked1 t x) as [x1|] eqn:Hx.
  - intros Hl. eapply rtc_l; [by apply checked1_move in Hx|by apply IH].
  - intros Hl. exfalso. clear -Hl. induction l as [|t l IH]; [done|]. by apply IH.
Qed.

(** While the writing thread delivers the notice of a logout, it is interrupted by a
    turn of the reading thread and a new connection. *)
Definition amid_logout : list turn_of :=
  reader_part ++ WriteTurn :: replicate 18 Write ++ [Listen 7; Data 7 (bs "LOGIN: eve" ++ [nl])] ++ replicate 3 Read.

Lemma race_world_inv : server_inv race_world.
Proof.
  constructor; [|constructor|constructor|by intros|by vm_compute]; try done; try (by intros a ?%not_elem_of_nil).
  - exists ∅. constructor; [apply mem0_inv|by constructor|done|done].
  - constructor.
Qed.

Lemma amid_logout_runs : match checked amid_logout (threads_start race_world) with Some _ => true | None => false end = true.
Proof. by vm_compute. Qed.

Lemma actions_sound_witness :
  match checked amid_logout (threads_start race_world) with
  | Some x =>
    (exists X, server_at X (t_world x)) /\
    (admissible (t_world x) EWrite -> exists v w', pstep (t_writer x) (t_world x) = Ret (v, w')) /\
    ((exists r w', pstep (t_reader x) (t_world x) = Ret (r, w')) \/
     use_after_free (t_reader x) (t_world x) /\ excused (t_reader x))
  | None => False
  end.
Proof.
  pose proof amid_logout_runs as Hr. destruct (checked _ _) as [x|] eqn:Hx; [clear Hr; apply checked_moves in Hx|discriminate Hr].
  apply (actions_sound behind (fun _ => [nul]) race_world x);
    [apply behind_terminated|intros _; apply list_elem_of_here|apply race_world_inv|by intros a d ?|exact Hx].
Defined.

(** One thread as long as it goes on. *)
Fixpoint drain (n : nat) (t : turn_of) (x : threads (S := mem)) : threads :=
  match n with
  | O => x
  | Datatypes.S n => match checked1 t x with Some y => drain n t y | None => x end
  end.
Lemma drain_moves n t x : rtc (admissible_move behind (fun _ => [nul])) x (drain n t x).
Proof.
  revert x. induction n as [|n IH]; intros x; cbn [drain]; [done|].
  destruct (checked1 t x) as [y|] eqn:Hy; [|done]. eapply rtc_l; [by apply checked1_move in Hy|apply IH].
Qed.

(** Three clients, two of them logged in; the third has hung up and is marked. *)
Definition gathered : option threads :=
  x ← checked [Listen 5; Listen 6; Listen 7; Data 5 (bs "LOGIN: ann" ++ [nl]); Data 6 (bs "LOGIN: bob" ++ [nl]);
               ReadTurn (fun _ => (3, [1; 1; 17]))] (threads_start race_world);
  Some (drain 100 Read x).

Lemma gathered_moves x : gathered = Some x -> rtc (admissible_move behind (fun _ => [nul])) (threads_start race_world) x.
Proof.
  unfold gathered. destruct (checked _ _) as [y|] eqn:Hy; [|intros Hx; discriminate Hx]. cbn [mbind option_bind].
  intros <-%(inj Some). etrans; [by eapply checked_moves|apply drain_moves].
Qed.

(** What the first two clients are sent between two states of the schedule. *)
Definition later (x : threads (S := mem)) : threads := drain 100 Write (drain 1 WriteTurn x).
Definition later_check : bool :=
  match gathered with
  | Some x =>
    match w_heap (t_world x) !! 2, w_heap (t_world (later x)) !! 2 with
    | Some d, Some d' => negb (pub d' =? u64 FAIL)
    | _, _ => false
    end
  | None => false
  end.
Lemma later_checked : later_check = true.
Proof. by vm_compute. Qed.

Lemma wires_stay_whole_witness :
  match gathered with
  | Some x =>
    match w_heap (t_world x) !! 2, w_heap (t_world (later x)) !! 2 with
    | Some d, Some d' => exists ms, Forall whole ms /\ wire (t_world (later x)) d' = wire (t_world x) d ++ concat ms
    | _, _ => False
    end
  | None => False
  end.
Proof.
  pose proof later_checked as Hc. unfold later_check in Hc. destruct gathered as [x|] eqn:Hx; [|discriminate Hc].
  destruct (w_heap (t_world x) !! 2) as [d|] eqn:Hd; [|discriminate Hc].
  destruct (w_heap (t_world (later x)) !! 2) as [d'|] eqn:Hd'; [|discriminate Hc].
  apply negb_true_iff, Z.eqb_neq in Hc.
  apply (wires_stay_whole behind (fun _ => [nul]) race_world x (later x) 2 d d');
    [apply behind_terminated|intros _; apply list_elem_of_here|apply race_world_inv|by intros a dc ?|by apply gathered_moves
    |etrans; apply drain_moves|exact Hd|exact Hd'|exact Hc].
Defined.
