(* ===== verification/FineDelivery.v ===== *)
(** * A delivery under interference

    The reading thread delivers a message while the others go on: clients connect,
    bytes arrive, the writing thread flushes and logs clients out between any two
    visits.  Each client that is not marked still gets the message once, if it wants
    it, and otherwise nothing but the notices of the writing thread. *)
From Stdlib Require Import Strings.Byte String.
From stdpp Require Import relations.
From S2P Require Import Prelude CLib Alloc Cache Locks Buffer Message ClientInfo Server ServerSpec ServerLoop ServerTurns ServerRun.
From S2P Require Import BufferTheorems ClientTheorems ServerTheorems Threads ThreadTheorems Interleave InterleaveTheorems ReaderTheorems.
From S2P Require Import FineInv FineWriter FineReader FineTheorems.

Section shared.
Context {S : Type} `{!CacheModule S} `{!CacheModuleLaws S}.
Context (heap_after : Z -> bytes) (behind : nat -> bytes).
Abbreviation prog := (prog S).

(** The moves of all but the reading thread; [v] is the writing thread. *)
Definition outside (w : World S) (v : prog bool) (w' : World S) (v' : prog bool) : Prop :=
  admissible_move heap_after behind (mkThreads w (Done false) v) (mkThreads w' (Done false) v').

(** A run of the reading thread's [p] to its end, with the others in between. *)
Inductive shared {A} : prog A -> World S -> prog bool -> A -> World S -> prog bool -> Prop :=
| sh_end a w v : shared (Done a) w v a w v
| sh_read X (m : M (World S) X) k w v x w1 a w' v' :
    m w = Ret (x, w1) -> shared (k x) w1 v a w' v' -> shared (Act m k) w v a w' v'
| sh_other p w v w1 v1 a w' v' :
    outside w v w1 v1 -> shared p w1 v1 a w' v' -> shared p w v a w' v'.
End shared.

Section delivery.
Context {S : Type} `{!CacheModule S} `{!CacheModuleLaws S}.
Context (heap_after : Z -> bytes) (behind : nat -> bytes).
Hypothesis heap_terminated : terminated heap_after.
Hypothesis behind_terminated : forall i, nul ∈ behind i.
Implicit Types (w : World S).

Lemma outside_kept w v w1 v1 :
  outside heap_after behind w v w1 v1 -> fine (mkThreads w (Done false) v) -> sound_kept w w1.
Proof.
  unfold outside. intros Hm [_ (X & R & P & Hi & _ & [HP Hw])]. simpl in *. inversion Hm; subst; try done.
  - by eapply fine_listen.
  - apply outs_sound_kept; [done|]. intros a d _ _. simpl.
    destruct (decide (socket_id d = id)) as [->|Hne]; [|by rw lookup_insert_ne].
    match goal with H : w_fds w !! id = Some f |- _ => by rw lookup_insert_eq H end.
  - destruct v as [|T m k]; [done|]. match goal with H : pstep _ _ = _ |- _ => revert H end. simpl.
    destruct (m w) as [[z w2]| |] eqn:Hz; [|done..]. intros [= <- <-].
    destruct Hw as [_ Hw]. by destruct (wp_partial _ _ _ _ _ _ (Hw w Hi ltac:(assumption) HP) Hz) as (Hk & _).
Qed.

(** What the logic shows of a program holds of its shared runs. *)
Lemma shared_safe {A} (p : prog S A) w v a w' v' Q :
  shared heap_after behind p w v a w' v' -> fine (mkThreads w (Done false) v) -> acts alike p -> acts (keeps_but None) p ->
  forall R, (R w : Prop) -> rsafe R p Q -> Q a w'.
Proof.
  induction 1 as [a w v|T m k w v x w1 a w' v' Hm _ IH|p w v w1 v1 a w' v' Ho _ IH]; intros Hx Ha Hk R HR Hr.
  - by apply (proj2 Hr).
  - destruct Ha as [Ha1 Ha2], Hk as [Hk1 Hk2], Hx as [Hc (X & R0 & P & Hi & _ & [HP Hw])].
    pose proof (inv_listed _ (cf_inv _ Hc)) as Hl. pose proof (Ha1 _ _ _ Hm) as Halike. pose proof (Hk1 _ _ _ Hm) as Hkeep.
    destruct Hr as [_ Hr]. destruct (Hr X w Hi HR) as [[Hub _]|Hwp]; [by rw Hub in Hm|].
    destruct (wp_partial _ _ _ _ _ _ Hwp Hm) as (Hi1 & _ & R1 & HR1 & Hr1).
    assert (marks_stay w w1) as Hms by (by apply (keeps_marks None)).
    eapply (IH _ (Ha2 x) (Hk2 x) R1 HR1 Hr1).
    Unshelve. constructor.
    + destruct Hc as [Hinv _ (P0 & HP0 & Hg)]. constructor.
      * eapply inv_others; [exact Hinv|by apply alike_others|done].
      * by exists (fun _ => True).
      * exists P0. split; [|done]. by eapply guarantees_stay.
    + exists X, (fun _ => True), P. split_and!; try done.
      eapply wsafe_stays; [done..| |done]. by apply alike_others.
  - pose proof (outside_kept w v w1 v1 Ho Hx) as Hs. assert (R w1) as HR1 by by destruct p; destruct Hr as [Hkept _]; eapply Hkept.
    apply (IH (admissible_move_fine _ _ heap_terminated behind_terminated _ _ Ho Hx) Ha Hk R HR1 Hr).
Qed.

(** *** Following one client

    [d] is the client at [b] up to what is sent to it: [s] first and then goodbyes. *)
Definition got (b : Z) (d : ClientData) (s : bytes) w : Prop :=
  pub d <> u64 FAIL /\
  exists d', w_heap w !! b = Some d' /\ but_writing d' = but_writing d /\ grown goodbye s (wire w d').
(** ... or goodbyes, then [t], and goodbyes again. *)
Definition reached (b : Z) (d : ClientData) (s t : bytes) w : Prop :=
  exists s1, got b d (s1 ++ t) w /\ grown goodbye s s1.

Lemma got_kept b d s : kept (got b d s).
Proof.
  intros w w' [Hp (d1 & Hd1 & Hb1 & Hg1)] Hk. split; [done|].
  pose proof (but_writing_eq _ _ Hb1) as (_ & _ & Hp1 & _). destruct (Hk b d1 Hd1) as (d2 & Hd2 & Hb2 & Hg2); [by rw Hp1|].
  exists d2. split_and!; [done|congruence|by etrans].
Qed.
Lemma reached_kept b d s t : kept (reached b d s t).
Proof. intros w w' (s1 & Hg & Hs) Hk. exists s1. split; [by eapply got_kept|done]. Qed.
Lemma got_at b d s w : got b d s w -> is_at b d w.
Proof. intros [Hp (d' & ? & ? & _)]. split; [done|]. by exists d'. Qed.
Lemma got_reached b d s w : got b d s w -> reached b d s [] w.
Proof. intros Hg. exists s. by rw app_nil_r. Qed.

(** The reading thread's own send: to another client, and to this one. *)
Lemma got_other b d s a da txt w w' : a <> b -> got b d s w -> sent_to a da txt w w' -> got b d s w'.
Proof.
  intros Hne [Hp (d1 & Hd1 & Hb1 & Hg1)] [Hf (d' & Hh & _)]. split; [done|]. exists d1.
  split_and!; [by rw Hh lookup_insert_ne|done|]. by rw /wire Hf.
Qed.
Lemma got_sent b d s txt d0 w w' :
  got b d s w -> w_heap w !! b = Some d0 -> sent_to b d0 txt w w' -> reached b d s txt w'.
Proof.
  intros [Hp (d1 & Hd1 & Hb1 & Hg1)] Hd0 [Hf (d' & Hh & Hb' & Hw)]. rw Hd1 in Hd0. injection Hd0 as <-.
  exists (wire w d1). split; [|done]. split; [done|]. exists d'. split_and!; [by rw Hh lookup_insert_eq|congruence|].
  by rw Hw.
Qed.

(** With the entries [idx] of the snapshot still to be visited. *)
Definition followed (l : list Z) (b : Z) (d : ClientData) (s t : bytes) (idx : list nat) w : Prop :=
  (named l idx b /\ got b d s w) \/ (~ named l idx b /\ reached b d s t w).

Lemma named_cons l k idx b : named l (k :: idx) b <-> l !! k = Some b \/ named l idx b.
Proof.
  split.
  - intros (j & [->|Hj]%elem_of_cons & Hb); [by left|right]. by exists j.
  - intros [Hb|(j & Hj & Hb)]; [exists k; split; [apply list_elem_of_here|done]|].
    exists j. split; [by apply list_elem_of_further|done].
Qed.

Lemma followed_step l b d s t k idx a w w' :
  NoDup l -> NoDup (k :: idx) -> l !! k = Some a ->
  (a <> b -> got b d s w -> got b d s w') -> (a <> b -> reached b d s t w -> reached b d s t w') ->
  (a = b -> got b d s w -> reached b d s t w') ->
  followed l b d s t (k :: idx) w -> followed l b d s t idx w'.
Proof.
  intros Hl [Hk Hi]%NoDup_cons Ha Hgot Hreach Hvisit. destruct (decide (a = b)) as [->|Hne].
  - intros [[_ Hg]|[Hn _]]; [|by destruct Hn; apply named_cons; left].
    right. split; [|by apply Hvisit]. intros (j & Hj & Hb). by rw (NoDup_lookup _ _ _ _ Hl Ha Hb) in Hk.
  - intros [[[Hb|Hn]%named_cons Hg]|[Hn Hr]]; [congruence|by left; split; [|apply Hgot]|].
    right. split; [|by apply Hreach]. intros Hx. by destruct Hn; apply named_cons; right.
Qed.

(** A delivery: the client [b] gets the message exactly if it wants it. *)
Lemma rsafe_deliver_got b d s msg tn en txt :
  msg_for msg tn en txt -> whole txt ->
  rsafe (got b d s) (deliver msg) (fun _ => reached b d s (if wants tn en d then txt else [])).
Proof.
  intros Hm Hwh. unfold deliver. apply rsafe_act; [apply got_kept|]. intros X w Hi Hw.
  destruct (wp_total _ _ _ (fine_client_list X w Hi)) as (r & w1 & Hrun & Hi1 & Hsk & -> & Hs).
  eapply wp_run; [exact Hrun|]. set (l := clients (w_server w)). set (idx := seq 0 (Z.to_nat (zlen l))).
  assert (NoDup l) as Hnd by apply (iv_server _ (fv_server _ Hi)).
  set (t := if wants tn en d then txt else []).
  set (P := fun i w => NoDup i /\ followed l b d s t i w).
  assert (forall i, kept (P i)) as HP.
  { intros i w2 w3 [? [[? ?]|[? ?]]] Hk; (split; [done|]); [left|right]; (split; [done|]); [by eapply got_kept|by eapply reached_kept]. }
  assert (b ∈ l) as Hb.
  { destruct (got_at _ _ _ _ Hw) as [Hp (d0 & Hd0 & Hb0)]. eapply fine_member; [done..|].
    by pose proof (but_writing_eq _ _ Hb0) as (_ & _ & -> & _). }
  split_and!; [done|by apply sound_kept_grow|]. exists (P idx). split.
  { split; [apply NoDup_seq|]. left. split; [|by eapply got_kept]. apply list_elem_of_lookup in Hb as [k Hk].
    exists k. split; [|done]. apply lookup_lt_Some in Hk. unfold idx. rw elem_of_seq /zlen Nat2Z.id. lia. }
  cbv beta iota. destruct (to_all_test _ _ _ _ Hm) as (r & Hr & Heq).
  apply (rsafe_lift _ _ r); [apply HP|done|]. rw Heq.
  assert (forall (n : Z) w, P [] w -> reached b d s t w) as Hend.
  { intros _ w2 [_ [[(k & Hk%not_elem_of_nil & _) _]|[_ ?]]]; done. }
  eapply rsafe_post; [|exact Hend]. eapply (rsafe_visits P); [done..| | |by apply seq_length].
  - intros k i a w2 Ha [Hi2 Hw2] Hpass. split; [by apply NoDup_cons in Hi2 as [_ ?]|].
    apply (followed_step l b d s t k i a w2 w2); try done. intros -> Hg.
    unfold t. rw (Hpass d (got_at _ _ _ _ Hg)). by apply got_reached.
  - intros k i a da w2 w3 Ha [Hi2 Hw2] Hda Hwant Hsent. split; [by apply NoDup_cons in Hi2 as [_ ?]|].
    apply (followed_step l b d s t k i a w2 w3); try done.
    + intros Hne Hg. by eapply got_other.
    + intros Hne (s1 & Hg & Hs1). exists s1. split; [by eapply got_other|done].
    + intros -> Hg. destruct (got_at _ _ _ _ Hg) as [_ (d2 & Hd2 & Hb2)]. rw Hda in Hd2. injection Hd2 as <-.
      unfold t. rw -(wants_but tn en _ _ Hb2) Hwant. by eapply got_sent.
Qed.

(** *** Handling a line *)

(** What the line [l] of the client [a] is for [b], as in [handle_line]: the name
    that [b] has then, and what it is sent. *)
Definition line_name (a b : Z) (l nm : bytes) : bytes :=
  if decide (b = a) then match parse_line l with CmdLogin n => take 29 n | _ => nm end else nm.
Definition line_sends (sender l : bytes) (c : aclient) : bytes :=
  match command_message sender (parse_line l) with
  | Some (tn, en, txt) => if awants tn en c then txt else []
  | None => []
  end.

Lemma handle_line_at ls a b s l ca c :
  s !! a = Some ca -> s !! b = Some c -> b ∈ ls ->
  let c1 := mkA (line_name a b l (a_name c)) (a_pub c) (a_out c) in
  handle_line ls a s l !! b = Some (mkA (a_name c1) (a_pub c) (a_out c ++ line_sends (a_name ca) l c1)).
Proof.
  intros Ha Hb Hin c1. unfold handle_line. rw Ha.
  assert (match parse_line l with CmdLogin nm => <[a := mkA (take 29 nm) (a_pub ca) (a_out ca)]> s | _ => s end !! b = Some c1) as H1.
  { unfold c1, line_name. destruct (decide (b = a)) as [->|Hne].
    - rw Ha in Hb. injection Hb as <-. destruct (parse_line l); [by rw lookup_insert_eq|by rw Ha; destruct ca..].
    - destruct (parse_line l); [by rw lookup_insert_ne // Hb; destruct c|by rw Hb; destruct c..]. }
  unfold line_sends. destruct (command_message (a_name ca) (parse_line l)) as [[[tn en] txt]|].
  - unfold adeliver. rw map_lookup_imap H1 /=. rw bool_decide_true // /=. f_equal.
    destruct (awants tn en c1); [done|]. by rw app_nil_r.
  - by rw H1 app_nil_r.
Qed.

Lemma wants_awants tn en d out : wants tn en d = awants tn en (mkA (cname d) (pub d) out).
Proof. done. Qed.

Lemma renamed_line_name l d d0 d1 a b :
  name d0 = name d -> renamed (parse_line l) d0 d1 -> b = a -> cname d1 = line_name a b l (cname d).
Proof.
  intros Hn Hr ->. unfold line_name. rw decide_True //.
  assert (cname d0 = cname d) as <- by by rw /cname Hn.
  destruct (parse_line l) as [nm|text|tn text| |]; simpl in Hr; [|by subst d1..].
  destruct Hr as (arr & -> & _ & Harr). unfold cname. simpl. by rw Harr.
Qed.

Lemma rsafe_handle_got a da b d s l after :
  line_text l -> line_safe l -> nul ∈ after ->
  rsafe (fun w => is_at a da w /\ got b d s w) (handle heap_after a (l ++ [nl]) after) (fun _ w =>
    exists dn, cname dn = line_name a b l (cname d) /\ pub dn = pub d /\ reading_buffer dn = reading_buffer d /\
      let t := line_sends (cname da) l (abs_client dn) in (t = [] \/ whole t) /\ reached b dn s t w).
Proof.
  intros Hl Hls Haft. unfold handle. apply rsafe_act; [by apply kept_and; [|apply got_kept]|].
  intros X w Hi [Ha Hg]. eapply wp_mono; [by apply (fine_redirect heap_after X w a da l)|].
  intros om w1 (Hi1 & Hgr & d0 & d1 & Hd0 & Hb0 & Hren & Hh & Hf & Hm). split_and!; [done..|].
  destruct (renamed_keeps _ _ _ Hren) as (Hsk & Hp & Hrd & Hwb).
  pose proof Hg as [Hpd (d2 & Hd2 & Hb2 & Hg2)]. pose proof (but_writing_eq _ _ Hb2) as (_ & Hn2 & Hp2 & Hrb2).
  assert (exists dn, cname dn = line_name a b l (cname d) /\ pub dn = pub d /\
    reading_buffer dn = reading_buffer d /\ got b dn s w1) as (dn & Hcn & Hpn & Hrn & Hgn).
  { destruct (decide (b = a)) as [->|Hne].
    - rw Hd0 in Hd2. injection Hd2 as <-. exists d1. split_and!; [by apply (renamed_line_name l d d0 d1)|congruence..|].
      split; [congruence|]. exists d1. split_and!; [by rw Hh lookup_insert_eq|done|]. by rw /wire Hf Hsk Hwb.
    - exists d. split_and!; [by rw /line_name decide_False|done..|]. split; [done|]. exists d2.
      split_and!; [by rw Hh lookup_insert_ne|done|]. by rw /wire Hf. }
  exists (got b dn s). split; [done|]. unfold line_sends.
  destruct (command_message (cname da) (parse_line l)) as [[[tn en] txt]|].
  - destruct Hm as (m & -> & Hm & Hwh). eapply rsafe_post; [by apply (rsafe_deliver_got b dn s m tn en txt)|].
    intros n w2 Hr. exists dn. do 3 (split; [done|]). split; [|exact Hr]. by destruct (awants tn en (abs_client dn)); [right|left].
  - subst om. apply rsafe_done; [apply got_kept|]. intros w2 Hg3. exists dn. do 3 (split; [done|]). split; [by left|by apply got_reached].
Qed.
End delivery.
