(* ===== verification/FineInput.v ===== *)
(** * The input of a client under interference

    [try_to_handle_msg] handles all the complete lines that a client has sent.  Here
    the other threads go on between any two of its actions, and still every client
    ends up as if [handle_line] had been folded over the lines. *)
From Stdlib Require Import Strings.Byte String.
From stdpp Require Import relations.
From S2P Require Import Prelude CLib Alloc Cache Locks Buffer Message ClientInfo Server ServerSpec ServerLoop ServerTurns ServerRun.
From S2P Require Import BufferTheorems ClientTheorems ServerTheorems Threads ThreadTheorems Interleave InterleaveTheorems ReaderTheorems.
From S2P Require Import FineInv FineWriter FineReader FineTheorems FineDelivery.

(** [s'] is [s] followed by the messages of [t], each of them whole, with notices of
    the writing thread in between. *)
Inductive mingled (s : bytes) : bytes -> bytes -> Prop :=
| mi_nothing : mingled s [] s
| mi_goodbye t s' g : mingled s t s' -> goodbye g -> mingled s t (s' ++ g)
| mi_own t s' u : mingled s t s' -> whole u -> mingled s (t ++ u) (s' ++ u).

Lemma mingled_grown s t s1 s2 : mingled s t s1 -> grown goodbye s1 s2 -> mingled s t s2.
Proof.
  intros Hm (ms & Hms & ->). revert s1 Hm. induction Hms as [|g ms Hg _ IH]; intros s1 Hm; cbn [concat].
  - by rw app_nil_r.
  - rw app_assoc. by apply IH, mi_goodbye.
Qed.

Section input.
Context {S : Type} `{!CacheModule S} `{!CacheModuleLaws S}.
Context (heap_after : Z -> bytes) (behind : nat -> bytes).
Hypothesis heap_terminated : terminated heap_after.
Hypothesis behind_terminated : forall i, nul ∈ behind i.
Implicit Types (w : World S).

(** The start: the clients that are not marked, and the abstract chat. *)
Variables (w0 : World S) (a : Z) (da : ClientData).
Definition present (b : Z) (d : ClientData) : Prop := w_heap w0 !! b = Some d /\ pub d <> u64 FAIL.
Definition chat (lines : list bytes) : gmap Z aclient :=
  foldl (handle_line (clients (w_server w0)) a) (abs_heap (w_heap w0)) lines.
Hypothesis sender : present a da.
Hypothesis members : forall b d, present b d -> b ∈ clients (w_server w0).

(** [b], which was [d], has heard the lines. *)
Definition heard (b : Z) (d : ClientData) (lines : list bytes) w : Prop :=
  exists c t dn s, (chat lines !! b = Some c /\ a_out c = contents (writing_buffer d) ++ t /\
    cname dn = a_name c /\ pub dn = a_pub c /\ mingled (wire w0 d) t s) /\ got b dn s w.

Lemma heard_kept b d lines : kept (heard b d lines).
Proof. intros w w' (c & t & dn & s & Hp & Hg) Hk. exists c, t, dn, s. split; [done|]. by eapply got_kept. Qed.

Lemma heard_start b d : present b d -> heard b d [] w0.
Proof.
  intros [Hd Hp]. exists (abs_client d), [], d, (wire w0 d). split_and!; try done.
  - unfold chat. simpl. by rw abs_lookup Hd.
  - simpl. by rw app_nil_r.
  - constructor.
  - split; [done|]. by exists d.
Qed.

(** The state after [lines], with [rb] still to be read. *)
Definition input_at (lines : list bytes) (rb : InnerBuffer) w : Prop :=
  (exists dk, is_at a dk w /\ reading_buffer dk = rb) /\ forall b d, present b d -> heard b d lines w.
Lemma input_kept lines rb : kept (input_at lines rb).
Proof.
  intros w w' [(dk & Hk & Hrb) Hall] Hs. split; [exists dk; split; [by eapply kept_at|done]|].
  intros b d Hb. eapply heard_kept; [by apply Hall|done].
Qed.

Lemma line_sends_ext s l c c' : a_name c = a_name c' -> a_pub c = a_pub c' -> line_sends s l c = line_sends s l c'.
Proof. intros Hn Hp. unfold line_sends, awants. by rw Hn Hp. Qed.

(** One line. *)
Lemma rsafe_line_heard lines rb l after b d :
  line_text l -> line_safe l -> nul ∈ after -> present b d ->
  rsafe (input_at lines rb) (handle heap_after a (l ++ [nl]) after) (fun _ => heard b d (lines ++ [l])).
Proof.
  intros Hl Hls Haft Hb.
  set (F := fun x : aclient * ClientData * (aclient * bytes * ClientData * bytes) => let '(ca, dka, (c, t, dn, s)) := x in
    chat lines !! a = Some ca /\ cname dka = a_name ca /\
    (chat lines !! b = Some c /\ a_out c = contents (writing_buffer d) ++ t /\
     cname dn = a_name c /\ pub dn = a_pub c /\ mingled (wire w0 d) t s)).
  set (P := fun (x : aclient * ClientData * (aclient * bytes * ClientData * bytes)) w =>
    let '(ca, dka, (c, t, dn, s)) := x in is_at a dka w /\ got b dn s w).
  assert (forall x, kept (P x)) as HP.
  { intros [[ca dka] [[[c t] dn] s]]. apply kept_and; [done|apply got_kept]. }
  eapply rsafe_pre; [apply input_kept| |apply (rsafe_exists P F _ _ HP)].
  - intros w [_ Hall]. destruct (Hall a da sender) as (ca & ta & dka & sa & (Hca & _ & Hcn & _) & Hga).
    destruct (Hall b d Hb) as (c & t & dn & s & Hc & Hg). exists (ca, dka, (c, t, dn, s)).
    split; [split; [by eapply got_at|done]|exact (conj Hca (conj Hcn Hc))].
  - intros [[ca dka] [[[c t] dn] s]] (Hca & Hcna & Hc & Hout & Hcn & Hp & Hm).
    eapply rsafe_post; [by apply (rsafe_handle_got heap_after a dka b dn s l after)|].
    intros n w (dn' & Hcn' & Hp' & _ & Hwh & s2 & Hg & Hgr).
    pose proof (handle_line_at (clients (w_server w0)) a b (chat lines) l ca c Hca Hc (members b d Hb)) as Hline.
    cbv zeta in Hline. cbn [a_name] in Hline.
    assert (chat (lines ++ [l]) = handle_line (clients (w_server w0)) a (chat lines) l) as Hchat by by rw /chat foldl_app.
    rw -Hchat in Hline. eexists _, (t ++ line_sends (cname dka) l (abs_client dn')), dn', _. split; [|exact Hg].
    split; [exact Hline|]. cbn [a_out a_name a_pub]. split_and!.
    + rw Hout -app_assoc Hcna. do 2 f_equal. by apply line_sends_ext; simpl; rw ?Hcn' ?Hp' ?Hcn ?Hp.
    + by rw Hcn' Hcn.
    + by rw Hp' Hp.
    + pose proof (mingled_grown _ _ _ _ Hm Hgr) as Hm2. destruct Hwh as [->|Hwh]; [by rw !app_nil_r|by apply mi_own].
Qed.

Lemma rsafe_line_reading lines rb l after :
  line_text l -> line_safe l -> nul ∈ after ->
  rsafe (input_at lines rb) (handle heap_after a (l ++ [nl]) after)
    (fun _ w => exists dk, is_at a dk w /\ reading_buffer dk = rb).
Proof.
  intros Hl Hls Haft. set (nobody := fun _ : Z => False).
  eapply rsafe_pre; [apply input_kept| |apply (rsafe_exists (reading nobody a) (fun dk => reading_buffer dk = rb))].
  - intros w [(dk & Hk & Hrb) _]. exists dk. split; [|done]. by split; [intros ? []|].
  - intros dk. apply reading_kept.
  - intros dk <-. eapply rsafe_post; [by apply rsafe_handle|]. intros _ w (d' & [_ ?] & ?). by exists d'.
Qed.

Lemma rsafe_line lines rb l after :
  line_text l -> line_safe l -> nul ∈ after ->
  rsafe (input_at lines rb) (handle heap_after a (l ++ [nl]) after) (fun _ => input_at (lines ++ [l]) rb).
Proof.
  intros Hl Hls Haft.
  set (Q := fun (i : option {p : Z * ClientData | present p.1 p.2}) (_ : Z) w =>
    match i with
    | None => exists dk, is_at a dk w /\ reading_buffer dk = rb
    | Some p => heard (`p).1 (`p).2 (lines ++ [l]) w
    end).
  eapply rsafe_post; [apply (rsafe_all _ None _ Q)|].
  - intros [[[b d] Hb]|]; [by apply rsafe_line_heard|by apply rsafe_line_reading].
  - intros n w HQ. split; [exact (HQ None)|]. intros b d Hb. exact (HQ (Some (exist _ (b, d) Hb))).
Qed.

(** Fetching the next line changes nothing that others have heard. *)
Lemma took_heard b d lines dk r c rb w w' :
  took a dk r c rb w w' -> heard b d lines w -> heard b d lines w'.
Proof.
  intros (_ & _ & _ & d0 & Hd0 & Hb0 & Hh & Hf) (cc & t & dn & s & Hp & [Hpub (d1 & Hd1 & Hb1 & Hg1)]).
  destruct (decide (b = a)) as [->|Hne].
  - rw Hd0 in Hd1. injection Hd1 as <-. pose proof (but_writing_eq _ _ Hb1) as (Hs1 & Hn1 & Hp1 & _).
    exists cc, t, (set_reading rb 0 d0), s. split.
    + destruct Hp as (? & ? & Hcn & Hpn & ?). split_and!; try done; simpl; [|congruence].
      unfold cname in *. simpl. by rw Hn1.
    + split; [simpl; congruence|]. exists (set_reading rb 0 d0). split_and!; [by rw Hh lookup_insert_eq|done|].
      unfold wire in *. simpl. by rw Hf.
  - exists cc, t, dn, s. split; [done|]. split; [done|]. exists d1. split_and!; [by rw Hh lookup_insert_ne|done|].
    by rw /wire Hf.
Qed.

Lemma took_input lines dk r c rb w w' :
  pub dk <> u64 FAIL -> took a dk r c rb w w' -> (forall b d, present b d -> heard b d lines w) -> input_at lines rb w'.
Proof.
  intros Hp Ht Hall. split; [|intros b d Hb; eapply took_heard; [done|by apply Hall]].
  destruct Ht as (_ & _ & _ & d0 & Hd0 & Hb0 & Hh & _). pose proof (but_writing_eq _ _ Hb0) as (_ & _ & Hp0 & _).
  exists (set_reading rb 0 d0). split; [|done]. apply is_at_put; [by rw Hh lookup_insert_eq|]. simpl. by rw Hp0.
Qed.

Lemma rsafe_fetch {B} lines rb0 (k : Z * option bytes -> prog S B) Q :
  (forall r c rb, contents rb0 = c ++ contents rb -> line_found r.1 r.2 c rb ->
     (forall l, r.2 = Some (l ++ [nl]) -> (0 <? r.1) = true -> line_safe l) -> rsafe (input_at lines rb) (k r) Q) ->
  rsafe (input_at lines rb0) (act (fetch_msg heap_after a) ≫= k) Q.
Proof.
  intros Hk. apply rsafe_act; [apply input_kept|]. intros X w Hi [(dk & Hat & Hrb) Hall].
  eapply wp_mono; [by apply (fine_fetch_msg heap_after heap_terminated X w a dk)|].
  intros r w' (Hi' & Hg & c & rb & Ht). split_and!; [done..|]. exists (input_at lines rb).
  pose proof Ht as (Hc & Hl & Hs & _). split; [by eapply took_input; [destruct Hat|..]|]. rw Hrb in Hc. by eapply Hk.
Qed.

(** *** The loop *)

(** [lines] have been handled, which came first in [c0], and no other is left. *)
Definition input_done (c0 : bytes) w : Prop :=
  exists x : list bytes * InnerBuffer, input_at x.1 x.2 w /\
    (c0 = (x.1 ≫= fun l => l ++ [nl]) ++ contents x.2 /\ Forall line_text x.1 /\ next_message x.2 = None).
Lemma done_kept c0 : kept (input_done c0).
Proof. intros w w' (x & Hx & Hp) Hk. exists x. split; [by eapply input_kept|done]. Qed.

Lemma rsafe_input c0 fuel : forall i lines rb c n om need,
  line_found n om c rb -> (forall l, om = Some (l ++ [nl]) -> (0 <? n) = true -> line_safe l) ->
  c0 = (lines ≫= fun l => l ++ [nl]) ++ c ++ contents rb -> Forall line_text lines ->
  zlen (contents rb) + (if 0 <? n then 1 else 0) < Z.of_nat fuel ->
  rsafe (input_at lines rb) (handle_msgs heap_after behind fuel a i n om need) (fun _ => input_done c0).
Proof.
  induction fuel as [|fuel IH]; intros i lines rb c n om need Hl Hs Hc Hlines Hz; cbn [handle_msgs].
  { pose proof (zlen_nonneg (contents rb)). destruct (0 <? n); lia. }
  unfold line_found in Hl. destruct (0 <? n) eqn:Hn.
  2: { destruct Hl as (-> & -> & Hno). apply rsafe_done; [apply input_kept|]. intros w Hw. by exists (lines, rb). }
  destruct Hl as (l & -> & -> & Hnl & Hnul). pose proof (Hs l eq_refl eq_refl) as Hsafe.
  eapply rsafe_bind; [by apply (rsafe_line lines rb l)|]. intros r. cbv beta.
  apply rsafe_fetch. intros [n2 om2] c2 rb2 Hc2 Hl2 Hs2. apply (IH _ _ _ c2); [done|done| | |].
  - rw Hc Hc2 bind_app. cbn. rw app_nil_r -!app_assoc //.
  - apply Forall_app. split; [done|]. by constructor.
  - apply line_found_less in Hl2. rw Hc2 zlen_app in Hz. cbn [fst] in Hl2. lia.
Qed.

Lemma rsafe_try_input :
  rsafe (input_at [] (reading_buffer da)) (try_to_handle heap_after behind a)
    (fun _ => input_done (contents (reading_buffer da))).
Proof.
  unfold try_to_handle. apply rsafe_act; [apply input_kept|]. intros X w Hi [(dk & Hat & Hrb) Hall].
  pose proof Hat as [Hp (d0 & Hd0 & Hb0)]. pose proof (but_writing_eq _ _ Hb0) as (_ & _ & _ & Hrb0).
  apply (wp_get_client _ _ _ d0); [done|]. split_and!; [done|by apply sound_kept_grow|].
  exists (input_at [] (reading_buffer da)). split; [split; [by exists dk|done]|]. cbv zeta.
  pose proof (fine_client X w a d0 Hi Hd0) as Hci. pose proof (ci_size _ Hci).
  pose proof (zlen_nonneg (contents (reading_buffer d0))).
  rw buffer_size_spec; [apply shape_all, (ci_reading _ Hci)|lia|].
  apply rsafe_fetch. intros [n om] c rb Hc Hl Hs. cbn [fst snd] in Hl, Hs.
  assert (reading_buffer d0 = reading_buffer da) as Heq by congruence. rw Heq.
  eapply rsafe_bind; [apply (rsafe_input (contents (reading_buffer da)) _ 0%nat [] rb c); try done|].
  { apply line_found_less in Hl. rw Hc zlen_app. pose proof (zlen_nonneg (contents rb)). lia. }
  intros need. cbv beta. destruct (need =? 0); [apply rsafe_done; [apply done_kept|done]|].
  apply rsafe_bump, done_kept.
Qed.
End input.

Section theorem.
Context {S : Type} `{!CacheModule S} `{!CacheModuleLaws S}.
Context (heap_after : Z -> bytes) (behind : nat -> bytes).

Lemma acts_try a : acts (S := S) alike (try_to_handle heap_after behind a).
Proof. unfold try_to_handle. acts_auto. apply acts_handle_msgs. Qed.

#[local] Hint Resolve keeps_fetch_msg keeps_login : pres.
Lemma acts_try_keeps a : acts (S := S) (keeps_but None) (try_to_handle heap_after behind a).
Proof.
  assert (forall fuel i n om need, acts (S := S) (keeps_but None) (handle_msgs heap_after behind fuel a i n om need)) as Hmsgs.
  { induction fuel as [|fuel IH]; intros i n om need; cbn [handle_msgs]; unfold handle; acts_auto.
    - apply pres_redirect; eauto with pres.
    - apply acts_delivery.
    - apply IH. }
  unfold try_to_handle. acts_auto. apply Hmsgs.
Qed.

(** C3 (refinement): Handling a client's input refines the abstract chat while the
    others go on.  From any state that admissible moves reach the reading thread
    handles what the client [a] has sent, interrupted between any two of its actions
    by admissible connections, arriving bytes and the writing thread, which flushes
    clients and logs clients out.  If the handling comes to its end, it has taken
    lines from the front of the reading buffer, until no newline is left in the
    buffer's first node (512 bytes); and every client that was not marked has, in the
    end, the name and the mark that folding [handle_line] over the lines gives it,
    and to what its socket had got and had queued exactly what the fold adds is
    added, in order, with nothing in between but notices of the writing thread that
    somebody left, and those between whole messages only. *)
Theorem input_refines_amid w0 x a da w' v' :
  terminated heap_after -> (forall i, nul ∈ behind i) -> server_inv w0 ->
  (forall c dc, w_heap w0 !! c = Some dc -> c ∈ clients (w_server w0)) ->
  rtc (admissible_move heap_after behind) (threads_start w0) x ->
  w_heap (t_world x) !! a = Some da -> pub da <> u64 FAIL ->
  shared heap_after behind (try_to_handle heap_after behind a) (t_world x) (t_writer x) tt w' v' ->
  exists lines da',
    w_heap w' !! a = Some da' /\ Forall line_text lines /\ next_message (reading_buffer da') = None /\
    contents (reading_buffer da) = (lines ≫= fun l => l ++ [nl]) ++ contents (reading_buffer da') /\
    forall b d, w_heap (t_world x) !! b = Some d -> pub d <> u64 FAIL -> exists c t d',
      foldl (handle_line (clients (w_server (t_world x))) a) (abs_heap (w_heap (t_world x))) lines !! b = Some c /\
      a_out c = contents (writing_buffer d) ++ t /\
      w_heap w' !! b = Some d' /\ cname d' = a_name c /\ pub d' = a_pub c /\
      mingled (wire (t_world x) d) t (wire w' d').
Proof.
  intros Hter Hbeh Hw Hall Hx Ha Hpa Hrun. set (w := t_world x) in *.
  assert (fine x) as Hfx by (eapply moves_fine; [done..|]; by apply fine_start).
  assert (forall b d, present w b d -> b ∈ clients (w_server w)) as Hmem.
  { intros b d [Hb Hp]. destruct Hfx as [_ (X & R & P & Hi & _)]. by eapply fine_member. }
  assert (input_at w a [] (reading_buffer da) w) as Hstart.
  { split; [exists da; split; [by apply is_at_put|done]|]. intros b d. apply heard_start. }
  pose proof (rsafe_try_input heap_after behind Hter Hbeh w a da (conj Ha Hpa) Hmem) as Hsafe.
  destruct (shared_safe heap_after behind Hter Hbeh _ _ _ _ _ _ _ Hrun (fine_alone _ Hfx) (acts_try a) (acts_try_keeps a) _ Hstart Hsafe)
    as ([lines rb] & [(dk & [_ (da' & Hda' & Hb)] & Hrb) Hheard] & Hc & Hlines & Hno). cbn [fst snd] in *.
  pose proof (but_writing_eq _ _ Hb) as (_ & _ & _ & Hrb').
  assert (reading_buffer da' = rb) as Heq by congruence. exists lines, da'. rw Heq. split_and!; [done..|].
  intros b d Hbd Hp. destruct (Hheard b d (conj Hbd Hp)) as (c & t & dn & s & (Hcc & Hout & Hcn & Hpn & Hm) & _ & d' & Hd' & Hb' & Hg).
  destruct (but_writing_eq _ _ Hb') as (_ & Hn & Hpd & _).
  exists c, t, d'. split; [exact Hcc|]. split_and!; [done|done|by rw -Hcn /cname Hn|congruence|by eapply mingled_grown].
Qed.
End theorem.

(** ** A schedule *)

(** The reading thread's program, [None], and the others. *)
Fixpoint amid {A} (l : list (option turn_of)) (p : prog mem A) (w : World mem) (v : prog mem bool) :
    option (A * World mem * prog mem bool) :=
  match l with
  | [] => match p with Done a => Some (a, w, v) | Act _ _ => None end
  | None :: l =>
    match p with
    | Done _ => None
    | Act m k => match m w with Ret (x, w1) => amid l (k x) w1 v | _ => None end
    end
  | Some t :: l =>
    match checked1 t (mkThreads w (Done false) v) with
    | Some (mkThreads w1 (Done false) v1) => amid l p w1 v1
    | _ => None
    end
  end.

Lemma amid_shared {A} l : forall (p : prog mem A) w v a w' v',
  amid l p w v = Some (a, w', v') -> shared behind (fun _ => [nul]) p w v a w' v'.
Proof.
  induction l as [|[t|] l IH]; intros p w v a w' v'; cbn [amid].
  - destruct p; [intros [= -> -> ->]; constructor|done].
  - destruct (checked1 t _) as [[w1 [[]|] v1]|] eqn:Hc; [done| |done..]. intros Hl.
    eapply sh_other; [by apply checked1_move in Hc|by apply IH].
  - destruct p as [|X m k]; [done|]. destruct (m w) as [[x w1]| |] eqn:Hm; [|done..]. intros Hl.
    eapply sh_read; [exact Hm|by apply IH].
Qed.

(** Two lines of ann's, and the beginning of a third, have arrived and been read; the
    reading thread is about to handle them. *)
Definition anns_input : bytes := bs "TO-ALL: hi" ++ [nl] ++ bs "TO-C-bob: yo" ++ [nl] ++ bs "TO-".
Definition arrived : option threads :=
  x ← gathered;
  checked (Data 5 anns_input :: ReadTurn (fun _ => (1, [1; 0; 0])) :: replicate 7 Read) x.

(** ... while the writing thread flushes everybody and logs the third client out. *)
Definition interrupted : list (option turn_of) :=
  Some WriteTurn :: replicate 10 (Some Write) ++ replicate 8 None ++ replicate 26 (Some Write) ++ Some (Listen 8) ::
  replicate 29 None ++ replicate 4 (Some Write).

Lemma arrived_moves x : arrived = Some x -> rtc (admissible_move behind (fun _ => [nul])) (threads_start race_world) x.
Proof.
  unfold arrived. destruct gathered as [y|] eqn:Hy; [|intros Hx; discriminate Hx]. cbn [mbind option_bind].
  intros Hx. etrans; [by apply gathered_moves|by eapply checked_moves].
Qed.

(** The state in which ann's input is handled, and the interrupted run. *)
Definition handled : option (threads * (unit * World mem * prog mem bool) * ClientData) :=
  x ← arrived; r ← amid interrupted (try_to_handle behind (fun _ => [nul]) 1) (t_world x) (t_writer x);
  da ← w_heap (t_world x) !! 1; Some (x, r, da).
Definition handled_check : bool := match handled with Some (_, _, da) => negb (pub da =? u64 FAIL) | None => false end.
Lemma handled_checked : handled_check = true.
Proof. by vm_compute. Qed.

Lemma handled_run x u w' v' da : handled = Some (x, (u, w', v'), da) ->
  arrived = Some x /\ w_heap (t_world x) !! 1 = Some da /\
  amid interrupted (try_to_handle behind (fun _ => [nul]) 1) (t_world x) (t_writer x) = Some (u, w', v').
Proof.
  unfold handled. destruct arrived as [y|]; [|intros H; discriminate H]. cbn [mbind option_bind].
  destruct (amid interrupted _ _ _) as [r|] eqn:Hr; [|intros H; discriminate H]. cbn [mbind option_bind].
  destruct (w_heap (t_world y) !! 1) as [d|] eqn:Hd; [|intros H; discriminate H]. cbn [mbind option_bind].
  intros [= <- -> <-]. by split_and!.
Qed.

Lemma input_refines_amid_witness :
  match handled with
  | Some (x, (_, w', _), da) => exists lines da',
    w_heap w' !! 1 = Some da' /\ Forall line_text lines /\ next_message (reading_buffer da') = None /\
    contents (reading_buffer da) = (lines ≫= fun l => l ++ [nl]) ++ contents (reading_buffer da') /\
    forall b d, w_heap (t_world x) !! b = Some d -> pub d <> u64 FAIL -> exists c t d',
      foldl (handle_line (clients (w_server (t_world x))) 1) (abs_heap (w_heap (t_world x))) lines !! b = Some c /\
      a_out c = contents (writing_buffer d) ++ t /\
      w_heap w' !! b = Some d' /\ cname d' = a_name c /\ pub d' = a_pub c /\
      mingled (wire (t_world x) d) t (wire w' d')
  | None => False
  end.
Proof.
  pose proof handled_checked as Hc. unfold handled_check in Hc.
  destruct handled as [[[x [[[] w'] v']] da]|] eqn:Hh; [|discriminate Hc].
  destruct (handled_run _ _ _ _ _ Hh) as (Hx & Hda & Hrun). apply negb_true_iff, Z.eqb_neq in Hc.
  apply (input_refines_amid behind (fun _ => [nul]) race_world x 1 da w' v');
    [apply behind_terminated|intros _; apply list_elem_of_here|apply race_world_inv|by intros a dc ?|by apply arrived_moves
    |exact Hda|exact Hc|by apply amid_shared in Hrun].
Defined.

(** What bob gets in this run: the notice that the third client has left, and ann's
    two lines; the fourth client has joined, and the third line stays incomplete. *)
Example bob_gets_amid :
  match handled with
  | Some (_, (_, w', _), _) =>
    Some (clients (w_server w'), wire w' <$> w_heap w' !! 2, contents ∘ reading_buffer <$> w_heap w' !! 1)
  | None => None
  end =
  Some ([1; 2; 4], Some (sys_text (bs "unknown has logged out") ++ p2p_text (bs "ann") (bs "hi") ++ p2p_text (bs "ann") (bs "yo")),
        Some (bs "TO-")).
Proof. by vm_compute. Qed.
