(* ===== verification/ServerMain.v ===== *)
(** * Start and end of the server: [main], [handle_listen] and its threads

    [main] and the thread that it starts, as far as the other files leave them
    out: the order of the calls, the exits, the creation and joining of the
    threads.  What the other threads do meanwhile is a computation given from
    outside. *)
From Stdlib Require Import Strings.Byte String.
From S2P Require Import Prelude CLib NetUtil Alloc Cache Buffer Message ClientInfo Server PoolShared.
From S2P Require Import ServerSpec ServerLoop ServerTurns Threads ServerRun BufferTheorems ClientTheorems ServerTheorems RunTheorems.

(** How the process ends: by [return] from [main] or by [exit] in [err_sys]. *)
Inductive status :=
| Returned (code : Z)
| Exited (code : Z).

(** The results of the calls that [main] makes.  [c_cache] is what the caller
    finds as the result of [initialise_cache_module], which returns none. *)
Record calls := mkCalls {
  c_socket : Z;
  c_bind : Z;
  c_listen : Z;
  c_cache : Z;
  c_now : Z;
  c_init1 : Z;
  c_init2 : Z;
  c_mutex : Z;
  c_cond : Z;
  c_create : Z;
}.

(** One round of the loop of [handle_listen]: what the other threads do before
    [accept] returns, what [accept] and the calls behind it return, and for each
    [pthread_create] its result and what it leaves in the variable. *)
Record accept_round (S : Type) := mkAccept {
  ac_others : M (World S) ();
  ac_client : Z;
  ac_fd : fdesc;
  ac_peer : Z * option bytes * Z;
  ac_now : Z;
  ac_init1 : Z;
  ac_init2 : Z;
  ac_read : Z * Z;
  ac_write : Z * Z;
}.
Arguments mkAccept {S}. Arguments ac_others {S}. Arguments ac_client {S}. Arguments ac_fd {S}.
Arguments ac_peer {S}. Arguments ac_now {S}. Arguments ac_init1 {S}. Arguments ac_init2 {S}. Arguments ac_read {S}. Arguments ac_write {S}.

(** The loop is still in [accept], or has been left; with the two variables. *)
Inductive listening :=
| Accepting (reading_thread writing_thread : Z)
| Left (reading_thread writing_thread : Z).

Section main.
Context {S : Type} `{CacheModule S} `{!CacheLifecycle S}.
Variable inet_pton : Z -> bytes -> option bytes.

Fixpoint listen_loop (rounds : list (accept_round S)) (reading_thread writing_thread : Z)
    : M (World S) listening :=
  i ← server;
  if is_running i =? 0 then mret (Left reading_thread writing_thread)
  else
    match rounds with
    | [] => mret (Accepting reading_thread writing_thread)
    | r :: rounds =>
      _ ← ac_others r;
      added ← accept_client (ac_client r) (ac_fd r) (ac_peer r) (ac_now r) (ac_init1 r) (ac_init2 r);
      if negb added then listen_loop rounds reading_thread writing_thread
      else if reading_thread =? -1 then
        let '(ret, reading_thread) := ac_read r in
        if negb (ret =? SUCC) then mret (Left reading_thread writing_thread)
        else
          let '(ret, writing_thread) := ac_write r in
          if negb (ret =? SUCC) then mret (Left reading_thread writing_thread)
          else listen_loop rounds reading_thread writing_thread
      else listen_loop rounds reading_thread writing_thread
    end.

(** The threads joined in the end, [None] while the loop goes on. *)
Definition handle_listen (rounds : list (accept_round S)) : M (World S) (option (list Z)) :=
  r ← listen_loop rounds (-1) (-1);
  match r with
  | Accepting _ _ => mret None
  | Left reading_thread writing_thread =>
    i ← server;
    _ ← put_server (stop i);
    mret (Some ((if reading_thread =? -1 then [] else [reading_thread]) ++
                (if writing_thread =? -1 then [] else [writing_thread])))
  end.

(** [argv]: the two arguments; [thread]: the listening thread from its creation
    until it has been joined. *)
Definition main (argc : Z) (argv : bytes * bytes) (nm : NetMem) (c : calls) (thread : M (World S) ())
    : M (World S) status :=
  if argc <? 3 then mret (Exited 1)
  else
    '(ret, server_addr, _) ← lift (get_addr_info_from_ip_and_port inet_pton argv.1 argv.2 nm);
    if negb (ret =? 0) then mret (Returned (-1))
    else match server_addr with
    | None => undef
    | Some _ =>
      let listen_fd := c_socket c in
      if listen_fd <? 0 then mret (Exited 1)
      else
        w ← getS;
        _ ← putS (set_fds (<[listen_fd := mkFd [] [] [] []]> (w_fds w)) w);
        if c_bind c <? 0 then mret (Exited 1)
        else if c_listen c <? 0 then _ ← close listen_fd; mret (Exited 1)
        else
        _ ← on_mem cl_init;
        if negb (c_cache c =? 0) then _ ← close listen_fd; mret (Exited 1)
        else
          o ← on_mem (init_server_info listen_fd (c_now c) (c_init1 c) (c_init2 c) (c_mutex c) (c_cond c));
          match o with
          | None => _ ← close listen_fd; _ ← on_mem cl_release; mret (Exited 1)
          | Some (si, d) =>
            w ← getS;
            let a := w_next w in
            _ ← putS (mkWorld (w_mem w) (<[a := d]> (w_heap w)) (w_fds w) (a + 1)
                        (mkServer (clients si) (client_count si) (is_running si) a (sign_to_flush_msg si)));
            _ ← (if negb (c_create c =? 0) then mret tt else thread);
            _ ← release_server_info;
            _ ← on_mem cl_release;
            _ ← close listen_fd;
            mret (Returned 0)
          end
    end.
End main.

(** ** The contract *)

(** What the loop of [handle_listen] comes to: the threads are created with the
    first client and never again. *)
Fixpoint listening_of {S} (rounds : list (accept_round S)) : listening :=
  match rounds with
  | [] => Accepting (-1) (-1)
  | r :: rounds =>
    if ac_client r <? 0 then listening_of rounds
    else if negb ((ac_read r).1 =? SUCC) then Left (ac_read r).2 (-1)
    else if negb ((ac_write r).1 =? SUCC) then Left (ac_read r).2 (ac_write r).2
    else Accepting (ac_read r).2 (ac_write r).2
  end.

(** The exit of [main]: [addr] is the result of the address conversion. *)
Definition exit_of (argc addr : Z) (c : calls) : status :=
  if argc <? 3 then Exited 1
  else if negb (addr =? 0) then Returned (-1)
  else if (c_socket c <? 0) || (c_bind c <? 0) || (c_listen c <? 0) || negb (c_cache c =? 0) ||
          negb (c_mutex c =? 0) || negb (c_cond c =? 0)
       then Exited 1
  else Returned 0.

(** ** Lemmas *)

Section listening.
Context {S : Type} `{!CacheModule S} `{!CacheModuleLaws S}.
Context (heap_after : Z -> bytes) (behind : nat -> bytes).
Hypothesis heap_terminated : terminated heap_after.
Hypothesis behind_terminated : forall i, nul ∈ behind i.
Implicit Types (w : World S).

Definition alive (w : World S) : Prop := server_inv w /\ is_running (w_server w) <> 0.

(** What the rounds bring.  The other threads, the peers and the network have made
    an admissible run of events before [accept] returns (ServerRun.v); a new socket
    is as it should be in the state it meets, the locks of the new client can be
    initialised, and a thread that was created has an identifier. *)
Fixpoint rounds_ok (rounds : list (accept_round S)) (w : World S) : Prop :=
  match rounds with
  | [] => True
  | r :: rounds =>
    ac_init1 r = 0 /\ ac_init2 r = 0 /\ ((ac_read r).1 = SUCC -> (ac_read r).2 <> -1) /\
    exists evs, ac_others r = run_events heap_after behind evs /\ admissible_run heap_after behind evs w /\
    forall w1, run_events heap_after behind evs w = Ret (tt, w1) ->
      (0 <= ac_client r -> admissible w1 (EListen (ac_client r) (ac_fd r) (ac_peer r) (ac_now r))) /\
      forall b w2, accept_client (ac_client r) (ac_fd r) (ac_peer r) (ac_now r) 0 0 w1 = Ret (b, w2) ->
        rounds_ok rounds w2
  end.

(** The events leave the server running. *)
Lemma others_alive evs w :
  alive w -> admissible_run heap_after behind evs w ->
  exists w1, run_events heap_after behind evs w = Ret (tt, w1) /\ alive w1.
Proof.
  intros [Hi Hr] Had. destruct (wp_total _ _ _ (run_events_go_on heap_after behind heap_terminated behind_terminated evs w Hi Had))
    as ([] & w1 & Hrun & Hi1 & Hg). exists w1. split; [done|]. split; [done|]. unfold goes_on in Hg. congruence.
Qed.

Lemma accept_alive w id f peer now :
  alive w -> 0 <= id -> admissible w (EListen id f peer now) ->
  exists w', accept_client id f peer now 0 0 w = Ret (true, w') /\ alive w'.
Proof.
  intros [Hi Hr] Hid Had.
  destruct (wp_total _ _ _ (listen_inv_step w id f peer now Hi Had)) as ([] & w' & Hrun & Hi' & _).
  pose proof Had as (_ & _ & _ & _ & _ & _ & Hroom).
  destruct (wp_total _ _ _ (accept_spec ∅ w id f peer now (iv_world _ Hi) (iv_server _ Hi)
    (iv_fresh _ Hi (w_next w) ltac:(lia)) Hid ltac:(lia))) as (b & w2 & Hrun2 & -> & _ & _ & d & _ & _ & _ & _ & _ & Hr2).
  unfold handle_listen_turn, mbind, M_bind in Hrun. rw Hrun2 in Hrun. injection Hrun as <-.
  exists w2. split; [done|]. split; [done|congruence].
Qed.

(** One round up to the creation of the threads. *)
Lemma round_step r rounds rt wt w :
  alive w -> rounds_ok (r :: rounds) w ->
  exists w2, alive w2 /\ rounds_ok rounds w2 /\
  listen_loop (r :: rounds) rt wt w =
    (if ac_client r <? 0 then listen_loop rounds rt wt w2
     else if rt =? -1 then
       if negb ((ac_read r).1 =? SUCC) then Ret (Left (ac_read r).2 wt, w2)
       else if negb ((ac_write r).1 =? SUCC) then Ret (Left (ac_read r).2 (ac_write r).2, w2)
       else listen_loop rounds (ac_read r).2 (ac_write r).2 w2
     else listen_loop rounds rt wt w2).
Proof.
  intros Hw (Hi1 & Hi2 & _ & evs & Hev & Hadm & Hnext). destruct (others_alive evs w Hw Hadm) as (w1 & Hrun & Hw1).
  destruct (Hnext w1 Hrun) as [Had Hrest]. rw -Hev in Hrun.
  cbn [listen_loop]. unfold mbind, M_bind, server. rw (proj2 (Z.eqb_neq (is_running (w_server w)) 0)); [apply Hw|].
  rw Hrun Hi1 Hi2. destruct (Z.ltb_spec (ac_client r) 0) as [Hneg|Hpos].
  - assert (accept_client (ac_client r) (ac_fd r) (ac_peer r) (ac_now r) 0 0 w1 = Ret (false, w1)) as Hacc.
    { unfold accept_client. by rw (proj2 (Z.ltb_lt _ _)). }
    exists w1. split; [done|]. split; [by eapply Hrest|]. by rw Hacc.
  - destruct (accept_alive w1 (ac_client r) (ac_fd r) (ac_peer r) (ac_now r) Hw1 Hpos (Had Hpos)) as (w2 & Hacc & Hw2).
    exists w2. split; [done|]. split; [by eapply Hrest|]. rw Hacc. cbn [negb]. destruct (rt =? -1); [|done].
    destruct (ac_read r) as [ret rt'], (ac_write r) as [ret' wt']. cbn [fst snd].
    destruct (negb (ret =? SUCC)); [done|]. by destruct (negb (ret' =? SUCC)).
Qed.

Lemma listen_loop_created rounds rt wt : forall w,
  alive w -> rounds_ok rounds w -> rt <> -1 ->
  exists w', listen_loop rounds rt wt w = Ret (Accepting rt wt, w') /\ alive w'.
Proof.
  induction rounds as [|r rounds IH]; intros w Hw Hall Hrt.
  - exists w. split; [|done]. cbn. unfold mbind, M_bind, server.
    by rw (proj2 (Z.eqb_neq (is_running (w_server w)) 0)); [apply Hw|].
  - destruct (round_step r rounds rt wt w Hw Hall) as (w2 & Hw2 & Hrest & ->).
    rw (proj2 (Z.eqb_neq rt (-1))) //. destruct (ac_client r <? 0); by apply IH.
Qed.

Lemma listen_loop_spec rounds : forall w,
  alive w -> rounds_ok rounds w ->
  exists w', listen_loop rounds (-1) (-1) w = Ret (listening_of rounds, w') /\ alive w'.
Proof.
  induction rounds as [|r rounds IH]; intros w Hw Hall.
  - exists w. split; [|done]. cbn. unfold mbind, M_bind, server.
    by rw (proj2 (Z.eqb_neq (is_running (w_server w)) 0)); [apply Hw|].
  - destruct (round_step r rounds (-1) (-1) w Hw Hall) as (w2 & Hw2 & Hrest & ->).
    cbn [listening_of]. change (-1 =? -1) with true. destruct (ac_client r <? 0); [by apply IH|].
    destruct Hall as (_ & _ & Hrd & _).
    destruct (Z.eqb_spec (ac_read r).1 SUCC) as [Hs|_]; [|by exists w2]. cbn [negb].
    destruct (negb ((ac_write r).1 =? SUCC)); [by exists w2|].
    apply listen_loop_created; [done|done|by apply Hrd].
Qed.

(** *** [init_server_info] *)

Lemma init_server_spec L s sock now mutex cond :
  cm_inv false L s ->
  wp false (init_server_info sock now 0 0 mutex cond) s (fun o s' =>
    cm_inv false L s' /\
    if (mutex =? SUCC) && (cond =? SUCC)
    then exists d, o = Some (mkServer [] 0 1 0 0, d) /\ fresh_client sock (bs "IMServer") d
    else o = None).
Proof.
  intros Hinv. unfold init_server_info. eapply wp_bind, wp_mono.
  { apply (new_client_spec L s sock (lit "IMServer") (bs "IMServer")); [done|done|by vm_compute]. }
  intros od s1 (Hinv1 & d & -> & Hd). eapply wp_bind, wp_mono; [by apply cm_malloc_spec|].
  intros [blk|] s2 (Hinv2 & Hu & _); [|by destruct Hu].
  assert (wp false (_ ← release_client_info (Some d); mret (None (A := ServerInfo * ClientData))) s2
    (fun o s' => cm_inv false L s' /\ o = None)) as Hrel.
  { destruct Hd as (Hci & Hown & _). eapply wp_bind, wp_mono.
    - apply (release_spec false L); [done|done|]. rw Hown. apply empty_subseteq.
    - intros r s3 [_ Hs3]. apply wp_ret. split; [|done]. by rw Hown difference_empty_L in Hs3. }
  destruct (mutex =? SUCC), (cond =? SUCC); cbn [andb]; try exact Hrel.
  apply wp_ret. split; [done|]. by exists d.
Qed.
End listening.

Lemma addr_present inet_pton ip port nm ret o nm' :
  get_addr_info_from_ip_and_port inet_pton ip port nm = Ret ((ret, o), nm') -> ret = 0 -> is_Some o.
Proof.
  unfold get_addr_info_from_ip_and_port, mbind, M_bind, lift, net_malloc, undef, mret, M_ret.
  destruct (atoi port) as [p| |]; [|done..]. destruct (p <=? 0); [by intros [= <- <- _]|].
  destruct (strcmp _ ip) as [c| |]; [|done..].
  repeat case_match; intros [= <- <- _]; done.
Qed.

(** ** Theorems *)

Lemma wp_close {S} u id (w : World S) Q :
  Q tt (set_fds (delete id (w_fds w)) w) -> wp u (close id) w Q.
Proof. done. Qed.

Section theorems.
Context {S : Type} `{!CacheModule S} `{!CacheModuleLaws S} `{!CacheLifecycle S} `{!CacheLifecycleLaws S}.
Implicit Types (w : World S).

(** C27 (refinement): The listening thread.  In each round the other threads first
    make any admissible run of events; then [accept] fails or brings a client, for
    which there is memory and whose locks can be initialised.  The loop does what
    [listening_of] says.  The two threads are created with the first client accepted.
    If both creations succeed, nothing is created again and the loop is not left: no
    event clears [is_running], and a reading thread that has given up is never
    replaced.  If one fails, the loop is left, [is_running] is cleared, and what is
    joined is what the two variables hold, unless that is -1; for the thread whose
    creation failed it is whatever [pthread_create] has left there, which need not be
    a thread. *)
Theorem handle_listen_refines heap_after behind (rounds : list (accept_round S)) w :
  terminated heap_after -> (forall i, nul ∈ behind i) ->
  server_inv w -> is_running (w_server w) <> 0 -> rounds_ok heap_after behind rounds w ->
  exists w', server_inv w' /\
    match listening_of rounds with
    | Accepting _ _ => handle_listen rounds w = Ret (None, w') /\ is_running (w_server w') <> 0
    | Left rt wt => is_running (w_server w') = 0 /\
        handle_listen rounds w = Ret (Some ((if rt =? -1 then [] else [rt]) ++ (if wt =? -1 then [] else [wt])), w')
    end.
Proof.
  intros Hter Hbeh Hi Hr Hall. destruct (listen_loop_spec heap_after behind Hter Hbeh rounds w (conj Hi Hr) Hall) as (w1 & Hrun & Hi1 & Hr1).
  unfold handle_listen, mbind, M_bind. rw Hrun. destruct (listening_of rounds) as [rt wt|rt wt]; [by exists w1|].
  exists (set_server (stop (w_server w1)) w1). split; [|done].
  eapply (inv_step w1); try done; [by apply world_ok_server, Hi1| |].
  - apply (server_ok_heap w1); [apply Hi1|done..|]. intros b db Hb. cbn. by rw Hb.
  - intros a d _ Hd. exists d. split; [done|]. by apply user_step_same.
Qed.

(** How [main] ends: with the status [e], the life of the pool in order, and after a
    return of 0 the socket [id] closed and the server object [a] released. *)
Definition ended (e : status) (kept : Prop) (id a : Z) (st : status) (w' : World S) : Prop :=
  st = e /\ (kept -> exists L, cl_raw false L (w_mem w')) /\
  (st = Returned 0 -> w_fds w' !! id = None /\ w_heap w' !! a = None /\ is_running (w_server w') = 0).

Lemma ended_early e kept id a w : e <> Returned 0 -> cl_raw false ∅ (w_mem w) -> ended e kept id a e w.
Proof. intros He Hw. by split_and!; [|intros _; exists ∅|]. Qed.

(** The end after a failed initialisation of the mutex or the condition. *)
Lemma main_gives_up kept id a (w : World S) :
  cm_inv false ∅ (w_mem w) ->
  wp false (_ ← close id; _ ← on_mem cl_release; mret (Exited 1)) w (ended (Exited 1) kept id a).
Proof.
  intros Hw. apply wp_bind, wp_close, wp_bind, wp_on_mem.
  eapply wp_mono; [by apply (cl_release_spec _ ∅)|]. intros [] s Hs. by apply wp_ret, ended_early.
Qed.

(** The server object at work, and its release. *)
Lemma main_serves kept id a created (thread : M (World S) ()) w :
  world_ok ∅ w -> info (w_server w) = a -> is_Some (w_heap w !! a) ->
  (forall w1, world_ok ∅ w1 -> info (w_server w1) = a -> is_Some (w_heap w1 !! a) ->
     exists w2, thread w1 = Ret (tt, w2) /\ world_ok ∅ w2 /\ info (w_server w2) = a /\ is_Some (w_heap w2 !! a)) ->
  wp false (_ ← (if created : bool then mret tt else thread); _ ← release_server_info; _ ← on_mem cl_release;
            _ ← close id; mret (Returned 0)) w (ended (Returned 0) kept id a).
Proof.
  intros Hw Ha Hs Hth. apply wp_bind.
  assert (wp false (if created then mret tt else thread) w (fun _ w4 =>
    world_ok ∅ w4 /\ info (w_server w4) = a /\ is_Some (w_heap w4 !! a))) as Hrun.
  { destruct created; [by apply wp_ret|]. destruct (Hth w Hw Ha Hs) as (w4 & Hrun & ? & ? & ?). by eapply wp_run. }
  eapply wp_mono; [exact Hrun|]. intros [] w4 (Hw4 & Hinfo & [d4 Hd4]).
  unfold release_server_info. apply wp_bind, wp_bind, wp_server, wp_bind, wp_put_server, wp_bind. rw Hinfo.
  eapply wp_mono; [by apply (release_at ∅ _ a d4); [apply world_ok_server|]|].
  intros r w5 ([L5 Hw5] & (Hf5 & _ & Hsv5) & Hh5). apply wp_ret, wp_bind, wp_on_mem.
  eapply wp_mono; [by apply (cl_release_spec _ L5), (wa_mem _ _ _ Hw5)|]. intros [] s6 Hs6.
  apply wp_bind, wp_close, wp_ret. refine (conj _ (conj _ _)); [done|by intros _; exists L5|]. intros _. split_and!.
  - apply lookup_delete_eq.
  - cbn. rw Hh5. apply lookup_delete_eq.
  - cbn. by rw Hsv5.
Qed.

(** C28 (error): The exits of the server's [main]: with [ret] the result of the
    address conversion, the process ends as [exit_of] says; from the start of the
    program the pool's lock is initialised before anything uses the pool and is
    destroyed in the end, unless [main] takes the unspecified result of
    [initialise_cache_module] for a failure; and with what the listening thread
    keeps of the server object, a return of 0 leaves the listening socket closed
    and the server object released. *)
Theorem main_exits inet_pton argc argv nm c thread w ret o nm' :
  cl_raw false ∅ (w_mem w) -> w_heap w = ∅ -> c_init1 c = 0 -> c_init2 c = 0 ->
  get_addr_info_from_ip_and_port inet_pton argv.1 argv.2 nm = Ret ((ret, o), nm') ->
  (forall w1, world_ok ∅ w1 -> info (w_server w1) = w_next w -> is_Some (w_heap w1 !! w_next w) ->
     exists w2, thread w1 = Ret (tt, w2) /\ world_ok ∅ w2 /\ info (w_server w2) = w_next w /\
       is_Some (w_heap w2 !! w_next w)) ->
  exists w', main inet_pton argc argv nm c thread w = Ret (exit_of argc ret c, w') /\
    (c_cache c = 0 -> exists L, cl_raw false L (w_mem w')) /\
    (exit_of argc ret c = Returned 0 ->
       w_fds w' !! c_socket c = None /\ w_heap w' !! w_next w = None /\ is_running (w_server w') = 0).
Proof.
  intros Hraw Hheap Hi1 Hi2 Haddr Hth.
  assert (wp false (main inet_pton argc argv nm c thread) w (ended (exit_of argc ret c) (c_cache c = 0) (c_socket c) (w_next w))) as Hwp.
  2: { destruct (wp_total _ _ _ Hwp) as (st & w' & Hrun & -> & ? & ?). by exists w'. }
  unfold main, exit_of. destruct (argc <? 3); [by apply wp_ret, ended_early|].
  apply wp_bind, wp_lift. rw Haddr. apply owp_ret.
  destruct (Z.eqb_spec ret 0) as [Hz|_]; cbn [negb]; [|by apply wp_ret, ended_early].
  destruct (addr_present _ _ _ _ _ _ _ Haddr Hz) as [sa ->]. cbv zeta.
  destruct (c_socket c <? 0); cbn [orb]; [by apply wp_ret, ended_early|].
  apply wp_bind, wp_getS, wp_bind, wp_putS.
  destruct (c_bind c <? 0); cbn [orb]; [by apply wp_ret, ended_early|].
  destruct (c_listen c <? 0); cbn [orb]; [by apply wp_bind, wp_close, wp_ret, ended_early|].
  apply wp_bind, wp_on_mem. eapply wp_mono; [by apply (cl_init_spec _ ∅)|]. intros [] s1 Hs1.
  destruct (Z.eqb_spec (c_cache c) 0) as [Hc|Hc]; cbn [negb orb]; [|by apply wp_bind, wp_close, wp_ret].
  rw Hi1 Hi2. apply wp_bind, wp_on_mem. eapply wp_mono; [by apply (init_server_spec ∅)|].
  intros o2 s2 (Hs2 & Ho2). unfold SUCC in Ho2.
  destruct (c_mutex c =? 0); cbn [andb negb orb] in *; [|subst o2; by apply main_gives_up].
  destruct (c_cond c =? 0); cbn [negb] in *; [|subst o2; by apply main_gives_up].
  destruct Ho2 as (d & -> & Hci & Hown & _). apply wp_bind, wp_getS, wp_bind, wp_putS. cbn.
  apply main_serves; [|done|by cbn; rw lookup_insert_eq; eexists|done].
  exists ∅. constructor; cbn; [done| |done|].
  - rw Hheap. by apply heap_inv_new.
  - intros a da. rw Hheap. intros [[<- <-]|[_ ?]]%lookup_insert_Some; [by rw Hown|done].
Qed.
End theorems.

(** ** Concrete runs *)

(** A connection on socket [id] after the other threads have made some turns. *)
Definition connection (id : Z) (evs : list event) (r w : Z * Z) : accept_round mem :=
  mkAccept (run_events behind (fun _ => [nul]) evs) id no_fd (0, None, 999) 1 0 0 r w.

(** Deciding [rounds_ok]. *)
Fixpoint rounds_check (rounds : list (Z * list event * (Z * Z) * (Z * Z))) (w : World mem) : bool :=
  match rounds with
  | [] => true
  | (id, evs, r, t) :: rounds =>
    negb (r.2 =? -1) && run_check behind (fun _ => [nul]) evs w &&
    match run_events behind (fun _ => [nul]) evs w with
    | Ret (_, w1) =>
      ((id <? 0) || admissible_check w1 (EListen id no_fd (0, None, 999) 1)) &&
      match accept_client id no_fd (0, None, 999) 1 0 0 w1 with
      | Ret (_, w2) => rounds_check rounds w2
      | _ => true
      end
    | _ => false
    end
  end.
Definition connections (l : list (Z * list event * (Z * Z) * (Z * Z))) : list (accept_round mem) :=
  (fun '(id, evs, r, t) => connection id evs r t) <$> l.

Lemma rounds_check_spec l : forall w,
  alive w -> rounds_check l w = true -> rounds_ok behind (fun _ => [nul]) (connections l) w.
Proof.
  induction l as [|[[[id evs] r] t] l IH]; intros w Hw Hc; [done|].
  cbn [rounds_check connections fmap list_fmap rounds_ok] in *. apply andb_prop in Hc as [Hc Hc2].
  apply andb_prop in Hc as [Hrd Hev]. apply negb_true_iff, Z.eqb_neq in Hrd. apply run_check_spec in Hev.
  destruct (others_alive behind (fun _ => [nul]) behind_terminated (fun _ => list_elem_of_here _ _) evs w Hw Hev)
    as (w1 & Hrun & Hw1).
  rw Hrun in Hc2. apply andb_prop in Hc2 as [Had Hc3].
  assert (0 <= id -> admissible w1 (EListen id no_fd (0, None, 999) 1)) as Hadm.
  { intros Hid. rw (proj2 (Z.ltb_ge id 0)) // in Had. by apply admissible_check_spec. }
  split_and!; try done. exists evs. split_and!; [done..|]. intros w2 Hrun2. cbn in Hrun2.
  assert (w2 = w1) as -> by congruence. split; [done|]. intros b w3 Hacc. cbn in Hacc. rw Hacc in Hc3.
  apply IH; [|done]. destruct (Z.ltb_spec id 0) as [Hneg|Hpos].
  - unfold accept_client in Hacc. rw (proj2 (Z.ltb_lt id 0)) // in Hacc. by injection Hacc as _ <-.
  - destruct (accept_alive w1 id no_fd (0, None, 999) 1 Hw1 Hpos (Hadm Hpos)) as (w4 & Hacc' & Hw4).
    rw Hacc in Hacc'. by injection Hacc' as _ <-.
Qed.

(** A failed [accept], two clients with turns of the threads between them. *)
Definition demo_rounds : list (Z * list event * (Z * Z) * (Z * Z)) :=
  [ (-1, [], (0, 11), (0, 12));
    (5, [], (0, 11), (0, 12));
    (6, [EData 5 (bs "LOGIN: ann" ++ [nl]); ERead (fun _ => (1, [1])); EWrite], (0, 13), (0, 14)) ].

Lemma handle_listen_refines_witness :
  exists w', server_inv w' /\ (handle_listen (connections demo_rounds) no_users = Ret (None, w') /\
    is_running (w_server w') <> 0).
Proof.
  apply (handle_listen_refines behind (fun _ => [nul]) (connections demo_rounds) no_users);
    [apply behind_terminated|intros _; apply list_elem_of_here|apply no_users_inv|done|].
  apply rounds_check_spec; [split; [apply no_users_inv|done]|]. by vm_compute.
Defined.

Definition good_calls : calls := mkCalls 4 0 0 0 1 0 0 0 0 0.

(** The program's start, with other users of the pool. *)
Definition fresh_start : World pool_state :=
  mkWorld (pool_start mem0 [[OGet 100]; [OGet 100; ORecycle 0 []]]) ∅ ∅ 1 (mkServer [] 0 0 0 0).

Lemma main_exits_witness :
  exists w', main (fun _ _ => None) 3 (lit "*", lit "4000") net0 good_calls (mret tt) fresh_start =
      Ret (Returned 0, w') /\
    (0 = 0 -> exists L, cl_raw false L (w_mem w')) /\
    (Returned 0 = Returned 0 -> w_fds w' !! 4 = None /\ w_heap w' !! 1 = None /\ is_running (w_server w') = 0).
Proof.
  eapply (main_exits (fun _ _ => None) 3 (lit "*", lit "4000") net0 good_calls (mret tt) fresh_start 0 _ _);
    [|done|done|done|by vm_compute|].
  - apply pool_start_raw; [apply mem0_inv|]. by repeat constructor.
  - intros w1 Hw1 Hi1 Hs1. by exists w1.
Defined.
