(* ===== verification/ClientMain.v ===== *)
(** * Start and end of the client: [main] of src/IMClient.c

    IMClient.v has the login line and the loop; here is what is around them: the
    order of the calls, the exits, and the blocks and the socket that each exit
    leaves. *)
From Stdlib Require Import Strings.Byte String.
From S2P Require Import Prelude CLib NetUtil Alloc Buffer Message ClientInfo Server ServerSpec ServerLoop IMClient.

(** The blocks that [main] allocates itself. *)
Inductive block := NameLine | PollIds | Buff.
#[global] Instance block_eq_decision : EqDecision block.
Proof. solve_decision. Defined.

(** The client's process: its blocks, whether the socket is open, what it
    registered with, and the loop's state. *)
Record process := mkProcess {
  p_blocks : list block;
  p_open : bool;
  p_registered : option bytes;
  p_client : Client;
}.
Definition alloc (b : block) : M process () := fun p =>
  Ret (tt, mkProcess (b :: p_blocks p) (p_open p) (p_registered p) (p_client p)).
(** Freeing what is not allocated is undefined. *)
Definition free (b : block) : M process () := fun p =>
  if bool_decide (b ∈ p_blocks p)
  then Ret (tt, mkProcess (filter (fun x => x <> b) (p_blocks p)) (p_open p) (p_registered p) (p_client p))
  else UB.
Definition set_open (o : bool) : M process () := fun p =>
  Ret (tt, mkProcess (p_blocks p) o (p_registered p) (p_client p)).
Definition register (d : bytes) : M process () := fun p =>
  Ret (tt, mkProcess (p_blocks p) (p_open p) (Some d) (p_client p)).
Definition put_loop (c : Client) : M process () := fun p =>
  Ret (tt, mkProcess (p_blocks p) (p_open p) (p_registered p) c).

Inductive exit_code :=
| Return (code : Z)
| Exit (code : Z)
| Waiting.    (* still in [poll] *)

(** The results of the calls. *)
Record client_calls := mkClientCalls {
  cc_socket : Z;
  cc_connect : Z;
  cc_name : Z -> option bytes;   (* [malloc] of the login line *)
  cc_send : Z;
  cc_polls : bool;               (* whether the two allocations succeed *)
  cc_buff : bool;
}.

(** Whether the rounds lead out of the loop. *)
Fixpoint loop_left (after : bytes) (rounds : list round) (c : Client) : outcome bool :=
  if is_online c then
    match rounds with
    | [] => Ret false
    | r :: rounds =>
      if r_poll r =? -1 then Ret true
      else c ← read_stdin after r c; loop_left after rounds (read_socket r c)
    end
  else Ret true.

(** The labels: [name] tells whether [name_line] is not NULL. *)
Definition main_socket_error : M process exit_code := _ ← set_open false; mret (Return 0).
Definition main_register_error (name : bool) : M process exit_code :=
  _ ← (if name then free NameLine else mret tt); main_socket_error.

(** From the registration on. *)
Definition online (c : client_calls) (after : bytes) (rounds : list round) : M process exit_code :=
  if negb (cc_polls c) then main_register_error false
  else
    _ ← alloc PollIds;
    if negb (cc_buff c) then main_register_error false
    else
      _ ← alloc Buff;
      let start := mkClient true [] [] in
      left ← lift (loop_left after rounds start);
      k ← lift (client_loop after rounds start);
      _ ← put_loop k;
      if negb left then mret Waiting
      else _ ← free Buff; main_register_error false.

Definition main (inet_pton : Z -> bytes -> option bytes) (argc : Z) (argv : bytes * bytes * bytes)
    (nm : NetMem) (c : client_calls) (after : bytes) (rounds : list round) : M process exit_code :=
  if argc <? 4 then mret (Exit 1)
  else
    let '(ip, port, name) := argv in
    _ ← lift (atoi port);
    '(ret, _, _) ← lift (get_addr_info_from_ip_and_port inet_pton ip port nm);
    if negb (ret =? 0) then mret (Return (-1))
    else if cc_socket c <? 0 then mret (Exit 1)
    else
      _ ← set_open true;
      if cc_connect c <? 0 then main_socket_error
      else
        line ← lift (login_line name (cc_name c));
        match line with
        | None => main_socket_error
        | Some line =>
          _ ← alloc NameLine;
          if negb (cc_send c =? zlen line) then main_register_error true
          else
            _ ← register line;
            _ ← free NameLine;
            online c after rounds
        end.

(** ** Lemmas *)

(** A process that has registered and owns nothing else. *)
Definition registered (p : process) : Prop := p_blocks p = [] /\ p_open p = true.

Lemma loop_total after rounds c b : loop_left after rounds c = Ret b -> exists c', client_loop after rounds c = Ret c'.
Proof.
  revert c. induction rounds as [|r rounds IH]; intros c; cbn [loop_left client_loop].
  - destruct (is_online c); by eexists.
  - destruct (is_online c); [|by eexists]. destruct (r_poll r =? -1); [by eexists|].
    destruct (read_stdin after r c) as [c1| |]; [|done..]. apply IH.
Qed.

(** ** Theorems *)

(** C37 (error): The client before and at its registration: every failing call
    ends the program with the socket closed and nothing sent; and once connected,
    with memory for the login line, the run is undefined, because that line does
    not fit its block. *)
Theorem client_main_start inet_pton argc ip port name s porti nm c after rounds p ret o nm' :
  atoi port = Ret porti -> p_open p = false ->
  get_addr_info_from_ip_and_port inet_pton ip port nm = Ret ((ret, o), nm') ->
  cstr name = Ret s -> zlen s < 2 ^ 62 ->
  (forall n, 0 <= n -> match cc_name c n with Some blk => zlen blk = n | None => True end) ->
  match main inet_pton argc (ip, port, name) nm c after rounds p with
  | Ret (e, p') =>
    p_open p' = false /\ p_blocks p' = p_blocks p /\ p_registered p' = p_registered p /\
    e = (if argc <? 4 then Exit 1 else if negb (ret =? 0) then Return (-1)
         else if cc_socket c <? 0 then Exit 1 else Return 0) /\
    (4 <= argc -> ret = 0 -> 0 <= cc_socket c -> 0 <= cc_connect c -> cc_name c (zlen s + 8) = None)
  | UB => 4 <= argc /\ ret = 0 /\ 0 <= cc_socket c /\ 0 <= cc_connect c /\ cc_name c (zlen s + 8) <> None
  | OutOfFuel => False
  end.
Proof.
  intros Hport Hopen Haddr Hs Hlen Hm. unfold main. destruct (Z.ltb_spec argc 4).
  { cbn. split_and!; try done. lia. }
  unfold mbind, M_bind, lift. rw Hport Haddr. destruct (Z.eqb_spec ret 0) as [Hz|Hz]; cbn [negb].
  2: { cbn. split_and!; done. }
  destruct (Z.ltb_spec (cc_socket c) 0).
  { cbn. split_and!; try done. lia. }
  cbn [set_open]. destruct (Z.ltb_spec (cc_connect c) 0).
  { cbn. split_and!; try done. lia. }
  unfold login_line, strlen. rw Hs. cbn [mbind outcome_bind]. change (zlen (bs CMD_LOGIN)) with 7.
  pose proof (zlen_nonneg s). rw (u64_small (zlen s + 7)); [lia|]. rw u64_small; [lia|].
  replace (zlen s + 7 + 1) with (zlen s + 8) by lia. specialize (Hm (zlen s + 8) ltac:(lia)).
  destruct (cc_name c (zlen s + 8)) as [blk|]; [|by cbn].
  rw mem_write_all; [rw zlen_zeros; lia|]. cbn [mbind outcome_bind]. rw store_cstr_overflow; [|done].
  rw zlen_zeros !zlen_app. change (zlen (bs CMD_LOGIN)) with 7. change (zlen [nl]) with 1. lia.
Qed.

(** The rest of the program, from the registration to the end:
    it frees nothing twice; when the loop is left the program returns 0 with the
    socket closed and the reading buffer freed - but the list for [poll] is
    never freed, on any exit on which it was allocated. *)
Theorem session_leaks_poll_ids c after rounds p left :
  registered p -> loop_left after rounds (mkClient true [] []) = Ret left ->
  exists e p', online c after rounds p = Ret (e, p') /\
    e = (if cc_polls c && cc_buff c && negb left then Waiting else Return 0) /\
    (e = Return 0 -> p_open p' = false /\ p_blocks p' = if cc_polls c then [PollIds] else []).
Proof.
  intros [Hb Ho] Hleft. destruct (loop_total _ _ _ _ Hleft) as [k Hk].
  unfold online, main_register_error, main_socket_error, mbind, M_bind, lift, mret, M_ret, alloc, put_loop, free, set_open.
  rw Hleft Hk. destruct (cc_polls c); cbn [negb andb]; [|eexists _, _; split; [done|]; by rw /= Hb].
  destruct (cc_buff c); cbn [negb andb]; [|eexists _, _; split; [done|]; by rw /= Hb].
  destruct left; cbn [negb]; [|by eexists _, _].
  cbn. rw Hb. eexists _, _. split; [done|]. done.
Qed.

(** ** Concrete runs *)

Definition demo_calls : client_calls := mkClientCalls 3 0 (fun n => Some (zeros n)) 11 true true.
Definition fresh_process : process := mkProcess [] false None (mkClient false [] []).

Lemma client_main_start_witness :
  match main (fun _ _ => None) 4 (lit "*", lit "4000", lit "bob") net0 demo_calls [] [] fresh_process with
  | Ret (e, p') =>
    p_open p' = false /\ p_blocks p' = [] /\ p_registered p' = None /\ e = Return 0 /\
    (4 <= 4 -> 0 = 0 -> 0 <= 3 -> 0 <= 0 -> cc_name demo_calls 11 = None)
  | UB => 4 <= 4 /\ 0 = 0 /\ 0 <= 3 /\ 0 <= 0 /\ cc_name demo_calls 11 <> None
  | OutOfFuel => False
  end.
Proof.
  apply (client_main_start (fun _ _ => None) 4 (lit "*") (lit "4000") (lit "bob") (bs "bob") 4000 net0 demo_calls
    [] [] fresh_process 0 (Some (mkAddr AF_INET (htons 4000) (zeros 4), sizeof_IPv4)) (mkNet [] 2 {[1]}));
    [by vm_compute|done|by vm_compute|by vm_compute|by vm_compute|].
  intros n Hn. cbn. rw zlen_zeros. lia.
Defined.

Definition one_round : list round :=
  [typed (bs "hi") 0 None; mkRound 1 0 1 None (Some []) 0].

Lemma session_leaks_poll_ids_witness :
  exists e p', online demo_calls [] one_round (mkProcess [] true None (mkClient false [] [])) = Ret (e, p') /\
    e = Return 0 /\ (e = Return 0 -> p_open p' = false /\ p_blocks p' = [PollIds]).
Proof.
  apply (session_leaks_poll_ids demo_calls [] one_round (mkProcess [] true None (mkClient false [] [])) true);
    [done|by vm_compute].
Defined.
